(* ===== verification/_CoqProject ===== *)
-Q . S2P
Prelude.v
GoStrings.v
Paths.v
Values.v
Json.v
JsonDecode.v
Sensitive.v
StateTree.v
Reducers.v
Patch.v
Access.v
Contracts.v
Projection.v
ParallelMerge.v
Errors.v
Worklist.v
ContractAnalysis.v
Dataflow.v
ExecutionPolicy.v
Tasks.v
Topology.v
Routing.v
Scheduler.v
GraphContracts.v
InitialState.v
Limiter.v
Lease.v
Budget.v
Records.v
RunStore.v
Stores.v
Artifacts.v
Commit.v
Transactions.v
FileDisk.v
FileStore.v
FileTxn.v
Recovery.v
CommitResolve.v
SqlRows.v
SqlStore.v
SqlCommit.v
SqlQueue.v
QueueHistory.v
QueueRefine.v
QueueSafety.v
Programs.v
RunServices.v
Interference.v
RunControl.v
RunLost.v
RunCancel.v
RunnerLease.v
DeletionPlan.v
Deletion.v
DeletionResume.v
FileDelete.v
