(* ===== verification/Prelude.v ===== *)
(** * WeaveFlow: a verification development of the graph runtime

    WeaveFlow runs agent workflows as graphs.  A run keeps one state, a tree of
    four sections addressed by paths; a node sees a projection of it through an
    access and answers with a patch; the scheduler runs the ready tasks as a
    wave, merges the patches of parallel branches into the state, routes every
    completed task along edges, conditions, commands and failure routes, and
    holds join nodes back until their upstream is done.  Budgets, retry policies
    and concurrency limiters bound a run, and a lease fences the process that
    executes it.

    ** Files

    Each file opens with a comment on what it holds and names the Go functions
    next to the definitions that translate them.

    - [Prelude]: errors as values (a Go function returning [(T, error)] is a
      [result]; every early return is an [Err]), the stable sort with the
      uniqueness lemma behind every determinism proof, 64-bit wrap-around,
      sorted keys, tactics and the hint database [weave].
    - [GoStrings], [Json], [Values]: what the source uses of the standard
      library ([strings.TrimSpace] on UTF-8, [Split], [Join], [encoding/json]
      with the shortest floats of [strconv]) and Go's dynamic values, with
      [mergeMap] and the slice operations of [state/value.go] and
      [state/patch.go].
    - [Paths] ([state/path.go]), [StateTree] ([state/state.go],
      [state/runtime.go]), [Reducers] ([state/reducer.go]), [Patch]
      ([state/patch.go]), [Access] ([state/access.go], [state/ref.go]),
      [Contracts] and [Projection] ([state/contract.go],
      [state/validation.go], the entry points of [state/schema.go]),
      [ParallelMerge] ([state/parallel_merge.go]): the state package.  A Go
      method on [*State] is a function that takes the state and returns the new
      one or an error; the mutators check before they write, so an error leaves
      the state as it was.
    - [Errors] ([core/execution_error.go], [core/effect.go]), [ExecutionPolicy]
      ([runtime/execution_policy.go], [graph/execution_policy.go]), [Tasks]
      ([runtime/runner_graph.go], [registry/condition.go], [dsl/dsl.go]): the
      data the scheduler works on.
    - [Worklist] and [Topology] ([graph/graph.go], [graph/validation.go],
      [graph/compile.go]): building a graph, its two reachability searches and
      the tables compiled from it; [Routing] ([graph/execution.go],
      [registry/condition.go]): which tasks follow, and where a failure goes;
      [Scheduler] ([graph/scheduler.go]): waves, joins, commands, claims of the
      execution budget and retries.
    - [ContractAnalysis] and [InitialState]
      ([internal/graphbuild/contract_analysis.go]): the data-flow analysis of
      contracts, its diagnostics and what a run must bring; [Dataflow] shows its
      tables and frontiers exact against paths of the graph, [GraphContracts]
      ([graph/contract_analysis.go]) relates them to the waves of the scheduler.
    - [Limiter] ([core/concurrency.go]): the limiter's critical sections as a
      transition system over any number of clients; [Lease]
      ([runtime/execution_lease.go]): lease transitions and the histories of a
      run; [Budget] ([runtime/runner_graph.go]): the budget kept in the state and
      the outcome of a node attempt.
    - [JsonDecode] ([encoding/json] decoding with numbers kept as text, with its
      round trip) and [Sensitive] ([runtime/sensitive.go]): which fields and
      values are secret, and their redaction in text, JSON and artifacts.
    - [Records] ([runtime/runner_types.go] and the validators of
      [runtime/run_deletion.go], [runtime/graph_runner.go],
      [runtime/effect_resolution.go], [runtime/transaction_store.go]): run and
      step records and the rules every write of them obeys; [RunStore]
      ([runtime/memory_store.go]): the memory execution store, one function per
      method, its abstract specification [store_change] and its histories;
      [Stores] and [Artifacts] ([runtime/memory_store.go], [runtime/store.go]):
      checkpoints, event logs with their paging, and staged artifacts; [Commit]
      ([runtime/transaction_store.go]): the runtime store that joins them, its
      transactions and deletion manifests, with its histories in [Transactions].
    - [FileDisk] and [FileStore] ([internal/runtimestore/file/store.go]): a disk
      of records, a monad of atomic effects that fail before or after they
      happen or stop the process, its Hoare triples with a crash condition, and
      the file stores as programs of it; [FileTxn] ([transaction.go] of the same
      package): journals, commits and recovery, with their crash safety in
      [Recovery] and resumable deletion in [FileDelete]; [CommitResolve]
      ([commitAndResolve]): the interface of a transaction store as a class with
      laws, and its instances for the memory and the file store.
    - [SqlRows] ([internal/runtimestore/sqlite/store.go]): the record a JSON row
      decodes to; [SqlStore] (the same package): the SQLite store, its tables as
      maps and its operations as transactions on them; [SqlCommit] compares a
      commit with the memory store's and gives the third instance of the laws;
      [SqlQueue] ([queue.go] of the same package): the task queue, with its
      specification in [QueueHistory], the refinement in [QueueRefine] and what it
      guarantees in [QueueSafety].

    - [Programs]: programs over typed calls as a free monad, the retry loops they
      share, and two ways to reason about them: over the events of a run against
      arbitrary answers ([always]), and on a world that other processes change
      between the calls ([beside], in the manner of rely and guarantee).
    - [DeletionPlan] ([runtime/run_deletion.go]): the deletion coordinator as a
      program over its calls, with the memory stores that answer them; [Deletion]
      reasons about it against arbitrary answers, [DeletionResume] on the memory
      stores when it is interrupted.
    - [RunServices]: the calls and steps the services over runs share, and the
      memory store that answers them; [Interference]: what other processes may do
      between two calls, and the rules for each call; [RunControl]
      ([runtime/run_control.go]): giving up a lost run ([RunLost]), canceling a
      paused run with its children ([RunCancel]) and deleting one; [RunnerLease]
      ([runtime/graph_runner_lease.go]): how a runner takes, extends and gives
      back a run.

    ** What is proved

    - Fan-in is deterministic and safe: the merged state does not depend on the
      order of arrival ([fan_in_permutation], [fan_in_any_order]) nor, once the
      merge is accepted, on the orders in which Go ranges over its maps (which can
      decide the acceptance: [contract_order_decides], [overlay_order_decides]); accepted
      branches do not overwrite each other ([fan_in_compatible],
      [fan_in_isolated]) and separate branches are never refused
      ([fan_in_separate]).
    - The analysis of contracts: branches that may run together are compared
      whatever the conditions decide ([conflicting_wave_refused]), except beside a
      join that was held back ([held_join_unchecked]) and behind a first pair of
      fields that merge ([first_pair_hides]); missing reads are found
      exactly ([missing_read_exact]), and so is what the initial state must hold
      ([ValidateInitialState_exact]).
    - The state tree obeys the laws of a store: read back, frame, exact failure
      ([set_update], [delete_update]), patches on disjoint paths commute
      ([ApplyWithReducers_commute]), a recorded patch replays to the state the
      node saw ([access_replay]), a read-only access never writes
      ([read_only_access]), the projection shows exactly what the contract lets
      a node read ([projection_exact]), and a resume overlays the base
      ([MergeResumeInput_overlay]).
    - Paths print and parse exactly ([NewPath_exact], [ParsePath_canonical],
      [pathWithin_order]); numbers reduce exactly ([SumReducer_exact],
      [MaxReducer_exact]).
    - Graphs: building keeps them well-formed ([mutation_wf]), validation is
      exact ([validateTopology_exact]), the compiled tables mean what they say
      ([compileJoinNodes_exact], [compileBranchOrders_injective]).
    - Scheduling: joins wait for exactly their upstream, no task is lost and none
      waits for ever ([scheduleNext_joins], [scheduleNext_progress]), waves and next tasks are
      canonical ([activeTasks_wave], [resolveCommands_wave]), routing stays in
      the graph ([resolveNextTasks_in_graph], [resolveFailure_first]) and
      retries never repeat an unsafe effect ([retryable_safe]).
    - Resources: the limiter's bound, fairness and absence of lost wakeups
      ([limiter_bound], [limiter_fifo], [limiter_no_lost_wakeup]), fencing and
      exclusion of leases ([lease_fencing], [lease_exclusive]), one outcome per
      attempt ([attempt_once]), budgets that survive a checkpoint
      ([budget_round_trip]) and policies ([ValidateGraphPolicy_exact],
      [classes_from_dsl_disjoint]).
    - Persistence, over every history of the store: no update is lost
      ([cas_no_lost_update]), a reserved run is frozen and its deletion only
      moves forward ([deletion_freezes]), a deleted run never returns
      ([deleted_forever], [runtime_deleted_forever]), the outcome of an effect is
      final ([effect_resolution_final]) and leases change by the lease protocol
      only ([store_refines_lease]).  A transaction is a sequence of allowed writes
      ([runtime_refines]), happens once ([commit_once]) and cannot touch a run
      whose lease it does not hold ([commit_fenced]); manifests are stable
      ([manifest_final]), published artifacts immutable ([artifact_immutable]),
      publishing can be retried ([finalize_retry]), paging an event log ends and
      loses nothing ([paging_complete]), and what is persisted as JSON hides the
      secrets of the context in its string values, but not in names of members
      ([redaction_hides], [redaction_keeps_names]).
    - The deletion coordinator: nothing is deleted before the whole stored plan of
      its deletion is fenced ([fenced_before_deleted]), an interrupted deletion is finished by the next
      reconciliation and touches nothing else ([deletion_resumes]), and a child
      that was never created blocks both ([pending_child_blocks_deletion]).
    - Run control, whatever other processes do between its calls: a run is given
      up only when its lease has expired ([lost_run_safe]) and the loop ends
      ([lost_run_ends]); canceling writes only cancellations of paused runs and, as
      long as nobody resumes, deletes or relinks a run that has finished (which
      [Resume] of the runner can), leaves no run of the family unfinished
      ([cancel_family]), ends, and succeeds on no cycle of children ([cancel_ends]);
      a run changes hands only when nobody holds it ([acquire_takeover]) and only
      the holder extends or ends a lease ([lease_holder]).
    - Crash safety of the file store, for every schedule of faults: a commit is
      atomic ([file_commit_atomic]), its answer is true ([file_commit_answer]),
      it completes when left alone ([file_commit_completes]), recovery can be
      interrupted at will and loses nothing ([recovery_completes]), a deletion
      can always be finished ([file_delete_resumes]), and a client that resolves
      unknown outcomes gets no success that was not recorded and no refusal of a
      resolved commit that was ([commitAndResolve_sound]).

    - The SQLite store writes what the memory store writes, apart from children
      below fenced runs ([sql_child_below_fenced]) and texts JSON does not keep
      ([sqlite_commit_agrees]).  Over every history of its task queue the tables
      are well-formed ([queue_refines]), a lease excludes others ([task_exclusive])
      and is fenced once it is superseded ([stale_lease_fenced]), the next task is
      found exactly ([Claim_exact]), attempts are counted and bounded
      ([attempts_bounded]), what has ended stays ([task_final]) and an operation with
      a named commit, repeated at any later time, happens once ([complete_fail_once]); but a task whose last attempt
      lost its worker is stuck ([exhausted_task_stuck]), and a commit that comes
      with a known task is lost ([enqueue_commit_lost]).

    ** Conventions

    Values are trees: what aliasing could change is cut off by the copies the
    code makes at every read and write, which on trees are the identity;
    [cloneable] keeps the one thing left of the copy, whether isolation could be
    proven.  A nil pointer receiver is [None] where the code tests for it.
    Times are instants.  Maps are [gmap]; where Go leaves their iteration order open
    and it matters, in the fan-in merge, it is the parameter [MapOrder]; elsewhere
    the model folds in one order.  The order in which a directory is removed is the
    parameter [DirOrder].  Errors carry the data of the message instead of its text.
    The files of the file store and the tasks, attempts, manifests, artifacts and
    results of the SQLite store are kept as records, which stand for their JSON
    (their texts are UTF-8); the SQLite rows of runs, steps, checkpoints and events
    are what their JSON decodes to.

    The functions with fuel are the worklist searches of [Worklist] and the
    release loop of [Scheduler]; their callers give as much fuel as there are
    nodes, edges or pending joins, and [visit_pop_total], [visit_push_total] and
    [releasePendingFanIn_filter] show that it suffices.  The digits of [Json]
    are bounded by the exponent range of a double.  The JSON parser gets twice the
    length of its input ([json_decode_total]: more never changes the answer).
    Giving up a run needs fuel for nine looks ([lost_run_ends]), canceling for one
    more run than there can be ([cancel_ends]).

    Parameters, each a type class: [SchemaEngine], the third-party JSON Schema
    compiler and the texts of messages; [TaskDigest], the SHA-256 digest of a
    send; [ErrorText], the text of an error; [CommitDigest] and
    [OperationDigest], the SHA-256 digests of the JSON text of a commit and of a
    queue operation.  Nothing is assumed of them.  [MapOrder] gives the orders of map
    ranges and [DirOrder] that of a directory, and all that is assumed is that they
    are permutations.
    Condition evaluators and reducers of the embedding program are arguments.

    ** Not modelled

    The reflective cloner on pointers and cycles, snapshots and their diff, the
    persisted task schedule, node registration and specifications, the
    goroutines of a wave and the runner that drives the stores, the file artifact
    store and the byte layout of files, forks and retention, the goroutine that
    extends leases, effect resolution, the [ReturnValue] of a run, graph
    definitions and their hashes, node building, plans, memory retrieval; and, as input and output only, models, tools, triggers and
    the server. *)

From stdpp Require Export base tactics list strings gmap fin_maps fin_map_dom sorting.
From Stdlib Require Export ZArith Lia.

(** ** Errors as values *)

Declare Scope go_scope.
Delimit Scope go_scope with go.
#[global] Open Scope go_scope.

(** A Go function returning [(T, error)] where every early [return _, err] is
    an [Err]. *)
Inductive result (E A : Type) : Type :=
  | Ok (a : A)
  | Err (e : E).
Arguments Ok {E A} a.
Arguments Err {E A} e.

Definition result_bind {E A B} (m : result E A) (k : A → result E B) : result E B :=
  match m with Ok a => k a | Err e => Err e end.

Definition result_ok {E A} (m : result E A) : bool :=
  match m with Ok _ => true | Err _ => false end.

Notation "'let*' x ':=' m 'in' k" := (result_bind m (fun x => k))
  (at level 10, x pattern, m at level 100, k at level 200) : go_scope.

(** [guard_err b e]: the early return [if b { return e }]. *)
Definition guard_err {E} (b : bool) (e : E) : result E unit :=
  if b then Err e else Ok tt.

Section result_lemmas.
Context {E A B : Type}.
Implicit Types (m : result E A) (k : A → result E B).

Lemma result_bind_Ok m k b :
  result_bind m k = Ok b ↔ ∃ a, m = Ok a ∧ k a = Ok b.
Proof. destruct m; simpl; naive_solver. Qed.

Lemma result_bind_Err m k e :
  result_bind m k = Err e ↔ m = Err e ∨ ∃ a, m = Ok a ∧ k a = Err e.
Proof. destruct m; simpl; naive_solver. Qed.
End result_lemmas.

Lemma Ok_inj {E A} (a b : A) : @Ok E A a = Ok b → a = b.
Proof. by intros [= ->]. Qed.

Lemma guard_err_Ok {E} b (e : E) u : guard_err b e = Ok u ↔ b = false.
Proof. destruct b, u; simpl; naive_solver. Qed.

(** Left fold in the error monad: a Go loop with an early error return. *)
Fixpoint foldM {E A S} (f : S → A → result E S) (s : S) (l : list A) : result E S :=
  match l with
  | [] => Ok s
  | a :: l' => let* s' := f s a in foldM f s' l'
  end.

Lemma foldM_app {E A S} (f : S → A → result E S) s l1 l2 :
  foldM f s (l1 ++ l2) = let* s' := foldM f s l1 in foldM f s' l2.
Proof.
  revert s; induction l1 as [|a l1 IH]; intros s; simpl; [done|].
  destruct (f s a); simpl; auto.
Qed.

Lemma foldM_invariant {E A S} (P : S → Prop) (f : S → A → result E S) s l s' :
  (∀ s a s', P s → f s a = Ok s' → P s') →
  P s → foldM f s l = Ok s' → P s'.
Proof.
  intros Hstep. revert s; induction l as [|a l IH]; intros s Hs; simpl.
  - intros [= <-]. done.
  - intros (s1 & Hf & Hl)%result_bind_Ok. eauto.
Qed.

(** First error produced by a check over a list, in list order. *)
Fixpoint first_err {E A} (f : A → result E unit) (l : list A) : result E unit :=
  match l with
  | [] => Ok tt
  | a :: l' => let* _ := f a in first_err f l'
  end.

Lemma first_err_Ok {E A} (f : A → result E unit) l :
  first_err f l = Ok tt ↔ ∀ a, a ∈ l → f a = Ok tt.
Proof.
  induction l as [|a l IH]; simpl.
  - split; [intros _ a Ha; inversion Ha | done].
  - rewrite result_bind_Ok. split.
    + intros ([] & Ha & Hl) b [->|Hb]%elem_of_cons; [done|]. by apply IH.
    + intros H. exists tt. split; [apply H; left|]. apply IH. intros b Hb. apply H. by right.
Qed.

Lemma first_err_Err {E A} (f : A → result E unit) l e :
  first_err f l = Err e → ∃ a, a ∈ l ∧ f a = Err e.
Proof.
  induction l as [|a l IH]; simpl; [done|].
  intros [Ha|([] & Ha & Hl)]%result_bind_Err.
  - exists a. split; [left|done].
  - destruct (IH Hl) as (b & Hb & He). exists b. split; [by right|done].
Qed.

(** ** Tactics *)

(** Case analysis on the boolean or option scrutinised by the goal. *)
Ltac case_scrutinee :=
  match goal with
  | |- context [match ?x with _ => _ end] =>
      lazymatch x with
      | context [match _ with _ => _ end] => fail
      | _ => destruct x eqn:?
      end
  end.

(** Invert the successful run of a monadic computation into its steps. *)
Ltac result_inv :=
  repeat match goal with
  | H : result_bind _ _ = Ok _ |- _ =>
      apply result_bind_Ok in H; destruct H as (? & ? & ?)
  | H : guard_err _ _ = Ok _ |- _ => apply guard_err_Ok in H
  | H : Ok _ = Ok _ |- _ => apply Ok_inj in H; try (subst; idtac)
  | H : Err _ = Ok _ |- _ => discriminate H
  | H : Ok _ = Err _ |- _ => discriminate H
  end.

(** A proposition equivalent to a decidable one is decidable. *)
Definition iff_decision {P Q : Prop} (H : P ↔ Q) `{HP : Decision P} : Decision Q :=
  match HP with
  | left p => left (proj1 H p)
  | right n => right (λ q, n (proj2 H q))
  end.

(** ** Stable sorting

    [sort.SliceStable] with a strict order [less]: the result is the input
    sorted, elements that neither precede the other keeping their order.  The
    library's own algorithm is not the program's concern; the insertion sort
    below computes the only list the documented contract allows, as
    [stable_sort_unique] shows. *)
Section stable_sort.
Context {A : Type} (less : A → A → bool).

Fixpoint insert_sorted (x : A) (l : list A) : list A :=
  match l with
  | [] => [x]
  | y :: l' => if less y x then y :: insert_sorted x l' else x :: y :: l'
  end.

Definition stable_sort (l : list A) : list A := foldr insert_sorted [] l.

(** [a] may stand before [b] in a sorted list. *)
Definition not_after (a b : A) : Prop := less b a = false.

(** [less] is a strict weak order, which is what [sort] documents. *)
Class StrictWeak : Prop := {
  sw_irrefl a : less a a = false;
  sw_trans a b c : less b a = false → less c b = false → less c a = false;
  sw_asym a b : less a b = true → less b a = false;
}.

Lemma insert_sorted_perm x l : insert_sorted x l ≡ₚ x :: l.
Proof.
  induction l as [|y l IH]; simpl; [done|].
  destruct (less y x); [|done]. rewrite IH. apply Permutation_swap.
Qed.

Lemma stable_sort_perm l : stable_sort l ≡ₚ l.
Proof. induction l as [|x l IH]; simpl; [done|]. by rewrite insert_sorted_perm, IH. Qed.

Lemma stable_sort_elem_of l x : x ∈ stable_sort l ↔ x ∈ l.
Proof. by rewrite stable_sort_perm. Qed.

Lemma stable_sort_length l : length (stable_sort l) = length l.
Proof. by rewrite stable_sort_perm. Qed.

Context `{!StrictWeak}.

Lemma insert_sorted_sorted x l :
  StronglySorted not_after l → StronglySorted not_after (insert_sorted x l).
Proof.
  induction 1 as [|y l Hl IH Hy]; simpl; [repeat constructor|].
  destruct (less y x) eqn:Hxy.
  - constructor; [done|]. rewrite insert_sorted_perm. constructor; [|done].
    by apply sw_asym.
  - constructor; [by constructor|]. constructor; [done|].
    apply (Forall_impl _ _ _ Hy). intros z Hz. unfold not_after in *.
    by eapply sw_trans.
Qed.

Lemma stable_sort_sorted l : StronglySorted not_after (stable_sort l).
Proof. induction l; simpl; [constructor | by apply insert_sorted_sorted]. Qed.

(** Two elements neither of which precedes the other. *)
Definition tied (a b : A) : bool := negb (less a b) && negb (less b a).

Lemma insert_sorted_tied c x l :
  StronglySorted not_after l →
  List.filter (tied c) (insert_sorted x l) = List.filter (tied c) (x :: l).
Proof.
  induction 1 as [|y l Hl IH Hy]; simpl; [done|].
  destruct (less y x) eqn:Hyx; [|done]. simpl. rewrite IH. simpl.
  destruct (tied c y) eqn:Hcy, (tied c x) eqn:Hcx; try done.
  exfalso. unfold tied in *. apply andb_true_iff in Hcy as [Hcy1 Hcy2].
  apply andb_true_iff in Hcx as [Hcx1 Hcx2].
  rewrite negb_true_iff in *.
  assert (less y x = false); [|congruence]. by apply (sw_trans x c y).
Qed.

(** Stability: the elements tied with [c] keep their relative order. *)
Lemma stable_sort_stable c l :
  List.filter (tied c) (stable_sort l) = List.filter (tied c) l.
Proof.
  induction l as [|x l IH]; simpl; [done|].
  rewrite insert_sorted_tied by apply stable_sort_sorted. simpl. by rewrite IH.
Qed.

(** When [less] separates the members of the list, the sorted list does not
    depend on the order of the input. *)
Lemma stable_sort_unique l1 l2 :
  (∀ x y, x ∈ l1 → y ∈ l1 → less x y = false → less y x = false → x = y) →
  l1 ≡ₚ l2 → stable_sort l1 = stable_sort l2.
Proof.
  intros Htot Hp. apply (StronglySorted_unique_strong not_after).
  - intros x y Hx Hy Hxy Hyx. rewrite stable_sort_perm in Hx, Hy.
    rewrite <-Hp in Hy. unfold not_after in *. by apply Htot.
  - apply stable_sort_sorted.
  - apply stable_sort_sorted.
  - by rewrite !stable_sort_perm.
Qed.

(** A sorted list is a fixed point. *)
Lemma stable_sort_id l : StronglySorted not_after l → stable_sort l = l.
Proof.
  induction 1 as [|x l Hl IH Hx]; simpl; [done|]. rewrite IH.
  destruct Hx as [|y l Hxy Hl']; simpl; [done|].
  unfold not_after in Hxy. by rewrite Hxy.
Qed.
End stable_sort.

(** Sorting commutes with a projection that carries one order to the other, for
    every pair in list order; [less'] may break ties by position. *)
Lemma stable_sort_map {A B} (f : A → B) (less' : A → A → bool) (less : B → B → bool) l :
  StronglySorted (λ x y, less' y x = less (f y) (f x)) l →
  map f (stable_sort less' l) = stable_sort less (map f l).
Proof.
  induction 1 as [|x l Hl IH Hx]; simpl; [done|]. rewrite <-IH. clear IH Hl.
  assert (Forall (λ y, less' y x = less (f y) (f x)) (stable_sort less' l)) as Hs.
  { by rewrite stable_sort_perm. }
  induction Hs as [|y l' Hy Hs IH]; simpl; [done|]. rewrite Hy.
  destruct (less (f y) (f x)); simpl; congruence.
Qed.

(** ** Sorted lists *)

Lemma StronglySorted_impl {A} (R S : A → A → Prop) l :
  (∀ x y, x ∈ l → y ∈ l → R x y → S x y) → StronglySorted R l → StronglySorted S l.
Proof.
  intros HRS. induction 1 as [|x l Hl IH Hx]; constructor.
  - apply IH. intros a b Ha Hb. apply HRS; by right.
  - rewrite Forall_forall in *. intros y Hy. apply HRS; [left|by right|by apply Hx].
Qed.

Lemma StronglySorted_and {A} (R S : A → A → Prop) l :
  StronglySorted R l → StronglySorted S l → StronglySorted (λ x y, R x y ∧ S x y) l.
Proof.
  induction 1 as [|x l Hl IH Hx]; intros HS; inversion_clear HS; constructor; [by apply IH|].
  by apply Forall_and.
Qed.

Lemma StronglySorted_NoDup {A K} (key : A → K) l :
  NoDup (map key l) → StronglySorted (λ x y, key x ≠ key y) l.
Proof.
  induction l as [|x l IH]; simpl; [constructor|].
  intros [Hx Hl]%NoDup_cons. constructor; [by apply IH|].
  rewrite Forall_forall. intros y Hy Heq. apply Hx. rewrite Heq.
  apply list_elem_of_fmap. eauto.
Qed.

Lemma elem_of_concat_map {A B} (f : A → list B) l y :
  y ∈ concat (map f l) ↔ ∃ a, a ∈ l ∧ y ∈ f a.
Proof.
  induction l as [|b l IH]; simpl.
  - split; [by intros Hy%elem_of_nil|]. by intros (a & Ha%elem_of_nil & _).
  - rewrite elem_of_app, IH. split.
    + intros [Hy|(a & Ha & Hy)]; [exists b|exists a]; split; [left|done|by right|done].
    + intros (a & [->|Ha]%elem_of_cons & Hy); eauto.
Qed.

#[export] Instance StronglySorted_dec {A} (R : A → A → Prop)
  `{∀ x y, Decision (R x y)} l : Decision (StronglySorted R l).
Proof.
  induction l as [|x l IH]; [left; constructor|].
  destruct IH as [Hl|Hl]; [|right; by inversion_clear 1].
  destruct (decide (Forall (R x) l)) as [Hx|Hx]; [left; by constructor|right; by inversion_clear 1].
Defined.

(** Blocks laid out in a sorted order of their labels. *)
Lemma StronglySorted_concat_map {A B} (f : A → list B) (R : A → A → Prop)
    (S : B → B → Prop) l :
  (∀ a, a ∈ l → StronglySorted S (f a)) →
  (∀ a b x y, R a b → x ∈ f a → y ∈ f b → S x y) →
  StronglySorted R l → StronglySorted S (concat (map f l)).
Proof.
  intros Hin Hcross. induction 1 as [|a l Hl IH Ha]; simpl; [constructor|].
  apply StronglySorted_app. split_and!.
  - intros x y Hx (b & Hb & Hy)%elem_of_concat_map.
    rewrite Forall_forall in Ha. exact (Hcross a b x y (Ha b Hb) Hx Hy).
  - apply Hin. left.
  - apply IH. intros b Hb. apply Hin. by right.
Qed.

(** Sorting by a list of keys compared one after the other, as the program's
    comparison callbacks do: [if a.k1 != b.k1 { return a.k1 < b.k1 } ...]. *)
Definition less_then {A K} `{EqDecision K} (key : A → K) (klt : K → K → bool)
    (rest : A → A → bool) (a b : A) : bool :=
  if decide (key a = key b) then rest a b else klt (key a) (key b).

Definition less_last {A K} (key : A → K) (klt : K → K → bool) (a b : A) : bool :=
  klt (key a) (key b).

(** A total strict order on keys. *)
Class StrictTotal {K} (klt : K → K → bool) : Prop := {
  st_irrefl a : klt a a = false;
  st_trans a b c : klt a b = true → klt b c = true → klt a c = true;
  st_total a b : klt a b = false → klt b a = false → a = b;
}.

Lemma st_asym {K} (klt : K → K → bool) `{!StrictTotal klt} a b :
  klt a b = true → klt b a = false.
Proof.
  intros Hab. destruct (klt b a) eqn:Hba; [|done].
  pose proof (st_trans a b a Hab Hba) as H. by rewrite st_irrefl in H.
Qed.

#[export] Instance less_last_weak {A K} (key : A → K) klt `{!StrictTotal klt} :
  StrictWeak (less_last key klt).
Proof.
  unfold less_last. split.
  - intros a. apply st_irrefl.
  - intros a b c Hba Hcb. destruct (klt (key c) (key a)) eqn:Hca; [|done].
    destruct (klt (key b) (key c)) eqn:Hbc.
    + rewrite <-Hba. symmetry. by eapply st_trans.
    + assert (key b = key c) as Heq by by apply st_total. rewrite Heq in Hba. congruence.
  - intros a b. by apply st_asym.
Qed.

#[export] Instance less_then_weak {A K} `{EqDecision K} (key : A → K) klt rest
  `{!StrictTotal klt, !StrictWeak rest} : StrictWeak (less_then key klt rest).
Proof.
  unfold less_then. split.
  - intros a. destruct (decide (key a = key a)); [by apply sw_irrefl | done].
  - intros a b c.
    assert (∀ x y, key x ≠ key y → klt (key x) (key y) = false →
      klt (key y) (key x) = true) as Hflip.
    { intros x y Hne Hxy. destruct (klt (key y) (key x)) eqn:Hyx; [done|].
      by destruct (Hne (st_total _ _ Hxy Hyx)). }
    repeat case_decide; try congruence; intros Hba Hcb; try congruence.
    + by eapply sw_trans.
    + apply Hflip in Hba; [|done]. congruence.
    + apply Hflip in Hba; [|done]. apply Hflip in Hcb; [|done].
      apply (st_asym klt). by eapply st_trans.
  - intros a b. repeat case_decide; try congruence.
    + by apply sw_asym.
    + by apply st_asym.
Qed.

(** ** Machine integers *)

(** Two's complement wrap-around of Go's 64-bit arithmetic. *)
Definition wrap64 (z : Z) : Z := ((z + 2 ^ 63) mod 2 ^ 64 - 2 ^ 63)%Z.

Definition int64_range (z : Z) : Prop := (- 2 ^ 63 ≤ z < 2 ^ 63)%Z.

Lemma wrap64_id z : int64_range z → wrap64 z = z.
Proof. unfold int64_range, wrap64. intros H. rewrite Z.mod_small; lia. Qed.

Lemma wrap64_range z : int64_range (wrap64 z).
Proof.
  unfold int64_range, wrap64.
  pose proof (Z.mod_pos_bound (z + 2 ^ 63) (2 ^ 64) ltac:(lia)). lia.
Qed.

(** ** Key orders *)

(** Go's [<] on strings: bytewise lexicographic. *)
Definition str_lt (a b : string) : bool := String.ltb a b.

#[export] Instance str_lt_total : StrictTotal str_lt.
Proof.
  assert (∀ a b, str_lt a b = true ↔ ¬ (String.le b a)) as Hlt.
  { intros a b. unfold str_lt, String.ltb, String.le, String.leb.
    rewrite (String.compare_antisym b a).
    destruct (String.compare a b); simpl; naive_solver. }
  split.
  - intros a. apply not_true_iff_false. rewrite Hlt. intros H; by apply H.
  - intros a b c. rewrite !Hlt. intros Hab Hbc Hca.
    destruct (total String.le a b) as [H|H]; [|done].
    apply Hbc. by trans a.
  - intros a b. rewrite <-!not_true_iff_false, !Hlt. intros Hab Hba.
    apply (anti_symm String.le); by apply dec_stable.
Qed.

Definition z_lt (a b : Z) : bool := (a <? b)%Z.

#[export] Instance z_lt_total : StrictTotal z_lt.
Proof. unfold z_lt. split; intros; lia. Qed.

Definition nat_lt (a b : nat) : bool := (a <? b)%nat.

#[export] Instance nat_lt_total : StrictTotal nat_lt.
Proof.
  unfold nat_lt. split; intros; rewrite ?Nat.ltb_lt, ?Nat.ltb_ge, ?Nat.ltb_irrefl in *; lia.
Qed.

(** [sort.Strings] over the keys of a Go map or set: the iteration order of
    the map is irrelevant, so the keys are taken as a set. *)
Definition sort_strings (l : list string) : list string :=
  stable_sort (less_last (λ s, s) str_lt) l.

Definition sorted_keys {V} (m : gmap string V) : list string :=
  sort_strings (map_to_list m).*1.

Lemma sort_strings_perm_eq l1 l2 : l1 ≡ₚ l2 → sort_strings l1 = sort_strings l2.
Proof. apply stable_sort_unique; [apply _|]. intros x y _ _. apply st_total. Qed.

Lemma elem_of_sort_strings l s : s ∈ sort_strings l ↔ s ∈ l.
Proof. apply stable_sort_elem_of. Qed.

Lemma elem_of_sorted_keys {V} (m : gmap string V) k :
  k ∈ sorted_keys m ↔ is_Some (m !! k).
Proof.
  unfold sorted_keys. rewrite elem_of_sort_strings, list_elem_of_fmap. split.
  - intros ([k' v] & -> & Hv%elem_of_map_to_list). eauto.
  - intros [v Hv]. exists (k, v). split; [done|]. by apply elem_of_map_to_list.
Qed.

Lemma NoDup_sorted_keys {V} (m : gmap string V) : NoDup (sorted_keys m).
Proof.
  unfold sorted_keys, sort_strings. rewrite stable_sort_perm. apply NoDup_fst_map_to_list.
Qed.

Create HintDb weave.
#[export] Hint Resolve stable_sort_perm stable_sort_sorted NoDup_sorted_keys : weave.
