(* ===== verification/GoStrings.v ===== *)
(** * The [strings] functions the program uses

    Go strings are byte sequences; a [string] here is one ([ascii] is a byte).
    [strings.TrimSpace] removes the runes [unicode.IsSpace] accepts: six ASCII
    ones and the nineteen others, whose UTF-8 encodings are two or three bytes
    long.  UTF-8 is self-synchronising, so comparing the encodings at either
    end of the string decides what [utf8.DecodeRune] and
    [utf8.DecodeLastRune] would return there. *)

From S2P Require Import Prelude.
From Stdlib Require Import Ascii.
From stdpp Require Import pretty.

Abbreviation bytes := (list ascii).

Definition to_bytes (s : string) : bytes := String.list_ascii_of_string s.
Definition of_bytes (l : bytes) : string := String.string_of_list_ascii l.

Lemma of_to_bytes s : of_bytes (to_bytes s) = s.
Proof. apply String.string_of_list_ascii_of_string. Qed.
Lemma to_of_bytes l : to_bytes (of_bytes l) = l.
Proof. apply String.list_ascii_of_string_of_list_ascii. Qed.

#[export] Instance to_bytes_inj : Inj (=) (=) to_bytes.
Proof. intros a b H. by rewrite <-(of_to_bytes a), H, of_to_bytes. Qed.

Lemma to_bytes_app a b : to_bytes (a +:+ b) = to_bytes a ++ to_bytes b.
Proof. induction a as [|c a IH]; simpl; [done|]. by f_equal. Qed.

(** ** White space *)

(** One-byte white space: tab, line feed, vertical tab, form feed, carriage
    return and space. *)
Definition space1 (a : ascii) : bool :=
  let n := N_of_ascii a in ((9 <=? n) && (n <=? 13) || (n =? 32))%N.

(** U+0085 and U+00A0. *)
Definition space2 (a b : ascii) : bool :=
  let x := N_of_ascii a in let y := N_of_ascii b in
  ((x =? 194) && ((y =? 133) || (y =? 160)))%N.

(** U+1680, U+2000 to U+200A, U+2028, U+2029, U+202F, U+205F and U+3000. *)
Definition space3 (a b c : ascii) : bool :=
  let x := N_of_ascii a in let y := N_of_ascii b in let z := N_of_ascii c in
  ((x =? 225) && (y =? 154) && (z =? 128)
   || (x =? 226) && (y =? 128) && ((128 <=? z) && (z <=? 138)
                                   || (z =? 168) || (z =? 169) || (z =? 175))
   || (x =? 226) && (y =? 129) && (z =? 159)
   || (x =? 227) && (y =? 128) && (z =? 128))%N.

Section trim.
Context (sp2 : ascii → ascii → bool) (sp3 : ascii → ascii → ascii → bool).

Fixpoint trim_with (l : bytes) : bytes :=
  match l with
  | [] => []
  | a :: l1 =>
    if space1 a then trim_with l1 else
    match l1 with
    | [] => l
    | b :: l2 =>
      if sp2 a b then trim_with l2 else
      match l2 with
      | [] => l
      | c :: l3 => if sp3 a b c then trim_with l3 else l
      end
    end
  end.

(** The four shapes of a byte list for [trim_with]. *)
Lemma trim_with_case l :
  trim_with l = l ∨
  ∃ p l', p ≠ [] ∧ l = p ++ l' ∧ trim_with l = trim_with l'.
Proof.
  destruct l as [|a l1]; simpl; [by left|].
  destruct (space1 a); [right; by exists [a], l1|].
  destruct l1 as [|b l2]; [by left|].
  destruct (sp2 a b); [right; by exists [a; b], l2|].
  destruct l2 as [|c l3]; [by left|].
  destruct (sp3 a b c); [right; by exists [a; b; c], l3 | by left].
Qed.

(** Trimming drops a prefix and leaves a list it fixes. *)
Lemma trim_with_spec l :
  ∃ p, l = p ++ trim_with l ∧ trim_with (trim_with l) = trim_with l.
Proof.
  induction l as [l IH] using (induction_ltof1 _ (@length ascii)).
  destruct (trim_with_case l) as [Hl|(p & l' & Hp & Hl & Ht)].
  - exists []. by rewrite !Hl.
  - destruct (IH l') as (p' & Hl' & Hid).
    { unfold ltof. rewrite Hl, length_app. destruct p; simpl; [done|lia]. }
    exists (p ++ p'). rewrite Ht. split; [|done]. by rewrite <-app_assoc, <-Hl'.
Qed.

Lemma trim_with_idemp l : trim_with (trim_with l) = trim_with l.
Proof. by destruct (trim_with_spec l) as (? & _ & ?). Qed.

Lemma trim_with_fixed_prefix p l : trim_with (p ++ l) = p ++ l → trim_with p = p.
Proof.
  intros H. destruct p as [|a [|b [|c p]]]; simpl in *; [done|..].
  - destruct (space1 a) eqn:Ha; [|done]. exfalso.
    destruct (trim_with_spec l) as (q & Hq & _). rewrite H in Hq.
    apply (f_equal length) in Hq. rewrite length_app in Hq. simpl in Hq. lia.
  - destruct (space1 a) eqn:Ha.
    { exfalso. destruct (trim_with_spec (b :: l)) as (q & Hq & _).
      simpl in Hq. rewrite H in Hq. apply (f_equal length) in Hq.
      rewrite length_app in Hq. simpl in Hq. lia. }
    destruct (sp2 a b) eqn:Hb; [|done]. exfalso.
    destruct (trim_with_spec l) as (q & Hq & _). rewrite H in Hq.
    apply (f_equal length) in Hq. rewrite length_app in Hq. simpl in Hq. lia.
  - assert (∀ q l', trim_with l' = q ++ l' → q ≠ [] → False) as Hlong.
    { intros q l' Hq Hne. destruct (trim_with_spec l') as (r & Hr & _).
      rewrite Hq in Hr. apply (f_equal length) in Hr. rewrite !length_app in Hr.
      destruct q; [done|]. simpl in Hr. lia. }
    destruct (space1 a) eqn:Ha.
    { exfalso. by apply (Hlong [a] (b :: c :: p ++ l)). }
    destruct (sp2 a b) eqn:Hb.
    { exfalso. by apply (Hlong [a; b] (c :: p ++ l)). }
    destruct (sp3 a b c) eqn:Hc; [|done].
    exfalso. by apply (Hlong [a; b; c] (p ++ l)).
Qed.
End trim.

(** [strings.TrimSpace]. *)
Definition trim_left (l : bytes) : bytes := trim_with space2 space3 l.
Definition trim_right (l : bytes) : bytes :=
  reverse (trim_with (λ a b, space2 b a) (λ a b c, space3 c b a) (reverse l)).
Definition TrimSpace (s : string) : string := of_bytes (trim_right (trim_left (to_bytes s))).

Lemma trim_right_prefix l : ∃ q, l = trim_right l ++ q.
Proof.
  unfold trim_right.
  destruct (trim_with_spec (λ a b, space2 b a) (λ a b c, space3 c b a) (reverse l))
    as (p & Hp & _).
  exists (reverse p). rewrite <-reverse_app, <-Hp. by rewrite reverse_involutive.
Qed.

Lemma trim_right_idemp l : trim_right (trim_right l) = trim_right l.
Proof. unfold trim_right. by rewrite reverse_involutive, trim_with_idemp. Qed.

(** A trimmed string: what [TrimSpace] returns, and what it leaves alone. *)
Definition trimmed (s : string) : Prop := TrimSpace s = s.
#[export] Instance trimmed_dec s : Decision (trimmed s) := decide (TrimSpace s = s).

Lemma TrimSpace_trimmed s : trimmed (TrimSpace s).
Proof.
  unfold trimmed, TrimSpace. rewrite to_of_bytes. f_equal.
  assert (trim_left (trim_right (trim_left (to_bytes s))) = trim_right (trim_left (to_bytes s))) as ->.
  { destruct (trim_right_prefix (trim_left (to_bytes s))) as [q Hq].
    eapply trim_with_fixed_prefix. rewrite <-Hq. apply trim_with_idemp. }
  apply trim_right_idemp.
Qed.

(** Both ends of a trimmed string are trimmed. *)
Lemma trimmed_spec s :
  trimmed s ↔ trim_left (to_bytes s) = to_bytes s ∧ trim_right (to_bytes s) = to_bytes s.
Proof.
  unfold trimmed, TrimSpace. split.
  - intros H. apply (f_equal to_bytes) in H. rewrite to_of_bytes in H.
    destruct (trim_with_spec space2 space3 (to_bytes s)) as (p & Hp & _).
    destruct (trim_right_prefix (trim_left (to_bytes s))) as [q Hq].
    fold (trim_left (to_bytes s)) in Hp. rewrite H in Hq.
    assert (p = [] ∧ q = []) as [-> ->].
    { apply (f_equal length) in Hp, Hq. rewrite length_app in Hp, Hq.
      split; apply nil_length_inv; lia. }
    rewrite app_nil_r in Hq. rewrite Hq in H. done.
  - intros [Hl Hr]. by rewrite Hl, Hr, of_to_bytes.
Qed.

Lemma trimmed_empty : trimmed "".
Proof. reflexivity. Qed.

(** An ASCII byte other than white space keeps both trims out. *)
Definition solid (a : ascii) : bool := (N_of_ascii a <? 128)%N && negb (space1 a).

Lemma space2_high a b : space2 a b = true → (128 ≤ N_of_ascii a)%N ∧ (128 ≤ N_of_ascii b)%N.
Proof. unfold space2. cbv zeta. rewrite !andb_true_iff, !orb_true_iff, !N.eqb_eq. lia. Qed.
Lemma space3_high a b c : space3 a b c = true →
  (128 ≤ N_of_ascii a)%N ∧ (128 ≤ N_of_ascii b)%N ∧ (128 ≤ N_of_ascii c)%N.
Proof.
  unfold space3. cbv zeta.
  rewrite !orb_true_iff, !andb_true_iff, !orb_true_iff, !andb_true_iff, !N.eqb_eq, !N.leb_le. lia.
Qed.

Lemma solid_spec a : solid a = true ↔ (N_of_ascii a < 128)%N ∧ space1 a = false.
Proof. unfold solid. rewrite andb_true_iff, negb_true_iff, N.ltb_lt. done. Qed.

Lemma trim_left_solid a l : solid a = true → trim_left (a :: l) = a :: l.
Proof.
  intros [Ha Hs]%solid_spec. unfold trim_left. simpl. rewrite Hs.
  destruct l as [|b l]; [done|].
  destruct (space2 a b) eqn:Hab; [apply space2_high in Hab; lia|].
  destruct l as [|c l]; [done|].
  destruct (space3 a b c) eqn:Habc; [apply space3_high in Habc; lia|done].
Qed.

Lemma trim_right_solid l a r :
  solid a = true → r ≠ [] → trim_right r = r → trim_right (l ++ a :: r) = l ++ a :: r.
Proof.
  intros [Ha Hs]%solid_spec Hne Hr. unfold trim_right in *.
  apply (f_equal reverse) in Hr. rewrite reverse_involutive in Hr.
  rewrite reverse_app, reverse_cons, <-app_assoc. simpl.
  assert (reverse r ≠ []) as Hne'.
  { intros H. apply Hne. rewrite <-(reverse_involutive r), H. done. }
  replace (l ++ a :: r) with (reverse (reverse r ++ a :: reverse l)).
  2:{ by rewrite reverse_app, reverse_cons, !reverse_involutive, <-app_assoc. }
  f_equal. generalize dependent (reverse r). intros x Hx Hxne. clear Hne r.
  assert (∀ q l', trim_with (λ a b, space2 b a) (λ a b c, space3 c b a) l' = q ++ l' → q = []) as Hlong.
  { intros q l' Hq.
    destruct (trim_with_spec (λ a b, space2 b a) (λ a b c, space3 c b a) l') as (p & Hp & _).
    rewrite Hq in Hp. apply (f_equal length) in Hp. rewrite !length_app in Hp.
    apply nil_length_inv. lia. }
  destruct x as [|x1 [|x2 [|x3 x]]]; simpl in *; [done|..].
  - destruct (space1 x1); [done|].
    destruct (space2 a x1) eqn:H2; [apply space2_high in H2; lia|].
    destruct (reverse l) as [|y l']; [done|].
    destruct (space3 y a x1) eqn:H3; [apply space3_high in H3; lia|done].
  - destruct (space1 x1); [by apply (Hlong [x1] [x2]) in Hx|].
    destruct (space2 x2 x1); [done|].
    destruct (space3 a x2 x1) eqn:H3; [apply space3_high in H3; lia|done].
  - destruct (space1 x1); [by apply (Hlong [x1] (x2 :: x3 :: x)) in Hx|].
    destruct (space2 x2 x1); [by apply (Hlong [x1; x2] (x3 :: x)) in Hx|].
    destruct (space3 x3 x2 x1); [by apply (Hlong [x1; x2; x3] x) in Hx|done].
Qed.

(** ** Splitting and joining at a one-byte separator *)

(** [strings.Contains(s, sep)]. *)
Fixpoint Contains (sep : ascii) (s : string) : bool :=
  match s with
  | EmptyString => false
  | String c s' => bool_decide (c = sep) || Contains sep s'
  end.

(** [strings.Split(s, sep)]: one piece more than there are separators. *)
Fixpoint Split (sep : ascii) (s : string) : list string :=
  match s with
  | EmptyString => [""]
  | String c s' =>
    if bool_decide (c = sep) then "" :: Split sep s'
    else match Split sep s' with [] => [] | h :: t => String c h :: t end
  end.

(** [strings.Join(l, sep)]. *)
Definition Join (sep : ascii) (l : list string) : string :=
  String.concat (String sep EmptyString) l.

(** [strings.ReplaceAll(s, old, new)] for an [old] that is not empty: the
    occurrences are found from the left and do not overlap; [skip] is what is
    left of the current one. *)
Fixpoint replace_bytes (old new : bytes) (skip : nat) (l : bytes) : bytes :=
  match l, skip with
  | [], _ => []
  | _ :: l', S skip' => replace_bytes old new skip' l'
  | a :: l', O =>
    if bool_decide (take (length old) l = old)
    then new ++ replace_bytes old new (length old - 1) l'
    else a :: replace_bytes old new 0 l'
  end.

Definition ReplaceAll (s old new : string) : string :=
  of_bytes (replace_bytes (to_bytes old) (to_bytes new) 0 (to_bytes s)).

(** [strings.HasPrefix(s, p)]. *)
Fixpoint HasPrefix (s p : string) : bool :=
  match p, s with
  | EmptyString, _ => true
  | String c p', String d s' => bool_decide (c = d) && HasPrefix s' p'
  | String _ _, EmptyString => false
  end.

(** ** Numbers *)

(** The value of a decimal digit. *)
Definition digit_value (a : ascii) : option Z :=
  let n := N_of_ascii a in
  if ((48 <=? n) && (n <=? 57))%N then Some (Z.of_N n - 48)%Z else None.

Fixpoint parse_digits (acc : Z) (l : bytes) : option Z :=
  match l with
  | [] => Some acc
  | a :: l' => d ← digit_value a; parse_digits (10 * acc + d) l'
  end.

(** [strconv.Atoi]: an optional sign, at least one digit, and a value that fits
    an [int]; [None] is its error. *)
Definition Atoi (s : string) : option Z :=
  let number (sign : Z) (l : bytes) :=
    match l with
    | [] => None
    | _ => n ← parse_digits 0 l; if bool_decide (int64_range (sign * n)) then Some (sign * n)%Z else None
    end in
  match to_bytes s with
  | [] => None
  | a :: l =>
    if bool_decide (a = "+"%char) then number 1%Z l
    else if bool_decide (a = "-"%char) then number (-1)%Z l
    else number 1%Z (a :: l)
  end.

(** [strconv.Itoa]. *)
Definition Itoa (z : Z) : string := pretty z.

Lemma digit_value_pretty x : (x < 10)%N → digit_value (pretty_N_char x) = Some (Z.of_N x).
Proof.
  intros Hx.
  assert (x = 0 ∨ x = 1 ∨ x = 2 ∨ x = 3 ∨ x = 4 ∨ x = 5 ∨ x = 6 ∨ x = 7 ∨ x = 8 ∨ x = 9)%N as Hd by lia.
  repeat destruct Hd as [->|Hd]; [reflexivity..|]. by subst.
Qed.

Lemma parse_pretty_go x s :
  parse_digits 0 (to_bytes (pretty_N_go x s)) = parse_digits (Z.of_N x) (to_bytes s).
Proof.
  revert s. induction (N.lt_wf_0 x) as [x _ IH]. intros s.
  destruct (decide (x = 0)%N) as [->|Hx]; [by rewrite pretty_N_go_0|].
  rewrite pretty_N_go_step by lia. rewrite IH by (apply N.div_lt; lia). simpl.
  rewrite digit_value_pretty by (apply N.mod_lt; lia). simpl. f_equal.
  pose proof (N.div_mod x 10 ltac:(lia)) as Hdm. lia.
Qed.

Lemma Atoi_Itoa z : (0 ≤ z < 2 ^ 63)%Z → Atoi (Itoa z) = Some z.
Proof.
  intros Hz. unfold Itoa. destruct z as [|p|p]; [reflexivity| |lia].
  change (pretty (Zpos p)) with (pretty_N_go (Npos p) "").
  pose proof (parse_pretty_go (Npos p) "") as Hp. simpl in Hp.
  assert (∀ s', pretty_N_go (Npos p) "" ≠ "-" +:+ s') as Hdash.
  { intros s'. apply pretty_N_go_ne_dash. done. }
  unfold Atoi. destruct (to_bytes (pretty_N_go (Npos p) "")) as [|a l] eqn:Hb; [done|].
  assert (pretty_N_go (Npos p) "" = String a (of_bytes l)) as Hs.
  { rewrite <-(of_to_bytes (pretty_N_go _ _)), Hb. done. }
  rewrite (bool_decide_false (a = "+"%char)), (bool_decide_false (a = "-"%char)).
  - rewrite Hp. simpl. rewrite bool_decide_true; [done|]. unfold int64_range. lia.
  - intros ->. by apply (Hdash (of_bytes l)).
  - intros ->. simpl in Hp. done.
Qed.

Lemma string_app_cons c s t : String c s +:+ t = String c (s +:+ t).
Proof. done. Qed.
Lemma string_app_nil_r s : s +:+ "" = s.
Proof. induction s as [|c s IH]; [done|]. by rewrite string_app_cons, IH. Qed.
Lemma string_app_assoc a b c : (a +:+ b) +:+ c = a +:+ (b +:+ c).
Proof. induction a as [|x a IH]; [done|]. by rewrite !string_app_cons, IH. Qed.

#[export] Instance string_app_inj_r s : Inj (=) (=) (λ t, s +:+ t).
Proof.
  intros a b. induction s as [|c s IH]; [done|]. rewrite !string_app_cons.
  intros [= H]. by apply IH.
Qed.

Lemma Join_cons sep a l :
  Join sep (a :: l) = match l with [] => a | _ => a +:+ String sep (Join sep l) end.
Proof. destruct l; done. Qed.

Lemma Contains_app sep a b : Contains sep (a +:+ b) = Contains sep a || Contains sep b.
Proof. induction a as [|c a IH]; [done|]. rewrite string_app_cons. simpl. by rewrite IH, orb_assoc. Qed.

Lemma Split_not_nil sep s : Split sep s ≠ [].
Proof.
  induction s as [|c s IH]; simpl; [done|]. case_bool_decide; [done|].
  by destruct (Split sep s).
Qed.

Lemma Split_pieces sep s a : a ∈ Split sep s → Contains sep a = false.
Proof.
  revert a. induction s as [|c s IH]; intros a; simpl.
  - intros ->%list_elem_of_singleton. done.
  - case_bool_decide.
    + intros [->|Ha]%elem_of_cons; [done|]. by apply IH.
    + destruct (Split sep s) as [|h t]; [by intros ?%elem_of_nil|].
      intros [->|Ha]%elem_of_cons; simpl.
      * rewrite bool_decide_false by done. apply IH. left.
      * apply IH. by right.
Qed.

Lemma Split_sep sep a s :
  Contains sep a = false → Split sep (a +:+ String sep s) = a :: Split sep s.
Proof.
  induction a as [|c a IH]; simpl; intros Ha.
  - by rewrite bool_decide_true.
  - apply orb_false_iff in Ha as [Hc Ha]. rewrite Hc, IH by done. done.
Qed.

Lemma Split_none sep a : Contains sep a = false → Split sep a = [a].
Proof.
  induction a as [|c a IH]; simpl; intros Ha; [done|].
  apply orb_false_iff in Ha as [Hc Ha]. rewrite Hc, IH by done. done.
Qed.

Lemma Split_Join sep l :
  l ≠ [] → (∀ a, a ∈ l → Contains sep a = false) → Split sep (Join sep l) = l.
Proof.
  intros Hne. induction l as [|a l IH]; [done|]. intros Hl.
  rewrite Join_cons. destruct l as [|b l].
  - apply Split_none, Hl. left.
  - rewrite Split_sep by (apply Hl; left). f_equal. apply IH; [done|].
    intros c Hc. apply Hl. by right.
Qed.

Lemma Join_Split sep s : Join sep (Split sep s) = s.
Proof.
  induction s as [|c s IH]; simpl; [done|]. case_bool_decide as Hc.
  - rewrite Join_cons, IH. destruct (Split sep s) eqn:E; [by apply Split_not_nil in E|].
    subst. done.
  - pose proof (Split_not_nil sep s). destruct (Split sep s) as [|h t]; [done|].
    rewrite Join_cons in *. destruct t; rewrite <-IH; done.
Qed.

Lemma Join_app sep l1 l2 :
  l1 ≠ [] → l2 ≠ [] → Join sep (l1 ++ l2) = Join sep l1 +:+ String sep (Join sep l2).
Proof.
  intros H1 H2. induction l1 as [|a l1 IH]; [done|]. simpl. rewrite !Join_cons.
  destruct l1 as [|b l1]; simpl.
  - by destruct l2.
  - simpl in IH. rewrite IH by done. by rewrite string_app_assoc.
Qed.

Lemma HasPrefix_spec s p : HasPrefix s p = true ↔ ∃ t, s = p +:+ t.
Proof.
  revert s. induction p as [|c p IH]; intros s.
  - destruct s; (split; [intros _; eexists; reflexivity | done]).
  - destruct s as [|d s]; simpl.
    + split; [done|]. by intros [t Ht].
    + rewrite andb_true_iff, bool_decide_eq_true, IH. split.
      * intros [-> [t ->]]. by exists t.
      * intros [t Ht]. injection Ht as -> ->. split; [done|]. by exists t.
Qed.

#[export] Hint Resolve TrimSpace_trimmed trimmed_empty Split_not_nil : weave.
