(* ===== verification/Paths.v ===== *)
(** * State paths: [state/path.go]

    The address of a value in the state envelope: one of four sections and a
    list of segments.  [NewPath] and [ParsePath] are the only ways the program
    builds one from text, so every path in circulation is the zero path or
    satisfies [wf_path]; [String] is then a faithful, canonical name for it,
    which the rest of the package relies on when it compares dotted strings in
    place of paths. *)

From S2P Require Import Prelude GoStrings.
From Stdlib Require Import Ascii.

Definition SectionShared : string := "shared".
Definition SectionScopes : string := "scopes".
Definition SectionInternal : string := "internal".
Definition SectionRuntime : string := "runtime".

Definition dot : ascii := "."%char.

(** [Path]: both fields are private to the package. *)
Record Path := MkPath { section : string; segments : list string }.

#[export] Instance Path_eq_dec : EqDecision Path.
Proof. solve_decision. Defined.

Inductive path_error :=
  | ESectionRequired
  | EUnknownSection (section : string)
  | ESegmentRequired
  | ESegmentDot (segment : string)
  | EPathRequired.

Definition normalizeSegment (segment : string) : string := TrimSpace segment.

Definition knownSection (s : string) : bool :=
  bool_decide (s = SectionShared) || bool_decide (s = SectionScopes)
  || bool_decide (s = SectionInternal) || bool_decide (s = SectionRuntime).

(** One turn of the loop of [NewPath]. *)
Definition cleanSegment (segment : string) : result path_error string :=
  let segment := normalizeSegment segment in
  if bool_decide (segment = "") then Err ESegmentRequired
  else if Contains dot segment then Err (ESegmentDot segment)
  else Ok segment.

Fixpoint cleanSegments (segs : list string) : result path_error (list string) :=
  match segs with
  | [] => Ok []
  | s :: segs' =>
    let* c := cleanSegment s in
    let* cs := cleanSegments segs' in
    Ok (c :: cs)
  end.

Definition NewPath (sec : string) (segs : list string) : result path_error Path :=
  let sec := normalizeSegment sec in
  if bool_decide (sec = "") then Err ESectionRequired
  else if negb (knownSection sec) then Err (EUnknownSection sec)
  else let* cleaned := cleanSegments segs in Ok (MkPath sec cleaned).

Definition ParsePath (text : string) : result path_error Path :=
  match Split dot (TrimSpace text) with
  | [] => Err EPathRequired
  | first :: rest =>
    if bool_decide (TrimSpace first = "") then Err EPathRequired
    else NewPath first rest
  end.

(** [MustPath] and the constructors over it panic where [NewPath] fails; the
    error stands for the panic. *)
Definition Shared (segs : list string) := NewPath SectionShared segs.
Definition Runtime (segs : list string) := NewPath SectionRuntime segs.
Definition Internal (namespace : string) (segs : list string) :=
  NewPath SectionInternal (namespace :: segs).
Definition Scope (scope : string) (segs : list string) :=
  NewPath SectionScopes (scope :: segs).

Definition Empty (p : Path) : bool := bool_decide (section p = "").

(** [Path.String]. *)
Definition PathString (p : Path) : string :=
  if bool_decide (section p = "") then ""
  else match segments p with
       | [] => section p
       | segs => section p +:+ "." +:+ Join dot segs
       end.

Definition Child (p : Path) (segs : list string) : result path_error Path :=
  NewPath (section p) (segments p ++ segs).

(** [pathWithin] of [validation.go]: [path] is [parent] or lies below it. *)
Fixpoint segments_within (path parent : list string) : bool :=
  match parent, path with
  | [], _ => true
  | s :: parent', t :: path' => bool_decide (t = s) && segments_within path' parent'
  | _ :: _, [] => false
  end.

Definition pathWithin (path parent : Path) : bool :=
  if Empty path || Empty parent || negb (bool_decide (section path = section parent)) then false
  else if length (segments path) <? length (segments parent) then false
  else segments_within (segments path) (segments parent).

(** ** Well-formed paths *)

Definition good_segment (s : string) : Prop :=
  trimmed s ∧ s ≠ "" ∧ Contains dot s = false.

Definition wf_path (p : Path) : Prop :=
  knownSection (section p) = true ∧ Forall good_segment (segments p).

(** The zero value of [Path]. *)
Definition zero_path : Path := MkPath "" [].

#[export] Instance wf_path_dec p : Decision (wf_path p).
Proof. unfold wf_path, good_segment. apply _. Defined.

Lemma knownSection_good s : knownSection s = true → good_segment s.
Proof.
  unfold knownSection. rewrite !orb_true_iff, !bool_decide_eq_true.
  intros [[[->| ->]| ->]| ->]; split; vm_compute; done.
Qed.

Lemma knownSection_head s : knownSection s = true →
  ∃ a t, s = String a t ∧ solid a = true.
Proof.
  unfold knownSection. rewrite !orb_true_iff, !bool_decide_eq_true.
  intros [[[->| ->]| ->]| ->]; vm_compute; eauto.
Qed.

Lemma cleanSegment_good s c : cleanSegment s = Ok c → good_segment c.
Proof.
  unfold cleanSegment. case_bool_decide; [done|].
  destruct (Contains dot _) eqn:E; [done|]. intros [= <-].
  split; [apply TrimSpace_trimmed|done].
Qed.

Lemma cleanSegment_id s : good_segment s → cleanSegment s = Ok s.
Proof.
  intros (Ht & Hne & Hd). unfold cleanSegment, normalizeSegment.
  rewrite Ht, Hd, bool_decide_false by done. done.
Qed.

Lemma cleanSegments_good l l' : cleanSegments l = Ok l' → Forall good_segment l'.
Proof.
  revert l'. induction l as [|s l IH]; intros l'; simpl; [intros [= <-]; constructor|].
  intros H. result_inv. constructor; [by eapply cleanSegment_good | auto].
Qed.

Lemma cleanSegments_id l : Forall good_segment l → cleanSegments l = Ok l.
Proof.
  induction 1 as [|s l Hs _ IH]; simpl; [done|].
  by rewrite (cleanSegment_id _ Hs), IH.
Qed.

Lemma cleanSegments_app l l' x :
  Forall good_segment l → cleanSegments (l ++ l') = Ok x → ∃ rest, x = l ++ rest.
Proof.
  intros Hl. revert x. induction Hl as [|s l Hs _ IH]; intros x Hx; [by exists x|].
  simpl in Hx. rewrite (cleanSegment_id _ Hs) in Hx. simpl in Hx.
  apply result_bind_Ok in Hx as (y & Hy & [= <-]).
  destruct (IH _ Hy) as [rest ->]. by exists rest.
Qed.

Lemma NewPath_wf sec segs p : NewPath sec segs = Ok p → wf_path p.
Proof.
  unfold NewPath. case_bool_decide; [done|].
  destruct (knownSection _) eqn:Hk; [|done]. simpl. intros Hok. result_inv.
  split; [done|]. by eapply cleanSegments_good.
Qed.

Lemma NewPath_id p : wf_path p → NewPath (section p) (segments p) = Ok p.
Proof.
  intros [Hk Hs]. unfold NewPath, normalizeSegment.
  destruct (knownSection_good _ Hk) as (Ht & Hne & _).
  rewrite Ht, Hk, bool_decide_false by done. simpl.
  rewrite cleanSegments_id by done. by destruct p.
Qed.

Lemma wf_not_empty p : wf_path p → Empty p = false.
Proof.
  intros [Hk _]. apply bool_decide_false. by apply knownSection_good in Hk as (_ & ? & _).
Qed.

Lemma wf_section p : wf_path p → section p ≠ "".
Proof. intros [Hk _]. by apply knownSection_good in Hk as (_ & ? & _). Qed.

Lemma PathString_wf p : wf_path p →
  PathString p = Join dot (section p :: segments p).
Proof.
  intros Hp. pose proof (wf_not_empty p Hp) as He. unfold Empty in He.
  unfold PathString. rewrite He. by destruct (segments p).
Qed.

Lemma Join_trim_right l s :
  good_segment s → Forall good_segment l →
  trim_right (to_bytes (Join dot (l ++ [s]))) = to_bytes (Join dot (l ++ [s])).
Proof.
  intros Hs Hl. pose proof Hs as (Ht & Hne & _).
  apply trimmed_spec in Ht as [_ Hr].
  destruct l as [|a l]; simpl; [done|].
  change (a :: l ++ [s]) with ((a :: l) ++ [s]).
  rewrite Join_app, to_bytes_app by done. simpl. apply trim_right_solid; [done| |done].
  by destruct s.
Qed.

Lemma PathString_trimmed p : wf_path p → trimmed (PathString p).
Proof.
  intros Hp. rewrite PathString_wf by done. destruct Hp as [Hk Hs]. apply trimmed_spec. split.
  - destruct (knownSection_head _ Hk) as (a & t & Hsec & Ha). rewrite Hsec, Join_cons.
    destruct (segments p); by apply trim_left_solid.
  - destruct (segments p) as [|x l _] eqn:E using rev_ind.
    + by apply (Join_trim_right []); [apply knownSection_good|].
    + apply Forall_app in Hs as [Hl Hx]. rewrite app_comm_cons.
      apply Join_trim_right; [by inversion Hx|]. constructor; [by apply knownSection_good|done].
Qed.

Lemma wf_no_dots p : wf_path p → ∀ a, a ∈ section p :: segments p → Contains dot a = false.
Proof.
  intros [Hk Hs] a [->|Ha]%elem_of_cons; [by apply knownSection_good|].
  rewrite Forall_forall in Hs. by apply Hs.
Qed.

Lemma ParsePath_PathString p : wf_path p → ParsePath (PathString p) = Ok p.
Proof.
  intros Hp. unfold ParsePath. rewrite (PathString_trimmed p Hp), PathString_wf by done.
  rewrite Split_Join; [|done|by apply wf_no_dots].
  pose proof Hp as [(Ht & Hne & _)%knownSection_good _].
  rewrite Ht, bool_decide_false by done. by apply NewPath_id.
Qed.

Lemma ParsePath_wf text p : ParsePath text = Ok p → wf_path p.
Proof.
  unfold ParsePath. destruct (Split _ _); [done|]. case_bool_decide; [done|].
  apply NewPath_wf.
Qed.

Lemma PathString_inj p q : wf_path p → wf_path q → PathString p = PathString q → p = q.
Proof.
  intros Hp Hq H. apply ParsePath_PathString in Hp, Hq. rewrite H in Hp. congruence.
Qed.

Lemma PathString_nonempty p : wf_path p → PathString p ≠ "".
Proof.
  intros Hp H. pose proof (ParsePath_PathString p Hp) as Hr. rewrite H in Hr. done.
Qed.

(** ** Containment *)

Lemma segments_within_spec l parent :
  segments_within l parent = true ↔ ∃ rest, l = parent ++ rest.
Proof.
  revert l. induction parent as [|s parent IH]; intros l; simpl.
  - split; [by exists l | by destruct l].
  - destruct l as [|t l]; simpl; [split; [done|by intros [? ?]]|].
    rewrite andb_true_iff, bool_decide_eq_true, IH. naive_solver.
Qed.

Lemma pathWithin_spec p q :
  pathWithin p q = true ↔
  section p ≠ "" ∧ section p = section q ∧ ∃ rest, segments p = segments q ++ rest.
Proof.
  unfold pathWithin, Empty. split.
  - repeat case_bool_decide; simpl; try done.
    destruct (_ <? _) eqn:El; [done|]. rewrite segments_within_spec. naive_solver.
  - intros (Hne & Hs & rest & Hr).
    rewrite <-Hs, !bool_decide_false, bool_decide_true by done. simpl.
    assert ((length (segments p) <? length (segments q)) = false) as ->.
    { apply Nat.ltb_ge. rewrite Hr, length_app. lia. }
    apply segments_within_spec. eauto.
Qed.

Lemma pathWithin_refl p : Empty p = false → pathWithin p p = true.
Proof.
  intros He%bool_decide_eq_false. apply pathWithin_spec. split_and!; [done..|].
  exists []. by rewrite app_nil_r.
Qed.

Lemma pathWithin_trans p q r :
  pathWithin p q = true → pathWithin q r = true → pathWithin p r = true.
Proof.
  rewrite !pathWithin_spec. intros (? & ? & l1 & H1) (? & ? & l2 & H2).
  split_and!; [done|congruence|]. exists (l2 ++ l1). by rewrite H1, H2, app_assoc.
Qed.

Lemma pathWithin_antisym p q : pathWithin p q = true → pathWithin q p = true → p = q.
Proof.
  rewrite !pathWithin_spec. intros (? & Hs & l1 & H1) (? & _ & l2 & H2).
  destruct p as [sp lp], q as [sq lq]; simpl in *. f_equal; [done|].
  assert (l1 = []) as ->; [|by rewrite app_nil_r in H1].
  apply (f_equal length) in H1, H2. rewrite !length_app in *. apply nil_length_inv. lia.
Qed.

(** Two distinct paths neither inside the other: they split at some segment. *)
Definition disjoint_paths (p q : Path) : Prop :=
  pathWithin p q = false ∧ pathWithin q p = false.

Lemma disjoint_paths_sym p q : disjoint_paths p q → disjoint_paths q p.
Proof. unfold disjoint_paths. tauto. Qed.

Lemma path_cases p q :
  ({pathWithin p q = true} + {pathWithin q p = true}) + {disjoint_paths p q}.
Proof.
  unfold disjoint_paths.
  destruct (pathWithin p q); [by left; left|]. destruct (pathWithin q p); [by left; right|].
  by right.
Defined.

(** What lies inside a path shares no entry with what is apart from it. *)
Lemma disjoint_inside p p' q :
  pathWithin p' p = true → disjoint_paths p q → disjoint_paths p' q.
Proof.
  intros Hp [H1 H2]. unfold disjoint_paths. rewrite <-!not_true_iff_false in *. split; intros H.
  - apply pathWithin_spec in Hp as (Hne & Hs & r & Hr).
    apply pathWithin_spec in H as (_ & Hs' & r' & Hr').
    destruct (prefix_weak_total (segments p) (segments q) (segments p')) as [[l Hl]|[l Hl]];
      [by exists r|by exists r'| |].
    + apply H2, pathWithin_spec. split_and!; [congruence|congruence|eauto].
    + apply H1, pathWithin_spec. split_and!; [congruence|congruence|eauto].
  - apply H2. by apply (pathWithin_trans q p' p).
Qed.

Lemma disjoint_segments p q :
  section p = section q → section p ≠ "" → disjoint_paths p q →
  ∃ l a b r1 r2, a ≠ b ∧ segments p = l ++ a :: r1 ∧ segments q = l ++ b :: r2.
Proof.
  unfold disjoint_paths. rewrite <-!not_true_iff_false, !pathWithin_spec.
  intros Hs Hne [H1 H2].
  assert (∀ rest, segments p ≠ segments q ++ rest) as H1'.
  { intros rest Hr. apply H1. split_and!; [done..|by exists rest]. }
  assert (∀ rest, segments q ≠ segments p ++ rest) as H2'.
  { intros rest Hr. apply H2. split_and!; [congruence|done|by exists rest]. }
  clear H1 H2. generalize dependent (segments q). generalize dependent (segments p).
  clear. intros lp. induction lp as [|a lp IH]; intros lq Hp Hq.
  - by destruct (Hq lq).
  - destruct lq as [|b lq]; [by destruct (Hp (a :: lp))|].
    destruct (decide (a = b)) as [->|Hab]; [|by exists [], a, b, lp, lq].
    destruct (IH lq) as (l & x & y & r1 & r2 & Hxy & -> & ->).
    + intros rest ->. by apply (Hp rest).
    + intros rest ->. by apply (Hq rest).
    + by exists (b :: l), x, y, r1, r2.
Qed.

(** The dotted prefix test agrees with [pathWithin] on well-formed paths. *)
Lemma pathWithin_dotted p q :
  wf_path p → wf_path q →
  pathWithin p q = true ↔
  PathString p = PathString q ∨ HasPrefix (PathString p) (PathString q +:+ ".") = true.
Proof.
  intros Hp Hq. rewrite HasPrefix_spec, pathWithin_spec. split.
  - intros (Hne & Hs & rest & Hr). destruct rest as [|a rest].
    + left. rewrite app_nil_r in Hr. f_equal. destruct p, q; simpl in *; congruence.
    + right. exists (Join dot (a :: rest)).
      rewrite !PathString_wf by done. rewrite Hs, Hr, app_comm_cons.
      rewrite Join_app by done. by rewrite string_app_assoc.
  - intros [Heq|[t Ht]].
    + apply PathString_inj in Heq as ->; [|done..]. split_and!; [|done|].
      * by apply wf_section.
      * exists []. by rewrite app_nil_r.
    + rewrite !PathString_wf in Ht by done.
      apply (f_equal (Split dot)) in Ht.
      rewrite Split_Join in Ht; [|done|by apply wf_no_dots].
      rewrite <-(Join_Split dot t), string_app_assoc in Ht.
      change ("." +:+ Join dot (Split dot t)) with (String dot (Join dot (Split dot t))) in Ht.
      rewrite <-Join_app in Ht; [|done|apply Split_not_nil].
      rewrite Split_Join in Ht; [|done|].
      * injection Ht as Hs Hr. split_and!; [|done|by exists (Split dot t)].
        by apply wf_section.
      * intros a [Ha|Ha]%elem_of_app; [by eapply wf_no_dots|by eapply Split_pieces].
Qed.

Lemma Child_within p segs c : wf_path p → Child p segs = Ok c → pathWithin c p = true.
Proof.
  intros Hp Hc. unfold Child, NewPath, normalizeSegment in Hc.
  pose proof Hp as [Hk Hs]. pose proof (knownSection_good _ Hk) as (Ht & Hne & _).
  rewrite Ht, Hk, bool_decide_false in Hc by done. simpl in Hc. result_inv. subst.
  apply pathWithin_spec. simpl. split_and!; [done..|].
  by eapply cleanSegments_app.
Qed.

#[export] Hint Resolve NewPath_wf ParsePath_wf wf_not_empty : weave.

(** ** Properties *)

Lemma cleanSegment_spec s c : cleanSegment s = Ok c ↔ good_segment c ∧ TrimSpace s = c.
Proof.
  unfold cleanSegment, normalizeSegment. case_bool_decide as He.
  - split; [done|]. intros [(_ & Hne & _) <-]. done.
  - destruct (Contains dot (TrimSpace s)) eqn:Hc.
    + split; [done|]. intros [(_ & _ & Hc') <-]. congruence.
    + split; [|by intros [_ <-]]. intros [= <-]. split; [|done].
      split_and!; [apply TrimSpace_trimmed|done|done].
Qed.

Lemma cleanSegments_spec l l' :
  cleanSegments l = Ok l' ↔ Forall good_segment l' ∧ map TrimSpace l = l'.
Proof.
  revert l'. induction l as [|s l IH]; intros l'; simpl.
  - split; [intros [= <-]; by split|]. by intros [_ <-].
  - split.
    + intros H. result_inv. subst.
      match goal with Hc : cleanSegment _ = Ok _ |- _ => apply cleanSegment_spec in Hc as [? <-] end.
      match goal with Hc : cleanSegments _ = Ok _ |- _ => apply IH in Hc as [? <-] end.
      by split; [constructor|].
    + intros [Hf <-]. inversion_clear Hf as [|? ? H1 H2].
      rewrite (proj2 (cleanSegment_spec s _) (conj H1 eq_refl)). simpl.
      by rewrite (proj2 (IH _) (conj H2 eq_refl)).
Qed.

(** [NewPath] accepts exactly the section and segments that are, after
    trimming, one of the four known sections and non-empty names without a
    dot; the path it returns holds the trimmed names. *)
Theorem NewPath_exact sec segs p :
  NewPath sec segs = Ok p ↔
  wf_path p ∧ TrimSpace sec = section p ∧ map TrimSpace segs = segments p.
Proof.
  unfold NewPath, normalizeSegment. split.
  - intros H. case_bool_decide as He; [done|]. destruct (knownSection _) eqn:Hk; [|done].
    simpl in H. result_inv. subst.
    match goal with Hc : cleanSegments _ = Ok _ |- _ => apply cleanSegments_spec in Hc as [? ?] end.
    by split_and!.
  - intros ([Hk Hf] & Hs & Hm). rewrite Hs.
    rewrite bool_decide_false by (by apply wf_section). rewrite Hk. simpl.
    rewrite (proj2 (cleanSegments_spec segs _) (conj Hf Hm)). by destruct p.
Qed.

(** Parsing is canonical: a path [ParsePath] returns is well-formed, its
    printed form parses back to it, and no other parsed path prints the same. *)
Theorem ParsePath_canonical text p :
  ParsePath text = Ok p →
  wf_path p ∧ ParsePath (PathString p) = Ok p ∧
  ∀ text' q, ParsePath text' = Ok q → PathString q = PathString p → q = p.
Proof.
  intros Hp%ParsePath_wf. split_and!; [done|by apply ParsePath_PathString|].
  intros text' q Hq%ParsePath_wf. by apply PathString_inj.
Qed.

(** Containment of paths is a partial order with the section roots as its
    greatest elements, and it is the test by dotted prefix of the texts: the
    textual and the structural reading of "inside" agree. *)
Theorem pathWithin_order p q r :
  wf_path p → wf_path q → wf_path r →
  (pathWithin p q = true ↔
   PathString p = PathString q ∨ HasPrefix (PathString p) (PathString q +:+ ".") = true) ∧
  pathWithin p p = true ∧
  (pathWithin p q = true → pathWithin q r = true → pathWithin p r = true) ∧
  (pathWithin p q = true → pathWithin q p = true → p = q) ∧
  pathWithin p (MkPath (section p) []) = true.
Proof.
  intros Hp Hq Hr. split_and!.
  - by apply pathWithin_dotted.
  - by apply pathWithin_refl, wf_not_empty.
  - apply pathWithin_trans.
  - apply pathWithin_antisym.
  - apply pathWithin_spec. split_and!; [by apply wf_section|done|by eexists].
Qed.

(** ** Concrete runs *)

Lemma ParsePath_canonical_witness :
  ParsePath " shared . a.b " = Ok (MkPath "shared" ["a"; "b"]) ∧
  ParsePath (PathString (MkPath "shared" ["a"; "b"])) = Ok (MkPath "shared" ["a"; "b"]).
Proof.
  assert (ParsePath " shared . a.b " = Ok (MkPath "shared" ["a"; "b"])) as H by reflexivity.
  split; [exact H|]. exact (proj1 (proj2 (ParsePath_canonical _ _ H))).
Defined.

Lemma pathWithin_order_witness :
  pathWithin (MkPath "shared" ["a"; "b"]) (MkPath "shared" []) = true.
Proof.
  refine (proj2 (proj2 (proj2 (proj2
    (pathWithin_order (MkPath "shared" ["a"; "b"]) (MkPath "shared" ["a"]) (MkPath "shared" [])
      _ _ _))))); by apply (bool_decide_unpack _).
Defined.
