(* ===== verification/Values.v ===== *)
(** * Dynamic values: [state/value.go], the slice helpers of [state/patch.go]

    State stores arbitrary Go values behind [any].  [value] is the part of
    that universe the package distinguishes: [nil], booleans, the integer
    kinds, [*big.Int], [float64], strings, slices with their element type and
    [map[string]any], with the nil slice and the nil map kept apart from the
    empty ones, because the code tells them apart.  Functions and channels are
    [VOpaque]: the values [CloneValue] cannot copy.  Values are trees; every
    boundary of the package copies, so no two places of the program share one.
    Not in the universe: structs, pointers other than [*big.Int], [float32],
    [json.Number] and [[]uint8], which the state of a graph does not hold once
    it has been decoded. *)

From S2P Require Import Prelude.
From Stdlib Require Import SpecFloat.

(** ** Types and values *)

Inductive int_kind :=
  | IInt | IInt8 | IInt16 | IInt32 | IInt64
  | IUint | IUint16 | IUint32 | IUint64.

Inductive go_type :=
  | TAny
  | TBool
  | TInt (k : int_kind)
  | TBigInt
  | TFloat64
  | TString
  | TMap
  | TSlice (elem : go_type)
  | TOpaque (name : string).

#[export] Instance int_kind_eq_dec : EqDecision int_kind.
Proof. solve_decision. Defined.
#[export] Instance go_type_eq_dec : EqDecision go_type.
Proof. solve_decision. Defined.

Inductive value : Type :=
  | VNil
  | VBool (b : bool)
  | VInt (k : int_kind) (z : Z)
  | VBig (z : Z)
  | VFloat (f : spec_float)
  | VStr (s : string)
  | VNilSlice (elem : go_type)
  | VSlice (elem : go_type) (l : list value)
  | VNilMap
  | VMap (m : gmap string value)
  | VOpaque (type_name : string).

Abbreviation vmap := (gmap string value).

(** [reflect.TypeOf]; the nil interface has no type. *)
Definition typeOf (v : value) : option go_type :=
  match v with
  | VNil => None
  | VBool _ => Some TBool
  | VInt k _ => Some (TInt k)
  | VBig _ => Some TBigInt
  | VFloat _ => Some TFloat64
  | VStr _ => Some TString
  | VNilSlice t | VSlice t _ => Some (TSlice t)
  | VNilMap | VMap _ => Some TMap
  | VOpaque n => Some (TOpaque n)
  end.

(** [Type.AssignableTo] on this universe: identical types, or the target is
    the empty interface. *)
Definition AssignableTo (t target : go_type) : bool :=
  bool_decide (t = target) || bool_decide (target = TAny).

(** Width of the integer kinds on a 64-bit platform. *)
Definition int_range (k : int_kind) : Z * Z :=
  match k with
  | IInt | IInt64 => (- 2 ^ 63, 2 ^ 63 - 1)
  | IInt8 => (- 2 ^ 7, 2 ^ 7 - 1)
  | IInt16 => (- 2 ^ 15, 2 ^ 15 - 1)
  | IInt32 => (- 2 ^ 31, 2 ^ 31 - 1)
  | IUint | IUint64 => (0, 2 ^ 64 - 1)
  | IUint16 => (0, 2 ^ 16 - 1)
  | IUint32 => (0, 2 ^ 32 - 1)
  end%Z.

Definition in_range (k : int_kind) (z : Z) : Prop :=
  (fst (int_range k) ≤ z ≤ snd (int_range k))%Z.

(** ** Induction *)

Fixpoint value_size (v : value) : nat :=
  match v with
  | VSlice _ l => S (list_sum (map value_size l))
  | VMap m => S (map_fold (λ _ w n, value_size w + n) 0 m)
  | _ => 1
  end.

Lemma value_size_slice t l v : v ∈ l → value_size v < value_size (VSlice t l).
Proof. simpl. induction 1; simpl in *; lia. Qed.

Lemma value_size_map m k v : m !! k = Some v → value_size v < value_size (VMap m).
Proof.
  intros Hk. simpl.
  rewrite (map_fold_delete_L (λ _ w n, value_size w + n) 0 k v m); [lia| |done].
  intros; lia.
Qed.

(** Induction over values through slice elements and map entries. *)
Lemma value_rect_strong (P : value → Prop) :
  (∀ v, match v with
        | VSlice _ l => ∀ w, w ∈ l → P w
        | VMap m => ∀ k w, m !! k = Some w → P w
        | _ => True
        end → P v) →
  ∀ v, P v.
Proof.
  intros H v. induction v as [v IH] using (induction_ltof1 _ value_size). apply H.
  destruct v; try done.
  - intros w Hw. apply IH. by apply value_size_slice.
  - intros k w Hw. apply IH. by eapply value_size_map.
Qed.

(** ** Copying

    On trees a copy is the value itself; what is left of [CloneValue] is
    whether isolation could be proven. *)

Fixpoint cloneable (v : value) : bool :=
  match v with
  | VOpaque _ => false
  | VSlice _ l => forallb cloneable l
  | VMap m => map_fold (λ _ w b, cloneable w && b) true m
  | _ => true
  end.

Lemma cloneable_map m :
  cloneable (VMap m) = true ↔ ∀ k w, m !! k = Some w → cloneable w = true.
Proof.
  simpl. induction m as [|k w m Hk IH] using map_ind.
  - rewrite map_fold_empty. split; [|done]. intros _ k w. by rewrite lookup_empty.
  - rewrite map_fold_insert_L; [| |done].
    2:{ intros. rewrite !andb_assoc. f_equal. apply andb_comm. }
    rewrite andb_true_iff, IH. split.
    + intros [Hw Hm] k' w' [[<- <-]|[Hne Hl]]%lookup_insert_Some; eauto.
    + intros H. split; [apply (H k), lookup_insert_eq|].
      intros k' w' Hl. apply (H k' w'). rewrite lookup_insert_ne; [done|].
      intros <-. by rewrite Hk in Hl.
Qed.

(** ** Objects *)

(** [asMap]: the type assertion to [map[string]any], which a nil map passes. *)
Definition asMap (v : value) : option vmap :=
  match v with VMap m => Some m | VNilMap => Some ∅ | _ => None end.

(** What [mergeMap] leaves at a key whose overlay value is [o] and whose
    current value is [t].  When both are objects the code descends: into a nil
    target it returns at once, and a nil overlay adds nothing. *)
Fixpoint merge_value (o : value) (t : option value) {struct o} : value :=
  match o, t with
  | VMap om, Some (VMap tm) =>
    VMap (merge (λ b a, match b with
                        | None => a
                        | Some o' => Some (merge_value o' a)
                        end) om tm)
  | VMap _, Some VNilMap => VNilMap
  | VNilMap, Some (VMap tm) => VMap tm
  | VNilMap, Some VNilMap => VNilMap
  | _, _ => o
  end.

Definition mergeMap (target overlay : vmap) : vmap :=
  merge (λ b a, match b with
                | None => a
                | Some o' => Some (merge_value o' a)
                end) overlay target.

Lemma merge_value_map om tm : merge_value (VMap om) (Some (VMap tm)) = VMap (mergeMap tm om).
Proof. done. Qed.

Lemma merge_value_None o : merge_value o None = o.
Proof. by destruct o. Qed.

Lemma lookup_mergeMap tm om k :
  mergeMap tm om !! k =
  match om !! k with None => tm !! k | Some o => Some (merge_value o (tm !! k)) end.
Proof. unfold mergeMap. rewrite lookup_merge. by destruct (tm !! k), (om !! k). Qed.

Lemma mergeMap_empty_l om : mergeMap ∅ om = om.
Proof.
  apply map_eq. intros k. rewrite lookup_mergeMap, lookup_empty.
  destruct (om !! k) eqn:E; [by rewrite merge_value_None | done].
Qed.

Lemma mergeMap_empty_r tm : mergeMap tm ∅ = tm.
Proof. apply map_eq. intros k. by rewrite lookup_mergeMap, lookup_empty. Qed.

(** Merging an overlay twice is merging it once. *)
Lemma merge_value_idemp o t : merge_value o (Some (merge_value o t)) = merge_value o t.
Proof.
  revert t. induction o as [o IH] using value_rect_strong. intros t.
  destruct o as [| | | | | | | | |om|]; try (destruct t as [[]|]; done).
  assert (∀ tm, mergeMap (mergeMap tm om) om = mergeMap tm om) as Hidem.
  { intros tm. apply map_eq. intros k. rewrite !lookup_mergeMap.
    destruct (om !! k) eqn:Hk; [|done]. f_equal. by eapply IH. }
  assert (mergeMap om om = om) as Hself.
  { rewrite <-(mergeMap_empty_l om) at 1 3. by rewrite Hidem. }
  destruct t as [[]|]; try done; try (change (VMap (mergeMap om om) = VMap om); by rewrite Hself).
  match goal with |- _ = merge_value _ (Some (VMap ?tm)) =>
    change (VMap (mergeMap (mergeMap tm om) om) = VMap (mergeMap tm om)) end.
  by rewrite Hidem.
Qed.

Lemma mergeMap_idemp tm om : mergeMap (mergeMap tm om) om = mergeMap tm om.
Proof.
  apply map_eq. intros k. rewrite !lookup_mergeMap.
  destruct (om !! k); [|done]. by rewrite merge_value_idemp.
Qed.

(** ** Reading below a value *)

Fixpoint get_in (v : value) (segs : list string) : option value :=
  match segs with
  | [] => Some v
  | s :: segs' =>
    match v with
    | VMap m => match m !! s with Some w => get_in w segs' | None => None end
    | _ => None
    end
  end.

Lemma get_in_app v l1 l2 : get_in v (l1 ++ l2) = get_in v l1 ≫= λ w, get_in w l2.
Proof.
  revert v. induction l1 as [|s l1 IH]; intros v; simpl; [done|].
  destruct v; try done. by destruct (_ !! s).
Qed.

(** ** Slices *)

Definition maxCollectionSize : Z := 1000000%Z.
Definition maxInt : Z := (2 ^ 63 - 1)%Z.

(** [anySlice]: the elements of a slice of any element type. *)
Definition anySlice (v : value) : option (list value) :=
  match v with
  | VNilSlice _ => Some []
  | VSlice _ l => if (Z.of_nat (length l) <=? maxCollectionSize)%Z then Some l else None
  | _ => None
  end.

Inductive append_error :=
  | EAppendTooLarge
  | EAppendNotSlice (existing : value).

(** Elements of a value of kind slice, without the size limit of [anySlice]. *)
Definition slice_view (v : value) : option (go_type * list value) :=
  match v with
  | VNilSlice t => Some (t, [])
  | VSlice t l => Some (t, l)
  | _ => None
  end.

(** The last part of [appendValue]: both sides flattened to [[]any]. *)
Definition append_any (existing v : value) : result append_error value :=
  match anySlice existing with
  | None => Err (EAppendNotSlice existing)
  | Some leftItems =>
    let rightItems := match anySlice v with Some r => r | None => [v] end in
    if (Z.of_nat (length rightItems) >? maxInt - Z.of_nat (length leftItems))%Z
    then Err EAppendTooLarge
    else Ok (VSlice TAny (leftItems ++ rightItems))
  end.

Definition appendValue (existing v : value) : result append_error value :=
  match slice_view existing with
  | None => append_any existing v
  | Some (elem, lefts) =>
    if bool_decide (typeOf v = Some (TSlice elem)) then
      match slice_view v with
      | Some (_, rights) =>
        if (Z.of_nat (length rights) >? maxInt - Z.of_nat (length lefts))%Z
        then Err EAppendTooLarge
        else Ok (VSlice elem (lefts ++ rights))
      | None => append_any existing v
      end
    else
      match typeOf v with
      | Some t => if AssignableTo t elem then Ok (VSlice elem (lefts ++ [v]))
                  else append_any existing v
      | None => append_any existing v
      end
  end.

Definition normalizeAppendSeed (v : value) : value :=
  match anySlice v with Some _ => v | None => VSlice TAny [v] end.
