(* ===== verification/Json.v ===== *)
(** * [encoding/json.Marshal] on dynamic values

    The program compares values by their JSON text ([jsonEqual]), measures a
    state by it and persists it.  [json_encode] is [json.Marshal] on [value]:
    [None] for what it rejects (NaN, infinities, functions and channels),
    object keys in byte order, HTML-safe string escapes with invalid UTF-8
    replaced, and [float64] printed with the fewest digits that read back. *)

From S2P Require Import Prelude GoStrings Values.
From Stdlib Require Import Ascii SpecFloat.
From stdpp Require Import pretty.

(** ** Strings *)

Definition between (lo hi x : N) : bool := ((lo <=? x) && (x <=? hi))%N.

(** Width of the valid multi-byte rune at the head of the input, after
    [utf8.DecodeRune]; [None] for an invalid byte. *)
Definition rune_width (l : bytes) : option nat :=
  match l with
  | [] => None
  | a :: l1 =>
    let x := N_of_ascii a in
    match l1 with
    | [] => None
    | b :: l2 =>
      let y := N_of_ascii b in
      if between 194 223 x then if between 128 191 y then Some 2 else None
      else
        let second :=
          if (x =? 224)%N then between 160 191 y
          else if (x =? 237)%N then between 128 159 y
          else if (x =? 240)%N then between 144 191 y
          else if (x =? 244)%N then between 128 143 y
          else between 128 191 y in
        match l2 with
        | [] => None
        | c :: l3 =>
          let z := N_of_ascii c in
          if between 224 239 x then if second && between 128 191 z then Some 3 else None
          else if between 240 244 x then
            match l3 with
            | [] => None
            | d :: _ =>
              if second && between 128 191 z && between 128 191 (N_of_ascii d) then Some 4
              else None
            end
          else None
        end
    end
  end.

Definition hex_digit (n : N) : ascii :=
  if (n <? 10)%N then ascii_of_N (48 + n) else ascii_of_N (87 + n).

Definition lit (s : string) : bytes := to_bytes s.

(** One ASCII byte of a string literal. *)
Definition quote_ascii (a : ascii) : bytes :=
  let n := N_of_ascii a in
  if ((n =? 34) || (n =? 92))%N then ["\"%char; a]
  else if (n =? 8)%N then lit "\b"
  else if (n =? 12)%N then lit "\f"
  else if (n =? 10)%N then lit "\n"
  else if (n =? 13)%N then lit "\r"
  else if (n =? 9)%N then lit "\t"
  else if ((n <? 32) || (n =? 38) || (n =? 60) || (n =? 62))%N then
    lit "\u00" ++ [hex_digit (n / 16); hex_digit (n mod 16)]
  else [a].

(** U+2028 and U+2029 are escaped. *)
Definition line_separator (l : bytes) : option ascii :=
  match l with
  | [a; b; c] =>
    if ((N_of_ascii a =? 226) && (N_of_ascii b =? 128))%N then
      if (N_of_ascii c =? 168)%N then Some "8"%char
      else if (N_of_ascii c =? 169)%N then Some "9"%char else None
    else None
  | _ => None
  end.

(** [fuel] is the number of bytes left. *)
Fixpoint quote_bytes (fuel : nat) (l : bytes) : bytes :=
  match fuel, l with
  | S fuel', a :: l' =>
    if (N_of_ascii a <? 128)%N then quote_ascii a ++ quote_bytes fuel' l'
    else match rune_width l with
         | None => lit "\ufffd" ++ quote_bytes fuel' l'
         | Some w =>
           match line_separator (take w l) with
           | Some d => lit "\u202" ++ [d] ++ quote_bytes fuel' (drop w l)
           | None => take w l ++ quote_bytes fuel' (drop w l)
           end
         end
  | _, _ => []
  end.

Definition dquote : ascii := "034"%char.

Definition json_quote (s : string) : string :=
  of_bytes ([dquote] ++ quote_bytes (String.length s) (to_bytes s) ++ [dquote]).

(** ** Numbers *)

Definition prec : Z := 53.
Definition emax : Z := 1024.

(** The [float64] nearest to [num / den * 10^0], ties to even. *)
Definition float_of_ratio (num den : positive) : spec_float :=
  let '(m, e, loc) := SFdiv_core_binary prec emax (Zpos num) 0 (Zpos den) 0 in
  binary_round_aux prec emax false m e loc.

(** [d * 10^k] as a ratio. *)
Definition decimal_ratio (d : positive) (k : Z) : positive * positive :=
  if (0 <=? k)%Z then (d * Z.to_pos (10 ^ k), 1)%positive
  else (d, Z.to_pos (10 ^ (- k)))%positive.

Definition float_eqb (a b : spec_float) : bool :=
  match a, b with
  | S754_zero s, S754_zero t => Bool.eqb s t
  | S754_infinity s, S754_infinity t => Bool.eqb s t
  | S754_nan, S754_nan => true
  | S754_finite s m e, S754_finite t n f => Bool.eqb s t && (m =? n)%positive && (e =? f)%Z
  | _, _ => false
  end.

(** Largest [k] with [10^k <= num / den], searched upwards from [k]. *)
Fixpoint floor_log10 (fuel : nat) (num den : Z) (k : Z) : Z :=
  match fuel with
  | 0 => k
  | S fuel' =>
    let next := (k + 1)%Z in
    let fits := if (0 <=? next)%Z then (den * 10 ^ next <=? num)%Z
                else (den <=? num * 10 ^ (- next))%Z in
    if fits then floor_log10 fuel' num den next else k
  end.

(** The shortest decimal [(d, k)], standing for [d * 10^k], that reads back as
    the positive float [m * 2^e]: for each number of digits the two decimals
    around the float are tried, the nearer one first.  Seventeen digits always
    suffice. *)
Fixpoint shortest_from (tries : nat) (m : positive) (e : Z) (num den : Z) (k : Z)
    : Z * Z :=
  let scale d := if (0 <=? k)%Z then (d * den * 10 ^ k)%Z else (d * den)%Z in
  let num' := if (0 <=? k)%Z then num else (num * 10 ^ (- k))%Z in
  let lo := (num' / scale 1)%Z in
  let nearer := if (2 * num' - scale lo <? scale (lo + 1))%Z then lo else (lo + 1)%Z in
  let other := (2 * lo + 1 - nearer)%Z in
  let reads d := match d with
                 | Zpos p => let '(n, q) := decimal_ratio p k in
                             float_eqb (float_of_ratio n q) (S754_finite false m e)
                 | _ => false
                 end in
  if reads nearer then (nearer, k)
  else if reads other then (other, k)
  else match tries with
       | 0 => (nearer, k)
       | S tries' => shortest_from tries' m e num den (k - 1)
       end.

Definition shortest (m : positive) (e : Z) : Z * Z :=
  let num := if (0 <=? e)%Z then (Zpos m * 2 ^ e)%Z else Zpos m in
  let den := if (0 <=? e)%Z then 1%Z else (2 ^ (- e))%Z in
  let start := ((Z.log2 num - Z.log2 den) * 30103 / 100000 - 2)%Z in
  let k := floor_log10 8 num den start in
  shortest_from 17 m e num den k.

(** Digits of [d] without trailing zeros, with the exponent adjusted. *)
Fixpoint strip_zeros (fuel : nat) (d k : Z) : Z * Z :=
  match fuel with
  | 0 => (d, k)
  | S fuel' => if (d mod 10 =? 0)%Z then strip_zeros fuel' (d / 10) (k + 1) else (d, k)
  end.

Fixpoint zeros (n : nat) : string :=
  match n with 0 => "" | S n' => String "0" (zeros n') end.

(** Layout of [d * 10^k] as [encoding/json] prints it: plain below 1e21 and
    from 1e-6 on, with an exponent otherwise. *)
Definition layout (d k : Z) : string :=
  let '(d, k) := strip_zeros 20 d k in
  let digits := pretty d in
  let n := Z.of_nat (String.length digits) in
  let point := (n + k)%Z in
  if ((point <=? -6) || (22 <=? point))%Z then
    let exp := (point - 1)%Z in
    let mant := match to_bytes digits with
                | [] => "" | a :: [] => of_bytes [a]
                | a :: rest => of_bytes (a :: "."%char :: rest)
                end in
    mant +:+ "e" +:+ (if (exp <? 0)%Z then "-" else "+") +:+ pretty (Z.abs exp)
  else if (point <=? 0)%Z then "0." +:+ zeros (Z.to_nat (- point)) +:+ digits
  else if (n <=? point)%Z then digits +:+ zeros (Z.to_nat k)
  else of_bytes (take (Z.to_nat point) (to_bytes digits)) +:+ "."
       +:+ of_bytes (drop (Z.to_nat point) (to_bytes digits)).

Definition float_text (f : spec_float) : option string :=
  match f with
  | S754_nan | S754_infinity _ => None
  | S754_zero s => Some (if s then "-0" else "0")
  | S754_finite s m e =>
    let '(d, k) := shortest m e in
    Some ((if s then "-" else "") +:+ layout d k)
  end.

(** ** Values *)

Fixpoint all_some {A} (l : list (option A)) : option (list A) :=
  match l with
  | [] => Some []
  | None :: _ => None
  | Some a :: l' => match all_some l' with Some r => Some (a :: r) | None => None end
  end.

Fixpoint json_encode (v : value) : option string :=
  match v with
  | VNil | VNilSlice _ | VNilMap => Some "null"
  | VBool b => Some (if b then "true" else "false")
  | VInt _ z | VBig z => Some (pretty z)
  | VFloat f => float_text f
  | VStr s => Some (json_quote s)
  | VSlice _ l =>
    match all_some (map json_encode l) with
    | Some items => Some ("[" +:+ String.concat "," items +:+ "]")
    | None => None
    end
  | VMap m =>
    let encoded := json_encode <$> m in
    match all_some (map (λ k, match encoded !! k with
                              | Some (Some t) => Some (json_quote k +:+ ":" +:+ t)
                              | _ => None
                              end) (sorted_keys encoded)) with
    | Some items => Some ("{" +:+ String.concat "," items +:+ "}")
    | None => None
    end
  | VOpaque _ => None
  end.

(** [jsonEqual] of [snapshot.go]: both encodable and byte for byte equal. *)
Definition jsonEqual (a b : value) : bool :=
  match json_encode a, json_encode b with
  | Some x, Some y => bool_decide (x = y)
  | _, _ => false
  end.

Lemma jsonEqual_spec a b :
  jsonEqual a b = true ↔ ∃ t, json_encode a = Some t ∧ json_encode b = Some t.
Proof.
  unfold jsonEqual. destruct (json_encode a), (json_encode b);
    rewrite ?bool_decide_eq_true; naive_solver.
Qed.

Lemma jsonEqual_sym a b : jsonEqual a b = true → jsonEqual b a = true.
Proof. rewrite !jsonEqual_spec. naive_solver. Qed.

Lemma jsonEqual_trans a b c : jsonEqual a b = true → jsonEqual b c = true → jsonEqual a c = true.
Proof. rewrite !jsonEqual_spec. naive_solver. Qed.

Lemma jsonEqual_refl a : jsonEqual a a = true ↔ is_Some (json_encode a).
Proof. rewrite jsonEqual_spec. split; [intros (t & H & _); by eexists | intros [t H]; eauto]. Qed.
