(* ===== verification/JsonDecode.v ===== *)
(** * [encoding/json] decoding into [any] with [UseNumber]

    The program reads JSON back with [decoder.UseNumber()], so a number keeps
    its text.  [json] is what such a decoder leaves in an [any]; [json_bytes] is
    [json.Marshal] of it, and [json_decode] accepts exactly one value surrounded
    by white space.  [json_decode_encode] is the round trip and
    [json_decode_total] says the fuel is never what stops the parser. *)

From Stdlib Require Import Ascii.
From S2P Require Import Prelude GoStrings Values Json.

(** ** Documents *)

Inductive json :=
  | JNull
  | JBool (b : bool)
  | JNum (text : string)
  | JStr (s : string)
  | JArr (l : list json)
  | JObj (m : gmap string json).

Fixpoint json_size (j : json) : nat :=
  match j with
  | JArr l => S (list_sum (map json_size l))
  | JObj m => S (map_fold (λ _ w n, json_size w + n) 0 m)
  | _ => 1
  end.

Lemma json_size_arr l v : v ∈ l → json_size v < json_size (JArr l).
Proof. simpl. induction 1; simpl in *; lia. Qed.

Lemma json_size_obj m k v : m !! k = Some v → json_size v < json_size (JObj m).
Proof.
  intros Hk. simpl.
  rewrite (map_fold_delete_L (λ _ w n, json_size w + n) 0 k v m); [lia| |done].
  intros; lia.
Qed.

(** Induction through the elements and the members. *)
Lemma json_ind_strong (P : json → Prop) :
  (∀ j, match j with
        | JArr l => ∀ w, w ∈ l → P w
        | JObj m => ∀ k w, m !! k = Some w → P w
        | _ => True
        end → P j) →
  ∀ j, P j.
Proof.
  intros H j. induction j as [j IH] using (induction_ltof1 _ json_size). apply H.
  destruct j; try done.
  - intros w Hw. apply IH. by apply json_size_arr.
  - intros k w Hw. apply IH. by eapply json_size_obj.
Qed.

(** ** Encoding *)

(** Pieces separated by commas. *)
Fixpoint comma (l : list bytes) : bytes :=
  match l with
  | [] => []
  | a :: l' => match l' with [] => a | _ => a ++ [","%char] ++ comma l' end
  end.

Definition quoted (s : string) : bytes :=
  dquote :: quote_bytes (String.length s) (to_bytes s) ++ [dquote].

Fixpoint json_bytes (j : json) : bytes :=
  match j with
  | JNull => lit "null"
  | JBool b => lit (if b then "true" else "false")
  | JNum t => to_bytes t
  | JStr s => quoted s
  | JArr l => ["["%char] ++ comma (map json_bytes l) ++ ["]"%char]
  | JObj m =>
    let encoded := json_bytes <$> m in
    ["{"%char] ++ comma (map (λ k, quoted k ++ [":"%char] ++ default [] (encoded !! k)) (sorted_keys encoded))
    ++ ["}"%char]
  end.

(** ** Tokens *)

Definition is_ws (a : ascii) : bool :=
  let n := N_of_ascii a in ((n =? 32) || (n =? 9) || (n =? 10) || (n =? 13))%N.

Fixpoint skip_ws (l : bytes) : bytes :=
  match l with a :: l' => if is_ws a then skip_ws l' else l | [] => [] end.

Definition is_digit (a : ascii) : bool := between 48 57 (N_of_ascii a).

(** The longest prefix of digits, and the rest. *)
Fixpoint digits (l : bytes) : bytes * bytes :=
  match l with
  | a :: l' => if is_digit a then let p := digits l' in (a :: p.1, p.2) else ([], l)
  | [] => ([], [])
  end.

Definition digits1 (l : bytes) : option (bytes * bytes) :=
  let p := digits l in if bool_decide (p.1 = []) then None else Some p.

(** No leading zero. *)
Definition scan_int (l : bytes) : option (bytes * bytes) :=
  match l with
  | a :: l' => if bool_decide (a = "0"%char) then Some ([a], l') else digits1 l
  | [] => None
  end.

Definition scan_fraction (l : bytes) : option (bytes * bytes) :=
  match l with
  | a :: l' => if bool_decide (a = "."%char) then p ← digits1 l'; Some (a :: p.1, p.2) else Some ([], l)
  | [] => Some ([], [])
  end.

(** The sign of an exponent. *)
Definition scan_sign (l : bytes) : bytes * bytes :=
  match l with
  | a :: l' => if bool_decide (a = "+"%char) || bool_decide (a = "-"%char) then ([a], l') else ([], l)
  | [] => ([], [])
  end.

Definition scan_exponent (l : bytes) : option (bytes * bytes) :=
  match l with
  | a :: l' =>
    if bool_decide (a = "e"%char) || bool_decide (a = "E"%char)
    then let s := scan_sign l' in p ← digits1 s.2; Some (a :: s.1 ++ p.1, p.2)
    else Some ([], l)
  | [] => Some ([], [])
  end.

Definition scan_minus (l : bytes) : bytes * bytes :=
  match l with
  | a :: l' => if bool_decide (a = "-"%char) then ([a], l') else ([], l)
  | [] => ([], [])
  end.

(** A number, and what follows it. *)
Definition scan_number (l : bytes) : option (bytes * bytes) :=
  let s := scan_minus l in
  i ← scan_int s.2;
  f ← scan_fraction i.2;
  e ← scan_exponent f.2;
  Some (s.1 ++ i.1 ++ f.1 ++ e.1, e.2).

(** ** Strings *)

Definition hex_value (a : ascii) : option N :=
  let n := N_of_ascii a in
  if between 48 57 n then Some (n - 48)%N
  else if between 97 102 n then Some (n - 87)%N
  else if between 65 70 n then Some (n - 55)%N
  else None.

Definition hex4 (l : bytes) : option (N * bytes) :=
  match l with
  | a :: b :: c :: d :: l' =>
    a ← hex_value a; b ← hex_value b; c ← hex_value c; d ← hex_value d;
    Some (((a * 16 + b) * 16 + c) * 16 + d, l')%N
  | _ => None
  end.

(** U+FFFD. *)
Definition replacement : bytes := ["239"; "191"; "189"]%char.

(** [utf8.AppendRune]; a surrogate is written as U+FFFD. *)
Definition utf8 (r : N) : bytes :=
  let cont n := ascii_of_N (128 + n mod 64)%N in
  if (r <? 128)%N then [ascii_of_N r]
  else if (r <? 2048)%N then [ascii_of_N (192 + r / 64); cont r]
  else if between 55296 57343 r then replacement
  else if (r <? 65536)%N then [ascii_of_N (224 + r / 4096); cont (r / 64)%N; cont r]
  else [ascii_of_N (240 + r / 262144); cont (r / 4096)%N; cont (r / 64)%N; cont r].

(** The escapes of one letter. *)
Definition unescape (a : ascii) : option ascii :=
  if bool_decide (a = dquote) || bool_decide (a = "\"%char) || bool_decide (a = "/"%char) then Some a
  else if bool_decide (a = "b"%char) then Some "008"%char
  else if bool_decide (a = "f"%char) then Some "012"%char
  else if bool_decide (a = "n"%char) then Some "010"%char
  else if bool_decide (a = "r"%char) then Some "013"%char
  else if bool_decide (a = "t"%char) then Some "009"%char
  else None.

(** After [\u] and four digits [r], the second half of a surrogate pair. *)
Definition low_surrogate (r : N) (l : bytes) : option (N * bytes) :=
  if between 55296 56319 r then
    match l with
    | a :: b :: l' =>
      if bool_decide (a = "\"%char) && bool_decide (b = "u"%char) then
        p ← hex4 l';
        if between 56320 57343 p.1 then Some (65536 + (r - 55296) * 1024 + (p.1 - 56320), p.2)%N else None
      else None
    | _ => None
    end
  else None.

Definition prepend (p : bytes) (m : option (bytes * bytes)) : option (bytes * bytes) :=
  q ← m; Some (p ++ q.1, q.2).

(** What follows an opening quote, up to the closing one.  [fuel] is the number
    of bytes left. *)
Fixpoint scan_string (fuel : nat) (l : bytes) : option (bytes * bytes) :=
  match fuel, l with
  | S n, a :: l' =>
    if bool_decide (a = dquote) then Some ([], l')
    else if bool_decide (a = "\"%char) then
      match l' with
      | e :: l1 =>
        if bool_decide (e = "u"%char) then
          match hex4 l1 with
          | Some (r, l2) =>
            match low_surrogate r l2 with
            | Some (r2, l3) => prepend (utf8 r2) (scan_string n l3)
            | None => prepend (utf8 r) (scan_string n l2)
            end
          | None => None
          end
        else match unescape e with Some c => prepend [c] (scan_string n l1) | None => None end
      | [] => None
      end
    else if (N_of_ascii a <? 32)%N then None
    else if (N_of_ascii a <? 128)%N then prepend [a] (scan_string n l')
    else match rune_width l with
         | None => prepend replacement (scan_string n l')
         | Some w => prepend (take w l) (scan_string n (drop w l))
         end
  | _, _ => None
  end.

Definition parse_string (l : bytes) : option (string * bytes) :=
  p ← scan_string (length l) l; Some (of_bytes p.1, p.2).

(** ** Values *)

(** The rest of the input after a literal. *)
Definition after (p l : bytes) : option bytes :=
  if bool_decide (take (length p) l = p) then Some (drop (length p) l) else None.

Definition parse_atom (l : bytes) : option (json * bytes) :=
  match l with
  | a :: l' =>
    if bool_decide (a = dquote) then p ← parse_string l'; Some (JStr p.1, p.2)
    else if bool_decide (a = "n"%char) then r ← after (lit "null") l; Some (JNull, r)
    else if bool_decide (a = "t"%char) then r ← after (lit "true") l; Some (JBool true, r)
    else if bool_decide (a = "f"%char) then r ← after (lit "false") l; Some (JBool false, r)
    else p ← scan_number l; Some (JNum (of_bytes p.1), p.2)
  | [] => None
  end.

(** [depth] counts the arrays and objects that may still be opened. *)
Fixpoint parse_value (fuel depth : nat) (l : bytes) : option (json * bytes) :=
  match fuel with
  | 0 => None
  | S n =>
    match l with
    | [] => None
    | a :: l' =>
      if bool_decide (a = "["%char) then
        match depth with
        | 0 => None
        | S d =>
          match skip_ws l' with
          | [] => None
          | (b :: r) as l1 => if bool_decide (b = "]"%char) then Some (JArr [], r) else parse_elements n d [] l1
          end
        end
      else if bool_decide (a = "{"%char) then
        match depth with
        | 0 => None
        | S d =>
          match skip_ws l' with
          | [] => None
          | (b :: r) as l1 => if bool_decide (b = "}"%char) then Some (JObj ∅, r) else parse_members n d ∅ l1
          end
        end
      else parse_atom l
    end
  end
with parse_elements (fuel depth : nat) (acc : list json) (l : bytes) : option (json * bytes) :=
  match fuel with
  | 0 => None
  | S n =>
    match parse_value n depth l with
    | None => None
    | Some (v, l1) =>
      match skip_ws l1 with
      | [] => None
      | b :: r =>
        if bool_decide (b = ","%char) then parse_elements n depth (acc ++ [v]) (skip_ws r)
        else if bool_decide (b = "]"%char) then Some (JArr (acc ++ [v]), r) else None
      end
    end
  end
with parse_members (fuel depth : nat) (acc : gmap string json) (l : bytes) : option (json * bytes) :=
  match fuel with
  | 0 => None
  | S n =>
    match l with
    | [] => None
    | q :: l0 =>
      if bool_decide (q = dquote) then
        match parse_string l0 with
        | None => None
        | Some (k, l1) =>
          match skip_ws l1 with
          | [] => None
          | c :: l2 =>
            if bool_decide (c = ":"%char) then
              match parse_value n depth (skip_ws l2) with
              | None => None
              | Some (v, l3) =>
                match skip_ws l3 with
                | [] => None
                | b :: r =>
                  if bool_decide (b = ","%char) then parse_members n depth (<[k := v]> acc) (skip_ws r)
                  else if bool_decide (b = "}"%char) then Some (JObj (<[k := v]> acc), r) else None
                end
              end
            else None
          end
        end
      else None
    end
  end.

(** [maxNestingDepth]. *)
Definition maxNestingDepth : nat := 10 ^ 4.

(** One value and then the end of the input. *)
Definition json_decode (s : string) : option json :=
  let l := skip_ws (to_bytes s) in
  p ← parse_value (S (2 * length l)) maxNestingDepth l;
  if bool_decide (skip_ws p.2 = []) then Some p.1 else None.

(** [json.Valid]. *)
Definition json_valid (s : string) : bool := bool_decide (is_Some (json_decode s)).
(** ** Strings read back *)

(** Valid UTF-8: the text a decoder leaves in a string. *)
Fixpoint valid_from (fuel : nat) (l : bytes) : bool :=
  match fuel, l with
  | _, [] => true
  | 0, _ => false
  | S n, a :: l' =>
    if (N_of_ascii a <? 128)%N then valid_from n l'
    else match rune_width l with Some w => valid_from n (drop w l) | None => false end
  end.

Definition valid_utf8 (s : string) : bool := valid_from (String.length s) (to_bytes s).

Ltac bytes_case a := destruct a as [[] [] [] [] [] [] [] []].

Lemma length_to_bytes s : length (to_bytes s) = String.length s.
Proof. induction s as [|a s IH]; simpl; [done|]. by rewrite <-IH. Qed.

(** The bytes of a rune say where it ends. *)
Lemma rune_width_app l w rest : rune_width l = Some w → rune_width (take w l ++ rest) = Some w.
Proof.
  unfold rune_width. intros H.
  destruct l as [|a [|b l]]; [done..|]. cbv zeta in *.
  destruct (between 194 223 (N_of_ascii a)) eqn:E1.
  { destruct (between 128 191 (N_of_ascii b)) eqn:E2; [|done]. injection H as <-. simpl. by rewrite E1, E2. }
  destruct l as [|c l]; [done|].
  destruct (between 224 239 (N_of_ascii a)) eqn:E3.
  { case_match eqn:E4; [|done]. injection H as <-. simpl. by rewrite E1, E3, E4. }
  destruct (between 240 244 (N_of_ascii a)) eqn:E5; [|done].
  destruct l as [|d l]; [done|].
  case_match eqn:E4; [|done]. injection H as <-. simpl. by rewrite E1, E3, E5, E4.
Qed.

Lemma rune_width_bound l w : rune_width l = Some w → 2 ≤ w ≤ length l ∧ (w = 2 ∨ w = 3 ∨ w = 4).
Proof.
  unfold rune_width. intros H. repeat (case_match; simplify_eq; try done); simpl; lia.
Qed.

(** One escaped byte. *)
Lemma scan_quote_ascii n a m :
  (N_of_ascii a <? 128)%N = true →
  scan_string (S n) (quote_ascii a ++ m) = prepend [a] (scan_string n m).
Proof. intros Ha. bytes_case a; try discriminate Ha; reflexivity. Qed.

Lemma line_separator_spec l d : line_separator l = Some d →
  (l = ["226"; "128"; "168"]%char ∧ d = "8"%char) ∨ (l = ["226"; "128"; "169"]%char ∧ d = "9"%char).
Proof.
  destruct l as [|a [|b [|c [|? l]]]]; try done. simpl. intros H.
  assert (∀ x k, (N_of_ascii x =? k)%N = true → x = ascii_of_N k) as Heq.
  { intros x k Hx%N.eqb_eq. by rewrite <-Hx, ascii_N_embedding. }
  destruct (N_of_ascii a =? 226)%N eqn:Ha; [|done]. destruct (N_of_ascii b =? 128)%N eqn:Hb; [|done].
  apply Heq in Ha, Hb. subst. simpl in H.
  destruct (N_of_ascii c =? 168)%N eqn:E1; [|destruct (N_of_ascii c =? 169)%N eqn:E2; [|done]].
  - apply Heq in E1. injection H as <-. subst. by left.
  - apply Heq in E2. injection H as <-. subst. by right.
Qed.

Lemma scan_rune n a l w rest :
  (N_of_ascii a <? 128)%N = false → rune_width (a :: l) = Some w →
  scan_string (S n) (take w (a :: l) ++ rest) = prepend (take w (a :: l)) (scan_string n rest).
Proof.
  intros Ha Hw. pose proof (rune_width_app _ _ rest Hw) as Hw'. pose proof (rune_width_bound _ _ Hw) as [Hb _].
  assert (length (take w (a :: l)) = w) as Hl by (rewrite length_take; lia).
  destruct w as [|w]; [lia|]. rewrite firstn_cons in *. set (t := take w l) in *.
  change ((a :: t) ++ rest) with (a :: t ++ rest) in *. cbn [scan_string].
  rewrite (bool_decide_false (a = dquote)), (bool_decide_false (a = "\"%char)) by (intros ->; discriminate Ha).
  replace (N_of_ascii a <? 32)%N with false by (symmetry; rewrite N.ltb_ge in *; lia).
  rewrite Ha, Hw'. simpl in Hl. injection Hl as Hl. simpl.
  by rewrite <-Hl at 1 2; rewrite take_app_length, drop_app_length.
Qed.

Lemma scan_quote_bytes f k n l rest :
  valid_from f l = true → length l ≤ k → length (quote_bytes k l) < n →
  scan_string n (quote_bytes k l ++ dquote :: rest) = Some (l, rest).
Proof.
  revert k n l. induction f as [|f IH]; intros k n l Hv Hk Hn.
  { destruct l; [|done]. destruct k, n; try (simpl in *; lia); done. }
  destruct l as [|a l]; [destruct k, n; try (simpl in *; lia); done|].
  destruct k as [|k]; simpl in Hk; [lia|]. apply le_S_n in Hk. destruct n as [|n]; [lia|].
  cbn [valid_from] in Hv. cbn [quote_bytes] in Hn |- *.
  destruct (N_of_ascii a <? 128)%N eqn:Ha.
  - rewrite <-app_assoc, scan_quote_ascii by done. rewrite length_app in Hn.
    rewrite IH; [done..|]. assert (0 < length (quote_ascii a)) by (bytes_case a; simpl; lia). lia.
  - destruct (rune_width (a :: l)) as [w|] eqn:Hw; [|done].
    pose proof (rune_width_bound _ _ Hw) as [Hb _].
    assert (length (drop w (a :: l)) ≤ k) as Hd by (rewrite length_drop; simpl in *; lia).
    assert (∀ m, prepend (take w (a :: l)) (Some (drop w (a :: l), m)) = Some (a :: l, m)) as Hcat.
    { intros m. simpl. f_equal. f_equal. apply take_drop. }
    destruct (line_separator (take w (a :: l))) as [d|] eqn:Hs.
    + assert (length (quote_bytes k (drop w (a :: l))) < n) as Hn'.
      { rewrite !length_app in Hn. simpl in Hn. lia. }
      rewrite <-(Hcat rest), <-(IH k n _ Hv Hd Hn').
      by destruct (line_separator_spec _ _ Hs) as [[-> ->]|[-> ->]].
    + rewrite <-app_assoc, scan_rune by done. rewrite length_app, length_take in Hn.
      rewrite IH; [apply Hcat|done..|lia].
Qed.

Lemma parse_quoted s rest :
  valid_utf8 s = true → parse_string (quote_bytes (String.length s) (to_bytes s) ++ dquote :: rest) = Some (s, rest).
Proof.
  intros Hv. unfold parse_string. rewrite (scan_quote_bytes (String.length s)); [|done|..].
  - simpl. by rewrite of_to_bytes.
  - by rewrite length_to_bytes.
  - rewrite length_app. simpl. lia.
Qed.

(** ** Numbers read back *)

(** A number ends where its text cannot go on. *)
Definition ends_number (l : bytes) : bool :=
  match l with
  | [] => true
  | a :: _ => negb (is_digit a || bool_decide (a ∈ ["."; "e"; "E"]%char))
  end.

Definition valid_number (t : string) : bool := bool_decide (scan_number (to_bytes t) = Some (to_bytes t, [])).

Lemma digits_split l : l = (digits l).1 ++ (digits l).2.
Proof. induction l as [|a l IH]; [done|]. simpl. destruct (is_digit a); [|done]. simpl. by f_equal. Qed.

(** The rest does not start with a digit. *)
Definition no_digit (l : bytes) : bool := match l with [] => true | a :: _ => negb (is_digit a) end.

Lemma ends_no_digit l : ends_number l = true → no_digit l = true.
Proof. destruct l as [|a l]; [done|]. simpl. by destruct (is_digit a). Qed.

Lemma digits_ext l rest :
  no_digit rest = true → digits (l ++ rest) = ((digits l).1, (digits l).2 ++ rest).
Proof.
  intros Hr. induction l as [|a l IH]; simpl.
  - destruct rest as [|a rest]; [done|]. simpl in *. by destruct (is_digit a).
  - destruct (is_digit a); simpl; [|done]. by rewrite IH.
Qed.

(** A scanner that does the same before a text that ends its token. *)
Definition extends (ends : bytes → bool) (scan : bytes → option (bytes * bytes)) : Prop :=
  ∀ l rest p, ends rest = true → scan l = Some p → scan (l ++ rest) = Some (p.1, p.2 ++ rest).

Lemma digits1_ext : extends no_digit digits1.
Proof.
  intros l rest p Hr. unfold digits1. rewrite digits_ext by done. cbv zeta. simpl.
  case_bool_decide; [done|]. by intros [= <-].
Qed.

Lemma scan_int_ext : extends no_digit scan_int.
Proof.
  intros l rest p Hr. destruct l as [|a l]; [done|]. simpl. case_bool_decide.
  - by intros [= <-].
  - by apply (digits1_ext (a :: l)).
Qed.

Lemma scan_fraction_ext : extends ends_number scan_fraction.
Proof.
  intros l rest p Hr. destruct l as [|a l].
  - intros [= <-]. simpl. destruct rest as [|b rest]; [done|]. simpl in *.
    rewrite bool_decide_false; [done|]. intros ->. by rewrite bool_decide_true, orb_true_r in Hr by set_solver.
  - simpl. case_bool_decide; [|by intros [= <-]].
    destruct (digits1 l) as [q|] eqn:Hq; [|done]. intros [= <-]. simpl.
    by rewrite (digits1_ext _ _ _ (ends_no_digit _ Hr) Hq).
Qed.

Lemma scan_exponent_ext : extends ends_number scan_exponent.
Proof.
  intros l rest p Hr. destruct l as [|a l].
  - intros [= <-]. simpl. destruct rest as [|b rest]; [done|]. simpl in *.
    rewrite !bool_decide_false; [done|..]; intros ->;
      by rewrite bool_decide_true, orb_true_r in Hr by set_solver.
  - simpl. destruct (_ || _); [|by intros [= <-]].
    destruct (digits1 (scan_sign l).2) as [q|] eqn:Hq; [|done]. intros [= <-]. simpl.
    assert (scan_sign (l ++ rest) = ((scan_sign l).1, (scan_sign l).2 ++ rest)) as Hs.
    { destruct l as [|b l]; [done|]. simpl. by destruct (_ || _). }
    rewrite Hs. simpl.
    by rewrite (digits1_ext _ _ _ (ends_no_digit _ Hr) Hq).
Qed.

Lemma scan_number_ext : extends ends_number scan_number.
Proof.
  intros l rest p Hr H. unfold scan_number in *. cbv zeta in *.
  destruct (scan_int (scan_minus l).2) as [i|] eqn:Hi; [|done]. simpl in H.
  destruct (scan_fraction i.2) as [f|] eqn:Hf; [|done]. simpl in H.
  destruct (scan_exponent f.2) as [e|] eqn:He; [|done]. injection H as <-.
  assert (scan_minus (l ++ rest) = ((scan_minus l).1, (scan_minus l).2 ++ rest)) as Hs.
  { destruct l as [|b l]; [done|]. simpl. by destruct (bool_decide _). }
  rewrite Hs. simpl. rewrite (scan_int_ext _ _ _ (ends_no_digit _ Hr) Hi). simpl.
  rewrite (scan_fraction_ext _ _ _ Hr Hf). simpl. by rewrite (scan_exponent_ext _ _ _ Hr He).
Qed.

(** A number starts with a digit or a minus sign. *)
Lemma valid_number_head t :
  valid_number t = true → ∃ a l, to_bytes t = a :: l ∧ (is_digit a = true ∨ a = "-"%char).
Proof.
  unfold valid_number. rewrite bool_decide_eq_true. unfold scan_number. cbv zeta.
  destruct (to_bytes t) as [|a l]; [done|]. intros H. exists a, l. split; [done|].
  simpl in H. case_bool_decide; [by right|]. left. simpl in H. case_bool_decide; [by subst|].
  unfold digits1 in H. simpl in H. destruct (is_digit a); done.
Qed.

(** ** Documents read back *)

(** A document a decoder can leave, with at most [d] levels: its strings are
    valid UTF-8 and its numbers are JSON numbers. *)
Inductive json_ok : nat → json → Prop :=
  | ok_null d : json_ok d JNull
  | ok_bool d b : json_ok d (JBool b)
  | ok_num d t : valid_number t = true → json_ok d (JNum t)
  | ok_str d s : valid_utf8 s = true → json_ok d (JStr s)
  | ok_arr d l : Forall (json_ok d) l → json_ok (S d) (JArr l)
  | ok_obj d m : (∀ k v, m !! k = Some v → valid_utf8 k = true ∧ json_ok d v) → json_ok (S d) (JObj m).

Lemma json_bytes_head d j :
  json_ok d j → ∃ a l, json_bytes j = a :: l ∧ is_ws a = false ∧ a ≠ "]"%char.
Proof.
  intros [| |d' t Ht|d' s Hs|d' l Hl|d' m Hm].
  - by eexists _, _.
  - destruct b; by eexists _, _.
  - destruct (valid_number_head t Ht) as (a & l & Hb & Ha). exists a, l. split; [done|].
    destruct Ha as [Ha| ->]; [|done]. bytes_case a; done.
  - by eexists _, _.
  - by eexists _, _.
  - by eexists _, _.
Qed.

Lemma skip_json d j rest : json_ok d j → skip_ws (json_bytes j ++ rest) = json_bytes j ++ rest.
Proof. intros (a & l & -> & Ha & _)%json_bytes_head. simpl. by rewrite Ha. Qed.

Lemma parse_number n d t rest :
  valid_number t = true → ends_number rest = true →
  parse_value (S n) d (to_bytes t ++ rest) = Some (JNum t, rest).
Proof.
  intros Ht Hr. destruct (valid_number_head t Ht) as (a & l & Hb & Ha).
  unfold valid_number in Ht. rewrite bool_decide_eq_true in Ht.
  pose proof (scan_number_ext _ _ _ Hr Ht) as Hs.
  assert (of_bytes (a :: l) = t) as Ht' by (by rewrite <-Hb, of_to_bytes).
  rewrite Hb in *. simpl in Hs, Ht' |- *.
  destruct (decide (a = "["%char ∨ a = "{"%char ∨ a = dquote ∨ a = "n"%char ∨ a = "t"%char ∨ a = "f"%char)) as [Hc|Hc].
  { destruct Ha as [Ha| ->]; naive_solver. }
  rewrite !bool_decide_false by tauto. rewrite Hs. simpl.
  by rewrite Ht'.
Qed.

Lemma comma_cons a b l : comma (a :: b :: l) = a ++ ","%char :: comma (b :: l).
Proof. done. Qed.

(** Writing the member [k] of [m]. *)
Definition put_member (m acc : gmap string json) (k : string) : gmap string json :=
  match m !! k with Some j => <[k := j]> acc | None => acc end.

(** The parser on one encoded document. *)
Definition reads_back (d : nat) (j : json) : Prop :=
  ∀ n rest, ends_number rest = true → length (json_bytes j) < n →
            parse_value n d (json_bytes j ++ rest) = Some (j, rest).

Lemma parse_elements_comma d l n acc rest :
  Forall (λ j, json_ok d j ∧ reads_back d j) l → l ≠ [] → length (comma (map json_bytes l)) + 1 < n →
  parse_elements n d acc (comma (map json_bytes l) ++ "]"%char :: rest) = Some (JArr (acc ++ l), rest).
Proof.
  intros Hl. revert n acc. induction l as [|j l IH]; [done|]. intros n acc _ Hn.
  apply Forall_cons in Hl as [[Hok Hj] Hl]. destruct n as [|n]; [lia|].
  destruct l as [|j' l].
  - simpl in *. rewrite Hj by (done || lia). done.
  - cbn [map] in *. rewrite comma_cons in *. rewrite length_app in Hn. cbn [length] in Hn.
    rewrite <-app_assoc. cbn [parse_elements].
    apply Forall_cons in Hl as Hl'. destruct Hl' as [[Hok' _] _].
    assert (skip_ws (comma (map json_bytes (j' :: l)) ++ "]"%char :: rest)
            = comma (map json_bytes (j' :: l)) ++ "]"%char :: rest) as Hsk.
    { destruct (json_bytes_head d j' Hok') as (a & t & Ha & Hw & _).
      destruct l; simpl; rewrite Ha; simpl; by rewrite Hw. }
    cbn [map] in Hsk, IH. set (tail := comma (json_bytes j' :: map json_bytes l)) in *.
    rewrite Hj by (done || lia). simpl. rewrite Hsk.
    change (j :: j' :: l) with ([j] ++ j' :: l). rewrite app_assoc. apply (IH Hl n (acc ++ [j])); [done|]. simpl in *. lia.
Qed.

Lemma parse_members_comma d (m : gmap string json) ks n acc rest :
  Forall (λ k, ∃ j, m !! k = Some j ∧ valid_utf8 k = true ∧ json_ok d j ∧ reads_back d j) ks → ks ≠ [] →
  let entry k := quoted k ++ [":"%char] ++ default [] ((json_bytes <$> m) !! k) in
  length (comma (map entry ks)) + 1 < n →
  parse_members n d acc (comma (map entry ks) ++ "}"%char :: rest) =
  Some (JObj (fold_left (put_member m) ks acc), rest).
Proof.
  intros Hks. cbv zeta. revert n acc. induction ks as [|k ks IH]; [done|]. intros n acc _ Hn.
  apply Forall_cons in Hks as [(j & Hk & Hv & Hok & Hj) Hks]. destruct n as [|n]; [lia|].
  specialize (IH Hks).
  assert (∀ r, parse_string (quote_bytes (String.length k) (to_bytes k) ++ dquote :: r) = Some (k, r)) as Hq
    by (intros; by apply parse_quoted).
  assert (∀ r, (quoted k ++ [":"%char] ++ default [] ((json_bytes <$> m) !! k)) ++ r =
    dquote :: quote_bytes (String.length k) (to_bytes k) ++ dquote :: ":"%char :: json_bytes j ++ r) as Hentry.
  { intros r. rewrite lookup_fmap, Hk. unfold quoted. simpl. by rewrite <-!app_assoc. }
  assert (length (quoted k ++ [":"%char] ++ default [] ((json_bytes <$> m) !! k)) > length (json_bytes j)) as Hlen.
  { rewrite lookup_fmap, Hk. unfold quoted. simpl. rewrite !length_app. simpl. lia. }
  destruct ks as [|k' ks].
  - cbn [map comma] in *. rewrite Hentry. cbn [parse_members]. rewrite bool_decide_true by done.
    rewrite Hq. simpl. rewrite (skip_json d) by done. rewrite Hj; [|done|lia]. simpl. unfold put_member. by rewrite Hk.
  - cbn [map] in *. rewrite comma_cons in *. rewrite length_app in Hn. cbn [length] in Hn.
    rewrite <-app_assoc, Hentry.
    match goal with |- context [json_bytes j ++ (?c :: ?t) ++ _] =>
      change ((c :: t) ++ "}"%char :: rest) with (c :: (t ++ "}"%char :: rest)) end.
    match type of IH with ∀ n acc, _ → length ?t + 1 < n → _ => set (tail := t) in *;
      assert (skip_ws (tail ++ "}"%char :: rest) = tail ++ "}"%char :: rest) as Hsk
        by (subst tail; destruct ks; done) end.
    cbn [parse_members]. rewrite bool_decide_true by done.
    rewrite Hq. simpl. rewrite (skip_json d) by done. rewrite Hj; [|done|lia]. simpl. rewrite Hsk.
    rewrite (IH n (<[k := j]> acc)); [|done|lia]. do 2 f_equal. unfold put_member. by rewrite Hk.
Qed.

(** Writing every key of [m] gives [m]. *)
Lemma put_members_lookup m ks acc k :
  fold_left (put_member m) ks acc !! k =
  if decide (k ∈ ks ∧ is_Some (m !! k)) then m !! k else acc !! k.
Proof.
  revert acc. induction ks as [|k' ks IH]; intros acc; cbn [fold_left].
  - case_decide; [set_solver|done].
  - rewrite IH. unfold put_member. destruct (m !! k) as [j|] eqn:Hk.
    + destruct (decide (k = k')) as [->|Hne].
      * rewrite Hk, lookup_insert_eq. repeat case_decide; try done; exfalso; set_solver.
      * destruct (m !! k'); rewrite ?lookup_insert_ne by done;
          repeat case_decide; try done; exfalso; set_solver.
    + destruct (m !! k') eqn:Hk'; rewrite ?lookup_insert_ne by congruence;
        repeat case_decide; naive_solver.
Qed.

Lemma put_members_all m : fold_left (put_member m) (sorted_keys (json_bytes <$> m)) ∅ = m.
Proof.
  apply map_eq. intros k. rewrite put_members_lookup, lookup_empty.
  case_decide as Hd; [done|]. destruct (m !! k) eqn:Hk; [|done]. exfalso. apply Hd. split; [|by eexists].
  rewrite elem_of_sorted_keys, lookup_fmap, Hk. by eexists.
Qed.

Lemma parse_json d j : json_ok d j → reads_back d j.
Proof.
  revert d. induction j as [j IH] using json_ind_strong. intros d Hok n rest Hr Hn.
  destruct n as [|n]; [lia|]. destruct Hok as [d|d b|d t Ht|d s Hs|d l Hl|d m Hm].
  - simpl. done.
  - by destruct b.
  - by apply parse_number.
  - cbn [json_bytes parse_value]. unfold quoted. rewrite <-app_comm_cons, <-app_assoc.
    rewrite !(bool_decide_false (dquote = _)) by done. cbn [app]. unfold parse_atom.
    rewrite bool_decide_true by done. by rewrite parse_quoted.
  - destruct l as [|j l]; [done|]. cbn [json_bytes] in Hn |- *.
    assert (Forall (λ j, json_ok d j ∧ reads_back d j) (j :: l)) as Hall.
    { rewrite Forall_forall in *. intros x Hx. split; [by apply Hl|]. by apply IH, Hl. }
    rewrite !length_app in Hn. simpl length in Hn at 1 3.
    pose proof (parse_elements_comma d (j :: l) n [] rest Hall ltac:(done) ltac:(lia)) as He.
    rewrite <-app_assoc. cbn [app parse_value]. rewrite bool_decide_true by done.
    rewrite <-app_assoc. cbn [app].
    apply Forall_cons in Hl as [Hj _]. destruct (json_bytes_head d j Hj) as (a & t & Ha & Hw & Hb).
    assert (∃ t', comma (map json_bytes (j :: l)) ++ "]"%char :: rest = a :: t') as [t' Ht'].
    { destruct l; simpl; rewrite Ha; simpl; by eexists. }
    rewrite Ht' in *. simpl. rewrite Hw, bool_decide_false by done. exact He.
  - cbn [json_bytes] in Hn |- *. cbv zeta in Hn |- *.
    set (ks := sorted_keys (json_bytes <$> m)) in *.
    assert (Forall (λ k, ∃ j, m !! k = Some j ∧ valid_utf8 k = true ∧ json_ok d j ∧ reads_back d j) ks) as Hall.
    { apply Forall_forall. intros k Hk. apply elem_of_sorted_keys in Hk. rewrite lookup_fmap in Hk.
      destruct (m !! k) as [j|] eqn:Hj; [|by destruct Hk]. exists j.
      destruct (Hm k j Hj) as [Hv Ho]. split_and!; [done..|]. by eapply IH. }
    rewrite !length_app in Hn. simpl length in Hn at 1 3.
    destruct (decide (ks = [])) as [He|Hne].
    { assert (m = ∅) as ->. { rewrite <-(put_members_all m). fold ks. by rewrite He. }
      rewrite He. simpl. done. }
    pose proof (parse_members_comma d m ks n ∅ rest Hall Hne ltac:(lia)) as He.
    unfold ks in He at 2. rewrite put_members_all in He.
    match type of He with parse_members _ _ _ (?c ++ _) = _ => set (body := c) in * end.
    assert (∃ t', body = dquote :: t') as [t' Ht'].
    { subst body. destruct ks as [|k [|k' ks']]; [done|by eexists..]. }
    rewrite Ht' in *. simpl. rewrite <-app_assoc. exact He.
Qed.

(** The round trip: a document reads back as itself. *)
Lemma json_decode_encode j : json_ok maxNestingDepth j → json_decode (of_bytes (json_bytes j)) = Some j.
Proof.
  intros Hok. unfold json_decode. rewrite to_of_bytes.
  pose proof (skip_json maxNestingDepth j [] Hok) as Hs. rewrite app_nil_r in Hs. rewrite Hs.
  pose proof (parse_json _ _ Hok (S (2 * length (json_bytes j))) [] ltac:(done) ltac:(lia)) as Hp.
  rewrite app_nil_r in Hp. cbv zeta. rewrite Hp. done.
Qed.

(** ** What a decoder leaves *)

(** A scanner finds its token again when nothing follows it. *)
Definition shrinks (scan : bytes → option (bytes * bytes)) : Prop :=
  ∀ l t r, scan l = Some (t, r) → scan t = Some (t, []).

Lemma digits_shrink l : digits (digits l).1 = ((digits l).1, []).
Proof. induction l as [|a l IH]; simpl; [done|]. destruct (is_digit a) eqn:Ha; simpl; [|done]. by rewrite Ha, IH. Qed.

Lemma digits1_inv l t r : digits1 l = Some (t, r) → digits l = (t, r) ∧ t ≠ [].
Proof. unfold digits1. cbv zeta. case_bool_decide as Ht; [done|]. intros [= Hp]. rewrite Hp in *. done. Qed.

Lemma digits1_shrink : shrinks digits1.
Proof.
  intros l t r [Hd Ht]%digits1_inv. unfold digits1. cbv zeta.
  pose proof (digits_shrink l) as Hs. rewrite Hd in Hs. simpl in Hs. rewrite Hs.
  by rewrite bool_decide_false.
Qed.

Lemma digits1_head l t r : digits1 l = Some (t, r) → ∃ a t', t = a :: t' ∧ is_digit a = true.
Proof.
  intros [Hd Ht]%digits1_inv. destruct l as [|a l]; simpl in Hd; [by simplify_eq|].
  destruct (is_digit a) eqn:Ha; simplify_eq. by eexists _, _.
Qed.

Lemma scan_int_shrink : shrinks scan_int.
Proof.
  intros l t r. destruct l as [|a l]; [done|]. simpl. case_bool_decide as Ha.
  - intros [= <- <-]. simpl. by rewrite bool_decide_true.
  - intros Hd. pose proof (digits1_shrink _ _ _ Hd) as Hs.
    assert (∃ t', t = a :: t') as [t' ->].
    { apply digits1_inv in Hd as [Hd Ht]. simpl in Hd. destruct (is_digit a); simplify_eq. by eexists. }
    simpl. by rewrite bool_decide_false.
Qed.

Lemma scan_int_head l t r : scan_int l = Some (t, r) → ∃ a t', t = a :: t' ∧ is_digit a = true.
Proof.
  destruct l as [|a l]; [done|]. simpl. case_bool_decide as Ha; [|apply digits1_head].
  intros [= <- <-]. subst. by eexists _, _.
Qed.

Lemma scan_fraction_inv l t r : scan_fraction l = Some (t, r) →
  t = [] ∧ r = l ∨ ∃ l' ds, t = "."%char :: ds ∧ digits1 l' = Some (ds, r).
Proof.
  destruct l as [|a l]; simpl; [intros [= <- <-]; by left|]. case_bool_decide as Ha; [|intros [= <- <-]; by left].
  destruct (digits1 l) as [[ds r']|] eqn:Hd; [|done]. intros [= <- <-]. right. subst. eauto.
Qed.

Lemma scan_exponent_inv l t r : scan_exponent l = Some (t, r) →
  t = [] ∧ r = l ∨
  ∃ a s l' ds, t = a :: s ++ ds ∧ (a = "e"%char ∨ a = "E"%char) ∧
    (s = [] ∨ s = ["+"%char] ∨ s = ["-"%char]) ∧ digits1 l' = Some (ds, r).
Proof.
  destruct l as [|a l]; simpl; [intros [= <- <-]; by left|].
  destruct (_ || _) eqn:Ha; [|intros [= <- <-]; by left].
  destruct (digits1 _) as [[ds r']|] eqn:Hd; [|done]. intros [= <- <-]. right.
  exists a, (scan_sign l).1, (scan_sign l).2, ds. split_and!; try done.
  - by rewrite orb_true_iff, !bool_decide_eq_true in Ha.
  - destruct l as [|b l]; [by left|]. clear. simpl. destruct (_ || _) eqn:Hb; [|by left].
    rewrite orb_true_iff, !bool_decide_eq_true in Hb. right.
    destruct Hb as [-> | ->]; [by left|by right].
Qed.

Lemma scan_exponent_token a s ds r l' :
  (a = "e"%char ∨ a = "E"%char) → (s = [] ∨ s = ["+"%char] ∨ s = ["-"%char]) →
  digits1 l' = Some (ds, r) → scan_exponent (a :: s ++ ds) = Some (a :: s ++ ds, []).
Proof.
  intros Ha Hs Hd. pose proof (digits1_shrink _ _ _ Hd) as Hsh.
  destruct (digits1_head _ _ _ Hd) as (b & ds' & -> & Hb).
  unfold scan_exponent. destruct Ha as [-> | ->];
    (destruct Hs as [->|[-> | ->]]; simpl in *;
     [rewrite !(bool_decide_false (b = _)) by (intros ->; discriminate Hb)| |];
     simpl; by rewrite Hsh).
Qed.

Lemma scan_number_shrink : shrinks scan_number.
Proof.
  intros l t r. unfold scan_number. cbv zeta. set (m := scan_minus l).
  destruct (scan_int m.2) as [[i r1]|] eqn:Hi; [|done]. simpl.
  destruct (scan_fraction r1) as [[f r2]|] eqn:Hf; [|done]. simpl.
  destruct (scan_exponent r2) as [[e r3]|] eqn:He; [|done]. simpl. intros [= <- <-].
  pose proof (scan_int_shrink _ _ _ Hi) as Hi'.
  destruct (scan_int_head _ _ _ Hi) as (a & i' & -> & Ha).
  assert (∀ x, scan_minus (m.1 ++ (a :: i') ++ x) = (m.1, (a :: i') ++ x)) as Hm.
  { intros x. assert (a ≠ "-"%char) as Hne by (intros ->; discriminate Ha).
    assert (m.1 = [] ∨ m.1 = ["-"%char]) as [-> | ->].
    { unfold m. destruct l as [|b l]; [by left|]. simpl. case_bool_decide; [right; by subst|by left]. }
    - simpl. by rewrite bool_decide_false.
    - done. }
  rewrite Hm. simpl fst. simpl snd.
  assert (scan_exponent e = Some (e, [])) as He'.
  { apply scan_exponent_inv in He as [[-> _]|(b & s & l' & ds & -> & Hb & Hs & Hd)]; [done|].
    by eapply scan_exponent_token. }
  assert (no_digit e = true ∧ (∀ b e', e = b :: e' → b ≠ "."%char)) as [Hne Hdot].
  { apply scan_exponent_inv in He as [[-> _]|(b & s & l' & ds & -> & Hb & _)]; [done|].
    split; [by destruct Hb as [-> | ->]|]. intros c e' [= <- _]. by destruct Hb as [-> | ->]. }
  assert (no_digit (f ++ e) = true ∧ scan_fraction (f ++ e) = Some (f, e)) as [Hnf Hf'].
  { apply scan_fraction_inv in Hf as [[-> _]|(l' & ds & -> & Hd)].
    - split; [done|]. destruct e as [|b e']; [done|]. simpl. rewrite bool_decide_false; [done|]. by eapply Hdot.
    - split; [done|]. simpl. by rewrite (digits1_ext _ _ _ Hne (digits1_shrink _ _ _ Hd)). }
  change (a :: i' ++ f ++ e) with ((a :: i') ++ f ++ e).
  rewrite (scan_int_ext _ _ _ Hnf Hi'). cbn [mbind option_bind fst snd].
  rewrite app_nil_l, Hf'. cbn [mbind option_bind fst snd]. by rewrite He'.
Qed.

(** ** Valid UTF-8 *)

Definition valid_bytes (l : bytes) : Prop := valid_from (length l) l = true.

Lemma valid_from_fuel n m l : length l ≤ n → length l ≤ m → valid_from n l = valid_from m l.
Proof.
  revert m l. induction n as [|n IH]; intros m l Hn Hm.
  { destruct l; [by destruct m|simpl in Hn; lia]. }
  destruct l as [|a l]; [by destruct m|]. destruct m as [|m]; cbn [length valid_from] in *; [lia|].
  destruct (_ <? _)%N; [apply IH; lia|].
  destruct (rune_width (a :: l)) as [w|] eqn:Hw; [|done]. apply rune_width_bound in Hw as [Hb _].
  simpl in Hb. apply IH; rewrite length_drop; simpl; lia.
Qed.

Lemma valid_bytes_fuel n l : length l ≤ n → valid_bytes l ↔ valid_from n l = true.
Proof. intros Hn. unfold valid_bytes. by rewrite (valid_from_fuel (length l) n). Qed.

Lemma valid_utf8_bytes l : valid_utf8 (of_bytes l) = true ↔ valid_bytes l.
Proof. unfold valid_utf8, valid_bytes. by rewrite <-length_to_bytes, to_of_bytes. Qed.

Lemma valid_nil : valid_bytes [].
Proof. done. Qed.

Lemma valid_ascii a l : (N_of_ascii a <? 128)%N = true → valid_bytes l → valid_bytes (a :: l).
Proof. intros Ha Hl. unfold valid_bytes. simpl. by rewrite Ha. Qed.

Lemma valid_rune l w rest :
  rune_width l = Some w → valid_bytes rest → valid_bytes (take w l ++ rest).
Proof.
  intros Hw Hr. pose proof (rune_width_bound _ _ Hw) as [Hb _]. pose proof (rune_width_app _ _ rest Hw) as Hw'.
  assert (length (take w l) = w) as Hl by (rewrite length_take; lia).
  destruct l as [|a l]; [done|]. destruct w as [|w]; [lia|].
  assert ((N_of_ascii a <? 128)%N = false) as Ha by (bytes_case a; try reflexivity; by destruct l as [|? [|? ?]]).
  rewrite firstn_cons in *. unfold valid_bytes. rewrite <-app_comm_cons in *. cbn [length valid_from].
  rewrite Ha, Hw'. simpl in Hl. injection Hl as Hl. simpl. rewrite <-Hl at 2. rewrite drop_app_length.
  apply valid_bytes_fuel; [|done]. rewrite length_app. lia.
Qed.

Lemma N_of_byte x : (x < 256)%N → N_of_ascii (ascii_of_N x) = x.
Proof. apply N_ascii_embedding. Qed.

Lemma between_true lo hi x : (lo ≤ x ≤ hi)%N → between lo hi x = true.
Proof. unfold between. rewrite andb_true_iff, !N.leb_le. lia. Qed.

Lemma between_spec lo hi x : between lo hi x = true ↔ (lo ≤ x ≤ hi)%N.
Proof. unfold between. rewrite andb_true_iff, !N.leb_le. lia. Qed.

Lemma between_out lo hi x : (x < lo ∨ hi < x)%N → between lo hi x = false.
Proof. intros H. apply not_true_is_false. rewrite between_spec. lia. Qed.

Lemma valid_utf8_rune r rest :
  (r < 1114112)%N → valid_bytes rest → valid_bytes (utf8 r ++ rest).
Proof.
  intros Hr Hrest. unfold utf8. cbv zeta.
  destruct (r <? 128)%N eqn:Hr1.
  { apply valid_ascii; [|done]. rewrite N.ltb_lt in Hr1. rewrite N_of_byte by lia. by rewrite N.ltb_lt. }
  rewrite N.ltb_ge in Hr1.
  assert (∀ l w, rune_width l = Some w → length l = w → valid_bytes (l ++ rest)) as Hrune.
  { intros l w Hw Hl. rewrite <-(firstn_all l), Hl. by apply valid_rune. }
  pose proof (N.mod_lt r 64 ltac:(lia)) as Hm0. pose proof (N.mod_lt (r / 64) 64 ltac:(lia)) as Hm1.
  pose proof (N.mod_lt (r / 4096) 64 ltac:(lia)) as Hm2.
  pose proof (N.div_mod r 64 ltac:(lia)) as He0. pose proof (N.div_mod (r / 64) 64 ltac:(lia)) as He1.
  pose proof (N.div_mod (r / 4096) 64 ltac:(lia)) as He2.
  rewrite (N.Div0.div_div r 64 64) in He1. rewrite (N.Div0.div_div r 4096 64) in He2.
  change (64 * 64)%N with 4096%N in He1. change (4096 * 64)%N with 262144%N in He2.
  revert Hm0 Hm1 Hm2 He0 He1 He2.
  generalize (r mod 64)%N as m0, ((r / 64) mod 64)%N as m1, ((r / 4096) mod 64)%N as m2.
  generalize (r / 64)%N as q0, (r / 4096)%N as q1, (r / 262144)%N as q2.
  intros q0 q1 q2 m0 m1 m2 Hm0 Hm1 Hm2 He0 He1 He2.
  destruct (r <? 2048)%N eqn:Hr2.
  { rewrite N.ltb_lt in Hr2. apply (Hrune _ 2); [|done].
    unfold rune_width. rewrite !N_of_byte by lia. by rewrite !between_true by lia. }
  rewrite N.ltb_ge in Hr2. destruct (between 55296 57343 r) eqn:Hr3.
  { by apply (Hrune _ 3). }
  assert (¬ (55296 ≤ r ≤ 57343)%N) as Hsur by (intros Hs; by rewrite between_true in Hr3).
  destruct (r <? 65536)%N eqn:Hr4.
  - rewrite N.ltb_lt in Hr4. apply (Hrune _ 3); [|done]. unfold rune_width. rewrite !N_of_byte by lia.
    rewrite (between_out 194 223 (224 + q1)) by lia.
    rewrite (between_true 224 239) by lia.
    destruct (224 + q1 =? 224)%N eqn:E1; [rewrite N.eqb_eq in E1|rewrite N.eqb_neq in E1].
    { by rewrite !between_true by lia. }
    destruct (224 + q1 =? 237)%N eqn:E2; [rewrite N.eqb_eq in E2|rewrite N.eqb_neq in E2].
    { by rewrite !between_true by lia. }
    replace (224 + q1 =? 240)%N with false by (symmetry; rewrite N.eqb_neq; lia).
    replace (224 + q1 =? 244)%N with false by (symmetry; rewrite N.eqb_neq; lia).
    by rewrite !between_true by lia.
  - rewrite N.ltb_ge in Hr4. apply (Hrune _ 4); [|done]. unfold rune_width. rewrite !N_of_byte by lia.
    rewrite (between_out 194 223 (240 + q2)) by lia.
    rewrite (between_out 224 239 (240 + q2)) by lia.
    rewrite (between_true 240 244) by lia.
    replace (240 + q2 =? 224)%N with false by (symmetry; rewrite N.eqb_neq; lia).
    replace (240 + q2 =? 237)%N with false by (symmetry; rewrite N.eqb_neq; lia).
    destruct (240 + q2 =? 240)%N eqn:E1; [rewrite N.eqb_eq in E1|rewrite N.eqb_neq in E1].
    { by rewrite !between_true by lia. }
    destruct (240 + q2 =? 244)%N eqn:E2; [rewrite N.eqb_eq in E2|rewrite N.eqb_neq in E2];
      by rewrite !between_true by lia.
Qed.

Lemma hex_value_bound a x : hex_value a = Some x → (x < 16)%N.
Proof. unfold hex_value. bytes_case a; intros [= <-]; done. Qed.

Lemma hex4_bound l x r : hex4 l = Some (x, r) → (x < 65536)%N ∧ length r + 4 = length l.
Proof.
  unfold hex4. destruct l as [|a [|b [|c [|d l]]]]; try done.
  destruct (hex_value a) as [xa|] eqn:Ha; [|done]. destruct (hex_value b) as [xb|] eqn:Hb; [|done].
  destruct (hex_value c) as [xc|] eqn:Hc; [|done]. destruct (hex_value d) as [xd|] eqn:Hd; [|done].
  simpl. intros [= <- <-]. apply hex_value_bound in Ha, Hb, Hc, Hd. simpl. lia.
Qed.

Lemma low_surrogate_bound h l x r :
  low_surrogate h l = Some (x, r) → (x < 1114112)%N ∧ length r ≤ length l.
Proof.
  unfold low_surrogate. destruct (between 55296 56319 h) eqn:Hh; [|done]. rewrite between_spec in Hh.
  destruct l as [|a [|b l]]; try done. destruct (_ && _); [|done].
  destruct (hex4 l) as [[y r']|] eqn:H4; [|done]. simpl.
  destruct (between 56320 57343 y) eqn:Hy; [|done]. rewrite between_spec in Hy.
  intros [= <- <-]. apply hex4_bound in H4. lia.
Qed.

Lemma prepend_Some p m t r : prepend p m = Some (t, r) → ∃ t', m = Some (t', r) ∧ t = p ++ t'.
Proof. unfold prepend. destruct m as [[t' r']|]; [|done]. intros [= <- <-]. by eexists. Qed.

Lemma unescape_ascii e c : unescape e = Some c → (N_of_ascii c <? 128)%N = true.
Proof. unfold unescape. bytes_case e; intros [= <-]; done. Qed.

(** One character of a string literal: what it stands for, and what follows. *)
Lemma scan_string_inv n l t r :
  scan_string n l = Some (t, r) →
  (t = [] ∧ length r < length l) ∨
  ∃ n' p l' t', n = S n' ∧ length l' < length l ∧ scan_string n' l' = Some (t', r) ∧ t = p ++ t' ∧
    ∀ rest, valid_bytes rest → valid_bytes (p ++ rest).
Proof.
  destruct n as [|n]; [done|]. destruct l as [|a l]; [done|]. cbn [scan_string].
  destruct (bool_decide (a = dquote)); [intros [= <- <-]; left; simpl; split; [done|lia]|].
  destruct (bool_decide (a = "\"%char)).
  { destruct l as [|e l]; [done|]. destruct (bool_decide (e = "u"%char)).
    - destruct (hex4 l) as [[h l2]|] eqn:H4; [|done]. apply hex4_bound in H4 as [Hh Hl].
      destruct (low_surrogate h l2) as [[x l3]|] eqn:Hlow; intros (t' & Ht & ->)%prepend_Some; right.
      + apply low_surrogate_bound in Hlow as [Hx Hl3]. exists n, (utf8 x), l3, t'.
        simpl. split_and!; [done|lia|done..|]. intros. by apply valid_utf8_rune.
      + exists n, (utf8 h), l2, t'. simpl. split_and!; [done|lia|done..|].
        intros. apply valid_utf8_rune; [lia|done].
    - destruct (unescape e) as [c|] eqn:He; [|done]. intros (t' & Ht & ->)%prepend_Some. right.
      exists n, [c], l, t'. simpl. split_and!; [done|lia|done..|]. intros.
      apply valid_ascii; [by eapply unescape_ascii|done]. }
  destruct (_ <? 32)%N; [done|]. destruct (N_of_ascii a <? 128)%N eqn:Ha.
  { intros (t' & Ht & ->)%prepend_Some. right. exists n, [a], l, t'. simpl.
    split_and!; [done|lia|done..|]. intros. by apply valid_ascii. }
  destruct (rune_width (a :: l)) as [w|] eqn:Hw; intros (t' & Ht & ->)%prepend_Some; right.
  - exists n, (take w (a :: l)), (drop w (a :: l)), t'. pose proof (rune_width_bound _ _ Hw) as [Hb _].
    rewrite length_drop. simpl in *. split_and!; [done|lia|done..|]. intros. by apply (valid_rune (a :: l)).
  - exists n, replacement, l, t'. simpl. split_and!; [done|lia|done..|]. intros rest Hr.
    by apply (valid_rune replacement 3).
Qed.

Lemma scan_string_valid n l t r :
  scan_string n l = Some (t, r) → valid_bytes t ∧ length r < length l.
Proof.
  revert l t. induction n as [|n IH]; [done|]. intros l t [[-> Hr]|(n' & p & l' & t' & [= <-] & Hl & Ht & -> & Hp)]%scan_string_inv.
  - split; [apply valid_nil|done].
  - apply IH in Ht as [Hv Hr]. split; [by apply Hp|lia].
Qed.

Lemma scan_string_fuel n m l :
  length l ≤ n → length l ≤ m → scan_string n l = scan_string m l.
Proof.
  revert m l. induction n as [|n IH]; intros m l Hn Hm.
  { destruct l; [by destruct m|simpl in Hn; lia]. }
  destruct l as [|a l]; [by destruct m|]. destruct m as [|m]; simpl in Hn, Hm; [lia|].
  cbn [scan_string]. repeat case_match; try done; f_equal;
    repeat match goal with
    | H : hex4 _ = Some _ |- _ => apply hex4_bound in H as [_ ?]
    | H : low_surrogate _ _ = Some _ |- _ => apply low_surrogate_bound in H as [_ ?]
    | H : rune_width _ = Some _ |- _ => apply rune_width_bound in H as [? _]
    end; apply IH; subst; rewrite ?length_drop; simpl in *; lia.
Qed.

Lemma parse_string_inv l s r : parse_string l = Some (s, r) → valid_utf8 s = true ∧ length r < length l.
Proof.
  unfold parse_string. destruct (scan_string _ _) as [[t r']|] eqn:Hs; [|done]. intros [= <- <-].
  rewrite valid_utf8_bytes. by eapply scan_string_valid.
Qed.

(** ** The decoder is sound and its fuel suffices *)

Lemma digits_length l : length (digits l).2 ≤ length l.
Proof. pose proof (digits_split l) as H. apply (f_equal length) in H. rewrite length_app in H. lia. Qed.

Lemma digits1_length l t r : digits1 l = Some (t, r) → length r < length l.
Proof.
  intros [Hd Ht]%digits1_inv. pose proof (digits_split l) as H. rewrite Hd in H. simpl in H.
  apply (f_equal length) in H. rewrite length_app in H. destruct t; [done|]. simpl in H. lia.
Qed.

Lemma scan_number_length l t r : scan_number l = Some (t, r) → length r < length l.
Proof.
  unfold scan_number. cbv zeta.
  assert (length (scan_minus l).2 ≤ length l) as Hm.
  { destruct l as [|a l]; [done|]. simpl. case_bool_decide; simpl; lia. }
  destruct (scan_int _) as [[i r1]|] eqn:Hi; [|done]. simpl.
  destruct (scan_fraction r1) as [[f r2]|] eqn:Hf; [|done]. simpl.
  destruct (scan_exponent r2) as [[e r3]|] eqn:He; [|done]. simpl. intros [= <- <-].
  assert (length r1 < length (scan_minus l).2) as H1.
  { destruct (scan_minus l).2 as [|a l']; [done|]. simpl in Hi. case_bool_decide.
    - injection Hi as <- <-. simpl. lia.
    - by eapply digits1_length. }
  assert (length r2 ≤ length r1) as H2.
  { destruct r1 as [|a l']; simpl in Hf; [by simplify_eq|]. case_bool_decide; [|by simplify_eq].
    destruct (digits1 l') as [[? ?]|] eqn:Hd; [|done]. apply digits1_length in Hd. simplify_eq/=. lia. }
  assert (length r3 ≤ length r2) as H3.
  { destruct r2 as [|a l']; simpl in He; [by simplify_eq|]. destruct (_ || _); [|by simplify_eq].
    destruct (digits1 _) as [[? ?]|] eqn:Hd; [|done]. apply digits1_length in Hd.
    assert (length (scan_sign l').2 ≤ length l').
    { destruct l' as [|b l']; [done|]. simpl. destruct (_ || _); simpl; lia. }
    simplify_eq/=. lia. }
  lia.
Qed.

Lemma after_length p l r : p ≠ [] → l ≠ [] → after p l = Some r → length r < length l.
Proof.
  unfold after. case_bool_decide; [|done]. intros Hp Hl [= <-]. rewrite length_drop.
  destruct p, l; try done. simpl. lia.
Qed.

Lemma parse_atom_sound d l j r : parse_atom l = Some (j, r) → json_ok d j ∧ length r < length l.
Proof.
  destruct l as [|a l]; [done|]. cbn [parse_atom].
  destruct (bool_decide (a = dquote)).
  { destruct (parse_string l) as [[s r']|] eqn:Hs; [|done]. intros [= <- <-].
    apply parse_string_inv in Hs as [Hv Hl]. simpl. split; [by constructor|lia]. }
  repeat match goal with |- (if bool_decide _ then ?m else _) = _ → _ => 
    destruct (bool_decide _);
    [destruct (after _ _) as [r'|] eqn:Ha; [|done]; intros [= <- <-];
     apply after_length in Ha; [by split; [constructor|]|done..]|] end.
  destruct (scan_number (a :: l)) as [[t r']|] eqn:Hn; [|done]. intros [= <- <-].
  split; [|by eapply scan_number_length]. constructor. unfold valid_number.
  rewrite bool_decide_eq_true, to_of_bytes. by eapply scan_number_shrink.
Qed.

Lemma skip_ws_length l : length (skip_ws l) ≤ length l.
Proof. induction l as [|a l IH]; simpl; [done|]. destruct (is_ws a); simpl; lia. Qed.

(** [skipped]: what is left after white space is no longer than what was there. *)
Ltac skipped :=
  repeat match goal with
  | H : skip_ws ?l = _ :: _ |- _ =>
    let Hl := fresh "Hl" in pose proof (skip_ws_length l) as Hl; rewrite H in Hl; simpl in Hl; clear H
  end.

Lemma parse_sound n :
  (∀ d l j r, parse_value n d l = Some (j, r) → json_ok d j ∧ length r < length l) ∧
  (∀ d acc l j r, parse_elements n d acc l = Some (j, r) → Forall (json_ok d) acc →
     json_ok (S d) j ∧ length r < length l) ∧
  (∀ d acc l j r, parse_members n d acc l = Some (j, r) →
     (∀ k v, acc !! k = Some v → valid_utf8 k = true ∧ json_ok d v) →
     json_ok (S d) j ∧ length r < length l).
Proof.
  induction n as [|n (IHv & IHe & IHm)]; [done|]. split_and!.
  - intros d l j r. cbn [parse_value]. destruct l as [|a l]; [done|].
    destruct (bool_decide (a = "["%char)).
    { destruct d as [|d]; [done|]. destruct (skip_ws l) as [|b r'] eqn:Hs; [done|].
      destruct (bool_decide (b = "]"%char)).
      - intros [= <- <-]. skipped. split; [by repeat constructor|simpl; lia].
      - intros [Hok Hr]%IHe; [|done]. skipped. split; [done|simpl in *; lia]. }
    destruct (bool_decide (a = "{"%char)).
    { destruct d as [|d]; [done|]. destruct (skip_ws l) as [|b r'] eqn:Hs; [done|].
      destruct (bool_decide (b = "}"%char)).
      - intros [= <- <-]. skipped. split; [by constructor|simpl; lia].
      - intros [Hok Hr]%IHm; [|done]. skipped. split; [done|simpl in *; lia]. }
    apply parse_atom_sound.
  - intros d acc l j r. cbn [parse_elements].
    destruct (parse_value n d l) as [[v l1]|] eqn:Hv; [|done]. apply IHv in Hv as [Hok Hl].
    destruct (skip_ws l1) as [|b r'] eqn:Hs; [done|]. intros H Hacc.
    assert (Forall (json_ok d) (acc ++ [v])) as Hacc' by (apply Forall_app; by split; [|constructor]).
    destruct (bool_decide (b = ","%char)).
    { apply IHe in H as [? ?]; [|done]. pose proof (skip_ws_length r'). skipped. split; [done|lia]. }
    destruct (bool_decide (b = "]"%char)); [|done]. injection H as <- <-. skipped. split; [by constructor|lia].
  - intros d acc l j r. cbn [parse_members]. destruct l as [|q l]; [done|].
    destruct (bool_decide (q = dquote)); [|done].
    destruct (parse_string l) as [[k l1]|] eqn:Hk; [|done]. apply parse_string_inv in Hk as [Hvk Hl1].
    destruct (skip_ws l1) as [|c l2] eqn:Hs1; [done|]. destruct (bool_decide (c = ":"%char)); [|done].
    destruct (parse_value n d (skip_ws l2)) as [[v l3]|] eqn:Hv; [|done]. apply IHv in Hv as [Hok Hl].
    pose proof (skip_ws_length l2).
    destruct (skip_ws l3) as [|b r'] eqn:Hs; [done|]. intros H' Hacc.
    assert (∀ k' v', <[k := v]> acc !! k' = Some v' → valid_utf8 k' = true ∧ json_ok d v') as Hacc'.
    { intros k' v' [[<- <-]|[_ Hk']]%lookup_insert_Some; [done|by apply Hacc]. }
    destruct (bool_decide (b = ","%char)).
    { apply IHm in H' as [? ?]; [|done]. pose proof (skip_ws_length r'). skipped. split; [done|simpl; lia]. }
    destruct (bool_decide (b = "}"%char)); [|done]. injection H' as <- <-. skipped. split; [by constructor|simpl; lia].
Qed.

Lemma json_decode_ok s j : json_decode s = Some j → json_ok maxNestingDepth j.
Proof.
  unfold json_decode. cbv zeta. destruct (parse_value _ _ _) as [[j' r]|] eqn:Hp; [|done]. simpl.
  case_bool_decide; [|done]. intros [= <-]. by eapply (proj1 (parse_sound _)).
Qed.

(** More fuel than twice the input never changes the answer, so a [None] is a
    refusal of the text. *)
Lemma parse_fuel n :
  (∀ m d l, 2 * length l < n → 2 * length l < m → parse_value n d l = parse_value m d l) ∧
  (∀ m d acc l, 2 * length l + 1 < n → 2 * length l + 1 < m → parse_elements n d acc l = parse_elements m d acc l) ∧
  (∀ m d acc l, 2 * length l + 1 < n → 2 * length l + 1 < m → parse_members n d acc l = parse_members m d acc l).
Proof.
  induction n as [|n (IHv & IHe & IHm)]; [split_and!; lia|]. split_and!; intros m d.
  - intros l Hn Hm. destruct m as [|m]; [lia|]. cbn [parse_value]. destruct l as [|a l]; [done|].
    simpl in Hn, Hm.
    repeat case_match; try done; skipped; (apply IHe || apply IHm); simpl; lia.
  - intros acc l Hn Hm. destruct m as [|m]; [lia|]. cbn [parse_elements]. rewrite (IHv m) by lia.
    destruct (parse_value m d l) as [[v l1]|] eqn:Hv; [|done]. apply (proj1 (parse_sound _)) in Hv as [_ Hl].
    destruct (skip_ws l1) as [|b r] eqn:Hs; [done|]. destruct (bool_decide (b = _)); [|done].
    pose proof (skip_ws_length r). skipped. apply IHe; lia.
  - intros acc l Hn Hm. destruct m as [|m]; [lia|]. cbn [parse_members]. destruct l as [|q l]; [done|].
    destruct (bool_decide (q = dquote)); [|done].
    destruct (parse_string l) as [[k l1]|] eqn:Hk; [|done]. apply parse_string_inv in Hk as [_ Hl1].
    destruct (skip_ws l1) as [|c l2] eqn:Hs1; [done|]. destruct (bool_decide (c = ":"%char)); [|done].
    pose proof (skip_ws_length l2). skipped. simpl in Hn, Hm. rewrite (IHv m) by lia.
    destruct (parse_value m d (skip_ws l2)) as [[v l3]|] eqn:Hv; [|done]. apply (proj1 (parse_sound _)) in Hv as [_ Hl3].
    destruct (skip_ws l3) as [|b r'] eqn:Hs; [done|]. destruct (bool_decide (b = ","%char)); [|done].
    pose proof (skip_ws_length r'). skipped. apply IHm; lia.
Qed.

Lemma json_decode_total n s :
  let l := skip_ws (to_bytes s) in
  2 * length l < n →
  json_decode s = p ← parse_value n maxNestingDepth l; if bool_decide (skip_ws p.2 = []) then Some p.1 else None.
Proof. intros l Hn. unfold json_decode. fold l. by rewrite (proj1 (parse_fuel _) n) by lia. Qed.
