(* ===== verification/Sensitive.v ===== *)
(** * Redaction of what is persisted: [runtime/sensitive.go]

    The secrets of a context are the keys of its models and the values of its
    sensitive environment variables.  JSON is redacted member by member and
    written back, other text by replacement; what cannot be decoded is text.
    [redaction_hides] is what the rest of the runtime relies on. *)

From Stdlib Require Import Ascii.
From S2P Require Import Prelude GoStrings Values Json JsonDecode.

(** ** Strings *)

Definition is_alnum (a : ascii) : bool :=
  let n := N_of_ascii a in between 97 122 n || between 48 57 n.

(** [strings.ToLower], as far as the program can tell: U+0130 and U+212A are
    the two letters outside ASCII whose lower case is in it ("i" and "k"); the
    others stay outside and are left alone, since every caller compares with
    ASCII.  [skip] bytes belong to the letter just read. *)
Fixpoint lower_bytes (skip : nat) (l : bytes) : bytes :=
  match l, skip with
  | [], _ => []
  | _ :: l', S skip' => lower_bytes skip' l'
  | a :: l', O =>
    if bool_decide (take 2 l = ["196"; "176"]%char) then "i"%char :: lower_bytes 1 l'
    else if bool_decide (take 3 l = ["226"; "132"; "170"]%char) then "k"%char :: lower_bytes 2 l'
    else (if between 65 90 (N_of_ascii a) then ascii_of_N (N_of_ascii a + 32) else a) :: lower_bytes 0 l'
  end.

Definition ToLower (s : string) : string := of_bytes (lower_bytes 0 (to_bytes s)).

(** [strings.FieldsFunc] for the characters that are not alphanumeric. *)
Fixpoint fields_from (field : bytes) (l : bytes) : list bytes :=
  match l with
  | [] => match field with [] => [] | _ => [field] end
  | a :: l' =>
    if is_alnum a then fields_from (field ++ [a]) l'
    else match field with [] => fields_from [] l' | _ => field :: fields_from [] l' end
  end.

Definition occurs_at (x l : bytes) : bool := bool_decide (take (length x) l = x).

(** [strings.Contains(s, x)]. *)
Fixpoint contains_bytes (x l : bytes) : bool :=
  occurs_at x l || match l with [] => false | _ :: l' => contains_bytes x l' end.

Definition HasSuffix (s p : string) : bool := HasPrefix (of_bytes (reverse (to_bytes s))) (of_bytes (reverse (to_bytes p))).

(** [s[:strings.IndexByte(s, c)]], or [s]. *)
Fixpoint before_byte (c : ascii) (s : string) : string :=
  match s with
  | EmptyString => EmptyString
  | String d s' => if bool_decide (d = c) then EmptyString else String d (before_byte c s')
  end.

(** ** Names of secrets *)

Definition sensitive_markers : list string :=
  ["password"; "passwd"; "secret"; "credential"; "authorization"; "cookie"; "apikey"; "apitoken"; "accesstoken";
   "refreshtoken"; "authtoken"; "clientsecret"; "privatekey"].

Definition sensitive_words : list string :=
  ["password"; "passwd"; "secret"; "credential"; "authorization"; "cookie"; "apikey"].

(** A "token" next to one of these counts tokens. *)
Definition counting_words : list string :=
  ["count"; "usage"; "budget"; "limit"; "input"; "output"; "prompt"; "completion"; "reasoning"].

Definition isSensitiveFieldName (name : string) : bool :=
  let lowered := to_bytes (ToLower (TrimSpace name)) in
  let parts := map of_bytes (fields_from [] lowered) in
  if bool_decide (parts = []) then false else
  let compact := filter (λ a, is_alnum a = true) lowered in
  let has target := bool_decide (target ∈ parts) in
  existsb (λ marker, contains_bytes (to_bytes marker) compact) sensitive_markers
  || existsb (λ part, bool_decide (part ∈ sensitive_words)
                      || bool_decide (part = "token") && negb (existsb has counting_words)) parts
  || has "api" && has "key" || has "access" && has "key" || has "private" && has "key" || has "client" && has "key".

(** ** Text *)

Definition redactedSensitiveValue : string := "[REDACTED]".

Definition redactSensitiveText (value : string) (secrets : list string) : string :=
  fold_left (λ v secret, ReplaceAll v secret redactedSensitiveValue) secrets value.

(** [appendValue] of [sensitiveContextValues]; [seen] is the list itself. *)
Definition append_secret (values : list string) (value : string) : list string :=
  let value := TrimSpace value in
  if bool_decide (String.length value < 4) || bool_decide (value = redactedSensitiveValue) then values
  else if bool_decide (value ∈ values) then values else values ++ [value].

Definition longer (a b : string) : bool := (String.length b <? String.length a)%nat.

(** The keys of the models, the environment of the context and the one of the
    process, each a list in the order the code meets it. *)
Definition sensitiveContextValues (keys : list string) (env environ : list (string * string)) : list string :=
  let append values p := if isSensitiveFieldName p.1 then append_secret values p.2 else values in
  stable_sort longer (fold_left append environ (fold_left append env (fold_left append_secret keys []))).

(** ** JSON *)

Fixpoint redactJSONValue (secrets : list string) (v : json) : json :=
  match v with
  | JObj m => JObj (map_imap (λ key item, Some (if isSensitiveFieldName key then JStr redactedSensitiveValue else item))
                      (redactJSONValue secrets <$> m))
  | JArr l => JArr (map (redactJSONValue secrets) l)
  | JStr s => JStr (redactSensitiveText s secrets)
  | _ => v
  end.

Definition redactJSONBytes (secrets : list string) (data : string) : string :=
  if bool_decide (data = "") then data else
  match json_decode data with
  | Some v => of_bytes (json_bytes (redactJSONValue secrets v))
  | None => redactSensitiveText data secrets
  end.

(** The media type without its parameters. *)
Definition mime_base (mimeType : string) : string :=
  let mimeType := ToLower (TrimSpace mimeType) in
  if Contains ";" mimeType then TrimSpace (before_byte ";" mimeType) else mimeType.

Definition isJSONMIMEType (mimeType : string) : bool :=
  let mimeType := mime_base mimeType in
  bool_decide (mimeType = "application/json") || HasSuffix mimeType "+json".

(** The bytes [sanitizeArtifact] leaves of an artifact. *)
Definition sanitize_data (secrets : list string) (mimeType data : string) : string :=
  let mimeType := mime_base mimeType in
  if isJSONMIMEType mimeType || json_valid data then redactJSONBytes secrets data
  else if HasPrefix mimeType "text/" then redactSensitiveText data secrets
  else data.

(** ** Replacement, piece by piece *)

Definition occurs (x l : bytes) : Prop := ∃ p q, l = p ++ x ++ q.

Lemma occurs_at_spec x l : occurs_at x l = true ↔ ∃ q, l = x ++ q.
Proof.
  unfold occurs_at. rewrite bool_decide_eq_true. split.
  - intros H. exists (drop (length x) l). rewrite <-H at 1. by rewrite take_drop.
  - intros [q ->]. apply take_app_length.
Qed.

Lemma contains_bytes_spec x l : contains_bytes x l = true ↔ occurs x l.
Proof.
  induction l as [|a l IH]; cbn [contains_bytes]; rewrite orb_true_iff, occurs_at_spec.
  - split; [intros [[q ->]|?]; [by exists [], q|done]|]. intros (p & q & H). left.
    destruct p; [by exists q|done].
  - rewrite IH. split.
    + intros [[q ->]|(p & q & ->)]; [by exists [], q|by exists (a :: p), q].
    + intros (p & q & H). destruct p as [|b p]; [left; by exists q|]. right. injection H as -> ->. by exists p, q.
Qed.

#[export] Instance occurs_dec x l : Decision (occurs x l) :=
  iff_decision (contains_bytes_spec x l).

Lemma occurs_cons x a l : occurs x (a :: l) → occurs_at x (a :: l) = true ∨ occurs x l.
Proof. rewrite <-!contains_bytes_spec. cbn [contains_bytes]. by rewrite orb_true_iff. Qed.

Lemma occurs_sub x p l q : occurs x l → occurs x (p ++ l ++ q).
Proof. intros (a & b & ->). exists (p ++ a), (b ++ q). by rewrite <-!app_assoc. Qed.

(** [pieces] with [sep] between them. *)
Fixpoint join_pieces (sep : bytes) (pieces : list bytes) : bytes :=
  match pieces with
  | [] => []
  | p :: rest => match rest with [] => p | _ => p ++ sep ++ join_pieces sep rest end
  end.

Lemma join_pieces_cons sep p q rest : join_pieces sep (p :: q :: rest) = p ++ sep ++ join_pieces sep (q :: rest).
Proof. done. Qed.

Lemma join_pieces_head sep a p rest : join_pieces sep ((a :: p) :: rest) = a :: join_pieces sep (p :: rest).
Proof. by destruct rest. Qed.

Lemma replace_skip old new p l : replace_bytes old new (length p) (p ++ l) = replace_bytes old new 0 l.
Proof. induction p as [|a p IH]; [done|]. simpl. destruct (p ++ l) eqn:E; [|exact IH]. destruct p, l; try done. Qed.

Lemma replace_hit old new a l q :
  old ≠ [] → a :: l = old ++ q → replace_bytes old new 0 (a :: l) = new ++ replace_bytes old new 0 q.
Proof.
  intros Ho H. assert (occurs_at old (a :: l) = true) as Ht by (apply occurs_at_spec; by exists q).
  unfold occurs_at in Ht. simpl. rewrite Ht. destruct old as [|b old]; [done|]. injection H as -> ->.
  f_equal. simpl. rewrite Nat.sub_0_r. apply replace_skip.
Qed.

Lemma replace_miss old new a l :
  occurs_at old (a :: l) = false → replace_bytes old new 0 (a :: l) = a :: replace_bytes old new 0 l.
Proof. intros H. unfold occurs_at in H. simpl. by rewrite H. Qed.

(** [ReplaceAll] cuts the text at the occurrences and joins it again. *)
Lemma replace_pieces old new l :
  old ≠ [] → ∃ p rest,
    l = join_pieces old (p :: rest) ∧ replace_bytes old new 0 l = join_pieces new (p :: rest) ∧
    Forall (λ q, ¬ occurs old q) (p :: rest).
Proof.
  intros Ho. induction l as [l IH] using (induction_ltof1 _ (@length ascii)). unfold ltof in IH.
  assert (¬ occurs old []) as Hnil.
  { intros (p & q & H). destruct p; [|done]. destruct old; done. }
  destruct l as [|a l]; [by exists [], []; split_and!; [..|repeat constructor]|].
  destruct (occurs_at old (a :: l)) eqn:Hat.
  - apply occurs_at_spec in Hat as Hq. destruct Hq as [q Hq].
    assert (length q < length (a :: l)) as Hlt.
    { rewrite Hq, length_app. destruct old; [done|]. simpl. lia. }
    destruct (IH q Hlt) as (p & rest & H1 & H2 & H3). exists [], (p :: rest).
    rewrite !join_pieces_cons, <-H1, <-H2. split_and!; [done|by apply replace_hit|by constructor].
  - destruct (IH l) as (p & rest & H1 & H2 & H3); [simpl; lia|]. exists (a :: p), rest.
    rewrite !join_pieces_head, <-H1, <-H2, replace_miss by done. split_and!; [done..|].
    apply Forall_cons in H3 as [Hp Hr]. constructor; [|done].
    intros [Hh|Hh]%occurs_cons; [|done]. apply occurs_at_spec in Hh as [q Hq].
    rewrite H1, <-join_pieces_head, Hq in Hat.
    enough (occurs_at old (join_pieces old ((old ++ q) :: rest)) = true) by congruence.
    apply occurs_at_spec. destruct rest as [|r rest]; [by exists q|]. rewrite join_pieces_cons, <-app_assoc.
    by eexists.
Qed.

(** A text without [c] occurs on one side of [c]. *)
Lemma prefix_before (c : ascii) (x l b q : bytes) : c ∉ x → l ++ c :: b = x ++ q → ∃ r, l = x ++ r.
Proof.
  revert l. induction x as [|e x IH]; intros l Hc H; [by exists l|].
  destruct l as [|d l]; injection H as -> H; [exfalso; apply Hc; left|].
  destruct (IH l) as [r ->]; [|done|by exists r]. intros Hx. apply Hc. by right.
Qed.

Lemma occurs_split (c : ascii) (x a b : bytes) :
  c ∉ x → x ≠ [] → occurs x (a ++ c :: b) → occurs x a ∨ occurs x b.
Proof.
  intros Hc Hx (p & q & H). revert p H. induction a as [|d a IH]; intros p H.
  - destruct p as [|e p]; simpl in H.
    + destruct x as [|e x]; [done|]. injection H as -> _. exfalso. apply Hc. left.
    + injection H as _ ->. right. by exists p, q.
  - destruct p as [|e p]; simpl in H.
    + left. destruct (prefix_before c x (d :: a) b q Hc H) as [r Hr]. by exists [], r.
    + injection H as -> H. destruct (IH p H) as [(p' & q' & ->)|Hb]; [left|by right]. by exists (e :: p'), q'.
Qed.

(** ** Secrets stay hidden *)

Definition marker : bytes := to_bytes redactedSensitiveValue.

(** A secret that the replacement text cannot spell out again: it has no
    bracket and is no part of the word between the brackets. *)
Definition plain (x : bytes) : Prop :=
  x ≠ [] ∧ ("["%char ∉ x) ∧ ("]"%char ∉ x) ∧ ¬ occurs x (lit "REDACTED").
#[export] Instance plain_dec x : Decision (plain x).
Proof. unfold plain. apply _. Defined.

Lemma occurs_join x pieces :
  plain x → occurs x (join_pieces marker pieces) → ∃ p, p ∈ pieces ∧ occurs x p.
Proof.
  intros (Hx & Hb1 & Hb2 & Hm) H. induction pieces as [|p pieces IH].
  - destruct H as ([|] & q & H); [|done]. by destruct x.
  - destruct pieces as [|p' pieces]; [exists p; split; [left|done]|]. rewrite join_pieces_cons in H.
    change (marker ++ ?l) with ("["%char :: lit "REDACTED" ++ "]"%char :: l) in H.
    apply occurs_split in H as [H|H]; [exists p; split; [left|done]| |done..].
    apply occurs_split in H as [H|H]; [done| |done..].
    destruct (IH H) as (r & Hr & Ho). exists r. split; [by right|done].
Qed.

Lemma join_piece_occurs sep pieces p : p ∈ pieces → ∃ a b, join_pieces sep pieces = a ++ p ++ b.
Proof.
  induction pieces as [|q pieces IH]; [by intros ?%elem_of_nil|]. intros [->|Hp]%elem_of_cons.
  - destruct pieces; [exists [], []; simpl; by rewrite app_nil_r|]. rewrite join_pieces_cons. by exists [], (sep ++ join_pieces sep (l :: pieces)).
  - destruct (IH Hp) as (a & b & H). destruct pieces; [by apply elem_of_nil in Hp|].
    rewrite join_pieces_cons, H. exists (q ++ sep ++ a), b. by rewrite <-!app_assoc.
Qed.

Lemma replace_hides old l : plain old → ¬ occurs old (replace_bytes old marker 0 l).
Proof.
  intros Hp H. destruct (replace_pieces old marker l (proj1 Hp)) as (p & rest & _ & Hr & Hno).
  rewrite Hr in H. apply occurs_join in H as (q & Hq & Ho); [|done].
  rewrite Forall_forall in Hno. by apply (Hno q).
Qed.

Lemma replace_keeps x old l :
  plain x → old ≠ [] → ¬ occurs x l → ¬ occurs x (replace_bytes old marker 0 l).
Proof.
  intros Hp Ho Hno H. destruct (replace_pieces old marker l Ho) as (p & rest & Hl & Hr & _).
  rewrite Hr in H. apply occurs_join in H as (q & Hq & Hx); [|done]. apply Hno.
  destruct (join_piece_occurs old _ _ Hq) as (a & b & Hj). rewrite Hl, Hj. by apply occurs_sub.
Qed.

Lemma to_ReplaceAll s old new : to_bytes (ReplaceAll s old new) = replace_bytes (to_bytes old) (to_bytes new) 0 (to_bytes s).
Proof. apply to_of_bytes. Qed.

Lemma to_bytes_nonempty s : s ≠ "" → to_bytes s ≠ [].
Proof. by destruct s. Qed.

Lemma redact_cons s t secrets :
  redactSensitiveText s (t :: secrets) = redactSensitiveText (ReplaceAll s t redactedSensitiveValue) secrets.
Proof. done. Qed.

Lemma redact_keeps x secrets s :
  plain x → Forall (λ t, t ≠ "") secrets → ¬ occurs x (to_bytes s) →
  ¬ occurs x (to_bytes (redactSensitiveText s secrets)).
Proof.
  intros Hp. revert s. induction secrets as [|t secrets IH]; intros s Ht Hs; [done|].
  apply Forall_cons in Ht as [Ht Hts]. rewrite redact_cons. apply IH; [done|].
  rewrite to_ReplaceAll. apply replace_keeps; [done|by apply to_bytes_nonempty|done].
Qed.

Lemma redact_hides secrets s x :
  Forall (λ t, t ≠ "") secrets → x ∈ secrets → plain (to_bytes x) →
  ¬ occurs (to_bytes x) (to_bytes (redactSensitiveText s secrets)).
Proof.
  intros Hne Hx Hp. revert s. induction secrets as [|t secrets IH]; intros s; [by apply elem_of_nil in Hx|].
  apply Forall_cons in Hne as [Ht Hts]. rewrite redact_cons. apply elem_of_cons in Hx as [->|Hx]; [|by apply IH].
  apply redact_keeps; [done..|]. rewrite to_ReplaceAll. by apply replace_hides.
Qed.

(** ** Redaction keeps UTF-8 *)

(** A byte that continues a character. *)
Definition continues (a : ascii) : bool := between 128 191 (N_of_ascii a).

Lemma rune_continues l w i a :
  rune_width l = Some w → 0 < i < w → l !! i = Some a → continues a = true.
Proof.
  unfold rune_width, continues. intros H Hi Ha.
  destruct l as [|x [|y l]]; [done..|]. cbv zeta in H.
  assert (∀ lo hi, (128 ≤ lo)%N → (hi ≤ 191)%N → between lo hi (N_of_ascii y) = true → between 128 191 (N_of_ascii y) = true) as Hw.
  { intros lo hi ? ?. rewrite !between_spec. lia. }
  destruct (between 194 223 (N_of_ascii x)) eqn:E1.
  { destruct (between 128 191 (N_of_ascii y)) eqn:E2; [|done]. injection H as <-.
    destruct i as [|[|i]]; [lia| |lia]. simpl in Ha. by simplify_eq. }
  destruct l as [|z l]; [done|].
  match type of H with context [(if ?c then ?p else ?q) && _] =>
    assert ((if c then p else q) = true → between 128 191 (N_of_ascii y) = true) as Hsec
      by (intros Hif; repeat case_match; (eapply Hw; [| |exact Hif]); lia); set (second := if c then p else q) in * end.
  destruct (between 224 239 (N_of_ascii x)).
  { destruct (second && between 128 191 (N_of_ascii z)) eqn:E; [|done].
    apply andb_true_iff in E as [Es Ez]. injection H as <-. destruct i as [|[|[|i]]]; [lia|..|lia]; simpl in Ha; simplify_eq; auto. }
  destruct (between 240 244 (N_of_ascii x)); [|done]. destruct l as [|t l]; [done|].
  destruct (second && between 128 191 (N_of_ascii z) && between 128 191 (N_of_ascii t)) eqn:E; [|done].
  rewrite !andb_true_iff in E. destruct E as [[Es Ez] Et]. injection H as <-.
  destruct i as [|[|[|[|i]]]]; [lia|..|lia]; simpl in Ha; simplify_eq; auto.
Qed.

Lemma valid_cases l :
  valid_bytes l →
  l = [] ∨
  (∃ a l', l = a :: l' ∧ (N_of_ascii a <? 128)%N = true ∧ valid_bytes l') ∨
  (∃ w, rune_width l = Some w ∧ 0 < w ≤ length l ∧ valid_bytes (drop w l)).
Proof.
  unfold valid_bytes. destruct l as [|a l]; [by left|]. cbn [length valid_from]. intros H. right.
  destruct (N_of_ascii a <? 128)%N eqn:Ha; [left; by eauto|]. right.
  destruct (rune_width (a :: l)) as [w|] eqn:Hw; [|done]. exists w.
  pose proof (rune_width_bound _ _ Hw) as [Hb _]. simpl in Hb |- *. split_and!; [done|lia|lia|].
  apply (valid_bytes_fuel (length l)); [|done]. rewrite length_drop. simpl. lia.
Qed.

Lemma valid_app p q : valid_bytes p → valid_bytes q → valid_bytes (p ++ q).
Proof.
  intros Hp Hq. induction p as [p IH] using (induction_ltof1 _ (@length ascii)). unfold ltof in IH.
  destruct (valid_cases p Hp) as [->|[(a & p' & -> & Ha & Hp')|(w & Hw & Hb & Hd)]]; [done|..].
  - apply valid_ascii; [done|]. apply IH; [simpl; lia|done].
  - rewrite <-(take_drop w p), <-app_assoc. apply valid_rune; [done|].
    apply IH; [rewrite length_drop; lia|done].
Qed.

(** The head of valid text starts a character. *)
Lemma valid_head a l : valid_bytes (a :: l) → continues a = false.
Proof.
  unfold valid_bytes, continues. cbn [length valid_from]. destruct (N_of_ascii a <? 128)%N eqn:Ha.
  - intros _. rewrite N.ltb_lt in Ha. apply between_out. lia.
  - clear Ha. destruct (rune_width (a :: l)) eqn:H; [|done]. intros _.
    bytes_case a; try reflexivity; destruct l as [|? [|? [|? ?]]]; discriminate H.
Qed.

Lemma valid_split p q :
  valid_bytes (p ++ q) → (∀ a q', q = a :: q' → continues a = false) → valid_bytes p ∧ valid_bytes q.
Proof.
  intros Hv Hq. induction p as [p IH] using (induction_ltof1 _ (@length ascii)). unfold ltof in IH.
  destruct p as [|b p]; [done|].
  destruct (valid_cases _ Hv) as [?|[(a & l & [= <- <-] & Ha & Hl)|(w & Hw & Hb & Hd)]]; [done|..].
  - destruct (IH p) as [Hp Hq']; [simpl; lia|done|]. split; [by apply valid_ascii|done].
  - destruct (decide (w ≤ length (b :: p))) as [Hle|Hgt].
    + assert (drop w ((b :: p) ++ q) = drop w (b :: p) ++ q) as Hdr.
      { rewrite drop_app. replace (w - length (b :: p)) with 0 by lia. done. }
      rewrite Hdr in Hd. destruct (IH (drop w (b :: p))) as [Hp Hq']; [rewrite length_drop; simpl in *; lia|done|].
      split; [|done]. rewrite <-(take_drop w (b :: p)).
      assert (take w ((b :: p) ++ q) = take w (b :: p)) as Ht.
      { rewrite take_app. replace (w - length (b :: p)) with 0 by lia. by rewrite take_0, app_nil_r. }
      rewrite <-Ht. by apply valid_rune.
    + exfalso. destruct q as [|a q]; [rewrite app_nil_r in Hb; lia|].
      assert (continues a = true) as Hc.
      { eapply (rune_continues _ _ (length (b :: p)) a Hw); [simpl in *; lia|]. by apply list_lookup_middle. }
      by rewrite (Hq a q) in Hc.
Qed.

Lemma valid_drop p q : valid_bytes (p ++ q) → valid_bytes p → valid_bytes q.
Proof.
  intros Hv Hp. induction p as [p IH] using (induction_ltof1 _ (@length ascii)). unfold ltof in IH.
  destruct (valid_cases p Hp) as [->|[(a & l & -> & Ha & Hl)|(w & Hw & Hb & Hd)]]; [done|..].
  - apply (IH l); [simpl; lia| |done]. unfold valid_bytes in Hv. simpl in Hv. by rewrite Ha in Hv.
  - apply (IH (drop w p)); [rewrite length_drop; lia| |done].
    rewrite <-(take_drop w p), <-app_assoc in Hv.
    destruct (valid_cases _ Hv) as [Hn|[(a & l & He & Ha & Hl)|(w' & Hw' & Hb' & Hd')]].
    + apply (f_equal length) in Hn. rewrite !length_app, length_take in Hn. simpl in Hn. lia.
    + exfalso. destruct p as [|b p]; [done|]. destruct w as [|w]; [lia|]. injection He as -> _.
      bytes_case a; try discriminate Ha; by destruct p as [|? [|? ?]].
    + rewrite (rune_width_app _ _ _ Hw) in Hw'. injection Hw' as <-.
      rewrite drop_app_length' in Hd'; [done|]. rewrite length_take. lia.
Qed.

Lemma valid_join_inv old pieces :
  old ≠ [] → valid_bytes old → pieces ≠ [] → valid_bytes (join_pieces old pieces) → Forall valid_bytes pieces.
Proof.
  intros Ho Hov _. induction pieces as [|p pieces IH]; [done|]. intros Hv.
  destruct pieces as [|q pieces]; [by repeat constructor|]. rewrite join_pieces_cons in Hv.
  destruct old as [|a old]; [done|].
  apply valid_split in Hv as [Hp Hr]; [|intros b l [= <- _]; by eapply valid_head].
  constructor; [done|]. apply IH. by eapply valid_drop.
Qed.

Lemma valid_join sep pieces : valid_bytes sep → Forall valid_bytes pieces → valid_bytes (join_pieces sep pieces).
Proof.
  intros Hs Hp. induction Hp as [|p pieces Hv _ IH]; [done|]. destruct pieces; [done|].
  rewrite join_pieces_cons. auto using valid_app.
Qed.

Lemma valid_redact secrets s :
  Forall (λ t, t ≠ "" ∧ valid_utf8 t = true) secrets → valid_utf8 s = true →
  valid_utf8 (redactSensitiveText s secrets) = true.
Proof.
  assert (∀ t, valid_utf8 t = true ↔ valid_bytes (to_bytes t)) as Hb
    by (intros t; by rewrite <-valid_utf8_bytes, of_to_bytes).
  intros Hs. revert s. induction Hs as [|t secrets [Ht Hv] _ IH]; intros s; [done|].
  rewrite redact_cons. intros Hv'. apply IH. rewrite Hb, to_ReplaceAll. rewrite Hb in Hv, Hv'.
  destruct (replace_pieces (to_bytes t) marker (to_bytes s)) as (p & rest & Hl & Hr & _); [by apply to_bytes_nonempty|].
  change (to_bytes redactedSensitiveValue) with marker. rewrite Hr. apply valid_join; [done|].
  rewrite Hl in Hv'. eapply valid_join_inv; [| | |exact Hv']; [by apply to_bytes_nonempty|done|done].
Qed.

(** ** Documents *)

Lemma redact_member secrets m k :
  map_imap (λ key item, Some (if isSensitiveFieldName key then JStr redactedSensitiveValue else item))
    (redactJSONValue secrets <$> m) !! k =
  (λ v, if isSensitiveFieldName k then JStr redactedSensitiveValue else redactJSONValue secrets v) <$> m !! k.
Proof. rewrite map_lookup_imap, lookup_fmap. by destruct (m !! k). Qed.

(** [usable]: what [sensitiveContextValues] guarantees, for secrets in UTF-8. *)
Definition usable (secrets : list string) : Prop := Forall (λ t, t ≠ "" ∧ valid_utf8 t = true) secrets.

Lemma redact_ok secrets d v :
  usable secrets → json_ok d v → json_ok d (redactJSONValue secrets v).
Proof.
  intros Hs. revert d. induction v as [v IH] using json_ind_strong. intros d Hok.
  destruct Hok as [| | |d s Hv|d l Hl|d m Hm]; simpl; try by constructor.
  - constructor. by apply valid_redact.
  - constructor. apply Forall_map. rewrite Forall_forall in *. intros w Hw. by apply IH, Hl.
  - constructor. intros k v'. rewrite redact_member, fmap_Some. intros (v & Hk & ->).
    destruct (Hm k v Hk) as [Hvk Hv]. split; [done|].
    destruct (isSensitiveFieldName k); [by constructor|by eapply IH].
Qed.

(** What the runtime may show: no text contains one of the [secrets] the
    replacement cannot spell, and a member with a sensitive name has no value. *)
Inductive hidden (secrets : list string) : json → Prop :=
  | hidden_null : hidden secrets JNull
  | hidden_bool b : hidden secrets (JBool b)
  | hidden_num t : hidden secrets (JNum t)
  | hidden_str s : (∀ x, x ∈ secrets → plain (to_bytes x) → ¬ occurs (to_bytes x) (to_bytes s)) → hidden secrets (JStr s)
  | hidden_arr l : Forall (hidden secrets) l → hidden secrets (JArr l)
  | hidden_obj m :
      (∀ k v, m !! k = Some v → isSensitiveFieldName k = true → v = JStr redactedSensitiveValue) →
      (∀ k v, m !! k = Some v → isSensitiveFieldName k = false → hidden secrets v) →
      hidden secrets (JObj m).

Lemma redact_hidden secrets v :
  usable secrets → hidden secrets (redactJSONValue secrets v).
Proof.
  intros Hs. assert (Forall (λ t, t ≠ "") secrets) as Hne by (eapply Forall_impl; [exact Hs|by intros ? []]).
  induction v as [v IH] using json_ind_strong. destruct v as [| | |s|l|m]; simpl; try constructor.
  - intros x Hx Hp. by apply redact_hides.
  - apply Forall_map, Forall_forall. exact IH.
  - intros k v. rewrite redact_member, fmap_Some. intros (v' & Hk & ->) ->. done.
  - intros k v. rewrite redact_member, fmap_Some. intros (v' & Hk & ->) ->. by eapply IH.
Qed.

Lemma redact_decodes secrets data v :
  usable secrets → json_decode data = Some v →
  json_decode (redactJSONBytes secrets data) = Some (redactJSONValue secrets v).
Proof.
  intros Hs Hd. unfold redactJSONBytes. rewrite Hd, bool_decide_false by (intros ->; discriminate Hd).
  apply json_decode_encode, redact_ok; [done|]. by eapply json_decode_ok.
Qed.

(** C36: what [redactJSONBytes] writes hides the secrets of the context and keeps
    everything else.  The secrets are non-empty and in UTF-8.  A JSON document reads
    back as the same document, redacted: a member with a sensitive name holds the
    marker, and no string value contains a secret that has no bracket and is no part
    of the word in the marker; the names of members and the numbers are kept, even
    when they spell a secret ([redaction_keeps_names]).  What is not JSON contains no
    such secret either. *)
Theorem redaction_hides secrets data :
  usable secrets →
  match json_decode data with
  | Some v => json_decode (redactJSONBytes secrets data) = Some (redactJSONValue secrets v)
              ∧ hidden secrets (redactJSONValue secrets v)
  | None => ∀ x, x ∈ secrets → plain (to_bytes x) →
                 ¬ occurs (to_bytes x) (to_bytes (redactJSONBytes secrets data))
  end.
Proof.
  intros Hs. destruct (json_decode data) as [v|] eqn:Hd.
  - split; [by apply redact_decodes|by apply redact_hidden].
  - intros x Hx Hp. unfold redactJSONBytes. rewrite Hd. case_bool_decide as He.
    + subst. intros (p & q & H). apply (f_equal length) in H. rewrite !length_app in H. destruct Hp as [Hp _].
      destruct (to_bytes x); [done|]. simpl in H. lia.
    + apply redact_hides; [|done..]. eapply Forall_impl; [exact Hs|by intros ? []].
Qed.

Lemma redaction_hides_witness :
  let data := of_bytes (json_bytes (JObj {["note" := JStr "key sk-12345"; "api_key" := JNum "1"]})) in
  usable ["sk-12345"] ∧
  json_decode (redactJSONBytes ["sk-12345"] data) =
    Some (JObj {["note" := JStr "key [REDACTED]"; "api_key" := JStr "[REDACTED]"]}).
Proof.
  intros data. assert (usable ["sk-12345"]) as Hu by (by repeat constructor). split; [done|].
  pose proof (redaction_hides ["sk-12345"] data Hu) as H.
  destruct (json_decode data) eqn:Hd; [|by vm_compute in Hd].
  destruct H as [H _]. rewrite H. vm_compute in Hd. injection Hd as <-. vm_compute. reflexivity.
Defined.

(** The names of members are written as they are. *)
Example redaction_keeps_names :
  let secrets := ["sk-12345"] in
  redactJSONBytes secrets (of_bytes (json_bytes (JObj {["sk-12345" := JNull]})))
  = of_bytes (json_bytes (JObj {["sk-12345" := JNull]})).
Proof. vm_compute. reflexivity. Qed.

(** ** The secrets of a context *)

Lemma append_secret_spec values v x :
  x ∈ append_secret values v →
  x ∈ values ∨ x = TrimSpace v ∧ 4 ≤ String.length x ∧ x ≠ redactedSensitiveValue.
Proof.
  unfold append_secret. destruct (_ || _) eqn:Hb; [by left|].
  rewrite orb_false_iff, !bool_decide_eq_false in Hb. case_bool_decide; [by left|].
  intros [Hx|Hx%list_elem_of_singleton]%elem_of_app; [by left|right]. subst. split; [done|]. split; [lia|tauto].
Qed.

Lemma append_secret_NoDup values v : NoDup values → NoDup (append_secret values v).
Proof.
  intros Hn. unfold append_secret. destruct (_ || _); [done|]. case_bool_decide as Hx; [done|].
  apply NoDup_app. split_and!; [done| |apply NoDup_singleton].
  intros y Hy ->%list_elem_of_singleton. done.
Qed.

#[export] Instance longer_weak : StrictWeak longer.
Proof.
  unfold longer. split; [intros; apply Nat.ltb_irrefl| |]; intros *; rewrite ?Nat.ltb_ge, ?Nat.ltb_lt; lia.
Qed.

Definition good_secret (x : string) : Prop := trimmed x ∧ 4 ≤ String.length x ∧ x ≠ redactedSensitiveValue.

(** Secrets are trimmed, at least four bytes long, distinct, and the longer ones
    are replaced first, so that no secret is cut by a shorter one inside it. *)
Lemma sensitiveContextValues_spec keys env environ :
  let secrets := sensitiveContextValues keys env environ in
  Forall good_secret secrets ∧ NoDup secrets ∧
  StronglySorted (λ a b, String.length b ≤ String.length a) secrets.
Proof.
  cbv zeta. unfold sensitiveContextValues.
  set (append := λ values p, if isSensitiveFieldName p.1 then append_secret values p.2 else values).
  assert (∀ values v, (Forall good_secret values ∧ NoDup values) →
    Forall good_secret (append_secret values v) ∧ NoDup (append_secret values v)) as Hstep.
  { intros values v [Hf Hn]. split; [|by apply append_secret_NoDup]. rewrite Forall_forall in *.
    intros x [Hx|(-> & ? & ?)]%append_secret_spec; [by apply Hf|]. split_and!; [apply TrimSpace_trimmed|done..]. }
  assert (∀ l values, (Forall good_secret values ∧ NoDup values) →
    Forall good_secret (fold_left append l values) ∧ NoDup (fold_left append l values)) as Happ.
  { intros l. induction l as [|p l IH]; intros values Hv; [done|]. simpl. apply IH. unfold append.
    destruct (isSensitiveFieldName _); [by apply Hstep|done]. }
  assert (∀ l values, (Forall good_secret values ∧ NoDup values) →
    Forall good_secret (fold_left append_secret l values) ∧ NoDup (fold_left append_secret l values)) as Hkeys.
  { intros l. induction l as [|p l IH]; intros values Hv; [done|]. simpl. apply IH. by apply Hstep. }
  destruct (Happ environ _ (Happ env _ (Hkeys keys [] (conj (List.Forall_nil _) NoDup_nil_2)))) as [Hf Hn].
  split_and!; [by rewrite stable_sort_perm..|].
  eapply StronglySorted_impl; [|exact (stable_sort_sorted longer _)].
  intros a b _ _. unfold not_after, longer. by rewrite Nat.ltb_ge.
Qed.
