(* ===== verification/StateTree.v ===== *)
(** * The state envelope: [state/state.go]

    A [State] is the private storage of a run: a map from section names to
    objects.  The operations below are the unexported [read], [set], [delete],
    [merge] and [parentMap] every public accessor goes through, with the
    constructors and copies.  [wf_state] is the invariant
    [ensureRootSections] maintains: the four sections are non-nil objects. *)

From S2P Require Import Prelude GoStrings Values Paths.

Record State := MkState { root : vmap }.

Inductive state_error :=
  | EStatePathRequired
  | ESectionNotObject (sec : string)
  | ETraversesNonObject (path parent : Path)
  | EMergeValueNotObject (path : Path) (got : value)
  | EMergeTargetNotObject (path : Path) (found : value)
  | EPanicNilMap  (** assignment to an entry of a nil map: a Go panic *)
  | EAppendPath (path : Path) (cause : append_error)
  | EInvalidPath (cause : path_error)
  | ECloneState.

Definition sections : list string :=
  [SectionShared; SectionScopes; SectionInternal; SectionRuntime].

Definition newRoot : vmap :=
  list_to_map (map (λ s, (s, VMap ∅)) sections).

Definition NewState : State := MkState newRoot.

(** One turn of the loop of [ensureRootSections]. *)
Definition ensureSection (r : vmap) (sec : string) : vmap :=
  match r !! sec with
  | Some (VMap _) | Some VNilMap => r
  | _ => <[sec := VMap ∅]> r
  end.

Definition ensureRootSections (s : State) : State :=
  MkState (foldl ensureSection (root s) sections).

Definition FromMap (input : vmap) : State :=
  ensureRootSections (MkState (mergeMap newRoot input)).

Definition FromShared (shared : vmap) : State :=
  MkState (<[SectionShared := VMap (mergeMap ∅ shared)]> newRoot).

(** A nil [*State] is [None]. *)
Definition Clone (s : option State) : State :=
  match s with None => NewState | Some s => FromMap (root s) end.

Definition CloneStrict (s : option State) : result state_error State :=
  match s with
  | None => Ok NewState
  | Some s =>
    if cloneable (VMap (root s)) then Ok (ensureRootSections s) else Err ECloneState
  end.

Definition Export (s : option State) : vmap :=
  match s with None => newRoot | Some s => root s end.

Definition read (s : State) (p : Path) : option value :=
  if Empty p then None
  else match root s !! section p with
       | None => None
       | Some v => get_in v (segments p)
       end.

(** The walk of [parentMap] below a section, followed by the caller's update
    [leaf] of the map it reaches: [create] is the flag, [pre] the segments
    walked so far.  With [create] unset a missing or non-object intermediate
    makes [parentMap] return no map, and the caller changes nothing. *)
Fixpoint update_parent (create : bool) (pre : list string) (m : vmap)
    (seg : string) (rest : list string) (leaf : vmap → string → vmap)
    : result (list string) vmap :=
  match rest with
  | [] => Ok (leaf m seg)
  | seg' :: rest' =>
    let descend sub :=
      let* sub' := update_parent create (pre ++ [seg]) sub seg' rest' leaf in
      Ok (<[seg := VMap sub']> m) in
    match m !! seg with
    | None | Some VNilMap => if create then descend ∅ else Ok m
    | Some (VMap sub) => descend sub
    | Some _ => if create then Err (pre ++ [seg]) else Ok m
    end
  end.

(** [parentMap] from the root, with the update of its caller. *)
Definition parentMap (create : bool) (s : State) (p : Path) (seg : string)
    (rest : list string) (leaf : vmap → string → vmap) : result state_error State :=
  let s := ensureRootSections s in
  let descend m :=
    match update_parent create [] m seg rest leaf with
    | Ok m' => Ok (MkState (<[section p := VMap m']> (root s)))
    | Err parent => Err (ETraversesNonObject p (MkPath (section p) parent))
    end in
  match root s !! section p with
  | Some (VMap m) => descend m
  | Some VNilMap => if create then Err EPanicNilMap else Ok s
  | _ => if create then descend ∅ else Ok s
  end.

Definition set (s : State) (p : Path) (v : value) : result state_error State :=
  if Empty p then Err EStatePathRequired
  else match segments p with
       | [] =>
         match asMap v with
         | None => Err (ESectionNotObject (section p))
         | Some m => Ok (MkState (<[section p := VMap m]> (root (ensureRootSections s))))
         end
       | seg :: rest => parentMap true s p seg rest (λ m k, <[k := v]> m)
       end.

Definition delete_path (s : State) (p : Path) : result state_error State :=
  if Empty p then Err EStatePathRequired
  else match segments p with
       | [] => Ok (MkState (<[section p := VMap ∅]> (root (ensureRootSections s))))
       | seg :: rest => parentMap false s p seg rest (λ m k, delete k m)
       end.

Definition merge_path (s : State) (p : Path) (v : value) : result state_error State :=
  if Empty p then Err EStatePathRequired
  else match asMap v with
       | None => Err (EMergeValueNotObject p v)
       | Some _ =>
         match read s p with
         | None => set s p v
         | Some current =>
           match asMap current with
           | None => Err (EMergeTargetNotObject p current)
           | Some _ => set s p (merge_value v (Some current))
           end
         end
       end.

(** [appendPathValue] of [patch.go]. *)
Definition appendPathValue (s : State) (p : Path) (v : value) : result state_error State :=
  match read s p with
  | None => set s p (normalizeAppendSeed v)
  | Some existing =>
    match appendValue existing v with
    | Err e => Err (EAppendPath p e)
    | Ok combined => set s p combined
    end
  end.

Definition SetSection (s : State) (sec : string) (values : value) : result state_error State :=
  match NewPath sec [] with
  | Err e => Err (EInvalidPath e)
  | Ok p => set s p values
  end.

(** The string-addressed accessors of [runtime.go]. *)
Definition with_path {A} (text : string) (k : Path → result state_error A)
    : result state_error A :=
  match ParsePath text with Err e => Err (EInvalidPath e) | Ok p => k p end.

Definition ReadPath (s : State) (text : string) : option value :=
  match ParsePath text with Err _ => None | Ok p => read s p end.
Definition SetPath (s : State) (text : string) (v : value) := with_path text (λ p, set s p v).
Definition DeletePath (s : State) (text : string) := with_path text (delete_path s).
Definition MergePath (s : State) (text : string) (v : value) :=
  with_path text (λ p, merge_path s p v).

(** [MergeResumeInput] of [runtime.go]; [PrepareContinuationState] is the same
    function. *)
Definition MergeResumeInput (base input : option State) : State :=
  match input with
  | None => match base with None => NewState | Some _ => Clone base end
  | Some i =>
    let merged := match base with None => NewState | Some _ => Clone base end in
    ensureRootSections (MkState (mergeMap (root merged) (Export (Some i))))
  end.

(** ** The invariant *)

Definition wf_state (s : State) : Prop :=
  ∀ sec, sec ∈ sections → ∃ m, root s !! sec = Some (VMap m).

Lemma elem_of_sections sec : sec ∈ sections ↔ knownSection sec = true.
Proof.
  unfold sections, knownSection. rewrite !orb_true_iff, !bool_decide_eq_true.
  rewrite !elem_of_cons, elem_of_nil. tauto.
Qed.

Lemma lookup_newRoot k :
  newRoot !! k = if knownSection k then Some (VMap ∅) else None.
Proof.
  destruct (knownSection k) eqn:Hk.
  - apply elem_of_sections in Hk. unfold sections in Hk.
    rewrite !elem_of_cons, elem_of_nil in Hk. by destruct Hk as [->|[->|[->|[->|[]]]]].
  - unfold newRoot, sections. simpl.
    unfold knownSection in Hk. rewrite !orb_false_iff, !bool_decide_eq_false in Hk.
    destruct Hk as [[[? ?] ?] ?]. rewrite !lookup_insert_ne by done. apply lookup_empty.
Qed.

Lemma wf_NewState : wf_state NewState.
Proof. intros sec Hs%elem_of_sections. exists ∅. simpl. by rewrite lookup_newRoot, Hs. Qed.

Lemma ensureSection_id r sec m : r !! sec = Some (VMap m) → ensureSection r sec = r.
Proof. unfold ensureSection. by intros ->. Qed.

Lemma ensureRootSections_id s : wf_state s → ensureRootSections s = s.
Proof.
  intros Hs. unfold ensureRootSections. destruct s as [r]. f_equal. simpl in *.
  assert (∀ l, (∀ x, x ∈ l → x ∈ sections) → foldl ensureSection r l = r) as Hl; [|by apply (Hl sections)].
  induction l as [|x l IH]; intros Hl; simpl; [done|].
  destruct (Hs x) as [m Hm]; [apply Hl; left|].
  rewrite (ensureSection_id r x m Hm). apply IH. intros y Hy. apply Hl. by right.
Qed.

Lemma lookup_ensureSection_ne r sec k : k ≠ sec → ensureSection r sec !! k = r !! k.
Proof.
  intros Hne. unfold ensureSection.
  destruct (r !! sec) as [[]|]; rewrite ?lookup_insert_ne; done.
Qed.

Lemma lookup_ensureRootSections s k :
  root (ensureRootSections s) !! k =
  if knownSection k then
    match root s !! k with
    | Some (VMap m) => Some (VMap m)
    | Some VNilMap => Some VNilMap
    | _ => Some (VMap ∅)
    end
  else root s !! k.
Proof.
  unfold ensureRootSections. simpl.
  assert (∀ r, ensureSection r k !! k = match r !! k with
    | Some (VMap m) => Some (VMap m) | Some VNilMap => Some VNilMap
    | _ => Some (VMap ∅) end) as Hk.
  { intros r. unfold ensureSection. destruct (r !! k) as [[]|] eqn:E;
      rewrite ?E, ?lookup_insert_eq; done. }
  destruct (knownSection k) eqn:Hknown.
  - apply elem_of_sections in Hknown. unfold sections in Hknown.
    rewrite !elem_of_cons, elem_of_nil in Hknown.
    destruct Hknown as [->|[->|[->|[->|[]]]]];
      repeat (rewrite lookup_ensureSection_ne by done); rewrite Hk;
      repeat (rewrite lookup_ensureSection_ne by done); done.
  - unfold knownSection in Hknown. rewrite !orb_false_iff, !bool_decide_eq_false in Hknown.
    destruct Hknown as [[[? ?] ?] ?]. by rewrite !lookup_ensureSection_ne.
Qed.

Lemma wf_FromMap input : wf_state (FromMap input).
Proof.
  intros sec Hs. unfold FromMap. rewrite lookup_ensureRootSections.
  apply elem_of_sections in Hs. rewrite Hs. simpl. rewrite lookup_mergeMap, lookup_newRoot, Hs.
  destruct (input !! sec) as [[]|]; simpl; eauto.
Qed.

Lemma wf_FromShared shared : wf_state (FromShared shared).
Proof.
  intros sec Hs%elem_of_sections. simpl. destruct (decide (sec = SectionShared)) as [->|Hne].
  - rewrite lookup_insert_eq. eauto.
  - rewrite lookup_insert_ne, lookup_newRoot, Hs by done. eauto.
Qed.

(** On a well-formed state copying is the identity. *)
Lemma FromMap_wf_id s : wf_state s → FromMap (root s) = s.
Proof.
  intros Hs. unfold FromMap. destruct s as [r]. simpl.
  assert (mergeMap newRoot r = r) as ->; [|by apply ensureRootSections_id].
  apply map_eq. intros k. rewrite lookup_mergeMap, lookup_newRoot.
  destruct (knownSection k) eqn:Hk.
  - destruct (Hs k) as [m Hm]; [by apply elem_of_sections|]. simpl in Hm. rewrite Hm.
    by rewrite merge_value_map, mergeMap_empty_l.
  - destruct (r !! k); [by rewrite merge_value_None|done].
Qed.

Lemma Clone_id s : wf_state s → Clone (Some s) = s.
Proof. apply FromMap_wf_id. Qed.

Lemma wf_Clone s : wf_state (Clone s).
Proof. destruct s; [apply wf_FromMap | apply wf_NewState]. Qed.

Lemma CloneStrict_ok s s' : wf_state s → CloneStrict (Some s) = Ok s' → s' = s.
Proof.
  intros Hs. unfold CloneStrict. destruct (cloneable _); [|done].
  intros [= <-]. by apply ensureRootSections_id.
Qed.

#[export] Hint Resolve wf_NewState wf_FromMap wf_FromShared wf_Clone : weave.

(** ** Editing one entry

    Both callers of [parentMap] replace one entry of the map it returns:
    [set] by a value, creating the objects on the way, [delete] by nothing. *)

Section edit.
Implicit Types (e : option value) (m : vmap).

Definition creates e : bool := match e with Some _ => true | None => false end.

Definition edit e (pre : list string) m (segs : list string) : result (list string) vmap :=
  match segs with
  | [] => Ok m
  | seg :: rest =>
    update_parent (creates e) pre m seg rest (λ m k, partial_alter (λ _, e) k m)
  end.

(** The equation the proofs below follow. *)
Lemma edit_cons e pre m seg seg' rest :
  edit e pre m (seg :: seg' :: rest) =
  match m !! seg with
  | Some (VMap sub) =>
    let* sub' := edit e (pre ++ [seg]) sub (seg' :: rest) in Ok (<[seg := VMap sub']> m)
  | None | Some VNilMap =>
    if creates e then
      let* sub' := edit e (pre ++ [seg]) ∅ (seg' :: rest) in Ok (<[seg := VMap sub']> m)
    else Ok m
  | Some _ => if creates e then Err (pre ++ [seg]) else Ok m
  end.
Proof. done. Qed.

Lemma edit_one e pre m seg : edit e pre m [seg] = Ok (partial_alter (λ _, e) seg m).
Proof. done. Qed.

(** What the edit does to the one slot it changes; [None] is an error. *)
Fixpoint slot_edit e (segs : list string) (o : option value) : option (option value) :=
  match segs with
  | [] => Some e
  | s :: rest =>
    let descend sub :=
      r ← slot_edit e rest (sub !! s); Some (Some (VMap (partial_alter (λ _, r) s sub))) in
    match o with
    | Some (VMap sub) => descend sub
    | None | Some VNilMap => if creates e then descend ∅ else Some o
    | Some _ => if creates e then None else Some o
    end
  end.

Lemma partial_alter_same (m : vmap) k o : m !! k = o → partial_alter (λ _, o) k m = m.
Proof. intros <-. apply partial_alter_self. Qed.

Lemma edit_slot e pre m seg rest m' :
  edit e pre m (seg :: rest) = Ok m' ↔
  ∃ o, slot_edit e rest (m !! seg) = Some o ∧ m' = partial_alter (λ _, o) seg m.
Proof.
  revert pre m seg m'. induction rest as [|seg' rest IH]; intros pre m seg m'.
  - rewrite edit_one. simpl. naive_solver.
  - rewrite edit_cons.
    assert (∀ sub, (let* sub' := edit e (pre ++ [seg]) sub (seg' :: rest) in
        Ok (<[seg:=VMap sub']> m)) = Ok m' ↔
      ∃ o, (r ← slot_edit e rest (sub !! seg');
            Some (Some (VMap (partial_alter (λ _, r) seg' sub)))) = Some o
           ∧ m' = partial_alter (λ _, o) seg m) as Hd.
    { intros sub. rewrite result_bind_Ok. setoid_rewrite bind_Some. split.
      - intros (sub' & (o & Ho & ->)%IH & [= <-]). eexists. split; [eauto|done].
      - intros (o & (r & Hr & [= <-]) & ->).
        exists (partial_alter (λ _, r) seg' sub). split; [apply IH; eauto|done]. }
    simpl. destruct (m !! seg) as [v|] eqn:Hm.
    + assert (Ok (E := list string) m = Ok m' ↔
        ∃ o, Some (Some v) = Some o ∧ m' = partial_alter (λ _, o) seg m) as Hstay.
      { split.
        - intros [= <-]. eexists. split; [done|]. symmetry. by apply partial_alter_same.
        - intros (o & [= <-] & ->). by rewrite partial_alter_same. }
      unfold edit in Hd; destruct v; try apply Hd; destruct (creates e) in Hd |- *;
        try apply Hd; try apply Hstay; (split; [discriminate | intros (? & ? & _); discriminate]).
    + unfold edit in Hd. destruct (creates e) in Hd |- *; [apply Hd|]. split.
      * intros [= <-]. eexists. split; [done|]. symmetry. by apply partial_alter_same.
      * intros (o & [= <-] & ->). by rewrite partial_alter_same.
Qed.

Definition get_slot (o : option value) (segs : list string) : option value :=
  match o with None => None | Some v => get_in v segs end.

Lemma get_slot_cons o s segs :
  get_slot o (s :: segs) =
  match o with Some (VMap m) => get_slot (m !! s) segs | _ => None end.
Proof. by destruct o as [[]|]. Qed.

(** Reading the edited entry. *)
Lemma slot_edit_same e segs o o' : slot_edit e segs o = Some o' → get_slot o' segs = e.
Proof.
  revert o o'. induction segs as [|s segs IH]; intros o o'.
  - simpl. intros [= <-]. by destruct e.
  - rewrite get_slot_cons. simpl. intros H.
    destruct o as [[]|]; try (destruct e; simpl in H; [|by simplify_eq]); try done;
      apply bind_Some in H as (r & Hr & [= <-]); rewrite lookup_partial_alter_eq;
      by eapply IH.
Qed.

(** Reading elsewhere: below another segment at the first difference. *)
Lemma slot_edit_frame e l a r1 b r2 o o' :
  a ≠ b → slot_edit e (l ++ a :: r1) o = Some o' →
  get_slot o' (l ++ b :: r2) = get_slot o (l ++ b :: r2).
Proof.
  intros Hab. revert o o'. induction l as [|x l IH]; intros o o'; simpl app;
    rewrite !get_slot_cons; simpl; intros H.
  - destruct o as [[]|]; try (destruct e; simpl in H; [|by simplify_eq]); try done;
      apply bind_Some in H as (r & Hr & [= <-]); by rewrite lookup_partial_alter_ne.
  - destruct o as [[]|]; try (destruct e; simpl in H; [|by simplify_eq]); try done;
      apply bind_Some in H as (r & Hr & [= <-]); rewrite lookup_partial_alter_eq;
      rewrite (IH _ _ Hr); by rewrite ?lookup_empty.
Qed.

Lemma slot_edit_delete_None segs : slot_edit None segs None = Some None.
Proof. by destruct segs. Qed.

(** A slot holding no map at all: nothing, or the nil map. *)
Definition blank (o : option value) : Prop := o = None ∨ o = Some VNilMap.

Lemma slot_edit_blank e s segs o : blank o →
  slot_edit e (s :: segs) o =
  if creates e then
    r ← slot_edit e segs None; Some (Some (VMap (partial_alter (λ _, r) s ∅)))
  else Some o.
Proof. intros [->| ->]; simpl; by rewrite lookup_empty. Qed.

Lemma slot_edit_map e s segs m :
  slot_edit e (s :: segs) (Some (VMap m)) =
  r ← slot_edit e segs (m !! s); Some (Some (VMap (partial_alter (λ _, r) s m))).
Proof. done. Qed.

Lemma slot_cases o :
  (∃ m, o = Some (VMap m)) ∨ blank o ∨
  (∀ e s segs, slot_edit e (s :: segs) o = if creates e then None else Some o).
Proof. unfold blank. destruct o as [[]|]; eauto; right; right; done. Qed.

Lemma not_creates e : creates e = false → e = None.
Proof. by destruct e. Qed.

(** Edits below different segments of one object. *)
Lemma slot_edit_comm_head e1 e2 a r1 b r2 o o1 o2 :
  a ≠ b → slot_edit e1 (a :: r1) o = Some o1 → slot_edit e2 (b :: r2) o1 = Some o2 →
  ∃ o1', slot_edit e2 (b :: r2) o = Some o1' ∧ slot_edit e1 (a :: r1) o1' = Some o2.
Proof.
  intros Hab H1 H2. destruct (slot_cases o) as [[m ->]|[Hb|Ho]].
  - rewrite slot_edit_map in H1. apply bind_Some in H1 as (x & Hx & [= <-]).
    rewrite slot_edit_map, lookup_partial_alter_ne in H2 by done.
    apply bind_Some in H2 as (y & Hy & [= <-]).
    rewrite slot_edit_map, Hy. eexists. split; [done|].
    rewrite slot_edit_map, lookup_partial_alter_ne, Hx by done. simpl.
    do 3 f_equal. apply partial_alter_partial_alter_ne; congruence.
  - rewrite slot_edit_blank in H1 |- * by done.
    destruct (creates e1) eqn:E1.
    + apply bind_Some in H1 as (x & Hx & [= <-]).
      rewrite slot_edit_map, lookup_partial_alter_ne, lookup_empty in H2 by done.
      apply bind_Some in H2 as (y & Hy & [= <-]).
      destruct (creates e2) eqn:E2.
      * rewrite Hy. eexists. split; [done|].
        rewrite slot_edit_map, lookup_partial_alter_ne, lookup_empty, Hx by done. simpl.
        do 3 f_equal. apply partial_alter_partial_alter_ne; congruence.
      * apply not_creates in E2 as ->. rewrite slot_edit_delete_None in Hy.
        injection Hy as <-. eexists. split; [done|].
        rewrite slot_edit_blank, E1, Hx by done. simpl. do 3 f_equal. symmetry.
        apply partial_alter_same. by rewrite lookup_partial_alter_ne, lookup_empty.
    + injection H1 as <-. rewrite slot_edit_blank in H2 by done.
      apply not_creates in E1 as ->. destruct (creates e2).
      * rewrite H2. eexists. split; [done|].
        apply bind_Some in H2 as (y & Hy & [= <-]).
        rewrite slot_edit_map, lookup_partial_alter_ne, lookup_empty by done.
        rewrite slot_edit_delete_None. simpl. do 3 f_equal.
        apply partial_alter_same. by rewrite lookup_partial_alter_ne, lookup_empty.
      * injection H2 as <-. eexists. split; [done|]. by rewrite slot_edit_blank.
  - rewrite Ho in H1 |- *. destruct (creates e1) eqn:E1; [done|]. injection H1 as <-.
    rewrite Ho in H2. destruct (creates e2); [done|]. injection H2 as <-.
    eexists. split; [done|]. by rewrite Ho, E1.
Qed.

(** Edits of entries that part ways at some segment commute. *)
Lemma slot_edit_comm e1 e2 l a r1 b r2 o o1 o2 :
  a ≠ b →
  slot_edit e1 (l ++ a :: r1) o = Some o1 → slot_edit e2 (l ++ b :: r2) o1 = Some o2 →
  ∃ o1', slot_edit e2 (l ++ b :: r2) o = Some o1' ∧
         slot_edit e1 (l ++ a :: r1) o1' = Some o2.
Proof.
  intros Hab. revert e1 e2 o o1 o2. induction l as [|x l IH]; intros e1 e2 o o1 o2; simpl app.
  { by apply slot_edit_comm_head. }
  intros H1 H2. destruct (slot_cases o) as [[m ->]|[Hb|Ho]].
  - rewrite slot_edit_map in H1. apply bind_Some in H1 as (u & Hu & [= <-]).
    rewrite slot_edit_map, lookup_partial_alter_eq in H2.
    apply bind_Some in H2 as (w & Hw & [= <-]).
    destruct (IH _ _ _ _ _ Hu Hw) as (u' & Hu' & Hw').
    rewrite slot_edit_map, Hu'. eexists. split; [done|].
    rewrite slot_edit_map, lookup_partial_alter_eq, Hw'. simpl.
    do 3 f_equal. by rewrite !partial_alter_partial_alter_eq.
  - rewrite slot_edit_blank in H1 |- * by done. destruct (creates e1) eqn:E1.
    + apply bind_Some in H1 as (u & Hu & [= <-]).
      rewrite slot_edit_map, lookup_partial_alter_eq in H2.
      apply bind_Some in H2 as (w & Hw & [= <-]).
      destruct (IH _ _ _ _ _ Hu Hw) as (u' & Hu' & Hw').
      destruct (creates e2) eqn:E2.
      * rewrite Hu'. eexists. split; [done|].
        rewrite slot_edit_map, lookup_partial_alter_eq, Hw'. simpl.
        do 3 f_equal. by rewrite !partial_alter_partial_alter_eq.
      * apply not_creates in E2 as ->. rewrite slot_edit_delete_None in Hu'.
        injection Hu' as <-. eexists. split; [done|].
        rewrite slot_edit_blank, E1, Hw' by done. simpl.
        do 3 f_equal. by rewrite partial_alter_partial_alter_eq.
    + injection H1 as <-. apply not_creates in E1 as ->.
      rewrite slot_edit_blank in H2 by done. destruct (creates e2) eqn:E2.
      * rewrite H2. eexists. split; [done|].
        apply bind_Some in H2 as (w & Hw & [= <-]).
        destruct (IH None e2 None None w (slot_edit_delete_None _) Hw) as (u' & Hu' & Hw').
        rewrite Hw in Hu'. injection Hu' as <-.
        rewrite slot_edit_map, lookup_partial_alter_eq, Hw'. simpl.
        do 3 f_equal. by rewrite partial_alter_partial_alter_eq.
      * injection H2 as <-. eexists. split; [done|]. by rewrite slot_edit_blank.
  - rewrite Ho in H1 |- *. destruct (creates e1) eqn:E1; [done|]. injection H1 as <-.
    rewrite Ho in H2. destruct (creates e2); [done|]. injection H2 as <-.
    eexists. split; [done|]. by rewrite Ho, E1.
Qed.
End edit.

(** ** Edits of the whole envelope *)

(** Where a path leads from the root. *)
Definition full_path (p : Path) : list string := section p :: segments p.

Definition state_edit (s : State) (p : Path) (e : option value) : option State :=
  match slot_edit e (full_path p) (Some (VMap (root s))) with
  | Some (Some (VMap r)) => Some (MkState r)
  | _ => None
  end.

Lemma state_edit_slot s p e s' :
  state_edit s p e = Some s' ↔
  slot_edit e (full_path p) (Some (VMap (root s))) = Some (Some (VMap (root s'))).
Proof.
  unfold state_edit, full_path. rewrite slot_edit_map. split.
  - intros H. destruct (slot_edit e (segments p) _); [|done]. simpl in *. by injection H as <-.
  - intros H. rewrite H. by destruct s'.
Qed.

Lemma read_slot s p : wf_path p → read s p = get_slot (Some (VMap (root s))) (full_path p).
Proof.
  intros Hp. unfold read, full_path. rewrite (wf_not_empty p Hp), get_slot_cons.
  by destruct (root s !! section p).
Qed.

Lemma disjoint_full p q : wf_path p → wf_path q → disjoint_paths p q →
  ∃ l a b r1 r2, a ≠ b ∧ full_path p = l ++ a :: r1 ∧ full_path q = l ++ b :: r2.
Proof.
  intros Hp Hq Hd. unfold full_path.
  destruct (decide (section p = section q)) as [Hs|Hne].
  - destruct (disjoint_segments p q Hs (wf_section _ Hp) Hd) as (l & a & b & r1 & r2 & Hab & -> & ->).
    rewrite Hs. by exists (section q :: l), a, b, r1, r2.
  - by exists [], (section p), (section q), (segments p), (segments q).
Qed.

Lemma state_edit_read s p e s' : wf_path p → state_edit s p e = Some s' → read s' p = e.
Proof. intros Hp. rewrite state_edit_slot, read_slot by done. apply slot_edit_same. Qed.

Lemma state_edit_frame s p e s' q :
  wf_path p → wf_path q → disjoint_paths p q →
  state_edit s p e = Some s' → read s' q = read s q.
Proof.
  intros Hp Hq Hd. rewrite state_edit_slot, !read_slot by done.
  destruct (disjoint_full p q Hp Hq Hd) as (l & a & b & r1 & r2 & Hab & -> & ->).
  by apply slot_edit_frame.
Qed.

Lemma state_edit_comm s p e1 q e2 s1 s2 :
  wf_path p → wf_path q → disjoint_paths p q →
  state_edit s p e1 = Some s1 → state_edit s1 q e2 = Some s2 →
  ∃ s1', state_edit s q e2 = Some s1' ∧ state_edit s1' p e1 = Some s2.
Proof.
  intros Hp Hq Hd. setoid_rewrite state_edit_slot.
  destruct (disjoint_full p q Hp Hq Hd) as (l & a & b & r1 & r2 & Hab & Hfp & Hfq).
  rewrite Hfp, Hfq. intros H1 H2.
  destruct (slot_edit_comm _ _ _ _ _ _ _ _ _ _ Hab H1 H2) as (o & Ho & Ho2).
  assert (∃ r, o = Some (VMap r)) as [r ->].
  { rewrite <-Hfq in Ho. unfold full_path in Ho. rewrite slot_edit_map in Ho.
    apply bind_Some in Ho as (x & _ & [= <-]). eauto. }
  by exists (MkState r).
Qed.

(** The value an edit may leave at a path: a section stays an object. *)
Definition fits (p : Path) (e : option value) : Prop :=
  segments p = [] → ∃ m, e = Some (VMap m).

Lemma state_edit_wf s p e s' :
  wf_state s → fits p e → state_edit s p e = Some s' → wf_state s'.
Proof.
  intros Hs Hf. rewrite state_edit_slot. unfold full_path. rewrite slot_edit_map.
  intros (o & Ho & [= Hr])%bind_Some sec Hsec. rewrite <-Hr.
  destruct (decide (section p = sec)) as [<-|Hne].
  - rewrite lookup_partial_alter_eq. destruct (segments p) as [|seg rest] eqn:Hseg.
    + injection Ho as <-. by apply Hf.
    + destruct (Hs _ Hsec) as [m Hm]. rewrite Hm, slot_edit_map in Ho.
      apply bind_Some in Ho as (x & _ & [= <-]). eauto.
  - rewrite lookup_partial_alter_ne by done. by apply Hs.
Qed.

(** ** The operations as edits *)

Lemma parentMap_edit s p seg rest e s' :
  wf_state s → wf_path p → segments p = seg :: rest →
  parentMap (creates e) s p seg rest (λ m k, partial_alter (λ _, e) k m) = Ok s' ↔
  state_edit s p e = Some s'.
Proof.
  intros Hs [Hk _] Hseg. unfold parentMap. rewrite ensureRootSections_id by done.
  destruct (Hs (section p)) as [m Hm]; [by apply elem_of_sections|]. rewrite Hm.
  rewrite state_edit_slot. unfold full_path. rewrite slot_edit_map, Hm, Hseg, slot_edit_map.
  change (update_parent (creates e) [] m seg rest (λ m k, partial_alter (λ _, e) k m))
    with (edit e [] m (seg :: rest)).
  split.
  - destruct (edit e [] m (seg :: rest)) eqn:He; [|done]. intros [= <-].
    apply edit_slot in He as (o & Ho & ->). rewrite Ho. done.
  - intros (x & (o & Ho & [= <-])%bind_Some & [= Hr])%bind_Some.
    assert (edit e [] m (seg :: rest) = Ok (partial_alter (λ _, o) seg m)) as ->.
    { apply edit_slot. eauto. }
    destruct s' as [r]. simpl in *. by rewrite <-Hr.
Qed.

(** What [set] stores: at a section, the object; elsewhere the value. *)
Definition stored (p : Path) (v : value) : option value :=
  match segments p with
  | [] => VMap <$> asMap v
  | _ => Some v
  end.

Lemma set_edit s p v s' : wf_state s → wf_path p →
  set s p v = Ok s' ↔ ∃ w, stored p v = Some w ∧ state_edit s p (Some w) = Some s'.
Proof.
  intros Hs Hp. unfold set, stored. rewrite (wf_not_empty p Hp).
  destruct (segments p) as [|seg rest] eqn:Hseg.
  - rewrite ensureRootSections_id by done. unfold state_edit, full_path. rewrite Hseg.
    destruct (asMap v); simpl; [|naive_solver]. split.
    + intros [= <-]. by eexists.
    + intros (w & [= <-] & [= <-]). done.
  - rewrite (parentMap_edit s p seg rest (Some v)) by done. naive_solver.
Qed.

Lemma delete_edit s p s' : wf_state s → wf_path p →
  delete_path s p = Ok s' ↔
  state_edit s p (match segments p with [] => Some (VMap ∅) | _ => None end) = Some s'.
Proof.
  intros Hs Hp. unfold delete_path. rewrite (wf_not_empty p Hp).
  destruct (segments p) as [|seg rest] eqn:Hseg.
  - rewrite ensureRootSections_id by done. unfold state_edit, full_path. rewrite Hseg.
    simpl. naive_solver.
  - by rewrite (parentMap_edit s p seg rest None).
Qed.

Lemma stored_fits p v w : stored p v = Some w → fits p (Some w).
Proof. unfold stored, fits. intros H Hn. rewrite Hn in H. destruct (asMap v); simplify_eq/=. eauto. Qed.

Lemma set_wf s p v s' : wf_state s → wf_path p → set s p v = Ok s' → wf_state s'.
Proof.
  intros Hs Hp. rewrite set_edit by done. intros (w & Hw & He).
  refine (state_edit_wf _ _ _ _ Hs _ He). by eapply stored_fits.
Qed.

Lemma delete_wf s p s' : wf_state s → wf_path p → delete_path s p = Ok s' → wf_state s'.
Proof.
  intros Hs Hp. rewrite delete_edit by done. intros He.
  refine (state_edit_wf _ _ _ _ Hs _ He). intros ->. eauto.
Qed.

Lemma set_read s p v s' : wf_state s → wf_path p → set s p v = Ok s' →
  read s' p = stored p v.
Proof.
  intros Hs Hp. rewrite set_edit by done. intros (w & Hw & He). rewrite Hw.
  by eapply state_edit_read.
Qed.

Lemma set_frame s p v s' q : wf_state s → wf_path p → wf_path q → disjoint_paths p q →
  set s p v = Ok s' → read s' q = read s q.
Proof.
  intros Hs Hp Hq Hd. rewrite set_edit by done. intros (w & _ & He).
  exact (state_edit_frame _ _ _ _ _ Hp Hq Hd He).
Qed.

Lemma merge_set s p v s' : wf_path p → merge_path s p v = Ok s' →
  set s p (merge_value v (read s p)) = Ok s'.
Proof.
  intros Hp. unfold merge_path. rewrite (wf_not_empty p Hp).
  destruct (asMap v); [|done]. destruct (read s p) as [c|].
  - by destruct (asMap c).
  - by rewrite merge_value_None.
Qed.

Lemma merge_wf s p v s' : wf_state s → wf_path p → merge_path s p v = Ok s' → wf_state s'.
Proof. intros Hs Hp Hm. eapply set_wf; [done..|]. by apply merge_set. Qed.

Lemma append_wf s p v s' : wf_state s → wf_path p → appendPathValue s p v = Ok s' → wf_state s'.
Proof.
  intros Hs Hp. unfold appendPathValue. destruct (read s p); [|by apply set_wf].
  destruct (appendValue _ _); [by apply set_wf|done].
Qed.

Lemma MergeResumeInput_wf base input : wf_state (MergeResumeInput base input).
Proof.
  destruct input as [i|]; [|destruct base; simpl; auto with weave].
  intros sec Hsec. unfold MergeResumeInput. rewrite lookup_ensureRootSections.
  apply elem_of_sections in Hsec. rewrite Hsec. simpl. rewrite lookup_mergeMap.
  assert (∃ m, root (match base with Some _ => Clone base | None => NewState end) !! sec
    = Some (VMap m)) as [m ->].
  { apply elem_of_sections in Hsec. destruct base; [by apply wf_Clone | by apply wf_NewState]. }
  destruct (root i !! sec) as [[]|]; simpl; eauto.
Qed.

#[export] Hint Resolve MergeResumeInput_wf set_wf delete_wf merge_wf append_wf : weave.

(** ** Reading above and below *)

Lemma read_below s p q rest x :
  wf_path p → wf_path q → section p = section q → segments p = segments q ++ rest →
  read s q = Some x → read s p = get_in x rest.
Proof.
  intros Hp Hq Hs Hr. rewrite !read_slot by done. unfold full_path.
  rewrite Hs, Hr, !get_slot_cons. intros Hx.
  destruct (root s !! section q) as [v|]; [|done]. simpl in *. by rewrite get_in_app, Hx.
Qed.

(** A path below which something is read is an object. *)
Lemma read_above_object s p q x y :
  wf_path p → wf_path q → pathWithin p q = true → p ≠ q →
  read s p = Some x → read s q = Some y → ∃ m, y = VMap m.
Proof.
  intros Hp Hq (_ & Hs & rest & Hr)%pathWithin_spec Hne Hx Hy.
  rewrite (read_below s p q rest y Hp Hq Hs Hr Hy) in Hx.
  destruct rest as [|r rest].
  - destruct Hne. rewrite app_nil_r in Hr. destruct p, q; simpl in *; congruence.
  - simpl in Hx. destruct y; try done. eauto.
Qed.

(** Where something is read, every path above reads too. *)
Lemma read_above s p q x :
  wf_path p → wf_path q → pathWithin p q = true → read s p = Some x → is_Some (read s q).
Proof.
  intros Hp Hq (_ & Hs & rest & Hr)%pathWithin_spec. rewrite !read_slot by done.
  unfold full_path. rewrite Hs, Hr, !get_slot_cons. intros Hx.
  destruct (root s !! section q) as [v|]; [|done]. simpl in *.
  rewrite get_in_app in Hx. destruct (get_in v (segments q)); [by eexists|done].
Qed.

(** ** When an update fails *)

(** The walk of [parentMap] fails exactly where it meets a value that is not
    an object, and reports the path down to it. *)
Lemma update_parent_Err pre m seg rest leaf parent :
  update_parent true pre m seg rest leaf = Err parent →
  ∃ l s r x, seg :: rest = l ++ s :: r ∧ l ≠ [] ∧ parent = pre ++ l ∧
             get_in (VMap m) l = Some x ∧ asMap x = None.
Proof.
  revert pre m seg. induction rest as [|seg' rest IH]; intros pre m seg; simpl; [done|].
  assert (∀ sub, (let* sub' := update_parent true (pre ++ [seg]) sub seg' rest leaf in
      Ok (<[seg:=VMap sub']> m)) = Err parent →
    ∃ l s r x, seg' :: rest = l ++ s :: r ∧ l ≠ [] ∧ parent = (pre ++ [seg]) ++ l ∧
      get_in (VMap sub) l = Some x ∧ asMap x = None) as Hd.
  { intros sub. destruct (update_parent _ _ _ _ _ _) eqn:E; [done|].
    intros [= ->]. by apply IH. }
  assert (∀ sub, m !! seg = Some (VMap sub) →
    (∃ l s r x, seg' :: rest = l ++ s :: r ∧ l ≠ [] ∧ parent = (pre ++ [seg]) ++ l ∧
      get_in (VMap sub) l = Some x ∧ asMap x = None) →
    ∃ l s r x, seg :: seg' :: rest = l ++ s :: r ∧ l ≠ [] ∧ parent = pre ++ l ∧
      get_in (VMap m) l = Some x ∧ asMap x = None) as Hdown.
  { intros sub Hm (l & s & r & x & Hl & Hne & -> & Hg & Hx).
    exists (seg :: l), s, r, x. rewrite Hl, <-app_assoc. simpl. by rewrite Hm. }
  assert (∀ x, m !! seg = Some x → asMap x = None →
    ∃ l s r y, seg :: seg' :: rest = l ++ s :: r ∧ l ≠ [] ∧ pre ++ [seg] = pre ++ l ∧
      get_in (VMap m) l = Some y ∧ asMap y = None) as Hhere.
  { intros x Hm Hx. exists [seg], seg', rest, x. simpl. by rewrite Hm. }
  assert (∀ l x, l ≠ [] → get_in (VMap ∅) l = Some x → False) as Hempty.
  { intros [|k l] x Hne; simpl; [done|]. by rewrite lookup_empty. }
  destruct (m !! seg) as [v|] eqn:Hm.
  - destruct v as [| | | | | | | | |sub|];
      try (intros [= <-]; by eapply Hhere).
    + intros (l & s & r & x & _ & Hne & _ & Hg & _)%Hd. destruct (Hempty _ _ Hne Hg).
    + intros H%Hd. by eapply Hdown.
  - intros (l & s & r & x & _ & Hne & _ & Hg & _)%Hd. destruct (Hempty _ _ Hne Hg).
Qed.

Lemma set_Err s p v err : wf_state s → wf_path p → set s p v = Err err →
  (segments p = [] ∧ asMap v = None ∧ err = ESectionNotObject (section p)) ∨
  ∃ l s1 r x, segments p = l ++ s1 :: r ∧ l ≠ [] ∧
    err = ETraversesNonObject p (MkPath (section p) l) ∧
    read s (MkPath (section p) l) = Some x ∧ asMap x = None.
Proof.
  intros Hs Hp. unfold set. rewrite (wf_not_empty p Hp).
  destruct (segments p) as [|seg rest] eqn:Hseg.
  { destruct (asMap v) eqn:Ha; [done|]. intros [= <-]. by left. }
  unfold parentMap. rewrite ensureRootSections_id by done.
  pose proof Hp as [Hk _]. destruct (Hs (section p)) as [m Hm]; [by apply elem_of_sections|].
  rewrite Hm. destruct (update_parent _ _ _ _ _ _) eqn:E; [done|]. intros [= <-]. right.
  apply update_parent_Err in E as (l & s1 & r & x & Hl & Hne & -> & Hg & Hx).
  exists l, s1, r, x. split_and!; [done..| |done].
  unfold read, Empty. simpl. rewrite Hm, bool_decide_false by (by apply wf_section). done.
Qed.

Lemma edit_None pre m seg rest :
  ∃ m', update_parent false pre m seg rest (λ m k, delete k m) = Ok m'.
Proof.
  revert pre m seg. induction rest as [|seg' rest IH]; intros pre m seg; simpl; [eauto|].
  destruct (m !! seg) as [[]|]; eauto.
  match goal with |- context [update_parent false ?p ?x _ _ _] =>
    destruct (IH p x seg') as [m' ->] end. simpl. eauto.
Qed.

(** Deleting never fails. *)
Lemma delete_total s p : wf_state s → wf_path p → ∃ s', delete_path s p = Ok s'.
Proof.
  intros Hs Hp. unfold delete_path. rewrite (wf_not_empty p Hp).
  destruct (segments p) as [|seg rest]; [eauto|]. unfold parentMap.
  destruct (root (ensureRootSections s) !! section p) as [[]|]; eauto.
  match goal with |- context [update_parent false ?p ?x _ _ _] =>
    destruct (edit_None p x seg rest) as [m' ->] end. eauto.
Qed.

(** ** Merging two envelopes *)

Lemma get_in_merge_hit segs : ∀ o t v,
  get_in o segs = Some v → asMap v = None →
  (∀ l r, segs = l ++ r → get_slot t l ≠ Some VNilMap) →
  get_in (merge_value o t) segs = Some v.
Proof.
  induction segs as [|s segs IH]; intros o t v Hv Ha Ht.
  - simpl in *. injection Hv as ->. by destruct v, t as [[]|].
  - destruct o as [| | | | | | | | |om|]; try done. simpl in Hv.
    destruct (om !! s) as [w|] eqn:Hw; [|done].
    destruct t as [[| | | | | | | | |tm|]|]; try (simpl; by rewrite Hw).
    + by destruct (Ht [] (s :: segs)).
    + rewrite merge_value_map. simpl. rewrite lookup_mergeMap, Hw. apply IH; [done..|].
      intros l r ->. specialize (Ht (s :: l) r eq_refl). by rewrite get_slot_cons in Ht.
Qed.

Lemma get_in_merge_miss segs : ∀ o t,
  get_in o segs = None →
  (∀ l r x, segs = l ++ r → get_in o l = Some x → asMap x ≠ None) →
  get_in (merge_value o t) segs = get_slot t segs.
Proof.
  induction segs as [|s segs IH]; intros o t Hv Ho; [done|].
  pose proof (Ho [] (s :: segs) o eq_refl eq_refl) as Hobj.
  destruct o as [| | | | | | | | |om|]; try done.
  - by destruct t as [[]|].
  - simpl in Hv. destruct t as [[| | | | | | | | |tm|]|]; try done.
    rewrite merge_value_map, get_slot_cons. simpl. rewrite lookup_mergeMap.
    destruct (om !! s) as [w|] eqn:Hw; [|done]. apply IH; [done|].
    intros l r x -> Hx. apply (Ho (s :: l) r x eq_refl). simpl. by rewrite Hw.
Qed.

Lemma MergeResumeInput_root base input : wf_state base → wf_state input →
  MergeResumeInput (Some base) (Some input) = MkState (mergeMap (root base) (root input)).
Proof.
  intros Hb Hi. unfold MergeResumeInput. rewrite Clone_id by done. simpl.
  apply ensureRootSections_id. intros sec Hsec.
  destruct (Hb _ Hsec) as [m Hm], (Hi _ Hsec) as [m' Hm']. simpl.
  rewrite lookup_mergeMap, Hm, Hm', merge_value_map. eauto.
Qed.

Lemma read_merged (b i : vmap) p : wf_path p →
  read (MkState (mergeMap b i)) p = get_in (merge_value (VMap i) (Some (VMap b))) (full_path p).
Proof. intros Hp. by rewrite read_slot. Qed.

Lemma full_path_prefix p l r : wf_path p → full_path p = l ++ r → l ≠ [] →
  ∃ q, full_path q = l ∧ wf_path q ∧ pathWithin p q = true.
Proof.
  intros Hp Hl Hne. destruct l as [|x l]; [done|]. injection Hl as Hx Hl.
  pose proof Hp as [Hk Hs]. exists (MkPath x l). split_and!; [done|..].
  - subst x. split; [done|]. simpl. rewrite Hl, Forall_app in Hs. tauto.
  - apply pathWithin_spec. split_and!; [by apply wf_section|done|]. simpl. eauto.
Qed.

(** No nil map is stored at the path or above it. *)
Definition no_nil_map (s : State) (p : Path) : Prop :=
  ∀ q, wf_path q → pathWithin p q = true → read s q ≠ Some VNilMap.

(** ** Properties *)

(** [set] is an update: on a well-formed state it either stores the value,
    which then reads back, leaves every disjoint path as it was and keeps the
    state well-formed, or it fails, and then for one of two reasons only: a
    section is given a value that is not an object, or the error names the
    proper ancestor of the path that holds a value that is not an object. *)
Theorem set_update s p v :
  wf_state s → wf_path p →
  match set s p v with
  | Ok s' =>
    wf_state s' ∧ read s' p = stored p v ∧
    ∀ q, wf_path q → disjoint_paths p q → read s' q = read s q
  | Err err =>
    (segments p = [] ∧ asMap v = None ∧ err = ESectionNotObject (section p)) ∨
    ∃ parent x, pathWithin p parent = true ∧ parent ≠ p ∧
      err = ETraversesNonObject p parent ∧ read s parent = Some x ∧ asMap x = None
  end.
Proof.
  intros Hs Hp. destruct (set s p v) as [s'|err] eqn:E.
  - split_and!; [by eapply set_wf|by apply set_read with s|].
    intros q Hq Hd. by apply (set_frame s p v).
  - destruct (set_Err _ _ _ _ Hs Hp E) as [?|(l & s1 & r & x & Hl & Hne & -> & Hr & Hx)]; [by left|].
    right. exists (MkPath (section p) l), x. split_and!; [| |done..].
    + apply pathWithin_spec. split_and!; [by apply wf_section|done|]. eauto.
    + intros Heq. rewrite <-Heq in Hl. simpl in Hl.
      apply (f_equal length) in Hl. rewrite length_app in Hl. simpl in Hl. lia.
Qed.

(** [delete] never fails on a well-formed state: the path reads as missing
    afterwards, a whole section as the empty object, every disjoint path reads
    as before, and the state stays well-formed. *)
Theorem delete_update s p :
  wf_state s → wf_path p →
  ∃ s', delete_path s p = Ok s' ∧ wf_state s' ∧
    read s' p = (match segments p with [] => Some (VMap ∅) | _ => None end) ∧
    ∀ q, wf_path q → disjoint_paths p q → read s' q = read s q.
Proof.
  intros Hs Hp. destruct (delete_total s p Hs Hp) as [s' H]. exists s'.
  split_and!; [done|by eapply delete_wf|..].
  - apply delete_edit in H; [|done..]. exact (state_edit_read _ _ _ _ Hp H).
  - apply delete_edit in H; [|done..]. intros q Hq Hd.
    exact (state_edit_frame _ _ _ _ _ Hp Hq Hd H).
Qed.

(** Resuming a run merges the resume input over the base state: what is
    not an object in the input wins, what the input does not mention (it has
    only objects on the way down) stays as in the base, and resuming again
    with the same input changes nothing.  The first part needs that the base
    holds no nil map on the way: see [MergeResumeInput_nil_map]. *)
Theorem MergeResumeInput_overlay base input p :
  wf_state base → wf_state input → wf_path p →
  let merged := MergeResumeInput (Some base) (Some input) in
  wf_state merged ∧
  (∀ v, read input p = Some v → asMap v = None → no_nil_map base p → read merged p = Some v) ∧
  (read input p = None →
   (∀ q x, wf_path q → pathWithin p q = true → read input q = Some x → asMap x ≠ None) →
   read merged p = read base p) ∧
  MergeResumeInput (Some merged) (Some input) = merged.
Proof.
  intros Hb Hi Hp. cbv zeta. split; [apply MergeResumeInput_wf|].
  pose proof (MergeResumeInput_wf (Some base) (Some input)) as Hm.
  rewrite (MergeResumeInput_root base input Hb Hi) in *. split_and!.
  - intros v Hv Ha Hn. rewrite read_slot in Hv by done. rewrite read_merged by done.
    apply get_in_merge_hit; [done..|].
    intros l r Hl. destruct l as [|x l]; [done|].
    destruct (full_path_prefix p (x :: l) r) as (q & <- & Hq & Hw); [done..|].
    rewrite <-read_slot by done. by apply Hn.
  - intros Hv Ho. rewrite read_merged, (read_slot base) by done. rewrite read_slot in Hv by done.
    apply (get_in_merge_miss _ _ (Some _)); [done|].
    intros l r x Hl Hx. destruct l as [|y l]; [by injection Hx as <-|].
    destruct (full_path_prefix p (y :: l) r) as (q & Hq' & Hq & Hw); [done..|].
    apply (Ho q x Hq Hw). by rewrite read_slot, Hq'.
  - rewrite MergeResumeInput_root by done. simpl. by rewrite mergeMap_idemp.
Qed.

(** ** Concrete runs *)

Definition sample_path : Path := MkPath SectionShared ["a"; "b"].

Definition sample_state : State :=
  FromShared {[ "a" := VMap {[ "b" := VInt IInt 1 ]}; "n" := VNilMap ]}.

(** Merging an object onto a stored nil map drops it: [mergeMap] returns at
    once when its target is nil. *)
Example MergeResumeInput_nil_map :
  let input := FromShared {[ "n" := VMap {[ "x" := VInt IInt 1 ]} ]} in
  read input (MkPath SectionShared ["n"; "x"]) = Some (VInt IInt 1) ∧
  read (MergeResumeInput (Some sample_state) (Some input)) (MkPath SectionShared ["n"; "x"]) = None.
Proof. split; vm_compute; reflexivity. Qed.

Lemma set_update_witness :
  match set sample_state sample_path (VStr "x") with
  | Ok s' => read s' sample_path = Some (VStr "x")
  | Err _ => False
  end.
Proof.
  assert (wf_state sample_state) as Hs by apply wf_FromShared.
  assert (wf_path sample_path) as Hp by (by apply (bool_decide_unpack _)).
  pose proof (set_update sample_state sample_path (VStr "x") Hs Hp) as H.
  revert H. destruct (set sample_state sample_path (VStr "x")) as [s'|err] eqn:E.
  - intros (_ & Hr & _). exact Hr.
  - vm_compute in E. discriminate.
Defined.

Lemma delete_update_witness :
  ∃ s', delete_path sample_state sample_path = Ok s' ∧ read s' sample_path = None.
Proof.
  destruct (delete_update sample_state sample_path) as (s' & H & _ & Hr & _).
  - apply wf_FromShared.
  - by apply (bool_decide_unpack _).
  - exists s'. split; [exact H | exact Hr].
Defined.

Lemma MergeResumeInput_overlay_witness :
  let input := FromShared {[ "a" := VMap {[ "c" := VInt IInt 2 ]} ]} in
  read (MergeResumeInput (Some sample_state) (Some input)) (MkPath SectionShared ["a"; "c"])
  = Some (VInt IInt 2).
Proof.
  intros input.
  refine (proj1 (proj2 (MergeResumeInput_overlay sample_state input
    (MkPath SectionShared ["a"; "c"]) _ _ _)) (VInt IInt 2) _ _ _);
    [apply wf_FromShared..|by apply (bool_decide_unpack _)|reflexivity|reflexivity|].
  intros q Hq Hw. apply pathWithin_spec in Hw as (_ & Hsec & rest & Hrest). simpl in *.
  destruct q as [sec segs]. simpl in *. subst sec.
  destruct segs as [|x [|y [|z segs]]]; simplify_list_eq; vm_compute; discriminate.
Defined.
