(* ===== verification/Reducers.v ===== *)
(** * Built-in reducers: [state/reducer.go]

    Numbers are exact integers ([*big.Int] in the code) or [float64].  Integer
    sums never wrap: the result is stored at the narrowest of [int], [uint64]
    and [*big.Int] that holds it. *)

From S2P Require Import Prelude Values.
From Stdlib Require Import SpecFloat.

Inductive reduce_error :=
  | ECurrentNotNumeric (current : value)
  | EIncomingNotNumeric (incoming : value)
  | EMaxNotNumeric
  | EMessagesNotSlice
  | EReduceAppend (cause : append_error)
  | EReduceOther (message : string).

(** The [Reducer] interface. *)
Definition Reducer : Type := value → value → result reduce_error value.

Inductive numericValue := NInt (integer : Z) | NFloat (floating : spec_float).

Definition parseNumericValue (v : value) : option numericValue :=
  match v with
  | VNil => Some (NInt 0)
  | VInt _ z | VBig z => Some (NInt z)
  | VFloat f => Some (NFloat f)
  | _ => None
  end.

(** [numericValue.float64]: nearest even for integers. *)
Definition to_float64 (n : numericValue) : spec_float :=
  match n with
  | NInt z => binary_normalize 53 1024 z 0 false
  | NFloat f => f
  end.

Definition normalizeInteger (z : Z) : value :=
  if ((- 2 ^ 63 <=? z) && (z <=? 2 ^ 63 - 1))%Z then VInt IInt z
  else if ((0 <=? z) && (z <=? 2 ^ 64 - 1))%Z then VInt IUint64 z
  else VBig z.

Definition is_nil (v : value) : bool := match v with VNil => true | _ => false end.

Definition SumReducer : Reducer := λ current incoming,
  match parseNumericValue current, parseNumericValue incoming with
  | None, _ => Err (ECurrentNotNumeric current)
  | Some _, None => Err (EIncomingNotNumeric incoming)
  | Some (NInt a), Some (NInt b) => Ok (normalizeInteger (a + b))
  | Some l, Some r => Ok (VFloat (SFadd 53 1024 (to_float64 l) (to_float64 r)))
  end.

(** [numericRational]: numerator and denominator of a finite number. *)
Definition numericRational (n : numericValue) : option (Z * positive) :=
  match n with
  | NInt z => Some (z, 1%positive)
  | NFloat (S754_zero _) => Some (0%Z, 1%positive)
  | NFloat (S754_finite s m e) =>
    let num := if s then Zneg m else Zpos m in
    Some (if (0 <=? e)%Z then (num * 2 ^ e, 1%positive)%Z
          else (num, Z.to_pos (2 ^ (- e))))
  | NFloat _ => None
  end.

Definition compareNumericValues (l r : numericValue) : comparison :=
  match l, r with
  | NInt a, NInt b => (a ?= b)%Z
  | _, _ =>
    match numericRational l, numericRational r with
    | Some (a, p), Some (b, q) => (a * Zpos q ?= b * Zpos p)%Z
    | _, _ =>
      if SFltb (to_float64 r) (to_float64 l) then Gt
      else if SFltb (to_float64 l) (to_float64 r) then Lt
      else Eq
    end
  end.

Definition MaxReducer : Reducer := λ current incoming,
  if is_nil current then Ok incoming
  else match parseNumericValue current, parseNumericValue incoming with
       | Some l, Some r =>
         match compareNumericValues l r with Lt => Ok incoming | _ => Ok current end
       | _, _ => Err EMaxNotNumeric
       end.

Definition MessagesReducer : Reducer := λ current incoming,
  match anySlice current, anySlice incoming with
  | l, r =>
    if negb (is_nil current) && negb (bool_decide (is_Some l)) then Err EMessagesNotSlice
    else if negb (is_nil incoming) && negb (bool_decide (is_Some r)) then Err EMessagesNotSlice
    else if is_nil current then Ok (normalizeAppendSeed incoming)
    else match appendValue current incoming with
         | Ok v => Ok v
         | Err e => Err (EReduceAppend e)
         end
  end.

(** ** Integers *)

Lemma normalizeInteger_numeric z : parseNumericValue (normalizeInteger z) = Some (NInt z).
Proof. unfold normalizeInteger. by repeat case_match. Qed.

(** The integer kinds stay within their width. *)
Definition int_bounded (v : value) : Prop :=
  match v with VInt k z => in_range k z | _ => True end.

Lemma normalizeInteger_bounded z : int_bounded (normalizeInteger z).
Proof.
  unfold normalizeInteger, int_bounded, in_range.
  destruct ((- 2 ^ 63 <=? z)%Z && (z <=? 2 ^ 63 - 1)%Z) eqn:E1; simpl; [lia|].
  destruct ((0 <=? z)%Z && (z <=? 2 ^ 64 - 1)%Z) eqn:E2; simpl; [lia|done].
Qed.

Definition integer_of (v : value) : option Z :=
  match parseNumericValue v with Some (NInt z) => Some z | _ => None end.

Lemma SumReducer_integer c i a b :
  integer_of c = Some a → integer_of i = Some b →
  SumReducer c i = Ok (normalizeInteger (a + b)).
Proof.
  unfold integer_of, SumReducer.
  destruct (parseNumericValue c) as [[]|], (parseNumericValue i) as [[]|]; naive_solver.
Qed.

Lemma integer_of_normalize z : integer_of (normalizeInteger z) = Some z.
Proof. unfold integer_of. by rewrite normalizeInteger_numeric. Qed.

Lemma MaxReducer_choice c i v : MaxReducer c i = Ok v → v = c ∨ v = i.
Proof. unfold MaxReducer. repeat case_match; naive_solver. Qed.

Lemma MaxReducer_integer c i a b v :
  is_nil c = false → integer_of c = Some a → integer_of i = Some b →
  MaxReducer c i = Ok v → integer_of v = Some (Z.max a b).
Proof.
  unfold integer_of, MaxReducer. intros ->.
  destruct (parseNumericValue c) as [[x|]|] eqn:Hc, (parseNumericValue i) as [[y|]|] eqn:Hi;
    try done.
  intros [= ->] [= ->]. simpl. destruct (Z.compare_spec a b); intros [= <-];
    rewrite ?Hc, ?Hi; f_equal; lia.
Qed.

(** A sequence of reductions, as the merged operations at one path perform. *)
Definition reduce_all (r : Reducer) (c : value) (l : list value) : result reduce_error value :=
  foldM r c l.

Lemma reduce_sum_cons c v l n z :
  integer_of c = Some n → integer_of v = Some z →
  reduce_all SumReducer c (v :: l) = reduce_all SumReducer (normalizeInteger (n + z)) l.
Proof. intros Hc Hv. unfold reduce_all. simpl. by rewrite (SumReducer_integer _ _ _ _ Hc Hv). Qed.

Definition integral (v : value) : Prop := is_Some (integer_of v).

(** The sum in closed form. *)
Lemma SumReducer_closed c l n :
  integer_of c = Some n → Forall integral l →
  reduce_all SumReducer c l =
  Ok (match l with [] => c | _ => normalizeInteger (foldr Z.add n (omap integer_of l)) end).
Proof.
  intros Hc Hl. revert c n Hc. induction Hl as [|x l [z Hx] Hl IH]; intros c n Hc; [done|].
  rewrite (reduce_sum_cons _ _ _ _ _ Hc Hx), (IH _ _ (integer_of_normalize _)). f_equal.
  simpl. rewrite Hx. simpl.
  assert (∀ m k zs, foldr Z.add (m + k)%Z zs = (k + foldr Z.add m zs)%Z) as Hz.
  { intros m k zs. induction zs as [|y zs IHz]; simpl; lia. }
  rewrite <-Hz. by destruct l.
Qed.

Lemma foldr_add_permutation n zs zs' : zs ≡ₚ zs' → foldr Z.add n zs = foldr Z.add n zs'.
Proof. induction 1; simpl; lia. Qed.

(** Integer sums are exact: reducing any values of integer kind with
    [SumReducer] never fails and never wraps, the result is the mathematical
    sum in a kind wide enough for it, and it does not depend on the order in
    which the values arrive. *)
Theorem SumReducer_exact c l n :
  integer_of c = Some n → Forall integral l →
  ∃ v, reduce_all SumReducer c l = Ok v ∧
    integer_of v = Some (foldr Z.add n (omap integer_of l)) ∧
    (int_bounded c → int_bounded v) ∧
    ∀ l', l ≡ₚ l' → reduce_all SumReducer c l' = Ok v.
Proof.
  intros Hc Hl. eexists. split; [by apply SumReducer_closed|]. split_and!.
  - destruct l; [exact Hc|]. apply integer_of_normalize.
  - destruct l; [done|]. intros _. apply normalizeInteger_bounded.
  - intros l' Hp. rewrite (SumReducer_closed _ l' n); [|done|by rewrite <-Hp]. f_equal.
    rewrite (foldr_add_permutation n (omap integer_of l') (omap integer_of l)) by (by rewrite Hp).
    apply Permutation_length in Hp. by destruct l, l'.
Qed.

(** [MaxReducer] compares exactly: for any two finite numbers, integers of
    any size and floats mixed, it keeps the incoming value exactly when its
    rational value is the larger one, and the current value otherwise, without
    rounding either side. *)
Theorem MaxReducer_exact c i x y a p b q :
  is_nil c = false → parseNumericValue c = Some x → parseNumericValue i = Some y →
  numericRational x = Some (a, p) → numericRational y = Some (b, q) →
  MaxReducer c i = Ok (if (a * Zpos q <? b * Zpos p)%Z then i else c).
Proof.
  intros Hn Hx Hy Hax Hby. unfold MaxReducer. rewrite Hn, Hx, Hy.
  assert (compareNumericValues x y = (a * Zpos q ?= b * Zpos p)%Z) as ->.
  { destruct x as [z|f], y as [w|g];
      [|unfold compareNumericValues; by rewrite Hax, Hby..].
    injection Hax as <- <-. injection Hby as <- <-. simpl. by rewrite !Z.mul_1_r. }
  unfold Z.ltb. by destruct (_ ?= _)%Z.
Qed.

(** ** Concrete runs: a sum past [int64], and 2^53 + 1 against the float 2^53 *)

Lemma SumReducer_exact_witness :
  ∃ v, reduce_all SumReducer (VInt IInt (2 ^ 63 - 1)) [VInt IInt8 1; VNil] = Ok v ∧
       integer_of v = Some (2 ^ 63)%Z.
Proof.
  destruct (SumReducer_exact (VInt IInt (2 ^ 63 - 1)) [VInt IInt8 1; VNil] (2 ^ 63 - 1))
    as (v & Hv & Hi & _); [reflexivity|repeat (constructor; [by eexists|]); constructor|].
  exists v. split; [exact Hv|exact Hi].
Defined.

Lemma MaxReducer_exact_witness :
  MaxReducer (VFloat (S754_finite false 4503599627370496 1)) (VInt IInt (2 ^ 53 + 1))
  = Ok (VInt IInt (2 ^ 53 + 1)).
Proof.
  exact (MaxReducer_exact (VFloat (S754_finite false 4503599627370496 1)) (VInt IInt (2 ^ 53 + 1)) (NFloat (S754_finite false 4503599627370496 1))
    (NInt (2 ^ 53 + 1)) (2 ^ 53) 1 (2 ^ 53 + 1) 1 eq_refl eq_refl eq_refl eq_refl eq_refl).
Defined.
