(* ===== verification/Patch.v ===== *)
(** * Patches: [state/patch.go]

    A patch is an ordered list of operations; applying it replays them on a
    copy of the base.  [PatchOpKind] is a Go string type, so kinds the code
    does not know are values too. *)

From S2P Require Import Prelude Values Paths StateTree Reducers.

Inductive PatchOpKind := OpSet | OpDelete | OpMerge | OpAppend | OpReduce | OpOther (s : string).

#[export] Instance PatchOpKind_eq_dec : EqDecision PatchOpKind.
Proof. solve_decision. Defined.

Record PatchOp := MkOp {
  op_kind : PatchOpKind;
  op_path : Path;
  op_value : value;
  op_reducer : string;
}.

Abbreviation Patch := (list PatchOp).
Abbreviation Reducers := (gmap string Reducer).

Inductive patch_error :=
  | EOpPathRequired
  | EOpState (cause : state_error)
  | EReducerRequired
  | EUnknownReducer (name : string)
  | EReducerIsolation (name : string) (path : Path)
  | EReducerFailed (name : string) (path : Path) (cause : reduce_error)
  | EUnknownOpKind (kind : string).

Definition lift_state {A} (m : result state_error A) : result patch_error A :=
  match m with Ok a => Ok a | Err e => Err (EOpState e) end.

(** [cloneReducerValue]. *)
Definition cloneReducerValue (name : string) (p : Path) (v : value) : result patch_error value :=
  if cloneable v then Ok v else Err (EReducerIsolation name p).

(** [reducers[op.Reducer]]: an absent entry is the nil reducer. *)
Definition applyReduce (target : State) (op : PatchOp) (reducers : Reducers)
    : result patch_error State :=
  if bool_decide (op_reducer op = "") then Err EReducerRequired
  else match reducers !! op_reducer op with
       | None => Err (EUnknownReducer (op_reducer op))
       | Some reducer =>
         let current := default VNil (read target (op_path op)) in
         let* isolatedCurrent := cloneReducerValue (op_reducer op) (op_path op) current in
         let* isolatedIncoming := cloneReducerValue (op_reducer op) (op_path op) (op_value op) in
         match reducer isolatedCurrent isolatedIncoming with
         | Err e => Err (EReducerFailed (op_reducer op) (op_path op) e)
         | Ok v =>
           let* isolatedValue := cloneReducerValue (op_reducer op) (op_path op) v in
           lift_state (set target (op_path op) isolatedValue)
         end
       end.

Definition applyPatchOp (reducers : Reducers) (target : State) (op : PatchOp)
    : result patch_error State :=
  if Empty (op_path op) then Err EOpPathRequired
  else match op_kind op with
       | OpSet => lift_state (set target (op_path op) (op_value op))
       | OpDelete => lift_state (delete_path target (op_path op))
       | OpMerge => lift_state (merge_path target (op_path op) (op_value op))
       | OpAppend => lift_state (appendPathValue target (op_path op) (op_value op))
       | OpReduce => applyReduce target op reducers
       | OpOther k => Err (EUnknownOpKind k)
       end.

(** The loop of [ApplyWithReducers]. *)
Definition apply_ops (reducers : Reducers) (s : State) (ops : Patch) : result patch_error State :=
  foldM (applyPatchOp reducers) s ops.

Definition ApplyWithReducers (p : Patch) (base : option State) (reducers : Reducers)
    : result patch_error State :=
  apply_ops reducers (Clone base) p.

Definition Apply (p : Patch) (base : option State) : result patch_error State :=
  ApplyWithReducers p base ∅.

(** ** Operations as edits

    What an operation leaves at its path is a function of what is there; an
    operation on paths that part ways therefore commutes with it. *)

Definition op_wf (op : PatchOp) : Prop := wf_path (op_path op).

#[export] Instance op_wf_dec op : Decision (op_wf op).
Proof. unfold op_wf. apply _. Defined.

Definition store_edit (p : Path) (v : value) : option (option value) :=
  match stored p v with Some w => Some (Some w) | None => None end.

(** The edit an operation makes given the current value, [None] when it fails
    whatever the objects above the path are. *)
Definition op_edit (reducers : Reducers) (op : PatchOp) (current : option value)
    : option (option value) :=
  let p := op_path op in let v := op_value op in
  match op_kind op with
  | OpSet => store_edit p v
  | OpDelete => Some (match segments p with [] => Some (VMap ∅) | _ => None end)
  | OpMerge =>
    match asMap v, current with
    | None, _ => None
    | Some _, None => store_edit p v
    | Some _, Some c =>
      match asMap c with None => None | Some _ => store_edit p (merge_value v (Some c)) end
    end
  | OpAppend =>
    match current with
    | None => store_edit p (normalizeAppendSeed v)
    | Some c => match appendValue c v with Ok w => store_edit p w | Err _ => None end
    end
  | OpReduce =>
    if bool_decide (op_reducer op = "") then None
    else match reducers !! op_reducer op with
         | None => None
         | Some f =>
           let c := default VNil current in
           if cloneable c && cloneable v then
             match f c v with
             | Ok w => if cloneable w then store_edit p w else None
             | Err _ => None
             end
           else None
         end
  | OpOther _ => None
  end.

Lemma lift_state_Ok {A} (m : result state_error A) a : lift_state m = Ok a ↔ m = Ok a.
Proof. destruct m; simpl; naive_solver. Qed.

Lemma set_store_edit s p v s' : wf_state s → wf_path p →
  set s p v = Ok s' ↔ ∃ e, store_edit p v = Some e ∧ state_edit s p e = Some s'.
Proof.
  intros Hs Hp. rewrite set_edit by done. unfold store_edit.
  destruct (stored p v); naive_solver.
Qed.

Lemma applyPatchOp_edit reducers s op s' : wf_state s → op_wf op →
  applyPatchOp reducers s op = Ok s' ↔
  ∃ e, op_edit reducers op (read s (op_path op)) = Some e ∧
       state_edit s (op_path op) e = Some s'.
Proof.
  intros Hs Hp. unfold applyPatchOp, op_edit. rewrite (wf_not_empty _ Hp).
  destruct (op_kind op); rewrite ?lift_state_Ok.
  - by apply set_store_edit.
  - rewrite delete_edit by done. naive_solver.
  - unfold merge_path. rewrite (wf_not_empty _ Hp).
    destruct (asMap (op_value op)); [|naive_solver].
    destruct (read s (op_path op)) as [c|]; [|by apply set_store_edit].
    destruct (asMap c); [by apply set_store_edit|naive_solver].
  - unfold appendPathValue. destruct (read s (op_path op)) as [c|]; [|by apply set_store_edit].
    destruct (appendValue c (op_value op)); [by apply set_store_edit|naive_solver].
  - unfold applyReduce, cloneReducerValue. case_bool_decide; [naive_solver|].
    destruct (reducers !! op_reducer op) as [f|]; [|naive_solver].
    destruct (cloneable (default VNil _)); simpl; [|naive_solver].
    destruct (cloneable (op_value op)); simpl; [|naive_solver].
    destruct (f _ _) as [w|]; [|naive_solver].
    destruct (cloneable w); simpl; [|naive_solver].
    rewrite lift_state_Ok. by apply set_store_edit.
  - naive_solver.
Qed.

Lemma store_edit_fits p v e : store_edit p v = Some e → fits p e.
Proof.
  unfold store_edit. destruct (stored p v) eqn:E; [|done]. intros [= <-].
  by eapply stored_fits.
Qed.

Lemma op_edit_fits reducers op c e : op_edit reducers op c = Some e → fits (op_path op) e.
Proof.
  unfold op_edit.
  destruct (op_kind op); repeat case_match; try done; try apply store_edit_fits;
    intros [= <-] Hn; simplify_eq/=; eauto; congruence.
Qed.

Lemma applyPatchOp_wf reducers s op s' :
  wf_state s → op_wf op → applyPatchOp reducers s op = Ok s' → wf_state s'.
Proof.
  intros Hs Hp. rewrite applyPatchOp_edit by done. intros (e & He & Hed).
  exact (state_edit_wf _ _ _ _ Hs (op_edit_fits _ _ _ _ He) Hed).
Qed.

Lemma apply_ops_wf reducers s ops s' :
  wf_state s → Forall op_wf ops → apply_ops reducers s ops = Ok s' → wf_state s'.
Proof.
  intros Hs Hops. revert s Hs. induction Hops as [|op ops Hop _ IH]; intros s Hs; simpl.
  - by intros [= <-].
  - intros (s1 & H1 & H2)%result_bind_Ok. eapply IH; [|done]. by eapply applyPatchOp_wf.
Qed.

(** Paths no operation touches keep their value. *)
Lemma applyPatchOp_frame reducers s op s' q :
  wf_state s → op_wf op → wf_path q → disjoint_paths (op_path op) q →
  applyPatchOp reducers s op = Ok s' → read s' q = read s q.
Proof.
  intros Hs Hp Hq Hd. rewrite applyPatchOp_edit by done. intros (e & _ & Hed).
  exact (state_edit_frame _ _ _ _ _ Hp Hq Hd Hed).
Qed.

Lemma apply_ops_frame reducers s ops s' q :
  wf_state s → Forall op_wf ops → wf_path q →
  Forall (λ op, disjoint_paths (op_path op) q) ops →
  apply_ops reducers s ops = Ok s' → read s' q = read s q.
Proof.
  intros Hs Hops Hq. revert s Hs.
  induction Hops as [|op ops Hop _ IH]; intros s Hs Hd; simpl.
  - by intros [= <-].
  - inversion_clear Hd as [|? ? Hd1 Hd2]. intros (s1 & H1 & H2)%result_bind_Ok.
    rewrite (IH s1 (applyPatchOp_wf _ _ _ _ Hs Hop H1) Hd2 H2).
    exact (applyPatchOp_frame _ _ _ _ _ Hs Hop Hq Hd1 H1).
Qed.

(** Operations at disjoint paths commute. *)
Lemma applyPatchOp_comm reducers s op1 op2 s1 s2 :
  wf_state s → op_wf op1 → op_wf op2 → disjoint_paths (op_path op1) (op_path op2) →
  applyPatchOp reducers s op1 = Ok s1 → applyPatchOp reducers s1 op2 = Ok s2 →
  ∃ s1', applyPatchOp reducers s op2 = Ok s1' ∧ applyPatchOp reducers s1' op1 = Ok s2.
Proof.
  intros Hs Hp Hq Hd H1 H2.
  pose proof (applyPatchOp_wf _ _ _ _ Hs Hp H1) as Hs1.
  rewrite (applyPatchOp_edit _ _ _ _ Hs1 Hq) in H2.
  pose proof (applyPatchOp_frame _ _ _ _ _ Hs Hp Hq Hd H1) as Hr.
  rewrite (applyPatchOp_edit _ _ _ _ Hs Hp) in H1.
  destruct H1 as (e1 & He1 & Hed1), H2 as (e2 & He2 & Hed2). rewrite Hr in He2.
  destruct (state_edit_comm _ _ _ _ _ _ _ Hp Hq Hd Hed1 Hed2) as (s1' & Ha & Hb).
  assert (applyPatchOp reducers s op2 = Ok s1') as Hop2.
  { apply applyPatchOp_edit; [done..|]. eauto. }
  exists s1'. split; [done|].
  apply applyPatchOp_edit; [exact (applyPatchOp_wf _ _ _ _ Hs Hq Hop2)|done|].
  exists e1. split; [|done].
  by rewrite (applyPatchOp_frame _ _ _ _ _ Hs Hq Hp (disjoint_paths_sym _ _ Hd) Hop2).
Qed.

Lemma apply_ops_app reducers s A B :
  apply_ops reducers s (A ++ B) = let* s' := apply_ops reducers s A in apply_ops reducers s' B.
Proof. apply foldM_app. Qed.

Lemma apply_ops_cons reducers s op A :
  apply_ops reducers s (op :: A) = let* s' := applyPatchOp reducers s op in apply_ops reducers s' A.
Proof. done. Qed.

Definition ops_disjoint (A B : Patch) : Prop :=
  ∀ a b, a ∈ A → b ∈ B → disjoint_paths (op_path a) (op_path b).

Lemma ops_disjoint_Forall A B :
  Forall (λ a, Forall (λ b, disjoint_paths (op_path a) (op_path b)) B) A ↔ ops_disjoint A B.
Proof. unfold ops_disjoint. repeat setoid_rewrite Forall_forall. naive_solver. Qed.

#[export] Instance ops_disjoint_dec A B : Decision (ops_disjoint A B).
Proof. apply (iff_decision (ops_disjoint_Forall A B)). Defined.

Lemma ops_disjoint_sym A B : ops_disjoint A B → ops_disjoint B A.
Proof. intros H a b Ha Hb. apply disjoint_paths_sym. by apply H. Qed.

Lemma ops_disjoint_app_r A B C : ops_disjoint A (B ++ C) ↔ ops_disjoint A B ∧ ops_disjoint A C.
Proof. unfold ops_disjoint. setoid_rewrite elem_of_app. naive_solver. Qed.

Lemma ops_disjoint_app_l A B C : ops_disjoint (B ++ C) A ↔ ops_disjoint B A ∧ ops_disjoint C A.
Proof. unfold ops_disjoint. setoid_rewrite elem_of_app. naive_solver. Qed.

(** An operation moves past a whole patch it is disjoint from. *)
Lemma apply_ops_past reducers s op B s' :
  wf_state s → op_wf op → Forall op_wf B → ops_disjoint [op] B →
  apply_ops reducers s (op :: B) = Ok s' → apply_ops reducers s (B ++ [op]) = Ok s'.
Proof.
  intros Hs Hop HB. revert s s' Hs. induction HB as [|b B Hb HB IH]; intros s s' Hs Hd H; [done|].
  simpl in H. apply result_bind_Ok in H as (s1 & H1 & H).
  apply result_bind_Ok in H as (s2 & H2 & H).
  destruct (applyPatchOp_comm reducers s op b s1 s2) as (s1' & Hb' & Hop'); [done..| |done|done|].
  { apply Hd; apply list_elem_of_here. }
  rewrite <-app_comm_cons, apply_ops_cons, Hb'. simpl. apply IH.
  - exact (applyPatchOp_wf _ _ _ _ Hs Hb Hb').
  - intros x y Hx Hy. apply Hd; [done|by right].
  - by rewrite apply_ops_cons, Hop'.
Qed.

(** Patches that write disjoint parts of the state can be swapped. *)
Lemma apply_ops_swap reducers s A B s' :
  wf_state s → Forall op_wf A → Forall op_wf B → ops_disjoint A B →
  apply_ops reducers s (A ++ B) = Ok s' → apply_ops reducers s (B ++ A) = Ok s'.
Proof.
  intros Hs HA HB. revert s s' Hs. induction HA as [|a A Ha HA IH]; intros s s' Hs Hd H.
  - by rewrite app_nil_r.
  - simpl in H. apply result_bind_Ok in H as (s1 & H1 & H).
    apply IH in H; [| exact (applyPatchOp_wf _ _ _ _ Hs Ha H1)
                    | intros x y Hx Hy; apply Hd; [by right|done]].
    assert (apply_ops reducers s ((a :: B) ++ A) = Ok s') as Hall.
    { by rewrite <-app_comm_cons, apply_ops_cons, H1. }
    rewrite apply_ops_app in Hall. apply result_bind_Ok in Hall as (s2 & Hs2 & Hall).
    apply apply_ops_past in Hs2; [|done..|].
    + rewrite cons_middle, app_assoc, apply_ops_app, Hs2. done.
    + intros x y Hx Hy. apply list_elem_of_singleton in Hx as ->. apply Hd; [left|done].
Qed.

#[export] Hint Resolve applyPatchOp_wf apply_ops_wf : weave.

(** C37: Patches on disjoint parts of the state commute: applying [A] then [B]
    and [B] then [A] give the same state, which is well-formed and reads as the
    base did at every path neither patch touches. *)
Theorem ApplyWithReducers_commute reducers base A B s :
  Forall op_wf A → Forall op_wf B → ops_disjoint A B →
  ApplyWithReducers (A ++ B) base reducers = Ok s →
  ApplyWithReducers (B ++ A) base reducers = Ok s ∧ wf_state s ∧
  ∀ q, wf_path q → Forall (λ op, disjoint_paths (op_path op) q) (A ++ B) →
    read s q = read (Clone base) q.
Proof.
  unfold ApplyWithReducers. intros HA HB Hd H.
  pose proof (wf_Clone base) as Hb. pose proof (Forall_app_2 _ _ _ HA HB) as HAB.
  split_and!.
  - by apply apply_ops_swap.
  - by eapply apply_ops_wf.
  - intros q Hq Hall. by eapply apply_ops_frame.
Qed.

Lemma ApplyWithReducers_commute_witness :
  let A := [MkOp OpSet (MkPath SectionShared ["a"]) (VInt IInt 1) ""] in
  let B := [MkOp OpAppend (MkPath SectionShared ["b"; "c"]) (VStr "x") ""] in
  ApplyWithReducers (B ++ A) None ∅ = ApplyWithReducers (A ++ B) None ∅.
Proof.
  intros A B. destruct (ApplyWithReducers (A ++ B) None ∅) as [s|e] eqn:E.
  - refine (proj1 (ApplyWithReducers_commute ∅ None A B s _ _ _ E));
      by apply (bool_decide_unpack _).
  - vm_compute in E. discriminate.
Defined.
