(* ===== verification/Access.v ===== *)
(** * Editing access: [state/access.go] and [state/ref.go]

    A node sees the state through an [Access]: a copy it can read, and, when
    editing, an [Editor] that applies every mutation to its working copy and
    records it as a patch operation.  The recorded patch is what the scheduler
    keeps of the node: replaying it on the base must give the node's result. *)

From S2P Require Import Prelude Values Paths StateTree Reducers Patch.

Record Editor := MkEditor {
  work : State;
  recorded : Patch;
  ed_reducers : Reducers;
}.

Definition NewEditorWithReducers (base : option State) (reducers : Reducers) : Editor :=
  MkEditor (Clone base) [] reducers.

(** [Editor.apply]: on an error nothing is recorded. *)
Definition editor_apply (e : Editor) (op : PatchOp) : result patch_error Editor :=
  let* w := applyPatchOp (ed_reducers e) (work e) op in
  Ok (MkEditor w (recorded e ++ [op]) (ed_reducers e)).

Definition SetAny (e : Editor) (p : Path) (v : value) :=
  editor_apply e (MkOp OpSet p v "").
Definition DeleteAny (e : Editor) (p : Path) :=
  editor_apply e (MkOp OpDelete p VNil "").
Definition MergeAny (e : Editor) (p : Path) (v : vmap) :=
  editor_apply e (MkOp OpMerge p (VMap v) "").
Definition AppendAny (e : Editor) (p : Path) (v : value) :=
  editor_apply e (MkOp OpAppend p v "").
Definition ReduceAny (e : Editor) (p : Path) (reducer : string) (v : value) :=
  editor_apply e (MkOp OpReduce p v reducer).

Definition EditorReadAny (e : Editor) (p : Path) : option value := read (work e) p.
Definition EditorPatch (e : Editor) : Patch := recorded e.
Definition EditorState (e : Editor) : State := Clone (Some (work e)).

(** [Access]: [editor] is nil on a read-only access. *)
Record Access := MkAccess { acc_state : State; acc_editor : option Editor }.

Inductive access_error := EReadOnly | EAccess (cause : patch_error).

Definition NewAccess (current : option State) : Access :=
  MkAccess (Clone (Some (default NewState current))) None.

Definition NewEditingAccessWithReducers (current : option State) (reducers : Reducers) : Access :=
  let a := NewAccess current in
  MkAccess (acc_state a) (Some (NewEditorWithReducers (Some (acc_state a)) reducers)).

Definition AccessReadAny (a : Access) (p : Path) : option value :=
  match acc_editor a with
  | Some e => EditorReadAny e p
  | None => read (acc_state a) p
  end.

(** The five mutators share this shape. *)
Definition access_apply (a : Access) (op : PatchOp) : result access_error Access :=
  match acc_editor a with
  | None => Err EReadOnly
  | Some e =>
    match editor_apply e op with
    | Ok e' => Ok (MkAccess (acc_state a) (Some e'))
    | Err c => Err (EAccess c)
    end
  end.

Definition AccessPatch (a : Access) : Patch :=
  match acc_editor a with None => [] | Some e => EditorPatch e end.

Definition AccessState (a : Access) : State :=
  match acc_editor a with
  | None => Clone (Some (acc_state a))
  | Some e => EditorState e
  end.

(** ** Typed references *)

(** The type assertion [value.(T)]; an interface type takes any value that is
    not nil. *)
Definition type_assert (t : go_type) (v : value) : bool :=
  match typeOf v with
  | None => false
  | Some u => bool_decide (t = TAny) || bool_decide (u = t)
  end.

Record Ref := MkRef {
  ref_path : Path;
  ref_type : go_type;
  ref_reducer : string;
}.

Inductive get_error := EMissing (p : Path) | ETypeMismatch (p : Path) (got : value).

Definition Get (a : Access) (r : Ref) : result get_error value :=
  match AccessReadAny a (ref_path r) with
  | None => Err (EMissing (ref_path r))
  | Some v => if type_assert (ref_type r) v then Ok v else Err (ETypeMismatch (ref_path r) v)
  end.

Definition Read (a : Access) (r : Ref) : option value :=
  match AccessReadAny a (ref_path r) with
  | None => None
  | Some v => if type_assert (ref_type r) v then Some v else None
  end.

Definition Replace (a : Access) (r : Ref) (v : value) : result access_error Access :=
  access_apply a (MkOp OpSet (ref_path r) v "").

(** [Append[T]]: the one-element slice of the reference's element type. *)
Definition Append (a : Access) (elem : go_type) (p : Path) (v : value)
    : result access_error Access :=
  access_apply a (MkOp OpAppend p (VSlice elem [v]) "").

(** ** Runs of an editor

    A node's calls on its editor, failed ones included: the node may carry on
    after an error. *)
Fixpoint editor_run (e : Editor) (ops : list PatchOp) : Editor :=
  match ops with
  | [] => e
  | op :: ops' =>
    editor_run (match editor_apply e op with Ok e' => e' | Err _ => e end) ops'
  end.

(** What has been recorded, replayed on the base, is the working copy. *)
Definition editor_inv (base : option State) (e : Editor) : Prop :=
  apply_ops (ed_reducers e) (Clone base) (recorded e) = Ok (work e).

Lemma editor_inv_new base reducers : editor_inv base (NewEditorWithReducers base reducers).
Proof. done. Qed.

Lemma editor_inv_apply base e op e' :
  editor_inv base e → editor_apply e op = Ok e' → editor_inv base e'.
Proof.
  unfold editor_inv, editor_apply, apply_ops. intros Hinv (w & Hw & [= <-])%result_bind_Ok.
  simpl. rewrite foldM_app, Hinv. simpl. by rewrite Hw.
Qed.

Lemma editor_inv_run base e ops : editor_inv base e → editor_inv base (editor_run e ops).
Proof.
  revert e. induction ops as [|op ops IH]; intros e Hinv; simpl; [done|].
  destruct (editor_apply e op) eqn:E; apply IH; [by eapply editor_inv_apply|done].
Qed.

Lemma editor_run_reducers e ops : ed_reducers (editor_run e ops) = ed_reducers e.
Proof.
  revert e. induction ops as [|op ops IH]; intros e; simpl; [done|].
  destruct (editor_apply e op) eqn:E; rewrite IH; [|done].
  unfold editor_apply in E. by apply result_bind_Ok in E as (w & _ & [= <-]).
Qed.


Lemma editor_run_sublist e ops : ∃ l, recorded (editor_run e ops) = recorded e ++ l ∧ l `sublist_of` ops.
Proof.
  revert e. induction ops as [|op ops IH]; intros e; simpl.
  - exists []. by rewrite app_nil_r.
  - destruct (editor_apply e op) as [e'|] eqn:E.
    + destruct (IH e') as (l & Hl & Hs). exists (op :: l). rewrite Hl. split; [|by constructor].
      unfold editor_apply in E. apply result_bind_Ok in E as (w & _ & [= <-]). simpl.
      by rewrite <-app_assoc.
    + destruct (IH e) as (l & Hl & Hs). exists l. split; [done|by constructor].
Qed.

(** The paths a node can name: a path built by [NewPath], or the zero value of
    the struct. *)
Definition op_named (op : PatchOp) : Prop := op_wf op ∨ op_path op = zero_path.

#[export] Instance op_named_dec op : Decision (op_named op).
Proof. unfold op_named. apply _. Defined.

Lemma editor_run_named e ops :
  wf_state (work e) → Forall op_named ops → wf_state (work (editor_run e ops)).
Proof.
  intros He Hops. revert e He. induction Hops as [|op ops Hop _ IH]; intros e He; simpl; [done|].
  apply IH. destruct (editor_apply e op) eqn:E; [|done].
  unfold editor_apply in E. apply result_bind_Ok in E as (w & Hw & [= <-]). simpl.
  destruct Hop as [Hop|Hz]; [exact (applyPatchOp_wf _ _ _ _ He Hop Hw)|].
  unfold applyPatchOp in Hw. by rewrite Hz in Hw.
Qed.

(** A node's calls on its access, failed ones included. *)
Fixpoint access_run (a : Access) (ops : list PatchOp) : Access :=
  match ops with
  | [] => a
  | op :: ops' =>
    access_run (match access_apply a op with Ok a' => a' | Err _ => a end) ops'
  end.

Lemma access_run_editor st e ops :
  access_run (MkAccess st (Some e)) ops = MkAccess st (Some (editor_run e ops)).
Proof.
  revert e. induction ops as [|op ops IH]; intros e; simpl; [done|].
  unfold access_apply at 1. simpl. destruct (editor_apply e op); apply IH.
Qed.

Lemma access_run_read_only st ops : access_run (MkAccess st None) ops = MkAccess st None.
Proof. induction ops as [|op ops IH]; simpl; [done|]. exact IH. Qed.

Lemma NewAccess_state current : acc_state (NewAccess current) = Clone current.
Proof. destruct current; [done|]. exact (Clone_id NewState wf_NewState). Qed.

(** C9: Whatever a node does with its editing access, calls that fail
    included, the patch recorded for it holds the successful operations in
    order, replaying that patch on the state the node was given yields the
    state the node ended with, and the node's reads are reads of that state. *)
Theorem access_replay current reducers ops :
  Forall op_named ops →
  let a := access_run (NewEditingAccessWithReducers current reducers) ops in
  ApplyWithReducers (AccessPatch a) current reducers = Ok (AccessState a) ∧
  AccessPatch a `sublist_of` ops ∧
  (∀ p, AccessReadAny a p = read (AccessState a) p) ∧
  acc_state a = Clone current.
Proof.
  intros Hops. cbv zeta. unfold NewEditingAccessWithReducers.
  rewrite access_run_editor, NewAccess_state.
  set (e0 := NewEditorWithReducers _ _).
  assert (work e0 = Clone current) as Hw by apply Clone_id, wf_Clone.
  assert (wf_state (work (editor_run e0 ops))) as Hwf.
  { apply editor_run_named; [rewrite Hw; apply wf_Clone|done]. }
  unfold AccessPatch, AccessState, AccessReadAny, EditorState, EditorReadAny, EditorPatch.
  simpl acc_editor. cbn match. rewrite Clone_id by done. split_and!; [..|done|done].
  - assert (editor_inv current e0) as Hinv.
    { unfold editor_inv. rewrite Hw. done. }
    apply (editor_inv_run _ _ ops) in Hinv. unfold editor_inv in Hinv.
    by rewrite editor_run_reducers in Hinv.
  - destruct (editor_run_sublist e0 ops) as (l & -> & Hl). done.
Qed.

(** A read-only access never changes: every mutation through it fails, and
    after any calls it records nothing and reads what it was given. *)
Theorem read_only_access current ops op p :
  let a := access_run (NewAccess current) ops in
  access_apply a op = Err EReadOnly ∧ AccessPatch a = [] ∧
  AccessReadAny a p = read (Clone current) p ∧ AccessState a = Clone current.
Proof.
  cbv zeta. assert (NewAccess current = MkAccess (Clone current) None) as ->.
  { unfold NewAccess. f_equal. apply NewAccess_state. }
  rewrite access_run_read_only. split_and!; [done..|]. apply Clone_id, wf_Clone.
Qed.

(** One good write, one that fails on the zero path, one that fails because
    [shared.a] is not an object. *)
Lemma access_replay_witness :
  let ops := [MkOp OpSet (MkPath SectionShared ["a"]) (VInt IInt 1) "";
              MkOp OpDelete zero_path VNil "";
              MkOp OpSet (MkPath SectionShared ["a"; "b"]) VNil "";
              MkOp OpAppend (MkPath SectionShared ["l"]) (VStr "x") ""] in
  let a := access_run (NewEditingAccessWithReducers None ∅) ops in
  ApplyWithReducers (AccessPatch a) None ∅ = Ok (AccessState a) ∧
  length (AccessPatch a) = 2.
Proof.
  intros ops a. split; [|reflexivity].
  refine (proj1 (access_replay None ∅ ops _)). by apply (bool_decide_unpack _).
Defined.
