(* ===== verification/Contracts.v ===== *)
(** * Contracts and validation: [state/contract.go], [state/validation.go] and
    the entry points of [state/schema.go]

    A contract lists the paths a node may read and write.  The functions
    below return the issues the code returns, in its order.  JSON Schema
    compilation and validation are a third-party library and the texts of
    messages come from [fmt]: both are the fields of the interface
    [SchemaEngine]; nothing is assumed of them. *)

From S2P Require Import Prelude GoStrings Values Json Paths StateTree Reducers Patch.

Inductive AccessMode := AccessRead | AccessWrite | AccessReadWrite | AccessOther (s : string).
Inductive MergeStrategy :=
  | MergeDefault | MergeReplace | MergeMerge | MergeAppend | MergeOther (s : string).

#[export] Instance AccessMode_eq_dec : EqDecision AccessMode.
Proof. solve_decision. Defined.
#[export] Instance MergeStrategy_eq_dec : EqDecision MergeStrategy.
Proof. solve_decision. Defined.

(** [JSONSchema] is a [map[string]any]. *)
Abbreviation JSONSchema := vmap.

Record FieldAccess := MkField {
  f_path : Path;
  f_mode : AccessMode;
  f_required : bool;
  f_merge : MergeStrategy;
  f_reducer : string;
  f_type : string;
  f_schema : JSONSchema;
  f_description : string;
}.

Record Contract := MkContract {
  Fields : list FieldAccess;
  WildcardRead : bool;
  WildcardWrite : bool;
}.

(** The kinds are the code's strings; [i_args] are the message's arguments. *)
Record ValidationIssue := MkIssue {
  i_path : string;
  i_kind : string;
  i_args : list string;
}.

(** The third-party JSON Schema engine and the rendering of messages. *)
Class SchemaEngine := {
  schema_compiles : JSONSchema → bool;
  schema_violations : JSONSchema → value → string → list ValidationIssue;
  render_message : ValidationIssue → string;
}.

Definition isReadMode (m : AccessMode) : bool :=
  match m with AccessRead | AccessReadWrite => true | _ => false end.
Definition isWriteMode (m : AccessMode) : bool :=
  match m with AccessWrite | AccessReadWrite => true | _ => false end.
Definition validAccessMode (m : AccessMode) : bool :=
  match m with AccessOther _ => false | _ => true end.
Definition validMergeStrategy (m : MergeStrategy) : bool :=
  match m with MergeOther _ => false | _ => true end.
Definition validPatchOpKind (k : PatchOpKind) : bool :=
  match k with OpOther _ => false | _ => true end.

Definition isReservedPath (p : Path) : bool :=
  bool_decide (section p = SectionInternal) || bool_decide (section p = SectionRuntime).

(** [contractPaths]: the first occurrence of each included path. *)
Fixpoint contractPaths (include : AccessMode → bool) (seen : list string)
    (fields : list FieldAccess) : list Path :=
  match fields with
  | [] => []
  | f :: fields' =>
    if Empty (f_path f) || negb (include (f_mode f)) then contractPaths include seen fields'
    else
      let key := PathString (f_path f) in
      if bool_decide (key ∈ seen) then contractPaths include seen fields'
      else f_path f :: contractPaths include (key :: seen) fields'
  end.

Definition ReadPaths (c : Contract) : list Path := contractPaths isReadMode [] (Fields c).
Definition WritePaths (c : Contract) : list Path := contractPaths isWriteMode [] (Fields c).

Definition pathAllowedByAny (p : Path) (allowed : list Path) : bool :=
  existsb (λ q, bool_decide (PathString p = PathString q)) allowed.

Definition patchCoversPath (patch : Patch) (required : Path) : bool :=
  existsb (λ op, pathWithin required (op_path op)) patch.

(** [pathAffectedByWrites]: the written paths are kept as text and parsed
    back. *)
Definition pathAffectedByWrites (p : Path) (written : list string) : bool :=
  existsb (λ t, match ParsePath t with
                | Err _ => false
                | Ok w => pathWithin p w || pathWithin w p
                end) written.

Definition depth (p : Path) : nat :=
  length (segments p) + if bool_decide (section p = "") then 0 else 1.

(** The loop shared by [reducerForPath] and [mergeStrategyForPath]: among the
    writable fields above or below the path, the first deepest one. *)
Fixpoint deepest_field (p : Path) (best : option FieldAccess) (fields : list FieldAccess)
    : option FieldAccess :=
  match fields with
  | [] => best
  | f :: fields' =>
    if negb (isWriteMode (f_mode f)) || Empty (f_path f) then deepest_field p best fields'
    else if negb (pathWithin p (f_path f)) && negb (pathWithin (f_path f) p)
    then deepest_field p best fields'
    else match best with
         | Some b => if depth (f_path b) <? depth (f_path f)
                     then deepest_field p (Some f) fields' else deepest_field p best fields'
         | None => deepest_field p (Some f) fields'
         end
  end.

Definition field_for_path (c : Contract) (p : Path) : option FieldAccess :=
  if Empty p then None else deepest_field p None (Fields c).

(** [reducerForPath]: [None] when no field is found. *)
Definition reducerForPath (c : Contract) (p : Path) : option string :=
  (λ f, TrimSpace (f_reducer f)) <$> field_for_path c p.

Definition mergeStrategyForPath (c : Contract) (p : Path) : option MergeStrategy :=
  f_merge <$> field_for_path c p.

Section validation.
Context `{SchemaEngine}.

Definition sortValidationIssues (l : list ValidationIssue) : list ValidationIssue :=
  stable_sort (less_then i_path str_lt (less_then i_kind str_lt
    (less_last render_message str_lt))) l.

(** [ValidateJSONSchemaDefinition] fails. *)
Definition schema_invalid (s : JSONSchema) : bool :=
  negb (bool_decide (s = ∅)) && negb (schema_compiles s).

Definition ValidateJSONSchemaValue (v : value) (s : JSONSchema) (base : string)
    : list ValidationIssue :=
  if bool_decide (s = ∅) then []
  else if negb (schema_compiles s) then [MkIssue (TrimSpace base) "invalid_json_schema" []]
  else match json_encode v with
       | None => [MkIssue (TrimSpace base) "schema_value_encoding_failed" []]
       | Some _ => schema_violations s v (TrimSpace base)
       end.

Definition issue_if (b : bool) (i : ValidationIssue) : list ValidationIssue :=
  if b then [i] else [].

Definition ValidateContract (c : Contract) : list ValidationIssue :=
  flat_map (λ f,
    let path := PathString (f_path f) in
    issue_if (Empty (f_path f)) (MkIssue "" "empty_contract_path" []) ++
    issue_if (isReservedPath (f_path f)) (MkIssue path "reserved_contract_path" [path]) ++
    issue_if (negb (validAccessMode (f_mode f))) (MkIssue path "invalid_access_mode" []) ++
    issue_if (negb (validMergeStrategy (f_merge f))) (MkIssue path "invalid_merge_strategy" []) ++
    issue_if (schema_invalid (f_schema f)) (MkIssue path "invalid_json_schema" [path]))
  (Fields c).

Definition validateRequiredReadsOnly (current : State) (c : Contract) : list ValidationIssue :=
  flat_map (λ f,
    if negb (isReadMode (f_mode f)) || Empty (f_path f) then []
    else match read current (f_path f) with
         | Some v => ValidateJSONSchemaValue v (f_schema f) (PathString (f_path f))
         | None =>
           issue_if (f_required f)
             (MkIssue (PathString (f_path f)) "missing_required_read" [PathString (f_path f)])
         end) (Fields c).

Definition ValidateRequiredReads (current : State) (c : Contract) : list ValidationIssue :=
  sortValidationIssues (ValidateContract c ++ validateRequiredReadsOnly current c).

Definition validate_op (op : PatchOp) : list ValidationIssue :=
  let path := PathString (op_path op) in
  issue_if (Empty (op_path op)) (MkIssue "" "empty_patch_path" []) ++
  issue_if (negb (validPatchOpKind (op_kind op))) (MkIssue path "invalid_patch_op" []) ++
  issue_if (bool_decide (op_kind op = OpMerge) && negb (bool_decide (is_Some (asMap (op_value op)))))
    (MkIssue path "invalid_merge_value" [path]) ++
  issue_if (bool_decide (op_kind op = OpReduce) && bool_decide (TrimSpace (op_reducer op) = ""))
    (MkIssue path "missing_reducer" []).

Definition ValidatePatch (patch : Patch) : list ValidationIssue := flat_map validate_op patch.

Definition reserved_issues (kind : string) (patch : Patch) : list ValidationIssue :=
  flat_map (λ op, issue_if (isReservedPath (op_path op))
    (MkIssue (PathString (op_path op)) kind [PathString (op_path op)])) patch.

Definition ValidateNodePatch (patch : Patch) : list ValidationIssue :=
  ValidatePatch patch ++ reserved_issues "reserved_patch_path" patch.

Definition ValidateInputPatch (patch : Patch) : list ValidationIssue :=
  ValidatePatch patch ++ reserved_issues "reserved_input_path" patch.

(** The reducer rules of a written path. *)
Definition write_reducer_issues (c : Contract) (op : PatchOp) : list ValidationIssue :=
  let path := PathString (op_path op) in
  match reducerForPath c (op_path op) with
  | Some r =>
    if negb (bool_decide (r = "")) then
      issue_if (negb (bool_decide (op_kind op = OpReduce))
                || negb (bool_decide (TrimSpace (op_reducer op) = r)))
        (MkIssue path "reducer_mismatch" [path; r])
    else issue_if (bool_decide (op_kind op = OpReduce))
           (MkIssue path "reducer_not_declared" [path; op_reducer op])
  | None => []
  end.

Definition ValidatePatchByContract (patch : Patch) (c : Contract) : list ValidationIssue :=
  ValidatePatch patch ++ ValidateContract c ++
  if WildcardWrite c then reserved_issues "reserved_patch_path" patch
  else
    flat_map (λ op,
      if Empty (op_path op) then []
      else if pathAllowedByAny (op_path op) (WritePaths c) then write_reducer_issues c op
      else [MkIssue (PathString (op_path op)) "write_not_allowed" [PathString (op_path op)]])
      patch ++
    flat_map (λ f,
      if negb (f_required f) || negb (isWriteMode (f_mode f)) || Empty (f_path f) then []
      else if patchCoversPath patch (f_path f) then []
      else [MkIssue (PathString (f_path f)) "missing_required_write" [PathString (f_path f)]])
      (Fields c).

(** The reducer rules of an input path. *)
Definition input_reducer_issues (c : Contract) (op : PatchOp) : list ValidationIssue :=
  let path := PathString (op_path op) in
  match reducerForPath c (op_path op) with
  | Some r =>
    if negb (bool_decide (r = "")) &&
       (negb (bool_decide (op_kind op = OpReduce))
        || negb (bool_decide (TrimSpace (op_reducer op) = r)))
    then [MkIssue path "reducer_mismatch" [path; r]]
    else issue_if (bool_decide (op_kind op = OpReduce) && bool_decide (r = ""))
           (MkIssue path "reducer_not_declared" [path; op_reducer op])
  | None => issue_if (bool_decide (op_kind op = OpReduce))
              (MkIssue path "reducer_not_declared" [path; op_reducer op])
  end.

Definition ValidateInputPatchByContract (patch : Patch) (c : Contract) : list ValidationIssue :=
  ValidateInputPatch patch ++ ValidateContract c ++
  if WildcardRead c then []
  else flat_map (λ op,
    if Empty (op_path op) then []
    else if pathAllowedByAny (op_path op) (ReadPaths c) then input_reducer_issues c op
    else [MkIssue (PathString (op_path op)) "input_not_allowed" [PathString (op_path op)]]) patch.

Definition written_paths (patch : Patch) : list string :=
  map (λ op, PathString (op_path op)) (List.filter (λ op, negb (Empty (op_path op))) patch).

(** Whether a written field holds what it should after the patch. *)
Definition written_field_issues (missing : string) (result : State) (written : list string)
    (f : FieldAccess) : list ValidationIssue :=
  if negb (isWriteMode (f_mode f)) || Empty (f_path f) || bool_decide (f_schema f = ∅) then []
  else if negb (pathAffectedByWrites (f_path f) written) then []
  else match read result (f_path f) with
       | None => issue_if (f_required f)
                   (MkIssue (PathString (f_path f)) missing [PathString (f_path f)])
       | Some v => ValidateJSONSchemaValue v (f_schema f) (PathString (f_path f))
       end.

Definition ValidateAppliedPatchResultByContract (result : State) (patch : Patch) (c : Contract)
    : list ValidationIssue :=
  sortValidationIssues
    (ValidatePatchByContract patch c ++
     flat_map (written_field_issues "missing_required_write_value" result (written_paths patch))
       (Fields c)).

Definition ValidatePatchResultByContractWithReducers (base : option State) (patch : Patch)
    (c : Contract) (reducers : Reducers) : list ValidationIssue :=
  match ApplyWithReducers patch base reducers with
  | Err _ => sortValidationIssues (ValidatePatchByContract patch c
               ++ [MkIssue "" "patch_apply_failed" []])
  | Ok result => ValidateAppliedPatchResultByContract result patch c
  end.

Definition ValidateAppliedInputPatchByContract (input : State) (patch : Patch) (c : Contract)
    : list ValidationIssue :=
  sortValidationIssues (ValidateInputPatchByContract patch c ++ validateRequiredReadsOnly input c).

Definition ValidateInputPatchByContractWithReducers (base : option State) (patch : Patch)
    (c : Contract) (reducers : Reducers) : list ValidationIssue :=
  match ApplyWithReducers patch base reducers with
  | Err _ => sortValidationIssues (ValidateInputPatchByContract patch c
               ++ [MkIssue "" "input_patch_apply_failed" []])
  | Ok input => ValidateAppliedInputPatchByContract input patch c
  end.

(** [ValidateStateBySchemas]: the schemas in the byte order of their paths. *)
Definition ValidateStateBySchemas (current : State) (schemas : gmap string JSONSchema)
    : list ValidationIssue :=
  flat_map (λ text,
    match ParsePath text with
    | Err _ => [MkIssue text "invalid_schema_path" []]
    | Ok p => match read current p with
              | None => []
              | Some v => ValidateJSONSchemaValue v (default ∅ (schemas !! text)) text
              end
    end) (sorted_keys schemas).
End validation.

(** ** Projection *)

Definition projectBusinessState (full : State) : State :=
  FromMap (filter (λ kv, (kv.1 = SectionShared ∨ kv.1 = SectionScopes)
                         ∧ is_Some (asMap kv.2)) (root full)).

(** One turn of the projection loop: the error of [set] is dropped. *)
Definition project_path (full : State) (projected : State) (p : Path) : State :=
  if Empty p then projected
  else match read full p with
       | None => projected
       | Some v => match set projected p v with Ok s => s | Err _ => projected end
       end.

Definition ProjectStateByContract (full : State) (c : Contract) : State :=
  if WildcardRead c then projectBusinessState full
  else foldl (project_path full) NewState (ReadPaths c).

(** An engine that accepts everything, for concrete runs. *)
Definition permissive_engine : SchemaEngine :=
  {| schema_compiles _ := true; schema_violations _ _ _ := []; render_message i := i_path i |}.
