(* ===== verification/Projection.v ===== *)
(** * Projection: what a node sees of the state

    [ProjectStateByContract] builds the state a node runs on from the read
    paths of its contract.  It starts from the empty state and copies one path
    after the other; a path may lie inside another.  The theorem below says
    the result is exact on every read path and empty elsewhere. *)

From S2P Require Import Prelude Values Paths StateTree Reducers Patch Contracts.

(** What is read in the projection is in the full state; an object in the
    projection may hold less than the full state's. *)
Definition reveals (full projected : State) : Prop :=
  ∀ q x, wf_path q → read projected q = Some x →
    ∃ y, read full q = Some y ∧ (asMap x = None → y = x).

(** What is stored where something was read is that value: a section of a
    well-formed state is an object. *)
Lemma stored_present s p v :
  wf_state s → wf_path p → read s p = Some v → stored p v = Some v.
Proof.
  intros Hs Hp Hv. unfold stored. destruct (segments p) eqn:Hseg; [|done].
  unfold read in Hv. rewrite (wf_not_empty p Hp), Hseg in Hv. simpl in Hv.
  pose proof Hp as [Hk _]. destruct (Hs (section p)) as [m Hm]; [by apply elem_of_sections|].
  rewrite Hm in Hv. by injection Hv as <-.
Qed.

Lemma slot_edit_same_value l : ∀ o v, get_slot o l = Some v → slot_edit (Some v) l o = Some o.
Proof.
  induction l as [|k l IH]; intros o v Ho.
  - simpl in *. by rewrite <-Ho; destruct o.
  - rewrite get_slot_cons in Ho. destruct o as [[]|]; try done.
    rewrite slot_edit_map, (IH _ _ Ho). simpl. do 3 f_equal. by apply partial_alter_same.
Qed.

(** Writing what is already there changes nothing. *)
Lemma set_same s p v s' :
  wf_state s → wf_path p → read s p = Some v → set s p v = Ok s' → s' = s.
Proof.
  intros Hs Hp Hv Hset. apply set_edit in Hset as (w & Hw & He); [|done..].
  rewrite (stored_present s p v Hs Hp Hv) in Hw. injection Hw as <-.
  rewrite read_slot in Hv by done. apply slot_edit_same_value in Hv.
  apply state_edit_slot in He. rewrite Hv in He. destruct s, s'; simpl in *. congruence.
Qed.

Lemma read_within s p q v :
  wf_path p → wf_path q → pathWithin q p = true → read s p = Some v →
  read s q = get_in v (drop (length (segments p)) (segments q)).
Proof.
  intros Hp Hq (_ & Hs & rest & Hr)%pathWithin_spec Hv.
  rewrite Hr, drop_app_length. by apply (read_below s q p).
Qed.

(** ** The loop *)

Section loop.
Context (full : State) (Hfull : wf_state full).

Record projecting (done : list Path) (s : State) : Prop := {
  prj_wf : wf_state s;
  prj_reveals : reveals full s;
  prj_done : ∀ p, p ∈ done → read s p = read full p;
  prj_frame : ∀ q, wf_path q → (∀ p, p ∈ done → disjoint_paths p q) →
    read s q = read NewState q;
}.

Lemma projecting_new : projecting [] NewState.
Proof.
  split; [apply wf_NewState| |by intros p ?%elem_of_nil|done].
  intros q x Hq Hx. unfold read in *. rewrite (wf_not_empty q Hq) in *.
  change (root NewState) with newRoot in Hx. rewrite lookup_newRoot in Hx.
  pose proof Hq as [Hk _]. rewrite Hk in Hx.
  destruct (Hfull (section q)) as [m Hm]; [by apply elem_of_sections|]. rewrite Hm.
  destruct (segments q); simpl in *; [|done]. injection Hx as <-. by eexists.
Qed.

(** The write the loop makes is never refused. *)
Lemma project_path_set done s p v :
  projecting done s → wf_path p → read full p = Some v →
  ∃ s', set s p v = Ok s' ∧ wf_state s' ∧ read s' p = Some v ∧
    ∀ q, wf_path q → disjoint_paths p q → read s' q = read s q.
Proof.
  intros [Hs Hrev _ _] Hp Hv. pose proof (stored_present _ _ _ Hfull Hp Hv) as Hst.
  destruct (set s p v) as [s'|err] eqn:E.
  - exists s'. split_and!; [done|by eapply set_wf|by rewrite (set_read _ _ _ _ Hs Hp E)|].
    intros q Hq Hd. by apply (set_frame s p v).
  - destruct (set_Err _ _ _ _ Hs Hp E) as [(Hseg & Ha & _)|(l & k & r & x & Hl & Hne & _ & Hx & Ha)].
    + unfold stored in Hst. by rewrite Hseg, Ha in Hst.
    + pose (q := MkPath (section p) l). pose proof Hp as [Hk Hseg].
      assert (wf_path q) as Hq by (split; [done|simpl; rewrite Hl, Forall_app in Hseg; tauto]).
      destruct (Hrev q x Hq Hx) as (y & Hy & Heq). rewrite (Heq Ha) in Hy.
      destruct (read_above_object full p q v x) as [m ->]; [done..| | |done|done|done].
      * apply pathWithin_spec. split_and!; [by apply wf_section|done|simpl; eauto].
      * intros Hpq. apply (f_equal (length ∘ segments)) in Hpq. simpl in Hpq.
        rewrite Hl, length_app in Hpq. simpl in Hpq. lia.
Qed.

Lemma project_path_step done s p :
  Forall wf_path done → projecting done s → wf_path p →
  projecting (done ++ [p]) (project_path full s p).
Proof.
  intros Hdone Hprj Hp. unfold project_path. rewrite (wf_not_empty p Hp).
  destruct (read full p) as [v|] eqn:Hv.
  - destruct (project_path_set done s p v Hprj Hp Hv) as (s' & Hset & Hs' & Hr & Hf).
    rewrite Hset.
    destruct Hprj as [Hs Hrev Hd Hfr]. split; [done|..].
    + intros q x Hq Hx. destruct (path_cases p q) as [[Hpq|Hqp]|Hdis].
      * destruct (decide (p = q)) as [<-|Hne]; [naive_solver|].
        destruct (read_above_object s' p q v x) as [m ->]; [done..|].
        destruct (read_above full p q v) as [y Hy]; [done..|]. by eexists.
      * rewrite (read_within s' p q v) in Hx by done.
        rewrite (read_within full p q v), Hx by done. by eexists.
      * rewrite Hf in Hx by done. by apply Hrev.
    + intros q [Hq| ->%list_elem_of_singleton]%elem_of_app; [|by rewrite Hr, Hv].
      pose proof (proj1 (Forall_forall _ _) Hdone) as Hall.
      assert (wf_path q) as Hwq by (by apply Hall).
      destruct (path_cases p q) as [[Hpq|Hqp]|Hdis].
      * assert (read s p = Some v) as Hsame.
        { destruct (read_above full p q v) as [y Hy]; [done..|].
          rewrite <-Hv. pose proof (Hd q Hq) as Hdq. rewrite Hy in Hdq.
          by rewrite (read_within s q p y), (read_within full q p y) by done. }
        rewrite (set_same s p v s' Hs Hp Hsame Hset). by apply Hd.
      * by rewrite (read_within s' p q v), (read_within full p q v) by done.
      * rewrite Hf by done. by apply Hd.
    + intros q Hq Hall. rewrite Hf by (try done; apply Hall, elem_of_app; right; left).
      apply Hfr; [done|]. intros p' Hp'. apply Hall, elem_of_app. by left.
  - destruct Hprj as [Hs Hrev Hd Hfr]. split; [done|done|..].
    + intros q [Hq| ->%list_elem_of_singleton]%elem_of_app; [by apply Hd|].
      destruct (read s p) as [x|] eqn:Hx; [|done].
      destruct (Hrev p x Hp Hx) as (y & Hy & _). congruence.
    + intros q Hq Hall. apply Hfr; [done|]. intros p' Hp'. apply Hall, elem_of_app. by left.
Qed.
End loop.

Lemma project_loop full paths : ∀ done s,
  wf_state full → Forall wf_path done → Forall wf_path paths → projecting full done s →
  projecting full (done ++ paths) (foldl (project_path full) s paths).
Proof.
  induction paths as [|p paths IH]; intros done s Hf Hd Hp Hs; simpl.
  - by rewrite app_nil_r.
  - inversion_clear Hp as [|? ? Hp1 Hp2]. rewrite cons_middle, app_assoc. apply IH; [done| |done|].
    + apply Forall_app. by split; [|constructor].
    + by apply project_path_step.
Qed.

(** The paths of a contract's fields, as a program can build them. *)
Definition field_named (f : FieldAccess) : Prop := wf_path (f_path f) ∨ f_path f = zero_path.

#[export] Instance field_named_dec f : Decision (field_named f).
Proof. unfold field_named. apply _. Defined.

(** What [contractPaths] selects from: a field with a proper path and mode. *)
Definition selects (include : AccessMode → bool) (fields : list FieldAccess) (p : Path) : Prop :=
  wf_path p ∧ ∃ f, f ∈ fields ∧ f_path f = p ∧ include (f_mode f) = true.

Lemma selects_cons include f fields p :
  selects include (f :: fields) p ↔
  (wf_path p ∧ f_path f = p ∧ include (f_mode f) = true) ∨ selects include fields p.
Proof.
  unfold selects. setoid_rewrite elem_of_cons. split.
  - intros (Hp & g & [->|Hg] & Hgp & Hi); [by left|]. right. split; [done|]. by exists g.
  - intros [(Hp & Hf & Hi)|(Hp & g & Hg & Hgp & Hi)]; (split; [done|]); [exists f|exists g]; auto.
Qed.

Lemma elem_of_contractPaths include fields : ∀ seen p,
  Forall field_named fields →
  p ∈ contractPaths include seen fields ↔ selects include fields p ∧ PathString p ∉ seen.
Proof.
  induction fields as [|f fields IH]; intros seen p Hf; simpl.
  { rewrite elem_of_nil. split; [done|]. by intros [(_ & f & ?%elem_of_nil & _) _]. }
  inversion_clear Hf as [|? ? Hf1 Hf2]. rewrite selects_cons.
  destruct (Empty (f_path f)) eqn:He; simpl.
  { rewrite IH by done. assert (f_path f = p → ¬ wf_path p) as Hno; [|tauto].
    intros <- Hp. by rewrite (wf_not_empty _ Hp) in He. }
  assert (wf_path (f_path f)) as Hw by (destruct Hf1 as [|Hz]; [done|by rewrite Hz in He]).
  destruct (include (f_mode f)) eqn:Hi; simpl.
  2:{ rewrite IH by done. assert (false ≠ true) by done. tauto. }
  assert (PathString p = PathString (f_path f) → wf_path p → p = f_path f) as Hinj.
  { intros. by apply PathString_inj. }
  assert (f_path f = p ↔ p = f_path f) as Hsym by done.
  case_bool_decide as Hs; [|rewrite elem_of_cons]; rewrite IH by done.
  - split; [tauto|]. intros [[(_ & <- & _)|] ?]; tauto.
  - rewrite elem_of_cons. assert (selects include fields p → wf_path p) by (by intros [? _]).
    split; [intros [->|[? Hn]]; [split; [by left|done]|split; [by right|tauto]]|].
    intros [Hsel Hn]. destruct (decide (PathString p = PathString (f_path f))); [|tauto].
    left. apply Hinj; [done|]. tauto.
Qed.

(** A node without a read wildcard sees exactly what its contract lets it
    read: every readable field reads as in the full state, whatever the order
    and nesting of the fields, a path apart from all of them reads as in the
    empty state, and nothing is read that the full state does not hold. *)
Theorem projection_exact full c :
  wf_state full → Forall field_named (Fields c) → WildcardRead c = false →
  let seen := ProjectStateByContract full c in
  wf_state seen ∧ reveals full seen ∧
  (∀ f, f ∈ Fields c → isReadMode (f_mode f) = true → wf_path (f_path f) →
     read seen (f_path f) = read full (f_path f)) ∧
  ∀ q, wf_path q →
    (∀ f, f ∈ Fields c → isReadMode (f_mode f) = true → wf_path (f_path f) →
       disjoint_paths (f_path f) q) →
    read seen q = read NewState q.
Proof.
  intros Hfull Hf Hw. cbv zeta. unfold ProjectStateByContract. rewrite Hw.
  assert (∀ p, p ∈ ReadPaths c → wf_path p ∧ ∃ f, f ∈ Fields c ∧ f_path f = p ∧
    isReadMode (f_mode f) = true) as Hp.
  { intros p Hin. apply elem_of_contractPaths in Hin as [[? ?] _]; done. }
  destruct (project_loop full (ReadPaths c) [] NewState) as [H1 H2 H3 H4]; [done|constructor| | |].
  { apply Forall_forall. intros p Hin. by apply Hp. }
  { by apply projecting_new. }
  split_and!; [done|done|..].
  - intros f Hin Hm Hwf. apply H3. simpl. apply elem_of_contractPaths; [done|].
    split; [|by apply not_elem_of_nil]. split; [done|]. by exists f.
  - intros q Hq Hd. apply H4; [done|]. intros p Hin. simpl in Hin.
    apply Hp in Hin as [Hwf (f & Hfin & <- & Hm)]. by apply Hd.
Qed.

(** ** A concrete run: nested read paths *)

Definition read_field (p : Path) : FieldAccess := MkField p AccessRead false MergeDefault "" "" ∅ "".

Lemma projection_exact_witness :
  let c := MkContract [read_field (MkPath SectionShared ["a"; "b"]); read_field zero_path;
                       read_field (MkPath SectionShared ["a"])] false false in
  read (ProjectStateByContract sample_state c) (MkPath SectionShared ["a"; "b"])
  = Some (VInt IInt 1).
Proof.
  intros c.
  destruct (projection_exact sample_state c) as (_ & _ & H & _).
  - apply wf_FromShared.
  - by apply (bool_decide_unpack _).
  - reflexivity.
  - exact (H (read_field (MkPath SectionShared ["a"; "b"])) ltac:(left) eq_refl
             ltac:(by apply (bool_decide_unpack _))).
Defined.
