(* ===== verification/ParallelMerge.v ===== *)
(** * Fan-in: [state/parallel_merge.go]

    The patches of the branches of one wave are ordered by branch order, node
    and position, checked pairwise for ambiguous writes, and applied to the
    common base as one patch.  The checks range over maps, and Go leaves the order
    of a range open: the orders are a parameter, and what depends on them is shown
    to be the acceptance only, never the merged state. *)

From S2P Require Import Prelude GoStrings Values Json Paths StateTree Reducers Patch Contracts.

Record BranchPatch := MkBranch {
  b_task : string;
  b_node : string;
  b_order : Z;
  b_patch : Patch;
}.

Record ParallelMergeOptions := MkOptions {
  o_contracts : gmap string Contract;
  o_schemas : gmap string JSONSchema;
  o_reducers : Reducers;
}.

(** [parallelPatchEntry]; an unknown strategy or reducer is [None]. *)
Record Entry := MkEntry {
  e_task : string;
  e_node : string;
  e_branchOrd : Z;
  e_branchIdx : nat;
  e_opIdx : nat;
  e_op : PatchOp;
  e_merge : option MergeStrategy;
  e_reducer : option string;
}.

Inductive conflict :=
  | COverlapping
  | CReducerMismatch (reducer : string)
  | CIncompatibleReducers
  | CIncompatibleStrategies
  | CAppendRequired
  | CMergeRequired
  | CReplaceIdentical
  | CUnsupportedStrategy
  | CConflictingWrites
  | CMergeValues (path : string)
  | CMergeOverlap.

Inductive merge_error :=
  | EBranchContract (node : string) (issues : list ValidationIssue)
  | EBranchPatch (node : string) (issues : list ValidationIssue)
  | EConflict (left right : Entry) (reason : conflict)
  | EMergeApply (cause : patch_error)
  | EMergeResult (issues : list ValidationIssue).

Definition zero_contract : Contract := MkContract [] false false.

(** ** Ranging over maps

    The code ranges over a map at four places: the contracts, the objects below a
    merge overlay, and the leaves of its two sides.  A place is told apart from the
    others by the entries that are compared and the way into the overlay, so that
    every range of a merge has an order of its own. *)

Definition entry_key : Type := string * string * Z * nat.
Definition key_of (e : Entry) : entry_key := (e_task e, e_node e, e_branchOrd e, e_opIdx e).

Inductive range_site :=
  | SiteContracts
  | SiteOverlay (left right : entry_key) (right_side : bool) (way : list string)
  | SiteLeft (left right : entry_key)
  | SiteRight (left right : entry_key) (leaf : string).

Class MapOrder := {
  range {A} : range_site → gmap string A → list (string * A);
  range_perm {A} site (m : gmap string A) : range site m ≡ₚ map_to_list m;
}.

Lemma elem_of_range `{MapOrder} {A} site (m : gmap string A) x : x ∈ range site m ↔ x ∈ map_to_list m.
Proof. by rewrite range_perm. Qed.

(** ** Collecting and ordering the operations *)

Definition entry_less : Entry → Entry → bool :=
  less_then e_branchOrd z_lt (less_then e_node str_lt
    (less_then e_branchIdx nat_lt (less_last e_opIdx nat_lt))).

Definition branch_entries (contracts : gmap string Contract) (idx : nat) (b : BranchPatch)
    : list Entry :=
  let c := default zero_contract (contracts !! b_node b) in
  imap (λ i op, MkEntry (b_task b) (b_node b) (b_order b) idx i op
    (mergeStrategyForPath c (op_path op)) (reducerForPath c (op_path op))) (b_patch b).

Section merge.
Context `{SchemaEngine} `{MapOrder}.

Definition check_branch (contracts : gmap string Contract) (b : BranchPatch)
    : result merge_error unit :=
  match contracts !! b_node b with
  | Some c =>
    match ValidatePatchByContract (b_patch b) c with
    | [] => Ok tt
    | issues => Err (EBranchContract (b_node b) issues)
    end
  | None =>
    match ValidatePatch (b_patch b) with
    | [] => Ok tt
    | issues => Err (EBranchPatch (b_node b) issues)
    end
  end.

Definition normalizeBranchPatchEntries (branches : list BranchPatch)
    (contracts : gmap string Contract) : result merge_error (list Entry) :=
  let* _ := first_err (check_branch contracts) branches in
  Ok (stable_sort entry_less (concat (imap (branch_entries contracts) branches))).

(** ** Conflicts *)

Definition dottedPathWithin (path parent : string) : bool :=
  if bool_decide (path = "") || bool_decide (parent = "") then false
  else negb (bool_decide (path = parent)) && HasPrefix path (parent +:+ ".").

(** [flattenMergeOverlayValue]: the leaves below [prefix] with their dotted
    names, in the order of the assignments.  [way] is where the object is found. *)
Fixpoint flatten_value (v : value) (site : list string → range_site) (way : list string) (prefix : string) {struct v}
    : list (string * value) :=
  match v with
  | VMap m =>
    match range (site way) (flatten_value <$> m) with
    | [] => [(prefix, VMap ∅)]
    | items =>
      concat (map (λ kv, kv.2 site (way ++ [kv.1]) (if bool_decide (prefix = "") then kv.1 else prefix +:+ "." +:+ kv.1)) items)
    end
  | VNilMap => [(prefix, VMap ∅)]
  | _ => [(prefix, v)]
  end.

(** [flattenMergeOverlay]: of two leaves with one dotted name the later one stays. *)
Definition flattenMergeOverlay (site : list string → range_site) (m : vmap) : vmap :=
  foldl (λ out kv, <[kv.1 := kv.2]> out) ∅ (flatten_value (VMap m) site [] "").

Definition leaf_conflict (l r : string * value) : result conflict unit :=
  if bool_decide (l.1 = r.1) then
    if jsonEqual l.2 r.2 then Ok tt else Err (CMergeValues l.1)
  else if dottedPathWithin l.1 r.1 || dottedPathWithin r.1 l.1 then Err CMergeOverlap
  else Ok tt.

Definition validateMergeOverlayConflict (left right : Entry) : result conflict unit :=
  let lm := default ∅ (asMap (op_value (e_op left))) in
  let rm := default ∅ (asMap (op_value (e_op right))) in
  let leftFlat := flattenMergeOverlay (SiteOverlay (key_of left) (key_of right) false) lm in
  let rightFlat := flattenMergeOverlay (SiteOverlay (key_of left) (key_of right) true) rm in
  first_err (λ l, first_err (leaf_conflict l) (range (SiteRight (key_of left) (key_of right) l.1) rightFlat))
    (range (SiteLeft (key_of left) (key_of right)) leftFlat).

(** [parallelPairReducer]: [None] when neither side has one. *)
Definition parallelPairReducer (left right : Entry) : result conflict (option string) :=
  match TrimSpace <$> e_reducer left, TrimSpace <$> e_reducer right with
  | Some l, Some r => if bool_decide (l = r) then Ok (Some l) else Err CIncompatibleReducers
  | Some l, None => Ok (Some l)
  | None, Some r => Ok (Some r)
  | None, None => Ok None
  end.

Definition normalizedKnownMergeStrategy (e : Entry) : option MergeStrategy :=
  match e_merge e with Some MergeDefault | None => None | Some m => Some m end.

Definition parallelPairMergeStrategy (left right : Entry)
    : result conflict (option MergeStrategy) :=
  match normalizedKnownMergeStrategy left, normalizedKnownMergeStrategy right with
  | Some l, Some r => if bool_decide (l = r) then Ok (Some l) else Err CIncompatibleStrategies
  | Some l, None => Ok (Some l)
  | None, Some r => Ok (Some r)
  | None, None => Ok None
  end.

Definition both_kind (k : PatchOpKind) (left right : Entry) : bool :=
  bool_decide (op_kind (e_op left) = k) && bool_decide (op_kind (e_op right) = k).

Definition identical_sets (left right : Entry) : bool :=
  both_kind OpSet left right && jsonEqual (op_value (e_op left)) (op_value (e_op right)).

Definition validateParallelPatchPairByStrategy (left right : Entry) (s : MergeStrategy)
    : result conflict unit :=
  match s with
  | MergeAppend => if both_kind OpAppend left right then Ok tt else Err CAppendRequired
  | MergeMerge =>
    if both_kind OpMerge left right then validateMergeOverlayConflict left right
    else Err CMergeRequired
  | MergeReplace =>
    if identical_sets left right then Ok tt
    else if both_kind OpDelete left right then Ok tt
    else Err CReplaceIdentical
  | MergeDefault | MergeOther _ => Err CUnsupportedStrategy
  end.

(** The rules when no contract names a strategy. *)
Definition validate_default (left right : Entry) : result conflict unit :=
  if both_kind OpAppend left right then Ok tt
  else if both_kind OpReduce left right
          && bool_decide (op_reducer (e_op left) = op_reducer (e_op right)) then Ok tt
  else if both_kind OpMerge left right then validateMergeOverlayConflict left right
  else if identical_sets left right then Ok tt
  else if both_kind OpDelete left right then Ok tt
  else Err CConflictingWrites.

Definition validateParallelPatchPair (left right : Entry) : result conflict unit :=
  let lp := op_path (e_op left) in
  let rp := op_path (e_op right) in
  if bool_decide (PathString lp = "") || bool_decide (PathString rp = "") then Ok tt
  else if negb (bool_decide (PathString lp = PathString rp)) then
    if pathWithin lp rp || pathWithin rp lp then Err COverlapping else Ok tt
  else
    let* reducer := parallelPairReducer left right in
    match reducer with
    | Some r =>
      if negb (bool_decide (r = "")) then
        if negb (both_kind OpReduce left right)
           || negb (bool_decide (op_reducer (e_op left) = r))
           || negb (bool_decide (op_reducer (e_op right) = r))
        then Err (CReducerMismatch r)
        else Ok tt
      else
        let* strategy := parallelPairMergeStrategy left right in
        match strategy with
        | Some s => validateParallelPatchPairByStrategy left right s
        | None => validate_default left right
        end
    | None =>
      let* strategy := parallelPairMergeStrategy left right in
      match strategy with
      | Some s => validateParallelPatchPairByStrategy left right s
      | None => validate_default left right
      end
    end.

Definition check_pair (left right : Entry) : result merge_error unit :=
  if e_branchIdx left =? e_branchIdx right then Ok tt
  else match validateParallelPatchPair left right with
       | Ok _ => Ok tt
       | Err c => Err (EConflict left right c)
       end.

(** The two nested loops: each entry against the later ones. *)
Fixpoint validateParallelPatchConflicts (entries : list Entry) : result merge_error unit :=
  match entries with
  | [] => Ok tt
  | entry :: rest =>
    let* _ := first_err (check_pair entry) rest in
    validateParallelPatchConflicts rest
  end.

(** ** Merging *)

(** [validateParallelMergeResult]: the fields of the contracts, each path and
    schema once, then sorted. *)
Fixpoint merge_field_issues (result : State) (written : list string)
    (seen : list (string * JSONSchema)) (fields : list FieldAccess) : list ValidationIssue :=
  match fields with
  | [] => []
  | f :: fields' =>
    if negb (isWriteMode (f_mode f)) || Empty (f_path f) || bool_decide (f_schema f = ∅)
       || negb (pathAffectedByWrites (f_path f) written)
    then merge_field_issues result written seen fields'
    else if existsb (λ s, bool_decide (s.1 = PathString (f_path f))
                          && jsonEqual (VMap s.2) (VMap (f_schema f))) seen
    then merge_field_issues result written seen fields'
    else written_field_issues "missing_required_write_value" result written f
         ++ merge_field_issues result written ((PathString (f_path f), f_schema f) :: seen) fields'
  end.

Definition validateParallelMergeResult (merged : State) (entries : list Entry)
    (options : ParallelMergeOptions) : list ValidationIssue :=
  let written := written_paths (map e_op entries) in
  let fields := concat (map (λ kv, Fields kv.2) (range SiteContracts (o_contracts options))) in
  sortValidationIssues
    (ValidateStateBySchemas merged (o_schemas options)
     ++ merge_field_issues merged written [] fields).

Definition MergeParallelPatches (base : option State) (branches : list BranchPatch)
    (options : ParallelMergeOptions) : result merge_error State :=
  let target := Clone base in
  if (length branches =? 0)%nat then Ok target
  else
    let* entries := normalizeBranchPatchEntries branches (o_contracts options) in
    let* _ := validateParallelPatchConflicts entries in
    match ApplyWithReducers (map e_op entries) (Some target) (o_reducers options) with
    | Err e => Err (EMergeApply e)
    | Ok merged =>
      match validateParallelMergeResult merged entries options with
      | [] => Ok merged
      | issues => Err (EMergeResult issues)
      end
    end.
End merge.

(** ** The order of application

    Sorting the operations amounts to sorting the branches by order and node,
    the input order breaking ties, and laying their patches end to end. *)

Definition branch_less : BranchPatch → BranchPatch → bool :=
  less_then b_order z_lt (less_last b_node str_lt).

Definition indexed (branches : list BranchPatch) : list (nat * BranchPatch) := imap pair branches.

Definition indexed_less : nat * BranchPatch → nat * BranchPatch → bool :=
  less_then (b_order ∘ snd) z_lt (less_then (b_node ∘ snd) str_lt (less_last fst nat_lt)).

Definition block (contracts : gmap string Contract) (ib : nat * BranchPatch) : list Entry :=
  branch_entries contracts ib.1 ib.2.

Lemma elem_of_branch_entries contracts idx b e :
  e ∈ branch_entries contracts idx b ↔
  ∃ op, b_patch b !! e_opIdx e = Some op ∧
    e = MkEntry (b_task b) (b_node b) (b_order b) idx (e_opIdx e) op
          (mergeStrategyForPath (default zero_contract (contracts !! b_node b)) (op_path op))
          (reducerForPath (default zero_contract (contracts !! b_node b)) (op_path op)).
Proof.
  unfold branch_entries. rewrite list_elem_of_lookup. setoid_rewrite list_lookup_imap_Some. split.
  - intros (i & op & Hop & ->). eauto.
  - intros (op & Hop & Heq). exists (e_opIdx e), op. done.
Qed.

Lemma branch_entries_ops contracts idx b : map e_op (branch_entries contracts idx b) = b_patch b.
Proof.
  unfold branch_entries. change map with (@fmap list _ PatchOp Entry) || idtac.
  generalize (b_patch b) as ops. intros ops.
  enough (∀ g : nat → nat, map e_op (imap (λ i op, MkEntry (b_task b) (b_node b) (b_order b) idx (g i) op
    (mergeStrategyForPath (default zero_contract (contracts !! b_node b)) (op_path op))
    (reducerForPath (default zero_contract (contracts !! b_node b)) (op_path op))) ops) = ops)
    as H by exact (H id).
  induction ops as [|op ops IH]; intros g; simpl; [done|]. f_equal. apply (IH (g ∘ S)).
Qed.

Lemma indexed_fst branches : map fst (indexed branches) = seq 0 (length branches).
Proof.
  unfold indexed. enough (∀ k, map fst (imap (λ i b, (k + i, b)) branches) = seq k (length branches))
    as H by exact (H 0).
  induction branches as [|b branches IH]; intros k; simpl; [done|].
  rewrite Nat.add_0_r. f_equal. rewrite <-(IH (S k)). f_equal.
  apply imap_ext. intros i x _. simpl. f_equal. lia.
Qed.

Lemma indexed_snd branches : map snd (indexed branches) = branches.
Proof.
  unfold indexed. enough (∀ k, map snd (imap (λ i b, (k + i, b)) branches) = branches)
    as H by exact (H 0).
  induction branches as [|b branches IH]; intros k; simpl; [done|]. f_equal.
  rewrite <-(IH (S k)) at 2. f_equal.
  apply imap_ext. intros i x _. simpl. f_equal. lia.
Qed.

Lemma indexed_sorted branches : StronglySorted (λ x y, fst x < fst y) (indexed branches).
Proof.
  unfold indexed. enough (∀ k, StronglySorted (λ x y, fst x < fst y)
    (imap (λ i b, (k + i, b)) branches)) as H by exact (H 0).
  induction branches as [|b branches IH]; intros k; simpl; constructor.
  - rewrite (imap_ext _ (λ i b, (S k + i, b))); [apply IH|].
    intros i x _. simpl. f_equal. lia.
  - rewrite Forall_forall. intros x Hx%list_elem_of_lookup.
    destruct Hx as (i & Hi). apply list_lookup_imap_Some in Hi as (y & _ & ->). simpl. lia.
Qed.

Lemma indexed_concat contracts branches :
  concat (imap (branch_entries contracts) branches) = concat (map (block contracts) (indexed branches)).
Proof.
  unfold indexed, block. f_equal.
  enough (∀ k, imap (λ i, branch_entries contracts (k + i)) branches =
    map (λ ib, branch_entries contracts ib.1 ib.2) (imap (λ i b, (k + i, b)) branches))
    as H by exact (H 0).
  induction branches as [|b branches IH]; intros k; simpl; [done|]. f_equal.
  rewrite (imap_ext _ (λ i, branch_entries contracts (S k + i))).
  - rewrite IH. f_equal. apply imap_ext. intros i x _. simpl. f_equal. lia.
  - intros i x _. simpl. f_equal. lia.
Qed.

(** The branches in the order of application. *)
Definition ordered (branches : list BranchPatch) : list BranchPatch :=
  stable_sort branch_less branches.

Lemma indexed_ordered branches :
  map snd (stable_sort indexed_less (indexed branches)) = ordered branches.
Proof.
  unfold ordered. rewrite <-(indexed_snd branches) at 2. apply stable_sort_map.
  apply (StronglySorted_impl (λ x y, fst x < fst y)); [|apply indexed_sorted].
  intros x y _ _ Hlt. unfold indexed_less, branch_less, less_then, less_last, nat_lt, compose.
  repeat case_decide; try done.
  rewrite (proj2 (Nat.ltb_ge _ _)) by lia. symmetry. rewrite H0. apply st_irrefl.
Qed.

Lemma entry_less_block contracts x y e f :
  x.1 ≠ y.1 → not_after indexed_less x y →
  e ∈ block contracts x → f ∈ block contracts y → not_after entry_less e f.
Proof.
  intros Hne Hxy He Hf. unfold block in *.
  apply elem_of_branch_entries in He as (op & _ & ->).
  apply elem_of_branch_entries in Hf as (op' & _ & ->).
  unfold not_after, indexed_less, entry_less, less_then, less_last, compose in *. simpl.
  repeat case_decide; try done; congruence.
Qed.

Lemma block_sorted contracts x : StronglySorted (not_after entry_less) (block contracts x).
Proof.
  unfold block, branch_entries. generalize (b_patch x.2) as ops. intros ops.
  match goal with |- StronglySorted _ (imap ?f _) => set (mk := f) end.
  enough (∀ k, StronglySorted (not_after entry_less) (imap (λ i, mk (k + i)) ops))
    as H by exact (H 0).
  induction ops as [|op ops IH]; intros k; simpl; constructor.
  - rewrite (imap_ext _ (λ i, mk (S k + i))); [apply IH|]. intros i y _. simpl. f_equal. lia.
  - rewrite Forall_forall. intros e He%list_elem_of_lookup.
    destruct He as (i & Hi). apply list_lookup_imap_Some in Hi as (y & _ & ->).
    unfold not_after, entry_less, less_then, less_last, nat_lt. simpl.
    repeat case_decide; try done. rewrite Nat.ltb_ge. lia.
Qed.

Lemma entries_separated contracts branches e f :
  e ∈ concat (map (block contracts) (indexed branches)) →
  f ∈ concat (map (block contracts) (indexed branches)) →
  not_after entry_less e f → not_after entry_less f e → e = f.
Proof.
  intros (x & Hx & He)%elem_of_concat_map (y & Hy & Hf)%elem_of_concat_map.
  assert (∀ z, z ∈ indexed branches → branches !! z.1 = Some z.2) as Hidx.
  { intros z Hz%list_elem_of_lookup. destruct Hz as (i & Hi).
    apply list_lookup_imap_Some in Hi as (b & Hb & ->). done. }
  apply Hidx in Hx, Hy. unfold block in *.
  apply elem_of_branch_entries in He as (op & Hop & ->).
  apply elem_of_branch_entries in Hf as (op' & Hop' & ->).
  unfold not_after, entry_less, less_then, less_last, nat_lt. simpl. intros Hef Hfe.
  destruct (decide (b_order x.2 = b_order y.2)) as [Ho|Ho];
    [|exfalso; apply Ho; rewrite decide_False in Hef by congruence; by apply (st_total (klt := z_lt))].
  rewrite (decide_True _ _ (eq_sym Ho)) in Hef.
  destruct (decide (b_node x.2 = b_node y.2)) as [Hn|Hn];
    [|exfalso; apply Hn; rewrite decide_False in Hef by congruence; by apply (st_total (klt := str_lt))].
  rewrite (decide_True _ _ (eq_sym Hn)) in Hef.
  repeat case_decide; try congruence;
    rewrite Nat.ltb_ge in *; [|lia].
  assert (e_opIdx e = e_opIdx f) as Hoi by lia. rewrite Hoi in *. congruence.
Qed.

Lemma sorted_entries contracts branches :
  stable_sort entry_less (concat (imap (branch_entries contracts) branches)) =
  concat (map (block contracts) (stable_sort indexed_less (indexed branches))).
Proof.
  rewrite indexed_concat.
  rewrite <-(stable_sort_id entry_less (concat (map _ (stable_sort _ _)))).
  - apply stable_sort_unique; [apply _| |].
    + intros x y Hx Hy Hxy Hyx. by apply (entries_separated contracts branches).
    + by rewrite stable_sort_perm.
  - apply (StronglySorted_concat_map _ (λ x y, not_after indexed_less x y ∧ x.1 ≠ y.1)).
    + intros a _. apply block_sorted.
    + intros a b x y [Hab Hne]. by apply entry_less_block.
    + apply StronglySorted_and; [apply stable_sort_sorted; apply _|].
      apply StronglySorted_NoDup. rewrite stable_sort_perm, indexed_fst. apply NoDup_seq.
Qed.

(** The operations of the sorted entries are the patches of the ordered
    branches, one after the other. *)
Lemma sorted_entries_ops contracts branches :
  map e_op (stable_sort entry_less (concat (imap (branch_entries contracts) branches))) =
  concat (map b_patch (ordered branches)).
Proof.
  rewrite sorted_entries, concat_map, map_map, <-indexed_ordered, map_map.
  f_equal. apply map_ext. intros x. apply branch_entries_ops.
Qed.

(** ** The conflict check *)

(** What an overlay may flatten to. *)
Definition flattens (v : value) (m : vmap) : Prop :=
  ∃ (o : MapOrder) site, m = flattenMergeOverlay site (default ∅ (asMap v)).

(** The leaves of two overlays agree: one value under a common name, and no
    leaf below another. *)
Definition leaves_agree (lm rm : vmap) : Prop :=
  ∀ l r, l ∈ map_to_list lm → r ∈ map_to_list rm →
         (l.1 = r.1 ∧ jsonEqual l.2 r.2 = true) ∨
         (l.1 ≠ r.1 ∧ dottedPathWithin l.1 r.1 = false ∧ dottedPathWithin r.1 l.1 = false).

Definition overlays_agree (v w : value) : Prop := ∃ lm rm, flattens v lm ∧ flattens w rm ∧ leaves_agree lm rm.

Section conflicts.
Context `{SchemaEngine} `{MapOrder}.

(** Two operations of different branches that fan-in may combine. *)
Inductive compatible (a b : PatchOp) : Prop :=
  | compatible_disjoint : disjoint_paths (op_path a) (op_path b) → compatible a b
  | compatible_append : op_path a = op_path b →
      op_kind a = OpAppend → op_kind b = OpAppend → compatible a b
  | compatible_reduce : op_path a = op_path b →
      op_kind a = OpReduce → op_kind b = OpReduce → op_reducer a = op_reducer b → compatible a b
  | compatible_merge : op_path a = op_path b →
      op_kind a = OpMerge → op_kind b = OpMerge → overlays_agree (op_value a) (op_value b) →
      compatible a b
  | compatible_set : op_path a = op_path b →
      op_kind a = OpSet → op_kind b = OpSet → jsonEqual (op_value a) (op_value b) = true →
      compatible a b
  | compatible_delete : op_path a = op_path b →
      op_kind a = OpDelete → op_kind b = OpDelete → compatible a b.

Lemma overlays_agree_sym v w : overlays_agree v w → overlays_agree w v.
Proof.
  intros (lm & rm & Hl & Hr & Hvw). exists rm, lm. split; [done|]. split; [done|]. clear Hl Hr.
  intros r l Hr Hl. destruct (Hvw l r Hl Hr) as [[Heq Hj]|(Hne & H1 & H2)].
  - left. split; [done|by apply jsonEqual_sym].
  - right. split_and!; congruence.
Qed.

Lemma compatible_sym a b : compatible a b → compatible b a.
Proof.
  destruct 1.
  - apply compatible_disjoint. by apply disjoint_paths_sym.
  - by apply compatible_append.
  - by apply compatible_reduce.
  - apply compatible_merge; [done..|]. by apply overlays_agree_sym.
  - apply compatible_set; [done..|]. by apply jsonEqual_sym.
  - by apply compatible_delete.
Qed.

Lemma both_kind_spec k l r :
  both_kind k l r = true ↔ op_kind (e_op l) = k ∧ op_kind (e_op r) = k.
Proof. unfold both_kind. by rewrite andb_true_iff, !bool_decide_eq_true. Qed.

Lemma leaf_conflict_Ok l r :
  leaf_conflict l r = Ok tt ↔
  (l.1 = r.1 ∧ jsonEqual l.2 r.2 = true) ∨
  (l.1 ≠ r.1 ∧ dottedPathWithin l.1 r.1 = false ∧ dottedPathWithin r.1 l.1 = false).
Proof.
  unfold leaf_conflict. case_bool_decide as Heq.
  - destruct (jsonEqual _ _); naive_solver.
  - destruct (dottedPathWithin l.1 r.1), (dottedPathWithin r.1 l.1); naive_solver.
Qed.

Lemma validateMergeOverlayConflict_Ok l r :
  validateMergeOverlayConflict l r = Ok tt →
  overlays_agree (op_value (e_op l)) (op_value (e_op r)).
Proof.
  unfold validateMergeOverlayConflict, overlays_agree. cbv zeta. rewrite first_err_Ok. intros Hok.
  do 2 eexists. split; [by do 2 eexists|]. split; [by do 2 eexists|].
  intros x y Hx%(elem_of_range (SiteLeft (key_of l) (key_of r))) Hy. apply leaf_conflict_Ok.
  specialize (Hok x Hx). rewrite first_err_Ok in Hok. apply Hok. by apply elem_of_range.
Qed.

Lemma strategy_compatible l r s :
  op_path (e_op l) = op_path (e_op r) →
  validateParallelPatchPairByStrategy l r s = Ok tt → compatible (e_op l) (e_op r).
Proof.
  intros Hp. unfold validateParallelPatchPairByStrategy, identical_sets.
  destruct s; try done.
  - destruct (both_kind OpSet l r) eqn:Hset; simpl.
    + apply both_kind_spec in Hset as [Hl Hr].
      destruct (jsonEqual _ _) eqn:Hj; [intros _; by apply compatible_set|].
      destruct (both_kind OpDelete l r) eqn:Hd; [|done].
      apply both_kind_spec in Hd as [? ?]. congruence.
    + destruct (both_kind OpDelete l r) eqn:Hd; [|done].
      apply both_kind_spec in Hd as [? ?]. intros _. by apply compatible_delete.
  - destruct (both_kind OpMerge l r) eqn:Hk; [|done].
    apply both_kind_spec in Hk as [? ?]. intros Hv%validateMergeOverlayConflict_Ok. by apply compatible_merge.
  - destruct (both_kind OpAppend l r) eqn:Hk; [|done].
    apply both_kind_spec in Hk as [? ?]. intros _. by apply compatible_append.
Qed.

Lemma default_compatible l r :
  op_path (e_op l) = op_path (e_op r) →
  validate_default l r = Ok tt → compatible (e_op l) (e_op r).
Proof.
  intros Hp. unfold validate_default, identical_sets.
  destruct (both_kind OpAppend l r) eqn:Ha.
  { apply both_kind_spec in Ha as [? ?]. intros _. by apply compatible_append. }
  case_match eqn:Hr.
  { apply andb_true_iff in Hr as [Hk Hr%bool_decide_eq_true].
    apply both_kind_spec in Hk as [? ?]. intros _. by apply compatible_reduce. }
  destruct (both_kind OpMerge l r) eqn:Hm.
  { apply both_kind_spec in Hm as [? ?]. intros Hv%validateMergeOverlayConflict_Ok. by apply compatible_merge. }
  case_match eqn:Hs.
  { apply andb_true_iff in Hs as [Hk Hj]. apply both_kind_spec in Hk as [? ?].
    intros _. by apply compatible_set. }
  destruct (both_kind OpDelete l r) eqn:Hd; [|done].
  apply both_kind_spec in Hd as [? ?]. intros _. by apply compatible_delete.
Qed.

(** What the pairwise check accepts is compatible. *)
Lemma pair_compatible l r :
  op_wf (e_op l) → op_wf (e_op r) →
  validateParallelPatchPair l r = Ok tt → compatible (e_op l) (e_op r).
Proof.
  unfold op_wf. intros Hl Hr. unfold validateParallelPatchPair.
  rewrite !bool_decide_false by (by apply PathString_nonempty). simpl.
  case_bool_decide as Heq; simpl.
  - apply PathString_inj in Heq; [|done..].
    intros (reducer & _ & Hok)%result_bind_Ok.
    assert ((let* strategy := parallelPairMergeStrategy l r in
             match strategy with
             | Some s => validateParallelPatchPairByStrategy l r s
             | None => validate_default l r
             end) = Ok tt → compatible (e_op l) (e_op r)) as Hstrategy.
    { intros ([s|] & _ & Hs)%result_bind_Ok;
        [by apply (strategy_compatible l r s)|by apply default_compatible]. }
    destruct reducer as [reducer|]; [|by apply Hstrategy].
    case_bool_decide as Hne; simpl in Hok; [by apply Hstrategy|].
    destruct (both_kind OpReduce l r) eqn:Hk; simpl in Hok; [|done].
    apply both_kind_spec in Hk as [? ?].
    repeat case_bool_decide; try done.
    apply compatible_reduce; congruence.
  - destruct (pathWithin (op_path (e_op l)) (op_path (e_op r))) eqn:H1; [done|].
    destruct (pathWithin (op_path (e_op r)) (op_path (e_op l))) eqn:H2; [done|].
    intros _. by apply compatible_disjoint.
Qed.

(** Operations on disjoint paths are never refused. *)
Lemma pair_disjoint l r :
  op_wf (e_op l) → op_wf (e_op r) → disjoint_paths (op_path (e_op l)) (op_path (e_op r)) →
  validateParallelPatchPair l r = Ok tt.
Proof.
  unfold op_wf. intros Hl Hr [H1 H2]. unfold validateParallelPatchPair.
  rewrite !bool_decide_false by (by apply PathString_nonempty). simpl. rewrite H1, H2.
  case_bool_decide as Heq; [|done]. apply PathString_inj in Heq; [|done..].
  rewrite Heq, pathWithin_refl in H1; [done|]. by apply wf_not_empty.
Qed.

(** ** The check over all the branches *)

(** The entry of an operation, without the position of its branch. *)
Definition entry_for (contracts : gmap string Contract) (b : BranchPatch) (i : nat) (op : PatchOp) : Entry :=
  let c := default zero_contract (contracts !! b_node b) in
  MkEntry (b_task b) (b_node b) (b_order b) 0 i op
    (mergeStrategyForPath c (op_path op)) (reducerForPath c (op_path op)).

Definition fan_ok (contracts : gmap string Contract) (b1 b2 : BranchPatch) : Prop :=
  ∀ i j op1 op2, b_patch b1 !! i = Some op1 → b_patch b2 !! j = Some op2 →
    validateParallelPatchPair (entry_for contracts b1 i op1) (entry_for contracts b2 j op2) = Ok tt.

Lemma conflicts_sorted entries :
  validateParallelPatchConflicts entries = Ok tt ↔
  StronglySorted (λ a b, check_pair a b = Ok tt) entries.
Proof.
  induction entries as [|e entries IH]; simpl; [by split; [constructor|]|].
  rewrite result_bind_Ok. split.
  - intros ([] & He & Hrest). rewrite first_err_Ok in He. constructor; [by apply IH|].
    by rewrite Forall_forall.
  - intros Hs. inversion_clear Hs as [|? ? Hl Hx]. exists tt. split; [|by apply IH].
    apply first_err_Ok. by rewrite Forall_forall in Hx.
Qed.

Lemma block_check_pair contracts x y :
  x.1 ≠ y.1 →
  (∀ e f, e ∈ block contracts x → f ∈ block contracts y → check_pair e f = Ok tt) ↔
  fan_ok contracts x.2 y.2.
Proof.
  intros Hne. unfold block, fan_ok. setoid_rewrite elem_of_branch_entries. split.
  - intros Hc i j op1 op2 Hi Hj.
    set (e := entry_for contracts x.2 i op1). set (f := entry_for contracts y.2 j op2).
    set (e' := MkEntry (e_task e) (e_node e) (e_branchOrd e) x.1 i op1 (e_merge e) (e_reducer e)).
    set (f' := MkEntry (e_task f) (e_node f) (e_branchOrd f) y.1 j op2 (e_merge f) (e_reducer f)).
    assert (check_pair e' f' = Ok tt) as Hef.
    { apply Hc; [exists op1|exists op2]; by split. }
    unfold check_pair in Hef. simpl in Hef.
    rewrite (proj2 (Nat.eqb_neq _ _) Hne) in Hef.
    change (validateParallelPatchPair e' f') with (validateParallelPatchPair e f) in Hef.
    by destruct (validateParallelPatchPair e f) as [[]|].
  - intros Hf e f (op1 & Hop1 & ->) (op2 & Hop2 & ->). unfold check_pair. simpl.
    rewrite (proj2 (Nat.eqb_neq _ _) Hne).
    specialize (Hf _ _ op1 op2 Hop1 Hop2).
    match goal with |- match ?v with _ => _ end = _ =>
      change v with (validateParallelPatchPair (entry_for contracts x.2 (e_opIdx e) op1)
                       (entry_for contracts y.2 (e_opIdx f) op2)) end.
    by rewrite Hf.
Qed.

Lemma blocks_check contracts (l : list (nat * BranchPatch)) :
  NoDup (map fst l) →
  StronglySorted (λ a b, check_pair a b = Ok tt) (concat (map (block contracts) l)) ↔
  StronglySorted (fan_ok contracts) (map snd l).
Proof.
  induction l as [|x l IH]; simpl; [by split; constructor|].
  intros [Hx Hl]%NoDup_cons. rewrite StronglySorted_app, IH by done.
  assert (∀ y, y ∈ l → x.1 ≠ y.1) as Hne.
  { intros y Hy Heq. apply Hx. rewrite Heq. apply list_elem_of_fmap. eauto. }
  split.
  - intros (Hc & _ & Hs). constructor; [done|]. rewrite Forall_forall.
    intros b (y & -> & Hy)%list_elem_of_fmap. apply block_check_pair; [by apply Hne|].
    intros e f He Hf. apply Hc; [done|]. apply elem_of_concat_map. eauto.
  - intros Hs. inversion_clear Hs as [|? ? Hs' Hf]. split_and!; [| |done].
    + intros e f He (y & Hy & Hf')%elem_of_concat_map.
      apply (block_check_pair contracts x y (Hne y Hy)); [|done..].
      rewrite Forall_forall in Hf. apply Hf. apply list_elem_of_fmap. eauto.
    + apply (StronglySorted_impl (λ _ _, True)).
      * intros e f (? & _ & ->)%elem_of_branch_entries (? & _ & ->)%elem_of_branch_entries _.
        unfold check_pair. simpl. by rewrite Nat.eqb_refl.
      * induction (block contracts x); constructor; [done|]. by rewrite Forall_forall.
Qed.

Lemma conflicts_branches contracts branches :
  validateParallelPatchConflicts
    (stable_sort entry_less (concat (imap (branch_entries contracts) branches))) = Ok tt ↔
  StronglySorted (fan_ok contracts) (ordered branches).
Proof.
  rewrite conflicts_sorted, sorted_entries, <-indexed_ordered. apply blocks_check.
  change (map fst (stable_sort indexed_less (indexed branches)))
    with (fst <$> stable_sort indexed_less (indexed branches)).
  rewrite stable_sort_perm. change (NoDup (map fst (indexed branches))).
  rewrite indexed_fst. apply NoDup_seq.
Qed.

(** ** The merge *)

Definition merge_issues (merged : State) (ops : Patch) (options : ParallelMergeOptions)
    : list ValidationIssue :=
  validateParallelMergeResult merged (map (entry_for ∅ (MkBranch "" "" 0 []) 0) ops) options.

Lemma validate_merge_issues merged entries options :
  validateParallelMergeResult merged entries options = merge_issues merged (map e_op entries) options.
Proof.
  unfold merge_issues, validateParallelMergeResult. rewrite !map_map. by simpl.
Qed.

(** The merge accepts exactly when every branch respects its contract, no two
    branches conflict, the patches apply in order, and the result satisfies the
    schemas. *)
Record merges (base : option State) (order : list BranchPatch) (options : ParallelMergeOptions)
    (s : State) : Prop := {
  merges_checked : ∀ b, b ∈ order → check_branch (o_contracts options) b = Ok tt;
  merges_fan : StronglySorted (fan_ok (o_contracts options)) order;
  merges_apply : apply_ops (o_reducers options) (Clone base) (concat (map b_patch order)) = Ok s;
  merges_valid : merge_issues s (concat (map b_patch order)) options = [];
}.

Lemma MergeParallelPatches_spec base branches options s : branches ≠ [] →
  MergeParallelPatches base branches options = Ok s ↔ merges base (ordered branches) options s.
Proof.
  intros Hne. unfold MergeParallelPatches, normalizeBranchPatchEntries.
  destruct branches as [|b0 bs]; [done|]. simpl length. simpl Nat.eqb.
  set (branches := b0 :: bs). cbn iota.
  set (entries := stable_sort entry_less _).
  assert (map e_op entries = concat (map b_patch (ordered branches))) as Hops
    by apply sorted_entries_ops.
  unfold ApplyWithReducers. rewrite Clone_id by apply wf_Clone.
  split.
  - intros (es & (? & Hchk & Hes)%result_bind_Ok & H1)%result_bind_Ok.
    apply Ok_inj in Hes as <-. apply result_bind_Ok in H1 as ([] & Hc & Hm).
    rewrite Hops in Hm. destruct (apply_ops _ _ _) as [merged|] eqn:Happ; [|done].
    rewrite validate_merge_issues, Hops in Hm.
    destruct (merge_issues _ _ _) eqn:Hi; [|done]. apply Ok_inj in Hm as ->.
    split; [|by apply conflicts_branches|done|done].
    intros b Hb%stable_sort_elem_of. destruct x. rewrite first_err_Ok in Hchk. by apply Hchk.
  - intros [Hchk Hfan Happ Hi].
    assert (first_err (check_branch (o_contracts options)) branches = Ok tt) as ->.
    { apply first_err_Ok. intros b Hb. apply Hchk. by apply stable_sort_elem_of. }
    simpl. assert (validateParallelPatchConflicts entries = Ok tt) as ->
      by by apply conflicts_branches.
    simpl. rewrite Hops, Happ, validate_merge_issues, Hops, Hi. done.
Qed.
End conflicts.

(** ** Properties *)

Section properties.
Context `{SchemaEngine} `{MapOrder}.

Definition branch_key (b : BranchPatch) : Z * string := (b_order b, b_node b).

Definition branches_wf (branches : list BranchPatch) : Prop :=
  ∀ b op, b ∈ branches → op ∈ b_patch b → op_wf op.

Lemma branches_wf_Forall branches :
  Forall (λ b, Forall op_wf (b_patch b)) branches ↔ branches_wf branches.
Proof. unfold branches_wf. repeat setoid_rewrite Forall_forall. naive_solver. Qed.

#[global] Instance branches_wf_dec branches : Decision (branches_wf branches) :=
  iff_decision (branches_wf_Forall branches).

Lemma branch_less_key b c :
  branch_less b c = false → branch_less c b = false → branch_key b = branch_key c.
Proof.
  unfold branch_less, less_then, less_last, branch_key. intros H1 H2.
  destruct (decide (b_order b = b_order c)) as [Ho|Ho].
  - rewrite decide_True in H2 by done. rewrite Ho. f_equal.
    by apply (st_total (klt := str_lt)).
  - rewrite decide_False in H2 by congruence.
    by destruct Ho; apply (st_total (klt := z_lt)).
Qed.

Lemma ordered_Permutation branches : ordered branches ≡ₚ branches.
Proof. apply stable_sort_perm. Qed.

Lemma ordered_perm branches branches' :
  NoDup (map branch_key branches) → branches ≡ₚ branches' → ordered branches = ordered branches'.
Proof.
  intros Hnd Hp. unfold ordered. apply stable_sort_unique; [apply _| |done].
  intros x y Hx Hy H1 H2. pose proof (branch_less_key x y H1 H2) as Hk.
  apply list_elem_of_lookup in Hx as [i Hi], Hy as [j Hj].
  assert (i = j) as ->; [|congruence].
  apply (NoDup_lookup (map branch_key branches) i j (branch_key x)); [done| |].
  - by rewrite list_lookup_fmap, Hi.
  - by rewrite list_lookup_fmap, Hj, Hk.
Qed.

Lemma concat_ops_wf branches :
  branches_wf branches → Forall op_wf (concat (map b_patch branches)).
Proof.
  intros Hwf. rewrite Forall_forall. intros op (b & Hb & Hop)%elem_of_concat_map.
  by eapply Hwf.
Qed.

Lemma branches_wf_perm bs bs' : bs ≡ₚ bs' → branches_wf bs → branches_wf bs'.
Proof. intros Hp Hwf b op Hb. apply Hwf. by rewrite Hp. Qed.

#[global] Instance branches_wf_proper : Proper ((≡ₚ) ==> iff) branches_wf.
Proof. intros bs bs' Hp. by split; apply branches_wf_perm. Qed.

Lemma merge_apply base branches options s :
  MergeParallelPatches base branches options = Ok s →
  apply_ops (o_reducers options) (Clone base) (concat (map b_patch (ordered branches))) = Ok s.
Proof.
  destruct branches as [|b bs]; [intros [= <-]; done|].
  rewrite MergeParallelPatches_spec by done. apply merges_apply.
Qed.

Lemma pairs_sorted {A} (R : A → A → Prop) l i j x y :
  (∀ a b, R a b → R b a) → StronglySorted R l →
  l !! i = Some x → l !! j = Some y → i ≠ j → R x y.
Proof.
  intros Hsym Hs. revert i j. induction Hs as [|a l Hl IH Ha]; intros [|i] [|j]; simpl; try done.
  - intros [= ->] Hj _. rewrite Forall_forall in Ha. apply Ha. by eapply list_elem_of_lookup_2.
  - intros Hi [= ->] _. rewrite Forall_forall in Ha. apply Hsym, Ha.
    by eapply list_elem_of_lookup_2.
  - intros Hi Hj Hne. eapply IH; [done..|congruence].
Qed.

Lemma StronglySorted_perm {A} (R : A → A → Prop) l l' :
  (∀ a b, R a b → R b a) → l ≡ₚ l' → StronglySorted R l → StronglySorted R l'.
Proof.
  intros Hsym. induction 1 as [|x l l' Hp IH|x y l|l l' l'' Hp1 IH1 Hp2 IH2]; intros Hs; auto.
  - inversion_clear Hs. constructor; [by apply IH|]. by rewrite <-Hp.
  - inversion_clear Hs as [|? ? Hs' Hy]. inversion_clear Hs'.
    inversion_clear Hy. repeat constructor; auto.
Qed.

(** The conflict check is sound: in an accepted fan-in, two operations of
    different branches touch disjoint paths, or the same path as two appends,
    two reductions by one reducer, two merges with agreeing leaves, two sets of
    one JSON value, or two deletions. *)
Theorem fan_in_compatible base branches options s i j b1 b2 op1 op2 :
  MergeParallelPatches base branches options = Ok s → branches_wf branches →
  branches !! i = Some b1 → branches !! j = Some b2 → i ≠ j →
  op1 ∈ b_patch b1 → op2 ∈ b_patch b2 → compatible op1 op2.
Proof.
  intros Hm Hwf Hi Hj Hij.
  rewrite MergeParallelPatches_spec in Hm by (by intros ->).
  destruct Hm as [_ Hfan _ _].
  pose proof (pairs_sorted (λ b c, ∀ x y, x ∈ b_patch b → y ∈ b_patch c → compatible x y)
    branches i j b1 b2) as Hpairs.
  intros H1 H2. revert op1 op2 H1 H2. apply Hpairs; [|clear Hpairs|done..].
  { intros b c Hbc x y Hx Hy. apply compatible_sym. by apply Hbc. }
  apply (StronglySorted_perm _ (ordered branches)).
  { intros b c Hbc x y Hx Hy. apply compatible_sym. by apply Hbc. }
  { apply stable_sort_perm. }
  refine (StronglySorted_impl _ _ _ _ Hfan).
  intros b c Hb%stable_sort_elem_of Hc%stable_sort_elem_of Hok x y Hx Hy.
  apply list_elem_of_lookup in Hx as [m Hm], Hy as [n Hn].
  apply (pair_compatible (entry_for (o_contracts options) b m x) (entry_for (o_contracts options) c n y)).
  - exact (Hwf b x Hb (list_elem_of_lookup_2 _ _ _ Hm)).
  - exact (Hwf c y Hc (list_elem_of_lookup_2 _ _ _ Hn)).
  - exact (Hok m n x y Hm Hn).
Qed.

(** C2: Isolation: where a branch writes apart from all the others, the merged
    state shows what the branch's own patch makes of the base, whatever the
    other branches did, at every path they leave alone. *)
Theorem fan_in_isolated base l1 b l2 options s q :
  MergeParallelPatches base (l1 ++ b :: l2) options = Ok s →
  branches_wf (l1 ++ b :: l2) →
  ops_disjoint (b_patch b) (concat (map b_patch (l1 ++ l2))) →
  wf_path q → Forall (λ op, disjoint_paths (op_path op) q) (concat (map b_patch (l1 ++ l2))) →
  ∃ sb, ApplyWithReducers (b_patch b) base (o_reducers options) = Ok sb ∧ read s q = read sb q.
Proof.
  intros Hm%merge_apply Hwf Hd Hq Hfr.
  assert (∃ m1 m2, ordered (l1 ++ b :: l2) = m1 ++ b :: m2 ∧ m1 ++ m2 ≡ₚ l1 ++ l2)
    as (m1 & m2 & Ho & Hp).
  { destruct (list_elem_of_split (ordered (l1 ++ b :: l2)) b) as (m1 & m2 & Ho).
    { apply stable_sort_elem_of, elem_of_app. right. left. }
    exists m1, m2. split; [done|].
    apply (Permutation_cons_inv (a := b)). rewrite !Permutation_middle, <-Ho.
    apply stable_sort_perm. }
  assert (branches_wf (m1 ++ b :: m2)) as Hwf'.
  { refine (branches_wf_perm _ _ _ Hwf). by rewrite <-Ho, ordered_Permutation. }
  set (A := concat (map b_patch m1)). set (C := concat (map b_patch m2)).
  assert (∀ op, op ∈ A ++ C → op ∈ concat (map b_patch (l1 ++ l2))) as Hsub.
  { intros op. unfold A, C. rewrite <-concat_app, <-map_app, !elem_of_concat_map.
    by setoid_rewrite Hp. }
  assert (Forall op_wf (A ++ b_patch b ++ C)) as Hall.
  { pose proof (concat_ops_wf _ Hwf') as Hw. by rewrite map_app, concat_app in Hw. }
  rewrite !Forall_app in Hall. destruct Hall as (HA & HB & HC).
  rewrite Ho, map_app, concat_app in Hm. simpl in Hm. fold A C in Hm.
  rewrite app_assoc, apply_ops_app in Hm.
  apply result_bind_Ok in Hm as (s1 & H1 & H2).
  apply apply_ops_swap in H1; [|apply wf_Clone|done..|].
  - rewrite apply_ops_app in H1. apply result_bind_Ok in H1 as (sb & Hb & H1).
    exists sb. split; [done|].
    assert (apply_ops (o_reducers options) sb (A ++ C) = Ok s) as Hrest.
    { by rewrite apply_ops_app, H1. }
    refine (apply_ops_frame _ _ _ _ _ _ _ Hq _ Hrest).
    + by apply (apply_ops_wf (o_reducers options) (Clone base) (b_patch b)); [apply wf_Clone| |].
    + by rewrite Forall_app.
    + rewrite Forall_forall in *. intros op Hop. by apply Hfr, Hsub.
  - intros x y Hx Hy. apply disjoint_paths_sym, Hd; [done|]. apply Hsub, elem_of_app. by left.
Qed.

(** The branches write pairwise disjoint parts of the state. *)
Definition separate (branches : list BranchPatch) : Prop :=
  StronglySorted (λ b c, ops_disjoint (b_patch b) (b_patch c)) branches.

#[global] Instance separate_dec branches : Decision (separate branches).
Proof. unfold separate. apply _. Defined.

Lemma separate_perm bs bs' : bs ≡ₚ bs' → separate bs → separate bs'.
Proof. apply StronglySorted_perm. intros b c. apply ops_disjoint_sym. Qed.

#[global] Instance separate_proper : Proper ((≡ₚ) ==> iff) separate.
Proof. intros bs bs' Hp. by split; apply separate_perm. Qed.

Lemma separate_apply_perm reducers s bs bs' s' :
  wf_state s → bs ≡ₚ bs' → branches_wf bs → separate bs →
  apply_ops reducers s (concat (map b_patch bs)) = Ok s' →
  apply_ops reducers s (concat (map b_patch bs')) = Ok s'.
Proof.
  intros Hs Hp. revert s s' Hs.
  induction Hp as [|b l l' Hp IH|b c l|l l' l'' Hp1 IH1 Hp2 IH2]; intros s s' Hs Hwf Hd; [done| | |].
  - simpl. rewrite !apply_ops_app. intros (s1 & H1 & H2)%result_bind_Ok. rewrite H1. simpl.
    inversion_clear Hd. apply IH; [|intros ? ? ?; apply Hwf; by right|done|done].
    refine (apply_ops_wf _ _ _ _ Hs _ H1). rewrite Forall_forall. intros op. apply Hwf. left.
  - simpl. rewrite !app_assoc, !(apply_ops_app _ s (_ ++ _)).
    intros (s1 & H1 & H2)%result_bind_Ok. inversion_clear Hd as [|? ? _ Hbc].
    inversion_clear Hbc as [|? ? Hbc' _].
    rewrite (apply_ops_swap reducers s (b_patch c) (b_patch b) s1); try done;
      rewrite Forall_forall; intros op; apply Hwf; [left|right; left].
  - intros H1. apply IH2; [done| | |by apply IH1].
    + by apply (branches_wf_perm l).
    + by apply (separate_perm l).
Qed.

(** No order matters between branches that write disjoint parts of the
    state: applying their patches one after the other in any order to the base
    gives the merged state. *)
Theorem fan_in_any_order base branches branches' options s :
  MergeParallelPatches base branches options = Ok s →
  branches_wf branches → separate branches → branches ≡ₚ branches' →
  ApplyWithReducers (concat (map b_patch branches')) base (o_reducers options) = Ok s.
Proof.
  intros Hm%merge_apply Hwf Hd Hp. unfold ApplyWithReducers.
  assert (branches ≡ₚ ordered branches) as Ho by (symmetry; apply stable_sort_perm).
  refine (separate_apply_perm _ _ (ordered branches) _ _ (wf_Clone base) _ _ _ Hm).
  - by rewrite <-Ho.
  - by rewrite <-Ho.
  - by rewrite <-Ho.
Qed.

Lemma separate_fan contracts bs :
  branches_wf bs → separate bs → StronglySorted (fan_ok contracts) bs.
Proof.
  intros Hwf. apply StronglySorted_impl. intros b c Hb Hc Hd i j x y Hx%list_elem_of_lookup_2 Hy%list_elem_of_lookup_2.
  apply pair_disjoint; simpl; [by apply (Hwf b)|by apply (Hwf c)|by apply Hd].
Qed.

(** The conflict check is complete for separate branches: when the branches
    write disjoint parts of the state, fan-in fails only for a branch outside
    its contract, an operation that does not apply, or a result that breaks a
    schema. *)
Theorem fan_in_separate base branches options s :
  branches ≠ [] → branches_wf branches → separate branches →
  MergeParallelPatches base branches options = Ok s ↔
  (∀ b, b ∈ branches → check_branch (o_contracts options) b = Ok tt) ∧
  ApplyWithReducers (concat (map b_patch (ordered branches))) base (o_reducers options) = Ok s ∧
  merge_issues s (concat (map b_patch (ordered branches))) options = [].
Proof.
  intros Hne Hwf Hd. rewrite MergeParallelPatches_spec by done.
  assert (branches ≡ₚ ordered branches) as Ho by (symmetry; apply stable_sort_perm).
  split.
  - intros [Hc _ Ha Hi]. split_and!; [|done|done]. intros b Hb. apply Hc. by rewrite <-Ho.
  - intros (Hc & Ha & Hi). split; [|by apply separate_fan; rewrite <-Ho|done|done].
    intros b Hb. apply Hc. by rewrite Ho.
Qed.
End properties.

(** C1: Fan-in is independent of the order in which the branches arrive.  When
    the branches have distinct (order, node) keys, a permutation of them is
    accepted under the same orders of the maps, with the same state; and whatever
    the orders of the maps are, no two accepted merges of them give different
    states. *)
Theorem fan_in_permutation `{SchemaEngine} base branches branches' options :
  NoDup (map branch_key branches) → branches ≡ₚ branches' →
  (∀ (o : MapOrder) s,
     MergeParallelPatches base branches options = Ok s ↔ MergeParallelPatches base branches' options = Ok s) ∧
  (∀ (o o' : MapOrder) s s',
     MergeParallelPatches (H0 := o) base branches options = Ok s →
     MergeParallelPatches (H0 := o') base branches' options = Ok s' → s = s').
Proof.
  intros Hnd Hp. pose proof (ordered_perm _ _ Hnd Hp) as Ho. split.
  - intros o s. destruct branches as [|b bs]; [by apply Permutation_nil_l in Hp as <-|].
    rewrite !MergeParallelPatches_spec; [|intros ->; by apply Permutation_nil_r in Hp|done].
    by rewrite Ho.
  - intros o o' s s' H1%merge_apply H2%merge_apply. rewrite Ho in H1. congruence.
Qed.

(** ** Concrete runs *)

(** Two orders of the maps. *)
Definition forwards : MapOrder := {| range A site m := map_to_list m; range_perm A site m := Permutation_refl _ |}.
Definition backwards : MapOrder :=
  {| range A site m := reverse (map_to_list m); range_perm A site m := reverse_Permutation _ |}.

Section runs.
#[local] Existing Instance forwards.

Definition sample_op (kind : PatchOpKind) (segs : list string) (v : value) : PatchOp :=
  MkOp kind (MkPath SectionShared segs) v "".

Definition sample_base : option State := Some (FromShared {["count" := VInt IInt 1]}).

Definition sample_a : BranchPatch :=
  MkBranch "t1" "a" 0 [sample_op OpSet ["a"; "x"] (VInt IInt 1); sample_op OpDelete ["count"] VNil].
Definition sample_b : BranchPatch :=
  MkBranch "t2" "b" 0 [sample_op OpAppend ["log"] (VStr "done")].

Definition sample_options : ParallelMergeOptions := MkOptions ∅ ∅ ∅.

Definition sample_merge (branches : list BranchPatch) : State :=
  match MergeParallelPatches (H := permissive_engine) sample_base branches sample_options with
  | Ok s => s
  | Err _ => NewState
  end.

Lemma sample_wf : branches_wf [sample_a; sample_b].
Proof. by apply (bool_decide_unpack _). Defined.

Lemma sample_separate : separate [sample_a; sample_b].
Proof. by apply (bool_decide_unpack _). Defined.

Lemma sample_merges : MergeParallelPatches (H := permissive_engine) sample_base
  [sample_b; sample_a] sample_options = Ok (sample_merge [sample_b; sample_a]).
Proof. vm_compute. reflexivity. Defined.

Lemma fan_in_permutation_witness :
  MergeParallelPatches (H := permissive_engine) sample_base [sample_a; sample_b] sample_options
  = Ok (sample_merge [sample_b; sample_a]).
Proof.
  apply (proj1 (fan_in_permutation (H := permissive_engine) sample_base [sample_b; sample_a]
    [sample_a; sample_b] sample_options ltac:(by apply (bool_decide_unpack _)) ltac:(apply Permutation_swap)) forwards).
  exact sample_merges.
Defined.

Lemma fan_in_compatible_witness :
  compatible (sample_op OpAppend ["log"] (VStr "done")) (sample_op OpDelete ["count"] VNil).
Proof.
  apply (fan_in_compatible (H := permissive_engine) sample_base [sample_b; sample_a] sample_options
    (sample_merge [sample_b; sample_a]) 0 1 sample_b sample_a).
  - exact sample_merges.
  - rewrite Permutation_swap. exact sample_wf.
  - reflexivity.
  - reflexivity.
  - discriminate.
  - left.
  - right. left.
Defined.

Lemma fan_in_isolated_witness :
  ∃ sb, ApplyWithReducers (b_patch sample_a) sample_base ∅ = Ok sb ∧
    read (sample_merge [sample_b; sample_a]) (MkPath SectionShared ["a"]) =
    read sb (MkPath SectionShared ["a"]).
Proof.
  apply (fan_in_isolated (H := permissive_engine) sample_base [sample_b] sample_a [] sample_options).
  - exact sample_merges.
  - by apply (bool_decide_unpack _).
  - by apply (bool_decide_unpack _).
  - by apply (bool_decide_unpack _).
  - repeat constructor.
Defined.

Lemma fan_in_any_order_witness :
  ApplyWithReducers (b_patch sample_a ++ b_patch sample_b) sample_base ∅
  = Ok (sample_merge [sample_b; sample_a]).
Proof.
  apply (fan_in_any_order (H := permissive_engine) sample_base [sample_b; sample_a]
    [sample_a; sample_b] sample_options).
  - exact sample_merges.
  - rewrite Permutation_swap. exact sample_wf.
  - rewrite Permutation_swap. exact sample_separate.
  - apply Permutation_swap.
Defined.

Lemma fan_in_separate_witness :
  MergeParallelPatches (H := permissive_engine) sample_base [sample_a; sample_b] sample_options
  = Ok (sample_merge [sample_a; sample_b]).
Proof.
  apply (fan_in_separate (H := permissive_engine) sample_base [sample_a; sample_b] sample_options);
    [discriminate|exact sample_wf|exact sample_separate|].
  split_and!; [|by vm_compute..].
  intros b Hb. apply list_elem_of_In in Hb. simpl in Hb. by destruct Hb as [<-|[<-|[]]]; vm_compute.
Defined.
End runs.

(** ** Where the order of a map decides *)

(** An overlay with a dotted member name has two leaves of one name, and the later
    assignment wins: whether a second branch agrees with it is left to the order
    in which the object is traversed.  What is accepted is the same state. *)
Definition dotted_branches : list BranchPatch :=
  [MkBranch "t1" "a" 0 [sample_op OpMerge ["doc"] (VMap {["a.b" := VInt IInt 1; "a" := VMap {["b" := VInt IInt 2]}]})];
   MkBranch "t2" "b" 0 [sample_op OpMerge ["doc"] (VMap {["a.b" := VInt IInt 1]})]].



Example overlay_order_decides :
  xorb (result_ok (MergeParallelPatches (H := permissive_engine) (H0 := forwards) sample_base dotted_branches sample_options))
       (result_ok (MergeParallelPatches (H := permissive_engine) (H0 := backwards) sample_base dotted_branches sample_options)) = true.
Proof. vm_compute. reflexivity. Qed.

(** Two contracts that give one path the same schema, only one of them requiring
    it: the contract that is met first decides whether a missing value is an issue. *)
Definition lenient_options : ParallelMergeOptions :=
  let f required := MkField (MkPath SectionShared ["doc"; "x"]) AccessWrite required MergeDefault "" "" {["type" := VStr "string"]} "" in
  MkOptions {["a" := MkContract [f false] false true; "c" := MkContract [f true] false true]} ∅ ∅.

Example contract_order_decides :
  let branches := [MkBranch "t1" "a" 0 [sample_op OpSet ["doc"] (VMap ∅)]] in
  xorb (result_ok (MergeParallelPatches (H := permissive_engine) (H0 := forwards) sample_base branches lenient_options))
       (result_ok (MergeParallelPatches (H := permissive_engine) (H0 := backwards) sample_base branches lenient_options)) = true.
Proof. vm_compute. reflexivity. Qed.
