(* ===== verification/Errors.v ===== *)
(** * Errors and effects: [core/execution_error.go], [core/effect.go]

    A Go error is the tree [Unwrap] spans: [errors.As] and [errors.Is] search
    it depth first, the error itself before its causes. *)

From S2P Require Import Prelude GoStrings Values.

(** ** Error values *)

(** The error types the program tells apart.  [EText] is any other leaf, with
    its text; [EWrap] is [fmt.Errorf] with [%w]; [EJoin] is [errors.Join]; the
    text of a wrapper is the string already rendered. *)
Inductive go_error :=
  | EText (text : string)
  | ECanceled
  | EDeadline
  | EClassified (class message : string) (details : option vmap) (cause : option go_error)
  | ECondition (source target id : string) (details : vmap) (cause : go_error)
  | EInterrupt (node : string) (v : value)
  | EGraphInterrupt (node : string)
  | EWrap (text : string) (cause : go_error)
  | EJoin (causes : list go_error).

(** [errors.As] for a target type recognised by [match_]: the first match of
    the walk, which skips what the walk never reaches. *)
Fixpoint errors_as {A} (match_ : go_error → option A) (err : go_error) : option A :=
  match match_ err with
  | Some a => Some a
  | None =>
    match err with
    | EClassified _ _ _ (Some cause) | ECondition _ _ _ _ cause | EWrap _ cause =>
      errors_as match_ cause
    | EJoin causes =>
      (fix walk causes := match causes with
        | [] => None
        | c :: causes' => match errors_as match_ c with Some a => Some a | None => walk causes' end
        end) causes
    | _ => None
    end
  end.

(** [errors.Is] for the two context errors. *)
Definition errors_is (target : go_error) (err : go_error) : bool :=
  match errors_as (λ e, match target, e with
                        | ECanceled, ECanceled | EDeadline, EDeadline => Some tt
                        | _, _ => None
                        end) err with
  | Some _ => true
  | None => false
  end.

(** ** Error classes *)

Definition ErrorUnknown : string := "unknown".
Definition ErrorInvalidInput : string := "invalid_input".
Definition ErrorInvalidOutput : string := "invalid_output".
Definition ErrorTimeout : string := "timeout".
Definition ErrorCanceled : string := "canceled".
Definition ErrorRateLimited : string := "rate_limited".
Definition ErrorUnavailable : string := "unavailable".
Definition ErrorPermissionDenied : string := "permission_denied".
Definition ErrorSideEffectFailed : string := "side_effect_failed".
Definition ErrorResourceExhausted : string := "resource_exhausted".
Definition ErrorNonRetryable : string := "non_retryable".

Definition normalizeErrorClass (class : string) : string :=
  let class := TrimSpace class in
  if bool_decide (class = "") then ErrorUnknown else class.

(** [NewExecutionError]; the details are cloned, which the model's values need
    not show. *)
Definition NewExecutionError (class message : string) (cause : option go_error)
    (details : option vmap) : go_error :=
  EClassified (normalizeErrorClass class) (TrimSpace message) details cause.

(** The [ExecutionError] interface: a [ClassifiedError], or a [ConditionError],
    whose class is fixed. *)
Record ExecutionError := MkExecutionError { Class : string; Details : option vmap }.

Definition as_execution (err : go_error) : option ExecutionError :=
  match err with
  | EClassified class _ details _ => Some (MkExecutionError (normalizeErrorClass class) details)
  | ECondition _ _ _ details _ => Some (MkExecutionError ErrorNonRetryable (Some details))
  | _ => None
  end.

Definition ClassifyError (err : option go_error) : string :=
  match err with
  | None => ErrorUnknown
  | Some err =>
    match errors_as as_execution err with
    | Some e => normalizeErrorClass (Class e)
    | None =>
      if errors_is EDeadline err then ErrorTimeout
      else if errors_is ECanceled err then ErrorCanceled
      else ErrorUnknown
    end
  end.

Definition IsRetryableErrorClass (class : string) : bool :=
  let class := normalizeErrorClass class in
  bool_decide (class = ErrorTimeout) || bool_decide (class = ErrorRateLimited)
  || bool_decide (class = ErrorUnavailable).

(** The text of an error, which nothing branches on: the rendering is left to
    an instance. *)
Class ErrorText := error_text : go_error → string.

(** ** Effect classes *)

Definition EffectUnspecified : string := "unspecified".
Definition EffectPure : string := "pure".
Definition EffectReadOnly : string := "read_only".
Definition EffectIdempotentWrite : string := "idempotent_write".
Definition EffectNonIdempotentWrite : string := "non_idempotent_write".
Definition EffectCompensatable : string := "compensatable".

(** The part of [EffectOperation] the scheduler reads. *)
Record EffectOperation := MkEffect { eff_Key : string; eff_Class : string; IdempotencyKey : string }.

Definition effect_classes : list string :=
  [EffectPure; EffectReadOnly; EffectIdempotentWrite; EffectNonIdempotentWrite; EffectCompensatable].

Definition NormalizeEffectClass (class : string) : string :=
  let class := TrimSpace class in
  if bool_decide (class ∈ effect_classes) then class else EffectUnspecified.

Definition IsWriteEffect (class : string) : bool :=
  bool_decide (NormalizeEffectClass class ∈
    [EffectIdempotentWrite; EffectNonIdempotentWrite; EffectCompensatable]).

(** ** Lemmas *)

Lemma normalizeErrorClass_idemp class :
  normalizeErrorClass (normalizeErrorClass class) = normalizeErrorClass class.
Proof.
  unfold normalizeErrorClass at 2 3. case_bool_decide as Hc; [done|].
  unfold normalizeErrorClass. rewrite (TrimSpace_trimmed class : TrimSpace _ = _).
  by rewrite bool_decide_false.
Qed.

Lemma normalizeErrorClass_nonempty class : normalizeErrorClass class ≠ "".
Proof. unfold normalizeErrorClass. by case_bool_decide. Qed.

Lemma NormalizeEffectClass_idemp class :
  NormalizeEffectClass (NormalizeEffectClass class) = NormalizeEffectClass class.
Proof.
  unfold NormalizeEffectClass at 2 3. case_bool_decide as Hc; [|done].
  unfold NormalizeEffectClass. rewrite (TrimSpace_trimmed class : TrimSpace _ = _).
  by rewrite bool_decide_true.
Qed.

(** Wrapping leaves the class alone. *)
Lemma ClassifyError_wrap text err : ClassifyError (Some (EWrap text err)) = ClassifyError (Some err).
Proof. done. Qed.

Lemma ClassifyError_new class message cause details :
  ClassifyError (Some (NewExecutionError class message cause details)) = normalizeErrorClass class.
Proof. simpl. by rewrite !normalizeErrorClass_idemp. Qed.

Lemma ClassifyError_normal err : normalizeErrorClass (ClassifyError err) = ClassifyError err.
Proof.
  unfold ClassifyError. destruct err as [err|]; [|done].
  destruct (errors_as as_execution err); [apply normalizeErrorClass_idemp|].
  by repeat case_match.
Qed.
