(* ===== verification/Worklist.v ===== *)
(** * Breadth-first searches over string-named nodes

    The graph package runs its worklist loop in two forms: one marks a node when
    it leaves the queue ([reachableNodes]), one when it enters
    ([terminalReachableNodes], [compileReachability]).  Both are written with
    fuel; the lemmas give the fuel that is enough and what the loops compute. *)

From S2P Require Import Prelude.

Section worklist.
Context (succ : string → list string).

Definition edge (x y : string) : Prop := y ∈ succ x.

(** Mark on leaving the queue: a node seen before is skipped. *)
Fixpoint visit_pop (fuel : nat) (seen : gset string) (queue : list string)
    : option (gset string) :=
  match fuel with
  | 0 => None
  | S fuel =>
    match queue with
    | [] => Some seen
    | x :: queue =>
      if bool_decide (x ∈ seen) then visit_pop fuel seen queue
      else
        let seen := {[x]} ∪ seen in
        visit_pop fuel seen (queue ++ filter (λ y, y ∉ seen) (succ x))
    end
  end.

(** Mark on entering the queue. *)
Fixpoint push_new (targets : list string) (seen : gset string) (queue : list string)
    : gset string * list string :=
  match targets with
  | [] => (seen, queue)
  | y :: targets =>
    if bool_decide (y ∈ seen) then push_new targets seen queue
    else push_new targets ({[y]} ∪ seen) (queue ++ [y])
  end.

Fixpoint visit_push (fuel : nat) (seen : gset string) (queue : list string)
    : option (gset string) :=
  match fuel with
  | 0 => None
  | S fuel =>
    match queue with
    | [] => Some seen
    | x :: queue =>
      let '(seen, queue) := push_new (succ x) seen queue in
      visit_push fuel seen queue
    end
  end.

(** ** Marking on leaving *)

Lemma visit_pop_sound fuel seen queue r start :
  (∀ x, x ∈ seen ∨ x ∈ queue → rtc edge start x) →
  visit_pop fuel seen queue = Some r → ∀ x, x ∈ r → rtc edge start x.
Proof.
  revert seen queue. induction fuel as [|fuel IH]; intros seen queue Hinv; simpl; [done|].
  destruct queue as [|x queue]; [intros [= <-] y Hy; apply Hinv; by left|].
  case_bool_decide as Hx.
  - apply IH. intros y [Hy|Hy]; apply Hinv; [by left|right; by right].
  - apply IH. intros y [Hy|Hy].
    + apply elem_of_union in Hy as [->%elem_of_singleton|Hy]; apply Hinv; [right; left|by left].
    + apply elem_of_app in Hy as [Hy|[_ Hy]%list_elem_of_filter]; [apply Hinv; right; by right|].
      apply (rtc_r start x y); [apply Hinv; right; left|done].
Qed.

Lemma visit_pop_closed fuel seen queue r :
  (∀ x y, x ∈ seen → edge x y → y ∈ seen ∨ y ∈ queue) →
  visit_pop fuel seen queue = Some r →
  (∀ x, x ∈ seen ∨ x ∈ queue → x ∈ r) ∧ (∀ x y, x ∈ r → edge x y → y ∈ r).
Proof.
  revert seen queue. induction fuel as [|fuel IH]; intros seen queue Hinv; simpl; [done|].
  destruct queue as [|x queue].
  { intros [= <-]. split; [intros x [Hx|Hx%elem_of_nil]; done|].
    intros x y Hx Hy. by destruct (Hinv x y Hx Hy) as [|Hn%elem_of_nil]. }
  case_bool_decide as Hx; intros Hr.
  - apply IH in Hr as [Hsub Hcl].
    + split; [|done]. intros y [Hy|[->|Hy]%elem_of_cons]; apply Hsub; auto.
    + intros a b Ha Hab. destruct (Hinv a b Ha Hab) as [Hb|[->|Hb]%elem_of_cons]; auto.
  - apply IH in Hr as [Hsub Hcl].
    + split; [|done]. intros y Hy. apply Hsub. rewrite elem_of_union, elem_of_app.
      destruct Hy as [Hy|[->|Hy]%elem_of_cons]; [auto|left; left; by apply elem_of_singleton|auto].
    + intros a b Ha Hab. rewrite elem_of_union, elem_of_app, list_elem_of_filter.
      destruct (decide (b ∈ {[x]} ∪ seen)) as [Hb|Hb]; [by left; apply elem_of_union|right].
      apply elem_of_union in Ha as [->%elem_of_singleton|Ha]; [by right|].
      rewrite elem_of_union, elem_of_singleton in Hb.
      destruct (Hinv a b Ha Hab) as [|[->|?]%elem_of_cons]; [tauto|tauto|by left].
Qed.

Lemma visit_pop_spec fuel start r :
  visit_pop fuel ∅ [start] = Some r → ∀ x, x ∈ r ↔ rtc edge start x.
Proof.
  intros Hr x. split.
  - revert x. apply (visit_pop_sound fuel ∅ [start] r start); [|done].
    intros y [Hy|Hy]; [by apply elem_of_empty in Hy|apply list_elem_of_singleton in Hy as ->; constructor].
  - apply visit_pop_closed in Hr as [Hsub Hcl]; [|by intros ? ? ?%elem_of_empty].
    assert (start ∈ r) as Hs by (apply Hsub; right; left). clear Hsub.
    induction 1 as [|a b c Hab _ IH]; [done|]. exact (IH (Hcl _ _ Hs Hab)).
Qed.

(** The edges still to follow from a set of nodes. *)
Definition todo (X : gset string) : nat := sum_list_with (λ x, length (succ x)) (elements X).

Lemma todo_visit V seen x :
  x ∈ V → x ∉ seen → todo (V ∖ seen) = length (succ x) + todo (V ∖ ({[x]} ∪ seen)).
Proof.
  intros HV Hx. unfold todo.
  assert (V ∖ seen = {[x]} ∪ (V ∖ ({[x]} ∪ seen))) as ->.
  { apply set_eq. intros y. rewrite elem_of_union, !elem_of_difference, elem_of_union,
      !elem_of_singleton. destruct (decide (y = x)) as [->|]; tauto. }
  rewrite elements_union_singleton; [done|]. set_solver.
Qed.

(** The queue never holds more than the edges out of unseen nodes allow. *)
Lemma visit_pop_total (V : gset string) fuel seen queue :
  (∀ x, x ∈ queue → x ∈ V) → (∀ x y, x ∈ V → edge x y → y ∈ V) →
  length queue + todo (V ∖ seen) < fuel → is_Some (visit_pop fuel seen queue).
Proof.
  intros Hqueue HV. revert seen queue Hqueue.
  induction fuel as [|fuel IH]; intros seen queue Hqueue Hlt; [lia|]. simpl.
  destruct queue as [|x queue]; [eauto|]. simpl in Hlt.
  case_bool_decide as Hx.
  - apply IH; [|lia]. intros y Hy. apply Hqueue. by right.
  - assert (x ∈ V) as HxV by (apply Hqueue; left).
    apply IH.
    + intros y [Hy|[_ Hy]%list_elem_of_filter]%elem_of_app; [apply Hqueue; by right|by apply (HV x)].
    + rewrite (todo_visit V seen x HxV Hx) in Hlt. rewrite length_app.
      pose proof (length_filter (λ y, y ∉ {[x]} ∪ seen) (succ x)) as Hf.
      revert Hlt Hf. generalize (todo (V ∖ ({[x]} ∪ seen))) (length (succ x)).
      generalize (length (filter (λ y, y ∉ {[x]} ∪ seen) (succ x))). intros. lia.
Qed.

(** ** Marking on entering *)

Lemma push_new_spec targets seen queue seen' queue' :
  push_new targets seen queue = (seen', queue') →
  (∀ y, y ∈ seen' ↔ y ∈ seen ∨ y ∈ targets) ∧
  (∀ y, y ∈ queue' ↔ y ∈ queue ∨ (y ∈ targets ∧ y ∉ seen)) ∧
  length queue' + size seen = length queue + size seen'.
Proof.
  revert seen queue. induction targets as [|t targets IH]; intros seen queue; simpl.
  - intros [= <- <-]. setoid_rewrite elem_of_nil. split_and!; [tauto|tauto|lia].
  - case_bool_decide as Ht; intros (Hs & Hq & Hl)%IH.
    + split_and!; [| |done]; intros y; rewrite ?Hs, ?Hq, elem_of_cons; naive_solver.
    + split_and!.
      * intros y. rewrite Hs, elem_of_union, elem_of_singleton, elem_of_cons. tauto.
      * intros y. rewrite Hq, elem_of_app, list_elem_of_singleton, elem_of_cons,
          elem_of_union, elem_of_singleton. destruct (decide (y = t)) as [->|]; tauto.
      * rewrite length_app, size_union, size_singleton in Hl; [simpl in Hl; lia|set_solver].
Qed.

Lemma visit_push_sound fuel seen queue r (P : string → Prop) :
  (∀ x y, P x → edge x y → P y) →
  (∀ x, x ∈ queue → ∀ y, edge x y → P y) → (∀ x, x ∈ seen → P x) →
  visit_push fuel seen queue = Some r → ∀ x, x ∈ r → P x.
Proof.
  intros HP. revert seen queue. induction fuel as [|fuel IH]; intros seen queue Hq Hs; simpl; [done|].
  destruct queue as [|x queue]; [by intros [= <-]|].
  destruct (push_new (succ x) seen queue) as [seen' queue'] eqn:Hpush.
  apply push_new_spec in Hpush as (Hs' & Hq' & _). apply IH.
  - intros y Hy z Hyz. apply Hq' in Hy as [Hy|[Hy _]].
    + apply (Hq y); [by right|done].
    + apply (HP y); [|done]. apply (Hq x); [left|done].
  - intros y [Hy|Hy]%Hs'; [by apply Hs|]. apply (Hq x); [left|done].
Qed.

Lemma visit_push_closed fuel seen queue r (done_ : string → Prop) :
  (∀ x, x ∈ seen → done_ x ∨ x ∈ queue) → (∀ x y, done_ x → edge x y → y ∈ seen) →
  visit_push fuel seen queue = Some r →
  (∀ x, x ∈ seen → x ∈ r) ∧
  (∀ x y, x ∈ r ∨ x ∈ queue ∨ done_ x → edge x y → y ∈ r).
Proof.
  revert seen queue done_.
  induction fuel as [|fuel IH]; intros seen queue done_ Hs Hd; simpl; [done|].
  destruct queue as [|x queue].
  { intros [= <-]. split; [done|]. intros x y [Hx|[Hx%elem_of_nil|Hx]] Hxy; [|done|by apply (Hd x)].
    destruct (Hs x Hx) as [|Hn%elem_of_nil]; [by apply (Hd x)|done]. }
  destruct (push_new (succ x) seen queue) as [seen' queue'] eqn:Hpush.
  apply push_new_spec in Hpush as (Hs' & Hq' & _). intros Hr.
  apply (IH _ _ (λ z, done_ z ∨ z = x)) in Hr as [Hsub Hcl].
  - split.
    + intros y Hy. apply Hsub, Hs'. by left.
    + intros a b Ha Hab. apply (Hcl a b); [|done].
      destruct Ha as [Ha|[[->|Ha]%elem_of_cons|Ha]]; [by left|tauto| |tauto].
      right. left. apply Hq'. by left.
  - intros y [Hy|Hy]%Hs'.
    + destruct (Hs y Hy) as [|[->|?]%elem_of_cons]; [tauto|tauto|].
      right. apply Hq'. by left.
    + destruct (decide (y ∈ seen)) as [Hin|Hin]; [|right; apply Hq'; by right].
      destruct (Hs y Hin) as [|[->|?]%elem_of_cons]; [tauto|tauto|].
      right. apply Hq'. by left.
  - intros a b [Ha| ->] Hab; apply Hs'; [left; by apply (Hd a)|by right].
Qed.

Lemma visit_push_total (V : gset string) fuel seen queue :
  (∀ x, x ∈ seen → x ∈ V) → (∀ x y, x ∈ queue ∨ x ∈ V → edge x y → y ∈ V) →
  length queue + size V - size seen < fuel → is_Some (visit_push fuel seen queue).
Proof.
  revert seen queue. induction fuel as [|fuel IH]; intros seen queue Hs HV Hlt; [lia|]. simpl.
  destruct queue as [|x queue]; [eauto|]. simpl in Hlt.
  destruct (push_new (succ x) seen queue) as [seen' queue'] eqn:Hpush.
  apply push_new_spec in Hpush as (Hs' & Hq' & Hl).
  assert (∀ y, y ∈ seen' → y ∈ V) as Hsub.
  { intros y [Hy|Hy]%Hs'; [by apply Hs|]. apply (HV x); [left; left|done]. }
  assert (size seen ≤ size V) by (apply subseteq_size; intros y; apply Hs).
  assert (size seen' ≤ size V) by (apply subseteq_size; intros y; apply Hsub).
  apply IH; [done| |lia].
  intros a b [Ha|Ha] Hab; [|apply (HV a); [by right|done]].
  apply Hq' in Ha as [Ha|[Ha _]]; apply (HV a); [left; by right|done| |done].
  right. apply (HV x); [left; left|done].
Qed.

(** What the marking-on-entering loop computes from one start: the nodes some
    non-empty path reaches. *)
Lemma visit_push_start fuel start r :
  visit_push fuel ∅ [start] = Some r → ∀ x, x ∈ r ↔ tc edge start x.
Proof.
  intros Hr x. split.
  - revert x. apply (visit_push_sound fuel ∅ [start] r (tc edge start)); [| | |done].
    + intros a b Ha Hab. by apply (tc_r start a b).
    + intros a Ha b Hab. apply list_elem_of_singleton in Ha as ->. by apply tc_once.
    + by intros a Ha%elem_of_empty.
  - apply (visit_push_closed fuel ∅ [start] r (λ _, False)) in Hr as [_ Hcl];
      [|by intros a Ha%elem_of_empty|done].
    assert (∀ a b, tc edge a b → a ∈ r ∨ a = start → b ∈ r) as Htc; [|intros Htx; exact (Htc _ _ Htx (or_intror eq_refl))].
    induction 1 as [a b Hab|a b c Hab _ IH]; intros Ha.
    + apply (Hcl a b); [|done]. destruct Ha as [| ->]; [by left|right; left; left].
    + apply IH. left. apply (Hcl a b); [|done].
      destruct Ha as [| ->]; [by left|right; left; left].
Qed.

(** And from a marked set: the nodes some path from the set reaches. *)
Lemma visit_push_set fuel (seen : gset string) queue r :
  (∀ x, x ∈ queue ↔ x ∈ seen) → visit_push fuel seen queue = Some r →
  ∀ x, x ∈ r ↔ ∃ t, t ∈ seen ∧ rtc edge t x.
Proof.
  intros Hq Hr x. split.
  - revert x.
    apply (visit_push_sound fuel seen queue r (λ x, ∃ t, t ∈ seen ∧ rtc edge t x)); [| | |done].
    + intros a b (t & Ht & Hta) Hab. exists t. split; [done|]. by apply (rtc_r t a b).
    + intros a Ha b Hab. exists a. split; [by apply Hq|]. by apply rtc_once.
    + intros a Ha. exists a. split; [done|constructor].
  - apply (visit_push_closed fuel seen queue r (λ _, False)) in Hr as [Hsub Hcl];
      [|intros a Ha; right; by apply Hq|done].
    intros (t & Ht & Htx). apply Hsub in Ht. revert Ht.
    induction Htx as [|a b c Hab _ IH]; [done|]. intros Ha. apply IH.
    apply (Hcl a b); [by left|done].
Qed.

End worklist.

Lemma size_list_to_set_le (l : list string) : size (list_to_set l : gset string) ≤ length l.
Proof.
  induction l as [|y l IH]; [by rewrite list_to_set_nil, size_empty|].
  rewrite list_to_set_cons. destruct (decide (y ∈ (list_to_set l : gset string))).
  - rewrite subseteq_union_1_L; [simpl; lia|]. by apply singleton_subseteq_l.
  - rewrite size_union, size_singleton; [simpl; lia|]. by apply disjoint_singleton_l.
Qed.

(** ** A search that lists what it visits

    [prep] puts an item in normal form when it leaves the queue, or drops it, and
    [key] is what the table of visited items is indexed by. *)
Section visit_all.
Context {A : Type} (key : A → string) (prep : A → option A) (next : A → list A).

Fixpoint visit_all (fuel : nat) (seen : gset string) (queue order : list A) : option (list A) :=
  match fuel with
  | 0 => None
  | S fuel =>
    match queue with
    | [] => Some order
    | x :: queue =>
      match prep x with
      | None => visit_all fuel seen queue order
      | Some x =>
        if bool_decide (key x ∈ seen) then visit_all fuel seen queue order
        else visit_all fuel ({[key x]} ∪ seen) (queue ++ next x) (order ++ [x])
      end
    end
  end.

Lemma visit_all_sound (P : A → Prop) fuel seen queue order r :
  (∀ x y y', P x → y ∈ next x → prep y = Some y' → P y') →
  (∀ x x', x ∈ queue → prep x = Some x' → P x') → (∀ x, x ∈ order → P x) →
  visit_all fuel seen queue order = Some r → ∀ x, x ∈ r → P x.
Proof.
  intros HP. revert seen queue order.
  induction fuel as [|fuel IH]; intros seen queue order Hq Ho; simpl; [done|].
  destruct queue as [|x queue]; [by intros [= <-]|].
  assert (∀ z z', z ∈ queue → prep z = Some z' → P z') as Hq' by (intros z z' Hz; apply Hq; by right).
  destruct (prep x) as [x'|] eqn:Hx; [|by apply IH].
  assert (P x') as Hp by (apply (Hq x); [left|done]).
  case_bool_decide; [by apply IH|]. apply IH.
  - intros z z' [Hz|Hz]%elem_of_app; [by apply Hq'|by eapply HP].
  - intros z [Hz| ->%list_elem_of_singleton]%elem_of_app; [by apply Ho|done].
Qed.

(** The visited items are those of the table, each key once. *)
Lemma visit_all_keys fuel seen queue order r :
  (∀ k, k ∈ seen ↔ k ∈ map key order) → NoDup (map key order) →
  visit_all fuel seen queue order = Some r → NoDup (map key r).
Proof.
  revert seen queue order. induction fuel as [|fuel IH]; intros seen queue order Hs Hn; simpl; [done|].
  destruct queue as [|x queue]; [by intros [= <-]|].
  destruct (prep x) as [x'|]; [|by apply IH]. case_bool_decide as Hk; [by apply IH|]. apply IH.
  - intros k. rewrite map_app, elem_of_app, elem_of_union, elem_of_singleton, Hs. simpl.
    rewrite list_elem_of_singleton. tauto.
  - rewrite map_app. apply NoDup_app. split_and!; [done| |apply NoDup_singleton].
    intros k Hk1 Hk2%list_elem_of_singleton. subst. by apply Hk, Hs.
Qed.

Definition covered (l : list A) (x : A) : Prop := ∀ x', prep x = Some x' → ∃ z, z ∈ l ∧ key z = key x'.

Lemma visit_all_closed fuel seen queue order r :
  (∀ k, k ∈ seen ↔ k ∈ map key order) →
  (∀ x y, x ∈ order → y ∈ next x → y ∈ queue ∨ covered order y) →
  visit_all fuel seen queue order = Some r →
  (∀ x, x ∈ order → x ∈ r) ∧ (∀ x, x ∈ queue → covered r x) ∧ (∀ x y, x ∈ r → y ∈ next x → covered r y).
Proof.
  revert seen queue order. induction fuel as [|fuel IH]; intros seen queue order Hs Hc; simpl; [done|].
  destruct queue as [|x queue].
  { intros [= <-]. split_and!; [done|by intros x ?%elem_of_nil|].
    intros x y Hx Hy. by destruct (Hc x y Hx Hy) as [?%elem_of_nil|]. }
  destruct (prep x) as [x'|] eqn:Hx; cycle 1.
  { intros (H1 & H2 & H3)%IH; [|done|].
    - split_and!; [done| |done]. intros z [->|Hz]%elem_of_cons; [|by apply H2]. intros z' Hz'. congruence.
    - intros a b Ha Hb. destruct (Hc a b Ha Hb) as [[->|Hq]%elem_of_cons|Hcov]; [|by left|by right].
      right. intros z' Hz'. congruence. }
  case_bool_decide as Hk.
  { assert (covered order x) as Hcx.
    { intros z Hz. rewrite Hx in Hz. injection Hz as <-. apply Hs, list_elem_of_fmap in Hk as (z & -> & Hz). by exists z. }
    intros (H1 & H2 & H3)%IH; [|done|].
    - split_and!; [done| |done]. intros z [->|Hz]%elem_of_cons; [|by apply H2].
      intros z' Hz'. destruct (Hcx z' Hz') as (w & Hw & Hkw). exists w. by split; [apply H1|].
    - intros a b Ha Hb. destruct (Hc a b Ha Hb) as [[->|Hq]%elem_of_cons|Hcov]; by auto. }
  intros (H1 & H2 & H3)%IH.
  - split_and!; [| |done].
    + intros z Hz. apply H1, elem_of_app. by left.
    + intros z [->|Hz]%elem_of_cons; [|apply H2, elem_of_app; by left].
      intros z' Hz'. rewrite Hx in Hz'. injection Hz' as <-. exists x'. split; [|done].
      apply H1, elem_of_app. right. by apply list_elem_of_singleton.
  - intros k. rewrite map_app, elem_of_app, elem_of_union, elem_of_singleton, Hs. simpl.
    rewrite list_elem_of_singleton. tauto.
  - intros a b [Ha| ->%list_elem_of_singleton]%elem_of_app Hb; [|left; apply elem_of_app; by right].
    destruct (Hc a b Ha Hb) as [[->|Hq]%elem_of_cons|Hcov].
    + right. intros z Hz. rewrite Hx in Hz. injection Hz as <-. exists x'. split; [|done].
      apply elem_of_app. right. by apply list_elem_of_singleton.
    + left. apply elem_of_app. by left.
    + right. intros z Hz. destruct (Hcov z Hz) as (w & Hw & Hkw). exists w. split; [|done]. apply elem_of_app. by left.
Qed.

(** From one start. *)
Lemma visit_all_start fuel start r :
  visit_all fuel ∅ [start] [] = Some r →
  covered r start ∧ (∀ x y, x ∈ r → y ∈ next x → covered r y) ∧ NoDup (map key r).
Proof.
  intros Hr. assert (∀ k : string, k ∈ (∅ : gset string) ↔ k ∈ map key []) as Hk.
  { intros k. simpl. by rewrite elem_of_empty, elem_of_nil. }
  split_and!.
  - apply (visit_all_closed fuel ∅ [start] [] r) in Hr as (_ & Hc & _); [|done|by intros x y ?%elem_of_nil].
    apply Hc. left.
  - by apply (visit_all_closed fuel ∅ [start] [] r) in Hr as (_ & _ & Hc); [|done|by intros x y ?%elem_of_nil].
  - apply (visit_all_keys fuel ∅ [start] [] r); [done|constructor|done].
Qed.

(** With at most [b] successors each and keys in [V], the search ends. *)
Lemma visit_all_total (V : gset string) (b : nat) (I : A → Prop) fuel seen queue order :
  (∀ x, x ∈ queue → I x) → (∀ x y x', I x → prep x = Some x' → y ∈ next x' → I y) →
  (∀ x x', I x → prep x = Some x' → key x' ∈ V ∧ length (next x') ≤ b) →
  length queue + b * size (V ∖ seen) < fuel → is_Some (visit_all fuel seen queue order).
Proof.
  intros HI Hnext Hb. revert seen queue order HI.
  induction fuel as [|fuel IH]; intros seen queue order HI Hlt; [lia|]. simpl.
  destruct queue as [|x queue]; [by eexists|]. simpl in Hlt.
  assert (I x) as Hx by (apply HI; left). assert (∀ z, z ∈ queue → I z) as HI' by (intros z Hz; apply HI; by right).
  destruct (prep x) as [x'|] eqn:Hp; [|apply IH; [done|lia]].
  case_bool_decide as Hk; [apply IH; [done|lia]|].
  destruct (Hb x x' Hx Hp) as [HV Hlen]. apply IH.
  - intros z [Hz|Hz]%elem_of_app; [by apply HI'|by eapply Hnext].
  - assert (V ∖ seen = {[key x']} ∪ (V ∖ ({[key x']} ∪ seen))) as He.
    { apply set_eq. intros y. rewrite elem_of_union, !elem_of_difference, elem_of_union, !elem_of_singleton.
      destruct (decide (y = key x')) as [->|]; tauto. }
    rewrite He, size_union, size_singleton in Hlt by set_solver. rewrite length_app.
    revert Hlt Hlen. generalize (size (V ∖ ({[key x']} ∪ seen))) (length (next x')). intros. nia.
Qed.
End visit_all.
