(* ===== verification/ContractAnalysis.v ===== *)
(** * Static analysis of state contracts: [internal/graphbuild/contract_analysis.go]

    Before a graph runs, its contracts are checked against its shape: parallel
    branches must not write the same path, and what a node requires to read must
    come from the initial state, the entry provider or a node upstream.  The graph
    of the analysis has the static and the conditional edges; failure routes are
    not in it.  The messages of the diagnostics are left out, their fields
    determine them. *)

From Stdlib Require Import Ascii.
From S2P Require Import Prelude GoStrings Paths Values Json Patch Contracts Errors Worklist.

Record EntryStateProvider := MkProvider { ep_ID : string; ep_Contract : Contract }.

Record ContractAnalysisGraph := MkAnalysis {
  an_EntryPoint : string;
  an_EndNode : string;
  an_InitialStatePaths : list string;
  an_EntryProvider : option EntryStateProvider;
  an_Edges : gmap string (list string);
  an_ConditionalEdges : gmap string (list string);
  an_NodeContracts : gmap string Contract;
  an_ConditionContracts : gmap string Contract;
}.

Inductive Severity := SeverityWarning | SeverityError.

#[export] Instance Severity_eq_dec : EqDecision Severity.
Proof. solve_decision. Defined.

Record ContractDiagnostic := MkDiagnostic {
  dg_Severity : Severity;
  dg_Kind : string;
  dg_NodeID : string;
  dg_OtherNodeID : string;
  dg_Path : string;
  dg_Sources : list string;
}.

#[export] Instance ContractDiagnostic_eq_dec : EqDecision ContractDiagnostic.
Proof. solve_decision. Defined.

(** The sorted values without repetitions and empty strings. *)
Fixpoint compact_after (last : option string) (values : list string) : list string :=
  match values with
  | [] => []
  | v :: values =>
    if bool_decide (v = "") then compact_after last values
    else if bool_decide (last = Some v) then compact_after last values
    else v :: compact_after (Some v) values
  end.

Definition compactStrings (values : list string) : list string := compact_after None values.

(** ** Fields of contracts *)

Definition writeFields (c : Contract) : list FieldAccess := filter (λ f, isWriteMode (f_mode f) = true) (Fields c).

Definition effectiveAnalysisMerge (m : MergeStrategy) : MergeStrategy :=
  match m with MergeDefault => MergeReplace | _ => m end.

Definition requiredReadFields (c : Contract) : list FieldAccess :=
  filter (λ f, (f_required f && negb (Empty (f_path f)) && isReadMode (f_mode f)) = true) (Fields c).

Definition requiredReadPaths (c : Contract) : list string :=
  compactStrings (map (PathString ∘ f_path) (requiredReadFields c)).

Definition pathStrings (l : list Path) : list string := map PathString (filter (λ p, Empty p = false) l).

(** Two written paths: their common path, and whether both writes may happen. *)
Definition overlap_fields (l r : FieldAccess) : option (string * bool) :=
  let lp := PathString (f_path l) in
  let rp := PathString (f_path r) in
  if bool_decide (lp = rp) then
    let lm := effectiveAnalysisMerge (f_merge l) in
    Some (lp, bool_decide (lm = effectiveAnalysisMerge (f_merge r)) && bool_decide (lm ∈ [MergeAppend; MergeMerge]))
  else if HasPrefix lp (rp +:+ ".") then Some (rp, false)
  else if HasPrefix rp (lp +:+ ".") then Some (lp, false)
  else None.

(** The first pair of written fields that overlap, if any. *)
Definition overlappingWritePath (left right : Contract) : option (string * bool) :=
  if WildcardWrite left || WildcardWrite right then Some ("*", false) else
  head (omap (λ p, overlap_fields p.1 p.2) (l ← writeFields left; r ← writeFields right; [(l, r)])).

Definition sourceProvidesRead (sourcePath readPath : string) : bool :=
  let s := TrimSpace sourcePath in
  let r := TrimSpace readPath in
  if bool_decide (s = "") || bool_decide (r = "") then false
  else bool_decide (s = "*") || bool_decide (s = r) || HasPrefix r (s +:+ ".").

Definition contractProvidesReadWriteSource (c : Contract) (path : string) : bool :=
  existsb (λ w, sourceProvidesRead w path) (pathStrings (WritePaths c)).

Definition contractProvidesRead (c : Contract) (path : string) : bool :=
  WildcardWrite c || contractProvidesReadWriteSource c path.

(** A node may read back its own runtime section. *)
Definition selfRuntimePathProvidesRead (nodeID : string) (c : Contract) (path : string) : bool :=
  let prefix := "runtime." +:+ TrimSpace nodeID in
  if negb (bool_decide (path = prefix)) && negb (HasPrefix path (prefix +:+ ".")) then false
  else contractProvidesReadWriteSource c path.

Section analysis.
Context (input : ContractAnalysisGraph).

Definition analysis_edges (m : gmap string (list string)) (id : string) : list string := default [] (m !! id).

Definition isAnalysisEndTarget (target : string) : bool :=
  if bool_decide (target = "") then true
  else if negb (bool_decide (an_EndNode input = "")) then bool_decide (target = an_EndNode input)
  else bool_decide (target = "__end__").

(** ** Reachable nodes and their ancestors *)

Definition analysis_targets (id : string) : list string :=
  filter (λ t, isAnalysisEndTarget t = false) (analysis_edges (an_Edges input) id)
  ++ filter (λ t, isAnalysisEndTarget t = false) (analysis_edges (an_ConditionalEdges input) id).

Definition all_targets : list string :=
  concat (map snd (map_to_list (an_Edges input))) ++ concat (map snd (map_to_list (an_ConditionalEdges input))).

(** One more than the nodes and the edges allow. *)
Definition nodes_fuel : nat := 2 + length all_targets * S (length all_targets).

Definition reachableGraphNodes : list string :=
  if bool_decide (an_EntryPoint input = "") then [] else
  sort_strings (default [] (visit_all id Some analysis_targets nodes_fuel ∅ [an_EntryPoint input] [])).

(** The edges between reachable nodes, end targets included where they are
    reachable. *)
Definition graph_edge (from to : string) : bool :=
  bool_decide (to ∈ analysis_edges (an_Edges input) from) || bool_decide (to ∈ analysis_edges (an_ConditionalEdges input) from).

Definition graphPredecessors (reachable : list string) (to : string) : list string :=
  if bool_decide (to ∈ reachable)
  then compactStrings (sort_strings (filter (λ from, from ∈ reachable)
         (concat (map (λ p, map (λ _, p.1) (filter (λ t, t = to) p.2))
            (map_to_list (an_Edges input) ++ map_to_list (an_ConditionalEdges input))))))
  else [].

(** One predecessor of [nodeID] passes on itself and what reaches it. *)
Definition pass_on (ancestors : gmap string (gset string)) (nodeID : string) (target : gset string) (predecessor : string)
    : gset string :=
  target ∪ (({[predecessor]} ∪ default ∅ (ancestors !! predecessor)) ∖ {[nodeID]}).

(** One pass over the nodes, in order, on the table as it stands. *)
Definition ancestors_pass (reachable : list string) (ancestors : gmap string (gset string)) : gmap string (gset string) :=
  fold_left (λ anc nodeID,
    fold_left (λ anc predecessor,
      <[nodeID := pass_on anc nodeID (default ∅ (anc !! nodeID)) predecessor]> anc)
      (graphPredecessors reachable nodeID) anc)
    reachable ancestors.

(** [for changed]. *)
Fixpoint ancestors_loop (fuel : nat) (reachable : list string) (ancestors : gmap string (gset string))
    : option (gmap string (gset string)) :=
  match fuel with
  | 0 => None
  | S fuel =>
    let next := ancestors_pass reachable ancestors in
    if bool_decide (next = ancestors) then Some ancestors else ancestors_loop fuel reachable next
  end.

Definition no_ancestors (reachable : list string) : gmap string (gset string) :=
  list_to_map (map (λ id, (id, ∅)) reachable).

(** Every pass but the last adds a pair of nodes. *)
Definition graphAncestors (reachable : list string) : gmap string (gset string) :=
  default ∅ (ancestors_loop (S (length reachable * length reachable)) reachable (no_ancestors reachable)).

(** ** Parallel waves *)

(** The live, reachable nodes, sorted, each once. *)
Definition normalizeAnalysisFrontier (reachable : list string) (frontier : list string) : list string :=
  sort_strings (remove_dups (filter (λ id, isAnalysisEndTarget id = false ∧ id ∈ reachable) frontier)).

(** What may follow one node: one of its edges when it has conditions, all of
    them otherwise. *)
Definition analysisNodeNextOptions (reachable : list string) (nodeID : string) : list (list string) :=
  match analysis_edges (an_ConditionalEdges input) nodeID with
  | [] => [normalizeAnalysisFrontier reachable (analysis_edges (an_Edges input) nodeID)]
  | conditional => map (λ t, normalizeAnalysisFrontier reachable [t]) (conditional ++ analysis_edges (an_Edges input) nodeID)
  end.

Definition maxAnalysisFrontiers : nat := 4 * 1024.

(** Every way to choose an option for each node; [None] when there are too many. *)
Fixpoint combine_options (reachable : list string) (combinations : list (list string)) (frontier : list string)
    : option (list (list string)) :=
  match frontier with
  | [] => Some combinations
  | nodeID :: frontier =>
    let options := analysisNodeNextOptions reachable nodeID in
    if maxAnalysisFrontiers / Nat.max 1 (length options) <? length combinations then None
    else combine_options reachable
           (concat (map (λ prefix, map (λ option, prefix ++ option) options) combinations)) frontier
  end.

Definition conservativeAnalysisFrontier (reachable frontier : list string) : list (list string) :=
  let union := concat (map (λ id, concat (analysisNodeNextOptions reachable id)) frontier) in
  match normalizeAnalysisFrontier reachable union with [] => [] | l => [l] end.

(** The frontiers joined by NUL bytes are the keys of the tables. *)
Definition frontier_key (l : list string) : string := Join "000"%char l.

Fixpoint distinct_frontiers (seen : gset string) (l : list (list string)) : list (list string) :=
  match l with
  | [] => []
  | f :: l =>
    if bool_decide (f = []) || bool_decide (frontier_key f ∈ seen) then distinct_frontiers seen l
    else f :: distinct_frontiers ({[frontier_key f]} ∪ seen) l
  end.

Definition nextAnalysisFrontiers (reachable frontier : list string) : list (list string) :=
  match combine_options reachable [[]] frontier with
  | None => conservativeAnalysisFrontier reachable frontier
  | Some combinations => distinct_frontiers ∅ (map (normalizeAnalysisFrontier reachable) combinations)
  end.

Definition prep_frontier (reachable frontier : list string) : option (list string) :=
  match normalizeAnalysisFrontier reachable frontier with [] => None | l => Some l end.

(** Frontiers are sets of reachable nodes. *)
Definition frontiers_fuel (reachable : list string) : nat := 2 + 2 ^ length reachable * 2 ^ length reachable.

(** The frontiers the loop visits. *)
Definition analysis_frontiers (reachable : list string) : list (list string) :=
  if bool_decide (an_EntryPoint input ∈ reachable)
  then default [] (visit_all frontier_key (prep_frontier reachable) (nextAnalysisFrontiers reachable)
                     (frontiers_fuel reachable) ∅ [[an_EntryPoint input]] [])
  else [].

Definition analysisParallelWaves (reachable : list string) : list (list string) :=
  filter (λ f, 1 < length f) (analysis_frontiers reachable).

(** ** Diagnostics *)

Definition wildcardContractDiagnostics (reachable : list string) : list ContractDiagnostic :=
  omap (λ id,
    match an_NodeContracts input !! id with
    | Some c => if WildcardRead c || WildcardWrite c
                then Some (MkDiagnostic SeverityWarning "wildcard_contract" id "" "" []) else None
    | None => None
    end) reachable.

Definition overlap_diagnostic (leftID rightID : string) : option ContractDiagnostic :=
  match an_NodeContracts input !! leftID, an_NodeContracts input !! rightID with
  | Some l, Some r =>
    match overlappingWritePath l r with
    | Some (path, false) => Some (MkDiagnostic SeverityError "overlapping_write" leftID rightID path [])
    | _ => None
    end
  | _, _ => None
  end.

(** Every pair of a wave, in order. *)
Fixpoint wave_diagnostics (wave : list string) : list ContractDiagnostic :=
  match wave with
  | [] => []
  | x :: wave => omap (overlap_diagnostic x) wave ++ wave_diagnostics wave
  end.

Definition overlappingWriteDiagnostics (reachable : list string) : list ContractDiagnostic :=
  concat (map wave_diagnostics (analysisParallelWaves reachable)).

Record contractReadSources := MkSources { rs_runInput : bool; rs_entries : list string; rs_nodes : list string }.

Definition sources_empty (s : contractReadSources) : bool :=
  negb (rs_runInput s) && bool_decide (rs_entries s = []) && bool_decide (rs_nodes s = []).

Definition diagnosticLabels (s : contractReadSources) (path : string) : list string :=
  (if rs_runInput s && negb (bool_decide (path = "shared.request.input")) then ["run_input"] else [])
  ++ rs_entries s ++ rs_nodes s.

Definition appendEntryProviderSource (path : string) : list string :=
  match an_EntryProvider input with
  | Some p =>
    if contractProvidesRead (ep_Contract p) path
    then [if bool_decide (TrimSpace (ep_ID p) = "") then "entry" else TrimSpace (ep_ID p)] else []
  | None => []
  end.

(** [self] tests the contract of the node itself. *)
Definition read_sources (self : Contract → bool) (nodeID path : string) (ancestors : gset string) : contractReadSources :=
  MkSources (existsb (λ p, sourceProvidesRead p path) (an_InitialStatePaths input))
    (appendEntryProviderSource path)
    (compactStrings (sort_strings
       ((if from_option self false (an_NodeContracts input !! nodeID) then [nodeID] else [])
        ++ filter (λ id, from_option (λ c, contractProvidesRead c path) false (an_NodeContracts input !! id) = true)
             (sort_strings (elements ancestors))))).

Definition requiredReadSources (nodeID path : string) (ancestors : gset string) : contractReadSources :=
  read_sources (λ c, selfRuntimePathProvidesRead nodeID c path) nodeID path ancestors.

Definition requiredConditionReadSources (nodeID path : string) (ancestors : gset string) : contractReadSources :=
  read_sources (λ c, contractProvidesRead c path) nodeID path ancestors.

Definition read_diagnostic (nodeID path : string) (ancestors : gset string) : option ContractDiagnostic :=
  let sources := requiredReadSources nodeID path ancestors in
  if sources_empty sources then Some (MkDiagnostic SeverityWarning "missing_required_read" nodeID "" path [])
  else let labels := diagnosticLabels sources path in
       if 1 <? length labels then Some (MkDiagnostic SeverityWarning "multiple_read_sources" nodeID "" path labels)
       else None.

Definition requiredReadDiagnostics (reachable : list string) (ancestors : gmap string (gset string)) : list ContractDiagnostic :=
  concat (map (λ id,
    match an_NodeContracts input !! id with
    | Some c =>
      if bool_decide (requiredReadPaths c = []) || WildcardRead c then []
      else omap (λ path, read_diagnostic id path (default ∅ (ancestors !! id)))
             (compactStrings (sort_strings (requiredReadPaths c)))
    | None => []
    end) reachable).

Definition requiredConditionReadDiagnostics (reachable : list string) (ancestors : gmap string (gset string))
    : list ContractDiagnostic :=
  concat (map (λ id,
    match an_ConditionContracts input !! id with
    | Some c =>
      if WildcardRead c then []
      else omap (λ f,
             let path := PathString (f_path f) in
             if sources_empty (requiredConditionReadSources id path (default ∅ (ancestors !! id)))
             then Some (MkDiagnostic SeverityWarning "missing_condition_read" id "" path []) else None) (requiredReadFields c)
    | None => []
    end) reachable).

(** Errors first, then by node, other node, path and kind. *)
Definition severity_lt (a b : Severity) : bool :=
  match a, b with SeverityError, SeverityWarning => true | _, _ => false end.

Definition diagnostic_before : ContractDiagnostic → ContractDiagnostic → bool :=
  less_then dg_Severity severity_lt (less_then dg_NodeID str_lt (less_then dg_OtherNodeID str_lt
    (less_then dg_Path str_lt (less_last dg_Kind str_lt)))).

(** Nothing to analyse. *)
Definition analysis_empty : bool :=
  (bool_decide (an_NodeContracts input = ∅) && bool_decide (an_ConditionContracts input = ∅))
  || bool_decide (an_EntryPoint input = "").

Definition AnalyzeContractDiagnostics : list ContractDiagnostic :=
  if analysis_empty then [] else
  let reachable := reachableGraphNodes in
  if bool_decide (reachable = []) then [] else
  let ancestors := graphAncestors reachable in
  stable_sort diagnostic_before
    (wildcardContractDiagnostics reachable ++ overlappingWriteDiagnostics reachable
     ++ requiredReadDiagnostics reachable ancestors ++ requiredConditionReadDiagnostics reachable ancestors).

(** [ContractDiagnosticsError] refuses a graph with an error among its diagnostics. *)
Definition ContractDiagnosticsError (l : list ContractDiagnostic) : result (list ContractDiagnostic) unit :=
  match filter (λ d, dg_Severity d = SeverityError) l with [] => Ok tt | errs => Err errs end.
End analysis.
