(* ===== verification/Dataflow.v ===== *)
(** * What the contract analysis computes

    The reachable nodes, the ancestors and the parallel waves of
    [ContractAnalysis], against paths of the graph: the loops end, the tables are
    exact, and the diagnostics are those the paths call for. *)

From Stdlib Require Import Ascii.
From S2P Require Import Prelude GoStrings Paths Values Json Patch Contracts Errors Worklist ContractAnalysis.


(** ** Reachable nodes *)

Lemma compact_after_elem last l v : v ∈ compact_after last l → v ∈ l ∧ v ≠ "".
Proof.
  revert last. induction l as [|w l IH]; intros last; simpl; [by intros ?%elem_of_nil|].
  case_bool_decide; [intros [? ?]%IH; split; [by right|done]|].
  case_bool_decide; [intros [? ?]%IH; split; [by right|done]|].
  intros [->|Hv]%elem_of_cons; [split; [left|done]|]. apply IH in Hv as [? ?]. split; [by right|done].
Qed.

Lemma compact_after_keeps last l v : v ∈ l → v ≠ "" → v ∈ compact_after last l ∨ last = Some v.
Proof.
  revert last. induction l as [|w l IH]; intros last Hv Hn; [by apply elem_of_nil in Hv|]. simpl.
  apply elem_of_cons in Hv as [<-|Hv].
  - rewrite bool_decide_false by done. case_bool_decide; [by right|]. left. left.
  - case_bool_decide; [by apply IH|]. case_bool_decide; [by apply IH|].
    destruct (IH (Some w) Hv Hn) as [?|[= ->]]; left; [by right|left].
Qed.

Lemma elem_of_compactStrings l v : v ∈ compactStrings l ↔ v ∈ l ∧ v ≠ "".
Proof.
  split; [apply compact_after_elem|]. intros [Hv Hn].
  by destruct (compact_after_keeps None l v Hv Hn) as [?|?].
Qed.

Section facts.
Context (input : ContractAnalysisGraph).

(** A live edge of the graph. *)
Definition live_edge (x y : string) : Prop := y ∈ analysis_targets input x.

Lemma analysis_edges_all m (id y : string) :
  y ∈ analysis_edges m id → y ∈ concat (map snd (map_to_list m)).
Proof.
  unfold analysis_edges. destruct (m !! id) as [l|] eqn:E; [|by intros ?%elem_of_nil]. simpl. intros Hy.
  apply elem_of_concat_map. exists (id, l). split; [by apply elem_of_map_to_list|done].
Qed.

Lemma live_edge_all x y : live_edge x y → y ∈ all_targets input.
Proof.
  unfold live_edge, analysis_targets, all_targets. rewrite !elem_of_app, !list_elem_of_filter.
  intros [[_ Hy]|[_ Hy]]; [left|right]; by eapply analysis_edges_all.
Qed.

Lemma analysis_edges_length m x : length (analysis_edges m x) ≤ length (concat (map snd (map_to_list m))).
Proof.
  unfold analysis_edges. destruct (m !! x) as [l|] eqn:E; [|simpl; lia]. simpl.
  apply elem_of_map_to_list in E. apply list_elem_of_split in E as (l1 & l2 & ->).
  rewrite map_app, concat_app, length_app. simpl. rewrite length_app. lia.
Qed.

Lemma targets_length x : length (analysis_targets input x) ≤ length (all_targets input).
Proof.
  unfold analysis_targets, all_targets. rewrite !length_app.
  pose proof (analysis_edges_length (an_Edges input) x). pose proof (analysis_edges_length (an_ConditionalEdges input) x).
  pose proof (length_filter (λ t, isAnalysisEndTarget input t = false) (analysis_edges (an_Edges input) x)).
  pose proof (length_filter (λ t, isAnalysisEndTarget input t = false) (analysis_edges (an_ConditionalEdges input) x)).
  lia.
Qed.

(** The search has fuel enough. *)
Lemma reachable_total :
  is_Some (visit_all id Some (analysis_targets input) (nodes_fuel input) ∅ [an_EntryPoint input] []).
Proof.
  set (V := list_to_set (an_EntryPoint input :: all_targets input) : gset string).
  apply (visit_all_total _ _ _ V (length (all_targets input)) (λ x, x ∈ V)).
  - intros x ->%list_elem_of_singleton. apply elem_of_list_to_set. left.
  - intros x y x' _ [= ->] Hy. apply elem_of_list_to_set. right. by apply (live_edge_all x').
  - intros x x' Hx [= ->]. split; [done|apply targets_length].
  - unfold nodes_fuel. rewrite difference_empty_L. simpl.
    pose proof (size_list_to_set_le (an_EntryPoint input :: all_targets input)) as Hs. fold V in Hs. simpl in Hs. nia.
Qed.

Lemma elem_of_reachable x :
  x ∈ reachableGraphNodes input ↔ an_EntryPoint input ≠ "" ∧ rtc live_edge (an_EntryPoint input) x.
Proof.
  unfold reachableGraphNodes. case_bool_decide as He.
  { split; [by intros ?%elem_of_nil|by intros [? _]]. }
  destruct reachable_total as [r Hr]. rewrite Hr. simpl. rewrite elem_of_sort_strings. split.
  - intros Hx. split; [done|]. revert x Hx. eapply (visit_all_sound _ _ _ (rtc live_edge (an_EntryPoint input))); [| | |exact Hr].
    + intros a b b' Ha Hb [= <-]. by eapply rtc_r.
    + intros a a' ->%list_elem_of_singleton [= <-]. constructor.
    + by intros a ?%elem_of_nil.
  - intros [_ Hx].
    apply visit_all_start in Hr as (H1 & H2 & _).
    assert (an_EntryPoint input ∈ r) as H0 by (destruct (H1 _ eq_refl) as (z & Hz & Hk); unfold id in Hk; rewrite Hk in Hz; exact Hz).
    clear H1 He. induction Hx as [|a b c Hab _ IH]; [done|]. apply IH.
    destruct (H2 a b H0 Hab b eq_refl) as (z & Hz & Hk). unfold id in Hk. rewrite Hk in Hz. exact Hz.
Qed.

(** ** Ancestors *)

Lemma elem_of_predecessors reachable p n :
  p ∈ graphPredecessors input reachable n ↔
    n ∈ reachable ∧ p ∈ reachable ∧ p ≠ "" ∧ graph_edge input p n = true.
Proof.
  assert (∀ m, (∃ q : string * list string, q ∈ map_to_list m ∧ p ∈ map (λ _, q.1) (filter (λ t, t = n) q.2)) ↔ n ∈ analysis_edges m p) as Hm.
  { intros m. unfold analysis_edges. split.
    - intros ([q l] & Hq%elem_of_map_to_list & Hp). simpl in Hp.
      apply list_elem_of_fmap in Hp as (t & -> & [-> Ht]%list_elem_of_filter). by rewrite Hq.
    - destruct (m !! p) as [l|] eqn:E; [|by intros ?%elem_of_nil]. simpl. intros Hn. exists (p, l).
      split; [by apply elem_of_map_to_list|]. apply list_elem_of_fmap. exists n. split; [done|].
      by apply list_elem_of_filter. }
  unfold graphPredecessors. case_bool_decide as Hn; [|split; [by intros ?%elem_of_nil|by intros [? _]]].
  rewrite elem_of_compactStrings, elem_of_sort_strings, list_elem_of_filter, elem_of_concat_map.
  unfold graph_edge. rewrite orb_true_iff, !bool_decide_eq_true, <-!Hm. setoid_rewrite elem_of_app.
  split.
  - intros [[Hp (q & [Hin|Hin] & Hq)] Hne]; (split_and!; [done|done|done|]); [left|right]; by exists q.
  - intros (_ & Hp & Hne & [(q & Hin & Hq)|(q & Hin & Hq)]); (split; [|done]; split; [done|]); exists q; tauto.
Qed.

Section ancestors.
Context (reachable : list string).

Definition anc_of (m : gmap string (gset string)) (n : string) : gset string := default ∅ (m !! n).

(** The edges the table follows. *)
Definition pred_edge (p n : string) : Prop := p ∈ graphPredecessors input reachable n.

Definition anc_step (m : gmap string (gset string)) (np : string * string) : gmap string (gset string) :=
  <[np.1 := pass_on m np.1 (anc_of m np.1) np.2]> m.

Definition pred_pairs (l : list string) : list (string * string) :=
  concat (map (λ n, map (pair n) (graphPredecessors input reachable n)) l).

Lemma elem_of_pred_pairs l n p : (n, p) ∈ pred_pairs l ↔ n ∈ l ∧ pred_edge p n.
Proof.
  unfold pred_pairs. rewrite elem_of_concat_map. split.
  - intros (n' & Hn & (p' & [= -> ->] & Hp)%list_elem_of_fmap). done.
  - intros [Hn Hp]. exists n. split; [done|]. apply list_elem_of_fmap. by exists p.
Qed.

(** A pass takes the pairs one after another. *)
Lemma ancestors_pass_pairs m : ancestors_pass input reachable m = fold_left anc_step (pred_pairs reachable) m.
Proof.
  unfold ancestors_pass, pred_pairs. generalize reachable at 2 4 as l.
  intros l. revert m. induction l as [|n l IH]; intros m; [done|]. simpl. rewrite IH, fold_left_app. f_equal.
  generalize (graphPredecessors input reachable n) as ps. intros ps. revert m.
  induction ps as [|p ps IHp]; intros m; [done|]. simpl. apply IHp.
Qed.

Definition anc_le (m m' : gmap string (gset string)) : Prop := ∀ n, anc_of m n ⊆ anc_of m' n.

Lemma anc_of_step m n p k :
  anc_of (anc_step m (n, p)) k = if decide (k = n) then pass_on m n (anc_of m n) p else anc_of m k.
Proof.
  unfold anc_of, anc_step. simpl. destruct (decide (k = n)) as [->|Hk].
  - by rewrite lookup_insert_eq.
  - by rewrite lookup_insert_ne.
Qed.

Lemma anc_step_le m np : anc_le m (anc_step m np).
Proof.
  destruct np as [n p]. intros k. rewrite anc_of_step. case_decide as Hk; [subst k|reflexivity].
  unfold pass_on. set_solver.
Qed.

Lemma anc_fold_le l m : anc_le m (fold_left anc_step l m).
Proof.
  revert m. induction l as [|np l IH]; intros m k; simpl; [reflexivity|].
  etrans; [apply (anc_step_le m np)|apply IH].
Qed.

(** What a pass leaves contains what each of its pairs calls for. *)
Lemma anc_fold_closed l m n p :
  (n, p) ∈ l → ({[p]} ∪ anc_of m p) ∖ {[n]} ⊆ anc_of (fold_left anc_step l m) n.
Proof.
  intros Hin. apply list_elem_of_split in Hin as (l1 & l2 & ->). rewrite fold_left_app. simpl.
  etrans; [|apply anc_fold_le]. rewrite anc_of_step, decide_True by done. unfold pass_on.
  pose proof (anc_fold_le l1 m p) as Hp. unfold anc_of in *. set_solver.
Qed.

(** A table that lists only proper ancestors, for the reachable nodes. *)
Definition anc_ok (m : gmap string (gset string)) : Prop :=
  (∀ n, is_Some (m !! n) ↔ n ∈ reachable) ∧ ∀ n a, a ∈ anc_of m n → a ≠ n ∧ tc pred_edge a n.

Lemma pred_edge_in p n : pred_edge p n → p ∈ reachable ∧ n ∈ reachable.
Proof. by intros (? & ? & _)%elem_of_predecessors. Qed.

Lemma anc_step_ok m n p : pred_edge p n → anc_ok m → anc_ok (anc_step m (n, p)).
Proof.
  intros Hp [Hd Hs]. split.
  - intros k. unfold anc_step. simpl. destruct (decide (k = n)) as [->|Hk].
    + rewrite lookup_insert_eq. split; [intros _; by apply (pred_edge_in p)|done].
    + rewrite lookup_insert_ne by done. apply Hd.
  - intros k a. rewrite anc_of_step. destruct (decide (k = n)) as [->|_]; [|apply Hs].
    unfold pass_on. rewrite elem_of_union, elem_of_difference, elem_of_union, !elem_of_singleton.
    intros [Ha|[[->|Ha] Hne]]; [by apply Hs| |].
    + split; [done|by apply tc_once].
    + split; [done|]. apply (Hs p) in Ha as [_ Ha]. by eapply tc_r.
Qed.

Lemma ancestors_pass_ok m : anc_ok m → anc_ok (ancestors_pass input reachable m).
Proof.
  rewrite ancestors_pass_pairs.
  assert (∀ n p, (n, p) ∈ pred_pairs reachable → pred_edge p n) as Hl by (intros n p Hin; apply elem_of_pred_pairs in Hin; tauto).
  revert Hl. generalize (pred_pairs reachable) as l. intros l. revert m.
  induction l as [|[n p] l IH]; intros m Hl Hm; [done|]. simpl. apply IH.
  - intros n' p' Hin. apply Hl. by right.
  - apply anc_step_ok; [apply Hl; left|done].
Qed.

(** How many pairs a table holds. *)
Definition anc_total (m : gmap string (gset string)) : nat := sum_list_with (λ n, size (anc_of m n)) reachable.

Lemma sum_list_with_le (f g : string → nat) l :
  (∀ x, x ∈ l → f x ≤ g x) → sum_list_with f l ≤ sum_list_with g l.
Proof.
  induction l as [|x l IH]; intros H; simpl; [done|].
  pose proof (H x (list_elem_of_here _ _)).
  assert (sum_list_with f l ≤ sum_list_with g l) by (apply IH; intros y Hy; apply H; by right). lia.
Qed.

Lemma sum_list_with_lt (f g : string → nat) l :
  (∀ x, x ∈ l → f x ≤ g x) → (∃ x, x ∈ l ∧ f x < g x) → sum_list_with f l < sum_list_with g l.
Proof.
  intros H (x & Hx & Hlt). apply list_elem_of_split in Hx as (l1 & l2 & ->).
  rewrite !sum_list_with_app. simpl.
  assert (sum_list_with f l1 ≤ sum_list_with g l1) by (apply sum_list_with_le; intros y Hy; apply H, elem_of_app; by left).
  assert (sum_list_with f l2 ≤ sum_list_with g l2)
    by (apply sum_list_with_le; intros y Hy; apply H, elem_of_app; right; by right).
  lia.
Qed.

Lemma sum_list_with_bound (f : string → nat) b l :
  (∀ x, x ∈ l → f x ≤ b) → sum_list_with f l ≤ length l * b.
Proof.
  induction l as [|x l IH]; intros H; simpl; [done|].
  pose proof (H x (list_elem_of_here _ _)).
  assert (sum_list_with f l ≤ length l * b) by (apply IH; intros y Hy; apply H; by right). lia.
Qed.

(** A pass that changes the table adds a pair to it. *)
Lemma anc_total_grows m m' :
  anc_ok m → anc_ok m' → anc_le m m' → m' ≠ m → anc_total m < anc_total m'.
Proof.
  intros [Hd _] [Hd' _] Hle Hne. apply sum_list_with_lt.
  { intros n _. apply subseteq_size, Hle. }
  destruct (decide (Forall (λ n, anc_of m' n = anc_of m n) reachable)) as [Hall|Hex].
  - destruct Hne. apply map_eq. intros n. rewrite Forall_forall in Hall.
    destruct (decide (n ∈ reachable)) as [Hn|Hn].
    + pose proof (Hall n Hn) as He. unfold anc_of in He. apply Hd in Hn as Hs. apply Hd' in Hn as Hs'.
      destruct Hs as [s Hs], Hs' as [s' Hs']. rewrite Hs, Hs' in *. simpl in He. by subst.
    + assert (∀ m0 : gmap string (gset string), (∀ k, is_Some (m0 !! k) ↔ k ∈ reachable) → m0 !! n = None) as Hnone.
      { intros m0 H0. apply eq_None_not_Some. by rewrite H0. }
      by rewrite (Hnone m Hd), (Hnone m' Hd').
  - apply not_Forall_Exists in Hex; [|intros n; apply _]. apply Exists_exists in Hex as (n & Hn & Hx).
    exists n. split; [done|]. apply subset_size. split; [apply Hle|].
    intros Hsub. apply Hx, set_eq. intros a. split; [apply Hsub|apply Hle].
Qed.

Lemma anc_total_le m : anc_ok m → anc_total m ≤ length reachable * length reachable.
Proof.
  intros [_ Hs].
  assert (∀ n, size (anc_of m n) ≤ length reachable) as Hb.
  { intros n. etrans; [|apply (size_list_to_set_le reachable)]. apply subseteq_size. intros a Ha.
    apply elem_of_list_to_set. apply Hs in Ha as [_ Ha].
    inversion Ha as [? ? He|? ? ? He _]; subst; by apply pred_edge_in in He as [? _]. }
  apply sum_list_with_bound. intros n _. apply Hb.
Qed.

Lemma ancestors_pass_le m : anc_le m (ancestors_pass input reachable m).
Proof. rewrite ancestors_pass_pairs. apply anc_fold_le. Qed.

(** The loop ends: each pass but the last makes the table grow. *)
Lemma ancestors_loop_total fuel m :
  anc_ok m → length reachable * length reachable - anc_total m < fuel →
  ∃ r, ancestors_loop input fuel reachable m = Some r ∧ anc_ok r ∧ ancestors_pass input reachable r = r.
Proof.
  revert m. induction fuel as [|fuel IH]; intros m Hm Hlt; [lia|]. cbn [ancestors_loop].
  case_bool_decide as He; [by exists m|].
  pose proof (ancestors_pass_ok m Hm) as Hm'. apply IH; [done|].
  pose proof (anc_total_grows m _ Hm Hm' (ancestors_pass_le m) He).
  pose proof (anc_total_le _ Hm'). lia.
Qed.

Lemma no_ancestors_ok : anc_ok (no_ancestors reachable).
Proof.
  assert (∀ n, no_ancestors reachable !! n = if decide (n ∈ reachable) then Some ∅ else None) as Hl.
  { intros n. unfold no_ancestors. generalize reachable as l. induction l as [|k l IH].
    - rewrite decide_False by (intros Hn; by apply elem_of_nil in Hn). done.
    - cbn [map list_to_map foldr uncurry fst snd]. destruct (decide (n = k)) as [->|Hn].
      + rewrite lookup_insert_eq, decide_True by left. done.
      + rewrite lookup_insert_ne by done. rewrite IH. destruct (decide (n ∈ l)) as [Hin|Hin].
        * rewrite decide_True by (by right). done.
        * rewrite decide_False by (by intros [?|?]%elem_of_cons). done. }
  split.
  - intros n. rewrite Hl. destruct (decide _); split; try done; by intros [? [=]].
  - intros n a. unfold anc_of. rewrite Hl. by destruct (decide _).
Qed.

(** The fixpoint has every ancestor. *)
Lemma ancestors_fixpoint r a n :
  ancestors_pass input reachable r = r → rtc pred_edge a n → a = n ∨ a ∈ anc_of r n.
Proof.
  intros Hfix. revert n. apply rtc_ind_r; [by left|]. intros p n _ Hp IH.
  destruct (decide (a = n)) as [->|Hne]; [by left|]. right.
  assert (({[p]} ∪ anc_of r p) ∖ {[n]} ⊆ anc_of r n) as Hc.
  { rewrite <-Hfix at 2. rewrite ancestors_pass_pairs. apply anc_fold_closed, elem_of_pred_pairs.
    split; [by apply (pred_edge_in p)|done]. }
  apply Hc, elem_of_difference. rewrite elem_of_union, !elem_of_singleton. split; [|done].
  destruct IH as [->|]; tauto.
Qed.

Lemma elem_of_ancestors a n :
  a ∈ anc_of (graphAncestors input reachable) n ↔ a ≠ n ∧ tc pred_edge a n.
Proof.
  destruct (ancestors_loop_total (S (length reachable * length reachable)) (no_ancestors reachable)) as (r & Hr & Hok & Hfix);
    [apply no_ancestors_ok|lia|].
  unfold graphAncestors. rewrite Hr. simpl. split; [apply Hok|]. intros [Hne Ha].
  by destruct (ancestors_fixpoint r a n Hfix (tc_rtc _ _ Ha)).
Qed.
End ancestors.

(** ** Reads that nothing provides *)

Definition entry_reaches (x : string) : Prop := an_EntryPoint input ≠ "" ∧ rtc live_edge (an_EntryPoint input) x.

(** [a] is on the way from the entry point to [n]. *)
Definition upstream (a n : string) : Prop := a ≠ n ∧ entry_reaches a ∧ tc live_edge a n.

Definition entry_live : Prop := isAnalysisEndTarget input (an_EntryPoint input) = false.

Lemma live_edge_target x y : live_edge x y → isAnalysisEndTarget input y = false.
Proof. unfold live_edge, analysis_targets. rewrite elem_of_app, !list_elem_of_filter. tauto. Qed.

Lemma live_edge_iff x y : live_edge x y ↔ isAnalysisEndTarget input y = false ∧ graph_edge input x y = true.
Proof.
  unfold live_edge, analysis_targets, graph_edge.
  rewrite elem_of_app, !list_elem_of_filter, orb_true_iff, !bool_decide_eq_true. tauto.
Qed.

Lemma reaches_live x : entry_live → entry_reaches x → isAnalysisEndTarget input x = false.
Proof.
  intros He [_ Hx]. revert x Hx. apply rtc_ind_r; [done|]. intros y z _ Hyz _. by apply (live_edge_target y).
Qed.

Lemma live_nonempty x : isAnalysisEndTarget input x = false → x ≠ "".
Proof. by intros H ->. Qed.

Lemma pred_edge_iff p n :
  entry_live → pred_edge (reachableGraphNodes input) p n ↔ entry_reaches p ∧ live_edge p n.
Proof.
  intros He. unfold pred_edge. rewrite elem_of_predecessors, !elem_of_reachable, live_edge_iff. fold (entry_reaches p) (entry_reaches n).
  split.
  - intros (Hn & Hp & _ & Hg). split_and!; [done| |done]. by apply reaches_live.
  - intros (Hp & Hn & Hg). assert (entry_reaches n) as Hrn.
    { destruct Hp as [H0 Hp]. split; [done|]. eapply rtc_r; [exact Hp|]. by apply live_edge_iff. }
    split_and!; [done|done| |done]. apply live_nonempty, reaches_live; done.
Qed.

Lemma reaches_step x y : entry_reaches x → live_edge x y → entry_reaches y.
Proof. intros [H0 Hx] Hy. split; [done|]. by eapply rtc_r. Qed.

Lemma tc_pred_edge a n :
  entry_live → tc (pred_edge (reachableGraphNodes input)) a n ↔ entry_reaches a ∧ tc live_edge a n.
Proof.
  intros He. split.
  - induction 1 as [a n Hp|a b n Hp _ IH].
    + apply pred_edge_iff in Hp as [? ?]; [|done]. split; [done|by apply tc_once].
    + apply pred_edge_iff in Hp as [? ?]; [|done]. destruct IH as [_ IH]. split; [done|]. by eapply tc_l.
  - intros [Hr Ht]. induction Ht as [a n Hp|a b n Hp _ IH].
    + apply tc_once. by apply pred_edge_iff.
    + eapply tc_l; [by apply pred_edge_iff|]. apply IH. by eapply reaches_step.
Qed.

Lemma elem_of_upstream a n :
  entry_live →
  a ∈ default ∅ (graphAncestors input (reachableGraphNodes input) !! n) ↔ upstream a n.
Proof.
  intros He. fold (anc_of (graphAncestors input (reachableGraphNodes input)) n).
  rewrite elem_of_ancestors. rewrite tc_pred_edge by done. done.
Qed.

(** What makes a path of the state available to a node. *)
Definition provided (self : Contract → bool) (id path : string) : Prop :=
  (∃ p, p ∈ an_InitialStatePaths input ∧ sourceProvidesRead p path = true) ∨
  (∃ p, an_EntryProvider input = Some p ∧ contractProvidesRead (ep_Contract p) path = true) ∨
  (∃ c, an_NodeContracts input !! id = Some c ∧ self c = true) ∨
  (∃ a c, upstream a id ∧ an_NodeContracts input !! a = Some c ∧ contractProvidesRead c path = true).

Lemma list_nonempty {A} (l : list A) : l ≠ [] ↔ ∃ x, x ∈ l.
Proof.
  destruct l as [|x l]; split; [done|by intros [y ?%elem_of_nil]| |done]. intros _. exists x. left.
Qed.

(** A node provides the path: the reader itself, or one upstream of it. *)
Definition node_provides (self : Contract → bool) (id path : string) : Prop :=
  (∃ c, an_NodeContracts input !! id = Some c ∧ self c = true) ∨
  (∃ a c, upstream a id ∧ an_NodeContracts input !! a = Some c ∧ contractProvidesRead c path = true).

Lemma read_sources_nodes self id path :
  entry_live → entry_reaches id →
  rs_nodes (read_sources input self id path (default ∅ (graphAncestors input (reachableGraphNodes input) !! id))) ≠ [] ↔
  node_provides self id path.
Proof.
  intros He Hid. unfold read_sources. cbn [rs_nodes]. rewrite list_nonempty.
  setoid_rewrite elem_of_compactStrings. setoid_rewrite elem_of_sort_strings. setoid_rewrite elem_of_app. split.
  - intros (x & [Hx|Hx] & Hne).
    + left. destruct (an_NodeContracts input !! id) as [c|]; simpl in Hx; [|by apply elem_of_nil in Hx].
      exists c. split; [done|]. destruct (self c); [done|by apply elem_of_nil in Hx].
    + right. apply list_elem_of_filter in Hx as [Hc Hx]. rewrite elem_of_sort_strings, elem_of_elements in Hx.
      destruct (an_NodeContracts input !! x) as [c|] eqn:E; simpl in Hc; [|done]. exists x, c.
      split_and!; [by apply elem_of_upstream|done|done].
  - intros [(c & Hc & Hs)|(a & c & Ha & Hc & Hs)].
    + exists id. rewrite Hc. simpl. rewrite Hs. split; [left; left|]. by apply live_nonempty, reaches_live.
    + exists a. split.
      * right. apply list_elem_of_filter. rewrite Hc. simpl. split; [done|].
        rewrite elem_of_sort_strings, elem_of_elements. by apply elem_of_upstream.
      * destruct Ha as (_ & Ha & _). by apply live_nonempty, reaches_live.
Qed.

Lemma read_sources_provided self id path :
  entry_live → entry_reaches id →
  sources_empty (read_sources input self id path (default ∅ (graphAncestors input (reachableGraphNodes input) !! id))) = false ↔
  provided self id path.
Proof.
  intros He Hid. pose proof (read_sources_nodes self id path He Hid) as Hnodes.
  unfold sources_empty. rewrite !andb_false_iff, negb_false_iff, !bool_decide_eq_false, Hnodes. clear Hnodes.
  unfold read_sources. cbn [rs_runInput rs_entries]. rewrite existsb_exists, list_nonempty.
  unfold provided, node_provides. split; [intros [[H|H]|H]|intros [H|[H|H]]].
  - left. destruct H as (p & Hp & Hs). exists p. by rewrite list_elem_of_In.
  - right. left. destruct H as [x Hx]. unfold appendEntryProviderSource in Hx.
    destruct (an_EntryProvider input) as [p|]; [|by apply elem_of_nil in Hx]. exists p. split; [done|].
    destruct (contractProvidesRead (ep_Contract p) path); [done|by apply elem_of_nil in Hx].
  - by right; right.
  - left. left. destruct H as (p & Hp & Hs). exists p. by rewrite <-list_elem_of_In.
  - left. right. destruct H as (p & Hp & Hc). unfold appendEntryProviderSource. rewrite Hp, Hc. eexists. left.
  - by right.
Qed.

(** ** Where a diagnostic comes from *)

Definition diagnosed (d : ContractDiagnostic) : Prop := d ∈ AnalyzeContractDiagnostics input.

Lemma analysis_nonempty id :
  entry_reaches id → (is_Some (an_NodeContracts input !! id) ∨ is_Some (an_ConditionContracts input !! id)) →
  analysis_empty input = false ∧ reachableGraphNodes input ≠ [].
Proof.
  intros Hid Hc. split.
  - unfold analysis_empty. rewrite orb_false_iff, andb_false_iff, !bool_decide_eq_false. split; [|by destruct Hid].
    destruct Hc as [Hc|Hc]; [left|right]; intros He; rewrite He, lookup_empty in Hc; by destruct Hc.
  - intros He. apply elem_of_reachable in Hid. rewrite He in Hid. by apply elem_of_nil in Hid.
Qed.

Lemma diagnosed_from d :
  diagnosed d ↔ analysis_empty input = false ∧ reachableGraphNodes input ≠ [] ∧
    let reachable := reachableGraphNodes input in
    (d ∈ wildcardContractDiagnostics input reachable ∨ d ∈ overlappingWriteDiagnostics input reachable ∨
     d ∈ requiredReadDiagnostics input reachable (graphAncestors input reachable) ∨
     d ∈ requiredConditionReadDiagnostics input reachable (graphAncestors input reachable)).
Proof.
  unfold diagnosed, AnalyzeContractDiagnostics. destruct (analysis_empty input).
  { split; [by intros ?%elem_of_nil|by intros [? _]]. }
  case_bool_decide as Hr; [split; [by intros ?%elem_of_nil|by intros (_ & ? & _)]|].
  rewrite stable_sort_elem_of, !elem_of_app. cbv zeta. tauto.
Qed.

Lemma overlap_kind d reachable : d ∈ overlappingWriteDiagnostics input reachable → dg_Kind d = "overlapping_write".
Proof.
  unfold overlappingWriteDiagnostics. rewrite elem_of_concat_map. intros (w & _ & Hd).
  induction w as [|x w IH]; simpl in Hd; [by apply elem_of_nil in Hd|]. apply elem_of_app in Hd as [Hd|Hd]; [|by apply IH].
  apply list_elem_of_omap in Hd as (y & _ & Hd). unfold overlap_diagnostic in Hd. by repeat case_match; simplify_eq.
Qed.

Lemma wildcard_kind d reachable : d ∈ wildcardContractDiagnostics input reachable → dg_Kind d = "wildcard_contract".
Proof. intros (x & _ & Hd)%list_elem_of_omap. by repeat case_match; simplify_eq. Qed.

Lemma condition_kind d reachable anc :
  d ∈ requiredConditionReadDiagnostics input reachable anc → dg_Kind d = "missing_condition_read".
Proof.
  unfold requiredConditionReadDiagnostics. rewrite elem_of_concat_map. intros (id & _ & Hd).
  repeat case_match; try by apply elem_of_nil in Hd. apply list_elem_of_omap in Hd as (f & _ & Hd). by case_match; simplify_eq.
Qed.

Lemma read_diagnostic_kind id path anc d :
  read_diagnostic input id path anc = Some d →
  dg_NodeID d = id ∧ dg_Path d = path ∧ (dg_Kind d = "missing_required_read" ∨ dg_Kind d = "multiple_read_sources").
Proof. unfold read_diagnostic. intros Hd. repeat case_match; simplify_eq; simpl; tauto. Qed.

(** The diagnostics on what a node requires to read. *)
Lemma elem_of_requiredRead d reachable anc :
  d ∈ requiredReadDiagnostics input reachable anc ↔
  ∃ id c path, id ∈ reachable ∧ an_NodeContracts input !! id = Some c ∧ WildcardRead c = false ∧
    path ∈ requiredReadPaths c ∧ read_diagnostic input id path (default ∅ (anc !! id)) = Some d.
Proof.
  unfold requiredReadDiagnostics. rewrite elem_of_concat_map. split.
  - intros (id & Hid & Hd). destruct (an_NodeContracts input !! id) as [c|] eqn:Hc; [|by apply elem_of_nil in Hd].
    destruct (WildcardRead c) eqn:Hw; [rewrite orb_true_r in Hd; by apply elem_of_nil in Hd|]. rewrite orb_false_r in Hd.
    case_bool_decide; [by apply elem_of_nil in Hd|].
    apply list_elem_of_omap in Hd as (path & Hp & Hd). apply elem_of_compactStrings in Hp as [Hp _].
    rewrite elem_of_sort_strings in Hp. by exists id, c, path.
  - intros (id & c & path & Hid & Hc & Hw & Hp & Hd). exists id. split; [done|]. rewrite Hc, Hw, orb_false_r.
    rewrite bool_decide_false by (intros He; rewrite He in Hp; by apply elem_of_nil in Hp).
    apply list_elem_of_omap. exists path. split; [|done]. apply elem_of_compactStrings. split; [by apply elem_of_sort_strings|].
    by apply elem_of_compactStrings in Hp as [_ ?].
Qed.
End facts.

(** C6: A node is warned about a path it must read exactly when nothing makes the
    path available: the node is reachable from the entry point, requires the path,
    has no wildcard read, and neither the initial state, nor the entry provider,
    nor its own runtime section, nor any node on a way from the entry point to it
    provides the path.  The table of ancestors the warning rests on is a fixpoint
    the loop entry_reaches. *)
Theorem missing_read_exact input id path :
  entry_live input →
  diagnosed input (MkDiagnostic SeverityWarning "missing_required_read" id "" path []) ↔
  entry_reaches input id ∧ ∃ c, an_NodeContracts input !! id = Some c ∧ WildcardRead c = false ∧ path ∈ requiredReadPaths c ∧
    ¬ provided input (λ c, selfRuntimePathProvidesRead id c path) id path.
Proof.
  intros He. rewrite diagnosed_from. cbv zeta. split.
  - intros (_ & _ & [Hd|[Hd|[Hd|Hd]]]); [by apply wildcard_kind in Hd|by apply overlap_kind in Hd| |by apply condition_kind in Hd].
    apply elem_of_requiredRead in Hd as (id' & c & path' & Hid & Hc & Hw & Hp & Hd).
    destruct (read_diagnostic_kind _ _ _ _ _ Hd) as (Hi & Hpa & _). simpl in Hi, Hpa. subst id' path'.
    apply elem_of_reachable in Hid. split; [done|]. exists c. split_and!; [done|done|done|]. intros Hprov.
    unfold read_diagnostic, requiredReadSources in Hd.
    apply read_sources_provided in Hprov; [|done|done]. rewrite Hprov in Hd. by case_match.
  - intros (Hid & c & Hc & Hw & Hp & Hprov).
    destruct (analysis_nonempty input id Hid) as [H1 H2]; [by left; eexists|]. split_and!; [done|done|]. right. right. left.
    apply elem_of_requiredRead. exists id, c, path. split_and!; [by apply elem_of_reachable|done|done|done|].
    unfold read_diagnostic, requiredReadSources. rewrite <-read_sources_provided, not_false_iff_true in Hprov by done.
    by rewrite Hprov.
Qed.

(** ** Which frontiers the analysis visits *)

Fixpoint subsequences {A} (l : list A) : list (list A) :=
  match l with [] => [[]] | x :: l => map (cons x) (subsequences l) ++ subsequences l end.

Lemma elem_of_subsequences_filter {A} (P : A → Prop) `{∀ x, Decision (P x)} l : filter P l ∈ subsequences l.
Proof.
  induction l as [|x l IH]; [left|]. rewrite filter_cons. simpl. apply elem_of_app.
  destruct (decide (P x)); [left|by right]. apply list_elem_of_fmap. by eexists.
Qed.

Lemma subsequences_length {A} (l : list A) : length (subsequences l) = 2 ^ length l.
Proof. induction l as [|x l IH]; [done|]. simpl. rewrite length_app, length_map, IH. lia. Qed.

Section waves.
Context (input : ContractAnalysisGraph) (reachable : list string).
Context (NUL : ∀ x, x ∈ reachable → Contains "000"%char x = false).

Lemma elem_of_normalize f x :
  x ∈ normalizeAnalysisFrontier input reachable f ↔ x ∈ f ∧ isAnalysisEndTarget input x = false ∧ x ∈ reachable.
Proof.
  unfold normalizeAnalysisFrontier. rewrite elem_of_sort_strings, elem_of_remove_dups, list_elem_of_filter. tauto.
Qed.

(** A normal form: some of the live, reachable nodes, each once. *)
Definition normal (f : list string) : Prop :=
  f ≠ [] ∧ (∀ x, x ∈ f → isAnalysisEndTarget input x = false ∧ x ∈ reachable) ∧ ∃ f0, f = normalizeAnalysisFrontier input reachable f0.

Lemma normalize_normal f : normalizeAnalysisFrontier input reachable f ≠ [] → normal (normalizeAnalysisFrontier input reachable f).
Proof.
  intros Hne. split_and!; [done| |by exists f]. intros x Hx. apply elem_of_normalize in Hx. tauto.
Qed.

Lemma frontier_key_inj f1 f2 : normal f1 → normal f2 → frontier_key f1 = frontier_key f2 → f1 = f2.
Proof.
  intros (H1 & Hr1 & _) (H2 & Hr2 & _) Hk. unfold frontier_key in Hk.
  rewrite <-(Split_Join "000"%char f1), Hk, Split_Join; [done|done| |done|].
  - intros a Ha. by apply NUL, Hr2.
  - intros a Ha. by apply NUL, Hr1.
Qed.

Lemma prep_frontier_normal f f' : prep_frontier input reachable f = Some f' → normal f' ∧ f' = normalizeAnalysisFrontier input reachable f.
Proof.
  unfold prep_frontier. destruct (normalizeAnalysisFrontier input reachable f) as [|x l] eqn:E; [done|].
  intros [= <-]. split; [|done]. rewrite <-E. apply normalize_normal. by rewrite E.
Qed.

Lemma prep_of_normal f : normal f → ∃ f', prep_frontier input reachable f = Some f' ∧ ∀ x, x ∈ f → x ∈ f'.
Proof.
  intros (Hne & Hr & _). unfold prep_frontier.
  assert (∀ x, x ∈ f → x ∈ normalizeAnalysisFrontier input reachable f) as Hin.
  { intros x Hx. apply elem_of_normalize. split; [done|by apply Hr]. }
  destruct (normalizeAnalysisFrontier input reachable f) as [|y l] eqn:E; [|by eexists].
  destruct f as [|x f]; [done|]. specialize (Hin x (list_elem_of_here _ _)). by apply elem_of_nil in Hin.
Qed.

Lemma distinct_frontiers_spec seen l :
  (∀ f, f ∈ distinct_frontiers seen l → f ∈ l ∧ f ≠ []) ∧
  NoDup (map frontier_key (distinct_frontiers seen l)) ∧
  (∀ k, k ∈ map frontier_key (distinct_frontiers seen l) → k ∉ seen) ∧
  (∀ f, f ∈ l → f ≠ [] → frontier_key f ∈ seen ∨ ∃ f', f' ∈ distinct_frontiers seen l ∧ frontier_key f' = frontier_key f).
Proof.
  revert seen. induction l as [|f l IH]; intros seen; cbn [distinct_frontiers].
  { split_and!; [by intros f ?%elem_of_nil|constructor|by intros k ?%elem_of_nil|by intros f ?%elem_of_nil]. }
  destruct (bool_decide (f = []) || bool_decide (frontier_key f ∈ seen)) eqn:E.
  - destruct (IH seen) as (H1 & H2 & H3 & H4). split_and!; [|done|done|].
    + intros f' Hf'. destruct (H1 f' Hf'). split; [by right|done].
    + intros f' [->|Hf']%elem_of_cons Hne; [|by apply H4]. left.
      rewrite bool_decide_false in E by done. by apply bool_decide_eq_true in E.
  - apply orb_false_iff in E as [Hne%bool_decide_eq_false Hk%bool_decide_eq_false].
    destruct (IH ({[frontier_key f]} ∪ seen)) as (H1 & H2 & H3 & H4). split_and!.
    + intros f' [->|Hf']%elem_of_cons; [by split; [left|]|]. destruct (H1 f' Hf'). split; [by right|done].
    + apply NoDup_cons. split; [|done]. intros Hin. apply H3 in Hin. set_solver.
    + intros k [->|Hin]%elem_of_cons; [done|]. apply H3 in Hin. set_solver.
    + intros f' [->|Hf']%elem_of_cons Hne'; [right; exists f; split; [left|done]|].
      destruct (H4 f' Hf' Hne') as [Hs|(f'' & Hf'' & Hk'')].
      * apply elem_of_union in Hs as [Hs%elem_of_singleton|Hs]; [|by left]. right. exists f. split; [left|done].
      * right. exists f''. split; [by right|done].
Qed.

Lemma next_normal f f' : f' ∈ nextAnalysisFrontiers input reachable f → normal f'.
Proof.
  unfold nextAnalysisFrontiers. destruct (combine_options input reachable [[]] f) as [l|]; intros Hf'.
  - destruct (distinct_frontiers_spec ∅ (map (normalizeAnalysisFrontier input reachable) l)) as [H1 _].
    destruct (H1 f' Hf') as [Hin Hne]. apply list_elem_of_fmap in Hin as (f0 & -> & _). by apply normalize_normal.
  - unfold conservativeAnalysisFrontier in Hf'. case_match eqn:E; [by apply elem_of_nil in Hf'|].
    apply list_elem_of_singleton in Hf' as ->. rewrite <-E. apply normalize_normal. by rewrite E.
Qed.

(** A choice of one option per node is among the combinations. *)
Lemma combine_options_choice combos f r (pick : string → list string) c :
  combine_options input reachable combos f = Some r → c ∈ combos →
  (∀ n, n ∈ f → pick n ∈ analysisNodeNextOptions input reachable n) → c ++ concat (map pick f) ∈ r.
Proof.
  revert combos c. induction f as [|n f IH]; intros combos c; cbn [combine_options].
  { intros [= <-] Hc _. simpl. by rewrite app_nil_r. }
  destruct (_ <? _); [done|]. intros Hr Hc Hp. simpl. rewrite app_assoc. eapply IH; [exact Hr| |].
  - apply elem_of_concat_map. exists c. split; [done|]. apply list_elem_of_fmap. exists (pick n).
    split; [done|]. apply Hp. left.
  - intros m Hm. apply Hp. by right.
Qed.

Lemma option_normal n o x :
  o ∈ analysisNodeNextOptions input reachable n → x ∈ o → isAnalysisEndTarget input x = false ∧ x ∈ reachable.
Proof.
  unfold analysisNodeNextOptions. destruct (analysis_edges (an_ConditionalEdges input) n) as [|t l]; intros Ho Hx.
  - apply list_elem_of_singleton in Ho as ->. apply elem_of_normalize in Hx. tauto.
  - apply list_elem_of_fmap in Ho as (t' & -> & _). apply elem_of_normalize in Hx. tauto.
Qed.

(** The successors of a frontier contain what any choice leads to. *)
Lemma next_covers f (pick : string → list string) :
  (∀ n, n ∈ f → pick n ∈ analysisNodeNextOptions input reachable n) → concat (map pick f) ≠ [] →
  ∃ f', f' ∈ nextAnalysisFrontiers input reachable f ∧ ∀ x, x ∈ concat (map pick f) → x ∈ f'.
Proof.
  intros Hp Hne.
  assert (∀ x l, x ∈ concat (map pick f) → (∀ y, y ∈ concat (map pick f) → y ∈ l) → x ∈ normalizeAnalysisFrontier input reachable l) as Hnorm.
  { intros x l Hx Hl. apply elem_of_normalize. split; [by apply Hl|].
    apply elem_of_concat_map in Hx as (n & Hn & Hx). by apply (option_normal n (pick n)); [apply Hp|]. }
  assert (∀ l, (∀ y, y ∈ concat (map pick f) → y ∈ l) → normalizeAnalysisFrontier input reachable l ≠ []) as Hnn.
  { intros l Hl E. apply list_nonempty in Hne as [x Hx]. specialize (Hnorm x l Hx Hl). rewrite E in Hnorm. by apply elem_of_nil in Hnorm. }
  unfold nextAnalysisFrontiers. destruct (combine_options input reachable [[]] f) as [l|] eqn:Hc.
  - eapply (combine_options_choice _ _ _ pick []) in Hc; [|left|done]. simpl in Hc.
    set (o := concat (map pick f)) in *. pose proof (Hnn o (λ _ H, H)) as Hno.
    destruct (distinct_frontiers_spec ∅ (map (normalizeAnalysisFrontier input reachable) l)) as (H1 & _ & _ & H4).
    destruct (H4 (normalizeAnalysisFrontier input reachable o)) as [Hs|(f' & Hf' & Hk)];
      [apply list_elem_of_fmap; by exists o|done|by apply elem_of_empty in Hs|].
    assert (f' = normalizeAnalysisFrontier input reachable o) as ->.
    { apply frontier_key_inj; [|by apply normalize_normal|done]. destruct (H1 f' Hf') as [Hin Hne'].
      apply list_elem_of_fmap in Hin as (f0 & -> & _). by apply normalize_normal. }
    eexists. split; [exact Hf'|]. intros x Hx. by apply Hnorm.
  - unfold conservativeAnalysisFrontier.
    set (u := concat (map (λ id, concat (analysisNodeNextOptions input reachable id)) f)).
    assert (∀ y, y ∈ concat (map pick f) → y ∈ u) as Hu.
    { intros y Hy. apply elem_of_concat_map in Hy as (n & Hn & Hy). apply elem_of_concat_map. exists n. split; [done|].
      rewrite <-(map_id (analysisNodeNextOptions input reachable n)). apply elem_of_concat_map. exists (pick n). split; [by apply Hp|done]. }
    pose proof (Hnn u Hu) as Hno. destruct (normalizeAnalysisFrontier input reachable u) as [|x l] eqn:E; [done|].
    eexists. split; [apply list_elem_of_singleton; reflexivity|]. intros y Hy. rewrite <-E. by apply Hnorm.
Qed.

(** The search has fuel enough: its frontiers are subsets of the reachable nodes. *)
Definition subset_keys : gset string := list_to_set (map (frontier_key ∘ sort_strings) (subsequences reachable)).

Lemma normal_key f : NoDup reachable → normal f → frontier_key f ∈ subset_keys.
Proof.
  intros Hn (_ & Hr & f0 & Hf). apply elem_of_list_to_set, list_elem_of_fmap.
  set (s := filter (λ x, x ∈ f) reachable). exists s. split; [|by apply elem_of_subsequences_filter].
  simpl. f_equal. rewrite Hf. unfold normalizeAnalysisFrontier. apply sort_strings_perm_eq, NoDup_Permutation.
  - apply NoDup_remove_dups.
  - by apply NoDup_filter.
  - intros x. unfold s. rewrite elem_of_remove_dups, !list_elem_of_filter, Hf, elem_of_normalize. tauto.
Qed.

Lemma next_length f : NoDup reachable → length (nextAnalysisFrontiers input reachable f) ≤ 2 ^ length reachable.
Proof.
  intros Hn.
  assert (NoDup (map frontier_key (nextAnalysisFrontiers input reachable f))) as Hd.
  { unfold nextAnalysisFrontiers. destruct (combine_options input reachable [[]] f) as [l|].
    - by destruct (distinct_frontiers_spec ∅ (map (normalizeAnalysisFrontier input reachable) l)) as (_ & ? & _).
    - unfold conservativeAnalysisFrontier. case_match; [constructor|apply NoDup_singleton]. }
  rewrite <-subsequences_length, <-(length_map frontier_key).
  rewrite <-(length_map (frontier_key ∘ sort_strings) (subsequences reachable)).
  apply submseteq_length, NoDup_submseteq; [done|]. intros k (f' & -> & Hf')%list_elem_of_fmap.
  apply next_normal in Hf'. apply (normal_key f' Hn) in Hf'. by apply elem_of_list_to_set in Hf'.
Qed.

Definition visit_frontiers : option (list (list string)) :=
  visit_all frontier_key (prep_frontier input reachable) (nextAnalysisFrontiers input reachable)
    (frontiers_fuel reachable) ∅ [[an_EntryPoint input]] [].

Lemma frontiers_total : NoDup reachable → is_Some visit_frontiers.
Proof.
  intros Hn. unfold visit_frontiers, frontiers_fuel.
  apply (visit_all_total _ _ _ subset_keys (2 ^ length reachable) (λ _, True)).
  - done.
  - done.
  - intros f f' _ Hp. apply prep_frontier_normal in Hp as [Hf' _]. split; [by apply normal_key|by apply next_length].
  - rewrite difference_empty_L. cbn [length].
    assert (size subset_keys ≤ 2 ^ length reachable) as Hs.
    { unfold subset_keys. etrans; [apply size_list_to_set_le|]. by rewrite length_map, subsequences_length. }
    revert Hs. generalize (size subset_keys) (2 ^ length reachable). intros. nia.
Qed.

Lemma visited_normal r : visit_frontiers = Some r → ∀ f, f ∈ r → normal f.
Proof.
  intros Hr. refine (visit_all_sound _ _ _ normal _ _ _ _ _ _ _ _ Hr).
  - intros a b b' _ _ Hb. by apply prep_frontier_normal in Hb as [? _].
  - intros a a' _ Ha. by apply prep_frontier_normal in Ha as [? _].
  - by intros a ?%elem_of_nil.
Qed.

(** Every visited frontier is followed by one that contains what any choice leads to. *)
Lemma visited_next r f (pick : string → list string) :
  visit_frontiers = Some r → f ∈ r →
  (∀ n, n ∈ f → pick n ∈ analysisNodeNextOptions input reachable n) → concat (map pick f) ≠ [] →
  ∃ f', f' ∈ r ∧ ∀ x, x ∈ concat (map pick f) → x ∈ f'.
Proof.
  intros Hr Hf Hp Hne. destruct (next_covers f pick Hp Hne) as (f1 & Hf1 & Hsub).
  destruct (prep_of_normal f1 (next_normal _ _ Hf1)) as (f2 & Hf2 & Hsub2).
  pose proof (visited_normal r Hr) as Hnorm.
  apply visit_all_start in Hr as (_ & Hc & _). destruct (Hc f f1 Hf Hf1 f2 Hf2) as (z & Hz & Hk).
  exists z. split; [done|]. intros x Hx.
  rewrite (frontier_key_inj z f2); [by apply Hsub2, Hsub|by apply Hnorm| |done].
  by apply prep_frontier_normal in Hf2 as [? _].
Qed.

Lemma visited_start r :
  isAnalysisEndTarget input (an_EntryPoint input) = false → an_EntryPoint input ∈ reachable →
  visit_frontiers = Some r → ∃ f, f ∈ r ∧ an_EntryPoint input ∈ f.
Proof.
  intros He Hin Hr. apply visit_all_start in Hr as Hs. destruct Hs as (Hc & _).
  assert (an_EntryPoint input ∈ normalizeAnalysisFrontier input reachable [an_EntryPoint input]) as Hn.
  { apply elem_of_normalize. split; [left|done]. }
  destruct (prep_frontier input reachable [an_EntryPoint input]) as [f|] eqn:Hp.
  - destruct (Hc f Hp) as (z & Hz & Hk). exists z. split; [done|].
    apply prep_frontier_normal in Hp as [Hf Hp]. rewrite (frontier_key_inj z f); [by rewrite Hp| |done|done].
    by apply (visited_normal r).
  - unfold prep_frontier in Hp. destruct (normalizeAnalysisFrontier _ _ _); [by apply elem_of_nil in Hn|done].
Qed.

Lemma option_exists n : ∃ o, o ∈ analysisNodeNextOptions input reachable n.
Proof.
  unfold analysisNodeNextOptions. destruct (analysis_edges (an_ConditionalEdges input) n) as [|t l].
  - eexists. apply list_elem_of_singleton. reflexivity.
  - eexists. left.
Qed.

(** The same for a part of a visited frontier. *)
Lemma covered_next r f w (pick : string → list string) :
  visit_frontiers = Some r → w ∈ r → (∀ x, x ∈ f → x ∈ w) →
  (∀ n, n ∈ f → pick n ∈ analysisNodeNextOptions input reachable n) → concat (map pick f) ≠ [] →
  ∃ w', w' ∈ r ∧ ∀ x, x ∈ concat (map pick f) → x ∈ w'.
Proof.
  intros Hr Hw Hsub Hp Hne.
  set (first := λ n, match analysisNodeNextOptions input reachable n with o :: _ => o | [] => [] end).
  set (pick' := λ n, if decide (n ∈ f) then pick n else first n).
  assert (∀ x, x ∈ concat (map pick f) → x ∈ concat (map pick' w)) as Hext.
  { intros x Hx. apply elem_of_concat_map in Hx as (n & Hn & Hx). apply elem_of_concat_map. exists n.
    split; [by apply Hsub|]. unfold pick'. by rewrite decide_True. }
  destruct (visited_next r w pick' Hr Hw) as (w' & Hw' & Hin).
  - intros n Hn. unfold pick'. destruct (decide (n ∈ f)); [by apply Hp|]. unfold first.
    destruct (option_exists n) as [o Ho]. destruct (analysisNodeNextOptions input reachable n); [by apply elem_of_nil in Ho|left].
  - apply list_nonempty in Hne as [x Hx]. apply list_nonempty. exists x. by apply Hext.
  - exists w'. split; [done|]. intros x Hx. by apply Hin, Hext.
Qed.
End waves.

Lemma reachable_NoDup input : NoDup (reachableGraphNodes input).
Proof.
  unfold reachableGraphNodes. case_bool_decide; [constructor|].
  destruct (reachable_total input) as [r Hr]. rewrite Hr. simpl. unfold sort_strings. rewrite stable_sort_perm.
  apply visit_all_start in Hr as (_ & _ & Hn). by rewrite map_id in Hn.
Qed.

(** ** Writes of parallel branches *)

(** In a sorted frontier, the lesser of two nodes is compared with the greater. *)
Lemma wave_diagnostics_pair input w a b d :
  StronglySorted (not_after (less_last (λ s, s) str_lt)) w → a ∈ w → b ∈ w → str_lt a b = true →
  overlap_diagnostic input a b = Some d → d ∈ wave_diagnostics input w.
Proof.
  intros Hs Ha Hb Hlt Hd. induction Hs as [|x w Hs IH Hx]; [by apply elem_of_nil in Ha|]. simpl. apply elem_of_app.
  assert (∀ y, str_lt y y = false) as Hirr by (intros y; apply st_irrefl).
  apply elem_of_cons in Ha as [->|Ha], Hb as [->|Hb].
  - by rewrite Hirr in Hlt.
  - left. apply list_elem_of_omap. by exists b.
  - rewrite Forall_forall in Hx. specialize (Hx a Ha). unfold not_after, less_last in Hx. congruence.
  - right. by apply IH.
Qed.

Lemma normal_sorted input reachable f : normal input reachable f → StronglySorted (not_after (less_last (λ s, s) str_lt)) f.
Proof. intros (_ & _ & f0 & ->). apply stable_sort_sorted. apply _. Qed.

(** Two nodes of one visited frontier whose writes conflict are reported. *)
Lemma visited_overlap input r w a b l rt p :
  visit_frontiers input (reachableGraphNodes input) = Some r → w ∈ r → a ∈ w → b ∈ w → str_lt a b = true →
  an_NodeContracts input !! a = Some l → an_NodeContracts input !! b = Some rt →
  overlappingWritePath l rt = Some (p, false) →
  diagnosed input (MkDiagnostic SeverityError "overlapping_write" a b p []).
Proof.
  intros Hr Hw Ha Hb Hlt Hl Hrt Ho.
  pose proof (visited_normal input (reachableGraphNodes input) r Hr w Hw) as Hn.
  destruct Hn as (Hne & Hin & Hf). assert (normal input (reachableGraphNodes input) w) as Hn by done.
  destruct (analysis_nonempty input a) as [H1 H2]; [by apply elem_of_reachable, Hin|by left; eexists|].
  apply diagnosed_from. cbv zeta. split_and!; [done|done|]. right. left.
  unfold overlappingWriteDiagnostics, analysisParallelWaves, analysis_frontiers.
  rewrite bool_decide_true.
  - fold (visit_frontiers input (reachableGraphNodes input)). rewrite Hr. simpl. apply elem_of_concat_map.
    exists w. split; [|apply (wave_diagnostics_pair input w a b); [by eapply normal_sorted|done|done|done|]].
    + apply list_elem_of_filter. split; [|done].
      destruct w as [|x [|y w]]; simpl; [by apply elem_of_nil in Ha| |lia].
      apply list_elem_of_singleton in Ha as ->. apply list_elem_of_singleton in Hb as ->.
      by rewrite (st_irrefl (klt := str_lt)) in Hlt.
    + unfold overlap_diagnostic. by rewrite Hl, Hrt, Ho.
  - apply elem_of_reachable. destruct (Hin a Ha) as [_ Hra]. apply elem_of_reachable in Hra as [H0 _]. split; [done|constructor].
Qed.

(** ** A concrete graph

    [a] leads to [b] and [c]; [b] reads what [a] writes and something nobody
    writes, [b] and [c] both write [shared.x]. *)
Definition field (path : string) (mode : AccessMode) (required : bool) (merge : MergeStrategy) : FieldAccess :=
  MkField (match ParsePath path with Ok p => p | Err _ => MkPath "" [] end) mode required merge "" "" ∅ "".

Definition sample_analysis : ContractAnalysisGraph :=
  MkAnalysis "a" "END" ["shared.request.input"] None
    (list_to_map [("a", ["b"; "c"]); ("b", ["END"]); ("c", ["END"])]) ∅
    (list_to_map
      [("a", MkContract [field "shared.in" AccessWrite false MergeReplace] false false);
       ("b", MkContract [field "shared.in" AccessRead true MergeDefault; field "shared.other" AccessRead true MergeDefault;
                         field "shared.x" AccessWrite false MergeReplace] false false);
       ("c", MkContract [field "shared.x" AccessWrite false MergeReplace] false false)]) ∅.

Lemma missing_read_exact_witness :
  ¬ provided sample_analysis (λ _, false) "b" "shared.other" ∧ ¬ diagnosed sample_analysis
    (MkDiagnostic SeverityWarning "missing_required_read" "b" "" "shared.in" []).
Proof.
  split.
  - intros Hp. destruct (missing_read_exact sample_analysis "b" "shared.other" eq_refl) as [H _].
    destruct H as (_ & c & Hc & _ & _ & Hn).
    { unfold diagnosed. apply (bool_decide_unpack _). vm_compute. exact I. }
    apply Hn. destruct Hp as [H|[H|[(c' & _ & H)|H]]]; [left; exact H|right; left; exact H|discriminate H|right; right; right; exact H].
  - unfold diagnosed. apply (bool_decide_unpack _). vm_compute. exact I.
Defined.
