(* ===== verification/ExecutionPolicy.v ===== *)
(** * Execution policies: [runtime/execution_policy.go], the class lists of
    [graph/execution_policy.go]

    Go [int]s and durations are [Z] here: the policy code only compares them. *)

From Stdlib Require Import SpecFloat.
From S2P Require Import Prelude GoStrings Values Errors.

Record RetryPolicy := MkRetry {
  MaxAttempts : Z;
  InitialInterval : Z;
  MaxInterval : Z;
  BackoffMultiplier : spec_float;
  Jitter : spec_float;
  RetryableErrorClasses : list string;
  NonRetryableErrorClasses : list string;
}.

Record ExecutionPolicy := MkPolicy { Timeout : Z; MaxConcurrency : Z; Retry : RetryPolicy }.

Record GraphLimits := MkLimits {
  MaxSuperSteps : Z;
  MaxNodeExecutions : Z;
  MaxFanOut : Z;
  MaxConcurrentRuns : Z;
  MaxConcurrentNodes : Z;
  MaxConcurrentTools : Z;
  MaxStateBytes : Z;
  MaxWallTime : Z;
}.

Record GraphExecutionPolicy := MkGraphPolicy { Limits : GraphLimits; NodeDefaults : ExecutionPolicy }.

Inductive policy_error :=
  | ELimitNotPositive (name : string)
  | ETimeoutNotPositive
  | EConcurrencyNotPositive
  | EMaxAttempts
  | ENegativeInterval
  | EInitialAboveMax
  | EBackoff
  | EJitter
  | EClassOverlap (class : string).

(** [time.Second] in nanoseconds. *)
Definition Second : Z := 1000000000.

(** The floats 0, 0.2, 1 and 2; [float64(0.2)] is 3602879701896397 / 2^54. *)
Definition float_zero : spec_float := S754_zero false.
Definition float_one : spec_float := S754_finite false 4503599627370496 (-52).
Definition float_two : spec_float := S754_finite false 4503599627370496 (-51).
Definition float_fifth : spec_float := S754_finite false 7205759403792794 (-55).

Definition DefaultGraphExecutionPolicy : GraphExecutionPolicy :=
  MkGraphPolicy
    (MkLimits 1000 10000 128 32 32 16 (Z.shiftl 16 20) (30 * 60 * Second))
    (MkPolicy (5 * 60 * Second) 8
      (MkRetry 1 Second (30 * Second) float_two float_fifth
        [ErrorTimeout; ErrorRateLimited; ErrorUnavailable; ErrorSideEffectFailed]
        [ErrorInvalidInput; ErrorInvalidOutput; ErrorCanceled; ErrorPermissionDenied;
         ErrorResourceExhausted; ErrorNonRetryable])).

(** [overlappingErrorClasses]: the first class of [right] also in [left], or the
    empty string. *)
Definition overlappingErrorClasses (left_ right_ : list string) : string :=
  let seen := filter (λ s, s ≠ "") (map TrimSpace left_) in
  match filter (λ s, s ∈ seen) (map TrimSpace right_) with
  | [] => ""
  | c :: _ => c
  end.

Definition ValidatePolicy (p : ExecutionPolicy) : result policy_error unit :=
  let retry := Retry p in
  let* _ := guard_err (Timeout p <=? 0)%Z ETimeoutNotPositive in
  let* _ := guard_err (MaxConcurrency p <=? 0)%Z EConcurrencyNotPositive in
  let* _ := guard_err ((MaxAttempts retry <=? 0) || (101 <? MaxAttempts retry))%Z EMaxAttempts in
  let* _ := guard_err ((InitialInterval retry <? 0) || (MaxInterval retry <? 0))%Z ENegativeInterval in
  let* _ := guard_err ((0 <? MaxInterval retry) && (MaxInterval retry <? InitialInterval retry))%Z
              EInitialAboveMax in
  let* _ := guard_err (SFltb (BackoffMultiplier retry) float_one) EBackoff in
  let* _ := guard_err (SFltb (Jitter retry) float_zero || SFltb float_one (Jitter retry)) EJitter in
  let overlap := overlappingErrorClasses (RetryableErrorClasses retry) (NonRetryableErrorClasses retry) in
  guard_err (negb (bool_decide (overlap = ""))) (EClassOverlap overlap).

Definition positive_limits (l : GraphLimits) : list (string * Z) :=
  [("max super steps", MaxSuperSteps l); ("max node executions", MaxNodeExecutions l);
   ("max fan-out", MaxFanOut l); ("max concurrent runs", MaxConcurrentRuns l);
   ("max concurrent nodes", MaxConcurrentNodes l); ("max concurrent tools", MaxConcurrentTools l);
   ("max state bytes", MaxStateBytes l); ("max wall time", MaxWallTime l)].

Definition ValidateGraphPolicy (p : GraphExecutionPolicy) : result policy_error unit :=
  let* _ := first_err (λ item, guard_err (item.2 <=? 0)%Z (ELimitNotPositive item.1))
              (positive_limits (Limits p)) in
  ValidatePolicy (NodeDefaults p).

(** ** The class lists of a definition's policy *)

(** [errorClasses], and [errorClassStrings], the same on Go's string type. *)
Definition errorClasses (values : list string) : list string :=
  filter (λ s, s ≠ "") (map TrimSpace values).

Definition excludeErrorClasses (classes excluded : list string) : list string :=
  filter (λ c, c ∉ excluded) classes.

(** The part of [executionPolicyFromDSL] that reads the two class lists; [None]
    is a Go nil slice. *)
Definition classes_from_dsl (retryable nonRetryable : option (list string)) (base : RetryPolicy)
    : list string * list string :=
  match retryable, nonRetryable with
  | Some r, Some n => (errorClasses r, errorClasses n)
  | Some r, None =>
    (errorClasses r, excludeErrorClasses (NonRetryableErrorClasses base) (errorClasses r))
  | None, Some n =>
    (excludeErrorClasses (RetryableErrorClasses base) (errorClasses n), errorClasses n)
  | None, None => (RetryableErrorClasses base, NonRetryableErrorClasses base)
  end.

(** ** Lemmas *)

Lemma overlappingErrorClasses_none l r :
  overlappingErrorClasses l r = "" ↔
  ∀ c d, c ∈ l → d ∈ r → TrimSpace c = TrimSpace d → TrimSpace c = "".
Proof.
  unfold overlappingErrorClasses.
  destruct (filter _ (map TrimSpace r)) as [|x xs] eqn:Hf.
  - split; [intros _|done]. intros c d Hc Hd Heq.
    destruct (decide (TrimSpace c = "")) as [|Hne]; [done|].
    assert (TrimSpace d ∈ filter (λ s, s ∈ filter (λ s, s ≠ "") (map TrimSpace l)) (map TrimSpace r))
      as Hin; [|rewrite Hf in Hin; by apply elem_of_nil in Hin].
    apply list_elem_of_filter. split; [|apply list_elem_of_fmap; eauto].
    rewrite <-Heq. apply list_elem_of_filter. split; [done|apply list_elem_of_fmap; eauto].
  - assert (x ∈ x :: xs) as Hx by left. rewrite <-Hf in Hx.
    apply list_elem_of_filter in Hx as [Hl (d & -> & Hd)%list_elem_of_fmap].
    apply list_elem_of_filter in Hl as [Hne (c & Heq & Hc)%list_elem_of_fmap].
    split; [done|]. intros H. destruct Hne. rewrite Heq. by apply (H c d).
Qed.

Lemma errorClasses_trimmed l c : c ∈ errorClasses l → TrimSpace c = c ∧ c ≠ "".
Proof.
  intros [Hne (d & -> & _)%list_elem_of_fmap]%list_elem_of_filter.
  split; [apply TrimSpace_trimmed|done].
Qed.

Lemma ValidatePolicy_Ok p :
  ValidatePolicy p = Ok tt ↔
  (0 < Timeout p)%Z ∧ (0 < MaxConcurrency p)%Z ∧
  (1 ≤ MaxAttempts (Retry p) ≤ 101)%Z ∧
  (0 ≤ InitialInterval (Retry p))%Z ∧ (0 ≤ MaxInterval (Retry p))%Z ∧
  (MaxInterval (Retry p) = 0 ∨ InitialInterval (Retry p) ≤ MaxInterval (Retry p))%Z ∧
  SFltb (BackoffMultiplier (Retry p)) float_one = false ∧
  SFltb (Jitter (Retry p)) float_zero = false ∧ SFltb float_one (Jitter (Retry p)) = false ∧
  overlappingErrorClasses (RetryableErrorClasses (Retry p)) (NonRetryableErrorClasses (Retry p)) = "".
Proof.
  unfold ValidatePolicy.
  assert (∀ (b : bool) e (k : result policy_error unit),
    (let* _ := guard_err b e in k) = Ok tt ↔ b = false ∧ k = Ok tt) as Hg.
  { intros [] e k; simpl; naive_solver. }
  rewrite !Hg, guard_err_Ok, negb_false_iff, bool_decide_eq_true, !orb_false_iff, andb_false_iff.
  rewrite !Z.leb_gt, !Z.ltb_ge. split; intros; destruct_and!; split_and!; try done; lia.
Qed.

(** [GraphExecutionPolicy.Validate] is exact: it accepts a policy exactly
    when every limit is positive, the node defaults have a positive timeout and
    concurrency, one to a hundred retries on top of the first attempt, ordered
    non-negative intervals, a backoff and a jitter that do not compare outside
    their range, and no error class that is retryable and not retryable at once;
    the default policy is one of them. *)
Theorem ValidateGraphPolicy_exact p :
  (ValidateGraphPolicy p = Ok tt ↔
   Forall (λ item, (0 < item.2)%Z) (positive_limits (Limits p)) ∧
   let d := NodeDefaults p in
   (0 < Timeout d)%Z ∧ (0 < MaxConcurrency d)%Z ∧ (1 ≤ MaxAttempts (Retry d) ≤ 101)%Z ∧
   (0 ≤ InitialInterval (Retry d))%Z ∧ (0 ≤ MaxInterval (Retry d))%Z ∧
   (MaxInterval (Retry d) = 0 ∨ InitialInterval (Retry d) ≤ MaxInterval (Retry d))%Z ∧
   SFltb (BackoffMultiplier (Retry d)) float_one = false ∧
   SFltb (Jitter (Retry d)) float_zero = false ∧ SFltb float_one (Jitter (Retry d)) = false ∧
   ∀ c c', c ∈ RetryableErrorClasses (Retry d) → c' ∈ NonRetryableErrorClasses (Retry d) →
     TrimSpace c = TrimSpace c' → TrimSpace c = "") ∧
  ValidateGraphPolicy DefaultGraphExecutionPolicy = Ok tt.
Proof.
  split; [|vm_compute; reflexivity].
  unfold ValidateGraphPolicy. rewrite result_bind_Ok, <-overlappingErrorClasses_none.
  cbv zeta. rewrite <-ValidatePolicy_Ok.
  assert (∀ u, first_err (λ item, guard_err (item.2 <=? 0)%Z (ELimitNotPositive item.1))
    (positive_limits (Limits p)) = Ok u ↔
    Forall (λ item, (0 < item.2)%Z) (positive_limits (Limits p))) as Hl.
  { intros []. rewrite first_err_Ok, <-Forall_forall.
    apply Forall_proper; [|done]. intros item. by rewrite guard_err_Ok, Z.leb_gt. }
  setoid_rewrite Hl. split; [intros (u & H & Hp); by split|]. intros [H Hp]. by exists tt.
Qed.

(** A NaN compares neither below nor above any bound, so it is accepted as a
    jitter and as a backoff multiplier. *)
Example ValidatePolicy_accepts_nan :
  let d := NodeDefaults DefaultGraphExecutionPolicy in
  ValidatePolicy (MkPolicy (Timeout d) (MaxConcurrency d)
    (MkRetry 2 0 0 S754_nan S754_nan [] [])) = Ok tt.
Proof. reflexivity. Qed.

(** Overriding one class list of a policy cannot make it contradictory: the
    classes the definition names are taken out of the inherited opposite list,
    and the definition's own list is kept as it was written, trimmed. *)
Theorem classes_from_dsl_disjoint retryable nonRetryable base :
  overlappingErrorClasses (RetryableErrorClasses base) (NonRetryableErrorClasses base) = "" →
  Forall trimmed (RetryableErrorClasses base) → Forall trimmed (NonRetryableErrorClasses base) →
  retryable = None ∨ nonRetryable = None →
  let '(r, n) := classes_from_dsl retryable nonRetryable base in
  overlappingErrorClasses r n = "" ∧
  (∀ l, retryable = Some l → r = errorClasses l) ∧
  (∀ l, nonRetryable = Some l → n = errorClasses l).
Proof.
  intros Hbase Hr Hn Hone.
  assert (∀ l k c, Forall trimmed l → c ∈ excludeErrorClasses l (errorClasses k) →
    TrimSpace c = c ∧ c ∉ errorClasses k) as Hex.
  { intros l k c Hl [Hc Hin]%list_elem_of_filter. rewrite Forall_forall in Hl.
    split; [by apply Hl|done]. }
  destruct retryable as [l|], nonRetryable as [k|]; simpl; [by destruct Hone|..];
    (split; [|naive_solver]); [| |done]; apply overlappingErrorClasses_none; intros c d Hc Hd Heq.
  - apply errorClasses_trimmed in Hc as Hc'. destruct (Hex _ _ _ Hn Hd) as [Ht Hno].
    destruct Hno. destruct Hc' as [Htc _]. congruence.
  - apply errorClasses_trimmed in Hd as Hd'. destruct (Hex _ _ _ Hr Hc) as [Ht Hno].
    destruct Hno. destruct Hd' as [Htd _]. congruence.
Qed.

Lemma classes_from_dsl_disjoint_witness :
  overlappingErrorClasses [ErrorCanceled]
    (excludeErrorClasses (NonRetryableErrorClasses (Retry (NodeDefaults DefaultGraphExecutionPolicy)))
      [ErrorCanceled]) = "".
Proof.
  exact (proj1 (classes_from_dsl_disjoint (Some [" canceled "]) None
    (Retry (NodeDefaults DefaultGraphExecutionPolicy)) eq_refl
    ltac:(by apply (bool_decide_unpack _)) ltac:(by apply (bool_decide_unpack _)) (or_intror eq_refl))).
Defined.
