(* ===== verification/Tasks.v ===== *)
(** * Tasks and routes: the data of [runtime/runner_graph.go] and
    [registry/condition.go] *)

From S2P Require Import Prelude GoStrings Values StateTree Patch Errors.

Record FailureContext := MkFailure {
  f_Stage : string;
  f_ErrorClass : string;
  f_Error : string;
  f_SourceNodeID : string;
  f_Details : option vmap;
}.

Record GraphTask := MkTask {
  TaskID : string;
  OperationID : string;
  NodeID : string;
  Input : Patch;
  CorrelationKey : string;
  OrderKey : string;
  Order : Z;
  Dynamic : bool;
  ParallelWaveSize : Z;
  Failure : option FailureContext;
}.

Definition NewStaticGraphTask (nodeID : string) (order : Z) : GraphTask :=
  MkTask nodeID "" nodeID [] "" "" order false 0 None.

Definition with_order (t : GraphTask) (order : Z) : GraphTask :=
  MkTask (TaskID t) (OperationID t) (NodeID t) (Input t) (CorrelationKey t) (OrderKey t) order
    (Dynamic t) (ParallelWaveSize t) (Failure t).

Definition with_wave_size (t : GraphTask) (size : Z) : GraphTask :=
  MkTask (TaskID t) (OperationID t) (NodeID t) (Input t) (CorrelationKey t) (OrderKey t) (Order t)
    (Dynamic t) size (Failure t).

Definition GraphTaskNodeIDs (tasks : list GraphTask) : list string :=
  filter (λ s, s ≠ "") (map NodeID tasks).

(** [cloneFailureDetails]: details that cannot be cloned are dropped. *)
Definition cloneFailureDetails (details : option vmap) : option vmap :=
  match details with
  | Some m => if bool_decide (m = ∅) then Some m else if cloneable (VMap m) then Some m else None
  | None => None
  end.

Definition CloneGraphTasks (tasks : list GraphTask) : list GraphTask :=
  map (λ t, MkTask (TaskID t) (OperationID t) (NodeID t) (Input t) (CorrelationKey t) (OrderKey t)
    (Order t) (Dynamic t) (ParallelWaveSize t)
    ((λ f, MkFailure (f_Stage f) (f_ErrorClass f) (f_Error f) (f_SourceNodeID f)
             (cloneFailureDetails (f_Details f))) <$> Failure t)) tasks.

(** ** Route decisions *)

Record Send := MkSend {
  send_Target : string;
  send_Input : Patch;
  send_CorrelationKey : string;
  send_OrderKey : string;
}.

Record RouteDecision := MkDecision {
  Matched : bool;
  Targets : list string;
  Sends : list Send;
  Reason : string;
  dec_Details : option vmap;
}.

Record GraphConditionSpec := MkSpec { spec_ID : string; spec_Type : string; spec_Paths : list string }.

(** A condition evaluator is code of the embedding program: a function of the
    state it is shown, or nil. *)
Record EdgeCondition := MkCondition {
  Spec : GraphConditionSpec;
  Evaluate : option (State → result go_error RouteDecision);
}.

(** [dsl.FailureRouteSpec]. *)
Record FailureRouteSpec := MkFailureRoute {
  Stages : list string;
  ErrorClasses : list string;
  CatchAll : bool;
}.

Definition FailureStageNode : string := "node".
Definition FailureStageCondition : string := "condition".

Inductive route_error := ERouteUndeclared | ERouteStage (stage : string).

(** [FailureRouteSpec.Validate]. *)
Definition ValidateRoute (route : FailureRouteSpec) : result route_error unit :=
  let* _ := guard_err ((length (Stages route) =? 0)%nat && (length (ErrorClasses route) =? 0)%nat
                       && negb (CatchAll route)) ERouteUndeclared in
  first_err (λ stage, guard_err
    (negb (bool_decide (stage = FailureStageNode) || bool_decide (stage = FailureStageCondition)))
    (ERouteStage stage)) (Stages route).
