(* ===== verification/Topology.v ===== *)
(** * Graph topology: the edges of [graph/graph.go], [graph/validation.go] and
    the tables compiled from them

    Maps whose iteration order Go leaves open are folded in the order of
    [map_to_list]; where the order only decides which of several errors is
    reported, the theorems speak of success alone. *)

From S2P Require Import Prelude GoStrings Values Paths StateTree.
From S2P Require Import Patch Contracts Errors ExecutionPolicy Tasks Worklist.

Definition EndNodeRef : string := "__end__".
Definition endNodeID : string := "END".

(** What the scheduler needs of a [core.Node]. *)
Record Node := MkNode { node_Effect : option string }.

Record conditionalEdge := MkConditionalEdge {
  ce_to : string;
  ce_condition : EdgeCondition;
  ce_contract : Contract;
  ce_resolved : bool;
}.

Record failureRoute := MkRoute { fr_to : string; fr_route : FailureRouteSpec }.

Record GraphEdgeSpec := MkEdgeSpec {
  es_From : string;
  es_To : string;
  es_Condition : option GraphConditionSpec;
  es_Failure : option FailureRouteSpec;
}.

(** The fields of [Graph] that routing reads. *)
Record Graph := MkGraph {
  nodes : gmap string Node;
  nodeSpecIDs : gmap string string;
  nodeContracts : gmap string Contract;
  conditionContracts : gmap string Contract;
  defaultEdges : gmap string (list string);
  conditionalEdges : gmap string (list conditionalEdge);
  failureRoutes : gmap string (list failureRoute);
  edgeSpecs : list GraphEdgeSpec;
  entryPoint : string;
  finishPoint : string;
  executionPolicy : GraphExecutionPolicy;
  nodePolicies : gmap string ExecutionPolicy;
  sealed : bool;
}.

Inductive graph_error :=
  | ESealed
  | ENodeIDEmpty
  | ENodeNotFound (id : string)
  | EEdgeTargetEmpty
  | EDuplicateEdge (from to : string)
  | ERoute (cause : route_error)
  | EConditionType
  | EConditionEvaluator
  | EEdgeContract (from to : string)
  | EPolicy (cause : policy_error)
  | ENodePolicy (node : string) (cause : policy_error)
  | ENoNodes
  | EEntryUnset
  | EEntryNotFound
  | EFinishNotFound
  | EEdgeSource (from : string)
  | EEdgeTarget (to : string)
  | EMultipleFallbacks (from : string)
  | ENoFallback (from : string)
  | EUnreachable (node : string)
  | EFinishHasEdges
  | ENoOutgoing (node : string)
  | ENoWayOut (node : string).

Definition targets_of (g : Graph) (id : string) : list string := default [] (defaultEdges g !! id).
Definition conditional_of (g : Graph) (id : string) : list conditionalEdge :=
  default [] (conditionalEdges g !! id).
Definition failures_of (g : Graph) (id : string) : list failureRoute :=
  default [] (failureRoutes g !! id).

(** ** Building the graph *)

Definition beginMutation (g : Graph) : result graph_error unit := guard_err (sealed g) ESealed.

Definition resolveNodeID (g : Graph) (ref : string) : result graph_error string :=
  let ref := TrimSpace ref in
  if bool_decide (ref = "") then Err ENodeIDEmpty
  else if bool_decide (is_Some (nodes g !! ref)) then Ok ref
  else Err (ENodeNotFound ref).

Definition resolveEdgeTarget (g : Graph) (ref : string) : result graph_error string :=
  let ref := TrimSpace ref in
  if bool_decide (ref = "") then Err EEdgeTargetEmpty
  else if bool_decide (ref = EndNodeRef) then Ok endNodeID
  else resolveNodeID g ref.

Definition serializeNodeRef (id : string) : string :=
  if bool_decide (id = endNodeID) then EndNodeRef else id.

Definition with_entry (g : Graph) (id : string) : Graph :=
  MkGraph (nodes g) (nodeSpecIDs g) (nodeContracts g) (conditionContracts g) (defaultEdges g)
    (conditionalEdges g) (failureRoutes g) (edgeSpecs g) id (finishPoint g) (executionPolicy g)
    (nodePolicies g) (sealed g).
Definition with_finish (g : Graph) (id : string) : Graph :=
  MkGraph (nodes g) (nodeSpecIDs g) (nodeContracts g) (conditionContracts g) (defaultEdges g)
    (conditionalEdges g) (failureRoutes g) (edgeSpecs g) (entryPoint g) id (executionPolicy g)
    (nodePolicies g) (sealed g).
Definition with_edges (g : Graph) (d : gmap string (list string))
    (c : gmap string (list conditionalEdge)) (f : gmap string (list failureRoute))
    (specs : list GraphEdgeSpec) : Graph :=
  MkGraph (nodes g) (nodeSpecIDs g) (nodeContracts g) (conditionContracts g) d c f specs
    (entryPoint g) (finishPoint g) (executionPolicy g) (nodePolicies g) (sealed g).
Definition seal (g : Graph) : Graph :=
  MkGraph (nodes g) (nodeSpecIDs g) (nodeContracts g) (conditionContracts g) (defaultEdges g)
    (conditionalEdges g) (failureRoutes g) (edgeSpecs g) (entryPoint g) (finishPoint g)
    (executionPolicy g) (nodePolicies g) true.

Definition SetEntryPoint (g : Graph) (ref : string) : result graph_error Graph :=
  let* _ := beginMutation g in
  let* id := resolveNodeID g ref in
  Ok (with_entry g id).

Definition SetFinishPoint (g : Graph) (ref : string) : result graph_error Graph :=
  let* _ := beginMutation g in
  let* id := resolveNodeID g ref in
  Ok (with_finish g id).

Definition edge_spec (g : Graph) (from to : string) (c : option GraphConditionSpec)
    (f : option FailureRouteSpec) : GraphEdgeSpec :=
  MkEdgeSpec (default "" (nodeSpecIDs g !! from)) (serializeNodeRef to) c f.

Definition addEdgeInternal (g : Graph) (from to : string) (trackSpec : bool)
    : result graph_error Graph :=
  let* fromID := resolveNodeID g from in
  let* toID := resolveEdgeTarget g to in
  if bool_decide (toID ∈ targets_of g fromID)
  then Err (EDuplicateEdge fromID (serializeNodeRef toID))
  else Ok (with_edges g (<[fromID := targets_of g fromID ++ [toID]]> (defaultEdges g))
             (conditionalEdges g) (failureRoutes g)
             (if trackSpec then edgeSpecs g ++ [edge_spec g fromID toID None None] else edgeSpecs g)).

Definition AddEdge (g : Graph) (from to : string) : result graph_error Graph :=
  let* _ := beginMutation g in addEdgeInternal g from to true.

Definition AddFailureRoute (g : Graph) (from to : string) (route : FailureRouteSpec)
    : result graph_error Graph :=
  let* _ := beginMutation g in
  let* _ := match ValidateRoute route with Ok _ => Ok tt | Err e => Err (ERoute e) end in
  let* fromID := resolveNodeID g from in
  let* toID := resolveEdgeTarget g to in
  let route := MkFailureRoute (Stages route) (map TrimSpace (ErrorClasses route)) (CatchAll route) in
  Ok (with_edges g (defaultEdges g) (conditionalEdges g)
        (<[fromID := failures_of g fromID ++ [MkRoute toID route]]> (failureRoutes g))
        (edgeSpecs g ++ [edge_spec g fromID toID None (Some route)])).

(** [EdgeCondition.Validate]. *)
Definition ValidateCondition (c : EdgeCondition) : result graph_error unit :=
  let* _ := guard_err (bool_decide (TrimSpace (spec_Type (Spec c)) = "")) EConditionType in
  guard_err (match Evaluate c with None => true | _ => false end) EConditionEvaluator.

(** [EdgeCondition.CloneSpec] normalises the specification; a map of bindings
    is the list of their paths here. *)
Definition CloneSpec (c : EdgeCondition) : GraphConditionSpec :=
  MkSpec (TrimSpace (spec_ID (Spec c))) (TrimSpace (spec_Type (Spec c)))
    (map TrimSpace (spec_Paths (Spec c))).

Section contracts.
Context `{SchemaEngine}.

(** [AddResolvedConditionalEdge], through [addConditionalEdgeInternal] with
    [trackSpec], [resolved] and without [trackContract]. *)
Definition AddResolvedConditionalEdge (g : Graph) (from to : string) (c : EdgeCondition)
    (contract : Contract) : result graph_error Graph :=
  let* _ := beginMutation g in
  let* _ := ValidateCondition c in
  let* fromID := resolveNodeID g from in
  let* toID := resolveEdgeTarget g to in
  match ValidateContract contract with
  | [] =>
    Ok (with_edges g (defaultEdges g)
          (<[fromID := conditional_of g fromID ++ [MkConditionalEdge toID c contract true]]>
             (conditionalEdges g))
          (failureRoutes g) (edgeSpecs g ++ [edge_spec g fromID toID (Some (CloneSpec c)) None]))
  | _ => Err (EEdgeContract fromID toID)
  end.
End contracts.

(** ** Searches *)

(** Every edge of the graph, [END] targets included. *)
Definition edges_of (g : Graph) (id : string) : list string :=
  targets_of g id ++ map ce_to (conditional_of g id) ++ map fr_to (failures_of g id).

(** The targets [reachableNodes] enqueues for a node. *)
Definition forward (g : Graph) (id : string) : list string :=
  filter (λ t, t ≠ endNodeID ∧ is_Some (nodes g !! t)) (edges_of g id).

Definition reachableNodes (g : Graph) : gset string :=
  if bool_decide (entryPoint g = "") then ∅
  else default ∅ (visit_pop (forward g)
         (2 + todo (forward g) ({[entryPoint g]} ∪ dom (nodes g))) ∅ [entryPoint g]).

(** The sources of the three edge maps. *)
Definition edge_sources (g : Graph) : list string :=
  elements (dom (defaultEdges g) ∪ dom (conditionalEdges g) ∪ dom (failureRoutes g)).

(** The nodes [addTerminal] accepts. *)
Definition terminal_ok (g : Graph) (id : string) : bool :=
  negb (bool_decide (id = "")) && negb (bool_decide (id = endNodeID))
  && bool_decide (is_Some (nodes g !! id)).

Definition terminals (g : Graph) : list string :=
  remove_dups (filter (λ id, terminal_ok g id)
    (finishPoint g :: filter (λ from, endNodeID ∈ edges_of g from) (edge_sources g))).

(** [reverseEdges]: the sources of the edges into a node other than [END]. *)
Definition predecessors (g : Graph) (id : string) : list string :=
  if bool_decide (id = endNodeID) then []
  else filter (λ from, id ∈ edges_of g from) (edge_sources g).

Definition terminalReachableNodes (g : Graph) : gset string :=
  let queue := terminals g in
  default ∅ (visit_push (predecessors g)
    (S (length queue + length (edge_sources g ++ terminals g))) (list_to_set queue) queue).

(** [outgoingNodeIDs]: failure routes do not count for the scheduler's order. *)
Definition outgoingNodeIDs (g : Graph) (id : string) : list string :=
  targets_of g id ++ map ce_to (conditional_of g id).

Definition outgoing (g : Graph) (id : string) : list string :=
  filter (λ t, t ≠ endNodeID) (outgoingNodeIDs g id).

(** Every target of a default or conditional edge. *)
Definition edge_targets (g : Graph) : gset string :=
  list_to_set (concat (map (outgoing g)
    (elements (dom (defaultEdges g) ∪ dom (conditionalEdges g))))).

Definition reachable_from (g : Graph) (id : string) : gset string :=
  default ∅ (visit_push (outgoing g) (2 + size (edge_targets g)) ∅ [id]).

Definition compileReachability (g : Graph) : gmap string (gset string) :=
  map_imap (λ id _, Some (reachable_from g id)) (nodes g).

(** [compileJoinNodes]: the nodes with edges from two or more nodes. *)
Definition incoming (g : Graph) (id : string) : list string :=
  if bool_decide (id = endNodeID) then []
  else filter (λ from, id ∈ outgoingNodeIDs g from)
         (elements (dom (defaultEdges g) ∪ dom (conditionalEdges g))).

Definition compileJoinNodes (g : Graph) : gset string :=
  filter (λ id, 1 < length (incoming g id)) (edge_targets g).

(** [compileBranchOrders]: the position of the first edge without a condition
    into each target, [END] for the end reference. *)
Definition branch_target (s : GraphEdgeSpec) : string :=
  let target := TrimSpace (es_To s) in
  if bool_decide (target = EndNodeRef) then endNodeID else target.

Fixpoint branch_orders (specs : list GraphEdgeSpec) (next : Z) (orders : gmap string Z)
    : gmap string Z :=
  match specs with
  | [] => orders
  | s :: specs =>
    match es_Condition s with
    | Some _ => branch_orders specs next orders
    | None =>
      match orders !! branch_target s with
      | Some _ => branch_orders specs next orders
      | None => branch_orders specs (next + 1) (<[branch_target s := next]> orders)
      end
    end
  end.

Definition compileBranchOrders (g : Graph) : gmap string Z := branch_orders (edgeSpecs g) 0 ∅.

Definition isParallelBranchTarget (g : Graph) (id : string) : bool :=
  negb (bool_decide (TrimSpace id = ""))
  && existsb (λ from, (1 <? length (targets_of g from)) && (length (conditional_of g from) =? 0)
                      && bool_decide (id ∈ targets_of g from))%nat (elements (dom (defaultEdges g))).

(** ** Validation *)

Definition sortedNodeIDs (g : Graph) : list string := sorted_keys (nodes g).

Definition no_outgoing (g : Graph) (id : string) : bool :=
  (length (targets_of g id) =? 0)%nat && (length (conditional_of g id) =? 0)%nat.

Definition validateTopology (g : Graph) : result graph_error unit :=
  let reachable := reachableNodes g in
  let* _ := first_err (λ id, guard_err (bool_decide (id ∉ reachable)) (EUnreachable id))
              (sortedNodeIDs g) in
  let* _ := guard_err (negb (bool_decide (finishPoint g = "")) && negb (no_outgoing g (finishPoint g)))
              EFinishHasEdges in
  let* _ := first_err (λ id,
              if bool_decide (id ∉ reachable) || bool_decide (id = finishPoint g) then Ok tt
              else guard_err (no_outgoing g id) (ENoOutgoing id)) (sortedNodeIDs g) in
  let terminal := terminalReachableNodes g in
  first_err (λ id, if bool_decide (id ∉ reachable) then Ok tt
                   else guard_err (bool_decide (id ∉ terminal)) (ENoWayOut id)) (sortedNodeIDs g).

Definition is_node (g : Graph) (id : string) : bool := bool_decide (is_Some (nodes g !! id)).
Definition is_target (g : Graph) (id : string) : bool := bool_decide (id = endNodeID) || is_node g id.

(** The duplicate check of [Validate] over one list of targets. *)
Fixpoint check_targets (g : Graph) (from : string) (seen targets : list string)
    : result graph_error unit :=
  match targets with
  | [] => Ok tt
  | t :: targets =>
    if bool_decide (t ∈ seen) then Err (EDuplicateEdge from (serializeNodeRef t))
    else let* _ := guard_err (negb (is_target g t)) (EEdgeTarget t) in
         check_targets g from (t :: seen) targets
  end.

Definition lift_policy {A} (wrap : policy_error → graph_error) (m : result policy_error A)
    : result graph_error A :=
  match m with Ok a => Ok a | Err e => Err (wrap e) end.

(** [Validate] up to the topology: policies, end points, edge maps. *)
Definition validateEdges (g : Graph) : result graph_error unit :=
  let* _ := first_err (λ kv,
      let* _ := guard_err (negb (is_node g kv.1)) (EEdgeSource kv.1) in
      check_targets g kv.1 [] kv.2) (map_to_list (defaultEdges g)) in
  let* _ := first_err (λ kv,
      let* _ := guard_err (1 <? length (targets_of g kv.1))%nat (EMultipleFallbacks kv.1) in
      guard_err ((length (targets_of g kv.1) =? 0)%nat && negb (bool_decide (kv.1 = finishPoint g)))
        (ENoFallback kv.1)) (map_to_list (conditionalEdges g)) in
  let* _ := first_err (λ kv,
      let* _ := guard_err (negb (is_node g kv.1)) (EEdgeSource kv.1) in
      first_err (λ r,
        let* _ := match ValidateRoute (fr_route r) with Ok _ => Ok tt | Err e => Err (ERoute e) end in
        guard_err (negb (is_target g (fr_to r))) (EEdgeTarget (fr_to r))) kv.2)
      (map_to_list (failureRoutes g)) in
  first_err (λ kv,
      let* _ := guard_err (negb (is_node g kv.1)) (EEdgeSource kv.1) in
      first_err (λ e,
        let* _ := ValidateCondition (ce_condition e) in
        guard_err (negb (is_target g (ce_to e))) (EEdgeTarget (ce_to e))) kv.2)
      (map_to_list (conditionalEdges g)).

Definition ValidateStructure (g : Graph) : result graph_error unit :=
  let* _ := lift_policy EPolicy (ValidateGraphPolicy (executionPolicy g)) in
  let* _ := first_err (λ kv, lift_policy (ENodePolicy kv.1) (ValidatePolicy kv.2))
              (map_to_list (nodePolicies g)) in
  let* _ := guard_err (bool_decide (nodes g = ∅)) ENoNodes in
  let* _ := guard_err (bool_decide (entryPoint g = "")) EEntryUnset in
  let* _ := guard_err (negb (is_node g (entryPoint g))) EEntryNotFound in
  let* _ := guard_err (negb (bool_decide (finishPoint g = "")) && negb (is_node g (finishPoint g)))
              EFinishNotFound in
  let* _ := validateEdges g in
  validateTopology g.

(** ** What the searches compute *)

(** An edge of any kind to a node other than [END]. *)
Definition step (g : Graph) (x y : string) : Prop := y ∈ edges_of g x ∧ y ≠ endNodeID.

(** An edge to a known node. *)
Definition fstep (g : Graph) (x y : string) : Prop := step g x y ∧ is_Some (nodes g !! y).

(** An edge the scheduler orders tasks by. *)
Definition ostep (g : Graph) (x y : string) : Prop := y ∈ outgoingNodeIDs g x ∧ y ≠ endNodeID.

(** A node from which a run can end. *)
Definition exits (g : Graph) (t : string) : Prop :=
  terminal_ok g t = true ∧ (t = finishPoint g ∨ endNodeID ∈ edges_of g t).

Lemma forward_step g x y : edge (forward g) x y ↔ fstep g x y.
Proof. unfold edge, forward, fstep, step. rewrite list_elem_of_filter. tauto. Qed.

Lemma outgoing_step g x y : edge (outgoing g) x y ↔ ostep g x y.
Proof. unfold edge, outgoing, ostep. rewrite list_elem_of_filter. tauto. Qed.

Lemma lookup_default_elem {A} (m : gmap string (list A)) k x :
  x ∈ default [] (m !! k) → k ∈ dom m.
Proof.
  rewrite elem_of_dom. destruct (m !! k); simpl; [eauto|by intros ?%elem_of_nil].
Qed.

Lemma edges_source g x y : y ∈ edges_of g x → x ∈ edge_sources g.
Proof.
  unfold edges_of, edge_sources, targets_of, conditional_of, failures_of.
  rewrite !elem_of_app, elem_of_elements, !elem_of_union.
  intros [Hy|[(e & _ & Hy)%list_elem_of_fmap|(e & _ & Hy)%list_elem_of_fmap]];
    apply lookup_default_elem in Hy; tauto.
Qed.

Lemma predecessors_step g x y : edge (predecessors g) y x ↔ step g x y.
Proof.
  unfold edge, predecessors, step. case_bool_decide as He.
  - rewrite elem_of_nil. split; [done|]. by intros [_ Hn].
  - rewrite list_elem_of_filter. split; [tauto|]. intros [Hy _].
    split; [done|]. by apply (edges_source g x y).
Qed.

Lemma rtc_iff {A} (R S : A → A → Prop) x y : (∀ a b, R a b ↔ S a b) → rtc R x y ↔ rtc S x y.
Proof. intros HRS. split; apply rtc_subrel; intros a b; apply HRS. Qed.

Lemma tc_iff {A} (R S : A → A → Prop) x y : (∀ a b, R a b ↔ S a b) → tc R x y ↔ tc S x y.
Proof.
  assert (∀ R S : A → A → Prop, (∀ a b, R a b → S a b) → ∀ x y, tc R x y → tc S x y) as Hsub.
  { intros R' S' Hi a b. induction 1 as [a b H|a b c H _ IH]; [apply tc_once|eapply tc_l]; eauto. }
  intros HRS. split; apply Hsub; intros a b; apply HRS.
Qed.

Lemma rtc_reverse {A} (R S : A → A → Prop) x y : (∀ a b, R b a ↔ S a b) → rtc R y x ↔ rtc S x y.
Proof.
  intros HRS. split.
  - induction 1 as [|a b c Hab _ IH]; [constructor|]. apply (rtc_r _ b); [done|]. by apply HRS.
  - induction 1 as [|a b c Hab _ IH]; [constructor|]. apply (rtc_r _ b); [done|]. by apply HRS.
Qed.

Lemma reachableNodes_spec g : entryPoint g ≠ "" →
  ∀ x, x ∈ reachableNodes g ↔ rtc (fstep g) (entryPoint g) x.
Proof.
  intros He x. unfold reachableNodes. rewrite bool_decide_false by done.
  destruct (visit_pop_total (forward g) ({[entryPoint g]} ∪ dom (nodes g))
    (2 + todo (forward g) ({[entryPoint g]} ∪ dom (nodes g))) ∅ [entryPoint g]) as [r Hr].
  - intros y Hy. apply list_elem_of_singleton in Hy as ->. set_solver.
  - intros a b _ Hab. apply forward_step in Hab as [_ Hb]. apply elem_of_union. right.
    by apply elem_of_dom.
  - rewrite difference_empty_L. simpl. lia.
  - rewrite Hr. simpl. rewrite (visit_pop_spec _ _ _ _ Hr). apply rtc_iff. apply forward_step.
Qed.

Lemma elem_of_terminals g t : t ∈ terminals g ↔ exits g t.
Proof.
  unfold terminals, exits. rewrite elem_of_remove_dups, list_elem_of_filter, elem_of_cons,
    list_elem_of_filter. rewrite Is_true_true. split; [tauto|].
  intros [Hok [->|He]]; [tauto|]. split; [done|]. right. split; [done|].
  by apply (edges_source g t endNodeID).
Qed.

Lemma terminalReachableNodes_spec g x :
  x ∈ terminalReachableNodes g ↔ ∃ t, rtc (step g) x t ∧ exits g t.
Proof.
  unfold terminalReachableNodes.
  set (V := list_to_set (edge_sources g ++ terminals g) : gset string).
  destruct (visit_push_total (predecessors g) V
    (S (length (terminals g) + length (edge_sources g ++ terminals g)))
    (list_to_set (terminals g)) (terminals g)) as [r Hr].
  - intros y Hy%elem_of_list_to_set. apply elem_of_list_to_set, elem_of_app. by right.
  - intros a b _ Hab. apply predecessors_step in Hab as [Hab _].
    apply elem_of_list_to_set, elem_of_app. left. by apply (edges_source g b a).
  - pose proof (size_list_to_set_le (edge_sources g ++ terminals g)). fold V in H. lia.
  - rewrite Hr. simpl. rewrite (visit_push_set _ _ _ _ _ ltac:(intros; by rewrite elem_of_list_to_set) Hr).
    split.
    + intros (t & Ht & Htx). exists t. split; [|by apply elem_of_terminals, (elem_of_list_to_set (C := gset string))].
      revert Htx. apply (rtc_reverse (edge (predecessors g)) (step g)). intros a b. apply predecessors_step.
    + intros (t & Hxt & Ht). exists t. split; [by apply elem_of_list_to_set, elem_of_terminals|].
      revert Hxt. apply (rtc_reverse (edge (predecessors g)) (step g)). intros a b. apply predecessors_step.
Qed.

Lemma reachable_from_spec g x y : y ∈ reachable_from g x ↔ tc (ostep g) x y.
Proof.
  unfold reachable_from.
  destruct (visit_push_total (outgoing g) (edge_targets g) (2 + size (edge_targets g)) ∅ [x])
    as [r Hr].
  - by intros a Ha%elem_of_empty.
  - intros a b _ Hab. unfold edge_targets.
    apply elem_of_list_to_set, elem_of_concat_map. exists a. split; [|done].
    unfold edge, outgoing, outgoingNodeIDs, targets_of, conditional_of in Hab.
    apply list_elem_of_filter in Hab as [_ Hab]. rewrite elem_of_elements, elem_of_union.
    apply elem_of_app in Hab as [Hab|(e & _ & Hab)%list_elem_of_fmap];
      apply lookup_default_elem in Hab; tauto.
  - simpl. lia.
  - rewrite Hr. simpl. rewrite (visit_push_start _ _ _ _ Hr). apply tc_iff, outgoing_step.
Qed.

(** ** Properties *)

Lemma elem_of_sortedNodeIDs g id : id ∈ sortedNodeIDs g ↔ is_Some (nodes g !! id).
Proof. apply elem_of_sorted_keys. Qed.

(** A topology on which every run has somewhere to go and a way to end. *)
Record well_routed (g : Graph) : Prop := {
  wr_reachable : ∀ id, is_Some (nodes g !! id) → rtc (fstep g) (entryPoint g) id;
  wr_finish : finishPoint g ≠ "" → no_outgoing g (finishPoint g) = true;
  wr_outgoing : ∀ id, is_Some (nodes g !! id) → id ≠ finishPoint g → no_outgoing g id = false;
  wr_ends : ∀ id, is_Some (nodes g !! id) → ∃ t, rtc (step g) id t ∧ exits g t;
}.

(** C8: [validateTopology] is exact: it accepts a graph exactly when every node
    is reachable from the entry point, the finish point has no outgoing edge,
    every other node has one, and from every node some path leads to the finish
    point or to an edge into [END].  Its two searches terminate. *)
Theorem validateTopology_exact g : entryPoint g ≠ "" →
  validateTopology g = Ok tt ↔ well_routed g.
Proof.
  intros He. pose proof (reachableNodes_spec g He) as Hreach.
  pose proof (terminalReachableNodes_spec g) as Hterm.
  assert (∀ P : string → Prop, (∀ id, id ∈ sortedNodeIDs g → P id) ↔
    (∀ id, is_Some (nodes g !! id) → P id)) as Hids.
  { intros P. by setoid_rewrite elem_of_sortedNodeIDs. }
  unfold validateTopology. split.
  - intros Hv. result_inv. destruct x, x0, x1.
    repeat match goal with Hc : first_err _ _ = Ok _ |- _ => rewrite first_err_Ok, Hids in Hc end.
    assert (∀ id, is_Some (nodes g !! id) → id ∈ reachableNodes g) as Hall.
    { intros id Hid. specialize (H id Hid). apply guard_err_Ok in H.
      by apply bool_decide_eq_false, dec_stable in H. }
    split.
    + intros id Hid. by apply Hreach, Hall.
    + intros Hne. rewrite bool_decide_false in H0 by done. simpl in H0.
      by destruct (no_outgoing g (finishPoint g)).
    + intros id Hid Hne. specialize (H1 id Hid). specialize (Hall id Hid).
      rewrite !bool_decide_false in H1 by tauto. simpl in H1. by apply guard_err_Ok in H1.
    + intros id Hid. apply Hterm. specialize (H2 id Hid). specialize (Hall id Hid).
      rewrite bool_decide_false in H2 by tauto. apply guard_err_Ok in H2.
      by apply bool_decide_eq_false, dec_stable in H2.
  - intros [W1 W2 W3 W4].
    assert (∀ id, is_Some (nodes g !! id) → bool_decide (id ∉ reachableNodes g) = false) as Hall.
    { intros id Hid. apply bool_decide_eq_false. intros Hn. apply Hn, Hreach, W1, Hid. }
    rewrite (proj2 (first_err_Ok _ _)).
    2: { apply Hids. intros id Hid. by apply guard_err_Ok, Hall. }
    simpl. rewrite (proj2 (guard_err_Ok _ _ tt)).
    2: { case_bool_decide as Hf; [done|]. simpl. by rewrite W2. }
    simpl. rewrite (proj2 (first_err_Ok _ _)).
    2: { apply Hids. intros id Hid. rewrite Hall by done. simpl.
         case_bool_decide as Hf; [done|]. apply guard_err_Ok. by apply W3. }
    simpl. apply first_err_Ok, Hids. intros id Hid. rewrite Hall by done.
    apply guard_err_Ok, bool_decide_eq_false. intros Hn. apply Hn, Hterm, W4, Hid.
Qed.

(** The shape every graph built through the mutating methods has. *)
Record graph_wf (g : Graph) : Prop := {
  gw_entry : entryPoint g = "" ∨ is_node g (entryPoint g) = true;
  gw_finish : finishPoint g = "" ∨ is_node g (finishPoint g) = true;
  gw_default : ∀ from, is_Some (defaultEdges g !! from) →
    is_node g from = true ∧ NoDup (targets_of g from) ∧
    Forall (λ t, is_target g t = true) (targets_of g from);
  gw_conditional : ∀ from, is_Some (conditionalEdges g !! from) →
    is_node g from = true ∧
    Forall (λ e, is_target g (ce_to e) = true ∧ ValidateCondition (ce_condition e) = Ok tt)
      (conditional_of g from);
  gw_failure : ∀ from, is_Some (failureRoutes g !! from) →
    is_node g from = true ∧
    Forall (λ r, is_target g (fr_to r) = true ∧ ValidateRoute (fr_route r) = Ok tt)
      (failures_of g from);
}.

(** One call of a mutating method that succeeds. *)
Inductive mutation `{SchemaEngine} (g : Graph) : Graph → Prop :=
  | mutate_entry ref g' : SetEntryPoint g ref = Ok g' → mutation g g'
  | mutate_finish ref g' : SetFinishPoint g ref = Ok g' → mutation g g'
  | mutate_edge from to g' : AddEdge g from to = Ok g' → mutation g g'
  | mutate_failure from to route g' : AddFailureRoute g from to route = Ok g' → mutation g g'
  | mutate_conditional from to c contract g' :
      AddResolvedConditionalEdge g from to c contract = Ok g' → mutation g g'.

Lemma resolveNodeID_node g ref id : resolveNodeID g ref = Ok id → is_node g id = true.
Proof.
  unfold resolveNodeID. case_bool_decide; [done|]. case_bool_decide as Hn; [|done].
  intros [= <-]. unfold is_node. by rewrite bool_decide_true.
Qed.

Lemma resolveEdgeTarget_target g ref id : resolveEdgeTarget g ref = Ok id → is_target g id = true.
Proof.
  unfold resolveEdgeTarget, is_target. case_bool_decide; [done|]. case_bool_decide.
  - intros [= <-]. by rewrite bool_decide_true.
  - intros Hn%resolveNodeID_node. by rewrite Hn, orb_true_r.
Qed.

Lemma lookup_insert_default {A} (m : gmap string (list A)) k l k' :
  default [] (<[k := l]> m !! k') = if decide (k = k') then l else default [] (m !! k').
Proof. case_decide as Hk; [subst; by rewrite lookup_insert_eq|by rewrite lookup_insert_ne]. Qed.

(** Appending an entry to one key of an edge map keeps a property of all. *)
Lemma Forall_append_edge {A} (m : gmap string (list A)) k (a : A) (P : A → Prop) (Q : string → Prop) :
  (∀ from, is_Some (m !! from) → Q from ∧ Forall P (default [] (m !! from))) →
  Q k → P a →
  ∀ from, is_Some (<[k := default [] (m !! k) ++ [a]]> m !! from) →
    Q from ∧ Forall P (default [] (<[k := default [] (m !! k) ++ [a]]> m !! from)).
Proof.
  intros Hm HQ HP from Hs. rewrite lookup_insert_default. case_decide as Hk.
  - subst from. split; [done|]. apply Forall_app. split; [|by constructor].
    destruct (m !! k) eqn:Hl; [|constructor]. destruct (Hm k) as [_ Hf]; [eauto|].
    by rewrite Hl in Hf.
  - rewrite lookup_insert_ne in Hs by done. by apply Hm.
Qed.

Lemma ValidateRoute_trim r :
  ValidateRoute r = Ok tt →
  ValidateRoute (MkFailureRoute (Stages r) (map TrimSpace (ErrorClasses r)) (CatchAll r)) = Ok tt.
Proof. unfold ValidateRoute. simpl. by rewrite length_map. Qed.

(** The mutating methods keep the graph well-formed (end points and edges
    name existing nodes, default targets are distinct, conditions and failure
    routes are valid), and none of them succeeds on a sealed graph. *)
Theorem mutation_wf `{SchemaEngine} g g' :
  graph_wf g → mutation g g' → graph_wf g' ∧ sealed g = false ∧ sealed g' = false ∧ nodes g' = nodes g.
Proof.
  intros [Wen Wf Wd Wc Wfr] Hm.
  destruct Hm as [ref g' Hop|ref g' Hop|from to g' Hop|from to route g' Hop|from to c contract g' Hop];
    unfold SetEntryPoint, SetFinishPoint, AddEdge, addEdgeInternal, AddFailureRoute,
      AddResolvedConditionalEdge, beginMutation in Hop; result_inv.
  - match goal with Hr : resolveNodeID _ _ = _ |- _ => apply resolveNodeID_node in Hr end.
    subst. split_and!; [split; auto|done..].
  - match goal with Hr : resolveNodeID _ _ = _ |- _ => apply resolveNodeID_node in Hr end.
    subst. split_and!; [split; auto|done..].
  - match goal with Hr : resolveNodeID _ _ = _ |- _ => apply resolveNodeID_node in Hr end.
    match goal with Hr : resolveEdgeTarget _ _ = _ |- _ => apply resolveEdgeTarget_target in Hr end.
    case_bool_decide as Hdup; [done|]. result_inv. subst.
    split_and!; [split; auto|done..].
    intros k Hk. unfold targets_of in *. simpl in *. rewrite lookup_insert_default.
    case_decide as Hfk.
    + subst k. split; [done|].
      assert (NoDup (default [] (defaultEdges g !! x0)) ∧
              Forall (λ t, is_target g t = true) (default [] (defaultEdges g !! x0))) as [Hn Hf].
      { destruct (defaultEdges g !! x0) eqn:Hl; [|by split; constructor].
        destruct (Wd x0) as (_ & ? & ?); [eauto|]. by rewrite Hl in *. }
      split.
      * apply NoDup_app. split_and!; [done| |apply NoDup_singleton].
        intros y Hy Hy'. apply list_elem_of_singleton in Hy' as ->. done.
      * apply Forall_app. by split; [|constructor].
    + rewrite lookup_insert_ne in Hk by done. by apply Wd.
  - match goal with Hr : resolveNodeID _ _ = _ |- _ => apply resolveNodeID_node in Hr end.
    match goal with Hr : resolveEdgeTarget _ _ = _ |- _ => apply resolveEdgeTarget_target in Hr end.
    match goal with Hr : (match ValidateRoute ?r with _ => _ end) = _ |- _ =>
      destruct (ValidateRoute r) as [[]|] eqn:Hroute; [|done] end.
    subst. split_and!; [split; auto|done..].
    apply (Forall_append_edge (failureRoutes g) _ _ _ (λ k, is_node g k = true)); [exact Wfr|done|].
    split; [done|]. by apply ValidateRoute_trim.
  - match goal with Hr : resolveNodeID _ _ = _ |- _ => apply resolveNodeID_node in Hr end.
    match goal with Hr : resolveEdgeTarget _ _ = _ |- _ => apply resolveEdgeTarget_target in Hr end.
    destruct (ValidateContract contract); [|done]. result_inv. subst.
    split_and!; [split; auto|done..].
    apply (Forall_append_edge (conditionalEdges g) _ _ _ (λ k, is_node g k = true)); [exact Wc|done|].
    split; [done|]. by destruct x0.
Qed.

Lemma compileReachability_spec g x y :
  y ∈ default ∅ (compileReachability g !! x) ↔ is_node g x = true ∧ tc (ostep g) x y.
Proof.
  unfold compileReachability, is_node. rewrite map_lookup_imap, bool_decide_eq_true.
  destruct (nodes g !! x); simpl.
  - rewrite reachable_from_spec. naive_solver.
  - rewrite elem_of_empty. split; [done|]. by intros [[? ?] _].
Qed.

Lemma incoming_spec g x from :
  from ∈ incoming g x ↔ ostep g from x.
Proof.
  unfold incoming, ostep. case_bool_decide as He.
  - rewrite elem_of_nil. split; [done|]. by intros [_ Hn].
  - rewrite list_elem_of_filter, elem_of_elements, elem_of_union. split; [tauto|].
    intros [Hx _]. split; [done|]. unfold outgoingNodeIDs, targets_of, conditional_of in Hx.
    apply elem_of_app in Hx as [Hx|(e & _ & Hx)%list_elem_of_fmap];
      apply lookup_default_elem in Hx; tauto.
Qed.

Lemma incoming_NoDup g x : NoDup (incoming g x).
Proof.
  unfold incoming. case_bool_decide; [constructor|]. apply NoDup_filter, NoDup_elements.
Qed.

Lemma two_elements (l : list string) : NoDup l →
  1 < length l ↔ ∃ a b, a ≠ b ∧ a ∈ l ∧ b ∈ l.
Proof.
  intros Hn. split.
  - destruct l as [|a [|b l]]; simpl; [lia|lia|]. intros _. exists a, b.
    apply NoDup_cons in Hn as [Ha _]. split_and!; [|left|right; left].
    intros ->. apply Ha. left.
  - intros (a & b & Hab & Ha & Hb). destruct l as [|x [|y l]]; simpl; [|destruct Hab|lia].
    + by apply elem_of_nil in Ha.
    + apply list_elem_of_singleton in Ha, Hb. congruence.
Qed.

(** [compileJoinNodes] finds exactly the nodes entered by default or
    conditional edges from two different nodes. *)
Theorem compileJoinNodes_exact g x :
  x ∈ compileJoinNodes g ↔ ∃ a b, a ≠ b ∧ ostep g a x ∧ ostep g b x.
Proof.
  unfold compileJoinNodes. rewrite elem_of_filter.
  rewrite (two_elements _ (incoming_NoDup g x)). setoid_rewrite incoming_spec.
  split; [tauto|]. intros (a & b & Hab & Ha & Hb). split; [eauto|].
  apply elem_of_list_to_set, elem_of_concat_map. exists a.
  pose proof (proj2 (incoming_spec g x a) Ha) as Hin. unfold incoming in Hin.
  case_bool_decide; [by apply elem_of_nil in Hin|].
  apply list_elem_of_filter in Hin as [_ Hin]. split; [done|].
  by apply outgoing_step.
Qed.

(** Every node a static edge or a failure route leads to has its own branch
    order: [compileBranchOrders] numbers the targets of the edges without a
    condition injectively, so the branches of one fan-out never tie. *)
Theorem compileBranchOrders_injective g :
  (∀ s, s ∈ edgeSpecs g → es_Condition s = None →
     is_Some (compileBranchOrders g !! branch_target s)) ∧
  (∀ t u i, compileBranchOrders g !! t = Some i → compileBranchOrders g !! u = Some i → t = u).
Proof.
  unfold compileBranchOrders.
  assert (∀ specs next orders,
    (∀ t i, orders !! t = Some i → (i < next)%Z) →
    (∀ t u i, orders !! t = Some i → orders !! u = Some i → t = u) →
    (∀ t, is_Some (orders !! t) → is_Some (branch_orders specs next orders !! t)) ∧
    (∀ s, s ∈ specs → es_Condition s = None →
       is_Some (branch_orders specs next orders !! branch_target s)) ∧
    (∀ t u i, branch_orders specs next orders !! t = Some i →
       branch_orders specs next orders !! u = Some i → t = u)) as Hall.
  { intros specs. induction specs as [|s specs IH]; intros next orders Hlt Hinj; simpl.
    { split_and!; [done|by intros ? ?%elem_of_nil|done]. }
    destruct (es_Condition s) eqn:Hc.
    { destruct (IH next orders Hlt Hinj) as (? & Hs & ?). split_and!; [done| |done].
      intros s' [->|Hs']%elem_of_cons; [congruence|by apply Hs]. }
    destruct (orders !! branch_target s) eqn:Ho.
    { destruct (IH next orders Hlt Hinj) as (Hk & Hs & ?). split_and!; [done| |done].
      intros s' [->|Hs']%elem_of_cons; [intros _; by apply Hk|by apply Hs]. }
    destruct (IH (next + 1)%Z (<[branch_target s := next]> orders)) as (Hk & Hs & Hi).
    - intros t i. rewrite lookup_insert. case_decide; [intros [= <-]; lia|].
      intros Ht%Hlt. lia.
    - intros t u i. rewrite !lookup_insert. repeat case_decide; subst; try done.
      + intros [= <-] Hu%Hlt. lia.
      + intros Ht%Hlt [= <-]. lia.
      + by apply Hinj.
    - split_and!; [| |done].
      + intros t Ht. apply Hk. rewrite lookup_insert. by case_decide.
      + intros s' [->|Hs']%elem_of_cons; [intros _|by apply Hs].
        apply Hk. rewrite lookup_insert_eq. eauto. }
  destruct (Hall (edgeSpecs g) 0%Z ∅) as (_ & ? & ?); [by intros ? ? ?|by intros ? ? ? ?|done].
Qed.

(** ** Concrete runs: the diamond a -> b, c -> d *)

Definition bare_graph : Graph :=
  MkGraph (list_to_map (map (λ id, (id, MkNode None)) ["a"; "b"; "c"; "d"]))
    (list_to_map (map (λ id, (id, id)) ["a"; "b"; "c"; "d"])) ∅ ∅ ∅ ∅ ∅ [] "" ""
    DefaultGraphExecutionPolicy ∅ false.

Definition diamond_edges : list (string * string) := [("a", "b"); ("a", "c"); ("b", "d"); ("c", "d")].

Definition diamond_build : result graph_error Graph :=
  let* g := foldM (λ g e, AddEdge g e.1 e.2) bare_graph diamond_edges in
  let* g := SetEntryPoint g "a" in
  let* g := SetFinishPoint g " d " in
  Ok (seal g).

Definition sample_graph : Graph :=
  match diamond_build with Ok g => g | Err _ => bare_graph end.

Lemma sample_graph_wf : graph_wf sample_graph.
Proof.
  assert (map_Forall (λ from _, is_node sample_graph from = true ∧
      NoDup (targets_of sample_graph from) ∧
      Forall (λ t, is_target sample_graph t = true) (targets_of sample_graph from))
    (defaultEdges sample_graph)) as Hd.
  { apply (bool_decide_unpack _). vm_compute. exact I. }
  split.
  - right. reflexivity.
  - right. reflexivity.
  - intros from [l Hl]. by eapply Hd.
  - intros from [l Hl]. destruct (lookup_empty_Some _ _ Hl).
  - intros from [l Hl]. destruct (lookup_empty_Some _ _ Hl).
Qed.

Lemma validateTopology_exact_witness : well_routed sample_graph.
Proof.
  apply (validateTopology_exact sample_graph); [|vm_compute; reflexivity].
  vm_compute. discriminate.
Defined.

Lemma mutation_wf_witness :
  ∃ g', AddEdge bare_graph "a" "b" = Ok g' ∧ graph_wf g' ∧ sealed g' = false.
Proof.
  assert (graph_wf bare_graph) as Hw.
  { split; [by left|by left|intros from [l Hl]; destruct (lookup_empty_Some _ _ Hl)..]. }
  destruct (AddEdge bare_graph "a" "b") as [g'|e] eqn:E.
  - exists g'. split; [reflexivity|].
    destruct (mutation_wf (H := permissive_engine) bare_graph g' Hw
      (@mutate_edge permissive_engine bare_graph "a" "b" g' E)) as (H1 & _ & H2 & _).
    split; [exact H1 | exact H2].
  - vm_compute in E. discriminate.
Defined.
