(* ===== verification/Routing.v ===== *)
(** * Routing: [graph/execution.go], [registry/condition.go]

    Which tasks follow a completed one, and where a failure goes. *)

From S2P Require Import Prelude GoStrings Values Json Paths.
From S2P Require Import StateTree Patch Contracts Errors Tasks Topology.

(** The digest in a dynamic task's identifier: [crypto/sha256] over the JSON text
    of the send.  [None] is a send that JSON cannot encode. *)
Class TaskDigest := task_digest : string → Z → Send → option string.

Inductive route_failure :=
  | RNodeIDEmpty
  | RNodeNotFound (id : string)
  | RCondition (err : go_error)
  | RTarget (cause : graph_error)
  | RTaskID
  | RNoMatch (node : string)
  | RNoOutgoing (node : string).

Definition dynamicTaskID `{TaskDigest} (parent : GraphTask) (send : Send) (index : Z)
    : option string :=
  (λ digest, "send-" +:+ digest) <$>
    task_digest (TaskID parent) index
      (MkSend (send_Target send) (send_Input send) (TrimSpace (send_CorrelationKey send))
         (TrimSpace (send_OrderKey send))).

(** [imap] in the error monad, over the index and the element. *)
Fixpoint imapM {E A B} (f : Z → A → result E B) (index : Z) (l : list A) : result E (list B) :=
  match l with
  | [] => Ok []
  | a :: l => let* b := f index a in let* bs := imapM f (index + 1) l in Ok (b :: bs)
  end.

(** [tasks[index].Order = base + index]. *)
Definition number_tasks (base : Z) (tasks : list GraphTask) : list GraphTask :=
  imap (λ i t, with_order t (base + Z.of_nat i)) tasks.

(** The order of dynamic tasks: order key, correlation key, identifier. *)
Definition dynamic_less : GraphTask → GraphTask → bool :=
  less_then OrderKey str_lt (less_then CorrelationKey str_lt (less_last TaskID str_lt)).

Definition staticRouteTasks (targets : list string) : list GraphTask :=
  imap (λ i id, NewStaticGraphTask id (Z.of_nat i)) targets.

(** A dynamic task for a send to a resolved node. *)
Definition send_task (id taskID : string) (send : Send) (index : Z) : GraphTask :=
  MkTask taskID "" id (send_Input send) (TrimSpace (send_CorrelationKey send))
    (TrimSpace (send_OrderKey send)) index true 0 None.

Definition tasksFromRouteDecision `{TaskDigest} (g : Graph) (parent : GraphTask)
    (edgeTarget : string) (decision : RouteDecision) : result route_failure (list GraphTask) :=
  match Sends decision with
  | _ :: _ =>
    let* tasks := imapM (λ index send,
        match resolveNodeID g (send_Target send) with
        | Err e => Err (RTarget e)
        | Ok id =>
          match dynamicTaskID parent send index with
          | None => Err RTaskID
          | Some taskID => Ok (send_task id taskID send index)
          end
        end) 0 (Sends decision) in
    Ok (number_tasks 0 (stable_sort dynamic_less tasks))
  | [] =>
    match Targets decision with
    | [] => Ok (staticRouteTasks [edgeTarget])
    | targets =>
      let* ids := imapM (λ _ target,
          match resolveEdgeTarget g target with Ok id => Ok id | Err e => Err (RTarget e) end)
          0 targets in
      Ok (staticRouteTasks ids)
    end
  end.

Section routing.
Context `{SchemaEngine} `{TaskDigest}.

(** [RouteDecision.Validate]; the errors carry their text alone. *)
Definition ValidateDecision (d : RouteDecision) : result go_error unit :=
  let* _ := guard_err (negb (Matched d) && (negb (length (Targets d) =? 0)
                       || negb (length (Sends d) =? 0)))%nat
              (EText "unmatched route decision cannot declare targets or sends") in
  let* _ := guard_err (negb (length (Targets d) =? 0) && negb (length (Sends d) =? 0))%nat
              (EText "route decision cannot combine targets and sends") in
  let* _ := first_err (λ t, guard_err (bool_decide (TrimSpace t = ""))
              (EText "route decision target is empty")) (Targets d) in
  let* _ := first_err (λ s,
      let* _ := guard_err (bool_decide (TrimSpace (send_Target s) = ""))
                  (EText "route decision send target is empty") in
      let* _ := guard_err (negb (length (ValidateInputPatch (send_Input s)) =? 0)%nat)
                  (EText "route decision send input") in
      guard_err (existsb (λ op, match json_encode (op_value op) with None => true | _ => false end)
                   (send_Input s))
        (EText "route decision send input cannot be encoded")) (Sends d) in
  guard_err (bool_decide (TrimSpace (Reason d) = "")
             && match dec_Details d with Some m => negb (bool_decide (m = ∅)) | None => false end)
    (EText "route decision details require a reason").

(** [cloneRouteDetails]: absent, or cloned and encodable. *)
Definition cloneRouteDetails (details : option vmap) : result go_error (option vmap) :=
  match details with
  | None => Ok None
  | Some m =>
    if bool_decide (m = ∅) then Ok None
    else if negb (cloneable (VMap m)) then Err (EText "route decision details cannot be safely cloned")
    else match json_encode (VMap m) with
         | None => Err (EText "route decision details cannot be encoded")
         | Some _ => Ok (Some m)
         end
  end.

Definition cloneRoutePatch (p : Patch) : result go_error Patch :=
  if forallb (λ op, cloneable (op_value op)) p then Ok p
  else Err (EText "operation value cannot be safely cloned").

(** [EdgeCondition.EvaluateRoute]; a nil evaluator, which [Validate] excludes,
    would panic. *)
Definition EvaluateRoute (c : EdgeCondition) (s : State) : result go_error RouteDecision :=
  match Evaluate c with
  | None => Err (EText "nil evaluator")
  | Some f =>
    let* d := f s in
    let* details := cloneRouteDetails (dec_Details d) in
    let* _ := first_err (λ send, let* _ := cloneRoutePatch (send_Input send) in Ok tt) (Sends d) in
    let d := MkDecision (Matched d) (Targets d) (Sends d) (TrimSpace (Reason d)) details in
    let* _ := ValidateDecision d in
    Ok d
  end.

(** [conditionError]: the details name the edge and the state paths. *)
Definition condition_id (source : string) (e : conditionalEdge) : string :=
  let spec := CloneSpec (ce_condition e) in
  if bool_decide (spec_ID spec = "")
  then source +:+ "->" +:+ serializeNodeRef (ce_to e) +:+ ":" +:+ spec_Type spec
  else spec_ID spec.

Definition conditionError (source : string) (e : conditionalEdge) (cause : go_error) : go_error :=
  let spec := CloneSpec (ce_condition e) in
  let paths := sort_strings (filter (λ p, p ≠ "") (spec_Paths spec)) in
  ECondition source (serializeNodeRef (ce_to e)) (condition_id source e)
    (list_to_map
      [("condition_id", VStr (condition_id source e)); ("condition_type", VStr (spec_Type spec));
       ("source_node_id", VStr source); ("target_node_id", VStr (serializeNodeRef (ce_to e)));
       ("state_paths", VSlice TString (map VStr paths))]) cause.

(** The state a condition is shown: what its contract lets it read. *)
Definition condition_state (e : conditionalEdge) (s : State) : result go_error State :=
  if ce_resolved e then
    match ValidateRequiredReads s (ce_contract e) with
    | [] => Ok (ProjectStateByContract s (ce_contract e))
    | i :: _ => Err (EText ("state contract violation: " +:+ render_message i))
    end
  else Ok (ProjectStateByContract s (MkContract [] true false)).

(** The conditional edges in order: the first match decides. *)
Fixpoint first_match (g : Graph) (parent : GraphTask) (source : string) (s : State)
    (edges : list conditionalEdge) : result route_failure (option (list GraphTask)) :=
  match edges with
  | [] => Ok None
  | e :: edges =>
    match (let* shown := condition_state e s in EvaluateRoute (ce_condition e) shown) with
    | Err cause => Err (RCondition (conditionError source e cause))
    | Ok d =>
      if Matched d then
        let* tasks := tasksFromRouteDecision g parent (ce_to e) d in Ok (Some tasks)
      else first_match g parent source s edges
    end
  end.

(** [resolveNextTasksObserved] without an observer. *)
Definition resolveNextTasks (g : Graph) (parent : GraphTask) (s : State)
    : result route_failure (list GraphTask) :=
  let current := TrimSpace (NodeID parent) in
  if bool_decide (current = "") then Err RNodeIDEmpty
  else if negb (bool_decide (current = endNodeID)) && negb (is_node g current)
  then Err (RNodeNotFound current)
  else
    match conditional_of g current with
    | (_ :: _) as conditional =>
      let* matched := first_match g parent current s conditional in
      match matched with
      | Some tasks => Ok tasks
      | None =>
        match targets_of g current with
        | t :: _ => Ok (staticRouteTasks [t])
        | [] => if bool_decide (current = finishPoint g) then Ok (staticRouteTasks [endNodeID])
                else Err (RNoMatch current)
        end
      end
    | [] =>
      match targets_of g current with
      | (_ :: _) as targets => Ok (staticRouteTasks targets)
      | [] => if bool_decide (current = finishPoint g) then Ok (staticRouteTasks [endNodeID])
              else Err (RNoOutgoing current)
      end
    end.
End routing.

(** ** Failures *)

(** [errors.As] for [*ConditionError]: its source and cause. *)
Definition as_condition (err : go_error) : option (string * go_error) :=
  match err with ECondition source _ _ _ cause => Some (source, cause) | _ => None end.

Definition failureRoutable (stage : string) (err : go_error) : bool :=
  if bool_decide (stage = FailureStageCondition) then
    match errors_as as_condition err with
    | None => false
    | Some (_, cause) =>
      if errors_is ECanceled cause then false
      else negb (bool_decide (is_Some (errors_as as_execution cause))
                 && bool_decide (ClassifyError (Some cause) = ErrorResourceExhausted))
    end
  else if bool_decide (stage = FailureStageNode) then
    bool_decide (is_Some (errors_as as_execution err))
    && negb (bool_decide (ClassifyError (Some err) = ErrorCanceled))
    && negb (bool_decide (ClassifyError (Some err) = ErrorResourceExhausted))
  else false.

Definition failureRouteMatches (route : FailureRouteSpec) (stage class : string) : bool :=
  if negb (CatchAll route) && (length (Stages route) =? 0)%nat
     && (length (ErrorClasses route) =? 0)%nat then false
  else
    ((length (Stages route) =? 0)%nat || existsb (λ c, bool_decide (c = stage)) (Stages route))
    && ((length (ErrorClasses route) =? 0)%nat
        || existsb (λ c, bool_decide (TrimSpace c = class)) (ErrorClasses route)).

(** The node whose routes apply. *)
Definition failure_source (task : GraphTask) (stage : string) (err : go_error) : string :=
  if bool_decide (stage = FailureStageCondition) then
    match errors_as as_condition err with Some (source, _) => source | None => NodeID task end
  else NodeID task.

Inductive failure_error := EFailureDetails.

Definition failure_details (err : go_error) : result failure_error (option vmap) :=
  match errors_as as_execution err with
  | None => Ok None
  | Some e =>
    match Details e with
    | None => Ok None
    | Some m => if cloneable (VMap m) then Ok (Some m) else Err EFailureDetails
    end
  end.

Definition resolveFailure `{ErrorText} (g : Graph) (task : GraphTask) (stage : string)
    (err : option go_error) : result failure_error (list GraphTask) :=
  match err with
  | None => Ok []
  | Some err =>
    if negb (failureRoutable stage err) then Ok []
    else
      let source := failure_source task stage err in
      let class := ClassifyError (Some err) in
      match List.find (λ r, failureRouteMatches (fr_route r) stage class) (failures_of g source) with
      | None => Ok []
      | Some route =>
        let* details := failure_details err in
        Ok [MkTask ("failure-" +:+ TaskID task) "" (fr_to route) [] "" "" (Order task) false 0
              (Some (MkFailure stage class (error_text err) source details))]
      end
  end.

(** ** Properties *)

Lemma imapM_elem {E A B} (f : Z → A → result E B) index l l' b :
  imapM f index l = Ok l' → b ∈ l' → ∃ i a, a ∈ l ∧ f i a = Ok b.
Proof.
  revert index l'. induction l as [|a l IH]; intros index l'; simpl.
  - intros [= <-] Hb. by apply elem_of_nil in Hb.
  - intros (b0 & Hb0 & (bs & Hbs & [= <-])%result_bind_Ok)%result_bind_Ok.
    intros [->|Hb]%elem_of_cons; [exists index, a; split; [left|done]|].
    destruct (IH _ _ Hbs Hb) as (i & a' & Ha' & Hf). exists i, a'. split; [by right|done].
Qed.

(** The tasks name nodes of the graph, or [END]. *)
Definition in_graph (g : Graph) (tasks : list GraphTask) : Prop :=
  Forall (λ t, is_target g (NodeID t) = true) tasks.

Lemma static_in_graph g targets :
  Forall (λ t, is_target g t = true) targets → in_graph g (staticRouteTasks targets).
Proof.
  unfold in_graph, staticRouteTasks. rewrite !Forall_forall. intros Hf t Ht.
  apply list_elem_of_lookup in Ht as [i Hi]. apply list_lookup_imap_Some in Hi as (id & Hid & ->).
  apply Hf. by eapply list_elem_of_lookup_2.
Qed.

Lemma number_in_graph g base tasks : in_graph g tasks → in_graph g (number_tasks base tasks).
Proof.
  unfold in_graph, number_tasks. rewrite !Forall_forall. intros Hf t Ht.
  apply list_elem_of_lookup in Ht as [i Hi]. apply list_lookup_imap_Some in Hi as (u & Hu & ->).
  apply (Hf u). by eapply list_elem_of_lookup_2.
Qed.

Lemma decision_in_graph `{TaskDigest} g parent target d tasks :
  is_target g target = true → tasksFromRouteDecision g parent target d = Ok tasks →
  in_graph g tasks.
Proof.
  intros Ht. unfold tasksFromRouteDecision. destruct (Sends d) as [|send sends].
  - destruct (Targets d) as [|t ts].
    + intros [= <-]. apply static_in_graph. by constructor.
    + intros (ids & Hids & [= <-])%result_bind_Ok. apply static_in_graph.
      rewrite Forall_forall. intros id Hid.
      destruct (imapM_elem _ _ _ _ _ Hids Hid) as (i & a & _ & Ha).
      destruct (resolveEdgeTarget g a) as [id'|] eqn:Hr; [|done]. injection Ha as <-.
      by eapply resolveEdgeTarget_target.
  - intros (ts & Hts & [= <-])%result_bind_Ok. apply number_in_graph.
    unfold in_graph. rewrite Forall_forall. intros t Hin%stable_sort_elem_of.
    destruct (imapM_elem _ _ _ _ _ Hts Hin) as (i & a & _ & Ha).
    destruct (resolveNodeID g (send_Target a)) as [id|] eqn:Hr; [|done].
    destruct (dynamicTaskID parent a i); [|done]. injection Ha as <-. simpl.
    unfold is_target. by rewrite (resolveNodeID_node _ _ _ Hr), orb_true_r.
Qed.

Section routing_lemmas.
Context `{SchemaEngine} `{TaskDigest}.

Lemma first_match_in_graph g parent source s edges tasks :
  Forall (λ e, is_target g (ce_to e) = true) edges →
  first_match g parent source s edges = Ok (Some tasks) → in_graph g tasks.
Proof.
  induction 1 as [|e edges He Hedges IH]; simpl; [done|].
  destruct (result_bind _ _) as [d|]; [|done]. destruct (Matched d); [|done].
  intros (ts & Hts & [= <-])%result_bind_Ok. by eapply decision_in_graph.
Qed.

(** Routing stays inside the graph: in a well-formed graph every task that
    follows a completed one, by a default edge, a condition's decision, its
    targets or its sends, is at an existing node or at [END]. *)
Theorem resolveNextTasks_in_graph g parent s tasks :
  graph_wf g → resolveNextTasks g parent s = Ok tasks → in_graph g tasks.
Proof.
  intros [_ _ Wd Wc _]. unfold resolveNextTasks. set (current := TrimSpace (NodeID parent)).
  destruct (bool_decide (current = "")); [done|].
  destruct (_ && _); [done|].
  assert (Forall (λ t, is_target g t = true) (targets_of g current)) as Hd.
  { unfold targets_of. destruct (defaultEdges g !! current) eqn:Hl; [|constructor].
    destruct (Wd current) as (_ & _ & Hf); [eauto|]. unfold targets_of in Hf. by rewrite Hl in Hf. }
  assert (in_graph g (staticRouteTasks [endNodeID])) as Hend.
  { apply static_in_graph. repeat constructor. }
  destruct (conditional_of g current) as [|e es] eqn:Hc.
  - destruct (targets_of g current) as [|t ts] eqn:Htg.
    + case_bool_decide; [by intros [= <-]|done].
    + intros [= <-]. by apply static_in_graph.
  - intros (matched & Hm & Hres)%result_bind_Ok. destruct matched as [ts|].
    + injection Hres as <-. apply first_match_in_graph in Hm; [done|].
      rewrite <-Hc. unfold conditional_of.
      destruct (conditionalEdges g !! current) eqn:Hl; [|constructor].
      destruct (Wc current) as (_ & Hf); [eauto|]. unfold conditional_of in Hf. rewrite Hl in Hf.
      apply (Forall_impl _ _ _ Hf). by intros ? [? _].
    + destruct (targets_of g current) as [|t ts] eqn:Htg.
      * case_bool_decide; [injection Hres as <-; exact Hend|done].
      * injection Hres as <-. apply static_in_graph. inversion_clear Hd. by repeat constructor.
Qed.
End routing_lemmas.

Lemma find_split {A} (f : A → bool) l a :
  List.find f l = Some a →
  ∃ l1 l2, l = l1 ++ a :: l2 ∧ f a = true ∧ Forall (λ b, f b = false) l1.
Proof.
  induction l as [|b l IH]; simpl; [done|]. destruct (f b) eqn:Hb.
  - intros [= ->]. exists [], l. by split_and!.
  - intros (l1 & l2 & -> & Ha & Hf)%IH. exists (b :: l1), l2. split_and!; [done..|by constructor].
Qed.

(** A failure goes to the first matching failure route of the node it came
    from, or nowhere: [resolveFailure] produces at most one task, at the target
    of the first route that matches the stage and class, carrying the failure;
    a canceled node or one out of resources, an error without a class, and an
    unknown stage are never routed. *)
Theorem resolveFailure_first `{ErrorText} g task stage err tasks :
  resolveFailure g task stage (Some err) = Ok tasks →
  let source := failure_source task stage err in
  let class := ClassifyError (Some err) in
  (tasks = [] ∧ (failureRoutable stage err = false ∨
     Forall (λ r, failureRouteMatches (fr_route r) stage class = false) (failures_of g source))) ∨
  (∃ l1 r l2 details,
     failures_of g source = l1 ++ r :: l2 ∧ failureRouteMatches (fr_route r) stage class = true ∧
     Forall (λ r, failureRouteMatches (fr_route r) stage class = false) l1 ∧
     tasks = [MkTask ("failure-" +:+ TaskID task) "" (fr_to r) [] "" "" (Order task) false 0
                (Some (MkFailure stage class (error_text err) source details))] ∧
     (stage = FailureStageNode → class ≠ ErrorCanceled ∧ class ≠ ErrorResourceExhausted ∧
        is_Some (errors_as as_execution err)) ∧
     (stage = FailureStageNode ∨ stage = FailureStageCondition)).
Proof.
  unfold resolveFailure. destruct (failureRoutable stage err) eqn:Hr; simpl.
  2: { intros [= <-]. left. split; [done|by left]. }
  destruct (List.find _ _) as [route|] eqn:Hfind.
  - intros (details & _ & [= <-])%result_bind_Ok. right.
    apply find_split in Hfind as (l1 & l2 & Hl & Hm & Hf).
    exists l1, route, l2, details. split_and!; [done..| |].
    + intros ->. unfold failureRoutable in Hr. simpl in Hr.
      apply andb_true_iff in Hr as [Hr H3%negb_true_iff%bool_decide_eq_false].
      apply andb_true_iff in Hr as [H1%bool_decide_eq_true H2%negb_true_iff%bool_decide_eq_false].
      done.
    + unfold failureRoutable in Hr. repeat case_bool_decide; auto; done.
  - intros [= <-]. left. split; [done|right]. rewrite Forall_forall. intros r Hin.
    apply list_elem_of_In in Hin. exact (List.find_none _ _ Hfind r Hin).
Qed.

(** ** Concrete runs *)

(** A digest for concrete runs: the correlation key. *)
Definition sample_digest : TaskDigest := λ _ _ send, Some (send_CorrelationKey send).

Lemma resolveNextTasks_in_graph_witness :
  let after_a := [NewStaticGraphTask "b" 0; NewStaticGraphTask "c" 1] in
  resolveNextTasks (H := permissive_engine) (H0 := sample_digest) sample_graph
    (NewStaticGraphTask "a" 0) NewState = Ok after_a ∧
  in_graph sample_graph after_a.
Proof.
  intros after_a.
  assert (resolveNextTasks (H := permissive_engine) (H0 := sample_digest) sample_graph
    (NewStaticGraphTask "a" 0) NewState = Ok after_a) as Hok by (vm_compute; reflexivity).
  split; [exact Hok|].
  exact (resolveNextTasks_in_graph (H := permissive_engine) (H0 := sample_digest)
    _ _ _ _ sample_graph_wf Hok).
Defined.

(** The diamond with two failure routes on [a]. *)
Definition failure_graph : Graph :=
  match (let* g := AddFailureRoute bare_graph "a" "b" (MkFailureRoute [FailureStageNode] ["canceled"] false) in
         AddFailureRoute g "a" "d" (MkFailureRoute [FailureStageNode] [" timeout "] false)) with
  | Ok g => g
  | Err _ => bare_graph
  end.

Lemma resolveFailure_first_witness :
  let err := EWrap "node a" (EClassified ErrorTimeout "slow" None None) in
  ∃ l1 r l2, failures_of failure_graph "a" = l1 ++ r :: l2 ∧ fr_to r = "d" ∧
    failureRouteMatches (fr_route r) FailureStageNode (ClassifyError (Some err)) = true.
Proof.
  intros err. pose (text := (λ _, "slow") : ErrorText).
  destruct (resolveFailure (H := text) failure_graph (NewStaticGraphTask "a" 0) FailureStageNode
    (Some err)) as [tasks|e] eqn:E; [|vm_compute in E; discriminate].
  destruct (resolveFailure_first (H := text) _ _ _ _ _ E)
    as [[Hnil _]|(l1 & r & l2 & d & Hl & Hm & _ & Ht & _)].
  - subst tasks. vm_compute in E. discriminate.
  - exists l1, r, l2. split; [exact Hl|]. split; [|exact Hm].
    assert (NodeID <$> tasks = ["d"]) as Hd.
    { vm_compute in E. injection E as <-. reflexivity. }
    rewrite Ht in Hd. simpl in Hd. congruence.
Defined.
