(* ===== verification/Scheduler.v ===== *)
(** * Scheduling: [graph/scheduler.go]

    The queue of the next wave, the joins that wait for their branches, and the
    checks on tasks and commands.  A map of tasks is keyed by node. *)

From S2P Require Import Prelude GoStrings Values Paths StateTree Patch.
From S2P Require Import Contracts Errors ExecutionPolicy Tasks Worklist Topology Routing.

Abbreviation taskMap := (gmap string GraphTask).

(** The tables [newScheduledRunnable] compiles. *)
Record scheduledRunnable := MkRunnable {
  graph : Graph;
  joinNodes : gset string;
  reachability : gmap string (gset string);
}.

Definition newScheduledRunnable (g : Graph) : scheduledRunnable :=
  MkRunnable g (compileJoinNodes g) (compileReachability g).

(** ** Tables of tasks *)

Definition storePreferredTask (tasks : taskMap) (t : GraphTask) : taskMap :=
  match tasks !! NodeID t with
  | None => <[NodeID t := t]> tasks
  | Some current =>
    match Failure current, Failure t with
    | None, Some _ => <[NodeID t := t]> tasks
    | _, _ => tasks
    end
  end.

Definition taskMapByNodeID (tasks : list GraphTask) : taskMap :=
  foldl (λ m t, if bool_decide (NodeID t = "") then m else storePreferredTask m t) ∅ tasks.

Definition sortedTasksByNodeID (tasks : taskMap) : list GraphTask :=
  omap (λ id, tasks !! id) (sorted_keys tasks).

(** ** Joins *)

Definition reaches (r : scheduledRunnable) (a b : string) : bool :=
  bool_decide (b ∈ default ∅ (reachability r !! a)).

Definition isStrictUpstream (r : scheduledRunnable) (id target : string) : bool :=
  if bool_decide (id = "") || bool_decide (id = endNodeID) || bool_decide (id = target) then false
  else reaches r id target && negb (reaches r target id).

Definition isJoinNode (r : scheduledRunnable) (id : string) : bool := bool_decide (id ∈ joinNodes r).

Definition hasUpstreamBlocker (r : scheduledRunnable) (join : string) (ready pending : taskMap) : bool :=
  existsb (λ id, isStrictUpstream r id join) (elements (dom ready))
  || existsb (λ id, negb (bool_decide (id = join)) && isStrictUpstream r id join)
       (elements (dom pending)).

(** One pass of [releasePendingFanIn] over the sorted joins. *)
Definition release_one (r : scheduledRunnable) (acc : taskMap * taskMap * bool) (join : string)
    : taskMap * taskMap * bool :=
  let '(ready, pending, released) := acc in
  if hasUpstreamBlocker r join ready pending then acc
  else match pending !! join with
       | Some t => (<[join := t]> ready, delete join pending, true)
       | None => acc
       end.

Definition release_pass (r : scheduledRunnable) (ready pending : taskMap) : taskMap * taskMap * bool :=
  foldl (release_one r) (ready, pending, false) (sorted_keys pending).

Fixpoint release_loop (fuel : nat) (r : scheduledRunnable) (ready pending : taskMap)
    : option (taskMap * taskMap) :=
  match fuel with
  | 0 => None
  | S fuel =>
    let '(ready, pending, released) := release_pass r ready pending in
    if released then release_loop fuel r ready pending else Some (ready, pending)
  end.

Definition releasePendingFanIn (r : scheduledRunnable) (ready pending : taskMap) : taskMap * taskMap :=
  default (ready, pending) (release_loop (S (size pending)) r ready pending).

(** ** The next wave *)

Definition ready_tasks (readyStatic : taskMap) (readyDynamic : list GraphTask) : list GraphTask :=
  sortedTasksByNodeID readyStatic ++ readyDynamic.

(** The loop of [scheduleNext] that sorts the tasks into ready and pending. *)
Definition place_next (r : scheduledRunnable) (acc : taskMap * taskMap) (t : GraphTask)
    : taskMap * taskMap :=
  let '(ready, pending) := acc in
  if Dynamic t then acc
  else if isJoinNode r (NodeID t) then (ready, storePreferredTask pending t)
  else (storePreferredTask ready t, pending).

Definition scheduleNext (r : scheduledRunnable) (next : list GraphTask) (pending : taskMap)
    : list GraphTask * taskMap :=
  let '(ready, pending) := foldl (place_next r) (∅, pending) next in
  let '(ready, pending) := releasePendingFanIn r ready pending in
  (ready_tasks ready (filter (λ t, Dynamic t = true) next), pending).

Definition place_resumed (acc : taskMap * taskMap) (t : GraphTask) : taskMap * taskMap :=
  let '(ready, pending) := acc in
  if Dynamic t then acc
  else match pending !! NodeID t with
       | Some p => (storePreferredTask (storePreferredTask ready p) t, delete (NodeID t) pending)
       | None => (storePreferredTask ready t, pending)
       end.

Definition resumeSchedule (r : scheduledRunnable) (start : list GraphTask) (pending : taskMap)
    : list GraphTask * taskMap :=
  let '(ready, pending) := foldl place_resumed (∅, pending) start in
  let '(ready, pending) := releasePendingFanIn r ready pending in
  (ready_tasks ready (filter (λ t, Dynamic t = true) start), pending).

(** ** Checks *)

Inductive schedule_error :=
  | STaskIncomplete
  | STaskNode (task : string) (cause : graph_error)
  | SDuplicateTask (task : string)
  | SFanOut (limit actual : Z)
  | SDynamicJoinTwice (node : string)
  | SDynamicJoinPending (task node : string)
  | SDynamicJoinShared (task node other : string)
  | SDynamicJoinUpstream (task node other : string)
  | SConflictingCommands (task : string)
  | SReturnParallel (task : string)
  | SSuspendParallel (task : string)
  | SGoto (task target : string) (cause : graph_error)
  | SSend (task target : string) (cause : graph_error)
  | SSendInput (task : string) (index : Z) (issues : list ValidationIssue)
  | SSendID (task : string) (index : Z)
  | SRoute (cause : route_failure)
  | SLength.

(** The loop of [activeTasks]: tasks at [END] are dropped. *)
Fixpoint active_loop (g : Graph) (seen : list string) (tasks : list GraphTask)
    : result schedule_error (list GraphTask) :=
  match tasks with
  | [] => Ok []
  | t :: tasks =>
    if bool_decide (NodeID t = "") || bool_decide (TaskID t = "") then Err STaskIncomplete
    else if bool_decide (NodeID t = endNodeID) then active_loop g seen tasks
    else match resolveNodeID g (NodeID t) with
         | Err e => Err (STaskNode (TaskID t) e)
         | Ok _ =>
           if bool_decide (TaskID t ∈ seen) then Err (SDuplicateTask (TaskID t))
           else let* active := active_loop g (TaskID t :: seen) tasks in Ok (t :: active)
         end
  end.

Definition wave_less : GraphTask → GraphTask → bool :=
  less_then Order z_lt (less_last TaskID str_lt).

Definition activeTasks (r : scheduledRunnable) (tasks : list GraphTask)
    : result schedule_error (list GraphTask) :=
  let* active := active_loop (graph r) [] tasks in
  let active := stable_sort wave_less active in
  Ok (map (λ t, with_wave_size t (Z.of_nat (length active))) active).

Definition checkFanOut (r : scheduledRunnable) (count : nat) : result schedule_error unit :=
  let limit := MaxFanOut (Limits (executionPolicy (graph r))) in
  guard_err (limit <? Z.of_nat count)%Z (SFanOut limit (Z.of_nat count)).

(** The first loop of [validateNextTasks]: the index of each dynamic task that
    targets a join. *)
Fixpoint dynamic_joins (r : scheduledRunnable) (pending : taskMap) (index : nat)
    (found : gmap string nat) (tasks : list GraphTask) : result schedule_error (gmap string nat) :=
  match tasks with
  | [] => Ok found
  | t :: tasks =>
    if negb (Dynamic t) || negb (isJoinNode r (NodeID t))
    then dynamic_joins r pending (S index) found tasks
    else if bool_decide (is_Some (found !! NodeID t)) then Err (SDynamicJoinTwice (NodeID t))
    else if bool_decide (is_Some (pending !! NodeID t))
    then Err (SDynamicJoinPending (TaskID t) (NodeID t))
    else dynamic_joins r pending (S index) (<[NodeID t := index]> found) tasks
  end.

Definition check_join_task (r : scheduledRunnable) (tasks : list GraphTask) (join : string * nat)
    : result schedule_error unit :=
  match tasks !! join.2 with
  | None => Ok tt
  | Some t =>
    first_err (λ o : nat * GraphTask,
        if bool_decide (o.1 = join.2) then Ok tt
        else if bool_decide (NodeID o.2 = join.1)
        then Err (SDynamicJoinShared (TaskID t) join.1 (TaskID o.2))
        else guard_err (isStrictUpstream r (NodeID o.2) join.1)
               (SDynamicJoinUpstream (TaskID t) join.1 (TaskID o.2)))
      (imap pair tasks)
  end.

Definition validateNextTasks (r : scheduledRunnable) (tasks : list GraphTask) (pending : taskMap)
    : result schedule_error unit :=
  let* _ := checkFanOut r (length tasks) in
  let* joins := dynamic_joins r pending 0 ∅ tasks in
  first_err (check_join_task r tasks) (map_to_list joins).

(** ** Commands *)

Record Command := MkCommand {
  Goto : list string;
  cmd_Send : list Send;
  Suspend : option value;
  Return : option value;
}.

(** The accumulators of [resolveCommands]: static targets, dynamic tasks, the
    suspension and the return value. *)
Record Resolved := MkResolved {
  r_static : gset string;
  r_dynamic : list GraphTask;
  r_suspend : option (GraphTask * value);
  r_return : option value;
}.

Definition control_count (c : Command) : nat :=
  Nat.b2n (negb (length (Goto c) =? 0)) + Nat.b2n (negb (length (cmd_Send c) =? 0))
  + Nat.b2n (bool_decide (is_Some (Suspend c))) + Nat.b2n (bool_decide (is_Some (Return c))).

Definition add_static (acc : Resolved) (targets : list string) : Resolved :=
  MkResolved (list_to_set targets ∪ r_static acc) (r_dynamic acc) (r_suspend acc) (r_return acc).
Definition add_dynamic (acc : Resolved) (tasks : list GraphTask) : Resolved :=
  MkResolved (r_static acc) (r_dynamic acc ++ tasks) (r_suspend acc) (r_return acc).

Definition appendResolvedRouteTasks (acc : Resolved) (tasks : list GraphTask) : Resolved :=
  add_dynamic (add_static acc (map NodeID (filter (λ t, Dynamic t = false) tasks)))
    (filter (λ t, Dynamic t = true) tasks).

Section commands.
Context `{SchemaEngine} `{TaskDigest}.

Definition resolve_send (r : scheduledRunnable) (task : GraphTask) (index : Z) (send : Send)
    : result schedule_error GraphTask :=
  match resolveNodeID (graph r) (send_Target send) with
  | Err e => Err (SSend (TaskID task) (send_Target send) e)
  | Ok id =>
    let issues := match nodeContracts (graph r) !! id with
                  | Some c => ValidateInputPatchByContract (send_Input send) c
                  | None => ValidateInputPatch (send_Input send)
                  end in
    match issues with
    | _ :: _ => Err (SSendInput (TaskID task) index issues)
    | [] =>
      match dynamicTaskID task send index with
      | None => Err (SSendID (TaskID task) index)
      | Some taskID => Ok (send_task id taskID send index)
      end
    end
  end.

Definition route (r : scheduledRunnable) (task : GraphTask) (s : State) (acc : Resolved)
    : result schedule_error Resolved :=
  match resolveNextTasks (graph r) task s with
  | Err e => Err (SRoute e)
  | Ok tasks => Ok (appendResolvedRouteTasks acc tasks)
  end.

(** One turn of the loop: the commands of one completed task. *)
Definition resolve_one (r : scheduledRunnable) (wave : nat) (s : State) (acc : Resolved)
    (item : GraphTask * Command * option go_error) : result schedule_error Resolved :=
  let '(task, command, err) := item in
  match err with
  | Some _ => Ok acc
  | None =>
    if (1 <? control_count command)%nat then Err (SConflictingCommands (TaskID task))
    else
      match Return command, Suspend command, Goto command, cmd_Send command with
      | Some v, _, _, _ =>
        if negb (wave =? 1)%nat then Err (SReturnParallel (TaskID task))
        else Ok (MkResolved (r_static acc) (r_dynamic acc) (r_suspend acc) (Some v))
      | None, Some v, _, _ =>
        if negb (wave =? 1)%nat then Err (SSuspendParallel (TaskID task))
        else route r task s
               (MkResolved (r_static acc) (r_dynamic acc) (Some (task, v)) (r_return acc))
      | None, None, (_ :: _) as targets, _ =>
        let* ids := imapM (λ _ target,
            match resolveEdgeTarget (graph r) target with
            | Ok id => Ok id
            | Err e => Err (SGoto (TaskID task) target e)
            end) 0 targets in
        Ok (add_static acc ids)
      | None, None, [], (_ :: _) as sends =>
        let* _ := checkFanOut r (length sends) in
        let* tasks := imapM (resolve_send r task) 0 sends in
        Ok (add_dynamic acc tasks)
      | None, None, [], [] => route r task s acc
      end
  end.

(** The tasks of the next wave: static targets by node, then the dynamic tasks
    in their order, numbered after them. *)
Definition assemble (acc : Resolved) : list GraphTask :=
  let static := staticRouteTasks (sort_strings (elements (r_static acc))) in
  static ++ number_tasks (Z.of_nat (length static)) (stable_sort dynamic_less (r_dynamic acc)).

Definition resolveCommands (r : scheduledRunnable) (completed : list GraphTask)
    (commands : list Command) (errors : list (option go_error)) (s : State)
    : result schedule_error (list GraphTask * option value * option (GraphTask * value)) :=
  if negb (length completed =? length commands)%nat || negb (length errors =? length completed)%nat
  then Err SLength
  else
    let* acc := foldM (resolve_one r (length completed) s) (MkResolved ∅ [] None None)
                  (zip (zip completed commands) errors) in
    match r_return acc with
    | Some v => Ok ([], Some v, None)
    | None => Ok (assemble acc, None, r_suspend acc)
    end.
End commands.

(** ** Budgets and retries *)

(** [claimNodeExecution]: an atomic counter that is raised even when the limit
    refuses the claim. *)
Inductive budget_error := ENodeExecutions (limit actual : Z).

Definition claimNodeExecution (limit count : Z) : Z * result budget_error unit :=
  if (limit <=? 0)%Z then (count, Ok tt)
  else let actual := wrap64 (count + 1)%Z in
       (actual, if (actual <=? limit)%Z then Ok tt else Err (ENodeExecutions limit actual)).

Definition detail (err : go_error) (key : string) : option value :=
  e ← errors_as as_execution err; m ← Details e; m !! key.

Definition attempt_abandoned (err : go_error) : bool :=
  match detail err "attempt_abandoned" with Some (VBool b) => b | _ => false end.

(** The operation a side-effect failure itself declares. *)
Definition declared_operation (err : go_error) (op : EffectOperation) : EffectOperation :=
  MkEffect (eff_Key op)
    (match detail err "effect_class" with Some (VStr c) => c | _ => eff_Class op end)
    (match detail err "idempotency_key" with Some (VStr k) => k | _ => IdempotencyKey op end).

Definition retryable (policy : RetryPolicy) (err : option go_error) (op : EffectOperation) : bool :=
  match err with
  | None => false
  | Some e =>
    if attempt_abandoned e then false
    else
      let class := ClassifyError err in
      if bool_decide (class = ErrorSideEffectFailed) then
        let op := declared_operation e op in
        bool_decide (NormalizeEffectClass (eff_Class op) = EffectIdempotentWrite)
        && negb (bool_decide (TrimSpace (IdempotencyKey op) = ""))
      else if bool_decide (NormalizeEffectClass (eff_Class op)
                           ∈ [EffectNonIdempotentWrite; EffectCompensatable]) then false
      else if bool_decide (class ∈ NonRetryableErrorClasses policy) then false
      else bool_decide (class ∈ RetryableErrorClasses policy)
  end.

(** ** Releasing joins

    Whether a join is blocked depends only on which nodes are scheduled at all,
    and releasing one moves it between the two tables: the loop therefore
    computes a plain filter. *)

Section release.
Context (r : scheduledRunnable).

Definition blocked (U : gset string) (join : string) : bool :=
  existsb (λ id, isStrictUpstream r id join) (elements U).

Lemma blocked_true U join :
  blocked U join = true ↔ ∃ id, id ∈ U ∧ isStrictUpstream r id join = true.
Proof.
  unfold blocked. rewrite existsb_exists. setoid_rewrite <-list_elem_of_In.
  by setoid_rewrite elem_of_elements.
Qed.

Lemma isStrictUpstream_irrefl id : isStrictUpstream r id id = false.
Proof.
  unfold isStrictUpstream. rewrite (bool_decide_true (id = id)) by done. by rewrite orb_true_r.
Qed.

Lemma hasUpstreamBlocker_blocked join ready pending :
  hasUpstreamBlocker r join ready pending = blocked (dom ready ∪ dom pending) join.
Proof.
  apply eq_true_iff_eq. rewrite blocked_true. unfold hasUpstreamBlocker.
  rewrite orb_true_iff, !existsb_exists. setoid_rewrite <-list_elem_of_In.
  setoid_rewrite elem_of_elements. setoid_rewrite elem_of_union. split.
  - intros [(id & Hid & Hup)|(id & Hid & Hup)]; [eauto|].
    apply andb_true_iff in Hup as [_ Hup]. eauto.
  - intros (id & [Hid|Hid] & Hup); [eauto|]. right. exists id. split; [done|].
    rewrite bool_decide_false; [done|]. intros ->. by rewrite isStrictUpstream_irrefl in Hup.
Qed.

(** The joins of [l] that are free to go. *)
Definition freed (U : gset string) (l : list string) (pending : taskMap) : taskMap :=
  filter (λ kv, blocked U kv.1 = false ∧ kv.1 ∈ l) pending.
Definition kept (U : gset string) (l : list string) (pending : taskMap) : taskMap :=
  filter (λ kv, ¬ (blocked U kv.1 = false ∧ kv.1 ∈ l)) pending.

Lemma freed_kept_dom U l pending : dom (freed U l pending) ∪ dom (kept U l pending) = dom pending.
Proof.
  apply set_eq. intros k. rewrite elem_of_union, !elem_of_dom. unfold freed, kept, is_Some.
  setoid_rewrite map_lookup_filter_Some. simpl.
  destruct (decide (blocked U k = false ∧ k ∈ l)); naive_solver.
Qed.

Lemma lookup_freed U l pending k t :
  freed U l pending !! k = Some t ↔ pending !! k = Some t ∧ blocked U k = false ∧ k ∈ l.
Proof. unfold freed. by rewrite map_lookup_filter_Some. Qed.

Lemma lookup_kept U l pending k t :
  kept U l pending !! k = Some t ↔ pending !! k = Some t ∧ ¬ (blocked U k = false ∧ k ∈ l).
Proof. unfold kept. by rewrite map_lookup_filter_Some. Qed.

Lemma freed_snoc U l pending j t :
  pending !! j = Some t → blocked U j = false →
  freed U (l ++ [j]) pending = <[j := t]> (freed U l pending).
Proof.
  intros Hj Hb. apply map_eq. intros k. apply option_eq. intros x.
  rewrite lookup_freed, lookup_insert_Some, lookup_freed, elem_of_app, list_elem_of_singleton.
  destruct (decide (j = k)) as [->|Hne]; naive_solver.
Qed.

Lemma kept_snoc U l pending j :
  blocked U j = false → kept U (l ++ [j]) pending = delete j (kept U l pending).
Proof.
  intros Hb. apply map_eq. intros k. apply option_eq. intros x.
  rewrite lookup_kept, lookup_delete_Some, lookup_kept, elem_of_app, list_elem_of_singleton.
  destruct (decide (j = k)) as [->|Hne]; naive_solver.
Qed.

Lemma stuck_snoc U l pending j :
  blocked U j = true ∨ kept U l pending !! j = None →
  freed U (l ++ [j]) pending = freed U l pending ∧ kept U (l ++ [j]) pending = kept U l pending.
Proof.
  rewrite eq_None_not_Some. intros Hj.
  assert (∀ t, pending !! j = Some t → blocked U j = false → j ∈ l) as Hin.
  { intros t Ht Hb. destruct Hj as [|Hj]; [congruence|].
    destruct (decide (j ∈ l)); [done|]. destruct Hj. exists t. apply lookup_kept. naive_solver. }
  split; apply map_eq; intros k; apply option_eq; intros x;
    rewrite ?lookup_freed, ?lookup_kept, elem_of_app, list_elem_of_singleton; naive_solver.
Qed.

Lemma freed_nil U pending : freed U [] pending = ∅.
Proof.
  apply map_eq. intros k. apply option_eq. intros x.
  rewrite lookup_freed, lookup_empty, elem_of_nil. naive_solver.
Qed.

Lemma kept_nil U pending : kept U [] pending = pending.
Proof.
  apply map_eq. intros k. apply option_eq. intros x. rewrite lookup_kept, elem_of_nil. naive_solver.
Qed.

Lemma release_fold ready pending l :
  let U := dom ready ∪ dom pending in
  foldl (release_one r) (ready, pending, false) l =
    (freed U l pending ∪ ready, kept U l pending, negb (bool_decide (freed U l pending = ∅))).
Proof.
  intros U. induction l as [|j l IH] using rev_ind.
  - simpl. rewrite freed_nil, kept_nil, bool_decide_true by done.
    by rewrite (left_id_L ∅ (∪)).
  - rewrite foldl_snoc, IH. unfold release_one at 1. rewrite hasUpstreamBlocker_blocked.
    assert (dom (freed U l pending ∪ ready) ∪ dom (kept U l pending) = U) as ->.
    { rewrite dom_union_L. pose proof (freed_kept_dom U l pending). unfold U in *. set_solver. }
    destruct (blocked U j) eqn:Hb.
    { by destruct (stuck_snoc U l pending j (or_introl Hb)) as [-> ->]. }
    destruct (kept U l pending !! j) as [t|] eqn:Hj.
    + apply lookup_kept in Hj as [Hj _].
      rewrite (freed_snoc U l pending j t Hj Hb), (kept_snoc U l pending j Hb).
      rewrite insert_union_l, (bool_decide_false (<[j:=t]> _ = ∅)); [done|].
      apply insert_non_empty.
    + by destruct (stuck_snoc U l pending j (or_intror Hj)) as [-> ->].
Qed.

(** What [releasePendingFanIn] returns, with the fuel it is given. *)
Lemma releasePendingFanIn_filter ready pending :
  let U := dom ready ∪ dom pending in
  releasePendingFanIn r ready pending =
    (filter (λ kv, blocked U kv.1 = false) pending ∪ ready,
     filter (λ kv, blocked U kv.1 = true) pending).
Proof.
  intros U. unfold releasePendingFanIn.
  assert (∀ l, (∀ k, is_Some (pending !! k) → k ∈ l) →
    freed U l pending = filter (λ kv, blocked U kv.1 = false) pending ∧
    kept U l pending = filter (λ kv, blocked U kv.1 = true) pending) as Hall.
  { intros l Hl. split; apply map_eq; intros k; apply option_eq; intros x;
      rewrite ?lookup_freed, ?lookup_kept, map_lookup_filter_Some; simpl.
    - naive_solver.
    - destruct (blocked U k); naive_solver. }
  destruct (Hall (sorted_keys pending)) as [Hf Hk].
  { intros k. by rewrite elem_of_sorted_keys. }
  simpl. unfold release_pass. rewrite release_fold. fold U. rewrite Hf, Hk.
  case_bool_decide as Hempty; simpl; [done|].
  assert (size pending ≠ 0) as Hsize.
  { intros Hz%map_size_empty_iff. apply Hempty. by rewrite Hz, map_filter_empty. }
  destruct (size pending) as [|n]; [done|]. simpl. unfold release_pass. rewrite release_fold.
  rewrite dom_union_L.
  assert (dom (filter (λ kv, blocked U kv.1 = false) pending)
          ∪ dom (filter (λ kv, blocked U kv.1 = true) pending) = dom pending) as Hdom.
  { rewrite <-Hf, <-Hk. apply freed_kept_dom. }
  assert (dom (filter (λ kv, blocked U kv.1 = false) pending) ∪ dom ready
          ∪ dom (filter (λ kv, blocked U kv.1 = true) pending) = U) as ->.
  { transitivity (dom ready ∪ dom pending); [|done]. revert Hdom.
    generalize (dom (filter (λ kv, blocked U kv.1 = false) pending)).
    generalize (dom (filter (λ kv, blocked U kv.1 = true) pending)).
    generalize (dom ready). intros A B C <-. set_solver. }
  set (rest := filter (λ kv, blocked U kv.1 = true) pending).
  assert (∀ l, freed U l rest = ∅ ∧ kept U l rest = rest) as Hrest.
  { assert (∀ k x, rest !! k = Some x → blocked U k = true) as Hb.
    { intros k x. unfold rest. rewrite map_lookup_filter_Some. by intros [_ ?]. }
    intros l. split; apply map_eq; intros k; apply option_eq; intros x;
      rewrite ?lookup_freed, ?lookup_kept, ?lookup_empty.
    - split; [|done]. intros (Hx & Hf' & _). apply Hb in Hx. congruence.
    - split; [by intros [? _]|]. intros Hx. split; [done|].
      intros [Hf' _]. apply Hb in Hx. congruence. }
  destruct (Hrest (sorted_keys rest)) as [-> ->].
  rewrite bool_decide_true by done. simpl. by rewrite (left_id_L ∅ (∪)).
Qed.
End release.

(** ** The next wave *)

(** A table of static tasks under their own nodes. *)
Definition keyed (m : taskMap) : Prop := ∀ k t, m !! k = Some t → NodeID t = k ∧ Dynamic t = false.

Definition static_ids (tasks : list GraphTask) : list string :=
  map NodeID (filter (λ t, Dynamic t = false) tasks).

Lemma elem_of_static_ids tasks id :
  id ∈ static_ids tasks ↔ ∃ t, t ∈ tasks ∧ Dynamic t = false ∧ NodeID t = id.
Proof.
  unfold static_ids. rewrite list_elem_of_fmap. setoid_rewrite list_elem_of_filter. naive_solver.
Qed.

Lemma storePreferredTask_dom m t : dom (storePreferredTask m t) = {[NodeID t]} ∪ dom m.
Proof.
  unfold storePreferredTask. destruct (m !! NodeID t) as [c|] eqn:Hc.
  - assert (NodeID t ∈ dom m) as Hin by (apply elem_of_dom; eauto).
    destruct (Failure c), (Failure t); rewrite ?dom_insert_L; set_solver.
  - by rewrite dom_insert_L.
Qed.

Lemma storePreferredTask_keyed m t : keyed m → Dynamic t = false → keyed (storePreferredTask m t).
Proof.
  intros Hm Ht. assert (keyed (<[NodeID t := t]> m)).
  { intros k x. rewrite lookup_insert_Some. intros [[<- <-]|[_ Hx]]; [done|by apply Hm]. }
  unfold storePreferredTask. by repeat case_match.
Qed.

(** A failure's task is never displaced by one without a failure. *)
Lemma storePreferredTask_failure m t c :
  m !! NodeID t = Some c → is_Some (Failure c) → storePreferredTask m t !! NodeID t = Some c.
Proof. unfold storePreferredTask. intros Hc [f Hf]. by rewrite Hc, Hf. Qed.

(** The static tasks of a node among some tasks, and the one the tables keep of
    them: the first that carries a failure, else the first. *)
Definition static_at (id : string) (tasks : list GraphTask) : list GraphTask :=
  filter (λ t, Dynamic t = false ∧ NodeID t = id) tasks.

Definition chosen (l : list GraphTask) : option GraphTask :=
  match head (filter (λ t, is_Some (Failure t)) l) with Some t => Some t | None => head l end.

Definition prefer (current : option GraphTask) (t : GraphTask) : option GraphTask :=
  match current with
  | None => Some t
  | Some c => match Failure c, Failure t with None, Some _ => Some t | _, _ => Some c end
  end.

Lemma storePreferredTask_lookup m t id :
  storePreferredTask m t !! id = if bool_decide (NodeID t = id) then prefer (m !! id) t else m !! id.
Proof.
  unfold storePreferredTask, prefer. case_bool_decide as Hid.
  - subst id. destruct (m !! NodeID t) as [c|] eqn:Hc; [|by rewrite lookup_insert_eq].
    destruct (Failure c), (Failure t); try done; by rewrite lookup_insert_eq.
  - destruct (m !! NodeID t) as [c|]; [|by rewrite lookup_insert_ne].
    destruct (Failure c), (Failure t); try done; by rewrite lookup_insert_ne.
Qed.

Lemma foldl_prefer o l : foldl prefer o l = chosen (option_list o ++ l).
Proof.
  assert (∀ l c, foldl prefer (Some c) l = chosen (c :: l)) as Hsome.
  { clear o l. induction l as [|t l IH]; intros c; simpl.
    - unfold chosen. rewrite filter_cons. by case_decide.
    - transitivity (foldl prefer (prefer (Some c) t) l); [done|]. unfold prefer.
      destruct (Failure c) eqn:Hc; [|destruct (Failure t) eqn:Ht];
        rewrite IH; unfold chosen; rewrite !filter_cons, ?Hc, ?Ht;
        repeat (case_decide as Hd; simpl; try done); first [by destruct Hd|by destruct Hd; eexists]. }
  destruct o as [c|]; [apply Hsome|]. destruct l as [|t l]; [done|]. apply Hsome.
Qed.

Lemma filter_sorted_tasks m id :
  keyed m → static_at id (sortedTasksByNodeID m) = option_list (m !! id).
Proof.
  intros Hk. unfold sortedTasksByNodeID, static_at.
  assert (∀ ks, NoDup ks →
    filter (λ t, Dynamic t = false ∧ NodeID t = id) (omap (λ k, m !! k) ks) =
    if bool_decide (id ∈ ks) then option_list (m !! id) else []) as Hks.
  { induction ks as [|k ks IH]; [done|]. intros [Hn Hnd]%NoDup_cons. csimpl.
    specialize (IH Hnd). destruct (m !! k) as [t|] eqn:Ht.
    - rewrite filter_cons, IH. destruct (Hk k t Ht) as [Hid Hst]. destruct (decide (k = id)) as [->|Hne].
      + rewrite decide_True, Ht by done. rewrite bool_decide_false by done.
        by rewrite bool_decide_true by left.
      + rewrite decide_False by (intros [_ ?]; congruence).
        case_bool_decide as H1; case_bool_decide as H2; try done; set_solver.
    - rewrite IH. destruct (decide (k = id)) as [->|Hne].
      + rewrite Ht. by repeat case_bool_decide.
      + case_bool_decide as H1; case_bool_decide as H2; try done; set_solver. }
  rewrite Hks by apply NoDup_sorted_keys. case_bool_decide as Hin; [done|].
  destruct (m !! id) as [t|] eqn:Ht; [|done]. destruct Hin. apply elem_of_sorted_keys. by exists t.
Qed.

Section next_wave.
Context (r : scheduledRunnable).

(** The nodes the loop of [scheduleNext] puts in each table. *)
Definition ready_ids (next : list GraphTask) : gset string :=
  list_to_set (filter (λ id, isJoinNode r id = false) (static_ids next)).
Definition join_ids (next : list GraphTask) : gset string :=
  list_to_set (filter (λ id, isJoinNode r id = true) (static_ids next)).

Lemma place_next_fold next ready pending ready' pending' :
  foldl (place_next r) (ready, pending) next = (ready', pending') →
  keyed ready → keyed pending →
  keyed ready' ∧ keyed pending' ∧
  dom ready' = ready_ids next ∪ dom ready ∧ dom pending' = join_ids next ∪ dom pending.
Proof.
  unfold ready_ids, join_ids. revert ready pending.
  induction next as [|t next IH]; intros ready pending; simpl.
  { intros [= <- <-] Hr Hp. split_and!; set_solver. }
  unfold static_ids. rewrite filter_cons. fold (static_ids next).
  destruct (Dynamic t) eqn:Hd; simpl; [by apply IH|].
  fold (static_ids next). rewrite !filter_cons.
  destruct (isJoinNode r (NodeID t)) eqn:Hj; intros Heq Hr Hp;
    apply IH in Heq as (Hkr & Hkp & Hdr & Hdp); try done;
    try by apply storePreferredTask_keyed.
  - split_and!; [done..| |].
    + rewrite decide_False by done. exact Hdr.
    + rewrite decide_True, list_to_set_cons, Hdp, storePreferredTask_dom by done. set_solver.
  - split_and!; [done..| |].
    + rewrite decide_True, list_to_set_cons, Hdr, storePreferredTask_dom by done. set_solver.
    + rewrite decide_False by done. exact Hdp.
Qed.

Lemma elem_of_sortedTasks (m : taskMap) t :
  t ∈ sortedTasksByNodeID m ↔ ∃ k, m !! k = Some t.
Proof.
  unfold sortedTasksByNodeID. rewrite list_elem_of_omap. setoid_rewrite elem_of_sorted_keys.
  naive_solver.
Qed.

Lemma ready_tasks_static (m : taskMap) dynamic :
  keyed m → (∀ t, t ∈ dynamic → Dynamic t = true) →
  ∀ id, id ∈ static_ids (ready_tasks m dynamic) ↔ id ∈ dom m.
Proof.
  intros Hm Hd id. rewrite elem_of_static_ids, elem_of_dom. unfold ready_tasks.
  setoid_rewrite elem_of_app. setoid_rewrite elem_of_sortedTasks. split.
  - intros (t & [[k Hk]|Ht] & Hst & <-); [|apply Hd in Ht; congruence].
    destruct (Hm k t Hk) as [-> _]. eauto.
  - intros [t Ht]. destruct (Hm id t Ht) as [Hid Hst]. exists t. eauto.
Qed.

(** The nodes with a scheduled static task, in either table. *)
Definition scheduled (next : list GraphTask) (pending : taskMap) : gset string :=
  list_to_set (static_ids next) ∪ dom pending.

Lemma scheduleNext_tables next pending ready pending' :
  keyed pending → scheduleNext r next pending = (ready, pending') →
  let U := scheduled next pending in
  (∀ id, id ∈ static_ids ready ↔
     id ∈ ready_ids next ∨ (id ∈ join_ids next ∪ dom pending ∧ blocked r U id = false)) ∧
  (∀ id, id ∈ dom pending' ↔ id ∈ join_ids next ∪ dom pending ∧ blocked r U id = true) ∧
  keyed pending' ∧
  (∀ t, Dynamic t = true → t ∈ ready ↔ t ∈ next).
Proof.
  intros Hp Hs U. unfold scheduleNext in Hs.
  destruct (foldl (place_next r) (∅, pending) next) as [ready1 pending1] eqn:Hfold.
  apply place_next_fold in Hfold as (Hkr & Hkp & Hdr & Hdp); [|by intros ? ?|done].
  rewrite releasePendingFanIn_filter in Hs.
  assert (dom ready1 ∪ dom pending1 = U) as HU.
  { rewrite Hdr, Hdp, dom_empty_L. unfold U, scheduled, ready_ids, join_ids.
    apply set_eq. intros id. rewrite !elem_of_union, !elem_of_list_to_set, !list_elem_of_filter.
    destruct (isJoinNode r id); set_solver. }
  rewrite HU in Hs. injection Hs as <- <-.
  set (freed' := filter (λ kv, blocked r U kv.1 = false) pending1).
  assert (∀ k t, freed' !! k = Some t ↔ pending1 !! k = Some t ∧ blocked r U k = false) as Hfreed.
  { intros k t. unfold freed'. by rewrite map_lookup_filter_Some. }
  assert (keyed (freed' ∪ ready1)) as Hkeyed.
  { intros k t [Hx|[_ Hx]]%lookup_union_Some_raw; [apply Hfreed in Hx as [Hx _]; by apply Hkp|by apply Hkr]. }
  split_and!.
  - intros id. rewrite ready_tasks_static; [|done|by intros t [? _]%list_elem_of_filter].
    rewrite dom_union_L, elem_of_union, Hdr, dom_empty_L, elem_of_union, elem_of_empty, <-Hdp.
    rewrite !elem_of_dom. unfold is_Some. setoid_rewrite Hfreed. naive_solver.
  - intros id. rewrite <-Hdp, !elem_of_dom. unfold is_Some.
    setoid_rewrite map_lookup_filter_Some. naive_solver.
  - intros k t [Hx _]%map_lookup_filter_Some. by apply Hkp.
  - intros t Ht. unfold ready_tasks. rewrite elem_of_app, list_elem_of_filter, elem_of_sortedTasks.
    split; [|tauto]. intros [[k Hk]|[_ Hin]]; [|done].
    destruct (Hkeyed k t Hk) as [_ Hst]. congruence.
Qed.
Lemma place_next_lookup next ready pending id :
  let p := foldl (place_next r) (ready, pending) next in
  p.1 !! id = (if isJoinNode r id then ready !! id else foldl prefer (ready !! id) (static_at id next)) ∧
  p.2 !! id = (if isJoinNode r id then foldl prefer (pending !! id) (static_at id next) else pending !! id).
Proof.
  unfold static_at. revert ready pending. induction next as [|t next IH]; intros ready pending; cbv zeta in *; simpl.
  { by destruct (isJoinNode r id). }
  destruct (Dynamic t) eqn:Hd; simpl.
  { rewrite filter_cons, decide_False by (intros [? ?]; congruence). apply IH. }
  destruct (isJoinNode r (NodeID t)) eqn:Hj; destruct (IH (if isJoinNode r (NodeID t) then ready else storePreferredTask ready t)
    (if isJoinNode r (NodeID t) then storePreferredTask pending t else pending)) as [H1 H2]; rewrite Hj in H1, H2; rewrite H1, H2;
    clear H1 H2; rewrite filter_cons; rewrite !storePreferredTask_lookup;
    (destruct (decide (NodeID t = id)) as [<-|Hne];
      [rewrite bool_decide_true, decide_True by done|rewrite bool_decide_false by done; rewrite decide_False by (intros [? ?]; congruence)]);
    rewrite ?Hj; try done; by destruct (isJoinNode r id).
Qed.

(** What becomes of the tasks at one node: exactly one is kept, in one of the
    tables. *)
Lemma scheduleNext_kept next pending ready pending' id :
  keyed pending → scheduleNext r next pending = (ready, pending') →
  isJoinNode r id = true ∨ pending !! id = None →
  static_at id ready ++ option_list (pending' !! id) =
  option_list (chosen (option_list (pending !! id) ++ static_at id next)).
Proof.
  intros Hp Hs Hid. unfold scheduleNext in Hs.
  pose proof (place_next_lookup next ∅ pending id) as [H1 H2]. cbv zeta in H1, H2.
  destruct (foldl (place_next r) (∅, pending) next) as [ready1 pending1] eqn:Hfold.
  apply place_next_fold in Hfold as (Hkr & Hkp & _ & _); [|by intros ? ?|done]. cbn [fst snd] in *.
  rewrite releasePendingFanIn_filter in Hs. set (U := dom ready1 ∪ dom pending1) in Hs. injection Hs as <- <-.
  set (freed' := filter (λ kv, blocked r U kv.1 = false) pending1).
  set (held' := filter (λ kv, blocked r U kv.1 = true) pending1).
  assert (keyed (freed' ∪ ready1)) as Hkeyed.
  { intros k t [Hx|[_ Hx]]%lookup_union_Some_raw; [|by apply Hkr]. apply map_lookup_filter_Some in Hx as [Hx _]. by apply Hkp. }
  unfold ready_tasks, static_at at 1. rewrite filter_app. fold (static_at id (sortedTasksByNodeID (freed' ∪ ready1))).
  rewrite filter_sorted_tasks by done.
  assert (filter (λ t, Dynamic t = false ∧ NodeID t = id) (filter (λ t, Dynamic t = true) next) = []) as ->.
  { apply elem_of_nil_inv. intros t Hin. apply list_elem_of_filter in Hin as [[Hf _] Hin]. apply list_elem_of_filter in Hin as [Ht _]. congruence. }
  rewrite app_nil_r, <-foldl_prefer.
  assert (freed' !! id = if blocked r U id then None else pending1 !! id) as Hfr.
  { unfold freed'. rewrite map_lookup_filter. destruct (pending1 !! id) as [x|]; simpl; [|by destruct (blocked r U id)].
    by destruct (blocked r U id) eqn:E; simplify_option_eq. }
  assert (held' !! id = if blocked r U id then pending1 !! id else None) as Hhd.
  { unfold held'. rewrite map_lookup_filter. destruct (pending1 !! id) as [x|]; simpl; [|by destruct (blocked r U id)].
    by destruct (blocked r U id) eqn:E; simplify_option_eq. }
  rewrite lookup_union, Hfr, Hhd, H1, H2, lookup_empty.
  destruct (isJoinNode r id).
  - destruct (blocked r U id); [by rewrite (left_id_L None (∪))|]. rewrite (right_id_L None (∪)). apply app_nil_r.
  - destruct Hid as [Hid|Hid]; [done|]. rewrite Hid. destruct (blocked r U id); simpl; rewrite (left_id_L None (∪)); apply app_nil_r.
Qed.

Lemma scheduleNext_dynamic next pending ready pending' :
  keyed pending → scheduleNext r next pending = (ready, pending') →
  filter (λ t, Dynamic t = true) ready = filter (λ t, Dynamic t = true) next.
Proof.
  intros Hp Hs. unfold scheduleNext in Hs.
  destruct (foldl (place_next r) (∅, pending) next) as [ready1 pending1] eqn:Hfold.
  apply place_next_fold in Hfold as (Hkr & Hkp & _ & _); [|by intros ? ?|done].
  rewrite releasePendingFanIn_filter in Hs. injection Hs as <- <-.
  unfold ready_tasks. rewrite filter_app, list_filter_filter.
  assert (filter (λ t, Dynamic t = true) (sortedTasksByNodeID
    (filter (λ kv, blocked r (dom ready1 ∪ dom pending1) kv.1 = false) pending1 ∪ ready1)) = []) as ->.
  { apply elem_of_nil_inv. intros t Hin. apply list_elem_of_filter in Hin as [Ht Hin]. apply elem_of_sortedTasks in Hin as (k & Hk).
    apply lookup_union_Some_raw in Hk as [[Hk _]%map_lookup_filter_Some|[_ Hk]];
      [destruct (Hkp k t Hk)|destruct (Hkr k t Hk)]; congruence. }
  apply list_filter_iff. naive_solver.
Qed.
End next_wave.

(** ** Upstream is a strict order *)

Lemma upstream_spec g a b :
  isStrictUpstream (newScheduledRunnable g) a b = true ↔
  a ≠ "" ∧ a ≠ endNodeID ∧ a ≠ b ∧ is_node g a = true ∧ tc (ostep g) a b ∧
  ¬ (is_node g b = true ∧ tc (ostep g) b a).
Proof.
  unfold isStrictUpstream, reaches. simpl.
  repeat case_bool_decide; simpl; rewrite ?compileReachability_spec in *; naive_solver.
Qed.

Lemma upstream_trans g a b c :
  isStrictUpstream (newScheduledRunnable g) a b = true →
  isStrictUpstream (newScheduledRunnable g) b c = true →
  isStrictUpstream (newScheduledRunnable g) a c = true.
Proof.
  rewrite !upstream_spec. intros (Ha & Hae & Hab & Hna & Htab & Hnab) (Hb & Hbe & Hbc & Hnb & Htbc & Hnbc).
  split_and!; [done|done| |done|by eapply tc_transitive|].
  - intros ->. by destruct Hnab.
  - intros [Hnc Htca]. apply Hnbc. split; [done|]. by eapply tc_transitive.
Qed.

(** Some scheduled node has nothing scheduled upstream of it. *)
Lemma unblocked_exists g (U : gset string) :
  U ≠ ∅ → ∃ id, id ∈ U ∧ blocked (newScheduledRunnable g) U id = false.
Proof.
  intros Hne. set (R a b := isStrictUpstream (newScheduledRunnable g) a b = true).
  assert (Transitive R) by (intros a b c; apply upstream_trans).
  assert (∀ x y, Decision (R x y)) by (intros x y; unfold R; apply _).
  destruct (minimal_exists_elem_of_L R U Hne) as (id & Hid & Hmin).
  exists id. split; [done|]. apply not_true_iff_false. rewrite blocked_true.
  intros (a & Ha & Hup). specialize (Hmin a Ha Hup).
  assert (R a a) as Haa by (by apply (upstream_trans g a id a)).
  unfold R in Haa. by rewrite isStrictUpstream_irrefl in Haa.
Qed.

(** ** Properties *)

(** C3: The joins wait for exactly their upstream, and no task is lost:
    [scheduleNext] terminates; of the static tasks that a node has, pending and
    next, exactly one is ready or pending afterwards, the first that carries a
    failure or else the first, as it was; the dynamic tasks pass through in their
    order; a join is held back exactly while a node with a scheduled static task
    is strictly upstream of it. *)
Theorem scheduleNext_joins r next pending ready pending' :
  keyed pending → scheduleNext r next pending = (ready, pending') →
  let U := scheduled next pending in
  (∀ id, isJoinNode r id = true ∨ pending !! id = None →
     static_at id ready ++ option_list (pending' !! id) =
     option_list (chosen (option_list (pending !! id) ++ static_at id next))) ∧
  filter (λ t, Dynamic t = true) ready = filter (λ t, Dynamic t = true) next ∧
  (∀ id, id ∈ U ↔ id ∈ static_ids ready ∨ id ∈ dom pending') ∧
  (∀ id, id ∈ dom pending' → ∃ u, u ∈ U ∧ isStrictUpstream r u id = true) ∧
  (∀ id, id ∈ static_ids ready → isJoinNode r id = true →
     ∀ u, u ∈ U → isStrictUpstream r u id = false) ∧
  keyed pending'.
Proof.
  intros Hp Hs U. destruct (scheduleNext_tables r _ _ _ _ Hp Hs) as (Hr & Hw & Hk & Hd).
  fold U in Hr, Hw. split; [by intros id; apply scheduleNext_kept|]. split; [exact (scheduleNext_dynamic r _ _ _ _ Hp Hs)|].
  split_and!; [| | |done].
  - intros id. rewrite Hr, Hw. unfold U, scheduled, ready_ids, join_ids.
    rewrite !elem_of_union, !elem_of_list_to_set, !list_elem_of_filter.
    destruct (isJoinNode r id), (blocked r (list_to_set (static_ids next) ∪ dom pending) id); tauto.
  - intros id [_ Hb]%Hw. by apply blocked_true in Hb.
  - intros id [Hid|[_ Hb]]%Hr Hj u Hu.
    + unfold ready_ids in Hid. rewrite elem_of_list_to_set, list_elem_of_filter in Hid.
      destruct Hid as [Hid _]. congruence.
    + apply not_true_iff_false. intros Hup. apply not_true_iff_false in Hb. apply Hb.
      apply blocked_true. eauto.
Qed.

(** C4: The scheduler does not deadlock: as long as a task is next or a join is
    pending, the next wave is not empty. *)
Theorem scheduleNext_progress g next pending ready pending' :
  keyed pending → scheduleNext (newScheduledRunnable g) next pending = (ready, pending') →
  next ≠ [] ∨ pending ≠ ∅ → ready ≠ [].
Proof.
  intros Hp Hs Hne.
  destruct (scheduleNext_tables _ _ _ _ _ Hp Hs) as (Hr & Hw & _ & Hd).
  set (U := scheduled next pending) in *.
  intros ->. assert (∀ id, id ∉ static_ids []) as Hnone by (intros id; apply not_elem_of_nil).
  assert (∀ t, t ∈ next → Dynamic t = false) as Hstatic.
  { intros t Ht. destruct (Dynamic t) eqn:Hdt; [|done].
    apply Hd in Ht; [by apply elem_of_nil in Ht|done]. }
  destruct (unblocked_exists g U) as (id & Hid & Hb).
  - destruct Hne as [Hne|Hne].
    + destruct next as [|t next]; [done|].
      assert (NodeID t ∈ U); [|set_solver]. unfold U, scheduled.
      apply elem_of_union. left. apply elem_of_list_to_set, elem_of_static_ids.
      exists t. split_and!; [left| |done]. apply Hstatic. left.
    + unfold U, scheduled. intros Hemp. apply Hne, dom_empty_inv_L. set_solver.
  - apply (Hnone id), Hr. unfold U, scheduled in Hid.
    unfold ready_ids, join_ids. rewrite !elem_of_union, !elem_of_list_to_set, !list_elem_of_filter.
    rewrite elem_of_union, elem_of_list_to_set in Hid.
    destruct (isJoinNode _ id); tauto.
Qed.

Lemma active_loop_spec g seen tasks active :
  active_loop g seen tasks = Ok active →
  active = filter (λ t, NodeID t ≠ endNodeID) tasks ∧
  NoDup (map TaskID active) ∧ (∀ t, t ∈ active → TaskID t ∉ seen) ∧
  (∀ t, t ∈ active → is_node g (TrimSpace (NodeID t)) = true ∧ NodeID t ≠ "" ∧ TaskID t ≠ "").
Proof.
  revert seen active. induction tasks as [|t tasks IH]; intros seen active; simpl.
  { intros [= <-]. split_and!; [done|constructor|by intros ? ?%elem_of_nil..]. }
  destruct (bool_decide (NodeID t = "") || _) eqn:He; [done|].
  apply orb_false_iff in He as [Hn%bool_decide_eq_false Ht%bool_decide_eq_false].
  rewrite filter_cons. case_bool_decide as Hend.
  { rewrite decide_False by (by intros ?). apply IH. }
  rewrite decide_True by done.
  destruct (resolveNodeID g (NodeID t)) as [id|] eqn:Hres; [|done].
  case_bool_decide as Hseen; [done|].
  intros (rest & Hrest & [= <-])%result_bind_Ok.
  apply IH in Hrest as (-> & Hnd & Hns & Hok). split_and!; [done| | |].
  - simpl. constructor; [|done]. rewrite list_elem_of_fmap. intros (u & Hu & Hin).
    apply (Hns u Hin). rewrite <-Hu. left.
  - intros u [->|Hu]%elem_of_cons; [done|]. intros Hin. apply (Hns u Hu). by right.
  - intros u [->|Hu]%elem_of_cons; [|by apply Hok]. split_and!; [|done|done].
    unfold resolveNodeID in Hres. case_bool_decide; [done|]. case_bool_decide as Hin; [|done].
    unfold is_node. by apply bool_decide_eq_true.
Qed.

(** A wave is well-formed: the tasks [activeTasks] lets run are the given
    ones without those at [END], sorted by order and identifier, under distinct
    identifiers, at existing nodes, and each knows the size of the wave. *)
Theorem activeTasks_wave r tasks wave :
  activeTasks r tasks = Ok wave →
  (∃ active, active ≡ₚ filter (λ t, NodeID t ≠ endNodeID) tasks ∧
     StronglySorted (not_after wave_less) active ∧
     wave = map (λ t, with_wave_size t (Z.of_nat (length active))) active) ∧
  NoDup (map TaskID wave) ∧
  (∀ t, t ∈ wave → is_node (graph r) (TrimSpace (NodeID t)) = true ∧
                    ParallelWaveSize t = Z.of_nat (length wave)).
Proof.
  unfold activeTasks. intros (active & Ha & [= <-])%result_bind_Ok.
  apply active_loop_spec in Ha as (-> & Hnd & _ & Hok).
  set (active := stable_sort wave_less _).
  assert (active ≡ₚ filter (λ t, NodeID t ≠ endNodeID) tasks) as Hp by apply stable_sort_perm.
  split_and!.
  - exists active. split_and!; [done|apply stable_sort_sorted; apply _|done].
  - rewrite map_map. simpl. change (NoDup (TaskID <$> active)). by rewrite Hp.
  - intros t (u & -> & Hu)%list_elem_of_fmap. simpl. rewrite length_map.
    split; [|done]. apply Hok. by rewrite <-Hp.
Qed.

(** A retry never repeats an effect that is not known to be repeatable: after
    a side-effect failure only an idempotent write with a key is retried, any
    other error only when its class is listed as retryable, not listed as
    non-retryable, and the operation is neither a non-idempotent nor a
    compensatable write.  An abandoned attempt is never retried. *)
Theorem retryable_safe policy err op :
  retryable policy (Some err) op = true →
  attempt_abandoned err = false ∧
  (if decide (ClassifyError (Some err) = ErrorSideEffectFailed) then 
     NormalizeEffectClass (eff_Class (declared_operation err op)) = EffectIdempotentWrite ∧
     TrimSpace (IdempotencyKey (declared_operation err op)) ≠ ""
   else
     (ClassifyError (Some err) ∈ RetryableErrorClasses policy) ∧
     (ClassifyError (Some err) ∉ NonRetryableErrorClasses policy) ∧
     NormalizeEffectClass (eff_Class op) ≠ EffectNonIdempotentWrite ∧
     NormalizeEffectClass (eff_Class op) ≠ EffectCompensatable).
Proof.
  unfold retryable. destruct (attempt_abandoned err); [done|]. intros H. split; [done|].
  case_decide as Hc.
  - rewrite bool_decide_true in H by done.
    apply andb_true_iff in H as [H1%bool_decide_eq_true H2%negb_true_iff%bool_decide_eq_false].
    done.
  - rewrite bool_decide_false in H by done.
    case_bool_decide as Hw; [done|]. case_bool_decide as Hn; [done|].
    apply bool_decide_eq_true in H. rewrite !elem_of_cons, elem_of_nil in Hw.
    split_and!; [done|done|intros Heq; apply Hw; auto..].
Qed.

Lemma number_tasks_order base tasks :
  map Order (number_tasks base tasks) = imap (λ i _, (base + Z.of_nat i)%Z) tasks.
Proof.
  unfold number_tasks. change (@map GraphTask Z) with (@fmap list _ GraphTask Z).
  by rewrite fmap_imap.
Qed.

Lemma imap_const_length {A B} (f : nat → B) (l : list A) :
  imap (λ i _, f i) l = map f (seq 0 (length l)).
Proof.
  apply list_eq. intros i. rewrite list_lookup_imap.
  change (map f (seq 0 (length l))) with (f <$> seq 0 (length l)).
  rewrite list_lookup_fmap. destruct (l !! i) eqn:Hi; simpl.
  - rewrite lookup_seq_lt; [done|]. by eapply lookup_lt_Some.
  - rewrite lookup_seq_ge; [done|]. by apply lookup_ge_None.
Qed.

Lemma staticRouteTasks_orders targets :
  map Order (staticRouteTasks targets) = map Z.of_nat (seq 0 (length targets)).
Proof.
  unfold staticRouteTasks. change (@map GraphTask Z) with (@fmap list _ GraphTask Z).
  rewrite fmap_imap. apply (imap_const_length Z.of_nat).
Qed.

Lemma staticRouteTasks_static targets : static_ids (staticRouteTasks targets) = targets.
Proof.
  unfold static_ids, staticRouteTasks.
  enough (∀ k, map NodeID (filter (λ t, Dynamic t = false)
    (imap (λ i id, NewStaticGraphTask id (Z.of_nat (k + i))) targets)) = targets) as H by exact (H 0).
  induction targets as [|t targets IH]; intros k; simpl; [done|].
  f_equal. rewrite <-(IH (S k)) at 2. do 2 f_equal. apply imap_ext. intros i x _. simpl.
  by rewrite Nat.add_succ_r.
Qed.

Lemma static_ids_app l1 l2 : static_ids (l1 ++ l2) = static_ids l1 ++ static_ids l2.
Proof. unfold static_ids. by rewrite filter_app, map_app. Qed.

Lemma static_ids_dynamic l : (∀ t, t ∈ l → Dynamic t = true) → static_ids l = [].
Proof.
  induction l as [|t l IH]; intros Hl; [done|]. unfold static_ids.
  rewrite filter_cons, decide_False.
  - apply IH. intros u Hu. apply Hl. by right.
  - rewrite (Hl t); [done|left].
Qed.

(** What every accumulator of [resolveCommands] satisfies. *)
Record resolved_inv (wave : nat) (acc : Resolved) : Prop := {
  ri_dynamic : ∀ t, t ∈ r_dynamic acc → Dynamic t = true;
  ri_return : is_Some (r_return acc) → wave = 1;
  ri_suspend : is_Some (r_suspend acc) → wave = 1;
}.

Section command_lemmas.
Context `{SchemaEngine} `{TaskDigest}.

Lemma route_inv wave r task s acc acc' :
  resolved_inv wave acc → route r task s acc = Ok acc' → resolved_inv wave acc'.
Proof.
  intros [H1 H2 H3]. unfold route. destruct (resolveNextTasks _ _ _); [|done].
  intros [= <-]. split; simpl; [|done|done].
  intros t [Ht|[Ht _]%list_elem_of_filter]%elem_of_app; [by apply H1|done].
Qed.

Lemma resolve_one_inv r wave s acc item acc' :
  resolved_inv wave acc → resolve_one r wave s acc item = Ok acc' → resolved_inv wave acc'.
Proof.
  intros Hinv. destruct item as [[task c] err]. unfold resolve_one.
  destruct err; [by intros [= <-]|].
  destruct (1 <? control_count c)%nat; [done|].
  pose proof Hinv as [H1 H2 H3].
  destruct (Return c) as [v|].
  { destruct (wave =? 1)%nat eqn:Hw; [|done]. intros [= <-].
    apply Nat.eqb_eq in Hw. by split. }
  destruct (Suspend c) as [v|].
  { destruct (wave =? 1)%nat eqn:Hw; [|done]. apply Nat.eqb_eq in Hw.
    apply route_inv. by split. }
  destruct (Goto c) as [|target targets].
  - destruct (cmd_Send c) as [|send sends]; [by apply route_inv|].
    intros ([] & _ & (tasks & Htasks & [= <-])%result_bind_Ok)%result_bind_Ok.
    split; simpl; [|done|done].
    intros t [Ht|Ht]%elem_of_app; [by apply H1|].
    destruct (imapM_elem _ _ _ _ _ Htasks Ht) as (i & sd & _ & Hsd).
    unfold resolve_send in Hsd. repeat case_match; simplify_eq; done.
  - intros (ids & _ & [= <-])%result_bind_Ok. by split.
Qed.

(** The next wave that [resolveCommands] assembles is canonical: its tasks
    are numbered from zero without gaps, no node has two static tasks, a return
    leaves no next task, and only a task that ran alone may return or suspend. *)
Theorem resolveCommands_wave r completed commands errors s tasks ret susp :
  resolveCommands r completed commands errors s = Ok (tasks, ret, susp) →
  map Order tasks = map Z.of_nat (seq 0 (length tasks)) ∧
  NoDup (static_ids tasks) ∧
  (is_Some ret → tasks = [] ∧ susp = None ∧ length completed = 1) ∧
  (is_Some susp → length completed = 1).
Proof.
  unfold resolveCommands. destruct (_ || _); [done|].
  intros (acc & Hacc & Hres)%result_bind_Ok.
  assert (resolved_inv (length completed) acc) as [Hdyn Hret Hsusp].
  { refine (foldM_invariant (resolved_inv (length completed)) _ _ _ _ _ _ Hacc).
    - intros a x a' Ha. by apply resolve_one_inv.
    - split; simpl; [by intros t ?%elem_of_nil|by intros [? ?]..]. }
  destruct (r_return acc) as [v|]; injection Hres as <- <- <-.
  - split_and!; [done|constructor| |done]. intros _. split_and!; [done..|]. apply Hret. eauto.
  - unfold assemble. set (targets := sort_strings (elements (r_static acc))).
    set (dynamic := stable_sort dynamic_less (r_dynamic acc)).
    assert (length (staticRouteTasks targets) = length targets) as Hlen
      by (unfold staticRouteTasks; apply length_imap).
    split_and!; [| |by intros [? ?]|done].
    + rewrite map_app, staticRouteTasks_orders, number_tasks_order, length_app, Hlen.
      rewrite (imap_const_length (λ i, Z.of_nat (length targets) + Z.of_nat i)%Z).
      unfold number_tasks. rewrite length_imap, seq_app, map_app. f_equal. simpl.
      rewrite <-(map_map (λ i, length targets + i) Z.of_nat (seq 0 (length dynamic)))
        || idtac.
      apply list_eq. intros i. rewrite !list_lookup_fmap.
      destruct (decide (i < length dynamic)).
      * rewrite !lookup_seq_lt by done. simpl. f_equal. lia.
      * rewrite !lookup_seq_ge by lia. done.
    + rewrite static_ids_app, staticRouteTasks_static.
      rewrite (static_ids_dynamic (number_tasks _ _)).
      * rewrite app_nil_r. unfold targets, sort_strings. rewrite stable_sort_perm.
        apply NoDup_elements.
      * intros t Ht. unfold number_tasks in Ht. apply list_elem_of_lookup in Ht as [i Hi].
        apply list_lookup_imap_Some in Hi as (u & Hu & ->). simpl. apply Hdyn.
        apply list_elem_of_lookup_2 in Hu. unfold dynamic in Hu. by apply stable_sort_elem_of in Hu.
Qed.
End command_lemmas.

(** ** Concrete runs, on the diamond a -> b, c -> d *)

Definition diamond : scheduledRunnable := newScheduledRunnable sample_graph.

Definition task_b : GraphTask := NewStaticGraphTask "b" 0.
Definition task_c : GraphTask := NewStaticGraphTask "c" 1.
Definition task_d : GraphTask := NewStaticGraphTask "d" 1.

(** A dynamic task at [b]. *)
Definition dynamic_b : GraphTask := send_task "b" "send-1" (MkSend "b" [] "" "") 0.

(** The join [d] waits while [b] is scheduled, and follows alone. *)
Lemma scheduleNext_joins_witness :
  let '(ready, pending') := scheduleNext diamond [task_b; task_d] ∅ in
  ready = [task_b] ∧ (∀ id, id ∈ dom pending' → ∃ u, isStrictUpstream diamond u id = true) ∧
  "d" ∈ dom pending'.
Proof.
  destruct (scheduleNext diamond [task_b; task_d] ∅) as [ready pending'] eqn:E.
  assert (keyed ∅) as Hk by (intros k t Hl; destruct (lookup_empty_Some _ _ Hl)).
  destruct (scheduleNext_joins diamond _ _ _ _ Hk E) as (_ & _ & _ & H & _).
  assert (ready = [task_b] ∧ is_Some (pending' !! "d")) as [Hr Hd].
  { revert E. vm_compute. intros E. injection E as <- <-. split; [reflexivity|by eexists]. }
  split; [exact Hr|]. split; [|apply elem_of_dom, Hd].
  intros id (u & _ & Hu)%H. exists u. exact Hu.
Defined.

Lemma scheduleNext_progress_witness :
  (scheduleNext diamond [] {[ "d" := task_d ]}).1 ≠ [].
Proof.
  destruct (scheduleNext diamond [] {[ "d" := task_d ]}) as [ready pending'] eqn:E.
  assert (keyed {[ "d" := task_d ]}) as Hk.
  { intros k t [<- <-]%lookup_singleton_Some. split; reflexivity. }
  exact (scheduleNext_progress sample_graph _ _ _ _ Hk E (or_intror (insert_non_empty _ _ _))).
Defined.

(** A dynamic task strictly upstream of a join does not hold the join back,
    where a static one at the same node does: only static tasks are passed to
    [releasePendingFanIn]. *)
Example dynamic_upstream_does_not_block :
  isStrictUpstream diamond "b" "d" = true ∧
  scheduleNext diamond [dynamic_b; task_d] ∅ = ([task_d; dynamic_b], ∅) ∧
  scheduleNext diamond [task_b; task_d] ∅ = ([task_b], {[ "d" := task_d ]}).
Proof. split_and!; vm_compute; reflexivity. Qed.

Lemma activeTasks_wave_witness :
  ∃ wave, activeTasks diamond [task_c; NewStaticGraphTask endNodeID 5; task_b] = Ok wave ∧
    map NodeID wave = ["b"; "c"] ∧ NoDup (map TaskID wave).
Proof.
  destruct (activeTasks diamond [task_c; NewStaticGraphTask endNodeID 5; task_b]) as [wave|e] eqn:E.
  - destruct (activeTasks_wave _ _ _ E) as (_ & Hn & _). exists wave. split_and!; [reflexivity| |exact Hn].
    vm_compute in E. injection E as <-. reflexivity.
  - vm_compute in E. discriminate.
Defined.

Lemma retryable_safe_witness :
  let err := EClassified ErrorTimeout "slow" None None in
  retryable (Retry (NodeDefaults DefaultGraphExecutionPolicy)) (Some err)
    (MkEffect "get" EffectReadOnly "") = true ∧ attempt_abandoned err = false.
Proof.
  intros err.
  assert (retryable (Retry (NodeDefaults DefaultGraphExecutionPolicy)) (Some err)
    (MkEffect "get" EffectReadOnly "") = true) as H by (vm_compute; reflexivity).
  split; [exact H|]. exact (proj1 (retryable_safe _ _ _ H)).
Defined.

(** A goes to [c] by command while its sibling sends two tasks to [b]. *)
Lemma resolveCommands_wave_witness :
  ∃ tasks, resolveCommands (H := permissive_engine) (H0 := sample_digest) diamond [task_b; task_c]
      [MkCommand ["c"] [] None None;
       MkCommand [] [MkSend "b" [] "k2" ""; MkSend "b" [] "k1" ""] None None]
      [None; None] NewState = Ok (tasks, None, None) ∧
    map TaskID tasks = [TaskID (NewStaticGraphTask "c" 0); "send-k1"; "send-k2"] ∧
    map Order tasks = [0; 1; 2]%Z.
Proof.
  destruct (resolveCommands (H := permissive_engine) (H0 := sample_digest) diamond [task_b; task_c]
      [MkCommand ["c"] [] None None;
       MkCommand [] [MkSend "b" [] "k2" ""; MkSend "b" [] "k1" ""] None None]
      [None; None] NewState) as [[[tasks ret] susp]|e] eqn:E; [|vm_compute in E; discriminate].
  pose proof (proj1 (resolveCommands_wave (H := permissive_engine) (H0 := sample_digest)
    _ _ _ _ _ _ _ _ E)) as Ho.
  vm_compute in E. injection E as <- <- <-. eexists. split; [reflexivity|]. split; [reflexivity|].
  exact Ho.
Defined.
