(* ===== verification/GraphContracts.v ===== *)
(** * The graph and its contract analysis: [graph/contract_analysis.go]

    What a graph hands to the analysis, and what the analysis says of the waves the
    scheduler runs: of the waves no join was held back for, every one is within a
    frontier the analysis visited; a join that was held back can run beside a node
    it was never compared with. *)

From Stdlib Require Import Ascii.
From S2P Require Import Prelude GoStrings Paths Values Json StateTree Patch Contracts Errors ExecutionPolicy Worklist ContractAnalysis Dataflow Tasks Topology Routing Scheduler.

(** [contractAnalysisGraph]; the paths of the initial state are a field of [Graph]
    that nothing else here reads. *)
Definition contractAnalysisGraph (g : Graph) (initialStatePaths : list string) : ContractAnalysisGraph :=
  MkAnalysis (entryPoint g) endNodeID initialStatePaths None (defaultEdges g)
    (map ce_to <$> conditionalEdges g) (nodeContracts g) (conditionContracts g).

(** A choice for each element of a list. *)
Lemma list_choice {A} (R : string → A → Prop) (f : list string) :
  (∀ n, n ∈ f → ∃ y, R n y) → ∀ d : A, ∃ pick : string → A, ∀ n, n ∈ f → R n (pick n).
Proof.
  intros HR d. induction f as [|n f IH]; [exists (λ _, d); by intros n ?%elem_of_nil|].
  destruct IH as [pick Hpick]; [intros m Hm; apply HR; by right|]. destruct (HR n (list_elem_of_here _ _)) as [y Hy].
  exists (λ m, if decide (m = n) then y else pick m). intros m [->|Hm]%elem_of_cons; [by rewrite decide_True|].
  destruct (decide (m = n)) as [->|]; [done|by apply Hpick].
Qed.

Section covered.
Context `{SchemaEngine} `{TaskDigest}.

(** Conditions that only say whether their edge is taken. *)
Definition plain_routing (g : Graph) : Prop :=
  ∀ source e s d, e ∈ conditional_of g source → EvaluateRoute (ce_condition e) s = Ok d → Targets d = [] ∧ Sends d = [].

(** The waves of the runs on which no join is held back: the nodes of a wave
    complete, in some states, and what follows them is scheduled at once. *)
Inductive prompt_wave (g : Graph) : list string → Prop :=
  | prompt_entry : prompt_wave g [entryPoint g]
  | prompt_next f next ready wave :
      prompt_wave g f →
      (∀ n, n ∈ f → ∃ parent s, TrimSpace (NodeID parent) = n ∧ resolveNextTasks g parent s = Ok (next n)) →
      scheduleNext (newScheduledRunnable g) (concat (map next f)) ∅ = (ready, ∅) →
      activeTasks (newScheduledRunnable g) ready = Ok wave →
      prompt_wave g (map NodeID wave).

Context (g : Graph) (initial : list string).
Abbreviation input := (contractAnalysisGraph g initial).
Abbreviation reachable := (reachableGraphNodes input).

Lemma static_ids_of_tasks targets : map NodeID (staticRouteTasks targets) = targets ∧ ∀ t, t ∈ staticRouteTasks targets → Dynamic t = false.
Proof.
  unfold staticRouteTasks. split.
  - change (NodeID <$> imap (λ i id, NewStaticGraphTask id (Z.of_nat i)) targets = targets). rewrite fmap_imap.
    apply list_eq. intros i. rewrite list_lookup_imap. by destruct (targets !! i).
  - intros t Ht. apply elem_of_lookup_imap in Ht as (i & y & -> & _). done.
Qed.

Lemma analysis_conditional n : analysis_edges (an_ConditionalEdges input) n = map ce_to (conditional_of g n).
Proof.
  unfold analysis_edges, conditional_of. simpl. rewrite lookup_fmap. by destruct (conditionalEdges g !! n).
Qed.

Lemma first_match_plain parent source s edges ts :
  (∀ e s d, e ∈ edges → EvaluateRoute (ce_condition e) s = Ok d → Targets d = [] ∧ Sends d = []) →
  first_match g parent source s edges = Ok (Some ts) → ∃ e, e ∈ edges ∧ ts = staticRouteTasks [ce_to e].
Proof.
  induction edges as [|e edges IH]; intros Hp; cbn [first_match]; [done|].
  destruct (let* shown := _ in _) as [d|] eqn:Hd; [|done]. destruct (Matched d).
  - apply result_bind_Ok in Hd as (shown & _ & Hd). destruct (Hp e shown d (list_elem_of_here _ _) Hd) as [Ht Hs].
    unfold tasksFromRouteDecision. rewrite Hs, Ht. simpl. intros [= <-]. exists e. split; [left|done].
  - intros Hm. destruct IH as (e' & He' & ->); [|done|].
    + intros e0 s0 d0 He0. apply Hp. by right.
    + exists e'. split; [by right|done].
Qed.

(** Targets that follow edges of [n] within one of its options. *)
Definition within_option (n : string) (l : list string) : Prop :=
  (∀ x, x ∈ l → x = endNodeID ∨ graph_edge input n x = true) ∧
  ∃ o, o ∈ analysisNodeNextOptions input reachable n ∧
    ∀ x, x ∈ l → isAnalysisEndTarget input x = false → x ∈ reachable → x ∈ o.

Lemma within_end n : within_option n [endNodeID].
Proof.
  split; [intros x ->%list_elem_of_singleton; by left|].
  destruct (option_exists input reachable n) as [o Ho]. exists o. split; [done|].
  by intros x ->%list_elem_of_singleton.
Qed.

Lemma within_conditional n t :
  conditional_of g n ≠ [] → t ∈ map ce_to (conditional_of g n) ∨ t ∈ targets_of g n → within_option n [t].
Proof.
  intros Hc Ht. split.
  - intros x ->%list_elem_of_singleton. right. unfold graph_edge. rewrite orb_true_iff, !bool_decide_eq_true, analysis_conditional. tauto.
  - exists (normalizeAnalysisFrontier input reachable [t]). split.
    + unfold analysisNodeNextOptions. rewrite analysis_conditional.
      destruct (conditional_of g n) as [|e l] eqn:E; [done|]. cbn [map] in *. apply list_elem_of_fmap. exists t.
      split; [done|]. by apply elem_of_app.
    + intros x Hx He Hr. by apply elem_of_normalize.
Qed.

Lemma within_static n : conditional_of g n = [] → within_option n (targets_of g n).
Proof.
  intros Hc. split.
  - intros x Hx. right. unfold graph_edge. rewrite orb_true_iff, !bool_decide_eq_true. by left.
  - exists (normalizeAnalysisFrontier input reachable (targets_of g n)). split.
    + unfold analysisNodeNextOptions. rewrite analysis_conditional, Hc. by apply list_elem_of_singleton.
    + intros x Hx He Hr. by apply elem_of_normalize.
Qed.

(** What a node resolves to is one of the options the analysis gives it. *)
Lemma resolve_option parent s ts :
  plain_routing g → resolveNextTasks g parent s = Ok ts →
  ∃ l, ts = staticRouteTasks l ∧ within_option (TrimSpace (NodeID parent)) l.
Proof.
  intros Hp. unfold resolveNextTasks. generalize (TrimSpace (NodeID parent)) as n. intros n.
  case_bool_decide as Hne; [done|]. destruct (negb _ && _); [done|].
  destruct (conditional_of g n) as [|e es] eqn:Hc.
  - pose proof (within_static n Hc) as Hw. destruct (targets_of g n) as [|t l] eqn:Ht.
    + case_bool_decide; [|done]. intros [= <-]. eexists. split; [done|apply within_end].
    + intros [= <-]. eexists. by split.
  - rewrite <-Hc. intros (m & Hm & Hts)%result_bind_Ok. destruct m as [ts'|].
    + injection Hts as <-. apply first_match_plain in Hm as (e' & He' & ->); [|intros e0 s0 d0; apply Hp].
      eexists. split; [done|]. apply within_conditional; [by rewrite Hc|]. left. apply list_elem_of_fmap. by exists e'.
    + destruct (targets_of g n) as [|t l] eqn:Ht.
      * case_bool_decide; [|done]. injection Hts as <-. eexists. split; [done|apply within_end].
      * injection Hts as <-. eexists. split; [done|]. apply within_conditional; [by rewrite Hc|]. right. rewrite Ht. left.
Qed.

(** Every task of a wave is one of those that were to be scheduled. *)
Lemma wave_from_next next ready pending wave t :
  (∀ u, u ∈ next → Dynamic u = false) →
  scheduleNext (newScheduledRunnable g) next ∅ = (ready, pending) →
  activeTasks (newScheduledRunnable g) ready = Ok wave → t ∈ wave →
  NodeID t ≠ "" ∧ NodeID t ≠ endNodeID ∧ NodeID t ∈ map NodeID next.
Proof.
  intros Hd Hs Ha Ht.
  apply scheduleNext_tables in Hs as (Hids & _ & _ & Hdyn); [|by intros k u ?%lookup_empty_Some].
  unfold activeTasks in Ha. apply result_bind_Ok in Ha as (active & Hact & [= <-]).
  apply list_elem_of_fmap in Ht as (u & -> & Hu). rewrite stable_sort_elem_of in Hu.
  apply active_loop_spec in Hact as (Hactive & _ & _ & Hok). destruct (Hok u Hu) as (_ & Hne & _).
  rewrite Hactive in Hu. apply list_elem_of_filter in Hu as [Hend Hu]. simpl. split_and!; [done|done|].
  destruct (Dynamic u) eqn:Hdu.
  { apply Hdyn in Hu; [|done]. by rewrite Hd in Hdu. }
  assert (NodeID u ∈ static_ids ready) as Hin by (apply elem_of_static_ids; by exists u).
  apply Hids in Hin. unfold ready_ids, join_ids in Hin. rewrite dom_empty_L, union_empty_r_L, !elem_of_list_to_set, !list_elem_of_filter in Hin.
  assert (NodeID u ∈ static_ids next) as Hn by tauto.
  apply elem_of_static_ids in Hn as (v & Hv & _ & Hid). rewrite <-Hid. apply list_elem_of_fmap. by exists v.
Qed.

Lemma prompt_wave_visited r f :
  plain_routing g → entry_live input → entryPoint g ≠ "" → (∀ x, x ∈ reachable → Contains "000"%char x = false) →
  visit_frontiers input reachable = Some r → prompt_wave g f →
  (∀ x, x ∈ f → x ∈ reachable) ∧ ∃ w, w ∈ r ∧ ∀ x, x ∈ f → x ∈ w.
Proof.
  intros Hp Hl Hne Hnul Hr Hf. induction Hf as [|f next ready wave _ [Hreach (w & Hw & Hsub)] Hnext Hs Ha].
  - assert (entryPoint g ∈ reachable) as Hin by (apply elem_of_reachable; split; [done|constructor]).
    split; [by intros x ->%list_elem_of_singleton|].
    destruct (visited_start input reachable Hnul r Hl Hin Hr) as (w & Hw & He). exists w. split; [done|].
    by intros x ->%list_elem_of_singleton.
  - assert (∃ opts, ∀ n, n ∈ f → within_option n (map NodeID (next n)) ∧ (∀ t, t ∈ next n → Dynamic t = false) ∧
      opts n ∈ analysisNodeNextOptions input reachable n ∧
      ∀ x, x ∈ map NodeID (next n) → isAnalysisEndTarget input x = false → x ∈ reachable → x ∈ opts n) as [pick Hpick].
    { apply (list_choice (λ n o, within_option n (map NodeID (next n)) ∧ (∀ t, t ∈ next n → Dynamic t = false) ∧
        o ∈ analysisNodeNextOptions input reachable n ∧
        ∀ x, x ∈ map NodeID (next n) → isAnalysisEndTarget input x = false → x ∈ reachable → x ∈ o)); [|exact []].
      intros n Hn. destruct (Hnext n Hn) as (parent & s & Hid & Hres).
      apply resolve_option in Hres as (l & Heq & Hwith); [|done]. rewrite Hid in Hwith.
      destruct (static_ids_of_tasks l) as [Hids Hd]. rewrite Heq, Hids. destruct Hwith as [He (o & Ho & Hx)].
      exists o. split_and!; [split; [done|by exists o]|done|done|done]. }
    assert (∀ x, x ∈ map NodeID wave → isAnalysisEndTarget input x = false ∧ x ∈ reachable ∧ x ∈ concat (map pick f)) as Hx.
    { intros x (t & -> & Ht)%list_elem_of_fmap.
      destruct (wave_from_next (concat (map next f)) ready ∅ wave t) as (Hn1 & Hn2 & Hin); [|done..|].
      { intros u (n & Hn & Hu)%elem_of_concat_map. by apply (Hpick n Hn). }
      apply list_elem_of_fmap in Hin as (u & Hu & (n & Hn & Hin)%elem_of_concat_map). rewrite Hu in *.
      assert (NodeID u ∈ map NodeID (next n)) as Hidn by (apply list_elem_of_fmap; by exists u).
      destruct (Hpick n Hn) as ([He _] & _ & Ho & Hin').
      assert (isAnalysisEndTarget input (NodeID u) = false) as Hlive.
      { unfold isAnalysisEndTarget. rewrite !bool_decide_false by done. done. }
      assert (NodeID u ∈ reachable) as Hru.
      { destruct (He _ Hidn) as [|Hg]; [done|]. apply elem_of_reachable.
        apply (reaches_step input n); [by apply elem_of_reachable, Hreach|]. by apply live_edge_iff. }
      split_and!; [done|done|]. apply elem_of_concat_map. exists n. split; [done|]. by apply Hin'. }
    split; [intros x Hin; by apply Hx|].
    destruct (decide (concat (map pick f) = [])) as [E|Hc].
    { exists w. split; [done|]. intros x Hin. apply Hx in Hin as (_ & _ & Hin). rewrite E in Hin. by apply elem_of_nil in Hin. }
    destruct (covered_next input reachable Hnul r f w pick Hr Hw Hsub) as (w' & Hw' & Hsub'); [|done|].
    { intros n Hn. by apply (Hpick n Hn). }
    exists w'. split; [done|]. intros x Hin. by apply Hsub', Hx.
Qed.
End covered.

(** C5: Branches that may run together are compared.  On a graph whose conditions
    only say whether their edge is taken and whose node ids have no NUL, every wave
    that the scheduler runs with no join held back lies within a frontier the
    analysis visits, for every evaluation of the conditions and every state; so when
    the first overlapping fields that two nodes of such a wave write do not merge,
    there is an error about the two, and the graph is refused.  (Only the first such
    pair of fields counts: [first_pair_hides]; a wave with a join that was held back
    may be missed: [held_join_unchecked].)  The search for frontiers ends, and when
    the choices are too many their union stands for them. *)
Theorem conflicting_wave_refused `{SchemaEngine} `{TaskDigest} g initial f a b l r p :
  plain_routing g → entryPoint g ≠ "" → entryPoint g ≠ endNodeID →
  (∀ x, x ∈ reachableGraphNodes (contractAnalysisGraph g initial) → Contains "000"%char x = false) →
  prompt_wave g f → a ∈ f → b ∈ f → str_lt a b = true →
  nodeContracts g !! a = Some l → nodeContracts g !! b = Some r → overlappingWritePath l r = Some (p, false) →
  let diagnostics := AnalyzeContractDiagnostics (contractAnalysisGraph g initial) in
  MkDiagnostic SeverityError "overlapping_write" a b p [] ∈ diagnostics ∧
  ∃ errs, ContractDiagnosticsError diagnostics = Err errs.
Proof.
  intros Hp Hne Hend Hnul Hf Ha Hb Hlt Hl Hr Ho diagnostics.
  assert (entry_live (contractAnalysisGraph g initial)) as Hlive.
  { unfold entry_live, isAnalysisEndTarget. simpl. by rewrite !bool_decide_false. }
  destruct (frontiers_total (contractAnalysisGraph g initial) _ Hnul (reachable_NoDup _)) as [fs Hfs].
  destruct (prompt_wave_visited g initial fs f Hp Hlive Hne Hnul Hfs Hf) as [_ (w & Hw & Hsub)].
  assert (MkDiagnostic SeverityError "overlapping_write" a b p [] ∈ diagnostics) as Hd.
  { by apply (visited_overlap _ fs w a b l r p Hfs Hw (Hsub a Ha) (Hsub b Hb)). }
  split; [done|]. unfold ContractDiagnosticsError.
  destruct (filter _ _) as [|e es] eqn:E; [|by eexists].
  assert (MkDiagnostic SeverityError "overlapping_write" a b p [] ∈ filter (λ d, dg_Severity d = SeverityError) diagnostics) as Hin
    by (by apply list_elem_of_filter).
  rewrite E in Hin. by apply elem_of_nil in Hin.
Qed.

(** ** Concrete graphs *)

Definition writes (path : string) : Contract := MkContract [field path AccessWrite false MergeReplace] false false.

Definition nodes_graph (ids : list string) (contracts : list (string * Contract)) : Graph :=
  MkGraph (list_to_map (map (λ id, (id, MkNode None)) ids)) (list_to_map (map (λ id, (id, id)) ids))
    (list_to_map contracts) ∅ ∅ ∅ ∅ [] "" "" DefaultGraphExecutionPolicy ∅ false.

(** A condition that does not hold. *)
Definition never : EdgeCondition :=
  MkCondition (MkSpec "" "custom" []) (Some (λ _, Ok (MkDecision false [] [] "" None))).

Definition build (g : Graph) (entry : string) (edges : list (string * string)) : result graph_error Graph :=
  let* g := foldM (λ g e, AddEdge g e.1 e.2) g edges in SetEntryPoint g entry.

(** [a] leads to [b] and [c], which write one path. *)
Definition fork_graph : Graph :=
  let g := nodes_graph ["a"; "b"; "c"] [("b", writes "shared.v"); ("c", writes "shared.v")] in
  match build g "a" [("a", "b"); ("a", "c"); ("b", EndNodeRef); ("c", EndNodeRef)] with Ok g => g | Err _ => g end.

(** [j] joins [p] and [y]; [y] goes on to [j] under a condition and to [z]
    otherwise; [j] and [z] write one path. *)
Definition held_graph : Graph :=
  let g := nodes_graph ["s"; "p"; "x"; "y"; "j"; "z"] [("j", writes "shared.v"); ("z", writes "shared.v")] in
  match (let* g := build g "s" [("s", "p"); ("s", "x"); ("p", "j"); ("x", "y"); ("y", "z"); ("j", EndNodeRef); ("z", EndNodeRef)] in
         AddResolvedConditionalEdge (H := permissive_engine) g "y" "j" never (MkContract [] true false)) with
  | Ok g => g
  | Err _ => g
  end.

(** The waves of a run whose nodes leave the state as it is. *)
Fixpoint run_waves `{SchemaEngine} `{TaskDigest} (fuel : nat) (g : Graph) (s : State) (tasks : list GraphTask) (pending : taskMap)
    : option (list (list string)) :=
  match fuel with
  | 0 => None
  | S fuel =>
    match activeTasks (newScheduledRunnable g) tasks with
    | Err _ => None
    | Ok [] => Some []
    | Ok wave =>
      match imapM (λ _ t, resolveNextTasks g t s) 0 wave with
      | Err _ => None
      | Ok next =>
        let '(ready, pending) := scheduleNext (newScheduledRunnable g) (concat next) pending in
        cons (map NodeID wave) <$> run_waves fuel g s ready pending
      end
    end
  end.

(** Joins escape the comparison of parallel writes.  A join the scheduler holds
    back is released beside nodes that are not in any frontier with it, since the
    analysis follows the edges without the rule for joins: on a graph the topology
    check and the analysis accept, a run executes [j] and [z] in one wave although
    both replace one path. *)
Theorem held_join_unchecked :
  let g := held_graph in
  validateTopology g = Ok tt ∧
  ContractDiagnosticsError (AnalyzeContractDiagnostics (contractAnalysisGraph g [])) = Ok tt ∧
  run_waves (H := permissive_engine) (H0 := sample_digest) 6 g NewState [NewStaticGraphTask "s" 0] ∅
    = Some [["s"]; ["p"; "x"]; ["y"]; ["j"; "z"]] ∧
  overlappingWritePath (writes "shared.v") (writes "shared.v") = Some ("shared.v", false) ∧
  nodeContracts g !! "j" = Some (writes "shared.v") ∧ nodeContracts g !! "z" = Some (writes "shared.v").
Proof. cbv zeta. split_and!; vm_compute; reflexivity. Qed.

(** Only the first pair of overlapping fields is looked at: the two appends hide
    the conflict of the second fields. *)
Example first_pair_hides :
  let c := MkContract [field "shared.a" AccessWrite false MergeAppend; field "shared.b" AccessWrite false MergeReplace] false false in
  overlappingWritePath c c = Some ("shared.a", true) ∧ overlappingWritePath (writes "shared.b") c = Some ("shared.b", false).
Proof. split; vm_compute; reflexivity. Qed.

Lemma conflicting_wave_refused_witness :
  ∃ errs, ContractDiagnosticsError (AnalyzeContractDiagnostics (contractAnalysisGraph fork_graph [])) = Err errs.
Proof.
  pose (engine := permissive_engine). pose (digest := sample_digest).
  assert (prompt_wave (H := engine) (H0 := digest) fork_graph ["b"; "c"]) as Hw.
  { pose (wave := map (λ t, with_wave_size t 2) (staticRouteTasks ["b"; "c"])).
    change ["b"; "c"] with (map NodeID wave).
    apply (prompt_next fork_graph [entryPoint fork_graph] (λ _, staticRouteTasks ["b"; "c"]) (staticRouteTasks ["b"; "c"])).
    - constructor.
    - intros n ->%list_elem_of_singleton. exists (NewStaticGraphTask "a" 0), NewState. split; vm_compute; reflexivity.
    - vm_compute. reflexivity.
    - vm_compute. reflexivity. }
  refine (proj2 (conflicting_wave_refused (H := engine) (H0 := digest) fork_graph [] ["b"; "c"] "b" "c"
    (writes "shared.v") (writes "shared.v") "shared.v" _ _ _ _ Hw _ _ _ _ _ _)).
  - intros source e s d He. exfalso. revert He. unfold conditional_of.
    replace (conditionalEdges fork_graph) with (∅ : gmap string (list conditionalEdge)) by (vm_compute; reflexivity).
    rewrite lookup_empty. intros He. by apply elem_of_nil in He.
  - vm_compute. discriminate.
  - vm_compute. discriminate.
  - apply Forall_forall, (bool_decide_unpack _). vm_compute. exact I.
  - left.
  - right. left.
  - reflexivity.
  - vm_compute. reflexivity.
  - vm_compute. reflexivity.
  - vm_compute. reflexivity.
Defined.
