(* ===== verification/InitialState.v ===== *)
(** * What a graph needs of its initial state

    [AnalyzeInitialStateRequirements] and the paths of the state fields of
    [internal/graphbuild/contract_analysis.go], and [ValidateInitialState] of
    [graph/contract_analysis.go]: the required reads by where they come from, and
    the check of a state an invocation brings. *)

From S2P Require Import Prelude GoStrings Paths Values Json StateTree Patch Contracts Errors Worklist ExecutionPolicy ContractAnalysis Dataflow Tasks Topology Routing Scheduler GraphContracts.

(** [stateFieldInitialPath]: the path a declared state field stands for. *)
Definition stateFieldInitialPath (name : string) : string :=
  let name := TrimSpace name in
  if bool_decide (name = "") then ""
  else match ParsePath name with
       | Ok p => PathString p
       | Err _ => if Contains dot name then ""
                  else match Shared [name] with Ok p => PathString p | Err _ => "" end
       end.

(** Over the names of the fields, whatever the order of the map. *)
Definition InitialContractPathsFromStateFields (names : list string) : list string :=
  sort_strings (remove_dups (filter (λ p, TrimSpace p ≠ "") (map stateFieldInitialPath names))).

(** ** The requirements *)

(** Whose read it is: a node's, or that of the conditions after it. *)
Inductive reader := ReadByNode | ReadByCondition.

#[export] Instance reader_eq_dec : EqDecision reader.
Proof. solve_decision. Defined.

(** [initialStateRequirementAccumulator]; the message says who lacks what. *)
Record requirement_acc := MkAcc {
  ra_nodes : gset string;
  ra_sources : gset string;
  ra_fieldType : string;
  ra_description : string;
  ra_message : option (reader * string * string);
}.

Record InitialStateRequirement := MkRequirement {
  ir_Path : string;
  ir_Nodes : list string;
  ir_Sources : list string;
  ir_Type : string;
  ir_Description : string;
  ir_Message : option (reader * string * string);
}.

Record InitialStateRequirements := MkRequirements {
  rq_Required : list InitialStateRequirement;
  rq_ProvidedByEntry : list InitialStateRequirement;
  rq_ProvidedByUpstream : list InitialStateRequirement;
  rq_Unresolved : list InitialStateRequirement;
  rq_Warnings : list ContractDiagnostic;
}.

Definition emptyInitialStateRequirements : InitialStateRequirements := MkRequirements [] [] [] [] [].

(** The four tables a read can be entered in. *)
Inductive origin := FromUpstream | FromEntry | FromRunInput | FromNowhere.

#[export] Instance origin_eq_dec : EqDecision origin.
Proof. solve_decision. Defined.

(** The [switch] of both loops. *)
Definition read_origin (s : contractReadSources) : origin :=
  if negb (bool_decide (rs_nodes s = [])) then FromUpstream
  else if negb (bool_decide (rs_entries s = [])) then FromEntry
  else if rs_runInput s then FromRunInput else FromNowhere.

(** A required read: who reads, at which node, which field, and its sources. *)
Record required_read := MkRead {
  rr_reader : reader;
  rr_node : string;
  rr_field : FieldAccess;
  rr_sources : contractReadSources;
}.

Definition rr_path (r : required_read) : string := PathString (f_path (rr_field r)).

(** The sources the case of the [switch] passes on. *)
Definition origin_sources (s : contractReadSources) : list string :=
  match read_origin s with FromUpstream => rs_nodes s | FromEntry => rs_entries s | _ => [] end.

Definition empty_acc : requirement_acc := MkAcc ∅ ∅ "" "" None.

Definition first_text (old new : string) : string := if bool_decide (old = "") then TrimSpace new else old.

Definition addInitialStateRequirement (target : gmap string requirement_acc) (r : required_read) : gmap string requirement_acc :=
  let path := rr_path r in
  if bool_decide (TrimSpace path = "") then target else
  let item := default empty_acc (target !! path) in
  <[path := MkAcc (if bool_decide (rr_node r = "") then ra_nodes item else {[rr_node r]} ∪ ra_nodes item)
              (list_to_set (filter (λ s, s ≠ "") (map TrimSpace (origin_sources (rr_sources r)))) ∪ ra_sources item)
              (first_text (ra_fieldType item) (f_type (rr_field r)))
              (first_text (ra_description item) (f_description (rr_field r)))
              (match ra_message item with
               | Some m => Some m
               | None => if bool_decide (read_origin (rr_sources r) = FromNowhere)
                         then Some (rr_reader r, rr_node r, path) else None
               end)]> target.

Definition sortedStringSet (s : gset string) : list string := sort_strings (elements s).

Definition initialStateRequirementList (m : gmap string requirement_acc) : list InitialStateRequirement :=
  omap (λ path, (λ i, MkRequirement path (sortedStringSet (ra_nodes i)) (sortedStringSet (ra_sources i))
                        (ra_fieldType i) (ra_description i) (ra_message i)) <$> (m !! path)) (sorted_keys m).

Section requirements.
Context (input : ContractAnalysisGraph).

(** The required reads of the contracts of the reachable nodes, in order. *)
Definition reads_of (who : reader) (contracts : gmap string Contract)
    (sources : string → string → contractReadSources) (reachable : list string) : list required_read :=
  concat (map (λ id,
    match contracts !! id with
    | Some c => if WildcardRead c then []
                else map (λ f, MkRead who id f (sources id (PathString (f_path f)))) (requiredReadFields c)
    | None => []
    end) reachable).

Definition required_reads (reachable : list string) : list required_read :=
  let ancestors := graphAncestors input reachable in
  reads_of ReadByNode (an_NodeContracts input)
    (λ id path, requiredReadSources input id path (default ∅ (ancestors !! id))) reachable
  ++ reads_of ReadByCondition (an_ConditionContracts input)
    (λ id path, requiredConditionReadSources input id path (default ∅ (ancestors !! id))) reachable.

(** The table of one origin. *)
Definition requirement_table (reads : list required_read) (o : origin) : gmap string requirement_acc :=
  fold_left addInitialStateRequirement (filter (λ r, read_origin (rr_sources r) = o) reads) ∅.

Definition contractAnalysisWarnings : list ContractDiagnostic :=
  filter (λ d, dg_Severity d = SeverityWarning) (AnalyzeContractDiagnostics input).

Definition AnalyzeInitialStateRequirements : InitialStateRequirements :=
  if analysis_empty input then emptyInitialStateRequirements else
  let reachable := reachableGraphNodes input in
  if bool_decide (reachable = []) then emptyInitialStateRequirements else
  let list_of o := initialStateRequirementList (requirement_table (required_reads reachable) o) in
  MkRequirements (list_of FromRunInput) (list_of FromEntry) (list_of FromUpstream) (list_of FromNowhere)
    contractAnalysisWarnings.
End requirements.

Definition with_provider (provider : option EntryStateProvider) (a : ContractAnalysisGraph) : ContractAnalysisGraph :=
  MkAnalysis (an_EntryPoint a) (an_EndNode a) (an_InitialStatePaths a) provider (an_Edges a) (an_ConditionalEdges a)
    (an_NodeContracts a) (an_ConditionContracts a).

Definition InitialStateRequirementsFor (g : Graph) (initialStatePaths : list string) (provider : option EntryStateProvider)
    : InitialStateRequirements :=
  AnalyzeInitialStateRequirements (with_provider provider (contractAnalysisGraph g initialStatePaths)).

(** The loop of [ValidateInitialState]: the paths the state lacks. *)
Fixpoint missing_paths (s : State) (seen : gset string) (l : list InitialStateRequirement) : list string :=
  match l with
  | [] => []
  | r :: l =>
    let path := TrimSpace (ir_Path r) in
    if bool_decide (path = "") then missing_paths s seen l
    else if bool_decide (path ∈ seen) then missing_paths s seen l
    else let seen := {[path]} ∪ seen in
         match ReadPath s path with Some _ => missing_paths s seen l | None => path :: missing_paths s seen l end
  end.

(** The error lists the missing paths. *)
Definition ValidateInitialState (g : Graph) (initialStatePaths : list string) (s : State) : result (list string) unit :=
  let requirements := InitialStateRequirementsFor g initialStatePaths None in
  match sort_strings (missing_paths s ∅ (rq_Required requirements ++ rq_Unresolved requirements)) with
  | [] => Ok tt
  | paths => Err paths
  end.

(** ** The tables *)

Lemma add_requirement_dom m r path :
  path ∈ dom (addInitialStateRequirement m r) ↔ path ∈ dom m ∨ (path = rr_path r ∧ TrimSpace (rr_path r) ≠ "").
Proof.
  unfold addInitialStateRequirement. case_bool_decide; [tauto|]. rewrite dom_insert. set_solver.
Qed.

Lemma requirement_table_dom reads o path :
  path ∈ dom (requirement_table reads o) ↔
  TrimSpace path ≠ "" ∧ ∃ r, r ∈ reads ∧ read_origin (rr_sources r) = o ∧ path = rr_path r.
Proof.
  assert (∀ l m, path ∈ dom (fold_left addInitialStateRequirement l m) ↔
    path ∈ dom m ∨ TrimSpace path ≠ "" ∧ ∃ r, r ∈ l ∧ path = rr_path r) as Hfold.
  { induction l as [|r l IH]; intros m; simpl.
    - setoid_rewrite elem_of_nil. naive_solver.
    - rewrite IH, add_requirement_dom. setoid_rewrite elem_of_cons. naive_solver. }
  unfold requirement_table. rewrite Hfold, dom_empty_L. setoid_rewrite list_elem_of_filter. set_solver.
Qed.

Lemma requirement_list_paths m path :
  path ∈ map ir_Path (initialStateRequirementList m) ↔ path ∈ dom m.
Proof.
  unfold initialStateRequirementList. rewrite elem_of_dom, list_elem_of_fmap. split.
  - intros (q & -> & (k & Hk & Hq)%list_elem_of_omap). destruct (m !! k) eqn:E; [|done]. injection Hq as <-. simpl. by rewrite E.
  - intros [i Hi]. eexists. split; [|apply list_elem_of_omap; exists path; split; [by apply elem_of_sorted_keys; eexists|by rewrite Hi]].
    done.
Qed.

Lemma missing_paths_nil s seen l :
  (∀ path, path ∈ seen → is_Some (ReadPath s path)) →
  missing_paths s seen l = [] ↔ ∀ path, path ∈ map ir_Path l → TrimSpace path ≠ "" → is_Some (ReadPath s (TrimSpace path)).
Proof.
  revert seen. induction l as [|r l IH]; intros seen Hseen; cbn [missing_paths map].
  { split; [by intros _ path ?%elem_of_nil|done]. }
  setoid_rewrite elem_of_cons. case_bool_decide as He; [rewrite IH by done; naive_solver|].
  case_bool_decide as Hs.
  { rewrite IH by done. apply Hseen in Hs. naive_solver. }
  destruct (ReadPath s (TrimSpace (ir_Path r))) as [v|] eqn:Hv.
  - rewrite IH; [naive_solver|]. intros path [->%elem_of_singleton|Hp]%elem_of_union; [by rewrite Hv|by apply Hseen].
  - split; [done|]. intros Hall. destruct (Hall (ir_Path r) (or_introl eq_refl) He) as [w Hw]. congruence.
Qed.

Lemma elem_of_reads_of who contracts sources reachable r :
  r ∈ reads_of who contracts sources reachable ↔
  ∃ id c f, id ∈ reachable ∧ contracts !! id = Some c ∧ WildcardRead c = false ∧ f ∈ requiredReadFields c ∧
    r = MkRead who id f (sources id (PathString (f_path f))).
Proof.
  unfold reads_of. rewrite elem_of_concat_map. split.
  - intros (id & Hid & Hr). destruct (contracts !! id) as [c|] eqn:Hc; [|by apply elem_of_nil in Hr].
    destruct (WildcardRead c) eqn:Hw; [by apply elem_of_nil in Hr|].
    apply list_elem_of_fmap in Hr as (f & -> & Hf). by exists id, c, f.
  - intros (id & c & f & Hid & Hc & Hw & Hf & ->). exists id. split; [done|]. rewrite Hc, Hw.
    apply list_elem_of_fmap. by exists f.
Qed.

(** ** The check of the initial state *)

(** What the run must bring: a path that a reachable node, or the conditions after
    it, must read, and that neither the node nor one upstream of it writes. *)
Definition must_bring (input : ContractAnalysisGraph) (path : string) : Prop :=
  ∃ id c f, entry_reaches input id ∧ WildcardRead c = false ∧ f ∈ requiredReadFields c ∧ path = PathString (f_path f) ∧
    ((an_NodeContracts input !! id = Some c ∧
      ¬ node_provides input (λ c, selfRuntimePathProvidesRead id c path) id path) ∨
     (an_ConditionContracts input !! id = Some c ∧
      ¬ node_provides input (λ c, contractProvidesRead c path) id path)).

Lemma read_origin_input s :
  rs_entries s = [] → (read_origin s = FromRunInput ∨ read_origin s = FromNowhere) ↔ rs_nodes s = [].
Proof.
  intros He. unfold read_origin. rewrite He. destruct (rs_nodes s); simpl.
  - destruct (rs_runInput s); split; auto.
  - split; [by intros [|]|done].
Qed.

Lemma required_reads_brought input path :
  entry_live input → an_EntryProvider input = None →
  (∃ r, r ∈ required_reads input (reachableGraphNodes input) ∧
     (read_origin (rr_sources r) = FromRunInput ∨ read_origin (rr_sources r) = FromNowhere) ∧ path = rr_path r) ↔
  must_bring input path.
Proof.
  intros He Hprov. unfold required_reads, must_bring. cbv zeta. setoid_rewrite elem_of_app. setoid_rewrite elem_of_reads_of.
  assert (∀ self id p anc, rs_entries (read_sources input self id p anc) = []) as Hent.
  { intros self id p anc. unfold read_sources, appendEntryProviderSource. simpl. by rewrite Hprov. }
  split.
  - intros (r & Hr & Ho & ->).
    destruct Hr as [(id & c & f & Hid & Hc & Hw & Hf & ->)|(id & c & f & Hid & Hc & Hw & Hf & ->)];
      apply elem_of_reachable in Hid; exists id, c, f; (split_and!; [done|done|done|done|]); [left|right]; (split; [done|]);
      unfold rr_path; cbn [rr_field rr_sources] in *;
      apply read_origin_input in Ho; try apply Hent; intros Hn; apply read_sources_nodes in Hn; done.
  - intros (id & c & f & Hid & Hw & Hf & -> & [[Hc Hn]|[Hc Hn]]); rewrite <-read_sources_nodes in Hn by done;
      apply dec_stable in Hn; apply elem_of_reachable in Hid.
    + eexists. split_and!; [left; by exists id, c, f|apply read_origin_input; [apply Hent|exact Hn]|done].
    + eexists. split_and!; [right; by exists id, c, f|apply read_origin_input; [apply Hent|exact Hn]|done].
Qed.

(** C7: [ValidateInitialState] is exact: it accepts a state exactly when the state
    has a value at every path that some reachable node, or a condition after it,
    must read and that no node on a way from the entry point to the reader writes;
    a reader with a wildcard read requires nothing.
    Otherwise it lists paths the state lacks. *)
Theorem ValidateInitialState_exact g initial s :
  entryPoint g ≠ endNodeID →
  ValidateInitialState g initial s = Ok tt ↔
  ∀ path, must_bring (contractAnalysisGraph g initial) path → TrimSpace path ≠ "" → is_Some (ReadPath s (TrimSpace path)).
Proof.
  intros Hend. set (input := contractAnalysisGraph g initial).
  assert (ValidateInitialState g initial s = Ok tt ↔
    missing_paths s ∅ (rq_Required (AnalyzeInitialStateRequirements input) ++ rq_Unresolved (AnalyzeInitialStateRequirements input)) = []) as ->.
  { unfold ValidateInitialState. change (InitialStateRequirementsFor g initial None) with (AnalyzeInitialStateRequirements input). cbv zeta.
    set (l := missing_paths _ _ _). split; [|by intros ->].
    destruct (sort_strings l) as [|x y] eqn:E; [|done]. intros _. apply Permutation_nil. rewrite <-E. unfold sort_strings.
    apply stable_sort_perm. }
  rewrite missing_paths_nil by (by intros path ?%elem_of_empty).
  assert (∀ path, TrimSpace path ≠ "" →
    path ∈ map ir_Path (rq_Required (AnalyzeInitialStateRequirements input) ++ rq_Unresolved (AnalyzeInitialStateRequirements input)) ↔
    must_bring input path) as Hiff; [|by split; intros HH path Hp Ht; apply HH; try apply Hiff].
  intros path Ht. unfold AnalyzeInitialStateRequirements.
  assert (must_bring input path → analysis_empty input = false ∧ reachableGraphNodes input ≠ []) as Hne.
  { intros (id & c & f & Hid & _ & _ & _ & Hc). apply (analysis_nonempty input id Hid).
    destruct Hc as [[Hc _]|[Hc _]]; [left|right]; by eexists. }
  destruct (analysis_empty input) eqn:Ha.
  { simpl. split; [by intros ?%elem_of_nil|]. intros Hb. by destruct (Hne Hb). }
  cbv zeta. case_bool_decide as Hr; [simpl; split; [by intros ?%elem_of_nil|intros Hb; by destruct (Hne Hb)]|].
  cbn [rq_Required rq_Unresolved]. rewrite map_app, elem_of_app, !requirement_list_paths, !requirement_table_dom.
  assert (entry_live input) as Hlive.
  { assert (entryPoint g ≠ "") as Hn by (intros E; apply Hr; unfold reachableGraphNodes; rewrite bool_decide_true; done).
    unfold entry_live, isAnalysisEndTarget. cbn. rewrite !bool_decide_false by done. done. }
  rewrite <-(required_reads_brought input path Hlive eq_refl). naive_solver.
Qed.

(** ** A concrete graph: [b] reads what [a] writes, and what the run must bring. *)
Definition read_graph : Graph :=
  let g := nodes_graph ["a"; "b"]
    [("a", writes "shared.in");
     ("b", MkContract [field "shared.in" AccessRead true MergeDefault; field "shared.request" AccessRead true MergeDefault] false false)] in
  match build g "a" [("a", "b"); ("b", EndNodeRef)] with Ok g => g | Err _ => g end.

Lemma ValidateInitialState_exact_witness :
  ValidateInitialState read_graph [] NewState = Err ["shared.request"] ∧
  ¬ (∀ path, must_bring (contractAnalysisGraph read_graph []) path → TrimSpace path ≠ "" →
       is_Some (ReadPath NewState (TrimSpace path))).
Proof.
  split; [vm_compute; reflexivity|]. intros Hall.
  assert (entryPoint read_graph ≠ endNodeID) as Hend by (vm_compute; discriminate).
  pose proof (proj2 (ValidateInitialState_exact read_graph [] NewState Hend) Hall) as Hok.
  vm_compute in Hok. discriminate Hok.
Defined.
