(* ===== verification/Limiter.v ===== *)
(** * The concurrency limiter: [core/concurrency.go]

    The limiter's mutex makes each of its four critical sections one atomic
    step; the goroutines that use it are clients of a transition system, which
    interleaves the sections in any order and cancels a wait at any time. *)

From S2P Require Import Prelude.

(** A waiter is the channel it sleeps on, a number here; [make] returns the next
    unused one. *)
Record Limiter := MkLimiter {
  limit : nat;
  active : nat;
  waiters : list nat;
  next_channel : nat;
}.

Definition maxConcurrencyLimiterSize : Z := 100000.

(** [NewConcurrencyLimiter]: no limiter for a limit that is not positive. *)
Definition NewConcurrencyLimiter (n : Z) : option Limiter :=
  if (n <=? 0)%Z then None
  else Some (MkLimiter (Z.to_nat (Z.min n maxConcurrencyLimiterSize)) 0 [] 0).

Definition TryAcquire (l : Limiter) : Limiter * bool :=
  if limit l <=? active l then (l, false)
  else (MkLimiter (limit l) (S (active l)) (waiters l) (next_channel l), true).

(** [acquireWaiter]: a permit at once, or the channel to wait on. *)
Definition acquireWaiter (l : Limiter) : Limiter * option nat :=
  if active l <? limit l
  then (MkLimiter (limit l) (S (active l)) (waiters l) (next_channel l), None)
  else (MkLimiter (limit l) (active l) (waiters l ++ [next_channel l]) (S (next_channel l)),
        Some (next_channel l)).

Fixpoint remove_first (w : nat) (l : list nat) : option (list nat) :=
  match l with
  | [] => None
  | x :: l => if bool_decide (x = w) then Some l else cons x <$> remove_first w l
  end.

Definition cancelWaiter (l : Limiter) (w : nat) : Limiter * bool :=
  match remove_first w (waiters l) with
  | Some ws => (MkLimiter (limit l) (active l) ws (next_channel l), true)
  | None => (l, false)
  end.

(** [release]: the permit goes to the first waiter, whose channel is closed, or
    back to the pool. *)
Definition release (l : Limiter) : Limiter * option nat :=
  match waiters l with
  | [] => (MkLimiter (limit l) (pred (active l)) [] (next_channel l), None)
  | w :: ws => (MkLimiter (limit l) (active l) ws (next_channel l), Some w)
  end.

(** ** Clients *)

(** A goroutine: outside, asleep on a channel in [Acquire]'s [select], past a
    failed [cancelWaiter] and about to give the permit back, or inside. *)
Inductive phase := Idle | Waiting (w : nat) | Refunding | Holding.

#[export] Instance phase_eq_dec : EqDecision phase.
Proof. solve_decision. Defined.

Record System := MkSystem { limiter : Limiter; clients : gmap nat phase; closed : gset nat }.

Definition set_client (s : System) (l : Limiter) (c : nat) (p : phase) : System :=
  MkSystem l (<[c := p]> (clients s)) (closed s).

(** Closing the channel a release hands the permit to. *)
Definition signal (s : System) (w : option nat) : System :=
  match w with
  | Some w => MkSystem (limiter s) (clients s) ({[w]} ∪ closed s)
  | None => s
  end.

Inductive step (s : System) : System → Prop :=
  | step_try_ok c l :
      clients s !! c = Some Idle → TryAcquire (limiter s) = (l, true) →
      step s (set_client s l c Holding)
  | step_acquire c l :
      clients s !! c = Some Idle → acquireWaiter (limiter s) = (l, None) →
      step s (set_client s l c Holding)
  | step_wait c l w :
      clients s !! c = Some Idle → acquireWaiter (limiter s) = (l, Some w) →
      step s (set_client s l c (Waiting w))
  | step_wake c w :
      clients s !! c = Some (Waiting w) → w ∈ closed s →
      step s (set_client s (limiter s) c Holding)
  | step_cancel c w l :
      clients s !! c = Some (Waiting w) → cancelWaiter (limiter s) w = (l, true) →
      step s (set_client s l c Idle)
  | step_cancel_late c w l :
      clients s !! c = Some (Waiting w) → cancelWaiter (limiter s) w = (l, false) →
      step s (set_client s l c Refunding)
  | step_release c l w :
      clients s !! c = Some Holding → release (limiter s) = (l, w) →
      step s (signal (set_client s l c Idle) w)
  | step_refund c l w :
      clients s !! c = Some Refunding → release (limiter s) = (l, w) →
      step s (signal (set_client s l c Idle) w).

(** A fresh limiter and clients that have not called it. *)
Definition initial (n : nat) (cs : gset nat) : System :=
  MkSystem (MkLimiter n 0 [] 0) (gset_to_gmap Idle cs) ∅.

(** ** Counting permits *)

Definition count (P : phase → bool) (m : gmap nat phase) : nat :=
  size (filter (λ kv, P kv.2 = true) m).

Lemma count_insert_fresh P m c p :
  m !! c = None → count P (<[c := p]> m) = Nat.b2n (P p) + count P m.
Proof.
  intros Hc. unfold count. destruct (P p) eqn:HP; simpl.
  - rewrite map_filter_insert_True by done. apply map_size_insert_None.
    rewrite map_lookup_filter_None. by left.
  - rewrite map_filter_insert_False by (simpl; congruence).
    by rewrite delete_id.
Qed.

Lemma count_ext P Q m :
  (∀ k p, m !! k = Some p → P p = Q p) → count P m = count Q m.
Proof.
  intros H. unfold count. f_equal. apply map_filter_ext. intros k p Hk. simpl.
  by rewrite (H k p Hk).
Qed.

Lemma count_update P Q m c p q :
  m !! c = Some p →
  (∀ k x, k ≠ c → m !! k = Some x → P x = Q x) →
  count Q (<[c := q]> m) + Nat.b2n (P p) = count P m + Nat.b2n (Q q).
Proof.
  intros Hc Hext.
  rewrite <-(insert_delete_id m c p Hc) at 2. rewrite <-insert_delete_eq.
  rewrite !count_insert_fresh by apply lookup_delete_eq.
  rewrite (count_ext P Q (delete c m)); [lia|].
  intros k x Hk. apply lookup_delete_Some in Hk as [Hne Hk]. by apply (Hext k).
Qed.

(** ** The invariant *)

(** The clients a permit is reserved for: those inside, those about to give one
    back, and the sleepers already taken off the queue. *)
Definition permit (ws : list nat) (p : phase) : bool :=
  match p with
  | Holding | Refunding => true
  | Waiting w => negb (bool_decide (w ∈ ws))
  | Idle => false
  end.

Record inv (n : nat) (s : System) : Prop := {
  i_limit : limit (limiter s) = n;
  i_count : count (permit (waiters (limiter s))) (clients s) = active (limiter s);
  i_bound : active (limiter s) ≤ n;
  i_full : waiters (limiter s) ≠ [] → active (limiter s) = n;
  i_nodup : NoDup (waiters (limiter s));
  i_queued : ∀ w, w ∈ waiters (limiter s) → ∃ c, clients s !! c = Some (Waiting w);
  i_unique : ∀ c d w, clients s !! c = Some (Waiting w) → clients s !! d = Some (Waiting w) → c = d;
  i_fresh : ∀ c w, clients s !! c = Some (Waiting w) → w < next_channel (limiter s);
  i_closed_fresh : ∀ w, w ∈ closed s → w < next_channel (limiter s);
  i_closed : ∀ c w, clients s !! c = Some (Waiting w) → w ∈ closed s ↔ w ∉ waiters (limiter s);
}.

Lemma remove_first_Some w l l' :
  remove_first w l = Some l' → ∃ l1 l2, l = l1 ++ w :: l2 ∧ l' = l1 ++ l2.
Proof.
  revert l'. induction l as [|x l IH]; intros l'; simpl; [done|].
  case_bool_decide as Hx; [intros [= <-]; subst; by exists [], l|].
  destruct (remove_first w l) as [l0|]; [|done]. intros [= <-].
  destruct (IH l0 eq_refl) as (l1 & l2 & -> & ->). by exists (x :: l1), l2.
Qed.

Lemma remove_first_None w l : remove_first w l = None → w ∉ l.
Proof.
  induction l as [|x l IH]; simpl; [by intros _ ?%elem_of_nil|].
  case_bool_decide as Hx; [done|]. destruct (remove_first w l); [done|].
  intros _ [->|Hin]%elem_of_cons; [done|by apply IH].
Qed.

Lemma inv_initial n cs : inv n (initial n cs).
Proof.
  assert (∀ c p, gset_to_gmap Idle cs !! c = Some p → p = Idle) as Hidle.
  { intros c p [_ Hp]%lookup_gset_to_gmap_Some. done. }
  split; simpl.
  - done.
  - rewrite (count_ext _ (λ _, false)); [|by intros c p ->%Hidle].
    unfold count. apply map_size_empty_iff, map_empty. intros k.
    apply map_lookup_filter_None. by right.
  - lia.
  - done.
  - constructor.
  - by intros w ?%elem_of_nil.
  - by intros c d w ?%Hidle.
  - by intros c w ?%Hidle.
  - by intros w ?%elem_of_empty.
  - by intros c w ?%Hidle.
Qed.

(** A client that leaves or joins the permits while the queue stays as it is. *)
Lemma inv_move n s c p q a :
  inv n s → clients s !! c = Some p →
  (∀ w, q ≠ Waiting w) → (∀ w, p = Waiting w → w ∉ waiters (limiter s)) →
  a + Nat.b2n (permit (waiters (limiter s)) p)
    = active (limiter s) + Nat.b2n (permit (waiters (limiter s)) q) →
  a ≤ n → (waiters (limiter s) ≠ [] → a = n) →
  inv n (set_client s (MkLimiter (limit (limiter s)) a (waiters (limiter s))
           (next_channel (limiter s))) c q).
Proof.
  intros [Hl Hc Hb Hf Hn Hq Hu Hfr Hcf Hcl] Hp Hnq Hpw Ha Han Hfull.
  assert (∀ d w, <[c := q]> (clients s) !! d = Some (Waiting w) → clients s !! d = Some (Waiting w))
    as Hback.
  { intros d w. rewrite lookup_insert_Some. intros [[<- Hw]|[_ Hw]]; [|done]. by destruct (Hnq w). }
  split; simpl; try done.
  - pose proof (count_update (permit (waiters (limiter s))) (permit (waiters (limiter s)))
      (clients s) c p q Hp ltac:(done)) as Hup. rewrite Hc in Hup. lia.
  - intros w Hw. destruct (Hq w Hw) as [d Hd]. exists d.
    rewrite lookup_insert_ne; [done|]. intros ->. rewrite Hp in Hd.
    injection Hd as ->. by destruct (Hpw w).
  - intros d e w Hd%Hback He%Hback. by apply (Hu d e w).
  - intros d w Hd%Hback. by apply (Hfr d).
  - intros d w Hd%Hback. by apply (Hcl d).
Qed.

Lemma inv_release n s c p l w :
  inv n s → clients s !! c = Some p → p = Holding ∨ p = Refunding →
  release (limiter s) = (l, w) → inv n (signal (set_client s l c Idle) w).
Proof.
  intros Hinv Hc Hp Hr. pose proof Hinv as [Hl Hct Hb Hf Hn Hq Hu Hfr Hcf Hcl].
  assert (permit (waiters (limiter s)) p = true) as Hperm by (by destruct Hp as [->| ->]).
  assert (∀ w, p ≠ Waiting w) as Hnw by (by destruct Hp as [->| ->]).
  unfold release in Hr. destruct (waiters (limiter s)) as [|w0 ws] eqn:Hws; injection Hr as <- <-.
  - simpl. assert (0 < active (limiter s)) as Hpos.
    { pose proof (count_update (permit []) (permit []) (clients s) c p Idle Hc ltac:(done)) as Hup.
      rewrite Hct, Hperm in Hup. simpl in Hup. lia. }
    rewrite <-Hws.
    refine (inv_move n s c p Idle (pred (active (limiter s))) Hinv Hc _ _ _ _ _).
    + done.
    + intros w Hw. by destruct (Hnw w).
    + rewrite Hws, Hperm. simpl. lia.
    + lia.
    + by rewrite Hws.
  - destruct (Hq w0) as [d Hd]; [left|].
    assert (d ≠ c) as Hdc by (intros ->; rewrite Hc in Hd; injection Hd as ->; by apply (Hnw w0)).
    apply NoDup_cons in Hn as [Hw0 Hn].
    assert (∀ e w, <[c := Idle]> (clients s) !! e = Some (Waiting w) → clients s !! e = Some (Waiting w))
      as Hback.
    { intros e w. rewrite lookup_insert_Some. by intros [[_ ?]|[_ ?]]. }
    split; simpl; try done.
    + pose proof (count_update (permit (w0 :: ws)) (permit (w0 :: ws)) (clients s) c p Idle Hc
        ltac:(done)) as Hup1.
      assert (<[c := Idle]> (clients s) !! d = Some (Waiting w0)) as Hd'
        by (by rewrite lookup_insert_ne).
      pose proof (count_update (permit (w0 :: ws)) (permit ws) (<[c := Idle]> (clients s)) d
        (Waiting w0) (Waiting w0) Hd') as Hup2.
      rewrite (insert_id (<[c := Idle]> (clients s)) d _ Hd') in Hup2.
      simpl in Hup1, Hup2. rewrite Hct, Hperm in Hup1.
      rewrite (bool_decide_true (w0 ∈ w0 :: ws)), (bool_decide_false (w0 ∈ ws)) in Hup2
        by (done || left).
      simpl in Hup1, Hup2.
      assert (∀ k x, k ≠ d → <[c := Idle]> (clients s) !! k = Some x →
        permit (w0 :: ws) x = permit ws x) as Hsame.
      { intros k x Hk Hx. destruct x as [|w| |]; try done. simpl. f_equal.
        apply bool_decide_ext. rewrite elem_of_cons. split; [|by right].
        intros [->|]; [|done]. destruct Hk. apply (Hu k d w0); [by apply Hback|done]. }
      specialize (Hup2 Hsame). lia.
    + intros _. by apply Hf.
    + intros w Hw. destruct (Hq w) as [e He]; [by right|]. exists e.
      rewrite lookup_insert_ne; [done|]. intros ->. rewrite Hc in He. injection He as ->.
      by apply (Hnw w).
    + intros e f w He%Hback Hf'%Hback. by apply (Hu e f w).
    + intros e w He%Hback. by apply (Hfr e).
    + intros w [->%elem_of_singleton|Hw]%elem_of_union; [by apply (Hfr d)|by apply Hcf].
    + intros e w He%Hback. rewrite elem_of_union, elem_of_singleton, (Hcl e w He).
      rewrite not_elem_of_cons. destruct (decide (w = w0)) as [->|]; tauto.
Qed.

Lemma inv_step n s s' : inv n s → step s s' → inv n s'.
Proof.
  intros Hinv Hstep. pose proof Hinv as [Hl Hct Hb Hf Hn Hq Hu Hfr Hcf Hcl].
  destruct Hstep as [c l Hc Ht|c l Hc Ht|c l w Hc Ht|c w Hc Hw|c w l Hc Ht|c w l Hc Ht|c l w Hc Ht|c l w Hc Ht].
  - unfold TryAcquire in Ht. destruct (limit (limiter s) <=? active (limiter s)) eqn:Hle; [done|].
    apply Nat.leb_gt in Hle. injection Ht as <-.
    apply (inv_move n s c Idle Holding); try done; simpl; [lia|lia|].
    intros Hne. specialize (Hf Hne). lia.
  - unfold acquireWaiter in Ht. destruct (active (limiter s) <? limit (limiter s)) eqn:Hlt; [|done].
    apply Nat.ltb_lt in Hlt. injection Ht as <-.
    apply (inv_move n s c Idle Holding); try done; simpl; [lia|lia|].
    intros Hne. specialize (Hf Hne). lia.
  - unfold acquireWaiter in Ht. destruct (active (limiter s) <? limit (limiter s)) eqn:Hlt; [done|].
    apply Nat.ltb_ge in Hlt. injection Ht as <- <-.
    assert (∀ x, x ∈ waiters (limiter s) → x < next_channel (limiter s)) as Hold.
    { intros x Hx. destruct (Hq x Hx) as [d Hd]. by apply (Hfr d). }
    split; simpl; try done.
    + pose proof (count_update (permit (waiters (limiter s)))
        (permit (waiters (limiter s) ++ [next_channel (limiter s)])) (clients s) c Idle
        (Waiting (next_channel (limiter s))) Hc) as Hup.
      simpl in Hup. rewrite (bool_decide_true (next_channel _ ∈ _)) in Hup
        by (apply elem_of_app; right; left).
      rewrite Hct in Hup. simpl in Hup. rewrite !Nat.add_0_r in Hup. apply Hup.
      intros k x _ Hx. destruct x as [|w| |]; try done. simpl. f_equal. apply bool_decide_ext.
      rewrite elem_of_app, list_elem_of_singleton. specialize (Hfr k w Hx). naive_solver lia.
    + intros _. lia.
    + apply NoDup_app. split_and!; [done| |apply NoDup_singleton].
      intros x Hx ->%list_elem_of_singleton. specialize (Hold _ Hx). lia.
    + intros w [Hw|Hw]%elem_of_app.
      * destruct (Hq w Hw) as [d Hd]. exists d. rewrite lookup_insert_ne; [done|].
        intros ->. congruence.
      * apply list_elem_of_singleton in Hw as ->. exists c. by rewrite lookup_insert_eq.
    + intros d e w. rewrite !lookup_insert_Some.
      intros [[<- [= <-]]|[Hd Hdw]] [[<- ?]|[He Hew]]; try done.
      * specialize (Hfr _ _ Hew). lia.
      * simplify_eq. specialize (Hfr _ _ Hdw). lia.
      * by apply (Hu d e w).
    + intros d w. rewrite lookup_insert_Some. intros [[_ [= <-]]|[_ Hd]]; [lia|].
      specialize (Hfr d w Hd). lia.
    + intros w Hw. specialize (Hcf w Hw). lia.
    + intros d w. rewrite lookup_insert_Some, elem_of_app, list_elem_of_singleton.
      intros [[_ [= <-]]|[_ Hd]].
      * split; [|tauto]. intros Hw. specialize (Hcf _ Hw). lia.
      * rewrite (Hcl d w Hd). specialize (Hfr d w Hd). naive_solver lia.
  - destruct (limiter s) as [li ac wa ne] eqn:Hls. simpl in *.
    pose proof (inv_move n s c (Waiting w) Holding ac) as Hm. rewrite Hls in Hm. simpl in Hm.
    apply Hm; try done.
    + intros w' [= <-]. by apply (Hcl c).
    + rewrite bool_decide_false by (by apply (Hcl c)). simpl. lia.
  - unfold cancelWaiter in Ht. destruct (remove_first w (waiters (limiter s))) as [ws|] eqn:Hrm; [|done].
    injection Ht as <-. apply remove_first_Some in Hrm as (l1 & l2 & Hws & ->).
    assert (∀ x, x ∈ l1 ++ l2 ↔ x ∈ waiters (limiter s) ∧ x ≠ w) as Hmem.
    { rewrite Hws, <-Permutation_middle in Hn. apply NoDup_cons in Hn as [Hw _]. intros x.
      rewrite Hws. rewrite !elem_of_app in *. rewrite elem_of_cons.
      destruct (decide (x = w)) as [->|]; tauto. }
    assert (∀ d x, <[c := Idle]> (clients s) !! d = Some (Waiting x) →
      clients s !! d = Some (Waiting x) ∧ x ≠ w) as Hback.
    { intros d x. rewrite lookup_insert_Some. intros [[_ ?]|[Hne Hd]]; [done|]. split; [done|].
      intros ->. by destruct Hne; apply (Hu c d w). }
    split; simpl; try done.
    + pose proof (count_update (permit (waiters (limiter s))) (permit (l1 ++ l2)) (clients s) c
        (Waiting w) Idle Hc) as Hup. simpl in Hup.
      rewrite (bool_decide_true (w ∈ waiters _)), Hct in Hup
        by (rewrite Hws; apply elem_of_app; right; left).
      simpl in Hup. rewrite !Nat.add_0_r in Hup. apply Hup.
      intros k x Hk Hx. destruct x as [|x| |]; try done. simpl. f_equal. apply bool_decide_ext.
      rewrite Hmem. split; [|tauto]. intros Hin. split; [done|]. intros ->.
      by destruct Hk; apply (Hu k c w).
    + intros Hne. apply Hf. rewrite Hws. by destruct l1.
    + rewrite Hws, <-Permutation_middle in Hn. by apply NoDup_cons in Hn as [_ Hn].
    + intros x [Hx Hxw]%Hmem. destruct (Hq x Hx) as [d Hd]. exists d.
      rewrite lookup_insert_ne; [done|]. intros ->. congruence.
    + intros d e x [Hd _]%Hback [He _]%Hback. by apply (Hu d e x).
    + intros d x [Hd _]%Hback. by apply (Hfr d).
    + intros d x [Hd Hxw]%Hback. rewrite (Hcl d x Hd), Hmem. tauto.
  - unfold cancelWaiter in Ht. destruct (remove_first w (waiters (limiter s))) as [ws|] eqn:Hrm; [done|].
    injection Ht as <-. apply remove_first_None in Hrm.
    destruct (limiter s) as [li ac wa ne] eqn:Hls. simpl in *.
    pose proof (inv_move n s c (Waiting w) Refunding ac) as Hm. rewrite Hls in Hm. simpl in Hm.
    apply Hm; try done.
    + by intros w' [= <-].
    + rewrite bool_decide_false by done. simpl. lia.
  - apply (inv_release n s c Holding); auto.
  - apply (inv_release n s c Refunding); auto.
Qed.

Lemma inv_reachable n cs s : rtc step (initial n cs) s → inv n s.
Proof.
  intros Hs. remember (initial n cs) as s0 eqn:H0.
  assert (inv n s0) as Hinv by (subst; apply inv_initial). clear H0.
  induction Hs as [s|s1 s2 s3 H12 _ IH]; [done|]. apply IH. by apply (inv_step n s1).
Qed.

(** ** Properties *)

Lemma count_le P Q m : (∀ p, P p = true → Q p = true) → count P m ≤ count Q m.
Proof.
  intros HPQ. unfold count. apply map_subseteq_size. apply map_subseteq_spec.
  intros k p. rewrite !map_lookup_filter_Some. simpl. naive_solver.
Qed.

Lemma count_pos P m : 0 < count P m → ∃ c p, m !! c = Some p ∧ P p = true.
Proof.
  unfold count. intros Hpos.
  destruct (map_choose (filter (λ kv, P kv.2 = true) m)) as (c & p & Hc).
  - intros Hemp. rewrite Hemp, map_size_empty in Hpos. lia.
  - apply map_lookup_filter_Some in Hc. eauto.
Qed.

(** C10: Mutual exclusion: whatever the interleaving of acquisitions, waits,
    cancellations and releases, never more than the limit of clients are inside
    at once, and the active count is exactly the permits handed out. *)
Theorem limiter_bound n cs s :
  rtc step (initial n cs) s →
  count (λ p, bool_decide (p = Holding)) (clients s) ≤ n ∧
  active (limiter s) = count (permit (waiters (limiter s))) (clients s) ∧
  active (limiter s) ≤ n.
Proof.
  intros [_ Hc Hb _ _ _ _ _ _ _]%inv_reachable. split_and!; [|done|done].
  assert (count (λ p, bool_decide (p = Holding)) (clients s)
    ≤ count (permit (waiters (limiter s))) (clients s)); [|lia].
  apply count_le. by intros p ->%bool_decide_eq_true.
Qed.

(** A step of a client already in the limiter: waking, leaving or refunding. *)
Definition progress (s : System) : Prop :=
  ∃ c p s', clients s !! c = Some p ∧ step s s' ∧
    (p = Holding ∨ p = Refunding ∨ ∃ w, p = Waiting w ∧ w ∈ closed s).

(** C11: No lost wakeup: in every reachable state a sleeping client either has
    been signalled or is queued while every permit is taken, and then some
    client that owns a permit can move; no permit is lost to a canceled wait. *)
Theorem limiter_no_lost_wakeup n cs s c w :
  0 < n → rtc step (initial n cs) s → clients s !! c = Some (Waiting w) →
  (w ∈ closed s ∨ (w ∈ waiters (limiter s) ∧ active (limiter s) = n)) ∧ progress s.
Proof.
  intros Hpos Hs Hc. pose proof (inv_reachable n cs s Hs) as [Hl Hct Hb Hf Hn Hq Hu Hfr Hcf Hcl].
  assert (w ∈ closed s ∨ (w ∈ waiters (limiter s) ∧ active (limiter s) = n)) as Hcase.
  { destruct (decide (w ∈ waiters (limiter s))) as [Hw|Hw]; [right|left; by apply (Hcl c)].
    split; [done|]. apply Hf. intros Hnil. rewrite Hnil in Hw. by apply elem_of_nil in Hw. }
  split; [done|]. destruct Hcase as [Hw|[_ Ha]].
  { exists c, (Waiting w). eexists. split; [done|]. split; [by eapply step_wake|]. eauto. }
  destruct (count_pos (permit (waiters (limiter s))) (clients s)) as (d & p & Hd & Hp); [lia|].
  destruct (release (limiter s)) as [l v] eqn:Hr.
  exists d, p. destruct p as [|w'| |]; [done| | |].
  - simpl in Hp. apply negb_true_iff, bool_decide_eq_false in Hp.
    assert (w' ∈ closed s) by (by apply (Hcl d)).
    eexists. split; [done|]. split; [by eapply step_wake|]. eauto.
  - eexists. split; [done|]. split; [by eapply step_refund|]. eauto.
  - eexists. split; [done|]. split; [by eapply step_release|]. eauto.
Qed.

(** The queue is first come, first served: a release hands the permit to the
    longest waiting client, and a new wait goes to the back. *)
Theorem limiter_fifo n cs s s' :
  rtc step (initial n cs) s → step s s' →
  (∃ w, waiters (limiter s) = w :: waiters (limiter s') ∧ w ∈ closed s') ∨
  (∃ w, waiters (limiter s') = waiters (limiter s) ++ [w] ∧ w ∉ waiters (limiter s)) ∨
  (∃ w l1 l2, waiters (limiter s) = l1 ++ w :: l2 ∧ waiters (limiter s') = l1 ++ l2 ∧
     w ∉ closed s') ∨
  waiters (limiter s') = waiters (limiter s).
Proof.
  intros Hs Hstep. pose proof (inv_reachable n cs s Hs) as [Hl Hct Hb Hf Hn Hq Hu Hfr Hcf Hcl].
  destruct Hstep as [c l Hc Ht|c l Hc Ht|c l w Hc Ht|c w Hc Hw|c w l Hc Ht|c w l Hc Ht|c l w Hc Ht|c l w Hc Ht];
    simpl.
  - unfold TryAcquire in Ht. case_match; [done|]. injection Ht as <-. auto.
  - unfold acquireWaiter in Ht. case_match; [|done]. injection Ht as <-. auto.
  - unfold acquireWaiter in Ht. case_match; [done|]. injection Ht as <- <-. right. left.
    eexists. split; [done|]. intros Hw. destruct (Hq _ Hw) as [d Hd]. specialize (Hfr _ _ Hd). lia.
  - auto.
  - unfold cancelWaiter in Ht. destruct (remove_first _ _) as [ws|] eqn:Hr; [|done].
    injection Ht as <-. apply remove_first_Some in Hr as (l1 & l2 & Hws & ->).
    right. right. left. exists w, l1, l2. split_and!; [done..|].
    rewrite (Hcl c w Hc), Hws. intros Hnot. apply Hnot, elem_of_app. right. left.
  - unfold cancelWaiter in Ht. destruct (remove_first _ _) as [ws|] eqn:Hr; [done|].
    injection Ht as <-. auto.
  - unfold release in Ht. destruct (waiters (limiter s)) as [|w0 ws] eqn:Hw; injection Ht as <- <-.
    + simpl. auto.
    + left. exists w0. split; [done|]. simpl. apply elem_of_union. left. by apply elem_of_singleton.
  - unfold release in Ht. destruct (waiters (limiter s)) as [|w0 ws] eqn:Hw; injection Ht as <- <-.
    + simpl. auto.
    + left. exists w0. split; [done|]. simpl. apply elem_of_union. left. by apply elem_of_singleton.
Qed.

(** ** A concrete run: one permit, client 0 inside, client 1 asleep *)

Definition one_inside : System :=
  set_client (initial 1 {[0; 1]}) (MkLimiter 1 1 [] 0) 0 Holding.
Definition one_asleep : System :=
  set_client one_inside (MkLimiter 1 1 [0] 1) 1 (Waiting 0).

Lemma sample_run : rtc step (initial 1 {[0; 1]}) one_asleep.
Proof.
  apply (rtc_l _ _ one_inside); [|apply (rtc_l _ _ one_asleep); [|apply rtc_refl]].
  - by apply (step_acquire _ 0).
  - by apply (step_wait _ 1 _ 0).
Qed.

Lemma limiter_bound_witness :
  count (λ p, bool_decide (p = Holding)) (clients one_asleep) ≤ 1.
Proof. exact (proj1 (limiter_bound 1 {[0; 1]} one_asleep sample_run)). Defined.

Lemma limiter_no_lost_wakeup_witness : progress one_asleep.
Proof.
  refine (proj2 (limiter_no_lost_wakeup 1 {[0; 1]} one_asleep 1 0 _ sample_run _)); [lia|].
  vm_compute. reflexivity.
Defined.

(** Client 0 leaves: its permit goes to client 1's channel. *)
Lemma limiter_fifo_witness :
  let after := signal (set_client one_asleep (MkLimiter 1 1 [] 1) 0 Idle) (Some 0) in
  waiters (limiter after) = [] ∧ ∃ w, waiters (limiter one_asleep) = w :: [] ∧ w ∈ closed after.
Proof.
  intros after.
  assert (step one_asleep after) as Hstep by (by apply (step_release _ 0)).
  destruct (limiter_fifo 1 {[0; 1]} one_asleep after sample_run Hstep) as [(w & Hw & Hc)|H].
  - split; [reflexivity|]. exists w. split; [exact Hw|exact Hc].
  - exfalso. destruct H as [(w & H & _)|[(w & l1 & l2 & Hw & _ & H)|H]].
    + vm_compute in H. discriminate.
    + change ([0] = l1 ++ w :: l2) in Hw.
      destruct l1 as [|x [|y l1]]; try discriminate. injection Hw as <- _.
      apply H. vm_compute. reflexivity.
    + vm_compute in H. discriminate.
Defined.
