(* ===== verification/Lease.v ===== *)
(** * Execution leases: [runtime/execution_lease.go]

    A run's lease is the fencing token of the process that executes it.  Times
    are nanoseconds after Go's zero time, so [IsZero] is [0]; an epoch is an
    unsigned 64-bit number and its successor wraps. *)

From Stdlib Require Import Ascii.
From S2P Require Import Prelude GoStrings.

Inductive ExecutionLeaseStatus := LeaseActive | LeaseReleased | LeaseOther (s : string).

#[export] Instance ExecutionLeaseStatus_eq_dec : EqDecision ExecutionLeaseStatus.
Proof. solve_decision. Defined.

Record ExecutionLease := MkLease {
  OwnerID : string;
  Token : string;
  Epoch : N;
  Status : ExecutionLeaseStatus;
  AcquiredAt : Z;
  HeartbeatAt : Z;
  ExpiresAt : Z;
}.

#[export] Instance ExecutionLease_eq_dec : EqDecision ExecutionLease.
Proof. solve_decision. Defined.

Record ExecutionLeaseGuard := MkGuard { g_RunID : string; g_Token : string; g_Epoch : N }.

(** The fields of [RunRecord] the lease code reads. *)
Record LeasedRun := MkRun { RunID : string; Lease : option ExecutionLease }.

Inductive lease_mutation := LeaseAcquire | LeaseHeartbeat | LeaseRelease | LeaseUnsupported (kind : string).

(** What the context carries: a deletion in progress, a lease mutation with its
    time, a guard. *)
Record LeaseContext := MkContext {
  deleting : bool;
  mutation : option (lease_mutation * Z);
  guard : option ExecutionLeaseGuard;
}.

Inductive lease_error :=
  | LInvalidID (name : string)
  | LEpochZero
  | LStatus
  | LTimestamps
  | LHeartbeatEarly
  | LExpiryEarly
  | LLost (run : string)
  | LNotAllowed
  | LNeedsActive
  | LInitialEpoch
  | LHeld (owner : string) (until : Z)
  | LEpochStep
  | LTokenReused
  | LBackward
  | LUnsupported.

(** [validateRunnerStorageID]; a rune outside ASCII has no byte in the range. *)
Definition portable_char (a : ascii) : bool :=
  let n := N_of_ascii a in
  ((97 <=? n) && (n <=? 122) || (65 <=? n) && (n <=? 90) || (48 <=? n) && (n <=? 57)
   || (n =? 45) || (n =? 95) || (n =? 46))%N.

Definition validateRunnerStorageID (name value : string) : result lease_error unit :=
  guard_err (bool_decide (value = "") || negb (bool_decide (TrimSpace value = value))
             || bool_decide (value = ".") || bool_decide (value = "..")
             || (200 <? String.length value)%nat
             || negb (forallb portable_char (to_bytes value))) (LInvalidID name).

Definition validateExecutionLease (lease : option ExecutionLease) : result lease_error unit :=
  match lease with
  | None => Ok tt
  | Some l =>
    let* _ := validateRunnerStorageID "execution lease owner ID" (TrimSpace (OwnerID l)) in
    let* _ := validateRunnerStorageID "execution lease token" (TrimSpace (Token l)) in
    let* _ := guard_err (Epoch l =? 0)%N LEpochZero in
    let* _ := guard_err (match Status l with LeaseOther _ => true | _ => false end) LStatus in
    let* _ := guard_err ((AcquiredAt l =? 0) || (HeartbeatAt l =? 0) || (ExpiresAt l =? 0))%Z
                LTimestamps in
    let* _ := guard_err (HeartbeatAt l <? AcquiredAt l)%Z LHeartbeatEarly in
    guard_err (bool_decide (Status l = LeaseActive) && negb (HeartbeatAt l <? ExpiresAt l)%Z)
      LExpiryEarly
  end.

(** The test of [validateExecutionLeaseGuard] after the identifiers. *)
Definition guard_matches (run : LeasedRun) (g : ExecutionLeaseGuard) : bool :=
  bool_decide (RunID run = g_RunID g) &&
  match Lease run with
  | None => false
  | Some l => bool_decide (Status l = LeaseActive) && bool_decide (Token l = g_Token g)
              && (Epoch l =? g_Epoch g)%N
  end.

Definition validateExecutionLeaseGuard (run : LeasedRun) (g : ExecutionLeaseGuard)
    : result lease_error unit :=
  let* _ := validateRunnerStorageID "execution lease guard run ID" (g_RunID g) in
  let* _ := validateRunnerStorageID "execution lease guard token" (g_Token g) in
  let* _ := guard_err (g_Epoch g =? 0)%N LEpochZero in
  guard_err (negb (guard_matches run g)) (LLost (g_RunID g)).

(** [executionLeaseGuardFromContext]: an incomplete guard counts as none. *)
Definition context_guard (ctx : LeaseContext) : option ExecutionLeaseGuard :=
  g ← guard ctx;
  if bool_decide (g_RunID g = "") || bool_decide (g_Token g = "") || (g_Epoch g =? 0)%N
  then None else Some g.

Definition executionLeaseGuard (run : LeasedRun) : option ExecutionLeaseGuard :=
  l ← Lease run;
  if bool_decide (Status l = LeaseActive) then Some (MkGuard (RunID run) (Token l) (Epoch l)) else None.

(** [previous.Epoch + 1] on [uint64]. *)
Definition next_epoch (e : N) : N := ((e + 1) mod 2 ^ 64)%N.

Definition same_identity (p l : ExecutionLease) : bool :=
  bool_decide (OwnerID p = OwnerID l) && bool_decide (Token p = Token l)
  && (Epoch p =? Epoch l)%N && (AcquiredAt p =? AcquiredAt l)%Z.

Definition is_active (l : ExecutionLease) : bool := bool_decide (Status l = LeaseActive).

Definition validateExecutionLeaseMutation (existing next : LeasedRun) (kind : lease_mutation) (now : Z)
    : result lease_error unit :=
  match kind with
  | LeaseAcquire =>
    match Lease next with
    | None => Err LNeedsActive
    | Some l =>
      let* _ := guard_err (negb (is_active l)) LNeedsActive in
      match Lease existing with
      | None => guard_err (negb (Epoch l =? 1)%N) LInitialEpoch
      | Some p =>
        let* _ := guard_err (is_active p && (now <? ExpiresAt p)%Z) (LHeld (OwnerID p) (ExpiresAt p)) in
        let* _ := guard_err (negb (Epoch l =? next_epoch (Epoch p))%N) LEpochStep in
        guard_err (bool_decide (Token l = Token p)) LTokenReused
      end
    end
  | LeaseHeartbeat =>
    match Lease existing, Lease next with
    | Some p, Some l =>
      let* _ := guard_err (negb (is_active p) || negb (is_active l)) (LLost "heartbeat") in
      let* _ := guard_err (negb (same_identity p l)) (LLost "heartbeat identity") in
      guard_err ((HeartbeatAt l <? HeartbeatAt p) || (ExpiresAt l <? ExpiresAt p))%Z LBackward
    | _, _ => Err (LLost "heartbeat")
    end
  | LeaseRelease =>
    match Lease existing, Lease next with
    | Some p, Some l =>
      let* _ := guard_err (negb (is_active p) || negb (bool_decide (Status l = LeaseReleased)))
                  (LLost "release") in
      guard_err (negb (same_identity p l)) (LLost "release identity")
    | _, _ => Err (LLost "release")
    end
  | LeaseUnsupported _ => Err LUnsupported
  end.

(** Storing [next] over [existing]. *)
Definition validateRunExecutionLeaseTransition (ctx : LeaseContext) (existing next : LeasedRun)
    : result lease_error unit :=
  let* _ := validateExecutionLease (Lease existing) in
  let* _ := validateExecutionLease (Lease next) in
  if deleting ctx then guard_err (negb (bool_decide (Lease existing = Lease next))) LNotAllowed
  else
    match mutation ctx with
    | Some (kind, now) => validateExecutionLeaseMutation existing next kind now
    | None =>
      let* _ := guard_err (negb (bool_decide (Lease existing = Lease next))) LNotAllowed in
      match Lease existing with
      | Some l =>
        if is_active l then
          match context_guard ctx with
          | None => Err (LLost (RunID existing))
          | Some g => validateExecutionLeaseGuard existing g
          end
        else Ok tt
      | None => Ok tt
      end
    end.

Definition IsExecutionLeaseActive (run : LeasedRun) (now : Z) : bool :=
  match Lease run with Some l => is_active l && (now <? ExpiresAt l)%Z | None => false end.

(** ** Histories of a run *)

Definition epoch_of (run : LeasedRun) : N := match Lease run with Some l => Epoch l | None => 0 end.

(** One accepted write of the run's record; the stored epoch is a [uint64]. *)
Definition lease_step (run run' : LeasedRun) : Prop :=
  RunID run' = RunID run ∧ (epoch_of run < 2 ^ 64)%N ∧
  ∃ ctx, validateRunExecutionLeaseTransition ctx run run' = Ok tt.

(** What one write can do to the lease: leave it, keep its identity while it
    beats or is released, or replace one that is not held by the next epoch. *)
Inductive lease_change (p : option ExecutionLease) : option ExecutionLease → Prop :=
  | change_none : lease_change p p
  | change_beat q l : p = Some q → is_active q = true → same_identity q l = true →
      lease_change p (Some l)
  | change_first l : p = None → Epoch l = 1%N → is_active l = true → lease_change p (Some l)
  | change_takeover q l now : p = Some q → is_active q && (now <? ExpiresAt q)%Z = false →
      Epoch l = (Epoch q + 1)%N → Token l ≠ Token q → is_active l = true → lease_change p (Some l).

Lemma same_identity_spec p l :
  same_identity p l = true ↔
  OwnerID p = OwnerID l ∧ Token p = Token l ∧ Epoch p = Epoch l ∧ AcquiredAt p = AcquiredAt l.
Proof.
  unfold same_identity. rewrite !andb_true_iff, !bool_decide_eq_true, N.eqb_eq, Z.eqb_eq. tauto.
Qed.

Lemma valid_epoch l : validateExecutionLease (Some l) = Ok tt → Epoch l ≠ 0%N.
Proof. simpl. intros H. result_inv. by apply N.eqb_neq. Qed.

Lemma next_epoch_succ e : (e < 2 ^ 64)%N → next_epoch e ≠ 0%N → next_epoch e = (e + 1)%N.
Proof.
  unfold next_epoch. intros He Hne. destruct (N.eq_dec e (2 ^ 64 - 1)) as [->|Hd].
  - by destruct Hne.
  - apply N.mod_small. lia.
Qed.

Ltac guards :=
  repeat match goal with
  | H : negb _ = false |- _ => apply negb_false_iff in H
  | H : bool_decide _ = false |- _ => apply bool_decide_eq_false in H
  | H : bool_decide _ = true |- _ => apply bool_decide_eq_true in H
  | H : (_ || _) = false |- _ => apply orb_false_iff in H as [? ?]
  | H : (_ =? _)%N = true |- _ => apply N.eqb_eq in H
  end.

Lemma lease_step_change run run' : lease_step run run' → lease_change (Lease run) (Lease run').
Proof.
  intros (_ & Hbound & ctx & Hv). unfold validateRunExecutionLeaseTransition in Hv.
  apply result_bind_Ok in Hv as ([] & Hp & Hv). apply result_bind_Ok in Hv as ([] & Hn & Hv).
  destruct (deleting ctx).
  { apply guard_err_Ok in Hv. guards. rewrite <-Hv. constructor. }
  destruct (mutation ctx) as [[kind now]|].
  2: { apply result_bind_Ok in Hv as ([] & Heq & _).
       apply guard_err_Ok in Heq. guards. rewrite <-Heq. constructor. }
  unfold epoch_of in Hbound. unfold validateExecutionLeaseMutation in Hv.
  destruct kind, (Lease run') as [l|]; try done; destruct (Lease run) as [q|]; try done;
    result_inv; guards; [| |by apply (change_beat _ q)|].
  - apply valid_epoch in Hn.
    match goal with He : Epoch l = next_epoch _ |- _ => rewrite next_epoch_succ in He by congruence end.
    by apply (change_takeover _ q l now).
  - by apply change_first.
  - by apply (change_beat _ q).
Qed.

(** An accepted chain of writes never lowers the epoch, and the token of an
    epoch never changes. *)
Lemma lease_change_epoch p l' :
  lease_change p l' →
  match p, l' with
  | Some q, Some l => (Epoch q < Epoch l)%N ∨ (Epoch q = Epoch l ∧ Token q = Token l ∧ OwnerID q = OwnerID l)
  | Some _, None => False
  | None, _ => True
  end.
Proof.
  destruct 1 as [|q l -> Ha Hs|l -> He Ha|q l now -> Hh He Ht Ha]; [|right|done|left].
  - destruct p; [right|]; done.
  - apply same_identity_spec in Hs. naive_solver.
  - lia.
Qed.

Lemma lease_history run run' q :
  rtc lease_step run run' → Lease run = Some q →
  ∃ l, Lease run' = Some l ∧
    ((Epoch q < Epoch l)%N ∨ (Epoch q = Epoch l ∧ Token q = Token l ∧ OwnerID q = OwnerID l)).
Proof.
  intros Hs. revert q. induction Hs as [run|r1 r2 r3 H12 _ IH]; intros q Hq.
  - exists q. split; [done|by right].
  - apply lease_step_change, lease_change_epoch in H12. rewrite Hq in H12.
    destruct (Lease r2) as [l2|]; [|done]. destruct (IH l2 eq_refl) as (l3 & Hl3 & Hrel).
    exists l3. split; [done|].
    destruct H12 as [Hlt|(He & Ht & Ho)], Hrel as [Hlt'|(He' & Ht' & Ho')];
      [left; lia|left; lia|left; lia|right; split_and!; congruence].
Qed.

(** ** Properties *)

(** C12: Fencing: epochs never go back along the accepted writes of a run, and
    one epoch has one owner and one token, so a process whose guard was valid
    passes the guard check later only while nobody has taken the lease over. *)
Theorem lease_fencing run run' g :
  validateExecutionLeaseGuard run g = Ok tt → rtc lease_step run run' →
  (g_Epoch g ≤ epoch_of run')%N ∧
  (validateExecutionLeaseGuard run' g = Ok tt →
     ∃ p l, Lease run = Some p ∧ Lease run' = Some l ∧ Epoch l = Epoch p ∧ Token l = Token p ∧
       OwnerID l = OwnerID p) ∧
  ((g_Epoch g < epoch_of run')%N → ∀ run'', rtc lease_step run' run'' →
     validateExecutionLeaseGuard run'' g ≠ Ok tt).
Proof.
  intros Hg Hs.
  assert (∀ r, validateExecutionLeaseGuard r g = Ok tt →
    ∃ l, Lease r = Some l ∧ Token l = g_Token g ∧ Epoch l = g_Epoch g) as Hmatch.
  { intros r Hr. unfold validateExecutionLeaseGuard in Hr. result_inv. guards.
    match goal with Hm : guard_matches _ _ = true |- _ => unfold guard_matches in Hm;
      apply andb_true_iff in Hm as [_ Hm] end.
    destruct (Lease r) as [l|]; [|done]. exists l. split; [done|].
    repeat match goal with Hm : _ && _ = true |- _ => apply andb_true_iff in Hm as [? ?] end.
    by guards. }
  destruct (Hmatch run Hg) as (p & Hp & Htp & Hep).
  destruct (lease_history run run' p Hs Hp) as (l & Hl & Hrel).
  assert (epoch_of run' = Epoch l) as Hel by (unfold epoch_of; by rewrite Hl).
  split_and!.
  - rewrite Hel. destruct Hrel; lia.
  - intros Hg'. destruct (Hmatch run' Hg') as (l' & Hl' & Htl & Hll). simplify_eq.
    destruct Hrel as [Hlt|(He & Ht & Ho)]; [lia|]. exists p, l. split_and!; congruence.
  - intros Hlt run'' Hs' Hg''. destruct (Hmatch run'' Hg'') as (l2 & Hl2 & _ & He2).
    destruct (lease_history run' run'' l Hs' Hl) as (l3 & Hl3 & Hrel'). simplify_eq.
    rewrite Hel in Hlt. destruct Hrel'; lia.
Qed.

(** Mutual exclusion in time: while a lease is active and has not expired,
    no write accepted at that time gives the run to another holder; a lease
    changes hands only after it was released or has run out. *)
Theorem lease_exclusive ctx run run' now p l :
  validateRunExecutionLeaseTransition ctx run run' = Ok tt →
  Lease run = Some p → Lease run' = Some l → IsExecutionLeaseActive run now = true →
  (∀ kind at_, mutation ctx = Some (kind, at_) → at_ = now) →
  OwnerID l = OwnerID p ∧ Token l = Token p ∧ Epoch l = Epoch p.
Proof.
  intros Hv Hp Hl Hact Htime. unfold IsExecutionLeaseActive in Hact. rewrite Hp in Hact.
  unfold validateRunExecutionLeaseTransition in Hv. rewrite Hp, Hl in Hv.
  apply result_bind_Ok in Hv as ([] & _ & Hv). apply result_bind_Ok in Hv as ([] & _ & Hv).
  destruct (deleting ctx).
  { apply guard_err_Ok in Hv. guards. by simplify_eq. }
  destruct (mutation ctx) as [[kind at_]|] eqn:Hmut.
  2: { apply result_bind_Ok in Hv as ([] & Heq & _). apply guard_err_Ok in Heq. guards. by simplify_eq. }
  specialize (Htime _ _ eq_refl). subst at_.
  unfold validateExecutionLeaseMutation in Hv. rewrite Hp, Hl in Hv.
  destruct kind; try done; result_inv; guards; try congruence.
  - match goal with Hs : same_identity _ _ = true |- _ => apply same_identity_spec in Hs end.
    naive_solver.
  - match goal with Hs : same_identity _ _ = true |- _ => apply same_identity_spec in Hs end.
    naive_solver.
Qed.

(** ** A concrete run: acquired, taken over after it ran out *)

Definition lease_one : ExecutionLease := MkLease "worker-1" "t1" 1 LeaseActive 10 10 20.
Definition lease_two : ExecutionLease := MkLease "worker-2" "t2" 2 LeaseActive 30 30 40.
Definition run_one : LeasedRun := MkRun "r" (Some lease_one).
Definition run_two : LeasedRun := MkRun "r" (Some lease_two).

(** The guard of the first holder is stale once the run is taken over. *)
Lemma lease_fencing_witness :
  validateExecutionLeaseGuard run_two (MkGuard "r" "t1" 1) ≠ Ok tt.
Proof.
  assert (validateExecutionLeaseGuard run_one (MkGuard "r" "t1" 1) = Ok tt) as Hg by reflexivity.
  assert (rtc lease_step run_one run_two) as Hs.
  { apply rtc_once. split; [reflexivity|]. split; [reflexivity|].
    exists (MkContext false (Some (LeaseAcquire, 30%Z)) None). reflexivity. }
  exact (proj2 (proj2 (lease_fencing _ _ _ Hg Hs)) ltac:(vm_compute; reflexivity) _ (rtc_refl _ _)).
Defined.

(** A heartbeat keeps the holder. *)
Lemma lease_exclusive_witness :
  OwnerID (MkLease "worker-1" "t1" 1 LeaseActive 10 15 25) = OwnerID lease_one.
Proof.
  refine (proj1 (lease_exclusive (MkContext false (Some (LeaseHeartbeat, 15%Z)) None) run_one
    (MkRun "r" (Some (MkLease "worker-1" "t1" 1 LeaseActive 10 15 25))) 15 lease_one _ _ _ _ _ _));
    try reflexivity.
  intros kind at_ [= _ <-]. reflexivity.
Defined.
