(* ===== verification/Budget.v ===== *)
(** * Execution budgets and attempts: [runtime/runner_graph.go]

    The budget travels in the state under [internal.graph_scheduler], so a
    resumed run goes on counting where the checkpoint stopped; a node attempt is
    decided once, for the result or for the deadline. *)

From Stdlib Require Import SpecFloat.
From S2P Require Import Prelude GoStrings Paths Values StateTree Reducers.

Definition graphSchedulerNamespace : string := "graph_scheduler".
Definition graphSchedulerVersion : string := "2".
Definition graphResultNamespace : string := "graph_result".

Definition scheduler_path (segs : list string) : Path :=
  MkPath SectionInternal (graphSchedulerNamespace :: segs).

Definition graphSchedulerVersionPath := scheduler_path ["version"].
Definition graphSchedulerStepsPath := scheduler_path ["super_steps"].
Definition graphSchedulerNodesPath := scheduler_path ["node_executions"].
Definition graphSchedulerElapsedPath := scheduler_path ["elapsed_wall_time_ns"].
Definition graphReturnValuePath := MkPath SectionInternal [graphResultNamespace; "return_value"].

Record GraphExecutionBudget := MkBudget {
  SuperSteps : Z;
  NodeExecutions : Z;
  ElapsedWallTime : Z;
}.

Inductive budget_error :=
  | BVersion (found : option value)
  | BIncomplete
  | BOverflow (field : string)
  | BNotInteger (field : string)
  | BType (field : string)
  | BNegative (field : string).

(** A float that holds an integer. *)
Definition float_integer (f : spec_float) : option Z :=
  match numericRational (NFloat f) with
  | Some (n, d) => if (n mod Zpos d =? 0)%Z then Some (n / Zpos d)%Z else None
  | None => None
  end.

(** [graphSchedulerInt64].  Converting a float outside [int64] is left open by
    Go; on the platforms where it gives the minimum the check that follows
    refuses it, which is what the model does. *)
Definition graphSchedulerInt64 (field : string) (v : value) : result budget_error Z :=
  let* result := match v with
    | VInt IUint z | VInt IUint64 z =>
      if (2 ^ 63 - 1 <? z)%Z then Err (BOverflow field) else Ok z
    | VInt _ z => Ok z
    | VFloat f =>
      match float_integer f with
      | Some z => if ((- 2 ^ 63 <=? z) && (z <? 2 ^ 63))%Z then Ok z else Err (BNotInteger field)
      | None => Err (BNotInteger field)
      end
    | _ => Err (BType field)
    end in
  if (result <? 0)%Z then Err (BNegative field) else Ok result.

Definition StoreGraphExecutionBudget (s : State) (b : GraphExecutionBudget) : result state_error State :=
  let* s := SetPath s (PathString graphSchedulerVersionPath) (VStr graphSchedulerVersion) in
  foldM (λ s (item : Path * Z), SetPath s (PathString item.1) (VInt IInt64 item.2)) s
    [(graphSchedulerStepsPath, SuperSteps b); (graphSchedulerNodesPath, NodeExecutions b);
     (graphSchedulerElapsedPath, ElapsedWallTime b)].

(** [LoadGraphExecutionBudget]; [None] stands for the zero budget of a state
    that carries none. *)
Definition LoadGraphExecutionBudget (s : State) : result budget_error (option GraphExecutionBudget) :=
  match read s (scheduler_path []) with
  | None => Ok None
  | Some _ =>
    let version := read s graphSchedulerVersionPath in
    match version with
    | Some (VStr text) =>
      if negb (bool_decide (text = graphSchedulerVersion)) then Err (BVersion version)
      else
        match read s graphSchedulerStepsPath, read s graphSchedulerNodesPath,
              read s graphSchedulerElapsedPath with
        | None, None, None => Ok None
        | Some steps, Some nodes, Some elapsed =>
          let* steps := graphSchedulerInt64 "super_steps" steps in
          let* nodes := graphSchedulerInt64 "node_executions" nodes in
          let* elapsed := graphSchedulerInt64 "elapsed_wall_time_ns" elapsed in
          Ok (Some (MkBudget steps nodes elapsed))
        | _, _, _ => Err BIncomplete
        end
    | _ => Err (BVersion version)
    end
  end.

Definition ClearGraphSchedule (s : State) : result state_error State :=
  DeletePath s (PathString (scheduler_path [])).

Definition StoreGraphReturnValue (s : State) (v : value) : result state_error State :=
  SetPath s (PathString graphReturnValuePath) v.
Definition LoadGraphReturnValue (s : State) : option value :=
  ReadPath s (PathString graphReturnValuePath).
Definition ClearGraphReturnValue (s : State) : result state_error State :=
  DeletePath s (PathString (MkPath SectionInternal [graphResultNamespace])).

(** ** Node attempts *)

Inductive attempt := AttemptPending | AttemptAccepted | AttemptAbandoned.

(** [TryAccept]: the loop of loads and compare-and-swaps decides in one of the
    three ways; only the swap changes the cell. *)
Definition TryAccept (a : attempt) : attempt * bool :=
  match a with
  | AttemptPending | AttemptAccepted => (AttemptAccepted, true)
  | AttemptAbandoned => (AttemptAbandoned, false)
  end.

Definition TryAbandon (a : attempt) : attempt * bool :=
  match a with
  | AttemptPending => (AttemptAbandoned, true)
  | a => (a, false)
  end.

Definition IsAbandoned (a : attempt) : bool := match a with AttemptAbandoned => true | _ => false end.

Inductive attempt_call := CallAccept | CallAbandon.

Definition attempt_run (calls : list attempt_call) : attempt * list bool :=
  foldl (λ acc call,
    let '(a, answers) := acc in
    let '(a, answer) := match call with CallAccept => TryAccept a | CallAbandon => TryAbandon a end in
    (a, answers ++ [answer])) (AttemptPending, []) calls.

(** ** Lemmas *)

Lemma SetPath_set s p v : wf_path p → SetPath s (PathString p) v = set s p v.
Proof. intros Hp. unfold SetPath, with_path. by rewrite ParsePath_PathString. Qed.

Lemma scheduler_paths_wf :
  wf_path (scheduler_path []) ∧ wf_path graphSchedulerVersionPath ∧ wf_path graphSchedulerStepsPath ∧
  wf_path graphSchedulerNodesPath ∧ wf_path graphSchedulerElapsedPath.
Proof. split_and!; by apply (bool_decide_unpack _). Qed.

Lemma graphSchedulerInt64_int64 field z :
  (0 ≤ z < 2 ^ 63)%Z → graphSchedulerInt64 field (VInt IInt64 z) = Ok z.
Proof.
  intros Hz. unfold graphSchedulerInt64. simpl.
  destruct (z <? 0)%Z eqn:Hneg; [apply Z.ltb_lt in Hneg; lia|done].
Qed.

(** The entry the budget lives under is missing or an object. *)
Definition budget_slot (s : State) : Prop :=
  ∀ x, read s (scheduler_path []) = Some x → asMap x ≠ None.

(** Storing one counter: never refused, and the slot stays an object. *)
Lemma store_counter s p k v :
  wf_state s → budget_slot s → wf_path p → p = scheduler_path [k] →
  ∃ s', SetPath s (PathString p) v = Ok s' ∧ wf_state s' ∧ budget_slot s' ∧
    is_Some (read s' (scheduler_path [])) ∧ read s' p = Some v ∧
    ∀ q, wf_path q → disjoint_paths p q → read s' q = read s q.
Proof.
  intros Hs Hslot Hp ->. rewrite SetPath_set by done.
  pose proof (proj1 scheduler_paths_wf) as Hp0.
  destruct (set s (scheduler_path [k]) v) as [s'|e] eqn:E.
  - assert (read s' (scheduler_path [k]) = Some v) as Hr by exact (set_read _ _ _ _ Hs Hp E).
    assert (pathWithin (scheduler_path [k]) (scheduler_path []) = true) as Hw.
    { apply pathWithin_spec. split_and!; [done|done|by exists [k]]. }
    destruct (read_above s' _ _ v Hp Hp0 Hw Hr) as [x Hx].
    destruct (read_above_object s' _ _ v x Hp Hp0 Hw ltac:(done) Hr Hx) as [m ->].
    exists s'. split_and!; [done|exact (set_wf _ _ _ _ Hs Hp E)| |by rewrite Hx|done|].
    + intros y Hy. rewrite Hx in Hy. by injection Hy as <-.
    + intros q Hq Hd. exact (set_frame _ _ _ _ _ Hs Hp Hq Hd E).
  - destruct (set_Err _ _ _ _ Hs Hp E) as [(? & _)|(l & k' & r & x & Hl & Hne & _ & Hx & Ha)]; [done|].
    destruct l as [|y [|z l]]; [done| |by destruct l].
    injection Hl as <- _ _. by destruct (Hslot x Hx).
Qed.

(** C38: The budget survives a checkpoint: on a well-formed state whose scheduler
    entry is missing or an object, [StoreGraphExecutionBudget] succeeds,
    [LoadGraphExecutionBudget] reads back exactly the counters stored, for any
    in the range of [int64], nothing outside the scheduler entry changes, and
    after [ClearGraphSchedule] no budget is found. *)
Theorem budget_round_trip s b :
  wf_state s → budget_slot s → (0 ≤ SuperSteps b < 2 ^ 63)%Z →
  (0 ≤ NodeExecutions b < 2 ^ 63)%Z → (0 ≤ ElapsedWallTime b < 2 ^ 63)%Z →
  ∃ s' s'', StoreGraphExecutionBudget s b = Ok s' ∧ wf_state s' ∧
    LoadGraphExecutionBudget s' = Ok (Some b) ∧
    (∀ q, wf_path q → disjoint_paths (scheduler_path []) q → read s' q = read s q) ∧
    ClearGraphSchedule s' = Ok s'' ∧ LoadGraphExecutionBudget s'' = Ok None.
Proof.
  intros Hs Hslot H1 H2 H3. destruct scheduler_paths_wf as (Hp0 & Hpv & Hps & Hpn & Hpe).
  destruct (store_counter s graphSchedulerVersionPath "version" (VStr graphSchedulerVersion))
    as (s0 & E0 & W0 & L0 & _ & R0 & F0); [done..|].
  destruct (store_counter s0 graphSchedulerStepsPath "super_steps" (VInt IInt64 (SuperSteps b)))
    as (s1 & E1 & W1 & L1 & _ & R1 & F1); [done..|].
  destruct (store_counter s1 graphSchedulerNodesPath "node_executions" (VInt IInt64 (NodeExecutions b)))
    as (s2 & E2 & W2 & L2 & _ & R2 & F2); [done..|].
  destruct (store_counter s2 graphSchedulerElapsedPath "elapsed_wall_time_ns"
    (VInt IInt64 (ElapsedWallTime b))) as (s3 & E3 & W3 & L3 & [x Hx] & R3 & F3); [done..|].
  destruct (delete_total s3 (scheduler_path []) W3 Hp0) as [s4 E4].
  exists s3, s4. split_and!; [|done|..].
  - unfold StoreGraphExecutionBudget. simpl foldM. by rewrite E0; simpl; rewrite E1; simpl; rewrite E2; simpl; rewrite E3.
  - unfold LoadGraphExecutionBudget. rewrite Hx, R3.
    rewrite (F3 _ Hpn ltac:(by split)), R2.
    rewrite (F3 _ Hps ltac:(by split)), (F2 _ Hps ltac:(by split)), R1.
    rewrite (F3 _ Hpv ltac:(by split)), (F2 _ Hpv ltac:(by split)), (F1 _ Hpv ltac:(by split)), R0.
    simpl. rewrite !graphSchedulerInt64_int64 by done. by destruct b.
  - intros q Hq Hd.
    assert (∀ k, disjoint_paths (scheduler_path [k]) q) as Hk.
    { intros k. apply (disjoint_inside (scheduler_path [])); [|done].
      apply pathWithin_spec. split_and!; [done|done|by exists [k]]. }
    by rewrite F3, F2, F1, F0 by first [done|apply Hk].
  - unfold ClearGraphSchedule, DeletePath, with_path. by rewrite ParsePath_PathString.
  - unfold LoadGraphExecutionBudget. apply delete_edit in E4; [|done..].
    by rewrite (state_edit_read _ _ _ _ Hp0 E4).
Qed.

Lemma budget_round_trip_witness :
  ∃ s', StoreGraphExecutionBudget NewState (MkBudget 3 7 1000) = Ok s' ∧
    LoadGraphExecutionBudget s' = Ok (Some (MkBudget 3 7 1000)).
Proof.
  destruct (budget_round_trip NewState (MkBudget 3 7 1000)) as (s' & s'' & H1 & _ & H2 & _).
  - exact wf_NewState.
  - intros x Hx. vm_compute in Hx. discriminate.
  - simpl. lia.
  - simpl. lia.
  - simpl. lia.
  - exists s'. split; [exact H1|exact H2].
Defined.

(** An attempt has one outcome, the first call's: after an acceptance every
    later acceptance confirms it and every abandonment fails, after an
    abandonment every later call fails, however many calls race. *)
Theorem attempt_once first calls :
  attempt_run (first :: calls) =
    match first with
    | CallAccept => (AttemptAccepted,
        true :: map (λ c, match c with CallAccept => true | CallAbandon => false end) calls)
    | CallAbandon => (AttemptAbandoned, true :: map (λ _, false) calls)
    end.
Proof.
  unfold attempt_run. induction calls as [|c calls IH] using rev_ind; [by destruct first|].
  rewrite app_comm_cons, foldl_snoc, IH. by destruct first, c; rewrite map_app.
Qed.
