(* ===== verification/Records.v ===== *)
(** * Run and step records, and the rules for writing them

    The records of [runtime/runner_types.go] and the validators every store
    applies to a write: the deletion protocol ([runtime/run_deletion.go]), child
    reservations ([runtime/graph_runner.go]), step effects and their resolution
    ([runtime/transaction_store.go], [runtime/effect_resolution.go]) and the
    redaction of secrets ([runtime/sensitive.go]).

    A time is the instant it denotes, in nanoseconds after Go's zero time: two
    representations of one instant are equal here, while [reflect.DeepEqual] and
    the JSON text also see the zone and the clock reading, so the rules here
    accept a little more than the code does.  [ReturnValue], whose redaction and
    copy are JSON round trips, is left out of the record. *)

From Stdlib Require Import Ascii.
From S2P Require Import Prelude GoStrings Values Json Sensitive Errors Lease.

(** ** Records *)

Definition RunStatusPending : string := "pending".
Definition RunStatusRunning : string := "running".
Definition RunStatusPaused : string := "paused".
Definition RunStatusFailed : string := "failed".
Definition RunStatusCompleted : string := "completed".
Definition RunStatusCanceled : string := "canceled".

Definition RunDeletionReserved : string := "reserved".
Definition RunDeletionPlanned : string := "planned".
Definition RunDeletionUnlinked : string := "unlinked".

(** [None] is the nil slice, which the copy makes of an empty one. *)
Record RunDeletionState := MkDeletion {
  d_ID : string;
  d_RootRunID : string;
  d_ParentRunID : string;
  d_Phase : string;
  d_RunIDs : option (list string);
}.

Record PendingChildRun := MkPending {
  p_RequestKey : string;
  p_ChildRunID : string;
  p_ParentRunID : string;
  p_ParentStepID : string;
  p_ParentTaskID : string;
  p_GraphRef : string;
  p_GraphID : string;
  p_GraphVersion : string;
  p_GraphHash : string;
  p_GraphSnapshotHash : string;
  p_GraphSessionID : string;
  p_Namespace : string;
  p_InputHash : string;
  p_ReservedAt : Z;
}.

Record RunOrigin := MkOrigin { o_Type : string; o_TriggerID : string }.

Record RunRecord := MkRunRecord {
  r_RunID : string;
  r_Revision : N;
  r_ParentRunID : string;
  r_ParentStepID : string;
  r_ParentTaskID : string;
  r_ChildRequestKey : string;
  r_ChildInputHash : string;
  r_ExecutionLease : option ExecutionLease;
  r_RootRunID : string;
  r_RunPath : list string;
  r_Namespace : string;
  r_ChildRunIDs : list string;
  r_PendingChildRuns : list PendingChildRun;
  r_Deletion : option RunDeletionState;
  r_GraphID : string;
  r_GraphVersion : string;
  r_GraphHash : string;
  r_GraphSnapshotHash : string;
  r_GraphSessionID : string;
  r_SourceRunID : string;
  r_SourceCheckpointID : string;
  r_ForkRequestKey : string;
  r_Origin : option RunOrigin;
  r_Status : string;
  r_EntryNodeID : string;
  r_CurrentNodeID : string;
  r_CurrentNodeIDs : list string;
  r_CurrentStepIDs : list string;
  r_NextNodeIDs : list string;
  r_ParallelWaveID : string;
  r_LastStepID : string;
  r_LastCheckpointID : string;
  r_PauseRequested : bool;
  r_CancelRequested : bool;
  r_ErrorCode : string;
  r_ErrorMessage : string;
  r_StartedAt : Z;
  r_UpdatedAt : Z;
  r_FinishedAt : option Z;
}.

Record EffectResolution := MkResolution {
  e_ID : string;
  e_AttemptID : string;
  e_Action : string;
  e_Status : string;
  e_Actor : string;
  e_Reason : string;
  e_CompensationKey : string;
  e_Error : string;
  e_RequestedAt : Z;
  e_ResolvedAt : option Z;
}.

Record StepRecord := MkStep {
  s_StepID : string;
  s_RunID : string;
  s_TaskID : string;
  s_ParentRunID : string;
  s_ParentStepID : string;
  s_ParentTaskID : string;
  s_RootRunID : string;
  s_RunPath : list string;
  s_Namespace : string;
  s_NodeID : string;
  s_NodeName : string;
  s_OperationKey : string;
  s_EffectClass : string;
  s_EffectStatus : string;
  s_EffectResolution : option EffectResolution;
  s_WaveID : string;
  s_Attempt : Z;
  s_Status : string;
  s_CheckpointBeforeID : string;
  s_CheckpointAfterID : string;
  s_ErrorCode : string;
  s_ErrorMessage : string;
  s_StartedAt : Z;
  s_UpdatedAt : Z;
  s_FinishedAt : option Z;
}.

#[export] Instance RunDeletionState_eq_dec : EqDecision RunDeletionState.
Proof. solve_decision. Defined.
#[export] Instance PendingChildRun_eq_dec : EqDecision PendingChildRun.
Proof. solve_decision. Defined.
#[export] Instance RunOrigin_eq_dec : EqDecision RunOrigin.
Proof. solve_decision. Defined.
#[export] Instance RunRecord_eq_dec : EqDecision RunRecord.
Proof. solve_decision. Defined.
#[export] Instance EffectResolution_eq_dec : EqDecision EffectResolution.
Proof. solve_decision. Defined.
#[export] Instance StepRecord_eq_dec : EqDecision StepRecord.
Proof. solve_decision. Defined.

(** The assignments the code makes to fields of a run. *)
Definition assign (revision : N) (children : list string) (pending : list PendingChildRun)
    (deletion : option RunDeletionState) (message : string) (r : RunRecord) : RunRecord :=
  MkRunRecord (r_RunID r) revision (r_ParentRunID r) (r_ParentStepID r) (r_ParentTaskID r)
    (r_ChildRequestKey r) (r_ChildInputHash r) (r_ExecutionLease r) (r_RootRunID r) (r_RunPath r)
    (r_Namespace r) children pending deletion (r_GraphID r) (r_GraphVersion r) (r_GraphHash r)
    (r_GraphSnapshotHash r) (r_GraphSessionID r) (r_SourceRunID r) (r_SourceCheckpointID r)
    (r_ForkRequestKey r) (r_Origin r) (r_Status r) (r_EntryNodeID r) (r_CurrentNodeID r)
    (r_CurrentNodeIDs r) (r_CurrentStepIDs r) (r_NextNodeIDs r) (r_ParallelWaveID r)
    (r_LastStepID r) (r_LastCheckpointID r) (r_PauseRequested r) (r_CancelRequested r)
    (r_ErrorCode r) message (r_StartedAt r) (r_UpdatedAt r) (r_FinishedAt r).

Definition with_Revision (n : N) (r : RunRecord) : RunRecord :=
  assign n (r_ChildRunIDs r) (r_PendingChildRuns r) (r_Deletion r) (r_ErrorMessage r) r.
Definition with_Deletion (d : option RunDeletionState) (r : RunRecord) : RunRecord :=
  assign (r_Revision r) (r_ChildRunIDs r) (r_PendingChildRuns r) d (r_ErrorMessage r) r.
Definition with_ErrorMessage (m : string) (r : RunRecord) : RunRecord :=
  assign (r_Revision r) (r_ChildRunIDs r) (r_PendingChildRuns r) (r_Deletion r) m r.
Definition without_children (r : RunRecord) : RunRecord :=
  assign (r_Revision r) [] [] (r_Deletion r) (r_ErrorMessage r) r.

Definition assign_step (resolution : option EffectResolution) (message : string) (s : StepRecord)
    : StepRecord :=
  MkStep (s_StepID s) (s_RunID s) (s_TaskID s) (s_ParentRunID s) (s_ParentStepID s)
    (s_ParentTaskID s) (s_RootRunID s) (s_RunPath s) (s_Namespace s) (s_NodeID s) (s_NodeName s)
    (s_OperationKey s) (s_EffectClass s) (s_EffectStatus s) resolution (s_WaveID s) (s_Attempt s)
    (s_Status s) (s_CheckpointBeforeID s) (s_CheckpointAfterID s) (s_ErrorCode s) message
    (s_StartedAt s) (s_UpdatedAt s) (s_FinishedAt s).

(** The fields the lease rules read. *)
Definition leased (r : RunRecord) : LeasedRun := MkRun (r_RunID r) (r_ExecutionLease r).

(** [cloneRunRecord]: copies every slice and pointer, so on values it only
    turns an empty slice into nil. *)
Definition clone_slice {A} (l : option (list A)) : option (list A) :=
  match l with Some (x :: l) => Some (x :: l) | _ => None end.

Definition clone_deletion (d : RunDeletionState) : RunDeletionState :=
  MkDeletion (d_ID d) (d_RootRunID d) (d_ParentRunID d) (d_Phase d) (clone_slice (d_RunIDs d)).

Definition cloneRunRecord (r : RunRecord) : RunRecord :=
  with_Deletion (clone_deletion <$> r_Deletion r) r.

(** The elements of a slice that may be nil. *)
Definition elems {A} (l : option (list A)) : list A := default [] l.

(** ** Contexts and errors *)

(** What the code reads from a [context.Context]: its error, the deletion that
    is being carried out, the child it unlinks, the lease keys and the secrets
    to redact.  A nil context has none of them. *)
Record Context := MkCtx {
  ctx_err : option string;
  deletion_mutation : option string;
  unlink_mutation : option (string * string);
  lease_mutation_of : option (lease_mutation * Z);
  lease_guard : option ExecutionLeaseGuard;
  secrets : list string;
}.

Definition Background : Context := MkCtx None None None None None [].

(** [withRunDeletionMutation] and [withRunDeletionUnlinkMutation]. *)
Definition withRunDeletionMutation (ctx : Context) (id : string) : Context :=
  MkCtx (ctx_err ctx) (Some id) (unlink_mutation ctx) (lease_mutation_of ctx) (lease_guard ctx)
    (secrets ctx).
Definition withRunDeletionUnlinkMutation (ctx : Context) (id child : string) : Context :=
  MkCtx (ctx_err ctx) (Some id) (Some (id, child)) (lease_mutation_of ctx) (lease_guard ctx)
    (secrets ctx).

Definition lease_context (ctx : Context) : LeaseContext :=
  MkContext (bool_decide (is_Some (deletion_mutation ctx))) (lease_mutation_of ctx) (lease_guard ctx).

Inductive store_error :=
  | SContext (message : string)
  | SLease (e : lease_error)
  | SNotFound (run : string)
  | SExists (id : string)
  | SNotAllowed (run : string)
  | SConflict (run : string) (expected actual : N)
  | SInvalid (run what : string).

Definition lift_lease {A} (m : result lease_error A) : result store_error A :=
  match m with Ok a => Ok a | Err e => Err (SLease e) end.

Definition storage_id (name value : string) : result store_error unit :=
  lift_lease (validateRunnerStorageID name value).

Definition fileStoreContextErr (ctx : Context) : result store_error unit :=
  match ctx_err ctx with None => Ok tt | Some m => Err (SContext m) end.

(** The run and a test: [if bad { return fmt.Errorf(...) }]. *)
Definition refuse (run what : string) (bad : bool) : result store_error unit :=
  guard_err bad (SInvalid run what).

(** ** Redaction *)

Definition sanitizeRunRecord (ctx : Context) (r : RunRecord) : RunRecord :=
  with_ErrorMessage (redactSensitiveText (r_ErrorMessage r) (secrets ctx)) r.

Definition sanitizeStepRecord (ctx : Context) (s : StepRecord) : StepRecord :=
  let redact v := redactSensitiveText v (secrets ctx) in
  assign_step
    ((λ e, MkResolution (e_ID e) (e_AttemptID e) (e_Action e) (e_Status e) (redact (e_Actor e))
             (redact (e_Reason e)) (e_CompensationKey e) (redact (e_Error e)) (e_RequestedAt e)
             (e_ResolvedAt e)) <$> s_EffectResolution s)
    (redact (s_ErrorMessage s)) s.

(** ** Deletion: [runtime/run_deletion.go] *)

Definition isActiveDeleteRunStatus (status : string) : bool :=
  bool_decide (status = RunStatusPending) || bool_decide (status = RunStatusRunning).

Definition isTerminalRunStatus (status : string) : bool :=
  bool_decide (status = RunStatusCompleted) || bool_decide (status = RunStatusFailed)
  || bool_decide (status = RunStatusCanceled).

Definition validateRunDeletionStatus (run : RunRecord) : result store_error unit :=
  let* _ := guard_err (isActiveDeleteRunStatus (r_Status run)) (SNotAllowed (r_RunID run)) in
  refuse (r_RunID run) "deletion status"
    (negb (isTerminalRunStatus (r_Status run)) && negb (bool_decide (r_Status run = RunStatusPaused))).

(** The loop over the plan; [seen] holds the identifiers so far. *)
Definition plan_step (rootID : string) (seen : gset string) (runID : string)
    : result store_error (gset string) :=
  let* _ := storage_id "deletion run ID" runID in
  let* _ := refuse rootID "duplicate run in the deletion plan" (bool_decide (runID ∈ seen)) in
  Ok ({[runID]} ∪ seen).

Definition validateRunDeletionPlan (rootID : string) (runIDs : list string) : result store_error unit :=
  let* _ := refuse rootID "deletion plan must end with the run"
              (negb (bool_decide (last runIDs = Some rootID))) in
  let* _ := foldM (plan_step rootID) ∅ runIDs in Ok tt.

Definition validateRunDeletionState (deletion : option RunDeletionState) : result store_error unit :=
  match deletion with
  | None => Ok tt
  | Some d =>
    let* _ := storage_id "deletion ID" (d_ID d) in
    let* _ := storage_id "deletion root run ID" (d_RootRunID d) in
    let* _ := if bool_decide (d_ParentRunID d = "") then Ok tt else
                let* _ := storage_id "deletion parent run ID" (d_ParentRunID d) in
                refuse (d_RootRunID d) "own parent" (bool_decide (d_ParentRunID d = d_RootRunID d)) in
    let* _ := first_err (storage_id "deletion run ID") (elems (d_RunIDs d)) in
    if bool_decide (d_Phase d = RunDeletionReserved) then
      refuse (d_RootRunID d) "reserved with a plan" (negb (bool_decide (elems (d_RunIDs d) = [])))
    else if bool_decide (d_Phase d = RunDeletionPlanned) || bool_decide (d_Phase d = RunDeletionUnlinked)
    then validateRunDeletionPlan (d_RootRunID d) (elems (d_RunIDs d))
    else Err (SInvalid (d_RootRunID d) "deletion phase")
  end.

Definition validateNewRunDeletion (run : RunRecord) : result store_error unit :=
  refuse (r_RunID run) "new run with deletion state" (bool_decide (is_Some (r_Deletion run))).

Definition ensureRunNotDeleting (run : RunRecord) : result store_error unit :=
  guard_err (bool_decide (is_Some (r_Deletion run))) (SNotAllowed (r_RunID run)).

Definition validateRunDeletionPhaseTransition (run existing next : string) : result store_error unit :=
  refuse run "deletion phase"
    (negb (if bool_decide (existing = RunDeletionReserved) then
             bool_decide (next = RunDeletionReserved) || bool_decide (next = RunDeletionPlanned)
           else if bool_decide (existing = RunDeletionPlanned) then
             bool_decide (next = RunDeletionPlanned) || bool_decide (next = RunDeletionUnlinked)
           else if bool_decide (existing = RunDeletionUnlinked) then
             bool_decide (next = RunDeletionUnlinked)
           else false)).

(** [reflect.DeepEqual] of the copies with the given fields cleared. *)
Definition same_but_deletion (a b : RunRecord) : bool :=
  bool_decide (with_Deletion None (cloneRunRecord a) = with_Deletion None (cloneRunRecord b)).
Definition same_but_children (a b : RunRecord) : bool :=
  bool_decide (without_children (cloneRunRecord a) = without_children (cloneRunRecord b)).

Definition validateRunDeletionUnlinkTransition (existing next : RunRecord) (id child : string)
    : result store_error unit :=
  let run := r_RunID existing in
  let* _ := refuse run "unlink is incomplete" (bool_decide (id = "") || bool_decide (child = "")) in
  let* _ := refuse run "run identity" (negb (bool_decide (r_RunID existing = r_RunID next))) in
  let* _ := match r_Deletion existing with
            | None => Ok tt
            | Some d =>
              let* _ := validateRunDeletionState (Some d) in
              refuse run "deletion is already planned"
                (negb (bool_decide (d_Phase d = RunDeletionReserved))
                 || negb (bool_decide (elems (d_RunIDs d) = [])))
            end in
  let* _ := refuse run "parent deletion state"
              (negb (bool_decide (r_Deletion existing = r_Deletion next))) in
  let wantChildren := filter (λ c, c ≠ child) (r_ChildRunIDs existing) in
  let found := bool_decide (child ∈ r_ChildRunIDs existing) in
  let* _ := refuse run "unlink must only remove the child"
              ((negb found || negb (bool_decide (wantChildren = r_ChildRunIDs next)))
               && (found || negb (bool_decide (r_ChildRunIDs existing = r_ChildRunIDs next)))) in
  let wantPending := filter (λ p, p_ChildRunID p ≠ child) (r_PendingChildRuns existing) in
  let found := found || bool_decide (child ∈ map p_ChildRunID (r_PendingChildRuns existing)) in
  let* _ := refuse run "unlink must only remove the child"
              (negb found || negb (bool_decide (wantPending = r_PendingChildRuns next))) in
  refuse run "parent run data" (negb (same_but_children existing next)).

(** The transition of a run that is already reserved. *)
Definition validateDeletionAdvance (existing next : RunRecord) (e n : RunDeletionState)
    : result store_error unit :=
  let run := r_RunID existing in
  let* _ := refuse run "deletion root" (negb (bool_decide (d_RootRunID e = d_RootRunID n))) in
  let* _ := refuse run "deletion parent" (negb (bool_decide (d_ParentRunID e = d_ParentRunID n))) in
  let* _ := if negb (bool_decide (d_RootRunID e = run)) then
              refuse run "descendant cannot advance"
                (negb (bool_decide (d_Phase e = RunDeletionReserved))
                 || negb (bool_decide (d_Phase n = RunDeletionReserved))
                 || negb (bool_decide (elems (d_RunIDs n) = [])))
            else refuse run "deletion parent changed"
                   (negb (bool_decide (d_ParentRunID n = r_ParentRunID next))) in
  let* _ := refuse run "deletion plan"
              (negb (bool_decide (elems (d_RunIDs e) = []))
               && negb (bool_decide (elems (d_RunIDs e) = elems (d_RunIDs n)))) in
  let* _ := validateRunDeletionPhaseTransition run (d_Phase e) (d_Phase n) in
  refuse run "run data" (negb (same_but_deletion existing next)).

(** The reservation of a run. *)
Definition validateDeletionReserve (existing next : RunRecord) (n : RunDeletionState)
    : result store_error unit :=
  let run := r_RunID existing in
  let* _ := validateRunDeletionStatus existing in
  let* _ := refuse run "deletion must begin reserved"
              (negb (bool_decide (d_Phase n = RunDeletionReserved))
               || negb (bool_decide (elems (d_RunIDs n) = []))) in
  let* _ := refuse run "deletion parent changed"
              (bool_decide (d_RootRunID n = r_RunID next)
               && negb (bool_decide (d_ParentRunID n = r_ParentRunID next))) in
  refuse run "run data" (negb (same_but_deletion existing next)).

Definition deletion_id (d : option RunDeletionState) : string :=
  match d with Some d => d_ID d | None => "" end.

(** A valid deletion has an identifier, so past the guard [next] has one. *)
Definition validateRunDeletionTransition (ctx : Context) (existing next : RunRecord)
    : result store_error unit :=
  match unlink_mutation ctx with
  | Some (id, child) => validateRunDeletionUnlinkTransition existing next id child
  | None =>
    let* _ := validateRunDeletionState (r_Deletion existing) in
    let* _ := validateRunDeletionState (r_Deletion next) in
    let existingID := deletion_id (r_Deletion existing) in
    let nextID := deletion_id (r_Deletion next) in
    if bool_decide (existingID = "") && bool_decide (nextID = "") then Ok tt else
    let mutationID := default "" (deletion_mutation ctx) in
    let* _ := guard_err (bool_decide (mutationID = "") || negb (bool_decide (nextID = mutationID))
                         || negb (bool_decide (existingID = "")) && negb (bool_decide (existingID = mutationID)))
                (SNotAllowed (r_RunID existing)) in
    match r_Deletion existing, r_Deletion next with
    | None, Some n => validateDeletionReserve existing next n
    | Some e, Some n => validateDeletionAdvance existing next e n
    | _, None => Err (SNotAllowed (r_RunID existing))
    end
  end.

(** [requireRunDeletionMutation]. *)
Definition requireRunDeletionMutation (ctx : Context) (runID deletionID : string)
    : result store_error unit :=
  let* _ := storage_id "deletion ID" deletionID in
  guard_err (negb (bool_decide (default "" (deletion_mutation ctx) = deletionID))) (SNotAllowed runID).

(** ** Child runs: [runtime/graph_runner.go] *)

Definition childRunIDForRequestKey (key : string) : string := "child-" +:+ key.

Definition blank (s : string) : bool := bool_decide (TrimSpace s = "").

Definition validatePendingChildRun (p : PendingChildRun) : result store_error unit :=
  let key := TrimSpace (p_RequestKey p) in
  let run := p_ChildRunID p in
  let* _ := refuse run "child request key" (bool_decide (key = "")) in
  let* _ := refuse run "child request key" (negb (bool_decide (key = p_RequestKey p))) in
  let* _ := storage_id "child run ID" (p_ChildRunID p) in
  let* _ := refuse run "child run ID" (negb (bool_decide (p_ChildRunID p = childRunIDForRequestKey key))) in
  let* _ := first_err (λ f : string * string, refuse run f.1 (blank f.2))
              [("parent run ID", p_ParentRunID p); ("parent step ID", p_ParentStepID p);
               ("parent task ID", p_ParentTaskID p); ("graph ref", p_GraphRef p);
               ("graph ID", p_GraphID p); ("graph version", p_GraphVersion p);
               ("namespace", p_Namespace p); ("input hash", p_InputHash p)] in
  refuse run "child reservation time" (p_ReservedAt p =? 0)%Z.

Definition validateChildRunRecordIdentity (run : RunRecord) : result store_error unit :=
  let key := TrimSpace (r_ChildRequestKey run) in
  if bool_decide (key = "") then Ok tt else
  refuse (r_RunID run) "request key" (negb (bool_decide (r_RunID run = childRunIDForRequestKey key))).

Definition validateReservedChildRun (run : RunRecord) (p : PendingChildRun) : result store_error unit :=
  let* _ := validateChildRunRecordIdentity run in
  first_err (λ f : string * string * string,
               refuse (r_RunID run) f.1.1 (negb (bool_decide (f.1.2 = f.2))))
    [("run ID", r_RunID run, p_ChildRunID p);
     ("request key", r_ChildRequestKey run, p_RequestKey p);
     ("input hash", r_ChildInputHash run, p_InputHash p);
     ("parent run ID", r_ParentRunID run, p_ParentRunID p);
     ("parent step ID", r_ParentStepID run, p_ParentStepID p);
     ("parent task ID", r_ParentTaskID run, p_ParentTaskID p);
     ("graph ID", r_GraphID run, p_GraphID p);
     ("graph version", r_GraphVersion run, p_GraphVersion p);
     ("graph hash", r_GraphHash run, p_GraphHash p);
     ("graph snapshot hash", r_GraphSnapshotHash run, p_GraphSnapshotHash p);
     ("graph session ID", r_GraphSessionID run, p_GraphSessionID p);
     ("namespace", r_Namespace run, p_Namespace p)].

Definition validateNewRunParent (run parent : RunRecord) : result store_error unit :=
  if bool_decide (r_ParentRunID run = "") then Ok tt else
  let id := r_RunID run in
  let* _ := storage_id "parent run ID" (r_ParentRunID run) in
  let* _ := refuse id "parent lookup" (negb (bool_decide (r_RunID parent = r_ParentRunID run))) in
  let* _ := ensureRunNotDeleting parent in
  let* _ := refuse id "root run" (bool_decide (r_RootRunID run = "") || bool_decide (r_RootRunID parent = "")
                                  || negb (bool_decide (r_RootRunID run = r_RootRunID parent))) in
  if bool_decide (r_ChildRequestKey run = "") then Ok tt else
  match filter (λ p, p_ChildRunID p = id) (r_PendingChildRuns parent) with
  | [] => Err (SInvalid id "no pending reservation")
  | [p] => validateReservedChildRun run p
  | _ => Err (SInvalid id "duplicate reservations")
  end.

Definition linked_step (run : string) (seen : gset string) (child : string)
    : result store_error (gset string) :=
  let* _ := storage_id "child run ID" child in
  let* _ := refuse run "duplicate child run ID" (bool_decide (child ∈ seen)) in
  Ok ({[child]} ∪ seen).

Definition pending_step (run : string) (linked : gset string) (seen : gset string * gset string)
    (p : PendingChildRun) : result store_error (gset string * gset string) :=
  let* _ := validatePendingChildRun p in
  let* _ := refuse run "pending child's parent" (negb (bool_decide (p_ParentRunID p = run))) in
  let* _ := refuse run "duplicate request key" (bool_decide (p_RequestKey p ∈ seen.1)) in
  let* _ := refuse run "duplicate pending child" (bool_decide (p_ChildRunID p ∈ seen.2)) in
  let* _ := refuse run "both pending and finalized" (bool_decide (p_ChildRunID p ∈ linked)) in
  Ok ({[p_RequestKey p]} ∪ seen.1, {[p_ChildRunID p]} ∪ seen.2).

Definition validateRunChildState (run : RunRecord) : result store_error unit :=
  let id := r_RunID run in
  let* _ := lift_lease (validateExecutionLease (r_ExecutionLease run)) in
  let* linked := foldM (linked_step id) ∅ (r_ChildRunIDs run) in
  let* _ := foldM (pending_step id linked) (∅, ∅) (r_PendingChildRuns run) in
  let key := r_ChildRequestKey run in
  if bool_decide (key = "") && bool_decide (r_ChildInputHash run = "") then Ok tt else
  let* _ := refuse id "both request key and input hash" (blank key || blank (r_ChildInputHash run)) in
  let* _ := refuse id "request key" (negb (bool_decide (key = TrimSpace key))) in
  let* _ := refuse id "parent run, step, and task IDs"
              (bool_decide (r_ParentRunID run = "") || bool_decide (r_ParentStepID run = "")
               || bool_decide (r_ParentTaskID run = "")) in
  validateChildRunRecordIdentity run.

(** ** Step effects *)

Definition EffectIntent : string := "intent".
Definition EffectSucceeded : string := "succeeded".
Definition EffectFailed : string := "failed".
Definition EffectUnknown : string := "unknown".
Definition EffectNotApplied : string := "not_applied".
Definition EffectCompensated : string := "compensated".

Definition EffectResolutionConfirmNotApplied : string := "confirm_not_applied".
Definition EffectResolutionCompensate : string := "compensate".
Definition EffectResolutionIntent : string := "intent".
Definition EffectResolutionSucceeded : string := "succeeded".
Definition EffectResolutionUnknown : string := "unknown".

Definition untrimmed (s : string) : bool :=
  bool_decide (s = "") || negb (bool_decide (TrimSpace s = s)).

Definition validateEffectResolution (step : StepRecord) : result store_error unit :=
  let id := s_StepID step in
  let status := s_EffectStatus step in
  match s_EffectResolution step with
  | None =>
    refuse id "resolved effect status requires a resolution"
      (bool_decide (status = EffectNotApplied) || bool_decide (status = EffectCompensated))
  | Some e =>
    let* _ := storage_id "effect resolution ID" (e_ID e) in
    let* _ := storage_id "effect resolution attempt ID" (e_AttemptID e) in
    let* _ := refuse id "actor" (untrimmed (e_Actor e)) in
    let* _ := refuse id "reason" (untrimmed (e_Reason e)) in
    let* _ := refuse id "requested_at" (e_RequestedAt e =? 0)%Z in
    let* _ :=
      if bool_decide (e_Action e = EffectResolutionConfirmNotApplied) then
        refuse id "compensation key" (negb (bool_decide (e_CompensationKey e = "")))
      else if bool_decide (e_Action e = EffectResolutionCompensate) then
        storage_id "compensation key" (e_CompensationKey e)
      else Err (SInvalid id "resolution action") in
    if bool_decide (e_Status e = EffectResolutionIntent) then
      let* _ := refuse id "intent cannot be resolved" (bool_decide (is_Some (e_ResolvedAt e))) in
      refuse id "intent requires unknown" (negb (bool_decide (status = EffectUnknown)))
    else if bool_decide (e_Status e = EffectResolutionUnknown) then
      refuse id "unknown is incomplete"
        (bool_decide (e_ResolvedAt e = None) || bool_decide (e_Error e = "")
         || negb (bool_decide (status = EffectUnknown)))
    else if bool_decide (e_Status e = EffectResolutionSucceeded) then
      let* _ := refuse id "succeeded is incomplete"
                  (bool_decide (e_ResolvedAt e = None) || negb (bool_decide (e_Error e = ""))) in
      let* _ := refuse id "confirmed status"
                  (bool_decide (e_Action e = EffectResolutionConfirmNotApplied)
                   && negb (bool_decide (status = EffectNotApplied))) in
      refuse id "compensated status"
        (bool_decide (e_Action e = EffectResolutionCompensate)
         && negb (bool_decide (status = EffectCompensated)))
    else Err (SInvalid id "resolution status")
  end.

Definition validateStepEffect (step : StepRecord) : result store_error unit :=
  let id := s_StepID step in
  if bool_decide (s_OperationKey step = "") then
    refuse id "effect metadata requires an operation key"
      (negb (bool_decide (s_EffectClass step = "")) || negb (bool_decide (s_EffectStatus step = "")))
  else
    let* _ := storage_id "step operation key" (s_OperationKey step) in
    let* _ := refuse id "effect class"
                (negb (bool_decide (NormalizeEffectClass (s_EffectClass step) = s_EffectClass step))) in
    let* _ := refuse id "effect status"
                (negb (bool_decide (s_EffectStatus step ∈
                   [EffectIntent; EffectSucceeded; EffectFailed; EffectUnknown; EffectNotApplied;
                    EffectCompensated]))) in
    validateEffectResolution step.

(** [json.Marshal] of two resolutions succeeds with one text: it fails on a
    year outside 0 to 9999, leaves empty optional fields out, and otherwise
    writes the fields one after the other. *)
Definition nanos_per_day : Z := 86400000000000.

Definition json_time (t : Z) : bool :=
  ((-366 * nanos_per_day <=? t) && (t <? 3652059 * nanos_per_day))%Z.

Definition json_times (e : EffectResolution) : bool :=
  json_time (e_RequestedAt e) && from_option json_time true (e_ResolvedAt e).

Definition same_text (a b : string) : bool := bool_decide (json_quote a = json_quote b).

Definition same_resolution_json (a b : EffectResolution) : bool :=
  json_times a && json_times b
  && same_text (e_ID a) (e_ID b) && same_text (e_AttemptID a) (e_AttemptID b)
  && same_text (e_Action a) (e_Action b) && same_text (e_Status a) (e_Status b)
  && same_text (e_Actor a) (e_Actor b) && same_text (e_Reason a) (e_Reason b)
  && same_text (e_CompensationKey a) (e_CompensationKey b) && same_text (e_Error a) (e_Error b)
  && (e_RequestedAt a =? e_RequestedAt b)%Z && bool_decide (e_ResolvedAt a = e_ResolvedAt b).

Definition resolution_identity (e : EffectResolution)
    : string * string * string * string * string * string * Z :=
  (e_ID e, e_AttemptID e, e_Action e, e_Actor e, e_Reason e, e_CompensationKey e, e_RequestedAt e).

Definition validateStepEffectTransition (existing next : StepRecord) : result store_error unit :=
  let id := s_StepID next in
  let* _ := validateStepEffect next in
  match s_EffectResolution existing, s_EffectResolution next with
  | None, None => Ok tt
  | None, Some e =>
    refuse id "resolution must start from unknown with intent"
      (negb (bool_decide (s_EffectStatus existing = EffectUnknown))
       || negb (bool_decide (e_Status e = EffectResolutionIntent)))
  | Some _, None => Err (SInvalid id "resolution cannot be removed")
  | Some p, Some e =>
    let* _ := refuse id "resolution identity"
                (negb (bool_decide (resolution_identity p = resolution_identity e))) in
    let allowed :=
      if bool_decide (e_Status p = EffectResolutionIntent) then
        bool_decide (e_Status e ∈ [EffectResolutionIntent; EffectResolutionSucceeded; EffectResolutionUnknown])
      else if bool_decide (e_Status p = EffectResolutionSucceeded)
              || bool_decide (e_Status p = EffectResolutionUnknown) then
        same_resolution_json p e && bool_decide (s_EffectStatus existing = s_EffectStatus next)
      else false in
    refuse id "resolution status" (negb allowed)
  end.

(** ** Lemmas *)

Lemma lift_lease_Ok {A} (m : result lease_error A) a : lift_lease m = Ok a ↔ m = Ok a.
Proof. destruct m; simpl; naive_solver. Qed.

Lemma refuse_Ok run what b u : refuse run what b = Ok u ↔ b = false.
Proof. apply guard_err_Ok. Qed.

Lemma storage_id_nonempty name v u : storage_id name v = Ok u → v ≠ "".
Proof.
  intros H%lift_lease_Ok ->. unfold validateRunnerStorageID in H. apply guard_err_Ok in H. done.
Qed.

(** [store_inv]: [result_inv] that also inverts the store's own guards and
    turns their tests into propositions. *)
Ltac test_inv :=
  repeat match goal with
  | H : refuse _ _ _ = Ok _ |- _ => apply refuse_Ok in H
  | H : lift_lease _ = Ok _ |- _ => apply lift_lease_Ok in H
  | H : negb _ = false |- _ => apply negb_false_iff in H
  | H : negb _ = true |- _ => apply negb_true_iff in H
  | H : bool_decide _ = false |- _ => apply bool_decide_eq_false in H
  | H : bool_decide _ = true |- _ => apply bool_decide_eq_true in H
  | H : _ || _ = false |- _ => apply orb_false_iff in H as [? ?]
  | H : _ && _ = true |- _ => apply andb_true_iff in H as [? ?]
  | H : (_ =? _)%N = true |- _ => apply N.eqb_eq in H
  | H : (_ =? _)%N = false |- _ => apply N.eqb_neq in H
  | H : (_ =? _)%Z = true |- _ => apply Z.eqb_eq in H
  end.
Ltac store_inv := repeat progress (result_inv; test_inv).

Lemma clone_slice_elems {A} (l : option (list A)) : elems (clone_slice l) = elems l.
Proof. by destruct l as [[]|]. Qed.

Lemma clone_slice_idemp {A} (l : option (list A)) : clone_slice (clone_slice l) = clone_slice l.
Proof. by destruct l as [[]|]. Qed.

Lemma clone_run_idemp r : cloneRunRecord (cloneRunRecord r) = cloneRunRecord r.
Proof.
  unfold cloneRunRecord, with_Deletion, assign. simpl. f_equal.
  destruct (r_Deletion r) as [d|]; [|done]. simpl. unfold clone_deletion. simpl.
  by rewrite clone_slice_idemp.
Qed.

(** A text without escapes is the text of one string only. *)
Lemma rune_width_pos l w : rune_width l = Some w → 0 < w.
Proof.
  unfold rune_width. intros H. repeat (case_match; simplify_eq; try lia).
Qed.

Lemma quote_ascii_plain a : "\"%char ∉ quote_ascii a → quote_ascii a = [a].
Proof.
  unfold quote_ascii. intros H. repeat case_match; try done; exfalso; apply H; simpl; left.
Qed.

Lemma quote_bytes_cons fuel a l :
  quote_bytes (S fuel) (a :: l) =
  if (N_of_ascii a <? 128)%N then quote_ascii a ++ quote_bytes fuel l
  else match rune_width (a :: l) with
       | None => lit "\ufffd" ++ quote_bytes fuel l
       | Some w =>
         match line_separator (take w (a :: l)) with
         | Some d => lit "\u202" ++ [d] ++ quote_bytes fuel (drop w (a :: l))
         | None => take w (a :: l) ++ quote_bytes fuel (drop w (a :: l))
         end
       end.
Proof. reflexivity. Qed.

Lemma quote_bytes_plain fuel l :
  length l ≤ fuel → "\"%char ∉ quote_bytes fuel l → quote_bytes fuel l = l.
Proof.
  revert l. induction fuel as [|fuel IH]; intros [|a l] Hlen H; try done; [simpl in *; lia|].
  rewrite quote_bytes_cons in *. simpl in Hlen.
  destruct (N_of_ascii a <? 128)%N.
  { rewrite not_elem_of_app in H. destruct H as [Ha Hl].
    by rewrite (quote_ascii_plain a Ha), (IH l) by (done || lia). }
  destruct (rune_width (a :: l)) as [w|] eqn:Hw; [|destruct H; simpl; left].
  apply rune_width_pos in Hw. destruct (line_separator _); [destruct H; simpl; left|].
  rewrite not_elem_of_app in H. destruct H as [_ H].
  rewrite (IH (drop w (a :: l))); [by rewrite take_drop| |done].
  rewrite length_drop. simpl. lia.
Qed.

Lemma json_quote_plain s t :
  json_quote s = of_bytes (dquote :: to_bytes s ++ [dquote]) → "\"%char ∉ to_bytes s →
  json_quote t = json_quote s → t = s.
Proof.
  intros Hs Hb H. rewrite Hs in H. unfold json_quote in H.
  apply (f_equal to_bytes) in H. rewrite !to_of_bytes in H. simpl in H. injection H as H.
  apply app_inj_tail in H as [H _].
  assert (length (to_bytes t) ≤ String.length t) as Hl.
  { clear. induction t; simpl; [done|]. unfold to_bytes in *. lia. }
  rewrite <-H in Hb. pose proof (quote_bytes_plain _ _ Hl Hb) as Hq. rewrite Hq in H.
  exact (inj to_bytes _ _ H).
Qed.
