(* ===== verification/RunStore.v ===== *)
(** * The memory execution store: [runtime/memory_store.go]

    Runs, steps and deletion fences in three maps behind one mutex.  Every
    method holds the mutex from its first read to its last write, so an
    operation is a function of the store and any concurrent execution is a
    sequence of them ([store_step]); an operation that fails writes nothing. *)

From Stdlib Require Import Ascii.
From S2P Require Import Prelude GoStrings Values Json Errors Lease Records.

Record Store := MkStore {
  runs : gmap string RunRecord;
  steps : gmap string StepRecord;
  deletions : gmap string string;
}.

Definition NewMemoryExecutionStore : Store := MkStore ∅ ∅ ∅.

(** [fences[runID]], the empty string for a missing key. *)
Definition fence_of (fences : gmap string string) (runID : string) : string :=
  default "" (fences !! runID).

Definition fence (s : Store) (runID : string) : string := fence_of (deletions s) runID.

Definition fenceMemoryRun (fences : gmap string string) (runID deletionID : string)
    : result store_error (gmap string string) :=
  let existingID := fence_of fences runID in
  let* _ := guard_err (negb (bool_decide (existingID = "")) && negb (bool_decide (existingID = deletionID)))
              (SNotAllowed runID) in
  Ok (<[runID := deletionID]> fences).

Definition ensureMemoryRunWritable (fences : gmap string string) (runID : string)
    : result store_error unit :=
  guard_err (negb (bool_decide (fence_of fences runID = ""))) (SNotAllowed runID).

Definition validateMemoryRunDeletion (ctx : Context) (runID : string) (deletion : option RunDeletionState)
    : result store_error unit :=
  match deletion with
  | None => Err (SNotAllowed runID)
  | Some d =>
    let* _ := validateRunDeletionState (Some d) in
    requireRunDeletionMutation ctx runID (d_ID d)
  end.

Definition validateMemoryRunFenceDeletion (ctx : Context) (fences : gmap string string) (runID : string)
    : result store_error unit :=
  let fenceID := fence_of fences runID in
  let* _ := guard_err (bool_decide (fenceID = "")) (SNotAllowed runID) in
  requireRunDeletionMutation ctx runID fenceID.

(** A lookup that reports a missing record. *)
Definition find {A} (m : gmap string A) (id : string) : result store_error A :=
  match m !! id with Some a => Ok a | None => Err (SNotFound id) end.

Definition CreateRun (ctx : Context) (s : Store) (run : RunRecord) : result store_error Store :=
  let* _ := fileStoreContextErr ctx in
  let* _ := storage_id "run ID" (r_RunID run) in
  let run := sanitizeRunRecord ctx run in
  let* _ := validateNewRunDeletion run in
  let* _ := validateRunChildState run in
  let* _ := ensureMemoryRunWritable (deletions s) (r_RunID run) in
  let* _ := guard_err (bool_decide (is_Some (runs s !! r_RunID run))) (SExists (r_RunID run)) in
  let* _ := if bool_decide (r_ParentRunID run = "") then Ok tt else
              let* _ := ensureMemoryRunWritable (deletions s) (r_ParentRunID run) in
              let* parent := find (runs s) (r_ParentRunID run) in
              validateNewRunParent run parent in
  Ok (MkStore (<[r_RunID run := cloneRunRecord run]> (runs s)) (steps s) (deletions s)).

(** [run.Revision = expectedRevision + 1] on [uint64]. *)
Definition next_revision (n : N) : N := ((n + 1) mod 2 ^ 64)%N.

Definition CompareAndSwapRun (ctx : Context) (s : Store) (expected : N) (run : RunRecord)
    : result store_error (Store * RunRecord) :=
  let* _ := fileStoreContextErr ctx in
  let* _ := storage_id "run ID" (r_RunID run) in
  let run := sanitizeRunRecord ctx run in
  let* _ := validateRunChildState run in
  let* existing := find (runs s) (r_RunID run) in
  let* _ := guard_err (negb (r_Revision existing =? expected)%N || negb (r_Revision run =? expected)%N)
              (SConflict (r_RunID run) expected (r_Revision existing)) in
  let* _ := validateRunDeletionTransition ctx existing run in
  let* _ := lift_lease (validateRunExecutionLeaseTransition (lease_context ctx) (leased existing) (leased run)) in
  let run := with_Revision (next_revision expected) run in
  Ok (MkStore (<[r_RunID run := cloneRunRecord run]> (runs s)) (steps s) (deletions s), cloneRunRecord run).

Definition GetRun (ctx : Context) (s : Store) (runID : string) : result store_error RunRecord :=
  let* _ := fileStoreContextErr ctx in
  let* _ := storage_id "run ID" runID in
  let* run := find (runs s) runID in Ok (cloneRunRecord run).

Definition AppendStep (ctx : Context) (s : Store) (step : StepRecord) : result store_error Store :=
  let* _ := fileStoreContextErr ctx in
  let* _ := storage_id "run ID" (s_RunID step) in
  let* _ := storage_id "step ID" (s_StepID step) in
  let step := sanitizeStepRecord ctx step in
  let* _ := validateStepEffect step in
  let* run := find (runs s) (s_RunID step) in
  let* _ := ensureRunNotDeleting run in
  let* _ := ensureMemoryRunWritable (deletions s) (s_RunID step) in
  let* _ := guard_err (bool_decide (is_Some (steps s !! s_StepID step))) (SExists (s_StepID step)) in
  Ok (MkStore (runs s) (<[s_StepID step := step]> (steps s)) (deletions s)).

Definition UpdateStep (ctx : Context) (s : Store) (step : StepRecord) : result store_error Store :=
  let* _ := fileStoreContextErr ctx in
  let* _ := storage_id "run ID" (s_RunID step) in
  let* _ := storage_id "step ID" (s_StepID step) in
  let step := sanitizeStepRecord ctx step in
  let* run := find (runs s) (s_RunID step) in
  let* _ := ensureRunNotDeleting run in
  let* _ := ensureMemoryRunWritable (deletions s) (s_RunID step) in
  let* existing := find (steps s) (s_StepID step) in
  let* _ := guard_err (negb (bool_decide (s_RunID existing = s_RunID step))) (SNotFound (s_StepID step)) in
  let* _ := validateStepEffectTransition existing step in
  Ok (MkStore (runs s) (<[s_StepID step := step]> (steps s)) (deletions s)).

Definition GetStep (ctx : Context) (s : Store) (stepID : string) : result store_error StepRecord :=
  let* _ := fileStoreContextErr ctx in
  let* _ := storage_id "step ID" stepID in
  find (steps s) stepID.

(** Deleting a run that is gone is no error; its steps go with it. *)
Definition DeleteRun (ctx : Context) (s : Store) (runID : string) : result store_error Store :=
  let* _ := fileStoreContextErr ctx in
  let* _ := storage_id "run ID" runID in
  let* _ := validateMemoryRunFenceDeletion ctx (deletions s) runID in
  match runs s !! runID with
  | None => Ok s
  | Some run =>
    let* _ := validateMemoryRunDeletion ctx runID (r_Deletion run) in
    Ok (MkStore (delete runID (runs s)) (filter (λ p, s_RunID p.2 ≠ runID) (steps s)) (deletions s))
  end.

Definition FenceRunDeletion (ctx : Context) (s : Store) (runID deletionID : string)
    : result store_error Store :=
  let* _ := fileStoreContextErr ctx in
  let* _ := storage_id "run ID" runID in
  let* _ := storage_id "deletion ID" deletionID in
  let* _ := requireRunDeletionMutation ctx runID deletionID in
  let* fences := fenceMemoryRun (deletions s) runID deletionID in
  Ok (MkStore (runs s) (steps s) fences).

(** ** Listing *)

Record RunFilter := MkFilter {
  Statuses : list string;
  fl_ParentRunID : string;
  fl_ParentTaskID : string;
  fl_RootRunID : string;
  fl_Namespace : string;
}.

(** A field of the filter that is empty does not restrict. *)
Definition field_matches (want have : string) : bool :=
  bool_decide (want = "") || bool_decide (have = want).

Definition matches (filter : RunFilter) (run : RunRecord) : bool :=
  (bool_decide (Statuses filter = []) || bool_decide (r_Status run ∈ Statuses filter))
  && field_matches (fl_ParentRunID filter) (r_ParentRunID run)
  && field_matches (fl_ParentTaskID filter) (r_ParentTaskID run)
  && field_matches (fl_RootRunID filter) (r_RootRunID run)
  && field_matches (fl_Namespace filter) (r_Namespace run).

Definition run_before : RunRecord → RunRecord → bool :=
  less_then r_StartedAt z_lt (less_last r_RunID str_lt).
Definition step_before : StepRecord → StepRecord → bool :=
  less_then s_StartedAt z_lt (less_last s_StepID str_lt).

Definition ListRuns (ctx : Context) (s : Store) (f : RunFilter) : result store_error (list RunRecord) :=
  let* _ := fileStoreContextErr ctx in
  Ok (stable_sort run_before (map cloneRunRecord (filter (λ r, matches f r = true) (map_to_list (runs s)).*2))).

Definition ListSteps (ctx : Context) (s : Store) (runID : string) : result store_error (list StepRecord) :=
  let* _ := fileStoreContextErr ctx in
  let* _ := storage_id "run ID" runID in
  Ok (stable_sort step_before (filter (λ t, s_RunID t = runID) (map_to_list (steps s)).*2)).

(** ** Histories *)

Inductive op :=
  | OCreate (run : RunRecord)
  | OCas (expected : N) (run : RunRecord)
  | OAppend (step : StepRecord)
  | OUpdate (step : StepRecord)
  | ODelete (runID : string)
  | OFence (runID deletionID : string).

Definition exec (ctx : Context) (s : Store) (o : op) : result store_error Store :=
  match o with
  | OCreate run => CreateRun ctx s run
  | OCas expected run => let* p := CompareAndSwapRun ctx s expected run in Ok p.1
  | OAppend step => AppendStep ctx s step
  | OUpdate step => UpdateStep ctx s step
  | ODelete runID => DeleteRun ctx s runID
  | OFence runID deletionID => FenceRunDeletion ctx s runID deletionID
  end.

(** The [uint64] fields of the record an operation is called with. *)
Definition typed (o : op) : Prop :=
  match o with
  | OCreate run | OCas _ run => (r_Revision run < 2 ^ 64)%N ∧ (epoch_of (leased run) < 2 ^ 64)%N
  | _ => True
  end.

(** One successful operation of some caller; a failed one leaves the store. *)
Inductive store_step (s s' : Store) : Prop :=
  | store_op ctx o : typed o → exec ctx s o = Ok s' → store_step s s'.

Definition reachable (s : Store) : Prop := rtc store_step NewMemoryExecutionStore s.

(** ** Effects of an operation *)

Lemma find_Ok {A} (m : gmap string A) id a : find m id = Ok a ↔ m !! id = Some a.
Proof. unfold find. destruct (m !! id); naive_solver. Qed.

Lemma writable_Ok m id u : ensureMemoryRunWritable m id = Ok u ↔ fence_of m id = "".
Proof.
  unfold ensureMemoryRunWritable. rewrite guard_err_Ok, negb_false_iff. apply bool_decide_eq_true.
Qed.

Lemma required_Ok ctx id d u :
  requireRunDeletionMutation ctx id d = Ok u → d ≠ "" ∧ default "" (deletion_mutation ctx) = d.
Proof.
  unfold requireRunDeletionMutation. intros H. store_inv. split; [by eapply storage_id_nonempty|done].
Qed.

Lemma fenced_Ok ctx m id u :
  validateMemoryRunFenceDeletion ctx m id = Ok u →
  fence_of m id ≠ "" ∧ default "" (deletion_mutation ctx) = fence_of m id.
Proof.
  unfold validateMemoryRunFenceDeletion. cbv zeta. intros H. store_inv.
  split; [done|]. by eapply required_Ok.
Qed.

Lemma reserved_Ok ctx id d u :
  validateMemoryRunDeletion ctx id d = Ok u →
  ∃ x, d = Some x ∧ d_ID x ≠ "" ∧ default "" (deletion_mutation ctx) = d_ID x.
Proof.
  unfold validateMemoryRunDeletion. destruct d as [x|]; [|done]. intros H. store_inv.
  exists x. split; [done|]. by eapply required_Ok.
Qed.

Lemma fence_run_Ok m id d m' :
  fenceMemoryRun m id d = Ok m' →
  m' = <[id := d]> m ∧ (fence_of m id = "" ∨ fence_of m id = d).
Proof.
  unfold fenceMemoryRun. cbv zeta. intros H. store_inv. split; [done|].
  match goal with Hb : _ && _ = false |- _ => apply andb_false_iff in Hb as [Hb|Hb] end; store_inv; auto.
Qed.

Lemma not_deleting_Ok r u : ensureRunNotDeleting r = Ok u ↔ r_Deletion r = None.
Proof.
  unfold ensureRunNotDeleting. rewrite guard_err_Ok, bool_decide_eq_false. symmetry.
  apply eq_None_not_Some.
Qed.

(** [fence_inv]: the guards of the store as facts on fences and reservations. *)
Ltac fence_inv :=
  store_inv;
  repeat match goal with
  | H : find _ _ = Ok _ |- _ => apply find_Ok in H
  | H : ensureMemoryRunWritable _ _ = Ok _ |- _ => apply writable_Ok in H
  | H : ensureRunNotDeleting _ = Ok _ |- _ => apply not_deleting_Ok in H
  | H : validateMemoryRunFenceDeletion _ _ _ = Ok _ |- _ => apply fenced_Ok in H as [? ?]
  | H : validateMemoryRunDeletion _ _ _ = Ok _ |- _ => apply reserved_Ok in H as (? & ? & ? & ?)
  | H : requireRunDeletionMutation _ _ _ = Ok _ |- _ => apply required_Ok in H as [? ?]
  | H : fenceMemoryRun _ _ _ = Ok _ |- _ => apply fence_run_Ok in H as [? ?]
  | H : ¬ is_Some _ |- _ => apply eq_None_not_Some in H
  end.

Definition put_run (r : RunRecord) (s : Store) : Store :=
  MkStore (<[r_RunID r := r]> (runs s)) (steps s) (deletions s).
Definition put_step (t : StepRecord) (s : Store) : Store :=
  MkStore (runs s) (<[s_StepID t := t]> (steps s)) (deletions s).
Definition drop_run (id : string) (s : Store) : Store :=
  MkStore (delete id (runs s)) (filter (λ p, s_RunID p.2 ≠ id) (steps s)) (deletions s).
Definition put_fence (id d : string) (s : Store) : Store :=
  MkStore (runs s) (steps s) (<[id := d]> (deletions s)).

(** The abstract specification of the store: what a successful operation may
    do, and under which conditions. *)
Inductive store_change (s : Store) : Store → Prop :=
  | change_create r :
      runs s !! r_RunID r = None → fence s (r_RunID r) = "" → r_Deletion r = None →
      (epoch_of (leased r) < 2 ^ 64)%N →
      (r_ParentRunID r ≠ "" → fence s (r_ParentRunID r) = "" ∧ is_Some (runs s !! r_ParentRunID r)) →
      store_change s (put_run r s)
  | change_cas ctx lctx old next :
      runs s !! r_RunID next = Some old → r_Revision next = r_Revision old →
      validateRunDeletionTransition ctx old next = Ok tt →
      leased next = leased old ∨ validateRunExecutionLeaseTransition lctx (leased old) (leased next) = Ok tt →
      (epoch_of (leased next) < 2 ^ 64)%N →
      store_change s (put_run (cloneRunRecord (with_Revision (next_revision (r_Revision old)) next)) s)
  | change_append t r :
      runs s !! s_RunID t = Some r → r_Deletion r = None → fence s (s_RunID t) = "" →
      steps s !! s_StepID t = None → store_change s (put_step t s)
  | change_update t old r :
      runs s !! s_RunID t = Some r → r_Deletion r = None → fence s (s_RunID t) = "" →
      steps s !! s_StepID t = Some old → s_RunID old = s_RunID t →
      validateStepEffectTransition old t = Ok tt → store_change s (put_step t s)
  | change_drop id r d :
      runs s !! id = Some r → r_Deletion r = Some d → fence s id = d_ID d → d_ID d ≠ "" →
      store_change s (drop_run id s)
  | change_noop : store_change s s
  | change_fence id d :
      d ≠ "" → fence s id = "" ∨ fence s id = d → store_change s (put_fence id d s).

Lemma create_change ctx s r s' :
  typed (OCreate r) → CreateRun ctx s r = Ok s' → store_change s s'.
Proof.
  intros [_ Hep] H. unfold CreateRun, validateNewRunDeletion in H. fence_inv.
  apply (change_create _ (cloneRunRecord (sanitizeRunRecord ctx r))); try done.
  - simpl in *. by match goal with Hd : r_Deletion r = None |- _ => rewrite Hd end.
  - intros Hp. rewrite bool_decide_false in * by exact Hp. fence_inv. eauto.
Qed.

Lemma cas_inv ctx s e r s' out :
  CompareAndSwapRun ctx s e r = Ok (s', out) →
  s' = put_run out s ∧
  out = cloneRunRecord (with_Revision (next_revision e) (sanitizeRunRecord ctx r)) ∧
  ∃ old, runs s !! r_RunID r = Some old ∧ r_Revision old = e ∧ r_Revision r = e ∧
    validateRunDeletionTransition ctx old (sanitizeRunRecord ctx r) = Ok tt ∧
    validateRunExecutionLeaseTransition (lease_context ctx) (leased old) (leased r) = Ok tt.
Proof.
  intros H. unfold CompareAndSwapRun in H. result_inv. simplify_eq.
  match goal with Hf : find _ _ = Ok ?o |- _ => apply find_Ok in Hf; rename o into old end.
  store_inv. subst e.
  match goal with Hl : validateRunExecutionLeaseTransition _ _ _ = Ok ?u,
    Hd : validateRunDeletionTransition _ _ _ = Ok ?v |- _ => destruct u, v end.
  split_and!; [done..|]. by exists old.
Qed.

Lemma cas_change ctx s e r s' out :
  typed (OCas e r) → CompareAndSwapRun ctx s e r = Ok (s', out) → store_change s s'.
Proof.
  intros [_ Hep] H. apply cas_inv in H as (-> & -> & old & Ho & <- & Hr & Hd & Hl).
  apply (change_cas _ ctx (lease_context ctx) old (sanitizeRunRecord ctx r)); try done. by right.
Qed.

Lemma step_change s s' : store_step s s' → store_change s s'.
Proof.
  intros [ctx [r|e r|t|t|id|id d] Ht H]; simpl in H.
  - by apply (create_change ctx s r).
  - result_inv. subst. destruct x as [s1 out]. by apply (cas_change ctx s e r s1 out).
  - unfold AppendStep in H. fence_inv. by eapply (change_append _ (sanitizeStepRecord ctx t)).
  - unfold UpdateStep in H. fence_inv.
    match goal with Hv : validateStepEffectTransition _ _ = Ok ?u |- _ => destruct u end.
    by eapply (change_update _ (sanitizeStepRecord ctx t)).
  - unfold DeleteRun in H. fence_inv.
    destruct (runs s !! id) as [r|] eqn:Hr; [|store_inv; subst; constructor]. fence_inv.
    eapply (change_drop _ id r); try done. unfold fence. congruence.
  - unfold FenceRunDeletion in H. fence_inv. subst. by apply change_fence.
Qed.

(** ** The invariant of the maps *)

(** Records are filed under their identifiers, every step has its run, and the
    stored epochs are [uint64]. *)
Record store_wf (s : Store) : Prop := {
  wf_run id r : runs s !! id = Some r → r_RunID r = id ∧ (epoch_of (leased r) < 2 ^ 64)%N;
  wf_step k t : steps s !! k = Some t → s_StepID t = k ∧ is_Some (runs s !! s_RunID t);
}.

Lemma drop_step id s k t :
  steps (drop_run id s) !! k = Some t ↔ steps s !! k = Some t ∧ s_RunID t ≠ id.
Proof. simpl. by rewrite map_lookup_filter_Some. Qed.

Lemma change_wf s s' : store_change s s' → store_wf s → store_wf s'.
Proof.
  intros Hc [Hr Ht]. destruct Hc as [r Hn _ _ He _|ctx lctx old next Ho _ _ _ He|t r H _ _ _
    |t old r H _ _ _ _ _|id r d _ _ _ _| |id d _ _]; try by split.
  1,2: split; simpl; [intros id r' [[<- <-]|[_ Hl]]%lookup_insert_Some; [done|by apply Hr]|];
    intros k t Hk; destruct (Ht k t Hk) as [? ?]; split; [done|];
    apply lookup_insert_is_Some'; by right.
  1,2: split; simpl; [done|]; intros k t' [[<- <-]|[_ Hl]]%lookup_insert_Some; [by eauto|by apply Ht].
  split.
  - simpl. intros k r' [_ Hl]%lookup_delete_Some. by apply Hr.
  - intros k t [Hk Hne]%drop_step. destruct (Ht k t Hk) as [? ?]. split; [done|]. simpl.
    by rewrite lookup_delete_ne.
Qed.

Lemma steps_wf s s' : rtc store_step s s' → store_wf s → store_wf s'.
Proof. induction 1 as [|s1 s2 s3 H _ IH]; [done|]. intros Hw. apply IH. by eapply change_wf, Hw; apply step_change. Qed.

Lemma reachable_wf s : reachable s → store_wf s.
Proof. intros H. apply (steps_wf _ _ H). split; intros ? ? Hl; by destruct (lookup_empty_Some _ _ Hl). Qed.

(** ** Fences *)

Lemma change_fence_le s s' id :
  store_change s s' → fence s id ≠ "" → fence s' id = fence s id.
Proof.
  intros [| | | | | |id' d Hd Hf] Hne; try done. unfold fence, fence_of. simpl.
  destruct (decide (id = id')) as [->|Hn]; [|by rewrite lookup_insert_ne].
  rewrite lookup_insert_eq. simpl. destruct Hf; [done|]. unfold fence, fence_of in *. congruence.
Qed.

(** A fenced run that is gone stays gone. *)
Definition buried (id : string) (s : Store) : Prop := fence s id ≠ "" ∧ runs s !! id = None.

Lemma change_buried s s' id : store_change s s' → buried id s → buried id s'.
Proof.
  intros Hc [Hf Hn]. split; [by rewrite (change_fence_le s s' id Hc Hf)|].
  destruct Hc as [r _ Hf' _ _ _|ctx lctx old next Ho _ _ _ _| | |id' r d _ _ _ _| |]; try done; simpl.
  - rewrite lookup_insert_ne; [done|]. intros <-. done.
  - rewrite lookup_insert_ne; [done|]. intros <-. unfold cloneRunRecord, with_Revision, with_Deletion, assign in Hn. simpl in Hn. congruence.
  - apply lookup_delete_None. by right.
Qed.

Lemma steps_buried s s' id : rtc store_step s s' → buried id s → buried id s' ∧ fence s' id = fence s id.
Proof.
  induction 1 as [|s1 s2 s3 H _ IH]; [done|]. intros Hb. apply step_change in H.
  destruct (IH (change_buried _ _ _ H Hb)) as [Hb' Hf]. split; [done|].
  rewrite Hf. apply change_fence_le; [done|apply Hb].
Qed.

Lemma change_dropped s s' id :
  store_change s s' → is_Some (runs s !! id) → runs s' !! id = None → buried id s'.
Proof.
  intros Hc [r0 Hr0] Hn. split; [|done].
  destruct Hc as [r Hf _ _ _ _|ctx lctx old next Ho _ _ _ _| | |id' r d Hr Hd Hf He| |]; simpl in *; try congruence.
  - apply lookup_insert_None in Hn as [? _]. congruence.
  - apply lookup_insert_None in Hn as [? _]. congruence.
  - apply lookup_delete_None in Hn as [->|?]; [|congruence]. unfold fence, fence_of in *. simpl. congruence.
Qed.

Lemma delete_buried ctx s id s' : DeleteRun ctx s id = Ok s' → buried id s' ∧ fence s' id = fence s id.
Proof.
  intros H. unfold DeleteRun in H. result_inv.
  match goal with Hv : validateMemoryRunFenceDeletion _ _ _ = _ |- _ =>
    unfold validateMemoryRunFenceDeletion in Hv end. store_inv.
  destruct (runs s !! id) as [r|] eqn:Hr; store_inv; subst; (split; [split|]); try done.
  simpl. apply lookup_delete_eq.
Qed.

(** ** Revisions *)

(** The run is gone for good, or its revision lies between two bounds. *)
Definition revised (id : string) (lo hi : N) (s : Store) : Prop :=
  buried id s ∨ ∃ r, runs s !! id = Some r ∧ (lo ≤ r_Revision r ≤ hi)%N.

Lemma next_revision_succ n : (n + 1 < 2 ^ 64)%N → next_revision n = (n + 1)%N.
Proof. apply N.mod_small. Qed.

Lemma change_revised s s' id lo hi :
  store_change s s' → (hi + 1 < 2 ^ 64)%N → revised id lo hi s → revised id lo (hi + 1) s'.
Proof.
  intros Hc Hw [Hb|(r0 & Hr0 & Hlo)]; [left; by eapply change_buried|].
  destruct (runs s' !! id) as [r'|] eqn:Hr'; [|left; eapply change_dropped; eauto].
  right. exists r'. split; [done|].
  destruct Hc as [r Hn _ _ _ _|ctx lctx old next Ho Hrev _ _ _| | |id' r d _ _ _ _| |]; simpl in Hr';
    try (assert (r' = r0) as -> by congruence; lia).
  - apply lookup_insert_Some in Hr' as [[<- <-]|[_ Hl]]; [congruence|].
    assert (r' = r0) as -> by congruence. lia.
  - apply lookup_insert_Some in Hr' as [[Hid <-]|[_ Hl]].
    + simpl in *. rewrite Hid in Ho. assert (old = r0) as -> by congruence.
      rewrite next_revision_succ; lia.
    + assert (r' = r0) as -> by congruence. lia.
  - apply lookup_delete_Some in Hr' as [_ Hl]. assert (r' = r0) as -> by congruence. lia.
Qed.

Lemma steps_revised n s s' id lo hi :
  nsteps store_step n s s' → (hi + N.of_nat n < 2 ^ 64)%N → revised id lo hi s →
  revised id lo (hi + N.of_nat n) s'.
Proof.
  intros Hn. revert hi. induction Hn as [s|n s1 s2 s3 H _ IH]; intros hi Hw Hr.
  - by rewrite N.add_0_r.
  - replace (hi + N.of_nat (S n))%N with (hi + 1 + N.of_nat n)%N by lia.
    apply IH; [lia|]. apply change_revised with s1; [by apply step_change|lia|done].
Qed.

(** ** The deletion protocol *)

Definition phase_rank (p : string) : nat :=
  if decide (p = RunDeletionReserved) then 0
  else if decide (p = RunDeletionPlanned) then 1
  else if decide (p = RunDeletionUnlinked) then 2 else 3.

(** What one deletion state may become: the same deletion, in the same or a
    later phase, with a plan that is set once. *)
Definition deletion_le (d d' : RunDeletionState) : Prop :=
  d_ID d' = d_ID d ∧ d_RootRunID d' = d_RootRunID d ∧ d_ParentRunID d' = d_ParentRunID d ∧
  phase_rank (d_Phase d) ≤ phase_rank (d_Phase d') ∧
  (elems (d_RunIDs d) = [] ∨ elems (d_RunIDs d') = elems (d_RunIDs d)).

#[export] Instance deletion_le_preorder : PreOrder deletion_le.
Proof.
  split.
  - intros d. unfold deletion_le. naive_solver.
  - intros a b c (H1 & H2 & H3 & H4 & H5) (K1 & K2 & K3 & K4 & K5). split_and!; try congruence; [lia|].
    destruct H5 as [->|H5]; [by left|]. destruct K5 as [K5|K5]; [left|right]; congruence.
Qed.

Lemma clone_deletion_le d : deletion_le d (clone_deletion d).
Proof. unfold deletion_le. simpl. rewrite clone_slice_elems. naive_solver. Qed.

(** Everything of a run but its revision, its children and its deletion. *)
Definition frozen (r : RunRecord) : RunRecord := assign 0 [] [] None (r_ErrorMessage r) r.

(** What may still happen to a run that is being deleted. *)
Definition follows (r r' : RunRecord) : Prop :=
  frozen r' = frozen r ∧ r_ChildRunIDs r' `sublist_of` r_ChildRunIDs r ∧
  r_PendingChildRuns r' `sublist_of` r_PendingChildRuns r ∧
  ∀ d, r_Deletion r = Some d → ∃ d', r_Deletion r' = Some d' ∧ deletion_le d d'.

#[export] Instance follows_preorder : PreOrder follows.
Proof.
  split.
  - intros r. split_and!; [done..|]. intros d Hd. by exists d.
  - intros a b c (H1 & H2 & H3 & H4) (K1 & K2 & K3 & K4). split_and!; [congruence|by etrans|by etrans|].
    intros d Hd. destruct (H4 d Hd) as (d' & Hd' & Hle). destruct (K4 d' Hd') as (d2 & Hd2 & Hle2).
    exists d2. split; [done|]. by trans d'.
Qed.

Lemma follows_clone r n : follows r (cloneRunRecord (with_Revision n r)).
Proof.
  split_and!; [done..|]. intros d Hd. exists (clone_deletion d). split; [by simpl; rewrite Hd|].
  apply clone_deletion_le.
Qed.

Lemma same_but_deletion_frozen a b :
  same_but_deletion a b = true →
  frozen b = frozen a ∧ r_ChildRunIDs b = r_ChildRunIDs a ∧ r_PendingChildRuns b = r_PendingChildRuns a.
Proof.
  unfold same_but_deletion. intros H%bool_decide_eq_true.
  split_and!; [apply (f_equal frozen) in H|apply (f_equal r_ChildRunIDs) in H
    |apply (f_equal r_PendingChildRuns) in H]; exact (eq_sym H).
Qed.

Lemma phase_transition_rank run p q :
  validateRunDeletionPhaseTransition run p q = Ok tt → phase_rank p ≤ phase_rank q.
Proof.
  unfold validateRunDeletionPhaseTransition, phase_rank. intros H. test_inv.
  repeat case_bool_decide; simpl in H; subst; repeat case_decide; try done; try lia.
Qed.

Lemma transition_follows ctx old next d :
  validateRunDeletionTransition ctx old next = Ok tt → r_Deletion old = Some d → follows old next.
Proof.
  intros H Hd. unfold validateRunDeletionTransition in H.
  destruct (unlink_mutation ctx) as [[id child]|].
  - unfold validateRunDeletionUnlinkTransition in H. store_inv.
    match goal with Hs : same_but_children _ _ = true |- _ =>
      unfold same_but_children in Hs; apply bool_decide_eq_true in Hs; apply (f_equal frozen) in Hs; rename Hs into Hfr end.
    match goal with He : r_Deletion old = r_Deletion next |- _ => rename He into Heq end.
    split; [exact (eq_sym Hfr)|]. split; [|split; [|intros d0 Hd0; exists d0; split; [congruence|done]]].
    + match goal with Hc : _ && _ = false |- _ => apply andb_false_iff in Hc as [Hc|Hc] end; store_inv.
      * match goal with Hc : filter _ _ = r_ChildRunIDs next |- _ => rewrite <-Hc end. apply sublist_filter.
      * match goal with Hc : _ = r_ChildRunIDs next |- _ => by rewrite <-Hc end.
    + match goal with Hc : filter _ _ = r_PendingChildRuns next |- _ => rewrite <-Hc end. apply sublist_filter.
  - rewrite Hd in H. cbv zeta in H. result_inv.
    match goal with Hi : (if _ then _ else _) = Ok _ |- _ => rename Hi into Hgo end.
    match goal with Hv : validateRunDeletionState (Some d) = _ |- _ => simpl in Hv; result_inv;
      match goal with Hs : storage_id _ (d_ID d) = _ |- _ => apply storage_id_nonempty in Hs end end.
    simpl in Hgo. rewrite bool_decide_false in Hgo by done. simpl in Hgo. store_inv.
    destruct (r_Deletion next) as [n|] eqn:Hn; [|done]. simpl in *.
    unfold validateDeletionAdvance in *. store_inv.
    match goal with Hs : same_but_deletion _ _ = true |- _ =>
      apply same_but_deletion_frozen in Hs as (Hf & Hc & Hp) end.
    split; [done|]. split; [by rewrite Hc|]. split; [by rewrite Hp|].
    intros d0 Hd0. assert (d0 = d) as -> by congruence. exists n. split; [done|].
    match goal with Hph : validateRunDeletionPhaseTransition _ _ _ = Ok ?u |- _ =>
      destruct u; apply phase_transition_rank in Hph end.
    split_and!; try congruence.
    match goal with Hx : negb (bool_decide (elems (d_RunIDs d) = [])) && _ = false |- _ =>
      apply andb_false_iff in Hx as [?|?] end; store_inv; [by left|by right].
Qed.

(** ** Resolutions of effects *)

(** What may become of a resolution: its identity stays, and once it has an
    outcome so does everything else. *)
Definition resolution_le (t t' : StepRecord) : Prop :=
  ∀ e, s_EffectResolution t = Some e → ∃ e', s_EffectResolution t' = Some e' ∧
    resolution_identity e' = resolution_identity e ∧
    (e_Status e ≠ EffectResolutionIntent →
       e_Status e' = e_Status e ∧ e_ResolvedAt e' = e_ResolvedAt e ∧
       json_quote (e_Error e') = json_quote (e_Error e) ∧ s_EffectStatus t' = s_EffectStatus t).

#[export] Instance resolution_le_preorder : PreOrder resolution_le.
Proof.
  split.
  - intros t e He. by exists e.
  - intros a b c Hab Hbc e He. destruct (Hab e He) as (e' & He' & Hi & Ht).
    destruct (Hbc e' He') as (e2 & He2 & Hi2 & Ht2). exists e2. split_and!; [done|congruence|].
    intros Hn. destruct (Ht Hn) as (Hs & Hr & Hq & Hst).
    destruct Ht2 as (Hs2 & Hr2 & Hq2 & Hst2); [congruence|]. split_and!; congruence.
Qed.

Lemma outcome_text s t :
  s = EffectResolutionSucceeded ∨ s = EffectResolutionUnknown → json_quote t = json_quote s → t = s.
Proof.
  intros [-> | ->]; apply json_quote_plain; try reflexivity; by apply (bool_decide_unpack _).
Qed.

Lemma effect_transition_le old t : validateStepEffectTransition old t = Ok tt → resolution_le old t.
Proof.
  intros H p Hp. unfold validateStepEffectTransition in H. rewrite Hp in H. cbv zeta in H. result_inv.
  destruct (s_EffectResolution t) as [e|]; [|done]. store_inv. exists e.
  split_and!; [done|done|]. intros Hn.
  match goal with Ha : (if _ then _ else _) = true |- _ => rename Ha into Hallow end.
  rewrite bool_decide_false in Hallow by done.
  destruct (bool_decide (e_Status p = _) || _) eqn:Hs; [|done].
  apply orb_true_iff in Hs. unfold same_resolution_json, same_text in Hallow. test_inv.
  assert (e_Status e = e_Status p) as Hst.
  { apply outcome_text; [|done]. destruct Hs as [Hs|Hs]; test_inv; [by left|by right]. }
  done.
Qed.

(** One operation changes a step within its run or removes the run. *)
Lemma change_step s s' k t :
  store_change s s' → store_wf s → steps s !! k = Some t →
  buried (s_RunID t) s' ∨
  ∃ t', steps s' !! k = Some t' ∧ s_RunID t' = s_RunID t ∧ resolution_le t t' ∧
    (t' = t ∨ ∃ r, runs s !! s_RunID t = Some r ∧ r_Deletion r = None).
Proof.
  intros Hc Hw Hk. destruct (wf_step s Hw k t Hk) as [Hid Hrun].
  destruct Hc as [r Hn _ _ _ _|ctx lctx old next Ho _ _ _ _|a r Hr Hd _ Hn|a old r Hr Hd _ Ho Hsame Hv
    |id r d Hr Hd Hf He| |id d _ _]; try (right; exists t; split_and!; [done..|by left]).
  - right. exists t. split_and!; [|done|done|by left]. simpl. rewrite lookup_insert_ne; [done|].
    intros <-. congruence.
  - right. simpl. destruct (decide (s_StepID a = k)) as [<-|Hne].
    + rewrite lookup_insert_eq. assert (old = t) as -> by congruence. exists a.
      split_and!; [done|congruence|by apply effect_transition_le|right; exists r; split; congruence].
    + rewrite lookup_insert_ne by done. exists t. split_and!; [done..|by left].
  - destruct (decide (s_RunID t = id)) as [<-|Hne].
    + left. split; [unfold fence, fence_of in *; simpl; congruence|apply lookup_delete_eq].
    + right. exists t. split_and!; [by apply drop_step|done..|by left].
Qed.

Lemma steps_step s s' k t :
  rtc store_step s s' → store_wf s → steps s !! k = Some t →
  buried (s_RunID t) s' ∨
  ∃ t', steps s' !! k = Some t' ∧ s_RunID t' = s_RunID t ∧ resolution_le t t'.
Proof.
  intros Hs. revert t. induction Hs as [s|s1 s2 s3 H Hs IH]; intros t Hw Hk; [right; by exists t|].
  apply step_change in H.
  destruct (change_step _ _ _ _ H Hw Hk) as [Hb|(t2 & Hk2 & Hr2 & Hle & _)].
  { left. by eapply steps_buried. }
  destruct (IH t2 (change_wf _ _ H Hw) Hk2) as [Hb|(t3 & Hk3 & Hr3 & Hle3)].
  - left. by rewrite <-Hr2.
  - right. exists t3. split_and!; [done|congruence|by trans t2].
Qed.

(** One operation changes a run by a write its rules accept, or removes it. *)
Lemma change_run s s' id r :
  store_change s s' → store_wf s → runs s !! id = Some r →
  buried id s' ∨ ∃ r', runs s' !! id = Some r' ∧
    (r' = r ∨ (leased r' = leased r ∨ lease_step (leased r) (leased r')) ∧ (is_Some (r_Deletion r) → follows r r')).
Proof.
  intros Hc Hw Hr. destruct (wf_run s Hw id r Hr) as [Hid Hep].
  destruct Hc as [a Hn _ _ _ _|ctx lctx old next Ho Hrev Hdel Hl _|a b _ _ _ _|a b c _ _ _ _ _ _
    |id' a d Ha Hd Hf He| |id' d _ _]; try (right; exists r; split; [done|by left]).
  - right. simpl. rewrite lookup_insert_ne; [|congruence]. exists r. split; [done|by left].
  - right. simpl. destruct (decide (r_RunID next = id)) as [Heq|Hne].
    + rewrite Heq in Ho. assert (old = r) as -> by congruence.
      exists (cloneRunRecord (with_Revision (next_revision (r_Revision r)) next)).
      rewrite Heq, lookup_insert_eq. split; [done|right]. split.
      * destruct Hl as [Hl|Hl]; [by left|right]. split; [simpl; congruence|]. split; [done|]. by exists lctx.
      * intros [d Hd]. etrans; [by eapply transition_follows|]. apply follows_clone.
    + rewrite lookup_insert_ne by done. exists r. split; [done|by left].
  - destruct (decide (id' = id)) as [->|Hne].
    + left. split; [unfold fence, fence_of in *; simpl; congruence|apply lookup_delete_eq].
    + right. exists r. simpl. rewrite lookup_delete_ne by done. split; [done|by left].
Qed.

Lemma create_writable ctx s r s' :
  CreateRun ctx s r = Ok s' →
  fence s (r_RunID r) = "" ∧ (r_ParentRunID r ≠ "" → fence s (r_ParentRunID r) = "").
Proof.
  intros H. unfold CreateRun in H. store_inv. unfold ensureMemoryRunWritable in *. store_inv.
  split; [done|]. intros Hp. rewrite bool_decide_false in * by exact Hp. by store_inv.
Qed.

(** Only the deletion a run carries removes it. *)
Lemma change_dropped_fence s s' id r d :
  store_change s s' → runs s !! id = Some r → r_Deletion r = Some d → runs s' !! id = None →
  fence s' id = d_ID d.
Proof.
  intros Hc Hr Hd Hn.
  destruct Hc as [a Hf _ _ _ _|ctx lctx old next Ho _ _ _ _| | |id' a b Ha Hb Hf He| |]; simpl in *;
    try congruence.
  - apply lookup_insert_None in Hn as [? _]. congruence.
  - apply lookup_insert_None in Hn as [? _]. congruence.
  - apply lookup_delete_None in Hn as [->|?]; [|congruence]. unfold fence, fence_of in *. simpl. congruence.
Qed.

(** Steps of a run that is being deleted stay as they are. *)
(** The steps of a run that is being deleted stay as they are while it is there. *)
Lemma change_keeps_steps s s' id r d k t :
  store_change s s' → runs s !! id = Some r → r_Deletion r = Some d →
  is_Some (runs s' !! id) → s_RunID t = id → steps s' !! k = Some t ↔ steps s !! k = Some t.
Proof.
  intros Hc Hr Hd Hr' Hid.
  destruct Hc as [a Hn _ _ _ _|ctx lctx old next Ho _ _ _ _|a b Hb Hdb _ Hn|a b c Hc Hdc _ Ho Hsame _
    |id' a b Ha Hb Hf He| |id' x _ _]; try done; simpl in *.
  - rewrite lookup_insert_Some. split; [intros [[_ <-]|[_ Hk]]; [congruence|done]|]. intros Hk. right.
    split; [congruence|done].
  - rewrite lookup_insert_Some. split; [intros [[_ <-]|[_ Hk]]; [congruence|done]|]. intros Hk. right.
    split; [congruence|done].
  - change (steps (drop_run id' s) !! k = Some t ↔ steps s !! k = Some t).
    rewrite drop_step. split; [by intros [Hk _]|]. intros Hk. split; [done|]. intros Heq.
    destruct Hr' as [r' Hr']. rewrite <-Heq, Hid in Hr'. by rewrite lookup_delete_eq in Hr'.
Qed.

(** ** Properties *)

(** A deletion is final.  Once [DeleteRun] has succeeded, no later
    operation of any caller brings the run back: it and its steps stay gone,
    the fence keeps naming the deletion, and nothing can be created under its
    identifier or as its child. *)
Theorem deleted_forever ctx s id s1 s2 :
  reachable s → DeleteRun ctx s id = Ok s1 → rtc store_step s1 s2 →
  runs s2 !! id = None ∧ (∀ k t, steps s2 !! k = Some t → s_RunID t ≠ id) ∧
  fence s2 id = fence s id ∧
  ∀ ctx' r s3, CreateRun ctx' s2 r = Ok s3 → r_RunID r ≠ id ∧ r_ParentRunID r ≠ id.
Proof.
  intros Hreach Hdel Hs. destruct (delete_buried _ _ _ _ Hdel) as [Hb Hf].
  destruct (steps_buried _ _ _ Hs Hb) as [[Hne Hn] Hf2]. rewrite Hf in Hf2.
  assert (store_wf s2) as Hw.
  { apply (steps_wf _ _ Hs), (steps_wf s s1), reachable_wf, Hreach.
    apply rtc_once. by apply (store_op _ _ ctx (ODelete id)). }
  split_and!; [done| |done|].
  - intros k t Hk Hid. destruct (wf_step _ Hw k t Hk) as [_ [r Hr]]. congruence.
  - intros ctx' r s3 Hc. apply create_writable in Hc as [H1 H2]. split; [congruence|].
    intros Hp. apply Hne. rewrite <-Hp. apply H2. rewrite Hp.
    unfold DeleteRun in Hdel. result_inv. by eapply storage_id_nonempty.
Qed.

(** C13: Optimistic concurrency loses no update.  An accepted write raises the
    revision by one and is what a reader finds; whatever happens afterwards, a
    write to the same run that is based on the revision this one replaced, or
    on an older one, is refused, for as long as fewer than 2^64 operations
    have passed. *)
Theorem cas_no_lost_update ctx s e r s1 out n s2 :
  CompareAndSwapRun ctx s e r = Ok (s1, out) → nsteps store_step n s1 s2 →
  (e + 1 + N.of_nat n < 2 ^ 64)%N →
  r_Revision out = (e + 1)%N ∧ runs s1 !! r_RunID r = Some out ∧
  ∀ ctx' e' r' res, r_RunID r' = r_RunID r → CompareAndSwapRun ctx' s2 e' r' = Ok res → (e < e')%N.
Proof.
  intros Hc Hs Hw. apply cas_inv in Hc as (-> & -> & _).
  assert (next_revision e = e + 1)%N as He by (apply next_revision_succ; lia).
  assert (runs (put_run (cloneRunRecord (with_Revision (next_revision e) (sanitizeRunRecord ctx r))) s)
            !! r_RunID r = Some (cloneRunRecord (with_Revision (next_revision e) (sanitizeRunRecord ctx r))))
    as Hl by apply lookup_insert_eq.
  split; [done|]. split; [done|]. intros ctx' e' r' [s3 out'] Hid Hc.
  apply cas_inv in Hc as (_ & _ & old & Ho & Hrev & _). rewrite Hid in Ho.
  destruct (steps_revised n _ s2 (r_RunID r) (e + 1) (e + 1) Hs Hw) as [[_ Hn]|(r2 & Hr2 & Hlo & _)].
  - right. eexists. split; [exact Hl|]. simpl. lia.
  - congruence.
  - assert (r2 = old) as -> by congruence. lia.
Qed.

(** C14: A reservation freezes the run.  From the moment a run carries a
    deletion and until that deletion removes it: its record keeps everything but
    the revision and children that are unlinked, exactly the same steps are
    stored for it, and the deletion keeps its identity, moves only forward
    through its phases and fixes its plan once.  Afterwards the run has neither
    record nor steps, and the fence names the deletion. *)
Theorem deletion_freezes s s' id r d :
  reachable s → runs s !! id = Some r → r_Deletion r = Some d → rtc store_step s s' →
  match runs s' !! id with
  | Some r' => follows r r' ∧ (∃ d', r_Deletion r' = Some d' ∧ deletion_le d d') ∧
      ∀ k t, s_RunID t = id → steps s' !! k = Some t ↔ steps s !! k = Some t
  | None => fence s' id = d_ID d ∧ ∀ k t, steps s' !! k = Some t → s_RunID t ≠ id
  end.
Proof.
  intros Hreach Hr Hd Hs.
  assert (store_wf s) as Hw by by apply reachable_wf. clear Hreach. revert r d Hr Hd.
  induction Hs as [s|s1 s2 s3 H Hs IH]; intros r d Hr Hd.
  { rewrite Hr. split; [done|]. split; [by exists d|done]. }
  apply step_change in H. assert (store_wf s2) as Hw2 by by eapply change_wf.
  destruct (change_run _ _ _ _ H Hw Hr) as [Hb|(r2 & Hr2 & Hor)].
  - destruct (steps_buried _ _ _ Hs Hb) as [[_ Hn] Hf]. rewrite Hn, Hf. split.
    + apply (change_dropped_fence _ _ _ _ _ H Hr Hd). apply Hb.
    + intros k t Hk Hid. destruct (wf_step _ (steps_wf _ _ Hs Hw2) k t Hk) as [_ [x Hx]]. congruence.
  - assert (follows r r2) as Hf by (destruct Hor as [->|[_ Hf]]; [done|apply Hf; eauto]).
    destruct (proj2 (proj2 (proj2 Hf)) d Hd) as (d2 & Hd2 & Hle). specialize (IH Hw2 r2 d2 Hr2 Hd2).
    destruct (runs s3 !! id) as [r3|].
    + destruct IH as (Hf3 & (d3 & Hd3 & Hle3) & Hst). split; [by trans r2|]. split; [exists d3; split; [done|by trans d2]|].
      intros k t Hid. rewrite (Hst k t Hid). by apply (change_keeps_steps _ _ _ _ _ _ _ H Hr Hd).
    + destruct IH as [-> Hn]. split; [apply Hle|done].
Qed.

(** C15: The outcome of an effect's resolution is final.  In every later store
    a step keeps the resolution it has, with its identity; once that is no
    longer an intent, its status, its time, its error and the step's effect
    status stay as they are. *)
Theorem effect_resolution_final s s' k t t' e :
  reachable s → steps s !! k = Some t → rtc store_step s s' → steps s' !! k = Some t' →
  s_RunID t' = s_RunID t → s_EffectResolution t = Some e →
  ∃ e', s_EffectResolution t' = Some e' ∧ resolution_identity e' = resolution_identity e ∧
    (e_Status e ≠ EffectResolutionIntent →
       e_Status e' = e_Status e ∧ e_ResolvedAt e' = e_ResolvedAt e ∧
       json_quote (e_Error e') = json_quote (e_Error e) ∧ s_EffectStatus t' = s_EffectStatus t).
Proof.
  intros Hreach Hk Hs Hk' Hid He. assert (store_wf s) as Hw by by apply reachable_wf.
  destruct (steps_step _ _ _ _ Hs Hw Hk) as [[_ Hn]|(t2 & Hk2 & _ & Hle)].
  - destruct (wf_step _ (steps_wf _ _ Hs Hw) k t' Hk') as [_ [x Hx]]. congruence.
  - assert (t2 = t') as -> by congruence. by apply Hle.
Qed.

(** The store implements the lease protocol: whatever operations run
    between two looks at a run, its lease went through accepted lease
    transitions only. *)
Theorem store_refines_lease s s' id r r' :
  reachable s → runs s !! id = Some r → rtc store_step s s' → runs s' !! id = Some r' →
  rtc lease_step (leased r) (leased r').
Proof.
  intros Hreach Hr Hs Hr'. assert (store_wf s) as Hw by by apply reachable_wf.
  clear Hreach. revert r Hr. induction Hs as [s|s1 s2 s3 H Hs IH]; intros r Hr.
  { by assert (r = r') as -> by congruence. }
  apply step_change in H. assert (store_wf s2) as Hw2 by by eapply change_wf.
  destruct (change_run _ _ _ _ H Hw Hr) as [Hb|(r2 & Hr2 & Hor)].
  - destruct (steps_buried _ _ _ Hs Hb) as [[_ Hn] _]. congruence.
  - specialize (IH Hr' Hw2 r2 Hr2). destruct Hor as [->|[[Hl|Hl] _]]; [done|by rewrite <-Hl|]. by eapply rtc_l.
Qed.

(** ** A concrete history: a failed run with an effect whose outcome is
    unknown is resolved, then reserved, fenced and deleted *)

Definition demo_run : RunRecord :=
  MkRunRecord "run-1" 0 "" "" "" "" "" None "run-1" ["run-1"] "main" [] [] None
    "graph" "v1" "" "" "" "" "" "" None RunStatusFailed "start" "start" ["start"] [] [] "" "" ""
    false false "timeout" "request with key-1234 failed" 5 6 (Some 7%Z).

Definition demo_step (status : string) (e : option EffectResolution) : StepRecord :=
  MkStep "step-1" "run-1" "task-1" "" "" "" "run-1" ["run-1"] "main" "pay" "pay" "op-1"
    EffectNonIdempotentWrite status e "" 1 "failed" "cp-1" "" "" "" 5 6 None.

Definition demo_resolution (status : string) (at_ : option Z) : EffectResolution :=
  MkResolution "res-1" "attempt-1" EffectResolutionConfirmNotApplied status "alice" "checked" "" ""
    8 at_.

Definition demo_deletion (phase : string) (plan : option (list string)) : option RunDeletionState :=
  Some (MkDeletion "del-1" "run-1" "" phase plan).

Definition demo_ctx : Context := MkCtx None None None None None ["key-1234"].
Definition demo_del : Context := withRunDeletionMutation Background "del-1".

(** The run as it is stored at a revision. *)
Definition demo_stored (n : N) (d : option RunDeletionState) : RunRecord :=
  with_Revision n (with_Deletion d (sanitizeRunRecord demo_ctx demo_run)).

Definition demo_resolve : list (Context * op) :=
  [(demo_ctx, OCreate demo_run);
   (demo_ctx, OAppend (demo_step EffectUnknown None));
   (demo_ctx, OUpdate (demo_step EffectUnknown (Some (demo_resolution EffectResolutionIntent None))));
   (demo_ctx, OUpdate (demo_step EffectNotApplied
      (Some (demo_resolution EffectResolutionSucceeded (Some 9%Z)))))].

Definition demo_delete : list (Context * op) :=
  [(demo_del, OCas 0 (demo_stored 0 (demo_deletion RunDeletionReserved None)));
   (demo_del, OFence "run-1" "del-1");
   (demo_ctx, OUpdate (demo_step EffectUnknown None));
   (demo_del, OCas 1 (demo_stored 1 (demo_deletion RunDeletionPlanned (Some ["run-1"]))))].

(** The operations one after the other; one that is refused changes nothing. *)
Definition replay (s : Store) (ops : list (Context * op)) : Store :=
  fold_left (λ s o, match exec o.1 s o.2 with Ok s' => s' | Err _ => s end) ops s.

Lemma replay_steps ops s : Forall (λ o, typed o.2) ops → rtc store_step s (replay s ops).
Proof.
  intros H. revert s. induction H as [|[ctx o] ops Ho _ IH]; intros s; [constructor|].
  unfold replay. simpl. destruct (exec ctx s o) as [s'|] eqn:He; [|apply IH].
  eapply rtc_l; [|apply IH]. by apply (store_op _ _ ctx o).
Qed.

Definition demo_before : Store := replay NewMemoryExecutionStore demo_resolve.
Definition demo_reserved : Store := replay demo_before (take 1 demo_delete).
Definition demo_planned : Store := replay demo_before demo_delete.

Lemma demo_before_reachable : reachable demo_before.
Proof. apply replay_steps. repeat constructor; done. Qed.
Lemma demo_reserved_reachable : reachable demo_reserved.
Proof. unfold reachable. etrans; [exact demo_before_reachable|]. apply replay_steps. repeat constructor; done. Qed.
Lemma demo_planned_reachable : reachable demo_planned.
Proof. unfold reachable. etrans; [exact demo_before_reachable|]. apply replay_steps. repeat constructor; done. Qed.

(** The key in the message is redacted, the reservation is planned, the update
    of the step was refused. *)
Example demo_planned_run :
  runs demo_planned !! "run-1" = Some (demo_stored 2 (demo_deletion RunDeletionPlanned (Some ["run-1"]))) ∧
  r_ErrorMessage (demo_stored 2 None) = "request with [REDACTED] failed" ∧
  s_EffectStatus <$> (steps demo_planned !! "step-1") = Some EffectNotApplied.
Proof. vm_compute. done. Qed.

(** After the deletion the same request cannot create the run again. *)
Lemma deleted_forever_witness :
  ∃ s1, DeleteRun demo_del demo_planned "run-1" = Ok s1 ∧
    runs (replay s1 [(demo_ctx, OCreate demo_run)]) !! "run-1" = None.
Proof.
  destruct (DeleteRun demo_del demo_planned "run-1") as [s1|] eqn:Hd; [|vm_compute in Hd; discriminate].
  exists s1. split; [reflexivity|].
  refine (proj1 (deleted_forever demo_del demo_planned "run-1" s1 _ demo_planned_reachable Hd _)).
  apply replay_steps. repeat constructor; done.
Defined.

(** Two writers at revision 0: the second is refused. *)
Lemma cas_no_lost_update_witness :
  ∃ s1 out, CompareAndSwapRun demo_ctx demo_before 0 demo_run = Ok (s1, out) ∧ r_Revision out = 1%N ∧
    ∀ res, CompareAndSwapRun demo_ctx s1 0 demo_run ≠ Ok res.
Proof.
  destruct (CompareAndSwapRun demo_ctx demo_before 0 demo_run) as [[s1 out]|] eqn:Hc;
    [|vm_compute in Hc; discriminate].
  destruct (cas_no_lost_update _ _ _ _ _ _ 0 s1 Hc (nsteps_O _ _)) as (Hr & _ & Hno); [done|].
  exists s1, out. split_and!; [done..|]. intros res Hres.
  exact (N.lt_irrefl _ (Hno demo_ctx 0%N demo_run res eq_refl Hres)).
Defined.

(** The reserved run of the history is planned and otherwise unchanged. *)
Lemma deletion_freezes_witness :
  follows (demo_stored 1 (demo_deletion RunDeletionReserved None))
    (demo_stored 2 (demo_deletion RunDeletionPlanned (Some ["run-1"]))).
Proof.
  assert (rtc store_step demo_reserved demo_planned) as Hs.
  { replace demo_planned with (replay demo_reserved (drop 1 demo_delete)) by (vm_compute; reflexivity).
    apply replay_steps. repeat constructor; done. }
  assert (runs demo_reserved !! "run-1" =
    Some (demo_stored 1 (demo_deletion RunDeletionReserved None))) as Hr by (vm_compute; reflexivity).
  pose proof (deletion_freezes _ _ _ _ _ demo_reserved_reachable Hr eq_refl Hs) as Hrun.
  exact (proj1 Hrun).
Defined.

(** The resolution of the history outlives an attempt to take it back. *)
Lemma effect_resolution_final_witness :
  ∃ t, steps demo_planned !! "step-1" = Some t ∧ s_EffectStatus t = EffectNotApplied.
Proof.
  assert (steps demo_before !! "step-1" = Some (demo_step EffectNotApplied
    (Some (demo_resolution EffectResolutionSucceeded (Some 9%Z))))) as Hk by (vm_compute; reflexivity).
  destruct (steps demo_planned !! "step-1") as [t|] eqn:Ht; [|vm_compute in Ht; discriminate].
  assert (s_RunID t = "run-1") as Hid by (vm_compute in Ht; injection Ht as <-; reflexivity).
  exists t. split; [reflexivity|].
  assert (rtc store_step demo_before demo_planned) as Hs by (apply replay_steps; repeat constructor; done).
  destruct (effect_resolution_final _ _ _ _ t _ demo_before_reachable Hk Hs Ht Hid eq_refl)
    as (e' & _ & _ & Hout).
  exact (proj2 (proj2 (proj2 (Hout ltac:(discriminate))))).
Defined.

(** The lease of the history's run never changed. *)
Lemma store_refines_lease_witness :
  rtc lease_step (leased demo_run) (leased (demo_stored 2 (demo_deletion RunDeletionPlanned (Some ["run-1"])))).
Proof.
  assert (rtc store_step demo_before demo_planned) as Hs by (apply replay_steps; repeat constructor; done).
  exact (store_refines_lease _ _ "run-1" (demo_stored 0 None) _ demo_before_reachable
    ltac:(vm_compute; reflexivity) Hs ltac:(vm_compute; reflexivity)).
Defined.

(** [validateStepEffect] does not look at the resolution of a step without an
    operation key, so an update that clears the key turns a pending resolution
    into a succeeded one that has no time. *)
Example update_clears_operation_key :
  validateStepEffectTransition
    (demo_step EffectUnknown (Some (demo_resolution EffectResolutionIntent None)))
    (MkStep "step-1" "run-1" "task-1" "" "" "" "run-1" ["run-1"] "main" "pay" "pay" "" "" ""
       (Some (demo_resolution EffectResolutionSucceeded None)) "" 1 "failed" "cp-1" "" "" "" 5 6 None)
  = Ok tt.
Proof. vm_compute. reflexivity. Qed.
