(* ===== verification/Stores.v ===== *)
(** * Checkpoint and event stores: [runtime/memory_store.go]

    Two more memory stores, each a map behind its own mutex with its own deletion
    fences, and the paging of an event log ([runtime/store.go]). *)

From Stdlib Require Import Ascii.
From S2P Require Import Prelude GoStrings Values Json Sensitive Errors Lease Records RunStore.

(** ** Records: [runtime/runner_types.go], [state/runtime.go] *)

Record CheckpointRecord := MkCheckpoint {
  k_CheckpointID : string;
  k_RunID : string;
  k_StepID : string;
  k_TaskID : string;
  k_ParentRunID : string;
  k_ParentStepID : string;
  k_ParentTaskID : string;
  k_RootRunID : string;
  k_RunPath : list string;
  k_Namespace : string;
  k_NodeID : string;
  k_Stage : string;
  k_StateCodec : string;
  k_StateVersion : string;
  k_PayloadRef : string;
  k_CreatedAt : Z;
}.

Record Event := MkEvent {
  v_ID : string;
  v_GraphID : string;
  v_GraphSessionID : string;
  v_RunID : string;
  v_ParentRunID : string;
  v_ParentStepID : string;
  v_ParentTaskID : string;
  v_RootRunID : string;
  v_RunPath : list string;
  v_Namespace : string;
  v_StepID : string;
  v_TaskID : string;
  v_NodeID : string;
  v_OperationKey : string;
  v_Type : string;
  v_Timestamp : Z;
  v_Payload : string;
}.

#[export] Instance CheckpointRecord_eq_dec : EqDecision CheckpointRecord.
Proof. solve_decision. Defined.
#[export] Instance Event_eq_dec : EqDecision Event.
Proof. solve_decision. Defined.
Definition EventLLMReasoningChunk : string := "llm.reasoning_chunk".
Definition EventLLMContentChunk : string := "llm.content_chunk".

Definition IsStreamingEvent (type : string) : bool :=
  bool_decide (type = EventLLMContentChunk) || bool_decide (type = EventLLMReasoningChunk).

(** ** Checkpoints *)

Record CheckpointStore := MkCheckpoints {
  checkpoints : gmap string (CheckpointRecord * string);
  cp_deletions : gmap string string;
}.

Definition NewMemoryCheckpointStore : CheckpointStore := MkCheckpoints ∅ ∅.

Definition without_PayloadRef (k : CheckpointRecord) : CheckpointRecord :=
  MkCheckpoint (k_CheckpointID k) (k_RunID k) (k_StepID k) (k_TaskID k) (k_ParentRunID k)
    (k_ParentStepID k) (k_ParentTaskID k) (k_RootRunID k) (k_RunPath k) (k_Namespace k) (k_NodeID k)
    (k_Stage k) (k_StateCodec k) (k_StateVersion k) "" (k_CreatedAt k).

Definition Save (ctx : Context) (s : CheckpointStore) (k : CheckpointRecord) (payload : string)
    : result store_error CheckpointStore :=
  let* _ := fileStoreContextErr ctx in
  let* _ := storage_id "run ID" (k_RunID k) in
  let* _ := storage_id "checkpoint ID" (k_CheckpointID k) in
  let* _ := ensureMemoryRunWritable (cp_deletions s) (k_RunID k) in
  let* _ := guard_err (bool_decide (is_Some (checkpoints s !! k_CheckpointID k))) (SExists (k_CheckpointID k)) in
  Ok (MkCheckpoints (<[k_CheckpointID k := (without_PayloadRef k, payload)]> (checkpoints s)) (cp_deletions s)).

Definition Load (ctx : Context) (s : CheckpointStore) (id : string)
    : result store_error (CheckpointRecord * string) :=
  let* _ := fileStoreContextErr ctx in
  let* _ := storage_id "checkpoint ID" id in
  find (checkpoints s) id.

Definition checkpoint_before : CheckpointRecord → CheckpointRecord → bool :=
  less_then k_CreatedAt z_lt (less_last k_CheckpointID str_lt).

Definition ListCheckpoints (ctx : Context) (s : CheckpointStore) (runID : string)
    : result store_error (list CheckpointRecord) :=
  let* _ := fileStoreContextErr ctx in
  let* _ := storage_id "run ID" runID in
  Ok (stable_sort checkpoint_before
        (filter (λ k, k_RunID k = runID) (map (fst ∘ snd) (map_to_list (checkpoints s))))).

Definition drop_checkpoints (runID : string) (m : gmap string (CheckpointRecord * string)) :=
  filter (λ p, k_RunID p.2.1 ≠ runID) m.

Definition DeleteCheckpoints (ctx : Context) (s : CheckpointStore) (runID : string)
    : result store_error CheckpointStore :=
  let* _ := fileStoreContextErr ctx in
  let* _ := storage_id "run ID" runID in
  let* _ := validateMemoryRunFenceDeletion ctx (cp_deletions s) runID in
  Ok (MkCheckpoints (drop_checkpoints runID (checkpoints s)) (cp_deletions s)).

(** The four checks the fencing methods share before they lock. *)
Definition check_fencing (ctx : Context) (runID deletionID : string) : result store_error unit :=
  let* _ := fileStoreContextErr ctx in
  let* _ := storage_id "run ID" runID in
  let* _ := storage_id "deletion ID" deletionID in
  requireRunDeletionMutation ctx runID deletionID.

Definition FenceCheckpoints (ctx : Context) (s : CheckpointStore) (runID deletionID : string)
    : result store_error CheckpointStore :=
  let* _ := check_fencing ctx runID deletionID in
  let* fences := fenceMemoryRun (cp_deletions s) runID deletionID in
  Ok (MkCheckpoints (checkpoints s) fences).

(** ** Events *)

Record EventSink := MkEvents {
  events : gmap string (list Event);
  ev_deletions : gmap string string;
}.

Definition NewMemoryEventSink : EventSink := MkEvents ∅ ∅.

(** [events[runID]]; a missing key is the empty log. *)
Definition log_of (m : gmap string (list Event)) (runID : string) : list Event := default [] (m !! runID).

Definition append_event (m : gmap string (list Event)) (e : Event) : gmap string (list Event) :=
  <[v_RunID e := log_of m (v_RunID e) ++ [e]]> m.

Definition sanitizeEventPayload (ctx : Context) (e : Event) : Event :=
  MkEvent (v_ID e) (v_GraphID e) (v_GraphSessionID e) (v_RunID e) (v_ParentRunID e)
    (v_ParentStepID e) (v_ParentTaskID e) (v_RootRunID e) (v_RunPath e) (v_Namespace e) (v_StepID e)
    (v_TaskID e) (v_NodeID e) (v_OperationKey e) (v_Type e) (v_Timestamp e)
    (redactJSONBytes (secrets ctx) (v_Payload e)).

Definition PublishBatch (ctx : Context) (s : EventSink) (batch : list Event) : result store_error EventSink :=
  let* _ := fileStoreContextErr ctx in
  let batch := map (sanitizeEventPayload ctx) batch in
  let* _ := first_err (λ e, if IsStreamingEvent (v_Type e) then Ok tt else storage_id "run ID" (v_RunID e)) batch in
  let* _ := first_err (λ e, if IsStreamingEvent (v_Type e) then Ok tt
                            else ensureMemoryRunWritable (ev_deletions s) (v_RunID e)) batch in
  Ok (MkEvents (fold_left (λ m e, if IsStreamingEvent (v_Type e) then m else append_event m e) batch (events s))
        (ev_deletions s)).

Definition Publish (ctx : Context) (s : EventSink) (e : Event) : result store_error EventSink :=
  PublishBatch ctx s [e].
Definition ListEvents (s : EventSink) (runID : string) : result store_error (list Event) :=
  let* _ := storage_id "run ID" runID in
  Ok (log_of (events s) runID).

(** [PaginateEventsNewestFirst] of [runtime/store.go]: the cursor is the number
    of events already seen, counted from the newest; [start + limit] is an
    [int], and a negative capacity panics. *)
Inductive page_error := PInvalidLimit | PInvalidCursor (cursor : string) | PPanic | PStore (e : store_error).

Record EventPage := MkPage { Items : list Event; NextCursor : string }.

Definition page_start (count : nat) (cursor : string) : result page_error Z :=
  if bool_decide (cursor = "") then Ok 0%Z else
  match Atoi cursor with
  | Some n => if (n <? 0)%Z || (Z.of_nat count <? n)%Z then Err (PInvalidCursor cursor) else Ok n
  | None => Err (PInvalidCursor cursor)
  end.

Definition PaginateEventsNewestFirst (l : list Event) (cursor : string) (limit : Z)
    : result page_error EventPage :=
  let* _ := guard_err (limit <=? 0)%Z PInvalidLimit in
  if bool_decide (l = []) then Ok (MkPage [] "") else
  let* start := page_start (length l) cursor in
  let stop := Z.min (wrap64 (start + limit)) (Z.of_nat (length l)) in
  let* _ := guard_err (stop - start <? 0)%Z PPanic in
  Ok (MkPage (take (Z.to_nat (stop - start)) (drop (Z.to_nat start) (reverse l)))
        (if (stop <? Z.of_nat (length l))%Z then Itoa stop else "")).

Definition ListEventPage (s : EventSink) (runID cursor : string) (limit : Z) : result page_error EventPage :=
  match ListEvents s runID with
  | Ok l => PaginateEventsNewestFirst l cursor limit
  | Err e => Err (PStore e)
  end.

Definition DeleteEvents (ctx : Context) (s : EventSink) (runID : string) : result store_error EventSink :=
  let* _ := fileStoreContextErr ctx in
  let* _ := storage_id "run ID" runID in
  let* _ := validateMemoryRunFenceDeletion ctx (ev_deletions s) runID in
  Ok (MkEvents (delete runID (events s)) (ev_deletions s)).

Definition FenceEvents (ctx : Context) (s : EventSink) (runID deletionID : string)
    : result store_error EventSink :=
  let* _ := check_fencing ctx runID deletionID in
  let* fences := fenceMemoryRun (ev_deletions s) runID deletionID in
  Ok (MkEvents (events s) fences).

(** ** Reading a log page by page *)

(** A reader that follows [NextCursor] to the end.  The log it sees at each
    request is the next one of [logs]; it stops with the last page, and [None]
    means that a request failed or that the requests ran out. *)
Fixpoint read_pages (logs : list (list Event)) (cursor : string) (limit : Z) : option (list Event) :=
  match logs with
  | [] => None
  | l :: logs' =>
    match PaginateEventsNewestFirst l cursor limit with
    | Ok page => if bool_decide (NextCursor page = "") then Some (Items page)
                 else (λ rest, Items page ++ rest) <$> read_pages logs' (NextCursor page) limit
    | Err _ => None
    end
  end.

(** The cursor after [c] events. *)
Definition cursor_at (c : nat) : string := if bool_decide (c = 0) then "" else Itoa (Z.of_nat c).

Lemma Itoa_nonempty z : (0 ≤ z < 2 ^ 63)%Z → Itoa z ≠ "".
Proof. intros Hz He. pose proof (Atoi_Itoa z Hz) as H. rewrite He in H. done. Qed.

Lemma page_start_at n c : c ≤ n → (Z.of_nat n < 2 ^ 63)%Z → page_start n (cursor_at c) = Ok (Z.of_nat c).
Proof.
  intros Hc Hn. unfold page_start, cursor_at. destruct (decide (c = 0)) as [->|H0]; [done|].
  rewrite (bool_decide_false (c = 0)) by done.
  rewrite bool_decide_false by (apply Itoa_nonempty; lia). rewrite Atoi_Itoa by lia.
  by replace ((Z.of_nat c <? 0)%Z || (Z.of_nat n <? Z.of_nat c)%Z) with false by lia.
Qed.

Lemma page_at l c (limit : Z) :
  c ≤ length l → (0 < limit)%Z → (Z.of_nat (length l) + limit < 2 ^ 63)%Z →
  PaginateEventsNewestFirst l (cursor_at c) limit =
  Ok (MkPage (take (Z.to_nat limit) (drop c (reverse l)))
       (if bool_decide (c + Z.to_nat limit < length l) then cursor_at (c + Z.to_nat limit) else "")).
Proof.
  intros Hc Hlim Hb. unfold PaginateEventsNewestFirst.
  rewrite (proj2 (Z.leb_gt limit 0)) by lia. simpl.
  destruct (decide (l = [])) as [->|Hne].
  { rewrite bool_decide_true by done. change (reverse []) with (@nil Event). rewrite drop_nil, take_nil.
    rewrite bool_decide_false; [done|simpl; lia]. }
  rewrite bool_decide_false by done. rewrite page_start_at by lia. simpl.
  rewrite wrap64_id by (unfold int64_range; lia).
  set (stop := Z.min (Z.of_nat c + limit) (Z.of_nat (length l))).
  assert ((stop - Z.of_nat c <? 0)%Z = false) as -> by lia. simpl. do 2 f_equal.
  - rewrite Nat2Z.id. destruct (decide (c + Z.to_nat limit < length l)).
    + f_equal. lia.
    + rewrite !firstn_all2; [done|rewrite length_drop, length_reverse; lia..].
  - case_bool_decide as Hd.
    + assert ((stop <? Z.of_nat (length l))%Z = true) as -> by lia. unfold cursor_at. rewrite bool_decide_false by lia.
      f_equal. lia.
    + by assert ((stop <? Z.of_nat (length l))%Z = false) as -> by lia.
Qed.

Lemma cursor_at_nonempty c n : 0 < c → c ≤ n → (Z.of_nat n < 2 ^ 63)%Z → cursor_at c ≠ "".
Proof. intros. unfold cursor_at. rewrite bool_decide_false by lia. apply Itoa_nonempty. lia. Qed.

Lemma read_pages_at l c (limit : Z) n :
  c ≤ length l → (0 < limit)%Z → (Z.of_nat (length l) + limit < 2 ^ 63)%Z → length l - c < n →
  read_pages (replicate n l) (cursor_at c) limit = Some (drop c (reverse l)).
Proof.
  intros Hc Hlim Hb. revert c Hc. induction n as [|n IH]; intros c Hc Hn; [lia|]. cbn [replicate read_pages].
  rewrite page_at by done. simpl. destruct (decide (c + Z.to_nat limit < length l)) as [Hd|Hd].
  - rewrite (bool_decide_true (_ < _)) by done.
    rewrite bool_decide_false by (eapply cursor_at_nonempty with (n := length l); lia).
    rewrite IH by lia. simpl. rewrite <-drop_drop. by rewrite take_drop.
  - rewrite (bool_decide_false (_ < _)) by done. rewrite bool_decide_true by done.
    rewrite firstn_all2; [done|]. rewrite length_drop, length_reverse. lia.
Qed.

(** Each log of [logs] extends the one before, starting from [l]. *)
Fixpoint growing (l : list Event) (logs : list (list Event)) : Prop :=
  match logs with [] => True | l' :: logs' => (∃ new, l' = l ++ new) ∧ growing l' logs' end.

Lemma read_pages_growing l logs c (limit : Z) out :
  growing l logs → c ≤ length l → (0 < limit)%Z →
  Forall (λ l', (Z.of_nat (length l') + limit < 2 ^ 63)%Z) logs →
  read_pages logs (cursor_at c) limit = Some out → drop c (reverse l) ⊆ out.
Proof.
  intros Hg Hc Hlim Hb. revert l c out Hg Hc. induction Hb as [|l' logs Hb _ IH]; [done|].
  intros l c out [[new ->] Hg] Hc. cbn [read_pages].
  assert (c ≤ length (l ++ new)) as Hc' by (rewrite length_app; lia).
  rewrite page_at by done. simpl.
  set (m := Z.to_nat limit). set (r := reverse (l ++ new)).
  assert (∀ e, e ∈ drop c (reverse l) → e ∈ drop c r) as Hsub.
  { intros e He. unfold r. rewrite reverse_app, drop_app. apply elem_of_app. right.
    apply list_elem_of_lookup in He as [i Hi]. apply list_elem_of_lookup. rewrite lookup_drop in Hi.
    exists (c + i - (c - length (reverse new))). rewrite lookup_drop. rewrite <-Hi. f_equal. lia. }
  destruct (decide (c + m < length (l ++ new))) as [Hd|Hd].
  - rewrite (bool_decide_true (_ < _)) by done.
    rewrite bool_decide_false by (eapply cursor_at_nonempty with (n := length (l ++ new)); lia).
    destruct (read_pages logs (cursor_at (c + m)) limit) as [rest|] eqn:Hr; [|done]. intros [= <-].
    apply (IH (l ++ new)) in Hr; [|done|lia]. intros e He%Hsub. apply elem_of_app.
    rewrite <-(take_drop m (drop c r)) in He. apply elem_of_app in He as [He|He]; [by left|right].
    rewrite drop_drop in He. by apply Hr.
  - rewrite (bool_decide_false (_ < _)) by done. rewrite bool_decide_true by done. intros [= <-] e He%Hsub.
    rewrite firstn_all2; [done|]. unfold r. rewrite length_drop, length_reverse. lia.
Qed.

(** reading an event log page by page terminates and loses nothing.  On a log
    that does not change, a reader that follows the cursor gets every event once,
    newest first, within one request more than there are events; and when events
    are published between the requests, every event that was there at the first
    request is still returned. *)
Theorem paging_complete l (limit : Z) :
  (0 < limit)%Z → (Z.of_nat (length l) + limit < 2 ^ 63)%Z →
  read_pages (replicate (S (length l)) l) "" limit = Some (reverse l) ∧
  ∀ logs out, growing l logs → Forall (λ l', (Z.of_nat (length l') + limit < 2 ^ 63)%Z) logs →
    read_pages logs "" limit = Some out → ∀ e, e ∈ l → e ∈ out.
Proof.
  intros Hlim Hb. split.
  - apply (read_pages_at l 0); lia.
  - intros logs out Hg Hlogs Hr e He. apply (read_pages_growing l logs 0 limit out); [done|lia|done..|].
    rewrite drop_0. by apply elem_of_reverse.
Qed.

Definition sample_event (id : string) : Event :=
  MkEvent id "graph" "" "run-1" "" "" "" "" [] "" "" "" "" "" "step.started" 0 "{}".

Lemma paging_complete_witness :
  let l := map sample_event ["a"; "b"; "c"; "d"; "e"] in
  read_pages (replicate 6 l) "" 2 = Some (reverse l) ∧
  read_pages [l; l ++ [sample_event "f"]; l ++ [sample_event "f"]] "" 2 ≠ None.
Proof. intros l. split; [apply (paging_complete l 2); [lia|simpl; lia]|vm_compute; discriminate]. Defined.

(** A limit near the largest [int] overflows [start + limit]. *)
Example page_overflow :
  PaginateEventsNewestFirst (map sample_event ["a"; "b"]) "1" (2 ^ 63 - 1) = Err PPanic.
Proof. vm_compute. reflexivity. Qed.
