(* ===== verification/Artifacts.v ===== *)
(** * The artifact store: [runtime/memory_store.go]

    Artifacts are staged under a transaction and published when it commits.
    [Finalize] publishes the stages one by one and returns where it stops, with
    what it published so far in place: it returns the store next to its result,
    so that a caller can try again. *)

From Stdlib Require Import Ascii.
From S2P Require Import Prelude GoStrings Values Json JsonDecode Sensitive Errors Lease Records RunStore Stores.

(** ** Records: [runtime/runner_types.go], [state/runtime.go] *)

Record ArtifactRef := MkRef {
  f_ID : string;
  f_RunID : string;
  f_StepID : string;
  f_NodeID : string;
  f_OperationKey : string;
  f_ParentRunID : string;
  f_ParentStepID : string;
  f_ParentTaskID : string;
  f_RootRunID : string;
  f_RunPath : list string;
  f_Namespace : string;
  f_Type : string;
  f_MIMEType : string;
  f_Location : string;
  f_CreatedAt : Z;
}.

(** An [Artifact] is what its reference says and its bytes. *)
Record Artifact := MkArtifact { artifactRef : ArtifactRef; a_Data : string }.

Record ArtifactStage := MkStage { g_TransactionID : string; g_Ref : ArtifactRef }.

#[export] Instance ArtifactRef_eq_dec : EqDecision ArtifactRef.
Proof. solve_decision. Defined.
#[export] Instance Artifact_eq_dec : EqDecision Artifact.
Proof. solve_decision. Defined.
#[export] Instance ArtifactStage_eq_dec : EqDecision ArtifactStage.
Proof. solve_decision. Defined.

(** ** The store *)

Record ArtifactStore := MkArtifacts {
  artifacts : gmap string Artifact;
  stages : gmap string (gmap string Artifact);
  ar_deletions : gmap string string;
}.

Definition NewMemoryArtifactStore : ArtifactStore := MkArtifacts ∅ ∅ ∅.

Definition memoryArtifactKey (runID artifactID : string) : string := runID +:+ String "000" artifactID.

Definition key_of (f : ArtifactRef) : string := memoryArtifactKey (f_RunID f) (f_ID f).

(** [artifactsEqual]: the same bytes and the same JSON text.  [json.Marshal]
    fails on a year outside 0 to 9999 and leaves empty fields out. *)
Definition same_texts (a b : list string) : bool :=
  bool_decide (json_quote <$> a = json_quote <$> b).

Definition same_ref_json (a b : ArtifactRef) : bool :=
  json_time (f_CreatedAt a) && json_time (f_CreatedAt b) && (f_CreatedAt a =? f_CreatedAt b)%Z
  && same_texts [f_ID a; f_RunID a; f_StepID a; f_NodeID a; f_OperationKey a; f_ParentRunID a; f_ParentStepID a;
                 f_ParentTaskID a; f_RootRunID a; f_Namespace a; f_Type a; f_MIMEType a; f_Location a]
                [f_ID b; f_RunID b; f_StepID b; f_NodeID b; f_OperationKey b; f_ParentRunID b; f_ParentStepID b;
                 f_ParentTaskID b; f_RootRunID b; f_Namespace b; f_Type b; f_MIMEType b; f_Location b]
  && same_texts (f_RunPath a) (f_RunPath b).

Definition artifactsEqual (a b : Artifact) : bool :=
  bool_decide (a_Data a = a_Data b) && same_ref_json (artifactRef a) (artifactRef b).

Definition with_CreatedAt (t : Z) (a : Artifact) : Artifact :=
  let f := artifactRef a in
  MkArtifact (MkRef (f_ID f) (f_RunID f) (f_StepID f) (f_NodeID f) (f_OperationKey f) (f_ParentRunID f)
                (f_ParentStepID f) (f_ParentTaskID f) (f_RootRunID f) (f_RunPath f) (f_Namespace f) (f_Type f)
                (f_MIMEType f) (f_Location f) t) (a_Data a).

(** What [Stage] makes of the artifact it is given: [freshID] and [now] are what
    [uuid.NewString] and [time.Now] return. *)
Definition staged_artifact (ctx : Context) (freshID : string) (now : Z) (a : Artifact) : Artifact :=
  let f := artifactRef a in
  let id := if bool_decide (f_ID f = "") then freshID else f_ID f in
  let createdAt := if (f_CreatedAt f =? 0)%Z then now else f_CreatedAt f in
  let mimeType := let m := TrimSpace (f_MIMEType f) in
                  if bool_decide (m = "") then "application/octet-stream" else m in
  MkArtifact (MkRef id (f_RunID f) (TrimSpace (f_StepID f)) (TrimSpace (f_NodeID f)) (f_OperationKey f)
                (f_ParentRunID f) (f_ParentStepID f) (f_ParentTaskID f) (f_RootRunID f) (f_RunPath f) (f_Namespace f)
                (TrimSpace (f_Type f)) mimeType ("memory/" +:+ f_RunID f +:+ "/" +:+ id) createdAt)
    (sanitize_data (secrets ctx) mimeType (a_Data a)).

Inductive artifact_error :=
  | AStore (e : store_error)
  | AMismatch (id : string)
  | AExists (id : string)
  | AWrongTransaction (stage transaction : string).

Definition lift_store {A} (m : result store_error A) : result artifact_error A :=
  match m with Ok a => Ok a | Err e => Err (AStore e) end.

Definition staged (s : ArtifactStore) (transactionID : string) : gmap string Artifact :=
  default ∅ (stages s !! transactionID).

Definition Stage (ctx : Context) (freshID : string) (now : Z) (s : ArtifactStore) (transactionID : string)
    (a : Artifact) : result artifact_error (ArtifactStore * ArtifactStage) :=
  let* _ := lift_store (fileStoreContextErr ctx) in
  let* _ := lift_store (storage_id "transaction ID" transactionID) in
  let* _ := lift_store (storage_id "run ID" (f_RunID (artifactRef a))) in
  let a := staged_artifact ctx freshID now a in
  let* _ := lift_store (storage_id "artifact ID" (f_ID (artifactRef a))) in
  let* _ := lift_store (ensureMemoryRunWritable (ar_deletions s) (f_RunID (artifactRef a))) in
  let key := key_of (artifactRef a) in
  match staged s transactionID !! key with
  | Some existing =>
    let comparable := with_CreatedAt (f_CreatedAt (artifactRef existing)) a in
    if artifactsEqual existing comparable then Ok (s, MkStage transactionID (artifactRef existing))
    else Err (AMismatch (f_ID (artifactRef a)))
  | None =>
    Ok (MkArtifacts (artifacts s) (<[transactionID := <[key := a]> (staged s transactionID)]> (stages s)) (ar_deletions s),
        MkStage transactionID (artifactRef a))
  end.

(** One stage of [Finalize], on the published artifacts and on the stages of the
    transaction that are left. *)
Definition finalize_one (fences : gmap string string) (transactionID : string)
    (st : gmap string Artifact * gmap string Artifact) (stage : ArtifactStage)
    : result artifact_error (gmap string Artifact * gmap string Artifact) :=
  let* _ := guard_err (negb (bool_decide (g_TransactionID stage = transactionID)))
              (AWrongTransaction (g_TransactionID stage) transactionID) in
  let key := key_of (g_Ref stage) in
  match st.2 !! key with
  | None =>
    if bool_decide (is_Some (st.1 !! key)) then Ok st else Err (AStore (SNotFound (f_ID (g_Ref stage))))
  | Some a =>
    let* _ := lift_store (ensureMemoryRunWritable fences (f_RunID (artifactRef a))) in
    let* _ := match st.1 !! key with
              | Some existing => guard_err (negb (artifactsEqual existing a)) (AExists (f_ID (artifactRef a)))
              | None => Ok tt
              end in
    Ok (<[key := a]> st.1, delete key st.2)
  end.

(** The loop; an error comes with what was done before it. *)
Fixpoint finalize_all (fences : gmap string string) (transactionID : string)
    (st : gmap string Artifact * gmap string Artifact) (l : list ArtifactStage)
    : (gmap string Artifact * gmap string Artifact) * result artifact_error unit :=
  match l with
  | [] => (st, Ok tt)
  | stage :: l' =>
    match finalize_one fences transactionID st stage with
    | Ok st' => finalize_all fences transactionID st' l'
    | Err e => (st, Err e)
    end
  end.

Definition Finalize (ctx : Context) (s : ArtifactStore) (transactionID : string) (l : list ArtifactStage)
    : ArtifactStore * result artifact_error unit :=
  match (let* _ := fileStoreContextErr ctx in storage_id "transaction ID" transactionID) with
  | Err e => (s, Err (AStore e))
  | Ok _ =>
    let '((published, rest), res) := finalize_all (ar_deletions s) transactionID (artifacts s, staged s transactionID) l in
    match res with
    | Ok _ => (MkArtifacts published (delete transactionID (stages s)) (ar_deletions s), Ok tt)
    | Err e =>
      (MkArtifacts published (if stages s !! transactionID is Some _ then <[transactionID := rest]> (stages s) else stages s)
         (ar_deletions s), Err e)
    end
  end.

Definition Discard (ctx : Context) (s : ArtifactStore) (transactionID : string) : result store_error ArtifactStore :=
  let* _ := fileStoreContextErr ctx in
  let* _ := storage_id "transaction ID" transactionID in
  Ok (MkArtifacts (artifacts s) (delete transactionID (stages s)) (ar_deletions s)).

Definition FenceArtifacts (ctx : Context) (s : ArtifactStore) (runID deletionID : string)
    : result store_error ArtifactStore :=
  let* _ := check_fencing ctx runID deletionID in
  let* fences := fenceMemoryRun (ar_deletions s) runID deletionID in
  Ok (MkArtifacts (artifacts s) (stages s) fences).

Definition LoadArtifact (ctx : Context) (s : ArtifactStore) (ref : ArtifactRef) : result store_error Artifact :=
  let* _ := fileStoreContextErr ctx in
  let* _ := storage_id "run ID" (f_RunID ref) in
  let* _ := storage_id "artifact ID" (f_ID ref) in
  find (artifacts s) (key_of ref).

Definition ref_before : ArtifactRef → ArtifactRef → bool :=
  less_then f_CreatedAt z_lt (less_last f_ID str_lt).

Definition ListArtifacts (ctx : Context) (s : ArtifactStore) (runID : string) : result store_error (list ArtifactRef) :=
  let* _ := fileStoreContextErr ctx in
  let* _ := storage_id "run ID" runID in
  Ok (stable_sort ref_before (filter (λ f, f_RunID f = runID) (map (artifactRef ∘ snd) (map_to_list (artifacts s))))).

Definition drop_artifacts (runID : string) (m : gmap string Artifact) : gmap string Artifact :=
  filter (λ p, f_RunID (artifactRef p.2) ≠ runID) m.

(** A transaction left without stages is dropped too. *)
Definition DeleteArtifacts (ctx : Context) (s : ArtifactStore) (runID : string) : result store_error ArtifactStore :=
  let* _ := fileStoreContextErr ctx in
  let* _ := storage_id "run ID" runID in
  let* _ := validateMemoryRunFenceDeletion ctx (ar_deletions s) runID in
  Ok (MkArtifacts (drop_artifacts runID (artifacts s))
        (filter (λ p, p.2 ≠ ∅) (drop_artifacts runID <$> stages s)) (ar_deletions s)).

(** ** Publishing *)

Lemma artifactsEqual_trans a b c : artifactsEqual a b = true → artifactsEqual b c = true → artifactsEqual a c = true.
Proof.
  unfold artifactsEqual, same_ref_json, same_texts.
  rewrite !andb_true_iff, !bool_decide_eq_true, !Z.eqb_eq. intuition congruence.
Qed.

Lemma artifactsEqual_bytes a b : artifactsEqual a b = true → a_Data a = a_Data b.
Proof. unfold artifactsEqual. rewrite andb_true_iff, bool_decide_eq_true. by intros [? _]. Qed.

(** [a] may be replaced by [b]. *)
Definition same_artifact (a b : Artifact) : Prop := a = b ∨ artifactsEqual a b = true.

#[export] Instance same_artifact_preorder : PreOrder same_artifact.
Proof.
  split; [by left|]. intros a b c [->|Hab]; [done|]. intros [<-|Hbc]; [by right|right].
  by eapply artifactsEqual_trans.
Qed.

(** Everything in [m] is still in [m']. *)
Definition kept (m m' : gmap string Artifact) : Prop :=
  ∀ k a, m !! k = Some a → ∃ b, m' !! k = Some b ∧ same_artifact a b.

#[export] Instance kept_preorder : PreOrder kept.
Proof.
  split; [intros m k a Ha; by exists a|]. intros m1 m2 m3 H12 H23 k a Ha.
  destruct (H12 k a Ha) as (b & Hb & Hab). destruct (H23 k b Hb) as (c & Hc & Hbc).
  exists c. split; [done|]. by etrans.
Qed.

Lemma lift_store_Ok {A} (m : result store_error A) a : lift_store m = Ok a ↔ m = Ok a.
Proof. destruct m; simpl; [|done]. split; intros [= ->]; done. Qed.

(** What one stage does: nothing when it was published before, else it moves the
    staged artifact. *)
Lemma finalize_one_inv fences tid st g st' :
  finalize_one fences tid st g = Ok st' →
  let key := key_of (g_Ref g) in
  g_TransactionID g = tid ∧
  ((st' = st ∧ st.2 !! key = None ∧ is_Some (st.1 !! key)) ∨
   ∃ a, st.2 !! key = Some a ∧ fence_of fences (f_RunID (artifactRef a)) = "" ∧
     (∀ b, st.1 !! key = Some b → artifactsEqual b a = true) ∧
     st' = (<[key := a]> st.1, delete key st.2)).
Proof.
  unfold finalize_one. cbv zeta. intros H. store_inv. split; [done|].
  destruct (st.2 !! key_of (g_Ref g)) as [a|] eqn:Hk.
  - right. exists a. store_inv. rewrite lift_store_Ok in *. fence_inv. split_and!; [done..| |done].
    intros b Hb. rewrite Hb in *. by store_inv.
  - left. case_bool_decide as Hs; by simplify_eq.
Qed.

(** The invariant of the loop: nothing that was published changes, and nothing
    that was staged is lost. *)
Lemma finalize_all_keeps fences tid st l st' res :
  finalize_all fences tid st l = (st', res) →
  kept st.1 st'.1 ∧
  (∀ k a, st.2 !! k = Some a → st'.2 !! k = Some a ∨ ∃ b, st'.1 !! k = Some b ∧ same_artifact a b) ∧
  (∀ k, st'.2 !! k = None ∨ st'.2 !! k = st.2 !! k) ∧
  (res = Ok tt → ∀ g, g ∈ l → g_TransactionID g = tid ∧ is_Some (st'.1 !! key_of (g_Ref g))).
Proof.
  revert st. induction l as [|g l IH]; intros st H; simpl in H.
  { injection H as <- <-. split_and!; [done|by intros; left|by right|]. intros _ g Hg. by apply elem_of_nil in Hg. }
  destruct (finalize_one fences tid st g) as [st1|e] eqn:H1.
  2:{ injection H as <- <-. split_and!; [done|by intros; left|by right|done]. }
  apply IH in H as (Ha & Hs & Hd & Hl). clear IH.
  apply finalize_one_inv in H1 as [Htid [(-> & Hk & Hp)|(a & Hk & _ & Heq & ->)]]; simpl in *.
  - split_and!; [done..|]. intros Hr g' [->|Hg]%elem_of_cons; [|by apply Hl]. split; [done|].
    destruct Hp as [a Hp]. destruct (Ha _ _ Hp) as (b & Hb & _). by eexists.
  - set (key := key_of (g_Ref g)) in *. split_and!.
    + intros k b Hb. destruct (decide (k = key)) as [->|Hne].
      * destruct (Ha key a) as (c & Hc & Hac); [apply lookup_insert_eq|]. exists c. split; [done|].
        etrans; [right; by apply Heq|exact Hac].
      * apply Ha. by rewrite lookup_insert_ne.
    + intros k b Hb. destruct (decide (k = key)) as [->|Hne].
      * rewrite Hk in Hb. injection Hb as <-.
        right. apply Ha. apply lookup_insert_eq.
      * apply Hs. by rewrite lookup_delete_ne.
    + intros k. destruct (Hd k) as [?|Hd']; [by left|]. rewrite Hd'.
      destruct (decide (k = key)) as [->|Hne]; [left; apply lookup_delete_eq|right; by rewrite lookup_delete_ne].
    + intros Hr g' [->|Hg]%elem_of_cons; [|by apply Hl]. split; [done|].
      destruct (Ha key a) as (c & Hc & _); [apply lookup_insert_eq|]. by eexists.
Qed.

(** ** Histories *)

(** One operation of some caller; a [Finalize] that fails may still have
    published something. *)
Inductive artifact_step (s : ArtifactStore) : ArtifactStore → Prop :=
  | do_stage ctx freshID now tid a s' g : Stage ctx freshID now s tid a = Ok (s', g) → artifact_step s s'
  | do_finalize ctx tid l s' res : Finalize ctx s tid l = (s', res) → artifact_step s s'
  | do_discard ctx tid s' : Discard ctx s tid = Ok s' → artifact_step s s'
  | do_fence ctx runID d s' : FenceArtifacts ctx s runID d = Ok s' → artifact_step s s'
  | do_delete ctx runID s' : DeleteArtifacts ctx s runID = Ok s' → artifact_step s s'.

Definition is_fenced (s : ArtifactStore) (runID : string) : Prop := fence_of (ar_deletions s) runID ≠ "".

(** No artifact of the run is published. *)
Definition absent (s : ArtifactStore) (runID : string) : Prop :=
  ∀ k a, artifacts s !! k = Some a → f_RunID (artifactRef a) ≠ runID.

Lemma Stage_inv ctx freshID now s tid a s' g :
  Stage ctx freshID now s tid a = Ok (s', g) → artifacts s' = artifacts s ∧ ar_deletions s' = ar_deletions s.
Proof.
  unfold Stage. intros H. store_inv.
  destruct (staged s tid !! _) as [e|]; [|by simplify_eq]. destruct (artifactsEqual _ _); by simplify_eq.
Qed.

Lemma Finalize_inv ctx s tid l s' res :
  Finalize ctx s tid l = (s', res) →
  (s' = s ∧ is_Some (match res with Ok _ => None | Err e => Some e end)) ∨
  ∃ rest res', finalize_all (ar_deletions s) tid (artifacts s, staged s tid) l = ((artifacts s', rest), res') ∧
    res = res' ∧ ar_deletions s' = ar_deletions s ∧
    match res with
    | Ok _ => stages s' = delete tid (stages s)
    | Err _ => stages s' = if stages s !! tid is Some _ then <[tid := rest]> (stages s) else stages s
    end.
Proof.
  unfold Finalize. destruct (let* _ := fileStoreContextErr ctx in storage_id "transaction ID" tid) as [u|e].
  2:{ intros [= <- <-]. left. split; [done|by eexists]. }
  destruct (finalize_all _ _ _ _) as [[published rest] res'] eqn:Hf.
  intros H. right. exists rest, res'. destruct res' as [[]|e]; injection H as <- <-; done.
Qed.

Lemma finalize_all_absent fences tid st l st' res runID :
  finalize_all fences tid st l = (st', res) → fence_of fences runID ≠ "" →
  (∀ k a, st.1 !! k = Some a → f_RunID (artifactRef a) ≠ runID) →
  ∀ k a, st'.1 !! k = Some a → f_RunID (artifactRef a) ≠ runID.
Proof.
  intros H Hf. revert st H. induction l as [|g l IH]; intros st H Hst; simpl in H; [by simplify_eq|].
  destruct (finalize_one fences tid st g) as [st1|e] eqn:H1; [|by simplify_eq].
  apply (IH st1 H). apply finalize_one_inv in H1 as [_ [(-> & _)|(a & _ & Hw & _ & ->)]]; [done|].
  simpl. intros k b [[<- <-]|[_ Hb]]%lookup_insert_Some; [congruence|by eapply Hst].
Qed.

(** A step keeps what is published unless the run is fenced; it keeps fences, and
    publishes nothing for a fenced run. *)
Lemma artifact_step_keeps s s' :
  artifact_step s s' →
  (∀ k a, artifacts s !! k = Some a → ¬ is_fenced s' (f_RunID (artifactRef a)) →
     ∃ b, artifacts s' !! k = Some b ∧ same_artifact a b) ∧
  (∀ runID, is_fenced s runID → is_fenced s' runID) ∧
  (∀ runID, is_fenced s runID → absent s runID → absent s' runID).
Proof.
  intros [ctx freshID now tid a s1 g H|ctx tid l s1 res H|ctx tid s1 H|ctx runID d s1 H|ctx runID s1 H].
  - apply Stage_inv in H as [Ha Hd]. unfold is_fenced, absent. rewrite Ha, Hd.
    split_and!; [|done..]. intros k b Hb _. by exists b.
  - apply Finalize_inv in H as [[-> _]|(rest & res' & Hf & _ & Hd & _)].
    { split_and!; [|done..]. intros k b Hb _. by exists b. }
    pose proof (finalize_all_keeps _ _ _ _ _ _ Hf) as (Hk & _). unfold is_fenced, absent. rewrite Hd.
    split_and!; [intros k b Hb _; by apply (Hk k b)|done|].
    intros r Hr Hab. by apply (finalize_all_absent _ _ _ _ _ _ r Hf).
  - unfold Discard in H. store_inv. subst. split_and!; [|done..]. intros k b Hb _. by exists b.
  - unfold FenceArtifacts in H. fence_inv. subst. unfold is_fenced, absent, fence_of in *. simpl.
    split_and!; [intros k b Hb _; by exists b| |done].
    intros r Hr. destruct (decide (r = runID)) as [->|Hne]; [|by rewrite lookup_insert_ne].
    rewrite lookup_insert_eq. simpl.
    match goal with H : check_fencing _ _ _ = Ok _ |- _ => unfold check_fencing in H; fence_inv end. done.
  - unfold DeleteArtifacts in H. fence_inv. subst. unfold is_fenced, absent, drop_artifacts. simpl. split_and!.
    + intros k b Hb Hn. exists b. split; [|done]. apply map_lookup_filter_Some. split; [done|].
      simpl. intros Heq. rewrite Heq in Hn. by apply Hn.
    + done.
    + intros r _ Hab k b [Hb _]%map_lookup_filter_Some. by eapply Hab.
Qed.

(** ** Records are filed under their run and their identifier *)

Definition filed (k : string) (a : Artifact) : Prop :=
  key_of (artifactRef a) = k ∧ Contains "000" (f_RunID (artifactRef a)) = false.

Record artifacts_wf (s : ArtifactStore) : Prop := {
  wf_published k a : artifacts s !! k = Some a → filed k a;
  wf_staged t k a : staged s t !! k = Some a → filed k a;
}.

Lemma storage_id_no_nul name v u : storage_id name v = Ok u → Contains "000" v = false.
Proof.
  intros H%lift_lease_Ok. unfold validateRunnerStorageID in H. store_inv.
  match goal with Hp : forallb _ _ = true |- _ => rename Hp into Hc end.
  unfold to_bytes in Hc. clear -Hc. induction v as [|c v IH]; [done|]. simpl in *. apply andb_true_iff in Hc as [Hc Hv].
  rewrite bool_decide_false by (intros ->; discriminate Hc). by apply IH.
Qed.

(** A key belongs to one run. *)
Lemma filed_run k a b : filed k a → filed k b → f_RunID (artifactRef a) = f_RunID (artifactRef b).
Proof.
  intros [Ha Hna] [Hb Hnb]. rewrite <-Hb in Ha. unfold key_of, memoryArtifactKey in Ha.
  apply (f_equal (Split "000")) in Ha. rewrite !Split_sep in Ha by done. by injection Ha.
Qed.

Lemma staged_insert s t m t' :
  staged (MkArtifacts (artifacts s) (<[t := m]> (stages s)) (ar_deletions s)) t' =
  if decide (t = t') then m else staged s t'.
Proof.
  unfold staged. simpl. case_decide as Ht; [subst; by rewrite lookup_insert_eq|by rewrite lookup_insert_ne].
Qed.

Lemma finalize_all_filed fences tid st l st' res :
  finalize_all fences tid st l = (st', res) →
  (∀ k a, st.1 !! k = Some a → filed k a) → (∀ k a, st.2 !! k = Some a → filed k a) →
  (∀ k a, st'.1 !! k = Some a → filed k a) ∧ (∀ k a, st'.2 !! k = Some a → filed k a).
Proof.
  revert st. induction l as [|g l IH]; intros st H H1 H2; simpl in H; [by simplify_eq|].
  destruct (finalize_one fences tid st g) as [st1|e] eqn:Ho; [|by simplify_eq].
  apply (IH st1 H); apply finalize_one_inv in Ho as [_ [(-> & _)|(a & Ha & _ & _ & ->)]]; try done; simpl.
  - intros k b [[<- <-]|[_ Hb]]%lookup_insert_Some; auto.
  - intros k b [_ Hb]%lookup_delete_Some. auto.
Qed.

Lemma artifact_step_wf s s' : artifact_step s s' → artifacts_wf s → artifacts_wf s'.
Proof.
  intros [ctx freshID now tid a s1 g H|ctx tid l s1 res H|ctx tid s1 H|ctx runID d s1 H|ctx runID s1 H] [Hp Hst].
  - unfold Stage in H. store_inv. rewrite lift_store_Ok in *.
    set (a' := staged_artifact ctx freshID now a) in *.
    destruct (staged s tid !! _) as [e|]; [destruct (artifactsEqual _ _); by simplify_eq|]. simplify_eq.
    split; [done|]. intros t k b. rewrite staged_insert. case_decide; [|by apply Hst].
    intros [[<- <-]|[_ Hb]]%lookup_insert_Some; [|by eapply Hst]. split; [done|].
    simpl. by eapply storage_id_no_nul.
  - apply Finalize_inv in H as [[-> _]|(rest & res' & Hf & -> & _ & Hs)]; [done|].
    apply finalize_all_filed in Hf as [H1 H2]; [|done|by apply Hst]. split; [done|]. simpl in H2.
    intros t k b. unfold staged. destruct res' as [[]|e]; rewrite Hs.
    + destruct (decide (t = tid)) as [->|Hne]; [by rewrite lookup_delete_eq|].
      rewrite lookup_delete_ne by done. by apply Hst.
    + destruct (stages s !! tid); [|by apply Hst].
      destruct (decide (t = tid)) as [->|Hne]; [rewrite lookup_insert_eq; by apply H2|].
      rewrite lookup_insert_ne by done. by apply Hst.
  - unfold Discard in H. store_inv. subst. split; [done|]. intros t k b. unfold staged. simpl.
    destruct (decide (t = tid)) as [->|Hne]; [by rewrite lookup_delete_eq|].
    rewrite lookup_delete_ne by done. by apply Hst.
  - unfold FenceArtifacts in H. store_inv. by subst.
  - unfold DeleteArtifacts in H. store_inv. subst. unfold drop_artifacts. split; simpl.
    + intros k b [Hb _]%map_lookup_filter_Some. by apply Hp.
    + intros t k b. unfold staged. simpl.
      destruct (filter _ _ !! t) as [m|] eqn:Hm; [|done]. simpl.
      apply map_lookup_filter_Some in Hm as [Hm _]. rewrite lookup_fmap in Hm.
      destruct (stages s !! t) as [m'|] eqn:Ht; [|done]. simpl in Hm. injection Hm as <-.
      intros [Hb _]%map_lookup_filter_Some. apply (Hst t). unfold staged. by rewrite Ht.
Qed.

Lemma artifact_steps_wf s s' : rtc artifact_step s s' → artifacts_wf s → artifacts_wf s'.
Proof. induction 1; eauto using artifact_step_wf. Qed.

Lemma artifacts_wf_new : artifacts_wf NewMemoryArtifactStore.
Proof. split; intros *; unfold staged; simpl; by rewrite !lookup_empty. Qed.

Lemma artifact_steps_keep s s' :
  rtc artifact_step s s' → artifacts_wf s →
  (∀ runID, is_fenced s runID → is_fenced s' runID) ∧
  (∀ runID, is_fenced s runID → absent s runID → absent s' runID) ∧
  (∀ k a, artifacts s !! k = Some a → ¬ is_fenced s' (f_RunID (artifactRef a)) →
     ∃ b, artifacts s' !! k = Some b ∧ same_artifact a b).
Proof.
  induction 1 as [s|s1 s2 s3 H1 H2 IH]; intros Hw; [split_and!; [done..|]; intros k a Ha _; by exists a|].
  pose proof (artifact_step_wf _ _ H1 Hw) as Hw2.
  apply artifact_step_keeps in H1 as (K & F & A). destruct (IH Hw2) as (IF & IA & IK).
  split_and!; [by auto|by auto|]. intros k a Ha Hn.
  destruct (K k a Ha) as (b & Hb & Heq); [by auto|].
  rewrite (filed_run k a b) in Hn; [|by apply (wf_published _ Hw)|by apply (wf_published _ Hw2)].
  destruct (IK k b Hb Hn) as (c & Hc & Hbc). exists c. split; [done|]. by etrans.
Qed.

(** published artifacts are immutable and deleted ones do not come back.  In
    every history of the store, an artifact that was published can be loaded
    later with the same bytes and the same metadata for as long as its run is not
    fenced for deletion; and once [DeleteRun] succeeded on a run, no artifact of
    that run is ever published again. *)
Theorem artifact_immutable s s' :
  rtc artifact_step NewMemoryArtifactStore s → rtc artifact_step s s' →
  (∀ k a, artifacts s !! k = Some a → ¬ is_fenced s' (f_RunID (artifactRef a)) →
     ∃ b, artifacts s' !! k = Some b ∧ same_artifact a b) ∧
  (∀ ctx runID s0, DeleteArtifacts ctx s0 runID = Ok s → absent s' runID).
Proof.
  intros H0 Hs. pose proof (artifact_steps_wf _ _ H0 artifacts_wf_new) as Hw.
  destruct (artifact_steps_keep _ _ Hs Hw) as (_ & Ha & Hk). split; [done|].
  intros ctx runID s0 H. unfold DeleteArtifacts in H. fence_inv. subst. apply Ha; [done|].
  unfold absent, drop_artifacts. simpl. intros k a [_ Hr]%map_lookup_filter_Some. done.
Qed.

(** publishing can be tried again.  A [Finalize] that stops half-way loses no
    staged artifact: each is still staged or published with the same content.  A
    [Finalize] that succeeds has published every stage it was given, and doing it
    again changes nothing. *)
Theorem finalize_retry ctx s tid l s' res :
  Finalize ctx s tid l = (s', res) →
  (∀ k a, staged s tid !! k = Some a →
     match res with
     | Err _ => staged s' tid !! k = Some a ∨ ∃ b, artifacts s' !! k = Some b ∧ same_artifact a b
     | Ok _ => True
     end) ∧
  (res = Ok tt → (∀ g, g ∈ l → is_Some (artifacts s' !! key_of (g_Ref g))) ∧ Finalize ctx s' tid l = (s', Ok tt)).
Proof.
  intros H. pose proof H as Hfin. apply Finalize_inv in H as [[-> Hr]|(rest & res' & Hf & <- & Hd & Hs)].
  - destruct res as [|e]; [by destruct Hr|]. split; [by intros; left|done].
  - pose proof (finalize_all_keeps _ _ _ _ _ _ Hf) as (_ & Hst & _ & Hl). simpl in *. split.
    + intros k a Ha. destruct res as [|e]; [done|]. unfold staged in Ha |- *.
      destruct (stages s !! tid) as [m|] eqn:Ht; [|done]. rewrite Hs, lookup_insert_eq. simpl.
      apply Hst. unfold staged. by rewrite Ht.
    + intros ->. specialize (Hl eq_refl). split; [intros g Hg; by apply Hl|].
      assert (finalize_all (ar_deletions s') tid (artifacts s', staged s' tid) l = ((artifacts s', staged s' tid), Ok tt)) as Ha.
      { assert (staged s' tid = ∅) as -> by (unfold staged; by rewrite Hs, lookup_delete_eq).
        clear -Hl. induction l as [|g l IH]; [done|]. simpl. destruct (Hl g) as [Ht Hp]; [left|].
        unfold finalize_one. rewrite bool_decide_true by done. simpl. rewrite lookup_empty.
        rewrite bool_decide_true by done. apply IH. intros g' Hg. apply Hl. by right. }
      unfold Finalize in Hfin |- *.
      destruct (let* _ := fileStoreContextErr ctx in storage_id "transaction ID" tid) as [u|e]; [|done].
      rewrite Ha. f_equal. destruct s' as [pub stg fen]. simpl in *. f_equal.
      rewrite Hs. apply delete_id. apply lookup_delete_eq.
Qed.

(** A run of the store: stage an artifact, publish it, delete its run. *)
Definition report : Artifact :=
  MkArtifact (MkRef "" "run-1" "" "" "" "" "" "" "" [] "" "report" "text/plain" "" 0) "done".

Definition staged_sample : ArtifactStore :=
  match Stage Background "art-1" 5 NewMemoryArtifactStore "tx-1" report with Ok p => p.1 | Err _ => NewMemoryArtifactStore end.
Definition sample_stages : list ArtifactStage :=
  match Stage Background "art-1" 5 NewMemoryArtifactStore "tx-1" report with Ok p => [p.2] | Err _ => [] end.
Definition published_sample : ArtifactStore := (Finalize Background staged_sample "tx-1" sample_stages).1.

Lemma artifact_immutable_witness :
  rtc artifact_step NewMemoryArtifactStore published_sample ∧
  ∃ b, artifacts published_sample !! memoryArtifactKey "run-1" "art-1" = Some b ∧ a_Data b = "done".
Proof.
  assert (rtc artifact_step NewMemoryArtifactStore staged_sample) as H1.
  { eapply rtc_l; [|done]. eapply (do_stage _ Background "art-1" 5 "tx-1" report). vm_compute. reflexivity. }
  assert (rtc artifact_step staged_sample published_sample) as H2.
  { eapply rtc_l; [|done]. eapply (do_finalize _ Background "tx-1" sample_stages). vm_compute. reflexivity. }
  assert (rtc artifact_step NewMemoryArtifactStore published_sample) as H3 by (by etrans). split; [done|].
  destruct (artifact_immutable _ _ H3 (rtc_refl _ _)) as [Hk _].
  destruct (Hk (memoryArtifactKey "run-1" "art-1")
    (MkArtifact (MkRef "art-1" "run-1" "" "" "" "" "" "" "" [] "" "report" "text/plain" "memory/run-1/art-1" 5) "done"))
    as (b & Hb & Heq); [vm_compute; reflexivity|vm_compute; tauto|].
  exists b. split; [done|]. destruct Heq as [<-|Heq%artifactsEqual_bytes]; [done|by rewrite <-Heq].
Defined.

Lemma finalize_retry_witness :
  Finalize Background published_sample "tx-1" sample_stages = (published_sample, Ok tt) ∧
  (Finalize Background staged_sample "tx-1" (sample_stages ++ [MkStage "tx-1" (artifactRef report)])).2 =
    Err (AStore (SNotFound "")).
Proof.
  split; [|vm_compute; reflexivity].
  apply (finalize_retry Background staged_sample "tx-1" sample_stages published_sample (Ok tt)); [|done].
  vm_compute. reflexivity.
Defined.
