(* ===== verification/Commit.v ===== *)
(** * Transactions of the memory runtime store: [runtime/transaction_store.go]

    [MemoryRuntimeStore] joins the execution store, the checkpoint store and the
    event sink.  [Commit] writes to copies of their maps and installs them at the
    end, under every mutex at once; what it decided is kept under the
    transaction's identifier, so a client that lost the answer may ask again.
    The identifier of a commit that has none is an argument.  [TransactionStore]
    is the interface the runner works against. *)

From Stdlib Require Import Ascii.
From S2P Require Import Prelude GoStrings Values Json Sensitive Errors Lease Records RunStore Stores Artifacts.

(** ** Commits *)

Inductive RunWriteMode := RunWriteCreate | RunWriteUpdate | RunWriteCheck | RunWriteOther (mode : string).
Inductive StepWriteMode := StepWriteAppend | StepWriteUpdate | StepWriteOther (mode : string).

Record RunWrite := MkRunWrite { rw_Mode : RunWriteMode; rw_Run : RunRecord }.
Record StepWrite := MkStepWrite { sw_Mode : StepWriteMode; sw_Step : StepRecord }.
Record CheckpointWrite := MkCheckpointWrite { cw_Record : CheckpointRecord; cw_Payload : string }.

Inductive TransactionOutcome :=
  | TransactionNotStarted | TransactionCommitted | TransactionOutcomeUnknown | TransactionOutcomeOther (outcome : string).

#[export] Instance RunWriteMode_eq_dec : EqDecision RunWriteMode.
Proof. solve_decision. Defined.
#[export] Instance StepWriteMode_eq_dec : EqDecision StepWriteMode.
Proof. solve_decision. Defined.
#[export] Instance TransactionOutcome_eq_dec : EqDecision TransactionOutcome.
Proof. solve_decision. Defined.

Record Commit := MkCommit {
  c_TransactionID : string;
  c_Lease : option ExecutionLeaseGuard;
  c_Run : option RunWrite;
  c_Steps : list StepWrite;
  c_Checkpoints : list CheckpointWrite;
  c_Events : list Event;
  c_Artifacts : list ArtifactStage;
}.

Record CommitResult := MkCommitResult {
  cr_TransactionID : string;
  cr_Outcome : TransactionOutcome;
  cr_Run : option RunRecord;
  cr_Artifacts : list ArtifactStage;
}.

Definition with_TransactionID (id : string) (c : Commit) : Commit :=
  MkCommit id (c_Lease c) (c_Run c) (c_Steps c) (c_Checkpoints c) (c_Events c) (c_Artifacts c).

Definition ensureCommitTransactionID (freshID : string) (c : Commit) : Commit :=
  if bool_decide (TrimSpace (c_TransactionID c) = "") then with_TransactionID freshID c else c.

(** The SHA-256 digest of the JSON text of a commit; [None] when [json.Marshal]
    fails. *)
Class CommitDigest := json_sha256 : Commit → option string.

Definition commitFingerprint `{CommitDigest} (c : Commit) : option string := json_sha256 (with_TransactionID "" c).

Definition sanitizeCommit (ctx : Context) (c : Commit) : Commit :=
  MkCommit (c_TransactionID c) (c_Lease c)
    ((λ w, MkRunWrite (rw_Mode w) (sanitizeRunRecord ctx (rw_Run w))) <$> c_Run c)
    ((λ w, MkStepWrite (sw_Mode w) (sanitizeStepRecord ctx (sw_Step w))) <$> c_Steps c)
    (c_Checkpoints c) (map (sanitizeEventPayload ctx) (c_Events c)) (c_Artifacts c).

(** ** Validation *)

(** [addRunID]: the one run a commit is about. *)
Definition add_run_id (runID : string) (candidate : string) : result store_error string :=
  let candidate := TrimSpace candidate in
  if bool_decide (candidate = "") then Ok runID
  else if bool_decide (runID = "") then Ok candidate
  else if bool_decide (runID = candidate) then Ok runID
  else Err (SInvalid candidate "runtime commit spans runs").

(** The run of every record, in the order of the code. *)
Definition commit_run_ids (c : Commit) : list string :=
  from_option (λ w, [r_RunID (rw_Run w)]) [] (c_Run c)
  ++ map (s_RunID ∘ sw_Step) (c_Steps c) ++ map (k_RunID ∘ cw_Record) (c_Checkpoints c)
  ++ map v_RunID (c_Events c) ++ map (f_RunID ∘ g_Ref) (c_Artifacts c).

Definition singleCommitRunID (c : Commit) : result store_error string :=
  let* runID := foldM add_run_id "" (commit_run_ids c) in
  let* _ := refuse "" "runtime commit requires a run ID" (bool_decide (runID = "")) in
  Ok runID.

Definition validateArtifactStages (transactionID : string) (l : list ArtifactStage) : result store_error unit :=
  first_err (λ g,
    let* _ := refuse (g_TransactionID g) "artifact stage transaction" (negb (bool_decide (g_TransactionID g = transactionID))) in
    let* _ := storage_id "run ID" (f_RunID (g_Ref g)) in
    storage_id "artifact ID" (f_ID (g_Ref g))) l.

Definition validate_commit_lease (c : Commit) : result store_error unit :=
  match c_Lease c with
  | None => Ok tt
  | Some g =>
    let* _ := storage_id "execution lease guard run ID" (g_RunID g) in
    let* _ := storage_id "execution lease guard token" (g_Token g) in
    let* _ := guard_err (g_Epoch g =? 0)%N (SLease LEpochZero) in
    let* runID := singleCommitRunID c in
    refuse (g_RunID g) "execution lease guard run" (negb (bool_decide (runID = g_RunID g)))
  end.

Definition validateRuntimeCommit (c : Commit) : result store_error unit :=
  let* _ := storage_id "transaction ID" (c_TransactionID c) in
  let* _ := validate_commit_lease c in
  let* _ :=
    match c_Run c with
    | None => Ok tt
    | Some w =>
      let* _ := storage_id "run ID" (r_RunID (rw_Run w)) in
      let* _ := validateRunChildState (rw_Run w) in
      match rw_Mode w with RunWriteOther m => Err (SInvalid (r_RunID (rw_Run w)) m) | _ => Ok tt end
    end in
  let* _ := first_err (λ w,
    let* _ := storage_id "run ID" (s_RunID (sw_Step w)) in
    let* _ := storage_id "step ID" (s_StepID (sw_Step w)) in
    let* _ := validateStepEffect (sw_Step w) in
    match sw_Mode w with StepWriteOther m => Err (SInvalid (s_StepID (sw_Step w)) m) | _ => Ok tt end) (c_Steps c) in
  let* _ := first_err (λ w,
    let* _ := storage_id "run ID" (k_RunID (cw_Record w)) in
    storage_id "checkpoint ID" (k_CheckpointID (cw_Record w))) (c_Checkpoints c) in
  let* _ := first_err (λ e,
    if IsStreamingEvent (v_Type e) then Ok tt else
    let* _ := storage_id "run ID" (v_RunID e) in
    storage_id "event ID" (v_ID e)) (c_Events c) in
  validateArtifactStages (c_TransactionID c) (c_Artifacts c).

(** The commit creates this run. *)
Definition creates (c : Commit) (run : RunRecord) : bool :=
  match c_Run c with
  | Some w => bool_decide (rw_Mode w = RunWriteCreate) && bool_decide (r_RunID (rw_Run w) = r_RunID run)
  | None => false
  end.

(** A run the commit creates is exempt; else an active lease needs the guard
    that names it. *)
Definition validateCommitExecutionLease (run : RunRecord) (c : Commit) : result store_error unit :=
  if creates c run then Ok tt else
  match c_Lease c with
  | Some g => lift_lease (validateExecutionLeaseGuard (leased run) g)
  | None => guard_err (from_option is_active false (r_ExecutionLease run)) (SLease (LLost (r_RunID run)))
  end.

(** ** Applying a commit to the maps *)

Record Tables := MkTables {
  t_runs : gmap string RunRecord;
  t_steps : gmap string StepRecord;
  t_checkpoints : gmap string (CheckpointRecord * string);
  t_events : gmap string (list Event);
}.

Definition with_runs (m : gmap string RunRecord) (t : Tables) : Tables :=
  MkTables m (t_steps t) (t_checkpoints t) (t_events t).
Definition with_steps (m : gmap string StepRecord) (t : Tables) : Tables :=
  MkTables (t_runs t) m (t_checkpoints t) (t_events t).
Definition with_checkpoints (m : gmap string (CheckpointRecord * string)) (t : Tables) : Tables :=
  MkTables (t_runs t) (t_steps t) m (t_events t).
Definition with_events (m : gmap string (list Event)) (t : Tables) : Tables :=
  MkTables (t_runs t) (t_steps t) (t_checkpoints t) m.

Section apply.
Context (ctx : Context) (c : Commit) (fences : gmap string string).

Definition apply_create (run : RunRecord) (t : Tables) : result store_error (Tables * option RunRecord) :=
  let* _ := validateNewRunDeletion run in
  let* _ := ensureMemoryRunWritable fences (r_RunID run) in
  let* _ := guard_err (bool_decide (is_Some (t_runs t !! r_RunID run))) (SExists (r_RunID run)) in
  let* _ := if bool_decide (r_ParentRunID run = "") then Ok tt else
              let* _ := ensureMemoryRunWritable fences (r_ParentRunID run) in
              let* parent := find (t_runs t) (r_ParentRunID run) in
              validateNewRunParent run parent in
  Ok (with_runs (<[r_RunID run := cloneRunRecord run]> (t_runs t)) t, Some run).

Definition apply_update (mode : RunWriteMode) (run : RunRecord) (t : Tables)
    : result store_error (Tables * option RunRecord) :=
  let* existing := find (t_runs t) (r_RunID run) in
  let* _ := refuse (r_RunID run) "metadata identity" (negb (bool_decide (r_RunID existing = r_RunID run))) in
  let* _ := guard_err (negb (r_Revision existing =? r_Revision run)%N)
              (SConflict (r_RunID run) (r_Revision run) (r_Revision existing)) in
  let* _ := validateCommitExecutionLease existing c in
  let* _ := guard_err (negb (bool_decide (r_ExecutionLease existing = r_ExecutionLease run))) (SNotAllowed (r_RunID run)) in
  if bool_decide (mode = RunWriteCheck) then
    let* _ := ensureMemoryRunWritable fences (r_RunID run) in
    let* _ := ensureRunNotDeleting existing in
    Ok (t, None)
  else
    let* _ := validateRunDeletionTransition ctx existing run in
    let run := with_Revision (next_revision (r_Revision run)) run in
    Ok (with_runs (<[r_RunID run := cloneRunRecord run]> (t_runs t)) t, Some run).

Definition apply_run (t : Tables) : result store_error (Tables * option RunRecord) :=
  match c_Run c with
  | None => Ok (t, None)
  | Some w =>
    let run := cloneRunRecord (rw_Run w) in
    match rw_Mode w with
    | RunWriteCreate => apply_create run t
    | RunWriteUpdate | RunWriteCheck => apply_update (rw_Mode w) run t
    | RunWriteOther _ => Ok (with_runs (<[r_RunID run := cloneRunRecord run]> (t_runs t)) t, Some run)
    end
  end.

(** The run a record of the commit belongs to accepts writes. *)
Definition check_target (t : Tables) (runID : string) : result store_error unit :=
  let* run := find (t_runs t) runID in
  let* _ := validateCommitExecutionLease run c in
  let* _ := ensureMemoryRunWritable fences runID in
  ensureRunNotDeleting run.

Definition apply_step (t : Tables) (w : StepWrite) : result store_error Tables :=
  let step := sw_Step w in
  let* _ := storage_id "run ID" (s_RunID step) in
  let* _ := storage_id "step ID" (s_StepID step) in
  let* _ := check_target t (s_RunID step) in
  let* _ :=
    match sw_Mode w with
    | StepWriteAppend => guard_err (bool_decide (is_Some (t_steps t !! s_StepID step))) (SExists (s_StepID step))
    | StepWriteUpdate =>
      let* existing := find (t_steps t) (s_StepID step) in
      let* _ := guard_err (negb (bool_decide (s_RunID existing = s_RunID step))) (SNotFound (s_StepID step)) in
      validateStepEffectTransition existing step
    | StepWriteOther m => Err (SInvalid (s_StepID step) m)
    end in
  Ok (with_steps (<[s_StepID step := step]> (t_steps t)) t).

Definition apply_checkpoint (t : Tables) (w : CheckpointWrite) : result store_error Tables :=
  let k := cw_Record w in
  let* _ := storage_id "run ID" (k_RunID k) in
  let* _ := storage_id "checkpoint ID" (k_CheckpointID k) in
  let* _ := check_target t (k_RunID k) in
  let* _ := guard_err (bool_decide (is_Some (t_checkpoints t !! k_CheckpointID k))) (SExists (k_CheckpointID k)) in
  Ok (with_checkpoints (<[k_CheckpointID k := (without_PayloadRef k, cw_Payload w)]> (t_checkpoints t)) t).

Definition apply_event (t : Tables) (e : Event) : result store_error Tables :=
  if IsStreamingEvent (v_Type e) then Ok t else
  let* _ := check_target t (v_RunID e) in
  Ok (with_events (append_event (t_events t) e) t).

Definition applyMemoryCommit (t : Tables) : result store_error (Tables * option RunRecord) :=
  let* _ := validateRuntimeCommit c in
  let* _ := match c_Lease c with
            | None => Ok tt
            | Some g => let* run := find (t_runs t) (g_RunID g) in
                        lift_lease (validateExecutionLeaseGuard (leased run) g)
            end in
  let* p := apply_run t in
  let* t := foldM apply_step p.1 (c_Steps c) in
  let* t := foldM apply_checkpoint t (c_Checkpoints c) in
  let* t := foldM apply_event t (c_Events c) in
  let* _ := first_err (λ g, check_target t (f_RunID (g_Ref g))) (c_Artifacts c) in
  Ok (t, p.2).
End apply.

(** ** Deletion manifests: [runtime/run_deletion.go] *)

Definition RunDeletionDeleted : string := "deleted".

Record RunDeletionManifest := MkManifest {
  m_ID : string;
  m_RootRunID : string;
  m_ParentRunID : string;
  m_Phase : string;
  m_RunIDs : list string;
  m_CreatedAt : Z;
  m_UpdatedAt : Z;
}.

Definition validateRunDeletionManifest (m : RunDeletionManifest) : result store_error unit :=
  let* _ := storage_id "deletion ID" (m_ID m) in
  let* _ := storage_id "deletion root run ID" (m_RootRunID m) in
  let* _ := if bool_decide (m_ParentRunID m = "") then Ok tt else
              let* _ := storage_id "deletion parent run ID" (m_ParentRunID m) in
              refuse (m_RootRunID m) "own parent" (bool_decide (m_ParentRunID m = m_RootRunID m)) in
  let* _ := refuse (m_ID m) "timestamps"
              ((m_CreatedAt m =? 0)%Z || (m_UpdatedAt m =? 0)%Z || (m_UpdatedAt m <? m_CreatedAt m)%Z) in
  if bool_decide (m_Phase m ∈ [RunDeletionPlanned; RunDeletionUnlinked; RunDeletionDeleted])
  then validateRunDeletionPlan (m_RootRunID m) (m_RunIDs m)
  else Err (SInvalid (m_ID m) "manifest phase").

(** May [next] replace the stored [m]? *)
Definition validateRunDeletionManifestIdentity (m next : RunDeletionManifest) : result store_error unit :=
  let* _ := validateRunDeletionManifest m in
  let* _ := refuse (m_ID m) "identity"
              (negb (bool_decide (m_ID m = m_ID next)) || negb (bool_decide (m_RootRunID m = m_RootRunID next))
               || negb (bool_decide (m_ParentRunID m = m_ParentRunID next))) in
  let* _ := refuse (m_ID m) "run plan" (negb (bool_decide (m_RunIDs m = m_RunIDs next))) in
  refuse (m_ID m) "phase"
    (negb (bool_decide (m_Phase m = m_Phase next))
     && (negb (bool_decide (m_Phase m ∈ [RunDeletionPlanned; RunDeletionUnlinked]))
         || negb (bool_decide (m_Phase next ∈ [RunDeletionPlanned; RunDeletionUnlinked; RunDeletionDeleted])))).

(** ** The runtime store *)

Record RuntimeStore := MkRuntime {
  execution : Store;
  checkpoint_store : CheckpointStore;
  event_sink : EventSink;
  manifests : gmap string RunDeletionManifest;
  transactions : gmap string (string * CommitResult);
}.

Definition NewMemoryRuntimeStore : RuntimeStore :=
  MkRuntime NewMemoryExecutionStore NewMemoryCheckpointStore NewMemoryEventSink ∅ ∅.

Definition with_execution (x : Store) (s : RuntimeStore) : RuntimeStore :=
  MkRuntime x (checkpoint_store s) (event_sink s) (manifests s) (transactions s).
Definition with_checkpoint_store (x : CheckpointStore) (s : RuntimeStore) : RuntimeStore :=
  MkRuntime (execution s) x (event_sink s) (manifests s) (transactions s).
Definition with_event_sink (x : EventSink) (s : RuntimeStore) : RuntimeStore :=
  MkRuntime (execution s) (checkpoint_store s) x (manifests s) (transactions s).

Definition LoadRunDeletionManifest (ctx : Context) (s : RuntimeStore) (id : string)
    : result store_error RunDeletionManifest :=
  let* _ := fileStoreContextErr ctx in
  let* _ := storage_id "deletion ID" id in
  find (manifests s) id.

Definition ListRunDeletionManifests (ctx : Context) (s : RuntimeStore) : result store_error (list RunDeletionManifest) :=
  let* _ := fileStoreContextErr ctx in
  Ok (stable_sort (less_last m_ID str_lt) (map snd (map_to_list (manifests s)))).

Definition SaveRunDeletionManifest (ctx : Context) (s : RuntimeStore) (m : RunDeletionManifest)
    : result store_error RuntimeStore :=
  let* _ := fileStoreContextErr ctx in
  let* _ := validateRunDeletionManifest m in
  let* _ := match manifests s !! m_ID m with
            | Some existing => validateRunDeletionManifestIdentity existing m
            | None => Ok tt
            end in
  Ok (MkRuntime (execution s) (checkpoint_store s) (event_sink s) (<[m_ID m := m]> (manifests s)) (transactions s)).

(** [MemoryRuntimeStore.DeleteRun]: all three parts under their three locks. *)
Definition DeleteRuntimeRun (ctx : Context) (s : RuntimeStore) (runID : string) : result store_error RuntimeStore :=
  let* _ := fileStoreContextErr ctx in
  let* _ := storage_id "run ID" runID in
  let x := execution s in
  let* _ := validateMemoryRunFenceDeletion ctx (deletions x) runID in
  let* _ := validateMemoryRunFenceDeletion ctx (cp_deletions (checkpoint_store s)) runID in
  let* _ := validateMemoryRunFenceDeletion ctx (ev_deletions (event_sink s)) runID in
  let* _ := match runs x !! runID with
            | Some run => validateMemoryRunDeletion ctx runID (r_Deletion run)
            | None => Ok tt
            end in
  Ok (MkRuntime
        (MkStore (delete runID (runs x)) (filter (λ p, s_RunID p.2 ≠ runID) (steps x)) (deletions x))
        (MkCheckpoints (drop_checkpoints runID (checkpoints (checkpoint_store s))) (cp_deletions (checkpoint_store s)))
        (MkEvents (delete runID (events (event_sink s))) (ev_deletions (event_sink s)))
        (manifests s) (transactions s)).

Definition FenceRuntimeRun (ctx : Context) (s : RuntimeStore) (runID deletionID : string) : result store_error RuntimeStore :=
  let* _ := fileStoreContextErr ctx in
  let* _ := storage_id "run ID" runID in
  let* _ := requireRunDeletionMutation ctx runID deletionID in
  let* x := fenceMemoryRun (deletions (execution s)) runID deletionID in
  let* k := fenceMemoryRun (cp_deletions (checkpoint_store s)) runID deletionID in
  let* v := fenceMemoryRun (ev_deletions (event_sink s)) runID deletionID in
  Ok (MkRuntime (MkStore (runs (execution s)) (steps (execution s)) x)
        (MkCheckpoints (checkpoints (checkpoint_store s)) k) (MkEvents (events (event_sink s)) v)
        (manifests s) (transactions s)).

(** ** Commit *)

(** What a transaction call returns: a result whatever happened, and an error. *)
Record Answer := MkAnswer { an_Result : CommitResult; an_Error : option store_error }.

Definition tables_of (s : RuntimeStore) : Tables :=
  MkTables (runs (execution s)) (steps (execution s)) (checkpoints (checkpoint_store s)) (events (event_sink s)).

(** The maps installed. *)
Definition install (t : Tables) (s : RuntimeStore) : RuntimeStore :=
  MkRuntime (MkStore (t_runs t) (t_steps t) (deletions (execution s)))
    (MkCheckpoints (t_checkpoints t) (cp_deletions (checkpoint_store s)))
    (MkEvents (t_events t) (ev_deletions (event_sink s))) (manifests s) (transactions s).

Definition record_transaction (id fingerprint : string) (r : CommitResult) (s : RuntimeStore) : RuntimeStore :=
  MkRuntime (execution s) (checkpoint_store s) (event_sink s) (manifests s)
    (<[id := (fingerprint, r)]> (transactions s)).

Section commit.
Context `{CommitDigest}.

(** [MemoryRuntimeStore.Commit] once the commit has an identifier. *)
Definition commit_body (ctx : Context) (s : RuntimeStore) (c : Commit) : result store_error (RuntimeStore * CommitResult) :=
  let* _ := fileStoreContextErr ctx in
  let c := sanitizeCommit ctx c in
  let* _ := validateRuntimeCommit c in
  match commitFingerprint c with
  | None => Err (SInvalid (c_TransactionID c) "encode runtime transaction fingerprint")
  | Some fingerprint =>
    match transactions s !! c_TransactionID c with
    | Some (existing, r) =>
      let* _ := refuse (c_TransactionID c) "fingerprint mismatch" (negb (bool_decide (existing = fingerprint))) in
      Ok (s, r)
    | None =>
      let* p := applyMemoryCommit ctx c (deletions (execution s)) (tables_of s) in
      let r := MkCommitResult (c_TransactionID c) TransactionCommitted p.2 (c_Artifacts c) in
      Ok (record_transaction (c_TransactionID c) fingerprint r (install p.1 s), r)
    end
  end.

Definition not_started (id : string) : CommitResult := MkCommitResult id TransactionNotStarted None [].

Definition RuntimeCommit (ctx : Context) (freshID : string) (s : RuntimeStore) (c : Commit) : RuntimeStore * Answer :=
  let c := ensureCommitTransactionID freshID c in
  match commit_body ctx s c with
  | Ok p => (p.1, MkAnswer p.2 None)
  | Err e => (s, MkAnswer (not_started (c_TransactionID c)) (Some e))
  end.

Definition ResolveCommit (ctx : Context) (s : RuntimeStore) (id : string) : Answer :=
  match (let* _ := fileStoreContextErr ctx in storage_id "transaction ID" id) with
  | Err e => MkAnswer (not_started id) (Some e)
  | Ok _ => match transactions s !! id with
            | Some p => MkAnswer p.2 None
            | None => MkAnswer (not_started id) None
            end
  end.
End commit.
