(* ===== verification/Transactions.v ===== *)
(** * Histories of the runtime store

    What the transactions of [Commit] guarantee over every sequence of operations
    of any callers: a commit does what single writes could have done, happens
    once, respects the leases, and a deleted run stays deleted in all three parts
    of the store. *)

From S2P Require Import Prelude GoStrings Values Json Sensitive Errors Lease Records RunStore Stores Artifacts Commit.

(** ** A commit as a sequence of writes *)

Definition store_of (fences : gmap string string) (t : Tables) : Store := MkStore (t_runs t) (t_steps t) fences.

(** The [uint64] fields of the run a commit writes. *)
Definition typed_commit (c : Commit) : Prop :=
  match c_Run c with
  | Some w => (r_Revision (rw_Run w) < 2 ^ 64)%N ∧ (epoch_of (leased (rw_Run w)) < 2 ^ 64)%N
  | None => True
  end.

(** Nothing but new checkpoints and events at the end of the logs. *)
Definition appends (fences : gmap string string) (t t' : Tables) : Prop :=
  (∀ k p, t_checkpoints t !! k = Some p → t_checkpoints t' !! k = Some p) ∧
  (∀ k p, t_checkpoints t' !! k = Some p → t_checkpoints t !! k = Some p ∨ fence_of fences (k_RunID p.1) = "") ∧
  (∀ id, ∃ new, log_of (t_events t') id = log_of (t_events t) id ++ new ∧ (new = [] ∨ fence_of fences id = "")).

#[export] Instance appends_preorder fences : PreOrder (appends fences).
Proof.
  split.
  - intros t. split_and!; [done|by left|]. intros id. exists []. split; [by rewrite app_nil_r|by left].
  - intros a b c (A1 & A2 & A3) (B1 & B2 & B3). split_and!; [by auto| |].
    + intros k p Hk. destruct (B2 k p Hk) as [Hb|?]; [by apply A2|by right].
    + intros id. destruct (A3 id) as (n1 & E1 & H1), (B3 id) as (n2 & E2 & H2).
      exists (n1 ++ n2). split; [by rewrite E2, E1, <-app_assoc|].
      destruct H1 as [->|?]; [|by right]. destruct H2 as [->|?]; [by left|by right].
Qed.

(** A part of a commit: writes the execution store accepts, and appends. *)
Definition part (fences : gmap string string) (t t' : Tables) : Prop :=
  rtc store_change (store_of fences t) (store_of fences t') ∧ appends fences t t'.

#[export] Instance part_preorder fences : PreOrder (part fences).
Proof.
  split; [intros t; by split|]. intros a b c [A1 A2] [B1 B2]. split; by etrans.
Qed.

Lemma same_appends fences t t' :
  t_checkpoints t' = t_checkpoints t → t_events t' = t_events t → appends fences t t'.
Proof.
  intros Hc He. unfold appends. rewrite Hc, He. split_and!; [done|by left|].
  intros id. exists []. split; [by rewrite app_nil_r|by left].
Qed.

Section parts.
Context (ctx : Context) (c : Commit) (fences : gmap string string).

Lemma check_target_Ok t id u :
  check_target c fences t id = Ok u →
  ∃ r, t_runs t !! id = Some r ∧ validateCommitExecutionLease r c = Ok tt ∧ fence_of fences id = "" ∧ r_Deletion r = None.
Proof.
  unfold check_target. intros H. fence_inv.
  match goal with Hl : validateCommitExecutionLease ?r _ = Ok ?u |- _ => destruct u; exists r end. done.
Qed.

Lemma apply_run_part t t' out :
  typed_commit c → (∀ m w, c_Run c = Some w → rw_Mode w ≠ RunWriteOther m) →
  apply_run ctx c fences t = Ok (t', out) → part fences t t'.
Proof.
  unfold typed_commit, apply_run. intros Ht Hm H. destruct (c_Run c) as [w|]; [|by simplify_eq].
  destruct Ht as [_ Hep]. cbv zeta in H.
  destruct (rw_Mode w) as [| | |m] eqn:Hmode; [..|by destruct (Hm m w)].
  - unfold apply_create, validateNewRunDeletion in H. fence_inv. simplify_eq. split; [|by apply same_appends].
    apply rtc_once. rewrite clone_run_idemp. apply (change_create (store_of fences t) (cloneRunRecord (rw_Run w))); try done.
    intros Hp. rewrite bool_decide_false in * by exact Hp. fence_inv. eauto.
  - unfold apply_update in H. rewrite bool_decide_false in H by done. fence_inv. simplify_eq.
    split; [|by apply same_appends]. apply rtc_once.
    match goal with Hf : t_runs t !! _ = Some ?o, Hd : validateRunDeletionTransition _ _ _ = Ok ?u,
      Hr : r_Revision ?o = _, Hl : r_ExecutionLease ?o = _, Hid : r_RunID ?o = _ |- _ =>
      destruct u; rename o into old; rename Hf into Ho; rename Hr into Hrev; rename Hl into Hlease; rename Hid into Hrid end.
    rewrite <-Hrev.
    apply (change_cas (store_of fences t) ctx (lease_context ctx) old (cloneRunRecord (rw_Run w))); try done.
    left. unfold leased. simpl in *. congruence.
  - unfold apply_update in H. rewrite bool_decide_true in H by done. fence_inv. by simplify_eq.
Qed.

Lemma apply_step_part t w t' : apply_step c fences t w = Ok t' → part fences t t'.
Proof.
  unfold apply_step. cbv zeta. intros H. store_inv. subst.
  match goal with Ht : check_target _ _ _ _ = Ok _ |- _ => apply check_target_Ok in Ht as (r & Hr & _ & Hf & Hd) end.
  split; [|by apply same_appends]. apply rtc_once. destruct (sw_Mode w) eqn:Hm; fence_inv.
  - by apply (change_append (store_of fences t) (sw_Step w) r).
  - match goal with Hv : validateStepEffectTransition ?o _ = Ok ?u |- _ => destruct u;
      by apply (change_update (store_of fences t) (sw_Step w) o r) end.
Qed.

Lemma apply_checkpoint_part t w t' : apply_checkpoint c fences t w = Ok t' → part fences t t'.
Proof.
  unfold apply_checkpoint. cbv zeta. intros H. fence_inv. subst.
  match goal with Ht : check_target _ _ _ _ = Ok _ |- _ => apply check_target_Ok in Ht as (r & Hr & _ & Hf & Hd) end.
  split; [done|]. split_and!; simpl.
  - intros k p Hk. rewrite lookup_insert_ne; [done|]. intros <-. congruence.
  - intros k p [[_ <-]|[_ Hk]]%lookup_insert_Some; [by right|by left].
  - intros id. exists []. split; [by rewrite app_nil_r|by left].
Qed.

Lemma log_append m e id : log_of (append_event m e) id = log_of m id ++ if decide (id = v_RunID e) then [e] else [].
Proof.
  unfold append_event, log_of. case_decide as Hd; [subst; by rewrite lookup_insert_eq|].
  by rewrite lookup_insert_ne, app_nil_r.
Qed.

Lemma apply_event_part t e t' : apply_event c fences t e = Ok t' → part fences t t'.
Proof.
  unfold apply_event. intros H. destruct (IsStreamingEvent _); [by simplify_eq|]. store_inv. subst.
  match goal with Ht : check_target _ _ _ _ = Ok _ |- _ => apply check_target_Ok in Ht as (r & Hr & _ & Hf & Hd) end.
  split; [done|]. split_and!; [done|by left|]. intros id. simpl. rewrite log_append. eexists. split; [done|].
  case_decide; [subst; by right|by left].
Qed.

Lemma foldM_part {A} (f : Tables → A → result store_error Tables) l t t' :
  (∀ t a t', f t a = Ok t' → part fences t t') → foldM f t l = Ok t' → part fences t t'.
Proof.
  intros Hf. revert t. induction l as [|a l IH]; intros t H; simpl in H; [by simplify_eq|].
  result_inv. etrans; [by eapply Hf|by apply IH].
Qed.
End parts.

(** ** The lease of a run guards all its records *)

(** Nothing of the run changed. *)
Definition untouched (id : string) (t t' : Tables) : Prop :=
  t_runs t' !! id = t_runs t !! id ∧
  (∀ k x, s_RunID x = id → t_steps t' !! k = Some x ↔ t_steps t !! k = Some x) ∧
  (∀ k p, k_RunID p.1 = id → t_checkpoints t' !! k = Some p ↔ t_checkpoints t !! k = Some p) ∧
  log_of (t_events t') id = log_of (t_events t) id.

#[export] Instance untouched_preorder id : PreOrder (untouched id).
Proof.
  split; [by intros t|]. intros a b c (A1 & A2 & A3 & A4) (B1 & B2 & B3 & B4). split_and!; [congruence| |  |congruence].
  - intros k x Hx. by rewrite B2, A2.
  - intros k p Hp. by rewrite B3, A3.
Qed.

(** The commit does not hold the active lease of [r]. *)
Definition not_holder (c : Commit) (r : RunRecord) : Prop :=
  from_option is_active false (r_ExecutionLease r) = true ∧
  match c_Lease c with Some g => guard_matches (leased r) g = false | None => True end.

Lemma commit_lease_refused c r : not_holder c r → creates c r = false → validateCommitExecutionLease r c ≠ Ok tt.
Proof.
  unfold not_holder, validateCommitExecutionLease. intros [Hact Hg] ->. destruct (c_Lease c) as [g|].
  - unfold validateExecutionLeaseGuard. intros H. store_inv. congruence.
  - rewrite Hact. done.
Qed.

Section untouched.
Context (ctx : Context) (c : Commit) (fences : gmap string string) (r : RunRecord).
Context (Hhold : not_holder c r) (Hnew : creates c r = false).

Lemma check_target_other t id' u : t_runs t !! (r_RunID r) = Some r → check_target c fences t id' = Ok u → id' ≠ (r_RunID r).
Proof.
  intros Hr (r' & Hr' & Hl & _)%check_target_Ok ->. assert (r' = r) as -> by congruence.
  by apply (commit_lease_refused c r).
Qed.

Lemma apply_run_untouched t t' out :
  t_runs t !! (r_RunID r) = Some r → (∀ w m, c_Run c = Some w → rw_Mode w ≠ RunWriteOther m) →
  apply_run ctx c fences t = Ok (t', out) → untouched (r_RunID r) t t'.
Proof.
  intros Hr Hm H. unfold apply_run in H. destruct (c_Run c) as [w|] eqn:Hw; [|by simplify_eq].
  assert (∀ x, r_RunID (rw_Run w) ≠ (r_RunID r) → untouched (r_RunID r) t (with_runs (<[r_RunID (rw_Run w) := x]> (t_runs t)) t)) as Hput.
  { intros x Hne. split_and!; simpl; [by rewrite lookup_insert_ne|done..]. }
  cbv zeta in H. destruct (rw_Mode w) as [| | |m] eqn:Hmode; [..|by destruct (Hm w m)].
  - unfold apply_create in H. fence_inv. simplify_eq. apply Hput. simpl in *. intros Heq. congruence.
  - unfold apply_update in H. rewrite bool_decide_false in H by done. fence_inv. simplify_eq. apply Hput.
        match goal with Hl : validateCommitExecutionLease ?o _ = Ok ?u |- _ => destruct u; rename Hl into Hlease end.
    intros Heq. simpl in *. apply (commit_lease_refused c r Hhold Hnew).
    match goal with Ho : t_runs t !! _ = Some ?o |- _ => assert (o = r) as <- by congruence end. done.
  - unfold apply_update in H. rewrite bool_decide_true in H by done. fence_inv. by simplify_eq.
Qed.

Lemma apply_step_untouched t w t' :
  t_runs t !! (r_RunID r) = Some r → apply_step c fences t w = Ok t' → untouched (r_RunID r) t t'.
Proof.
  intros Hr H. unfold apply_step in H. cbv zeta in H. store_inv. subst.
  match goal with Ht : check_target _ _ _ _ = Ok _ |- _ => apply (check_target_other _ _ _ Hr) in Ht as Hne end.
  split_and!; [done| |done..]. intros k z Hz. simpl.
  destruct (decide (s_StepID (sw_Step w) = k)) as [<-|Hk]; [|by rewrite lookup_insert_ne].
  rewrite lookup_insert_eq. split; [intros [= <-]; congruence|]. intros Hs.
  destruct (sw_Mode w); fence_inv; congruence.
Qed.

Lemma apply_checkpoint_untouched t w t' :
  t_runs t !! (r_RunID r) = Some r → apply_checkpoint c fences t w = Ok t' → untouched (r_RunID r) t t'.
Proof.
  intros Hr H. unfold apply_checkpoint in H. cbv zeta in H. fence_inv. subst.
  match goal with Ht : check_target _ _ _ _ = Ok _ |- _ => apply (check_target_other _ _ _ Hr) in Ht as Hne end.
  split_and!; [done|done| |done]. intros k q Hq. simpl.
  destruct (decide (k_CheckpointID (cw_Record w) = k)) as [<-|Hk]; [|by rewrite lookup_insert_ne].
  rewrite lookup_insert_eq. split; [intros [= <-]; simpl in Hq; congruence|congruence].
Qed.

Lemma apply_event_untouched t e t' :
  t_runs t !! (r_RunID r) = Some r → apply_event c fences t e = Ok t' → untouched (r_RunID r) t t'.
Proof.
  intros Hr H. unfold apply_event in H. destruct (IsStreamingEvent _); [by simplify_eq|]. store_inv. subst.
  match goal with Ht : check_target _ _ _ _ = Ok _ |- _ => apply (check_target_other _ _ _ Hr) in Ht as Hne end.
  split_and!; [done..|]. simpl. rewrite log_append, decide_False by done. by rewrite app_nil_r.
Qed.

Lemma foldM_untouched {A} (f : Tables → A → result store_error Tables) l t t' :
  (∀ t a t', t_runs t !! (r_RunID r) = Some r → f t a = Ok t' → untouched (r_RunID r) t t') →
  t_runs t !! (r_RunID r) = Some r → foldM f t l = Ok t' → untouched (r_RunID r) t t'.
Proof.
  intros Hf. revert t. induction l as [|a l IH]; intros t Hr H; simpl in H; [by simplify_eq|].
  result_inv. match goal with H1 : f t a = Ok _ |- _ => pose proof (Hf _ _ _ Hr H1) as Hu end.
  etrans; [exact Hu|]. apply IH; [|done]. by rewrite (proj1 Hu).
Qed.
End untouched.

(** The modes of a validated commit. *)
Lemma validated_mode c u w m :
  validateRuntimeCommit c = Ok u → c_Run c = Some w → rw_Mode w ≠ RunWriteOther m.
Proof.
  unfold validateRuntimeCommit. intros H Hw Hm. rewrite Hw in H. store_inv. rewrite Hm in *. store_inv.
Qed.

Lemma applied_part ctx c fences t t' out :
  typed_commit c → applyMemoryCommit ctx c fences t = Ok (t', out) → part fences t t'.
Proof.
  intros Ht H. unfold applyMemoryCommit in H. result_inv. simplify_eq.
  match goal with Hr : apply_run _ _ _ _ = Ok ?p, Hv : validateRuntimeCommit _ = Ok _ |- _ =>
    destruct p as [t1 out1]; apply apply_run_part in Hr; [|done|intros; by eapply validated_mode]; etrans; [exact Hr|] end.
  simpl in *.
  etrans; [eapply foldM_part; [|done]; intros; by eapply apply_step_part|].
  etrans; [eapply foldM_part; [|done]; intros; by eapply apply_checkpoint_part|].
  eapply foldM_part; [|done]. intros. by eapply apply_event_part.
Qed.

Lemma applied_untouched ctx c fences t t' out id r :
  r_RunID r = id → t_runs t !! id = Some r → not_holder c r →
  applyMemoryCommit ctx c fences t = Ok (t', out) → untouched id t t'.
Proof.
  intros Hid Hr Hh H. unfold applyMemoryCommit in H. result_inv. simplify_eq.
  assert (creates c r = false) as Hn.
  { unfold creates, apply_run in *. destruct (c_Run c) as [w|]; [|done]. apply andb_false_iff.
    rewrite !bool_decide_eq_false. destruct (decide (rw_Mode w = RunWriteCreate)) as [Hm|]; [right|by left].
    intros Heq. cbv zeta in *. rewrite Hm in *. unfold apply_create in *. fence_inv. simpl in *. congruence. }
  match goal with Hx : apply_run _ _ _ _ = Ok ?p, Hv : validateRuntimeCommit _ = Ok _ |- _ =>
    destruct p as [t1 out1];
    apply (apply_run_untouched ctx c fences r Hh Hn) in Hx; [|done|intros; by eapply validated_mode];
    etrans; [exact Hx|]; assert (t_runs t1 !! r_RunID r = Some r) as Hr1 by (by rewrite (proj1 Hx)) end.
  simpl in *.
  match goal with Hs : foldM (apply_step _ _) _ _ = Ok ?t2 |- _ =>
    apply (foldM_untouched r) in Hs; [|intros; by eapply apply_step_untouched|done];
    etrans; [exact Hs|]; assert (t_runs t2 !! r_RunID r = Some r) as Hr2 by (by rewrite (proj1 Hs)) end.
  match goal with Hs : foldM (apply_checkpoint _ _) _ _ = Ok ?t2 |- _ =>
    apply (foldM_untouched r) in Hs; [|intros; by eapply apply_checkpoint_untouched|done];
    etrans; [exact Hs|]; assert (t_runs t2 !! r_RunID r = Some r) as Hr3 by (by rewrite (proj1 Hs)) end.
  match goal with Hs : foldM (apply_event _ _) _ _ = Ok ?t2 |- _ =>
    apply (foldM_untouched r) in Hs; [exact Hs|intros; by eapply apply_event_untouched|done] end.
Qed.

(** ** Histories *)

Section histories.
Context `{CommitDigest}.

(** One operation of some caller on the store or on one of its parts. *)
Inductive rt_step (s : RuntimeStore) : RuntimeStore → Prop :=
  | rt_exec ctx o x : typed o → exec ctx (execution s) o = Ok x → rt_step s (with_execution x s)
  | rt_save ctx k payload x : Save ctx (checkpoint_store s) k payload = Ok x → rt_step s (with_checkpoint_store x s)
  | rt_drop_checkpoints ctx id x :
      DeleteCheckpoints ctx (checkpoint_store s) id = Ok x → rt_step s (with_checkpoint_store x s)
  | rt_fence_checkpoints ctx id d x :
      FenceCheckpoints ctx (checkpoint_store s) id d = Ok x → rt_step s (with_checkpoint_store x s)
  | rt_publish ctx l x : PublishBatch ctx (event_sink s) l = Ok x → rt_step s (with_event_sink x s)
  | rt_drop_events ctx id x : DeleteEvents ctx (event_sink s) id = Ok x → rt_step s (with_event_sink x s)
  | rt_fence_events ctx id d x : FenceEvents ctx (event_sink s) id d = Ok x → rt_step s (with_event_sink x s)
  | rt_manifest ctx m s' : SaveRunDeletionManifest ctx s m = Ok s' → rt_step s s'
  | rt_delete ctx id s' : DeleteRuntimeRun ctx s id = Ok s' → rt_step s s'
  | rt_fence ctx id d s' : FenceRuntimeRun ctx s id d = Ok s' → rt_step s s'
  | rt_commit ctx freshID c s' a : typed_commit c → RuntimeCommit ctx freshID s c = (s', a) → rt_step s s'.

Definition rt_reachable (s : RuntimeStore) : Prop := rtc rt_step NewMemoryRuntimeStore s.

(** The three ways a commit ends: refused, remembered or applied. *)
Lemma commit_cases ctx freshID s c s' a :
  RuntimeCommit ctx freshID s c = (s', a) →
  let c := sanitizeCommit ctx (ensureCommitTransactionID freshID c) in
  let id := c_TransactionID c in
  (s' = s ∧ is_Some (an_Error a) ∧ an_Result a = not_started id) ∨
  an_Error a = None ∧ validateRuntimeCommit c = Ok tt ∧
  ∃ fingerprint, commitFingerprint c = Some fingerprint ∧
  ((s' = s ∧ transactions s !! id = Some (fingerprint, an_Result a)) ∨
   ∃ t' out, transactions s !! id = None ∧ ctx_err ctx = None ∧
     applyMemoryCommit ctx c (deletions (execution s)) (tables_of s) = Ok (t', out) ∧
     an_Result a = MkCommitResult id TransactionCommitted out (c_Artifacts c) ∧
     s' = record_transaction id fingerprint (an_Result a) (install t' s)).
Proof.
  unfold RuntimeCommit. cbv zeta. set (c0 := ensureCommitTransactionID freshID c).
  destruct (commit_body ctx s c0) as [p|e] eqn:Hb.
  2:{ intros [= <- <-]. left. split_and!; [done|by eexists|done]. }
  intros [= <- <-]. right. simpl. unfold commit_body, fileStoreContextErr in Hb. cbv zeta in Hb.
  set (c1 := sanitizeCommit ctx c0) in *. result_inv.
  destruct (commitFingerprint c1) as [fp|]; [|done].
  match goal with Hv : validateRuntimeCommit c1 = Ok ?u |- _ => destruct u end.
  destruct (transactions s !! c_TransactionID c1) as [[fp' r]|] eqn:Ht.
  - store_inv. subst. split_and!; [done..|]. exists fp. split; [done|left]. by simplify_eq.
  - result_inv. subst. split_and!; [done..|]. exists fp. split; [done|right].
    match goal with Ha : applyMemoryCommit _ _ _ _ = Ok ?q |- _ => destruct q as [t' out]; exists t', out end.
    destruct (ctx_err ctx); done.
Qed.

Lemma typed_sanitized ctx freshID c : typed_commit c → typed_commit (sanitizeCommit ctx (ensureCommitTransactionID freshID c)).
Proof.
  unfold typed_commit, ensureCommitTransactionID. case_bool_decide; simpl; by destruct (c_Run c).
Qed.

(** *** The execution store *)

Lemma rt_step_refines s s' :
  rt_step s s' → store_wf (execution s) → rtc store_change (execution s) (execution s').
Proof.
  intros [ctx o x Ht Hx|ctx k p x Hx|ctx id x Hx|ctx id d x Hx|ctx l x Hx|ctx id x Hx|ctx id d x Hx
    |ctx m s1 Hx|ctx id s1 Hx|ctx id d s1 Hx|ctx fr c s1 a Ht Hx] Hw; try done.
  - apply rtc_once, step_change. by econstructor.
  - unfold SaveRunDeletionManifest in Hx. store_inv. by subst.
  - unfold DeleteRuntimeRun in Hx. fence_inv. subst. simpl. apply rtc_once.
    destruct (runs (execution s) !! id) as [r|] eqn:Hr.
    + fence_inv. eapply (change_drop _ id r); try done. unfold fence. congruence.
    + rewrite delete_id by done.
      assert (filter (λ p, s_RunID p.2 ≠ id) (steps (execution s)) = steps (execution s)) as ->.
      { apply map_filter_id. simpl. intros k t Hk Hid. destruct (wf_step _ Hw k t Hk) as [_ [y Hy]]. congruence. }
      destruct (execution s). apply change_noop.
  - unfold FenceRuntimeRun in Hx. fence_inv. subst. simpl. apply rtc_once. by apply change_fence.
  - apply commit_cases in Hx as [(-> & _)|(_ & _ & fp & _ & [(-> & _)|(t' & out & _ & _ & Ha & _ & ->)])]; [done..|].
    pose proof (applied_part _ _ _ _ _ _ (typed_sanitized ctx fr c Ht) Ha) as [Hp _].
    revert Hp. unfold store_of, tables_of. simpl. by destruct (execution s).
Qed.

Lemma changes_wf s s' : rtc store_change s s' → store_wf s → store_wf s'.
Proof. induction 1; eauto using change_wf. Qed.

Lemma rt_steps_wf s s' : rtc rt_step s s' → store_wf (execution s) → store_wf (execution s').
Proof.
  induction 1 as [|s1 s2 s3 H1 _ IH]; [done|]. intros Hw. apply IH. eapply changes_wf; [|done].
  by apply rt_step_refines.
Qed.

Lemma rt_reachable_wf s : rt_reachable s → store_wf (execution s).
Proof.
  intros Hs. apply (rt_steps_wf _ _ Hs). split; simpl; intros *; by rewrite lookup_empty.
Qed.

(** *** Transactions *)

Definition transactions_wf (s : RuntimeStore) : Prop :=
  ∀ id p, transactions s !! id = Some p → cr_Outcome p.2 = TransactionCommitted.

Lemma rt_step_transactions s s' :
  rt_step s s' →
  (∀ id p, transactions s !! id = Some p → transactions s' !! id = Some p) ∧ (transactions_wf s → transactions_wf s').
Proof.
  unfold transactions_wf.
  intros [ctx o x Ht Hx|ctx k p x Hx|ctx id x Hx|ctx id d x Hx|ctx l x Hx|ctx id x Hx|ctx id d x Hx
    |ctx m s1 Hx|ctx id s1 Hx|ctx id d s1 Hx|ctx fr c s1 a Ht Hx]; try done.
  - unfold SaveRunDeletionManifest in Hx. store_inv. by subst.
  - unfold DeleteRuntimeRun in Hx. store_inv. by subst.
  - unfold FenceRuntimeRun in Hx. store_inv. by subst.
  - apply commit_cases in Hx as [(-> & _)|(_ & _ & fp & _ & [(-> & _)|(t' & out & Hn & _ & _ & Hr & ->)])]; [done..|].
    simpl. split.
    + intros id p Hp. rewrite lookup_insert_ne; [done|]. intros <-. simpl in Hn. congruence.
    + intros Hs id p [[_ <-]|[_ Hp]]%lookup_insert_Some; [by rewrite Hr|by eapply Hs].
Qed.

Lemma rt_steps_transactions s s' id p :
  rtc rt_step s s' → transactions s !! id = Some p → transactions s' !! id = Some p.
Proof. induction 1 as [|s1 s2 s3 H1 _ IH]; [done|]. intros Hp. apply IH. by apply rt_step_transactions in H1 as [? _]; eauto. Qed.

Lemma rt_reachable_transactions s : rt_reachable s → transactions_wf s.
Proof.
  intros Hs. assert (transactions_wf NewMemoryRuntimeStore) as H0 by (intros id p; simpl; by rewrite lookup_empty).
  revert H0. induction Hs as [|s1 s2 s3 H1 _ IH]; [done|]. intros H0. apply IH. by apply rt_step_transactions in H1 as [_ ?]; eauto.
Qed.

(** *** Deletion *)

(** A run that is gone from all three parts, which stay fenced. *)
Record gone (id : string) (s : RuntimeStore) : Prop := {
  gone_run : buried id (execution s);
  gone_cp_fence : fence_of (cp_deletions (checkpoint_store s)) id ≠ "";
  gone_ev_fence : fence_of (ev_deletions (event_sink s)) id ≠ "";
  gone_checkpoints k p : checkpoints (checkpoint_store s) !! k = Some p → k_RunID p.1 ≠ id;
  gone_events : log_of (events (event_sink s)) id = [];
}.

Lemma changes_buried s s' id : rtc store_change s s' → buried id s → buried id s'.
Proof. induction 1; eauto using change_buried. Qed.

Lemma fence_insert m id d id' : fence_of m id ≠ "" → fence_of m id' = "" ∨ fence_of m id' = d → d ≠ "" →
  fence_of (<[id' := d]> m) id ≠ "".
Proof.
  intros Hm Hf Hd. unfold fence_of in *. destruct (decide (id = id')) as [->|Hne].
  - by rewrite lookup_insert_eq.
  - by rewrite lookup_insert_ne.
Qed.

Lemma publish_log ctx s l s' id :
  PublishBatch ctx s l = Ok s' → fence_of (ev_deletions s) id ≠ "" →
  ev_deletions s' = ev_deletions s ∧ log_of (events s') id = log_of (events s) id.
Proof.
  intros Hp Hf. unfold PublishBatch in Hp. cbv zeta in Hp. result_inv. subst. simpl. split; [done|].
  match goal with Hw : first_err (λ e, match IsStreamingEvent _ with true => _ | false => ensureMemoryRunWritable _ _ end) _ = Ok ?u |- _ =>
    destruct u; rename Hw into Hall end.
  rewrite first_err_Ok in Hall. revert Hall.
  generalize (map (sanitizeEventPayload ctx) l) as batch. intros batch Hall.
  generalize (events s). induction batch as [|e batch IH]; intros m; simpl; [done|].
  rewrite IH by (intros y Hy; apply Hall; by right).
  pose proof (Hall e (list_elem_of_here _ _)) as He. simpl in He.
  destruct (IsStreamingEvent (v_Type e)); [done|]. apply writable_Ok in He.
  rewrite log_append, decide_False; [by rewrite app_nil_r|]. intros ->. done.
Qed.

Lemma rt_step_gone s s' id : rt_step s s' → store_wf (execution s) → gone id s → gone id s'.
Proof.
  intros Hstep Hw [Hb Hc Hv Hk He].
  assert (buried id (execution s')) as Hb' by (eapply changes_buried, Hb; by apply rt_step_refines).
  destruct Hstep as [ctx o x Ht Hx|ctx k p x Hx|ctx id' x Hx|ctx id' d x Hx|ctx l x Hx|ctx id' x Hx|ctx id' d x Hx
    |ctx m s1 Hx|ctx id' s1 Hx|ctx id' d s1 Hx|ctx fr c s1 a Ht Hx].
  - by split.
  - unfold Save in Hx. fence_inv. subst. split; simpl; [done..| |done].
    intros k' p' [[_ <-]|[_ Hp]]%lookup_insert_Some; [simpl; congruence|by eapply Hk].
  - unfold DeleteCheckpoints in Hx. fence_inv. subst. split; simpl; [done..| |done].
    intros k' p' [Hp _]%map_lookup_filter_Some. by eapply Hk.
  - unfold FenceCheckpoints, check_fencing in Hx. fence_inv. subst. split; simpl; try done. by apply fence_insert.
  - apply (publish_log _ _ _ _ id) in Hx as [Hd Hl]; [|done]. split; simpl; [done..|by rewrite Hd|done|by rewrite Hl].
  - unfold DeleteEvents in Hx. fence_inv. subst. split; simpl; [done..|]. unfold log_of in *.
    destruct (decide (id = id')) as [->|Hne]; [by rewrite lookup_delete_eq|by rewrite lookup_delete_ne].
  - unfold FenceEvents, check_fencing in Hx. fence_inv. subst. split; simpl; try done. by apply fence_insert.
  - unfold SaveRunDeletionManifest in Hx. store_inv. subst. by split.
  - unfold DeleteRuntimeRun in Hx. fence_inv. subst. split; simpl in *; [done..| |].
    + intros k' p' [Hp _]%map_lookup_filter_Some. by eapply Hk.
    + unfold log_of in *. destruct (decide (id = id')) as [->|Hne]; [by rewrite lookup_delete_eq|by rewrite lookup_delete_ne].
  - unfold FenceRuntimeRun in Hx. fence_inv. subst. split; simpl in *; [done|by apply fence_insert..|done|done].
  - apply commit_cases in Hx as [(-> & _)|(_ & _ & fp & _ & [(-> & _)|(t' & out & _ & _ & Ha & _ & ->)])]; [by split..|].
    pose proof (applied_part _ _ _ _ _ _ (typed_sanitized ctx fr c Ht) Ha) as [_ (_ & A2 & A3)].
    assert (fence_of (deletions (execution s)) id ≠ "") as Hf by apply Hb.
    split; simpl in *; [done..| |].
    + intros k' p' Hp. destruct (A2 k' p' Hp) as [?|?]; [by eapply Hk|congruence].
    + destruct (A3 id) as (new & -> & [->|?]); [by rewrite He|done].
Qed.

Lemma deleted_gone ctx s id s' : DeleteRuntimeRun ctx s id = Ok s' → gone id s'.
Proof.
  intros Hd. unfold DeleteRuntimeRun in Hd. fence_inv. subst. split; simpl; try done.
  - split; [done|]. apply lookup_delete_eq.
  - by intros k p [_ Hp]%map_lookup_filter_Some.
  - unfold log_of. by rewrite lookup_delete_eq.
Qed.

Lemma rt_steps_gone s s' id : rtc rt_step s s' → store_wf (execution s) → gone id s → gone id s'.
Proof.
  induction 1 as [|s1 s2 s3 H1 _ IH]; [done|]. intros Hw Hg. apply IH; [|by eapply rt_step_gone].
  eapply changes_wf; [|done]. by apply rt_step_refines.
Qed.
End histories.

(** ** Properties *)

(** C18: the runtime store refines the execution store.  Whatever operations run,
    transactions included, the runs and steps change by single writes that the
    abstract specification of the execution store allows, one after the other; and
    a transaction adds checkpoints and events without touching those that are
    there, and only for runs that are not fenced. *)
Theorem runtime_refines `{CommitDigest} s s' :
  rt_reachable s → rtc rt_step s s' →
  rtc store_change (execution s) (execution s') ∧
  ∀ ctx freshID c s2 a, typed_commit c → RuntimeCommit ctx freshID s' c = (s2, a) →
    rtc store_change (execution s') (execution s2) ∧
    appends (deletions (execution s')) (tables_of s') (tables_of s2).
Proof.
  intros Hr Hs. pose proof (rt_reachable_wf _ Hr) as Hw. split.
  - clear Hr. induction Hs as [|s1 s2 s3 H1 _ IH]; [done|].
    pose proof (rt_step_refines _ _ H1 Hw) as Hc. etrans; [done|]. apply IH. by eapply changes_wf.
  - intros ctx freshID c s2 a Ht Hc.
    pose proof (rt_steps_wf _ _ Hs Hw) as Hw'. split.
    + apply rt_step_refines; [|done]. by eapply rt_commit.
    + apply commit_cases in Hc as [(-> & _)|(_ & _ & fp & _ & [(-> & _)|(t' & out & _ & _ & Ha & _ & ->)])]; [done..|].
      by apply (applied_part _ _ _ _ _ _ (typed_sanitized ctx freshID c Ht) Ha).
Qed.

(** C16: a transaction happens at most once.  After a commit was accepted, whatever
    operations follow: asking for its identifier returns the result it had, doing
    the same commit again returns that result too and changes nothing, and no
    commit at all under that identifier changes anything any more; a commit that
    was refused changed nothing and is reported as not started. *)
Theorem commit_once `{CommitDigest} ctx freshID s c s1 a :
  rt_reachable s → typed_commit c → RuntimeCommit ctx freshID s c = (s1, a) →
  match an_Error a with
  | Some _ => s1 = s ∧ cr_Outcome (an_Result a) = TransactionNotStarted
  | None =>
    let id := c_TransactionID (ensureCommitTransactionID freshID c) in
    cr_Outcome (an_Result a) = TransactionCommitted ∧
    ∀ s2, rtc rt_step s1 s2 →
      ResolveCommit Background s2 id = a ∧
      RuntimeCommit ctx freshID s2 c = (s2, a) ∧
      ∀ ctx' freshID' c' s3 a', c_TransactionID (ensureCommitTransactionID freshID' c') = id →
        RuntimeCommit ctx' freshID' s2 c' = (s3, a') →
        s3 = s2 ∧ (an_Error a' = None → an_Result a' = an_Result a)
  end.
Proof.
  intros Hr Ht Hc. pose proof Hc as Hc0. apply commit_cases in Hc. cbv zeta in *.
  set (c1 := sanitizeCommit ctx (ensureCommitTransactionID freshID c)) in *.
  set (id := c_TransactionID (ensureCommitTransactionID freshID c)).
  destruct Hc as [(-> & [e He] & Hn)|(Hnone & Hv & fp & Hfp & Hcase)].
  { rewrite He, Hn. done. }
  rewrite Hnone.
  assert (transactions s1 !! id = Some (fp, an_Result a) ∧ cr_Outcome (an_Result a) = TransactionCommitted)
    as [Hlook Hout].
  { destruct Hcase as [[-> Hl]|(t' & out & _ & _ & _ & Hres & ->)].
    - split; [done|]. by apply (rt_reachable_transactions _ Hr _ _ Hl).
    - split; [apply lookup_insert_eq|by rewrite Hres]. }
  split; [done|]. intros s2 Hs. pose proof (rt_steps_transactions _ _ _ _ Hs Hlook) as Hl2.
  assert (storage_id "transaction ID" id = Ok tt) as Hid.
  { unfold validateRuntimeCommit in Hv. result_inv. by match goal with Hx : storage_id "transaction ID" _ = Ok ?u |- _ => destruct u end. }
  assert (ctx_err ctx = None) as Hctx.
  { unfold RuntimeCommit in Hc0. cbv zeta in Hc0. destruct (commit_body _ _ _) as [p|] eqn:Hb; [|by injection Hc0 as _ <-].
    unfold commit_body, fileStoreContextErr in Hb. result_inv. by destruct (ctx_err ctx). }
  split_and!.
  - unfold ResolveCommit. rewrite Hid. simpl. rewrite Hl2. simpl. destruct a; simpl in *. by subst.
  - unfold RuntimeCommit, commit_body, fileStoreContextErr. rewrite Hctx. cbv zeta. fold c1. simpl.
    rewrite Hv. simpl. rewrite Hfp. fold id. rewrite Hl2, bool_decide_true by done. simpl.
    destruct a; simpl in *. by subst.
  - intros ctx' freshID' c' s3 a' Hsame Hc'. apply commit_cases in Hc'. cbv zeta in Hc'.
    change (c_TransactionID (sanitizeCommit ctx' (ensureCommitTransactionID freshID' c')))
      with (c_TransactionID (ensureCommitTransactionID freshID' c')) in Hc'. rewrite Hsame in Hc'.
    destruct Hc' as [(-> & [e He] & _)|(_ & _ & fp' & _ & [[-> Hl']|(t' & out & Hno & _)])].
    + split; [done|]. by rewrite He.
    + split; [done|]. intros _. congruence.
    + congruence.
Qed.

(** C17: the lease of a run guards everything of the run.  A commit that does not
    carry the guard of a run's active lease, because it has none or because the
    lease has been taken over, leaves the run's record, its steps, its checkpoints
    and its events exactly as they were, whatever else it writes. *)
Theorem commit_fenced `{CommitDigest} ctx freshID s c s' a id r :
  rt_reachable s → runs (execution s) !! id = Some r → not_holder c r →
  RuntimeCommit ctx freshID s c = (s', a) → untouched id (tables_of s) (tables_of s').
Proof.
  intros Hr Hrun Hh Hc. pose proof (rt_reachable_wf _ Hr) as Hw.
  apply commit_cases in Hc as [(-> & _)|(_ & _ & fp & _ & [(-> & _)|(t' & out & _ & _ & Ha & _ & ->)])]; [done..|].
  eapply (applied_untouched _ _ _ _ _ _ id r) in Ha; [exact Ha|by apply (wf_run _ Hw)|done|].
  unfold not_holder in *. unfold ensureCommitTransactionID. by case_bool_decide.
Qed.

(** C19: a deleted run stays deleted in the whole store.  After
    [MemoryRuntimeStore.DeleteRun] succeeded, no operation of any caller, on the
    store or on one of its parts, brings back the run, a step, a checkpoint or an
    event of it. *)
Theorem runtime_deleted_forever `{CommitDigest} ctx s id s1 s2 :
  rt_reachable s → DeleteRuntimeRun ctx s id = Ok s1 → rtc rt_step s1 s2 →
  runs (execution s2) !! id = None ∧
  (∀ k t, steps (execution s2) !! k = Some t → s_RunID t ≠ id) ∧
  (∀ k p, checkpoints (checkpoint_store s2) !! k = Some p → k_RunID p.1 ≠ id) ∧
  log_of (events (event_sink s2)) id = [].
Proof.
  intros Hr Hd Hs. pose proof (rt_reachable_wf _ Hr) as Hw.
  assert (store_wf (execution s1)) as Hw1.
  { eapply changes_wf; [|exact Hw]. apply rt_step_refines; [|done]. by eapply rt_delete. }
  pose proof (rt_steps_wf _ _ Hs Hw1) as Hw2.
  destruct (rt_steps_gone _ _ _ Hs Hw1 (deleted_gone _ _ _ _ Hd)) as [[_ Hn] _ _ Hk He].
  split_and!; [done| |done|done].
  intros k t Ht Heq. destruct (wf_step _ Hw2 k t Ht) as [_ [x Hx]]. congruence.
Qed.

(** What a deletion manifest may become. *)
Definition manifest_le (m m' : RunDeletionManifest) : Prop :=
  m_ID m' = m_ID m ∧ m_RootRunID m' = m_RootRunID m ∧ m_ParentRunID m' = m_ParentRunID m ∧
  m_RunIDs m' = m_RunIDs m ∧ (m_Phase m = RunDeletionDeleted → m_Phase m' = RunDeletionDeleted).

#[export] Instance manifest_le_preorder : PreOrder manifest_le.
Proof.
  split; [done|]. intros a b c (A1 & A2 & A3 & A4 & A5) (B1 & B2 & B3 & B4 & B5).
  split_and!; [congruence..|auto].
Qed.

Lemma rt_step_manifest `{CommitDigest} s s' id m :
  rt_step s s' → manifests s !! id = Some m → m_ID m = id →
  ∃ m', manifests s' !! id = Some m' ∧ manifest_le m m' ∧ m_ID m' = id.
Proof.
  intros [ctx o x Ht Hx|ctx k p x Hx|ctx id' x Hx|ctx id' d x Hx|ctx l x Hx|ctx id' x Hx|ctx id' d x Hx
    |ctx n s1 Hx|ctx id' s1 Hx|ctx id' d s1 Hx|ctx fr c s1 a Ht Hx] Hm Hid; try (by exists m).
  - unfold SaveRunDeletionManifest in Hx. result_inv. subst. simpl.
    destruct (decide (m_ID n = m_ID m)) as [Heq|Hne]; [|rewrite lookup_insert_ne by done; by exists m].
    exists n. rewrite Heq, lookup_insert_eq. split; [done|]. rewrite Heq in *. rewrite Hm in *.
    unfold validateRunDeletionManifestIdentity in *. store_inv. split; [|done]. split_and!; try congruence.
    intros Hdel. rewrite Hdel in *.
    match goal with Hp : _ && _ = false |- _ => apply andb_false_iff in Hp as [Hp|Hp]; [by store_inv|];
      apply orb_false_iff in Hp as [Hp _]; store_inv; exfalso; rename Hp into Hin end.
    revert Hin. by apply (bool_decide_unpack (_ ∉ _)).
  - unfold DeleteRuntimeRun in Hx. store_inv. subst. by exists m.
  - unfold FenceRuntimeRun in Hx. store_inv. subst. by exists m.
  - apply commit_cases in Hx as [(-> & _)|(_ & _ & fp & _ & [(-> & _)|(t' & out & _ & _ & _ & _ & ->)])]; by exists m.
Qed.

(** Manifests are filed under their deletion. *)
Definition manifests_wf (s : RuntimeStore) : Prop := ∀ id m, manifests s !! id = Some m → m_ID m = id.

Lemma rt_step_manifests_wf `{CommitDigest} s s' : rt_step s s' → manifests_wf s → manifests_wf s'.
Proof.
  intros [ctx o x Ht Hx|ctx k p x Hx|ctx id' x Hx|ctx id' d x Hx|ctx l x Hx|ctx id' x Hx|ctx id' d x Hx
    |ctx n s1 Hx|ctx id' s1 Hx|ctx id' d s1 Hx|ctx fr c s1 a Ht Hx] Hw; try done.
  - unfold SaveRunDeletionManifest in Hx. result_inv. subst.
    intros id m. simpl. intros [[<- <-]|[_ Hm]]%lookup_insert_Some; [done|by apply Hw].
  - unfold DeleteRuntimeRun in Hx. store_inv. by subst.
  - unfold FenceRuntimeRun in Hx. store_inv. by subst.
  - by apply commit_cases in Hx as [(-> & _)|(_ & _ & fp & _ & [(-> & _)|(t' & out & _ & _ & _ & _ & ->)])].
Qed.

Lemma rt_steps_manifest `{CommitDigest} s s' id m :
  rtc rt_step s s' → manifests s !! id = Some m → m_ID m = id →
  ∃ m', manifests s' !! id = Some m' ∧ manifest_le m m'.
Proof.
  intros Hs. revert m. induction Hs as [|s1 s2 s3 H1 _ IH]; intros m Hm Hid; [by exists m|].
  destruct (rt_step_manifest _ _ _ _ H1 Hm Hid) as (m2 & Hm2 & Hle & Hid2).
  destruct (IH m2 Hm2 Hid2) as (m3 & Hm3 & Hle3). exists m3. split; [done|]. by etrans.
Qed.

(** the journal of a deletion is stable.  A deletion manifest is never removed
    and keeps its identity, its root, its parent and the runs it will delete, in
    order; once it says that the runs are deleted, it says so for good. *)
Theorem manifest_final `{CommitDigest} s s' id m :
  rt_reachable s → manifests s !! id = Some m → rtc rt_step s s' →
  ∃ m', manifests s' !! id = Some m' ∧ manifest_le m m'.
Proof.
  intros Hr Hm Hs. apply (rt_steps_manifest _ _ _ _ Hs Hm).
  assert (manifests_wf s) as Hw; [|by apply Hw].
  assert (manifests_wf NewMemoryRuntimeStore) as H0 by (intros i x; simpl; by rewrite lookup_empty).
  clear Hm Hs. revert H0. induction Hr as [|s1 s2 s3 H1 _ IH]; [done|]. intros H0. by eapply IH, rt_step_manifests_wf.
Qed.

(** ** A concrete history *)

Section demo.

(** A digest of the identifiers, enough to tell the commits below apart. *)
#[local] Instance demo_digest : CommitDigest :=
  λ c, Some (String.concat "," (commit_run_ids c ++ map (s_StepID ∘ sw_Step) (c_Steps c) ++ map v_ID (c_Events c))).

Definition demo_event : Event :=
  MkEvent "event-1" "graph" "" "run-1" "" "" "" "run-1" ["run-1"] "main" "" "" "" "" "run.failed" 0 "{}".
Definition demo_checkpoint : CheckpointRecord :=
  MkCheckpoint "cp-1" "run-1" "" "" "" "" "" "run-1" ["run-1"] "main" "start" "before" "json" "1" "" 4.

(** A run, a step, a checkpoint and an event in one transaction. *)
Definition demo_commit : Commit :=
  MkCommit "tx-1" None (Some (MkRunWrite RunWriteCreate demo_run))
    [MkStepWrite StepWriteAppend (demo_step EffectUnknown None)]
    [MkCheckpointWrite demo_checkpoint "{}"] [demo_event] [].

Definition demo_runtime : RuntimeStore := (RuntimeCommit Background "tx-0" NewMemoryRuntimeStore demo_commit).1.

Lemma demo_runtime_reachable : rt_reachable demo_runtime.
Proof.
  apply rtc_once. apply (rt_commit _ Background "tx-0" demo_commit demo_runtime
    (RuntimeCommit Background "tx-0" NewMemoryRuntimeStore demo_commit).2); [done|].
  apply surjective_pairing.
Qed.

Lemma runtime_refines_witness :
  rtc store_change NewMemoryExecutionStore (execution demo_runtime) ∧
  is_Some (runs (execution demo_runtime) !! "run-1").
Proof.
  split; [|vm_compute; eauto].
  exact (proj1 (runtime_refines NewMemoryRuntimeStore demo_runtime (rtc_refl _ _) demo_runtime_reachable)).
Defined.

Lemma commit_once_witness :
  ResolveCommit Background demo_runtime "tx-1" = (RuntimeCommit Background "tx-0" NewMemoryRuntimeStore demo_commit).2 ∧
  RuntimeCommit Background "tx-0" demo_runtime demo_commit =
    (demo_runtime, (RuntimeCommit Background "tx-0" NewMemoryRuntimeStore demo_commit).2).
Proof.
  pose proof (commit_once Background "tx-0" NewMemoryRuntimeStore demo_commit demo_runtime
    (RuntimeCommit Background "tx-0" NewMemoryRuntimeStore demo_commit).2 (rtc_refl _ _) (conj eq_refl eq_refl)
    (surjective_pairing _)) as Hc.
  destruct (an_Error _) eqn:He; [vm_compute in He; discriminate|].
  destruct Hc as [_ Hc]. destruct (Hc demo_runtime (rtc_refl _ _)) as (Hres & Hagain & _). by split.
Defined.

(** The run of the history with an active lease, and a commit without its guard. *)
Definition demo_lease : ExecutionLease := MkLease "worker-1" "token-1" 1 LeaseActive 10 10 20.
Definition demo_leased : RunRecord :=
  MkRunRecord "run-1" 0 "" "" "" "" "" (Some demo_lease) "run-1" ["run-1"] "main" [] [] None
    "graph" "v1" "" "" "" "" "" "" None RunStatusRunning "start" "start" ["start"] [] [] "" "" ""
    false false "" "" 5 6 None.
Definition demo_leased_store : RuntimeStore :=
  (RuntimeCommit Background "tx-0" NewMemoryRuntimeStore
     (MkCommit "tx-1" None (Some (MkRunWrite RunWriteCreate demo_leased)) [] [] [] [])).1.
Definition demo_stale : Commit :=
  MkCommit "tx-2" (Some (MkGuard "run-1" "token-0" 1)) None
    [MkStepWrite StepWriteAppend (demo_step EffectUnknown None)] [] [] [].

Lemma commit_fenced_witness :
  untouched "run-1" (tables_of demo_leased_store)
    (tables_of (RuntimeCommit Background "tx-3" demo_leased_store demo_stale).1).
Proof.
  refine (commit_fenced Background "tx-3" demo_leased_store demo_stale _ _ "run-1" demo_leased _ _ _
    (surjective_pairing _)).
  - apply rtc_once. eapply rt_commit; [|apply surjective_pairing]. done.
  - vm_compute. reflexivity.
  - split; reflexivity.
Defined.

Definition demo_fenced_store : RuntimeStore :=
  match FenceRuntimeRun demo_del demo_runtime "run-1" "del-1" with Ok s => s | Err _ => demo_runtime end.

Definition demo_reservation : RunRecord :=
  with_Deletion (demo_deletion RunDeletionReserved None) (with_Revision 0 demo_run).
Definition demo_reserved_exec : Store :=
  match CompareAndSwapRun demo_del (execution demo_fenced_store) 0 demo_reservation with
  | Ok p => p.1 | Err _ => execution demo_fenced_store end.
Definition demo_reserved_store : RuntimeStore := with_execution demo_reserved_exec demo_fenced_store.

Lemma runtime_deleted_forever_witness :
  ∃ s1, DeleteRuntimeRun demo_del demo_reserved_store "run-1" = Ok s1 ∧
    log_of (events (event_sink demo_reserved_store)) "run-1" = [demo_event] ∧
    log_of (events (event_sink s1)) "run-1" = [].
Proof.
  destruct (DeleteRuntimeRun demo_del demo_reserved_store "run-1") as [s1|] eqn:Hd; [|vm_compute in Hd; discriminate].
  exists s1. split; [reflexivity|]. split; [vm_compute; reflexivity|].
  refine (proj2 (proj2 (proj2 (runtime_deleted_forever demo_del demo_reserved_store "run-1" s1 s1 _ Hd (rtc_refl _ _))))).
  unfold rt_reachable. etrans; [exact demo_runtime_reachable|]. etrans; apply rtc_once.
  - apply (rt_fence _ demo_del "run-1" "del-1" demo_fenced_store). vm_compute. reflexivity.
  - apply (rt_exec _ demo_del (OCas 0 demo_reservation)); [done|]. vm_compute. reflexivity.
Defined.

Definition demo_manifest (phase : string) : RunDeletionManifest :=
  MkManifest "del-1" "run-1" "" phase ["run-1"] 1 2.
Definition demo_saved (s : RuntimeStore) (phase : string) : RuntimeStore :=
  match SaveRunDeletionManifest Background s (demo_manifest phase) with Ok s' => s' | Err _ => s end.

Lemma manifest_final_witness :
  ∃ m, manifests (demo_saved (demo_saved NewMemoryRuntimeStore RunDeletionDeleted) RunDeletionPlanned) !! "del-1" = Some m ∧
    m_Phase m = RunDeletionDeleted.
Proof.
  assert (rt_step NewMemoryRuntimeStore (demo_saved NewMemoryRuntimeStore RunDeletionDeleted)) as H1.
  { apply (rt_manifest _ Background (demo_manifest RunDeletionDeleted)). vm_compute. reflexivity. }
  destruct (manifest_final (demo_saved NewMemoryRuntimeStore RunDeletionDeleted)
    (demo_saved (demo_saved NewMemoryRuntimeStore RunDeletionDeleted) RunDeletionPlanned) "del-1" (demo_manifest RunDeletionDeleted))
    as (m & Hm & _ & _ & _ & _ & Hph).
  - by apply rtc_once.
  - vm_compute. reflexivity.
  - replace (demo_saved (demo_saved _ _) _) with (demo_saved NewMemoryRuntimeStore RunDeletionDeleted) by (vm_compute; reflexivity).
    constructor.
  - exists m. split; [exact Hm|by apply Hph].
Defined.

(** Before that, a manifest may go back from unlinked to planned. *)
Example manifest_steps_back :
  m_Phase <$> manifests (demo_saved (demo_saved NewMemoryRuntimeStore RunDeletionUnlinked) RunDeletionPlanned) !! "del-1"
  = Some RunDeletionPlanned.
Proof. vm_compute. reflexivity. Qed.
End demo.
