(* ===== verification/FileDisk.v ===== *)
(** * The disk of the file runtime store: [internal/runtimestore/file/store.go]

    A file is named by the record it holds, and its content is that record: the
    JSON coding of records is left out, a decode is the choice of the record's
    constructor.  A write goes through a temporary file, a sync, a rename and a
    sync of the directory, so it is all or nothing, but it may report an error
    after the rename, and the process may stop at any point.  Each effect takes
    one entry of a schedule of faults; a block of reads and checks takes one
    too, since reads change nothing. *)

From Stdlib Require Import Ascii.
From S2P Require Import Prelude GoStrings Values Json Sensitive Errors Lease Records RunStore Stores Artifacts Commit.

(** ** Files *)

(** The three component stores, each with its deletion fences. *)
Inductive Space := Execution | Checkpoints | EventLogs.

Inductive Path :=
  | PRun (runID : string)
  | PStep (runID stepID : string)
  | PCheckpoint (runID checkpointID : string)
  | PPayload (runID checkpointID : string)
  | PEvents (runID : string)
  | PFence (space : Space) (runID : string).

Record runDeletionFence := MkFence { df_RunID : string; df_DeletionID : string }.

Inductive Content :=
  | FRun (r : RunRecord)
  | FStep (s : StepRecord)
  | FCheckpoint (k : CheckpointRecord)
  | FPayload (data : string)
  | FEvents (l : list Event)
  | FFence (f : runDeletionFence).

#[export] Instance Space_eq_dec : EqDecision Space.
Proof. solve_decision. Defined.
#[export] Instance Path_eq_dec : EqDecision Path.
Proof. solve_decision. Defined.

Definition path_code (p : Path) : nat * string * string :=
  match p with
  | PRun r => (0, r, "")
  | PStep r s => (1, r, s)
  | PCheckpoint r k => (2, r, k)
  | PPayload r k => (3, r, k)
  | PEvents r => (4, r, "")
  | PFence Execution r => (5, r, "")
  | PFence Checkpoints r => (6, r, "")
  | PFence EventLogs r => (7, r, "")
  end.

Definition path_of_code (c : nat * string * string) : option Path :=
  let '(n, r, s) := c in
  match n with
  | 0 => Some (PRun r) | 1 => Some (PStep r s) | 2 => Some (PCheckpoint r s)
  | 3 => Some (PPayload r s) | 4 => Some (PEvents r) | 5 => Some (PFence Execution r)
  | 6 => Some (PFence Checkpoints r) | 7 => Some (PFence EventLogs r) | _ => None
  end.

#[export] Instance Path_countable : Countable Path.
Proof. apply (inj_countable path_code path_of_code). by intros [| | | | |[]]. Defined.

(** The name of a file below the base directory of the store. *)
Definition path_string (p : Path) : string :=
  match p with
  | PRun r => "execution/runs/" +:+ r +:+ ".json"
  | PStep r s => "execution/steps/" +:+ r +:+ "/" +:+ s +:+ ".json"
  | PCheckpoint r k => "checkpoints/" +:+ r +:+ "/" +:+ k +:+ ".json"
  | PPayload r k => "checkpoints/" +:+ r +:+ "/payloads/" +:+ k +:+ ".bin"
  | PEvents r => "events/" +:+ r +:+ ".jsonl"
  | PFence Execution r => "execution/.deletions/" +:+ r +:+ ".json"
  | PFence Checkpoints r => "checkpoints/.deletions/" +:+ r +:+ ".json"
  | PFence EventLogs r => "events/.deletions/" +:+ r +:+ ".json"
  end.

Definition Files := gmap Path Content.

(** One file of a transaction: its content before and after, [None] for no file. *)
Record transactionMutation := MkMutation {
  mu_Path : Path;
  mu_Before : option Content;
  mu_After : option Content;
}.

Inductive transactionPhase := transactionPrepared | transactionCommitted | transactionPhaseOther (phase : string).

#[export] Instance transactionPhase_eq_dec : EqDecision transactionPhase.
Proof. solve_decision. Defined.

Record transactionJournal := MkJournal {
  j_ID : string;
  j_Fingerprint : string;
  j_Phase : transactionPhase;
  j_Result : CommitResult;
  j_Mutations : list transactionMutation;
}.

Record transactionResultRecord := MkResultRecord { rr_Fingerprint : string; rr_Result : CommitResult }.

(** The records, and the directory of journals with that of the results, both by
    the transaction's identifier. *)
Record Disk := MkDisk {
  dk_files : Files;
  dk_journals : gmap string transactionJournal;
  dk_results : gmap string transactionResultRecord;
}.

Definition with_files (f : Files) (d : Disk) : Disk := MkDisk f (dk_journals d) (dk_results d).
Definition with_journals (m : gmap string transactionJournal) (d : Disk) : Disk := MkDisk (dk_files d) m (dk_results d).
Definition with_results (m : gmap string transactionResultRecord) (d : Disk) : Disk := MkDisk (dk_files d) (dk_journals d) m.

Definition set_file (p : Path) (c : option Content) (f : Files) : Files := partial_alter (λ _, c) p f.

(** ** Effects under faults *)

Inductive file_error :=
  | FIo
  | FNotExist
  | FStore (e : store_error)
  | FArtifact (e : artifact_error)
  | FInvalid (id what : string).

Inductive Fault := Fine | FailBefore | FailAfter | CrashBefore | CrashAfter.

#[export] Instance Fault_eq_dec : EqDecision Fault.
Proof. solve_decision. Defined.

(** The disk, the faults left, and the value; [None] when the process stopped. *)
Definition M (A : Type) : Type := Disk → list Fault → Disk * list Fault * option A.

#[export] Instance M_ret : MRet M := λ A a d φ, (d, φ, Some a).
#[export] Instance M_bind : MBind M := λ A B k m d φ,
  match m d φ with
  | (d', φ', Some a) => k a d' φ'
  | (d', φ', None) => (d', φ', None)
  end.

Definition MR (A : Type) : Type := M (result file_error A).

Definition mr_bind {A B} (m : MR A) (k : A → MR B) : MR B :=
  mbind (M:=M) (λ r, match r with Ok a => k a | Err e => mret (M:=M) (Err e) end) m.

Notation "'let!' x ':=' m 'in' k" := (mr_bind m (fun x => k))
  (at level 10, x pattern, m at level 100, k at level 200) : go_scope.

(** The next fault of a schedule; one that ran out is free of them. *)
Definition next_fault (φ : list Fault) : Fault := default Fine (head φ).

(** Reads and checks. *)
Definition fetch {A} (f : Disk → result file_error A) : MR A := λ d φ,
  (d, tail φ, match next_fault φ with
              | Fine => Some (f d)
              | FailBefore | FailAfter => Some (Err FIo)
              | CrashBefore | CrashAfter => None
              end).

(** One atomic change. *)
Definition mutate (f : Disk → Disk) : MR unit := λ d φ,
  match next_fault φ with
  | Fine => (f d, tail φ, Some (Ok tt))
  | FailBefore => (d, tail φ, Some (Err FIo))
  | FailAfter => (f d, tail φ, Some (Err FIo))
  | CrashBefore => (d, tail φ, None)
  | CrashAfter => (f d, tail φ, None)
  end.

(** [writeRunnerJSONFile], [writeRunnerBinaryFile] and [removeRunnerFile]. *)
Definition writeRunnerFile (p : Path) (c : Content) : MR unit :=
  mutate (λ d, with_files (set_file p (Some c) (dk_files d)) d).
Definition removeRunnerFile (p : Path) : MR unit :=
  mutate (λ d, with_files (set_file p None (dk_files d)) d).

(** [ensureRunnerDirectory]: directories are not modelled, making one may fail. *)
Definition ensureRunnerDirectory : MR unit := mutate (λ d, d).

(** [for _, item := range items { if err := f(item); err != nil { return err } }] *)
Fixpoint each {A} (f : A → MR unit) (l : list A) : MR unit :=
  match l with
  | [] => mret (M:=M) (Ok tt)
  | x :: l => let! _ := f x in each f l
  end.

(** ** Reading records *)

Definition lift_file {A} (m : result store_error A) : result file_error A :=
  match m with Ok a => Ok a | Err e => Err (FStore e) end.

(** [readRunnerJSONFile]: a missing file is an error of its own. *)
Definition readRunnerFile {A} (as_record : Content → option A) (p : Path) (d : Disk) : result file_error A :=
  match dk_files d !! p with
  | None => Err FNotExist
  | Some c => match as_record c with Some a => Ok a | None => Err (FInvalid (path_string p) "decode") end
  end.

Definition as_run (c : Content) : option RunRecord := match c with FRun r => Some r | _ => None end.
Definition as_step (c : Content) : option StepRecord := match c with FStep s => Some s | _ => None end.
Definition as_checkpoint (c : Content) : option CheckpointRecord := match c with FCheckpoint k => Some k | _ => None end.
Definition as_events (c : Content) : option (list Event) := match c with FEvents l => Some l | _ => None end.
Definition as_fence (c : Content) : option runDeletionFence := match c with FFence f => Some f | _ => None end.

(** The record, or nothing when there is no file. *)
Definition readIfExists {A} (as_record : Content → option A) (p : Path) (d : Disk) : result file_error (option A) :=
  match readRunnerFile as_record p d with
  | Ok a => Ok (Some a)
  | Err FNotExist => Ok None
  | Err e => Err e
  end.

Definition file_exists (p : Path) (d : Disk) : bool := bool_decide (is_Some (dk_files d !! p)).

Definition ensureRunnerRecordDoesNotExist (p : Path) (id : string) (d : Disk) : result file_error unit :=
  guard_err (file_exists p d) (FStore (SExists id)).
Definition ensureRunnerRecordExists (p : Path) (id : string) (d : Disk) : result file_error unit :=
  guard_err (negb (file_exists p d)) (FStore (SNotFound id)).

Definition runDeletionDirName : string := ".deletions".

Definition validateRunID (runID : string) : result file_error unit :=
  let* _ := lift_file (storage_id "run ID" runID) in
  guard_err (bool_decide (ToLower runID = runDeletionDirName)) (FInvalid runID "reserved by file storage").

Definition readRunLocked (runID : string) (d : Disk) : result file_error RunRecord :=
  match readRunnerFile as_run (PRun runID) d with
  | Err FNotExist => Err (FStore (SNotFound runID))
  | Err e => Err e
  | Ok run => let* _ := guard_err (negb (bool_decide (r_RunID run = runID))) (FInvalid runID "metadata identity") in Ok run
  end.

Definition validateRunDeletionFence (f : runDeletionFence) (runID : string) : result file_error unit :=
  let* _ := guard_err (negb (bool_decide (df_RunID f = runID))) (FInvalid runID "deletion fence identity") in
  lift_file (storage_id "deletion ID" (df_DeletionID f)).

Definition ensureRunNotDeletingLocked (s : Space) (runID : string) (d : Disk) : result file_error unit :=
  let* f := readIfExists as_fence (PFence s runID) d in
  match f with
  | None => Ok tt
  | Some f => let* _ := validateRunDeletionFence f runID in Err (FStore (SNotAllowed runID))
  end.

Definition requireRunDeletionLocked (ctx : Context) (s : Space) (runID : string) (d : Disk) : result file_error unit :=
  let* f := readIfExists as_fence (PFence s runID) d in
  match f with
  | None => Err (FStore (SNotAllowed runID))
  | Some f =>
    let* _ := validateRunDeletionFence f runID in
    lift_file (requireRunDeletionMutation ctx runID (df_DeletionID f))
  end.

(** [requireWritable]: [None] is a reader's store, [Some true] a closed one. *)
Definition requireWritable (writer : option bool) : result file_error unit :=
  match writer with
  | None => Err (FInvalid "" "file runtime store is read-only")
  | Some closed => guard_err closed (FInvalid "" "file runtime store writer is closed")
  end.

(** ** Reasoning about effects *)

(** [m] started where [P] holds, under faults of the kinds [ok] allows, ends
    where [Q] holds or stops where [C] does. *)
Definition triple (ok : Fault → bool) {A} (P : Disk → Prop) (m : M A) (Q : A → Disk → Prop) (C : Disk → Prop) : Prop :=
  ∀ d φ, P d → Forall (λ f, ok f = true) φ →
    Forall (λ f, ok f = true) (m d φ).1.2 ∧
    match (m d φ).2 with Some a => Q a (m d φ).1.1 | None => C (m d φ).1.1 end.

(** No fault at all; no error after the effect. *)
Definition calm (ok : Fault → bool) : Prop := ∀ f, ok f = true → f = Fine.

Section triples.
Context (ok : Fault → bool).

Lemma triple_weaken {A} (P P' : Disk → Prop) (m : M A) (Q Q' : A → Disk → Prop) (C C' : Disk → Prop) :
  triple ok P' m Q' C' → (∀ d, P d → P' d) → (∀ a d, Q' a d → Q a d) → (∀ d, C' d → C d) → triple ok P m Q C.
Proof.
  intros Hm HP HQ HC d φ Hd Hφ. destruct (Hm d φ (HP d Hd) Hφ) as [Hok Hr].
  split; [done|]. destruct (m d φ).2; auto.
Qed.

(** A fact of the precondition that is not about the disk. *)
Lemma triple_pure {A} (P : Disk → Prop) (X : Prop) (m : M A) Q C :
  (X → triple ok P m Q C) → triple ok (λ d, P d ∧ X) m Q C.
Proof. intros Hm d φ [Hd HX] Hφ. by apply Hm. Qed.

Lemma triple_ret {A} (P : Disk → Prop) (a : A) (Q : A → Disk → Prop) C :
  (∀ d, P d → Q a d) → triple ok P (mret (M:=M) a) Q C.
Proof. intros HQ d φ Hd Hφ. split; [done|]. by apply HQ. Qed.

Lemma triple_bind {A B} (P : Disk → Prop) (m : M A) (R : A → Disk → Prop) (k : A → M B) Q C :
  triple ok P m R C → (∀ a, triple ok (R a) (k a) Q C) → triple ok P (mbind (M:=M) k m) Q C.
Proof.
  intros Hm Hk d φ Hd Hφ. destruct (Hm d φ Hd Hφ) as [Hok Hr].
  unfold mbind, M_bind. destruct (m d φ) as [[d1 φ1] [a|]]; simpl in *; [|done].
  by apply Hk.
Qed.

Lemma triple_mr_bind {A B} (P : Disk → Prop) (m : MR A) (R : result file_error A → Disk → Prop) (k : A → MR B) Q C :
  triple ok P m R C → (∀ a, triple ok (R (Ok a)) (k a) Q C) → (∀ e d, R (Err e) d → Q (Err e) d) →
  triple ok P (mr_bind m k) Q C.
Proof.
  intros Hm Hk He. eapply triple_bind; [exact Hm|]. intros [a|e]; [done|]. apply triple_ret. by apply He.
Qed.

Lemma triple_or {A} (P1 P2 : Disk → Prop) (m : M A) Q C :
  triple ok P1 m Q C → triple ok P2 m Q C → triple ok (λ d, P1 d ∨ P2 d) m Q C.
Proof. intros H1 H2 d φ [Hd|Hd] Hφ; [by apply H1|by apply H2]. Qed.

(** A read: it gives what [f] gives, or fails for a fault. *)
Lemma triple_fetch {A} (P : Disk → Prop) (f : Disk → result file_error A) (Q : result file_error A → Disk → Prop) C :
  (∀ d, P d → Q (f d) d) → (∀ d, P d → ¬ calm ok → Q (Err FIo) d ∧ C d) → triple ok P (fetch f) Q C.
Proof.
  intros Hf He d φ Hd Hφ. unfold fetch, next_fault. simpl.
  assert (∀ x, head φ = Some x → x ≠ Fine → ¬ calm ok) as Hx.
  { intros x Hh Hn Hc. destruct φ; simplify_eq/=. apply Hn, Hc. by inversion Hφ. }
  split; [destruct φ; [done|by inversion Hφ]|].
  destruct (head φ) as [x|]; [|by apply Hf].
  destruct x; simpl; try by apply Hf.
  all: by destruct (He d Hd (Hx _ eq_refl ltac:(done))).
Qed.

(** A change: done, or an error, or a stop; only some faults change the disk. *)
Lemma triple_mutate (P : Disk → Prop) (f : Disk → Disk) (Q : result file_error unit → Disk → Prop) C :
  (∀ d, P d → Q (Ok tt) (f d)) →
  (∀ d, P d → ¬ calm ok → Q (Err FIo) d ∧ C d ∧ C (f d)) →
  (∀ d, P d → ok FailAfter = true → Q (Err FIo) (f d)) →
  triple ok P (mutate f) Q C.
Proof.
  intros Hf He Ha d φ Hd Hφ. unfold mutate, next_fault.
  assert (∀ x, head φ = Some x → x ≠ Fine → ¬ calm ok) as Hx.
  { intros x Hh Hn Hc. destruct φ; simplify_eq/=. apply Hn, Hc. by inversion Hφ. }
  assert (Forall (λ f, ok f = true) (tail φ)) by (destruct φ; [done|by inversion Hφ]).
  assert (head φ = Some FailAfter → ok FailAfter = true) as Hfa.
  { intros. destruct φ; simplify_eq/=. by inversion Hφ. }
  destruct (head φ) as [x|]; [|by split; [|apply Hf]].
  destruct x; simpl; (split; [done|]); try by apply Hf.
  all: destruct (He d Hd (Hx _ eq_refl ltac:(done))) as (? & ? & ?); auto.
Qed.

(** A loop that stops at the first error, under an invariant. *)
Lemma triple_each {A} (I : list A → Disk → Prop) (f : A → MR unit) l (Q : result file_error unit → Disk → Prop) C :
  (∀ x l', triple ok (I (x :: l')) (f x) (λ r d, match r with Ok _ => I l' d | Err e => Q (Err e) d end) C) →
  (∀ d, I [] d → Q (Ok tt) d) → triple ok (I l) (each f l) Q C.
Proof.
  intros Hf HQ. induction l as [|x l IH]; [by apply triple_ret|].
  eapply triple_mr_bind; [apply Hf|intros []; exact IH|done].
Qed.
End triples.
