(* ===== verification/FileStore.v ===== *)
(** * The component stores on disk: [internal/runtimestore/file/store.go]

    Runs and steps, checkpoints and event logs as files.  Every method holds the
    mutex the stores share; what it reads and checks is a function of the disk,
    [fetch]ed before its first write.  None of them looks at the journals of
    unfinished transactions. *)

From Stdlib Require Import Ascii.
From S2P Require Import Prelude GoStrings Values Json Sensitive Errors Lease Records RunStore Stores Artifacts Commit FileDisk.

(** The paths of a disk that satisfy a test, sorted by name. *)
Definition paths_where (test : Path → bool) (d : Disk) : list Path :=
  stable_sort (less_last path_string str_lt) (filter (λ p, test p = true) (map fst (map_to_list (dk_files d)))).

(** The order in which a directory lists its files, and in which [os.RemoveAll]
    removes them. *)
Class DirOrder := {
  dir_order : list Path → list Path;
  dir_order_perm l : dir_order l ≡ₚ l;
}.

(** [os.Root.RemoveAll] goes on after a file it cannot remove, and answers with the
    last error. *)
Fixpoint remove_all (ps : list Path) : MR unit :=
  match ps with
  | [] => mret (M:=M) (Ok tt)
  | p :: ps =>
    mbind (M:=M) (λ r, mbind (M:=M) (λ r', mret (M:=M) (match r' with Err e => Err e | Ok _ => r end))
      (remove_all ps)) (removeRunnerFile p)
  end.

(** [removeRunnerDirectory]: the directory is read, its files are removed, and the
    parent is synced. *)
Definition removeRunnerDirectory `{DirOrder} (test : Path → bool) : MR unit :=
  let! ps := fetch (λ d, Ok (dir_order (paths_where test d))) in
  let! _ := remove_all ps in
  fetch (λ _, Ok tt).

Definition in_stepsDir (runID : string) (p : Path) : bool :=
  match p with PStep r _ => bool_decide (r = runID) | _ => false end.
Definition in_checkpointsDir (runID : string) (p : Path) : bool :=
  match p with PCheckpoint r _ | PPayload r _ => bool_decide (r = runID) | _ => false end.

(** The prologue of every method. *)
Definition fileContext (ctx : Context) : result file_error unit := lift_file (fileStoreContextErr ctx).
Definition fileID (name id : string) : result file_error unit := lift_file (storage_id name id).

(** [fenceRunDeletionLocked]; the caller's checks run in the same block. *)
Definition fenceRunDeletionLocked (ctx : Context) (sp : Space) (runID deletionID : string)
    (checks : Disk → result file_error unit) : MR unit :=
  let! existing := fetch (λ d,
    let* _ := checks d in
    let* _ := lift_file (requireRunDeletionMutation ctx runID deletionID) in
    let* existing := readIfExists as_fence (PFence sp runID) d in
    match existing with
    | None => Ok false
    | Some f =>
      let* _ := validateRunDeletionFence f runID in
      let* _ := guard_err (negb (bool_decide (df_DeletionID f = deletionID))) (FStore (SNotAllowed runID)) in
      Ok true
    end) in
  if existing then mret (M:=M) (Ok tt)
  else writeRunnerFile (PFence sp runID) (FFence (MkFence runID deletionID)).

Section store.
Context (writer : option bool) (ctx : Context).

(** ** Runs *)

Definition check_fileCreateRun (run : RunRecord) (d : Disk) : result file_error RunRecord :=
  let* _ := fileContext ctx in
  let* _ := validateRunID (r_RunID run) in
  let* _ := lift_file (validateNewRunDeletion run) in
  let run := sanitizeRunRecord ctx run in
  let* _ := lift_file (validateRunChildState run) in
  let* _ := requireWritable writer in
  let* _ := ensureRunNotDeletingLocked Execution (r_RunID run) d in
  let* _ := ensureRunnerRecordDoesNotExist (PRun (r_RunID run)) (r_RunID run) d in
  let* _ := if bool_decide (r_ParentRunID run = "") then Ok tt else
              let* _ := validateRunID (r_ParentRunID run) in
              let* _ := ensureRunNotDeletingLocked Execution (r_ParentRunID run) d in
              let* parent := readRunLocked (r_ParentRunID run) d in
              lift_file (validateNewRunParent run parent) in
  Ok run.

Definition fileCreateRun (run : RunRecord) : MR unit :=
  let! run := fetch (check_fileCreateRun run) in
  writeRunnerFile (PRun (r_RunID run)) (FRun run).

Definition check_fileCompareAndSwapRun (expected : N) (run : RunRecord) (d : Disk) : result file_error RunRecord :=
  let* _ := fileContext ctx in
  let* _ := validateRunID (r_RunID run) in
  let run := sanitizeRunRecord ctx run in
  let* _ := lift_file (validateRunChildState run) in
  let* _ := requireWritable writer in
  let* _ := ensureRunnerRecordExists (PRun (r_RunID run)) (r_RunID run) d in
  let* existing := readRunnerFile as_run (PRun (r_RunID run)) d in
  let* _ := guard_err (negb (r_Revision existing =? expected)%N || negb (r_Revision run =? expected)%N)
              (FStore (SConflict (r_RunID run) expected (r_Revision existing))) in
  let* _ := lift_file (validateRunDeletionTransition ctx existing run) in
  let* _ := lift_file (lift_lease (validateRunExecutionLeaseTransition (lease_context ctx) (leased existing) (leased run))) in
  Ok (with_Revision (next_revision expected) run).

Definition fileCompareAndSwapRun (expected : N) (run : RunRecord) : MR RunRecord :=
  let! run := fetch (check_fileCompareAndSwapRun expected run) in
  let! _ := writeRunnerFile (PRun (r_RunID run)) (FRun run) in
  mret (M:=M) (Ok run).

Definition fileGetRun (runID : string) : MR RunRecord := fetch (λ d,
  let* _ := fileContext ctx in
  let* _ := validateRunID runID in
  readRunLocked runID d).

(** One file of the directory of runs, named after the run it holds. *)
Definition listed_run (d : Disk) (p : Path) : result file_error RunRecord :=
  match p with
  | PRun name =>
    let* run := readRunnerFile as_run p d in
    let* _ := validateRunID (r_RunID run) in
    let* _ := guard_err (negb (bool_decide (name = r_RunID run))) (FInvalid (r_RunID run) "metadata identity") in
    Ok run
  | _ => Err FNotExist
  end.

(** [f] on every item, the first error ends it. *)
Fixpoint mapM_err {A B} (f : A → result file_error B) (l : list A) : result file_error (list B) :=
  match l with
  | [] => Ok []
  | x :: l => let* y := f x in let* ys := mapM_err f l in Ok (y :: ys)
  end.

Definition listRunsLocked (filter_ : RunFilter) (d : Disk) : result file_error (list RunRecord) :=
  let* l := mapM_err (listed_run d) (paths_where (λ p, match p with PRun _ => true | _ => false end) d) in
  Ok (stable_sort run_before (filter (λ r, matches filter_ r = true) l)).

Definition fileListRuns (filter_ : RunFilter) : MR (list RunRecord) := fetch (λ d,
  let* _ := fileContext ctx in listRunsLocked filter_ d).

(** ** Steps *)

Definition check_step_run (step : StepRecord) (d : Disk) : result file_error unit :=
  let* run := readRunLocked (s_RunID step) d in
  let* _ := lift_file (ensureRunNotDeleting run) in
  ensureRunNotDeletingLocked Execution (s_RunID step) d.

Definition check_fileAppendStep (step : StepRecord) (d : Disk) : result file_error StepRecord :=
  let* _ := fileContext ctx in
  let* _ := validateRunID (s_RunID step) in
  let* _ := fileID "step ID" (s_StepID step) in
  let step := sanitizeStepRecord ctx step in
  let* _ := lift_file (validateStepEffect step) in
  let* _ := requireWritable writer in
  let* _ := check_step_run step d in
  let* _ := ensureRunnerRecordDoesNotExist (PStep (s_RunID step) (s_StepID step)) (s_StepID step) d in
  Ok step.

Definition fileAppendStep (step : StepRecord) : MR unit :=
  let! step := fetch (check_fileAppendStep step) in
  writeRunnerFile (PStep (s_RunID step) (s_StepID step)) (FStep step).

Definition check_fileUpdateStep (step : StepRecord) (d : Disk) : result file_error StepRecord :=
  let* _ := fileContext ctx in
  let* _ := validateRunID (s_RunID step) in
  let* _ := fileID "step ID" (s_StepID step) in
  let step := sanitizeStepRecord ctx step in
  let* _ := requireWritable writer in
  let* _ := check_step_run step d in
  let path := PStep (s_RunID step) (s_StepID step) in
  let* _ := ensureRunnerRecordExists path (s_StepID step) d in
  let* existing := readRunnerFile as_step path d in
  let* _ := lift_file (validateStepEffectTransition existing step) in
  Ok step.

Definition fileUpdateStep (step : StepRecord) : MR unit :=
  let! step := fetch (check_fileUpdateStep step) in
  writeRunnerFile (PStep (s_RunID step) (s_StepID step)) (FStep step).

(** The step with this identifier, whatever its run; two of them are an error. *)
Fixpoint find_step (stepID : string) (found : option StepRecord) (l : list RunRecord) (d : Disk)
    : result file_error StepRecord :=
  match l with
  | [] => match found with Some s => Ok s | None => Err (FStore (SNotFound stepID)) end
  | run :: l =>
    let* here := readIfExists as_step (PStep (r_RunID run) stepID) d in
    match here with
    | None => find_step stepID found l d
    | Some step =>
      let* _ := guard_err (negb (bool_decide (s_RunID step = r_RunID run)) || negb (bool_decide (s_StepID step = stepID)))
                  (FInvalid stepID "metadata identity") in
      let* _ := guard_err (bool_decide (is_Some found)) (FInvalid stepID "ambiguous across runs") in
      find_step stepID (Some step) l d
    end
  end.

Definition fileGetStep (stepID : string) : MR StepRecord := fetch (λ d,
  let* _ := fileContext ctx in
  let* _ := fileID "step ID" stepID in
  let* l := listRunsLocked (MkFilter [] "" "" "" "") d in
  find_step stepID None l d).

Definition listed_step (runID : string) (d : Disk) (p : Path) : result file_error StepRecord :=
  match p with
  | PStep _ name =>
    let* step := readRunnerFile as_step p d in
    let* _ := fileID "step ID" (s_StepID step) in
    let* _ := guard_err (negb (bool_decide (s_RunID step = runID)) || negb (bool_decide (name = s_StepID step)))
                (FInvalid (s_StepID step) "metadata identity") in
    Ok step
  | _ => Err FNotExist
  end.

Definition fileListSteps (runID : string) : MR (list StepRecord) := fetch (λ d,
  let* _ := fileContext ctx in
  let* _ := validateRunID runID in
  let* l := mapM_err (listed_step runID d) (paths_where (in_stepsDir runID) d) in
  Ok (stable_sort step_before l)).

(** ** Deleting a run *)

(** The run is reserved for the deletion the caller carries out. *)
Definition check_reserved (runID : string) (deletion : option RunDeletionState) : result file_error unit :=
  let* _ := guard_err (bool_decide (deletion = None)) (FStore (SNotAllowed runID)) in
  let* _ := lift_file (validateRunDeletionState deletion) in
  lift_file (requireRunDeletionMutation ctx runID (deletion_id deletion)).

(** Is there a run to delete? *)
Definition check_fileDeleteRun (runID : string) (d : Disk) : result file_error bool :=
  let* _ := fileContext ctx in
  let* _ := validateRunID runID in
  let* _ := requireWritable writer in
  match readRunLocked runID d with
  | Err (FStore (SNotFound _)) => let* _ := requireRunDeletionLocked ctx Execution runID d in Ok false
  | Err e => Err e
  | Ok run =>
    let* _ := check_reserved runID (r_Deletion run) in
    let* _ := requireRunDeletionLocked ctx Execution runID d in
    Ok true
  end.

Definition fileDeleteRun `{DirOrder} (runID : string) : MR unit :=
  let! present := fetch (check_fileDeleteRun runID) in
  if present then
    let! _ := removeRunnerDirectory (in_stepsDir runID) in
    removeRunnerFile (PRun runID)
  else mret (M:=M) (Ok tt).

(** The reservation of a run that is still there names the deletion. *)
Definition check_reservation (runID deletionID : string) (d : Disk) : result file_error unit :=
  match readRunLocked runID d with
  | Ok run =>
    let* _ := guard_err (bool_decide (r_Deletion run = None)) (FStore (SNotAllowed runID)) in
    let* _ := lift_file (validateRunDeletionState (r_Deletion run)) in
    guard_err (negb (bool_decide (deletion_id (r_Deletion run) = deletionID))) (FStore (SNotAllowed runID))
  | Err (FStore (SNotFound _)) => Ok tt
  | Err e => Err e
  end.

Definition check_fileFence (runID deletionID : string) : result file_error unit :=
  let* _ := fileContext ctx in
  let* _ := validateRunID runID in
  let* _ := fileID "deletion ID" deletionID in
  requireWritable writer.

Definition fileFenceRunDeletion (runID deletionID : string) : MR unit :=
  fenceRunDeletionLocked ctx Execution runID deletionID (λ d,
    let* _ := check_fileFence runID deletionID in
    check_reservation runID deletionID d).

(** ** Checkpoints *)

Definition with_PayloadRef (ref : string) (k : CheckpointRecord) : CheckpointRecord :=
  MkCheckpoint (k_CheckpointID k) (k_RunID k) (k_StepID k) (k_TaskID k) (k_ParentRunID k)
    (k_ParentStepID k) (k_ParentTaskID k) (k_RootRunID k) (k_RunPath k) (k_Namespace k) (k_NodeID k)
    (k_Stage k) (k_StateCodec k) (k_StateVersion k) ref (k_CreatedAt k).

(** The path of the payload, below the base directory. *)
Definition payload_ref (k : CheckpointRecord) : string := path_string (PPayload (k_RunID k) (k_CheckpointID k)).

Definition check_fileSave (k : CheckpointRecord) (d : Disk) : result file_error unit :=
  let* _ := fileContext ctx in
  let* _ := validateRunID (k_RunID k) in
  let* _ := fileID "checkpoint ID" (k_CheckpointID k) in
  let* _ := requireWritable writer in
  let* _ := ensureRunNotDeletingLocked Checkpoints (k_RunID k) d in
  ensureRunnerRecordDoesNotExist (PCheckpoint (k_RunID k) (k_CheckpointID k)) (k_CheckpointID k) d.

(** The payload first; when the record fails, the payload goes again, and of two
    errors the first stands for the join. *)
Definition fileSave (k : CheckpointRecord) (payload : string) : MR unit :=
  let! _ := fetch (check_fileSave k) in
  let! _ := ensureRunnerDirectory in
  let! _ := ensureRunnerDirectory in
  let! _ := writeRunnerFile (PPayload (k_RunID k) (k_CheckpointID k)) (FPayload payload) in
  mbind (M:=M) (λ r, match r with
    | Ok _ => mret (M:=M) (Ok tt)
    | Err e => mbind (M:=M) (λ _, mret (M:=M) (Err e)) (removeRunnerFile (PPayload (k_RunID k) (k_CheckpointID k)))
    end)
    (writeRunnerFile (PCheckpoint (k_RunID k) (k_CheckpointID k)) (FCheckpoint (with_PayloadRef (payload_ref k) k))).

(** A record with its payload; it must be filed under its own identifiers. *)
Definition load_checkpoint (d : Disk) (p : Path) : result file_error (CheckpointRecord * string) :=
  match p with
  | PCheckpoint runID id =>
    let* k := readRunnerFile as_checkpoint p d in
    let* _ := guard_err (negb (bool_decide (k_RunID k = runID)) || negb (bool_decide (k_CheckpointID k = id)))
                (FInvalid id "metadata identity") in
    match dk_files d !! PPayload runID id with
    | Some (FPayload data) => Ok (with_PayloadRef (payload_ref k) k, data)
    | Some _ => Err (FInvalid id "payload")
    | None => Err FNotExist
    end
  | _ => Err FNotExist
  end.

Definition load_step (id : string) (d : Disk) (found : option (CheckpointRecord * string)) (p : Path)
    : result file_error (option (CheckpointRecord * string)) :=
  let* k := load_checkpoint d p in
  let* _ := guard_err (bool_decide (is_Some found)) (FInvalid id "ambiguous across runs") in
  Ok (Some k).

Definition fileLoad (id : string) : MR (CheckpointRecord * string) := fetch (λ d,
  let* _ := fileContext ctx in
  let* _ := fileID "checkpoint ID" id in
  let* found := foldM (load_step id d) None
                  (paths_where (λ p, match p with PCheckpoint _ name => bool_decide (name = id) | _ => false end) d) in
  match found with Some k => Ok k | None => Err (FStore (SNotFound id)) end).

Definition listed_checkpoint (runID : string) (d : Disk) (p : Path) : result file_error CheckpointRecord :=
  match p with
  | PCheckpoint _ name =>
    let* k := readRunnerFile as_checkpoint p d in
    let* _ := fileID "checkpoint ID" (k_CheckpointID k) in
    let* _ := guard_err (negb (bool_decide (k_RunID k = runID)) || negb (bool_decide (name = k_CheckpointID k)))
                (FInvalid (k_CheckpointID k) "metadata identity") in
    Ok (with_PayloadRef (payload_ref k) k)
  | _ => Err FNotExist
  end.

Definition fileListCheckpoints (runID : string) : MR (list CheckpointRecord) := fetch (λ d,
  let* _ := fileContext ctx in
  let* _ := validateRunID runID in
  let* l := mapM_err (listed_checkpoint runID d)
              (paths_where (λ p, match p with PCheckpoint r _ => bool_decide (r = runID) | _ => false end) d) in
  Ok (stable_sort checkpoint_before l)).

(** The checks of the [DeleteRun] of the checkpoint store and the event sink. *)
Definition check_fileDelete (sp : Space) (runID : string) (d : Disk) : result file_error unit :=
  let* _ := fileContext ctx in
  let* _ := validateRunID runID in
  let* _ := requireWritable writer in
  requireRunDeletionLocked ctx sp runID d.

Definition fileDeleteCheckpoints `{DirOrder} (runID : string) : MR unit :=
  let! _ := fetch (check_fileDelete Checkpoints runID) in
  removeRunnerDirectory (in_checkpointsDir runID).

Definition fileFenceCheckpoints (runID deletionID : string) : MR unit :=
  fenceRunDeletionLocked ctx Checkpoints runID deletionID (λ _, check_fileFence runID deletionID).

(** ** Events *)

(** [appendRunnerJSONLine]: the whole log is written again. *)
Definition append_log (e : Event) : MR unit :=
  let! old := fetch (λ d, readIfExists as_events (PEvents (v_RunID e)) d) in
  writeRunnerFile (PEvents (v_RunID e)) (FEvents (default [] old ++ [e])).

Definition check_filePublish (batch : list Event) (d : Disk) : result file_error (list Event) :=
  let* _ := fileContext ctx in
  let batch := filter (λ e, IsStreamingEvent (v_Type e) = false) (map (sanitizeEventPayload ctx) batch) in
  let* _ := first_err (λ e, validateRunID (v_RunID e)) batch in
  let* _ := if bool_decide (batch = []) then Ok tt else
              let* _ := requireWritable writer in
              first_err (λ e, ensureRunNotDeletingLocked EventLogs (v_RunID e) d) batch in
  Ok batch.

(** One write per event: a failure leaves the first events of the batch. *)
Definition filePublishBatch (batch : list Event) : MR unit :=
  let! batch := fetch (check_filePublish batch) in each append_log batch.

Definition filePublish (e : Event) : MR unit := filePublishBatch [e].

Definition fileListEvents (runID : string) : MR (list Event) := fetch (λ d,
  let* _ := validateRunID runID in
  let* l := readIfExists as_events (PEvents runID) d in
  let* _ := first_err (λ e, guard_err (negb (bool_decide (v_RunID e = runID))) (FInvalid (v_ID e) "metadata identity")) (default [] l) in
  Ok (default [] l)).

Definition fileDeleteEvents (runID : string) : MR unit :=
  let! _ := fetch (check_fileDelete EventLogs runID) in
  removeRunnerFile (PEvents runID).

Definition fileFenceEvents (runID deletionID : string) : MR unit :=
  fenceRunDeletionLocked ctx EventLogs runID deletionID (λ _, check_fileFence runID deletionID).
End store.
