(* ===== verification/FileTxn.v ===== *)
(** * Transactions of the file runtime store: [internal/runtimestore/file/transaction.go]

    A commit is turned into the list of the files it changes, each with its
    content before and after.  The list goes to a journal first; then the files
    are written, the journal is marked committed, the result is filed under the
    transaction's identifier and the journal is removed.  [recoverLocked] ends
    what a crash interrupted: a prepared journal is rolled back, a committed one
    is carried out again.  The failure points the tests inject are left out:
    every effect of the model can fail. *)

From Stdlib Require Import Ascii.
From S2P Require Import Prelude GoStrings Values Json Sensitive Errors Lease Records RunStore Stores Artifacts Commit FileDisk FileStore.

(** ** Preparing a journal *)

Definition addMutation (d : Disk) (p : Path) (after : Content) (ms : gmap Path transactionMutation) : result file_error (gmap Path transactionMutation) :=
  let* _ := guard_err (bool_decide (is_Some (ms !! p))) (FInvalid (path_string p) "written more than once") in
  Ok (<[p := MkMutation p (dk_files d !! p) (Some after)]> ms).

Section prepare.
Context (ctx : Context) (c : Commit) (d : Disk).

(** The record of a run that must be there, and filed under its identifier. *)
Definition check_create (run : RunRecord) : result file_error unit :=
  let* _ := lift_file (validateNewRunDeletion run) in
  let* _ := ensureRunNotDeletingLocked Execution (r_RunID run) d in
  let* _ := ensureRunnerRecordDoesNotExist (PRun (r_RunID run)) (r_RunID run) d in
  if bool_decide (r_ParentRunID run = "") then Ok tt else
  let* _ := validateRunID (r_ParentRunID run) in
  let* _ := ensureRunNotDeletingLocked Execution (r_ParentRunID run) d in
  let* parent := readRunLocked (r_ParentRunID run) d in
  lift_file (validateNewRunParent run parent).

(** The run to write, if the mode writes it. *)
Definition check_update (mode : RunWriteMode) (run : RunRecord) : result file_error (option RunRecord) :=
  let* existing := readRunLocked (r_RunID run) d in
  let* _ := guard_err (negb (r_Revision existing =? r_Revision run)%N)
              (FStore (SConflict (r_RunID run) (r_Revision run) (r_Revision existing))) in
  let* _ := lift_file (validateCommitExecutionLease existing c) in
  let* _ := guard_err (negb (bool_decide (r_ExecutionLease existing = r_ExecutionLease run)))
              (FStore (SNotAllowed (r_RunID run))) in
  if bool_decide (mode = RunWriteCheck) then
    let* _ := ensureRunNotDeletingLocked Execution (r_RunID run) d in
    let* _ := lift_file (ensureRunNotDeleting existing) in
    Ok None
  else
    let* _ := lift_file (validateRunDeletionTransition ctx existing run) in
    Ok (Some (with_Revision (next_revision (r_Revision run)) run)).

Definition prepare_run (ms : gmap Path transactionMutation) : result file_error (gmap Path transactionMutation * option RunRecord) :=
  match c_Run c with
  | None => Ok (ms, None)
  | Some w =>
    let run := cloneRunRecord (rw_Run w) in
    let* written :=
      match rw_Mode w with
      | RunWriteCreate => let* _ := check_create run in Ok (Some run)
      | RunWriteUpdate | RunWriteCheck => check_update (rw_Mode w) run
      | RunWriteOther _ => Ok (Some run)
      end in
    match written with
    | None => Ok (ms, None)
    | Some run => let* ms := addMutation d (PRun (r_RunID run)) (FRun run) ms in Ok (ms, Some run)
    end
  end.

(** [ensureCommitRunLocked]: the run of a record accepts writes.  The run the
    commit itself writes is taken from the commit. *)
Definition ensureCommitRunLocked (runID : string) : result file_error unit :=
  let stored :=
    let* run := readRunLocked runID d in
    let* _ := ensureRunNotDeletingLocked Execution runID d in
    let* _ := lift_file (validateCommitExecutionLease run c) in
    lift_file (ensureRunNotDeleting run) in
  match c_Run c with
  | Some w =>
    if bool_decide (r_RunID (rw_Run w) = runID) then
      if bool_decide (rw_Mode w = RunWriteCheck) then stored else
      let* _ := lift_file (validateCommitExecutionLease (rw_Run w) c) in
      lift_file (ensureRunNotDeleting (rw_Run w))
    else stored
  | None => stored
  end.

Definition prepare_step (ms : gmap Path transactionMutation) (w : StepWrite) : result file_error (gmap Path transactionMutation) :=
  let step := sw_Step w in
  let path := PStep (s_RunID step) (s_StepID step) in
  let* _ := ensureCommitRunLocked (s_RunID step) in
  let* existing := readIfExists as_step path d in
  let* _ :=
    match sw_Mode w with
    | StepWriteAppend => guard_err (bool_decide (is_Some existing)) (FStore (SExists (s_StepID step)))
    | StepWriteUpdate =>
      match existing with
      | None => Err (FStore (SNotFound (s_StepID step)))
      | Some old =>
        let* _ := guard_err (negb (bool_decide (s_RunID old = s_RunID step)) || negb (bool_decide (s_StepID old = s_StepID step)))
                    (FInvalid (s_StepID step) "metadata identity") in
        lift_file (validateStepEffectTransition old step)
      end
    | StepWriteOther m => Err (FInvalid (s_StepID step) m)
    end in
  addMutation d path (FStep step) ms.

Definition prepare_checkpoint (ms : gmap Path transactionMutation) (w : CheckpointWrite) : result file_error (gmap Path transactionMutation) :=
  let k := cw_Record w in
  let* _ := ensureCommitRunLocked (k_RunID k) in
  let* _ := ensureRunnerRecordDoesNotExist (PCheckpoint (k_RunID k) (k_CheckpointID k)) (k_CheckpointID k) d in
  let* ms := addMutation d (PPayload (k_RunID k) (k_CheckpointID k)) (FPayload (cw_Payload w)) ms in
  addMutation d (PCheckpoint (k_RunID k) (k_CheckpointID k)) (FCheckpoint (with_PayloadRef (payload_ref k) k)) ms.

(** The events to publish, by run. *)
Definition group_event (m : gmap string (list Event)) (e : Event) : result file_error (gmap string (list Event)) :=
  if IsStreamingEvent (v_Type e) then Ok m else
  let* _ := ensureCommitRunLocked (v_RunID e) in
  Ok (append_event m e).

Definition prepare_log (m : gmap string (list Event)) (ms : gmap Path transactionMutation) (runID : string) : result file_error (gmap Path transactionMutation) :=
  let* existing := readIfExists as_events (PEvents runID) d in
  addMutation d (PEvents runID) (FEvents (default [] existing ++ log_of m runID)) ms.

Definition prepareJournalLocked : result file_error (list transactionMutation * option RunRecord) :=
  let* p := prepare_run ∅ in
  let* ms := foldM prepare_step p.1 (c_Steps c) in
  let* ms := foldM prepare_checkpoint ms (c_Checkpoints c) in
  let* m := foldM group_event ∅ (c_Events c) in
  let* ms := foldM (prepare_log m) ms (stable_sort (less_last (path_string ∘ PEvents) str_lt) (map fst (map_to_list m))) in
  let* _ := first_err (λ g, ensureCommitRunLocked (f_RunID (g_Ref g))) (c_Artifacts c) in
  Ok (stable_sort (less_last (path_string ∘ mu_Path) str_lt) (map snd (map_to_list ms)), p.2).
End prepare.

(** ** Journals and results *)

Definition check_state (validate : Content → result file_error unit) (m : transactionMutation) : result file_error unit :=
  let* _ := match mu_Before m with Some b => validate b | None => Ok tt end in
  match mu_After m with Some a => validate a | None => Err (FInvalid (path_string (mu_Path m)) "no after-state") end.

Definition decoded {A} (as_record : Content → option A) (check : A → result file_error unit) (x : Content)
    : result file_error unit :=
  match as_record x with Some a => check a | None => Err (FInvalid "" "decode") end.

Definition validateJournalMutation (m : transactionMutation) : result file_error unit :=
  let* _ := guard_err (bool_decide (mu_After m = None)) (FInvalid (path_string (mu_Path m)) "no after-state") in
  match mu_Path m with
  | PRun id =>
    let* _ := validateRunID id in
    check_state (decoded as_run (λ r,
      let* _ := guard_err (negb (bool_decide (r_RunID r = id))) (FInvalid id "metadata identity") in
      lift_file (validateRunChildState r))) m
  | PStep run id =>
    let* _ := validateRunID run in
    let* _ := fileID "step ID" id in
    check_state (decoded as_step (λ s,
      let* _ := guard_err (negb (bool_decide (s_RunID s = run)) || negb (bool_decide (s_StepID s = id))) (FInvalid id "metadata identity") in
      lift_file (validateStepEffect s))) m
  | PCheckpoint run id =>
    let* _ := validateRunID run in
    let* _ := fileID "checkpoint ID" id in
    check_state (decoded as_checkpoint (λ k,
      let* _ := guard_err (negb (bool_decide (k_RunID k = run)) || negb (bool_decide (k_CheckpointID k = id))) (FInvalid id "metadata identity") in
      guard_err (negb (bool_decide (k_PayloadRef k = path_string (PPayload run id)))) (FInvalid id "payload identity"))) m
  | PPayload run id =>
    let* _ := validateRunID run in
    fileID "checkpoint ID" id
  | PEvents id =>
    let* _ := validateRunID id in
    check_state (decoded as_events (first_err (λ e,
      guard_err (negb (bool_decide (v_RunID e = id))) (FInvalid (v_ID e) "metadata identity")))) m
  | PFence _ _ => Err (FInvalid (path_string (mu_Path m)) "outside runtime record namespaces")
  end.

Definition add_path (id : string) (seen : gset Path) (m : transactionMutation) : result file_error (gset Path) :=
  let* _ := guard_err (bool_decide (mu_Path m ∈ seen)) (FInvalid id "repeats mutation path") in
  let* _ := validateJournalMutation m in
  Ok (seen ∪ {[mu_Path m]}).

(** [validateJournal] of the journal named [name]. *)
Definition validateJournal (name : string) (j : transactionJournal) : result file_error unit :=
  let* _ := fileID "transaction ID" (j_ID j) in
  let* _ := guard_err (negb (bool_decide (name = j_ID j))) (FInvalid name "identity") in
  let* _ := guard_err (blank (j_Fingerprint j)) (FInvalid name "no fingerprint") in
  let* _ := guard_err (negb (bool_decide (cr_TransactionID (j_Result j) = j_ID j))) (FInvalid name "result identity") in
  let* _ :=
    match j_Phase j with
    | transactionPrepared => guard_err (negb (bool_decide (cr_Outcome (j_Result j) = TransactionNotStarted))) (FInvalid name "prepared outcome")
    | transactionCommitted => guard_err (negb (bool_decide (cr_Outcome (j_Result j) = TransactionCommitted))) (FInvalid name "committed outcome")
    | transactionPhaseOther phase => Err (FInvalid name phase)
    end in
  let* _ := foldM (add_path name) ∅ (j_Mutations j) in
  Ok tt.

(** The result of a transaction, if it has one. *)
Definition loadTransactionResultLocked (id : string) (d : Disk) : result file_error (option transactionResultRecord) :=
  match dk_results d !! id with
  | None => Ok None
  | Some r =>
    let* _ := guard_err (blank (rr_Fingerprint r)) (FInvalid id "result has no fingerprint") in
    let* _ := guard_err (negb (bool_decide (cr_TransactionID (rr_Result r) = id))
                         || negb (bool_decide (cr_Outcome (rr_Result r) = TransactionCommitted))) (FInvalid id "result identity") in
    let* _ := lift_file (validateArtifactStages id (cr_Artifacts (rr_Result r))) in
    Ok (Some r)
  end.

Definition writeJournal (j : transactionJournal) : MR unit :=
  mutate (λ d, with_journals (<[j_ID j := j]> (dk_journals d)) d).
Definition removeJournal (id : string) : MR unit :=
  mutate (λ d, with_journals (delete id (dk_journals d)) d).

Definition saveTransactionResultLocked (j : transactionJournal) : MR unit :=
  let record := MkResultRecord (j_Fingerprint j) (j_Result j) in
  let! found := fetch (λ d,
    let* found := loadTransactionResultLocked (j_ID j) d in
    match found with
    | None => Ok false
    | Some r =>
      let* _ := guard_err (negb (bool_decide (rr_Fingerprint r = j_Fingerprint j))) (FInvalid (j_ID j) "result fingerprint mismatch") in
      Ok true
    end) in
  if found then mret (M:=M) (Ok tt) else
  mutate (λ d, with_results (<[j_ID j := record]> (dk_results d)) d).

(** ** Applying mutations *)

Definition image (after : bool) (m : transactionMutation) : option Content :=
  if after then mu_After m else mu_Before m.

(** One file of [applyTransactionMutations]. *)
Definition applyMutation (after : bool) (m : transactionMutation) : MR unit :=
  mutate (λ d, with_files (set_file (mu_Path m) (image after m) (dk_files d)) d).

(** Every item is tried; the result joins their errors, the empty list is [nil]. *)
Fixpoint apply_items (after : bool) (items : list transactionMutation) : M (list file_error) :=
  match items with
  | [] => mret []
  | m :: items =>
    mbind (M:=M) (λ r,
      mbind (M:=M) (λ errs, mret (M:=M) (match r with Ok _ => errs | Err e => e :: errs end)) (apply_items after items))
      (applyMutation after m)
  end.

(** The mutations are undone in the reverse order. *)
Definition applyTransactionMutations (ms : list transactionMutation) (after : bool) : M (list file_error) :=
  apply_items after (if after then ms else reverse ms).

(** [applyCommitMutations] stops at the first error. *)
Definition applyCommitMutations (ms : list transactionMutation) : MR unit := each (applyMutation true) ms.

(** ** Recovery *)

Definition raise (errs : list file_error) : MR unit :=
  mret (M:=M) (match errs with [] => Ok tt | e :: _ => Err e end).

Definition committed (j : transactionJournal) : bool := bool_decide (j_Phase j = transactionCommitted).

Definition recover_journal (name : string) : MR unit :=
  let! j := fetch (λ d,
    match dk_journals d !! name with
    | None => Err FNotExist
    | Some j => let* _ := validateJournal name j in Ok j
    end) in
  let! _ := mbind (M:=M) raise (applyTransactionMutations (j_Mutations j) (committed j)) in
  let! _ := if committed j then saveTransactionResultLocked j else mret (M:=M) (Ok tt) in
  removeJournal name.

(** The journals in the order of their file names. *)
Definition journal_names (d : Disk) : list string :=
  stable_sort (less_last (λ id, id +:+ ".json") str_lt) (map fst (map_to_list (dk_journals d))).

Definition recoverLocked : MR unit :=
  let! names := fetch (λ d, Ok (journal_names d)) in each recover_journal names.

(** ** Commit *)

Record FileAnswer := MkFileAnswer { fa_Result : CommitResult; fa_Errors : list file_error }.

Definition with_Outcome (o : TransactionOutcome) (r : CommitResult) : CommitResult :=
  MkCommitResult (cr_TransactionID r) o (cr_Run r) (cr_Artifacts r).

(** [CommitResult{}]. *)
Definition zero_result : CommitResult := MkCommitResult "" (TransactionOutcomeOther "") None [].

Definition answer (r : CommitResult) (errs : list file_error) : M FileAnswer := mret (MkFileAnswer r errs).

(** A step that fails ends the commit with an answer; [k] is the rest. *)
Definition or_answer {A} (m : MR A) (fail : file_error → M FileAnswer) (k : A → M FileAnswer) : M FileAnswer :=
  mbind (M:=M) (λ r, match r with Ok a => k a | Err e => fail e end) m.

Section commit.
Context `{CommitDigest} (writer : option bool) (ctx : Context).

(** Undo the mutations, after [e]. *)
Definition roll_back (j : transactionJournal) (e : file_error) (r : CommitResult) : M FileAnswer :=
  mbind (M:=M) (λ errs,
    answer (if bool_decide (errs = []) then r else with_Outcome TransactionOutcomeUnknown r) (e :: errs))
    (applyTransactionMutations (j_Mutations j) false).

(** The journal marked committed, and what follows. *)
Definition finish_commit (j : transactionJournal) : M FileAnswer :=
  let unknown e := answer (with_Outcome TransactionOutcomeUnknown (j_Result j)) [e] in
  or_answer (saveTransactionResultLocked j) unknown (λ _,
  or_answer (removeJournal (j_ID j)) (λ e, answer (j_Result j) [e]) (λ _,
  answer (j_Result j) [])).

Definition mark_committed (j : transactionJournal) : transactionJournal :=
  MkJournal (j_ID j) (j_Fingerprint j) transactionCommitted
    (with_Outcome TransactionCommitted (j_Result j)) (j_Mutations j).

(** The journal of what was prepared. *)
Definition journal_of (c : Commit) (fingerprint : string) (p : list transactionMutation * option RunRecord)
    : transactionJournal :=
  MkJournal (c_TransactionID c) fingerprint transactionPrepared
    (MkCommitResult (c_TransactionID c) TransactionNotStarted p.2 (c_Artifacts c)) p.1.

(** The part of [Commit] that writes. *)
Definition carry_out (j : transactionJournal) : M FileAnswer :=
  let fail e := answer (j_Result j) [e] in
  let j' := mark_committed j in
  if bool_decide (j_Mutations j = []) then
    or_answer (saveTransactionResultLocked j') (λ e, answer (with_Outcome TransactionOutcomeUnknown (j_Result j)) [e]) (λ _,
    answer (j_Result j') [])
  else
    or_answer ensureRunnerDirectory fail (λ _,
    or_answer (mret (M:=M) (validateJournal (j_ID j) j)) (λ e, answer zero_result [e]) (λ _,
    or_answer (writeJournal j) fail (λ _,
    or_answer (applyCommitMutations (j_Mutations j)) (λ e, roll_back j e (j_Result j)) (λ _,
    or_answer (writeJournal j') (λ e, roll_back j e (j_Result j)) (λ _,
    finish_commit j'))))).

(** The checks of [Commit] before it takes the mutex. *)
Definition check_commit (c : Commit) : result file_error string :=
  let* _ := fileContext ctx in
  let* _ := lift_file (validateRuntimeCommit c) in
  match commitFingerprint c with
  | None => Err (FInvalid (c_TransactionID c) "encode runtime transaction fingerprint")
  | Some fingerprint => let* _ := requireWritable writer in Ok fingerprint
  end.

Definition fileCommit (freshID : string) (c : Commit) : M FileAnswer :=
  let c := sanitizeCommit ctx (ensureCommitTransactionID freshID c) in
  let id := c_TransactionID c in
  let start := not_started id in
  let fail e := answer start [e] in
  let unknown e := answer (with_Outcome TransactionOutcomeUnknown start) [e] in
  or_answer (mret (M:=M) (check_commit c)) fail (λ fingerprint,
  or_answer recoverLocked unknown (λ _,
  or_answer (fetch (loadTransactionResultLocked id)) unknown (λ stored,
  match stored with
  | Some r =>
    if bool_decide (rr_Fingerprint r = fingerprint) then answer (rr_Result r) []
    else fail (FInvalid id "fingerprint mismatch")
  | None =>
    or_answer (fetch (prepareJournalLocked ctx c)) fail (λ p, carry_out (journal_of c fingerprint p))
  end))).

Definition fileResolveCommit (id : string) : M FileAnswer :=
  let start := not_started id in
  let fail e := answer start [e] in
  let unknown e := answer (with_Outcome TransactionOutcomeUnknown start) [e] in
  or_answer (mret (M:=M) (let* _ := fileContext ctx in let* _ := fileID "transaction ID" id in requireWritable writer)) fail (λ _,
  or_answer recoverLocked unknown (λ _,
  or_answer (fetch (loadTransactionResultLocked id)) unknown (λ stored,
  answer (match stored with Some r => rr_Result r | None => start end) []))).
End commit.

(** ** Deleting a run from all three stores *)

Section delete.
Context (writer : option bool) (ctx : Context) (runID : string).

Definition check_deletion (d : Disk) : result file_error unit :=
  let* _ := requireRunDeletionLocked ctx Execution runID d in
  let* _ := requireRunDeletionLocked ctx Checkpoints runID d in
  let* _ := requireRunDeletionLocked ctx EventLogs runID d in
  match readRunLocked runID d with
  | Ok run => check_reserved ctx runID (r_Deletion run)
  | Err (FStore (SNotFound _)) => Ok tt
  | Err e => Err e
  end.

(** [Store.DeleteRun]: the run itself goes last. *)
Definition fileDeleteRuntimeRun `{DirOrder} : MR unit :=
  let! _ := mret (M:=M) (let* _ := fileContext ctx in let* _ := validateRunID runID in requireWritable writer) in
  let! _ := recoverLocked in
  let! _ := fetch check_deletion in
  let! _ := removeRunnerDirectory (in_checkpointsDir runID) in
  let! _ := removeRunnerFile (PEvents runID) in
  let! _ := removeRunnerDirectory (in_stepsDir runID) in
  removeRunnerFile (PRun runID).

(** A fence that is there already is of this deletion. *)
Definition check_fence (deletionID : string) (d : Disk) (sp : Space) : result file_error unit :=
  let* f := readIfExists as_fence (PFence sp runID) d in
  match f with
  | None => Ok tt
  | Some f =>
    let* _ := validateRunDeletionFence f runID in
    guard_err (negb (bool_decide (df_DeletionID f = deletionID))) (FStore (SNotAllowed runID))
  end.

(** [Store.FenceRunDeletion]. *)
Definition fileFenceRuntimeRun (deletionID : string) : MR unit :=
  let! _ := mret (M:=M) (
    let* _ := fileContext ctx in
    let* _ := validateRunID runID in
    let* _ := lift_file (requireRunDeletionMutation ctx runID deletionID) in
    requireWritable writer) in
  let! _ := recoverLocked in
  let! _ := fetch (λ d, first_err (check_fence deletionID d) [Execution; Checkpoints; EventLogs]) in
  each (λ sp, fenceRunDeletionLocked ctx sp runID deletionID (λ _, Ok tt)) [Execution; Checkpoints; EventLogs].
End delete.
