(* ===== verification/Recovery.v ===== *)
(** * Crash safety of the file runtime store

    What a disk stands for is what a recovery makes of it ([settle]).  Every
    effect of a commit leaves that unchanged but one, the write that marks the
    journal committed; so a commit is atomic whatever fails and wherever the
    process stops, and recoveries may be interrupted as often as one likes. *)

From Stdlib Require Import Ascii.
From S2P Require Import Prelude GoStrings Values Json Sensitive Errors Lease Records RunStore Stores Artifacts Commit Transactions FileDisk FileStore FileTxn.

(** ** Images of a list of mutations *)

Definition write_images (after : bool) (ms : list transactionMutation) (f : Files) : Files :=
  foldl (λ f m, set_file (mu_Path m) (image after m) f) f ms.

Definition paths_of (ms : list transactionMutation) : list Path := map mu_Path ms.

Lemma set_file_same p c f : set_file p c f !! p = c.
Proof. apply lookup_partial_alter_eq. Qed.
Lemma set_file_other p q c f : p ≠ q → set_file p c f !! q = f !! q.
Proof. apply lookup_partial_alter_ne. Qed.

Lemma write_images_off b ms f p : p ∉ paths_of ms → write_images b ms f !! p = f !! p.
Proof.
  revert f. induction ms as [|m ms IH]; intros f Hp; [done|].
  simpl in *. rewrite not_elem_of_cons in Hp. destruct Hp as [Hn Hp].
  rewrite IH by done. by apply set_file_other.
Qed.

Lemma write_images_on b ms f m : NoDup (paths_of ms) → m ∈ ms → write_images b ms f !! mu_Path m = image b m.
Proof.
  revert f. induction ms as [|x ms IH]; intros f Hnd Hm; [by apply not_elem_of_nil in Hm|].
  simpl in Hnd. apply NoDup_cons in Hnd as [Hx Hnd]. simpl.
  apply elem_of_cons in Hm as [->|Hm]; [|by apply IH].
  rewrite write_images_off by done. apply set_file_same.
Qed.

(** The images of files that agree elsewhere are the same. *)
Lemma write_images_agree b ms f g :
  NoDup (paths_of ms) → (∀ p, p ∉ paths_of ms → f !! p = g !! p) → write_images b ms f = write_images b ms g.
Proof.
  intros Hnd Hfg. apply map_eq. intros p. destruct (decide (p ∈ paths_of ms)) as [Hp|Hp].
  - unfold paths_of in Hp. apply list_elem_of_fmap in Hp as (m & -> & Hm). by rewrite !write_images_on.
  - rewrite !write_images_off by done. by apply Hfg.
Qed.

Lemma write_images_set b b' ms m f :
  NoDup (paths_of ms) → m ∈ ms → write_images b ms (set_file (mu_Path m) (image b' m) f) = write_images b ms f.
Proof.
  intros Hnd Hm. apply write_images_agree; [done|]. intros p Hp. apply set_file_other. intros <-.
  apply Hp. by apply list_elem_of_fmap_2.
Qed.

Lemma write_images_twice b b' ms f : NoDup (paths_of ms) → write_images b ms (write_images b' ms f) = write_images b ms f.
Proof. intros Hnd. apply write_images_agree; [done|]. intros p Hp. by rewrite write_images_off. Qed.

Lemma write_images_perm b ms ms' f : ms ≡ₚ ms' → NoDup (paths_of ms) → write_images b ms f = write_images b ms' f.
Proof.
  intros Hp Hnd. assert (NoDup (paths_of ms')) by (unfold paths_of; by rewrite <-Hp).
  apply map_eq. intros p. destruct (decide (p ∈ paths_of ms)) as [Hin|Hin].
  - unfold paths_of in Hin. apply list_elem_of_fmap in Hin as (m & -> & Hm).
    rewrite !write_images_on; [done|done|by rewrite <-Hp|done|done].
  - rewrite !write_images_off; [done| |done]. unfold paths_of in *. by rewrite <-Hp.
Qed.

(** Writing back what is there changes nothing. *)
Lemma write_images_before ms f :
  NoDup (paths_of ms) → (∀ m, m ∈ ms → mu_Before m = f !! mu_Path m) → write_images false ms f = f.
Proof.
  intros Hnd Hb. apply map_eq. intros p. destruct (decide (p ∈ paths_of ms)) as [Hin|Hin].
  - unfold paths_of in Hin. apply list_elem_of_fmap in Hin as (m & -> & Hm).
    rewrite write_images_on by done. by apply Hb.
  - by apply write_images_off.
Qed.

(** ** What a disk stands for *)

Definition Settled : Type := Files * gmap string transactionResultRecord.

Definition record_of (j : transactionJournal) : transactionResultRecord := MkResultRecord (j_Fingerprint j) (j_Result j).

(** A recovery that meets the journal [j]. *)
Definition settle_journal (j : transactionJournal) (s : Settled) : Settled :=
  (write_images (committed j) (j_Mutations j) s.1,
   if committed j then match s.2 !! j_ID j with Some _ => s.2 | None => <[j_ID j := record_of j]> s.2 end else s.2).

Definition settle (d : Disk) : Settled :=
  foldl (λ s name, match dk_journals d !! name with Some j => settle_journal j s | None => s end)
    (dk_files d, dk_results d) (journal_names d).

(** A journal that recovery accepts, and a result, if it is filed already, that is the
    journal's own. *)
Record journal_ok (j : transactionJournal) (d : Disk) : Prop := {
  jo_valid : validateJournal (j_ID j) j = Ok tt;
  jo_stages : validateArtifactStages (j_ID j) (cr_Artifacts (j_Result j)) = Ok tt;
  jo_result r : committed j = true → dk_results d !! j_ID j = Some r → r = record_of j;
}.

(** At most one journal: [Commit] recovers before it writes its own. *)
Inductive disk_wf (d : Disk) : Prop :=
  | disk_idle : dk_journals d = ∅ → disk_wf d
  | disk_pending j : dk_journals d = {[j_ID j := j]} → journal_ok j d → disk_wf d.

(** The disk stands for [s]. *)
Definition stands (s : Settled) (d : Disk) : Prop := disk_wf d ∧ settle d = s.

Lemma journal_names_empty d : dk_journals d = ∅ → journal_names d = [].
Proof. unfold journal_names. by intros ->. Qed.

Lemma journal_names_one d id j : dk_journals d = {[id := j]} → journal_names d = [id].
Proof. unfold journal_names. intros ->. by rewrite map_to_list_singleton. Qed.

Lemma settle_idle d : dk_journals d = ∅ → settle d = (dk_files d, dk_results d).
Proof. intros Hd. unfold settle. by rewrite journal_names_empty. Qed.

Lemma settle_pending d j : dk_journals d = {[j_ID j := j]} → settle d = settle_journal j (dk_files d, dk_results d).
Proof. intros Hd. unfold settle. rewrite (journal_names_one d (j_ID j) j Hd), Hd. simpl. by rewrite lookup_singleton_eq. Qed.

Lemma add_path_NoDup name ms seen seen' :
  foldM (add_path name) seen ms = Ok seen' → NoDup (paths_of ms) ∧ ∀ p, p ∈ paths_of ms → p ∉ seen.
Proof.
  revert seen. induction ms as [|m ms IH]; intros seen H; simpl in H.
  - split; [constructor|]. intros p Hp. by apply not_elem_of_nil in Hp.
  - apply result_bind_Ok in H as (s1 & Ha & H). apply IH in H as [Hnd Hs].
    unfold add_path in Ha. store_inv. subst. simpl. split.
    + apply NoDup_cons. split; [|done]. intros Hp. apply Hs in Hp. set_solver.
    + intros p Hp. apply elem_of_cons in Hp as [->|Hp]; [done|]. apply Hs in Hp. set_solver.
Qed.

Lemma valid_NoDup name j : validateJournal name j = Ok tt → NoDup (paths_of (j_Mutations j)).
Proof.
  intros H. unfold validateJournal in H. result_inv.
  match goal with Hf : foldM _ _ _ = Ok _ |- _ => exact (proj1 (add_path_NoDup _ _ _ _ Hf)) end.
Qed.

(** ** A journal being carried out *)

(** The journal is on the disk, alone, and the disk stands for [s]. *)
Record under (j : transactionJournal) (s : Settled) (d : Disk) : Prop := {
  un_journal : dk_journals d = {[j_ID j := j]};
  un_ok : journal_ok j d;
  un_settled : settle_journal j (dk_files d, dk_results d) = s;
}.

Lemma under_stands j s d : under j s d → stands s d.
Proof.
  intros [Hj Hok Hs]. split; [by eapply disk_pending|]. by rewrite (settle_pending d j).
Qed.

Lemma under_file j s d b m :
  under j s d → m ∈ j_Mutations j → under j s (with_files (set_file (mu_Path m) (image b m) (dk_files d)) d).
Proof.
  intros [Hj [Hv Hst Hr] Hs] Hm. split; [done|by split|].
  rewrite <-Hs. unfold settle_journal. simpl. f_equal.
  apply write_images_set; [by apply (valid_NoDup (j_ID j))|done].
Qed.

Lemma under_result j s d :
  under j s d → committed j = true → dk_results d !! j_ID j = None →
  under j s (with_results (<[j_ID j := record_of j]> (dk_results d)) d).
Proof.
  intros [Hj [Hv Hst Hr] Hs] Hc Hn. split; [done| |].
  - split; [done|done|]. simpl. intros r _. rewrite lookup_insert_eq. by intros [= <-].
  - rewrite <-Hs. unfold settle_journal. simpl. by rewrite Hc, lookup_insert_eq, Hn.
Qed.

(** The files are as the journal wants them and its result is filed. *)
Definition carried (j : transactionJournal) (d : Disk) : Prop :=
  write_images (committed j) (j_Mutations j) (dk_files d) = dk_files d ∧
  (committed j = true → is_Some (dk_results d !! j_ID j)).

Lemma under_remove j s d :
  under j s d → carried j d → stands s (with_journals (delete (j_ID j) (dk_journals d)) d).
Proof.
  intros [Hj _ Hs] [Hf Hr].
  assert (dk_journals (with_journals (delete (j_ID j) (dk_journals d)) d) = ∅) as He.
  { simpl. rewrite Hj. apply delete_singleton_eq. }
  split; [by apply disk_idle|]. rewrite settle_idle by done. simpl.
  rewrite <-Hs. unfold settle_journal. simpl. rewrite Hf. f_equal.
  destruct (committed j); [|done]. by destruct (Hr eq_refl) as [r ->].
Qed.

Section recovery.
Context (ok : Fault → bool).

(** What an interrupted run leaves; only a fault interrupts. *)
Definition broken (s : Settled) (d : Disk) : Prop := stands s d ∧ ¬ calm ok.

Lemma apply_items_triple j s f0 b items :
  (∀ m, m ∈ items → m ∈ j_Mutations j) →
  triple ok (λ d, under j s d ∧ dk_files d = f0)
    (apply_items b items)
    (λ errs d, under j s d ∧ (errs = [] → dk_files d = write_images b items f0) ∧ (errs ≠ [] → ¬ calm ok))
    (broken s).
Proof.
  revert f0. induction items as [|m items IH]; intros f0 Hin.
  - apply triple_ret. by intros d [??].
  - simpl. eapply triple_bind with (R := λ r d, under j s d ∧
      (r = Ok tt → dk_files d = set_file (mu_Path m) (image b m) f0) ∧ (r ≠ Ok tt → ¬ calm ok)).
    { assert (m ∈ j_Mutations j) as Hm by (apply Hin; apply elem_of_cons; by left).
      apply triple_mutate.
      - intros d [Hu <-]. split_and!; [by apply under_file|done|done].
      - intros d [Hu Hf] Hc. split_and!; [done|done|done| |].
        + split; [by eapply under_stands|done].
        + split; [|done]. eapply under_stands. by apply under_file.
      - intros d [Hu Hf] Ha. split_and!; [by apply under_file|done|].
        intros _ Hc. by apply Hc in Ha. }
    intros r. set (f1 := set_file (mu_Path m) (image b m) f0).
    eapply triple_bind with (R := λ errs d, under j s d ∧
      (r = Ok tt → errs = [] → dk_files d = write_images b items f1) ∧ (r ≠ Ok tt ∨ errs ≠ [] → ¬ calm ok)).
    + intros d φ (Hu & Hf & Hc) Hφ.
      destruct (IH (dk_files d) ltac:(intros x Hx; apply Hin; apply elem_of_cons; by right) d φ (conj Hu eq_refl) Hφ) as [Hok Hr].
      split; [done|]. destruct (apply_items b items d φ).2 as [errs|]; [|done].
      destruct Hr as (H1 & H2 & H3). split_and!; [done| |tauto].
      intros Hr He. rewrite H2 by done. by rewrite Hf.
    + intros errs. apply triple_ret. intros d (Hu & Hf & Hc). destruct r as [[]|e].
      * split_and!; [done|by intros ->; apply Hf|]. intros He. apply Hc. by right.
      * split_and!; [done|done|]. intros _. apply Hc. by left.
Qed.

(** The record of a valid committed journal is one that loads. *)
Lemma load_own j d :
  validateJournal (j_ID j) j = Ok tt → validateArtifactStages (j_ID j) (cr_Artifacts (j_Result j)) = Ok tt →
  committed j = true → dk_results d !! j_ID j = Some (record_of j) →
  loadTransactionResultLocked (j_ID j) d = Ok (Some (record_of j)).
Proof.
  intros Hv Hst Hc Hr. unfold loadTransactionResultLocked. rewrite Hr. simpl.
  unfold committed in Hc. apply bool_decide_eq_true in Hc. unfold validateJournal in Hv.
  rewrite Hc in Hv. store_inv. rewrite Hst.
  repeat match goal with Hx : _ = _ |- _ => rewrite Hx end. simpl.
  by rewrite !bool_decide_true.
Qed.

Lemma save_triple j s f :
  committed j = true →
  triple ok (λ d, under j s d ∧ dk_files d = f)
    (saveTransactionResultLocked j)
    (λ r d, under j s d ∧ dk_files d = f ∧ (r = Ok tt → is_Some (dk_results d !! j_ID j)) ∧ (r ≠ Ok tt → ¬ calm ok))
    (broken s).
Proof.
  intros Hc. unfold saveTransactionResultLocked.
  eapply triple_mr_bind with (R := λ r d, under j s d ∧ dk_files d = f ∧
    match r with
    | Ok true => is_Some (dk_results d !! j_ID j)
    | Ok false => dk_results d !! j_ID j = None
    | Err _ => ¬ calm ok
    end).
  - apply triple_fetch.
    + intros d [Hu Hf]. split; [done|]. split; [done|]. destruct (un_ok _ _ _ Hu) as [Hv Hst Hr].
      destruct (dk_results d !! j_ID j) as [r|] eqn:E.
      * rewrite (Hr r Hc eq_refl) in E. rewrite (load_own j d) by done. simpl.
        rewrite (bool_decide_true (j_Fingerprint j = _)) by done. by eexists.
      * unfold loadTransactionResultLocked. by rewrite E.
    + intros d [Hu Hf] Hn. split; [done|]. split; [by eapply under_stands|done].
  - intros [].
    + apply triple_ret. intros d (Hu & Hf & Hs). by split_and!.
    + apply triple_mutate.
      * intros d (Hu & Hf & Hn). split_and!; [by apply under_result|done| |done]. intros _. simpl.
        rewrite lookup_insert_eq. by eexists.
      * intros d (Hu & Hf & Hn) Hx. split_and!; [done|done|done|done| |].
        -- split; [by eapply under_stands|done].
        -- split; [|done]. eapply under_stands. by apply under_result.
      * intros d (Hu & Hf & Hn) Ha. split_and!; [by apply under_result|done|done|]. intros _ Hx. by apply Hx in Ha.
  - intros e d (Hu & Hf & Hx). by split_and!.
Qed.

Lemma remove_triple j s :
  triple ok (λ d, under j s d ∧ carried j d) (removeJournal (j_ID j))
    (λ r d, stands s d ∧ (r = Ok tt → dk_journals d = ∅) ∧ (r ≠ Ok tt → ¬ calm ok))
    (broken s).
Proof.
  assert (∀ d, under j s d → dk_journals (with_journals (delete (j_ID j) (dk_journals d)) d) = ∅) as He.
  { intros d Hu. simpl. rewrite (un_journal _ _ _ Hu). apply delete_singleton_eq. }
  apply triple_mutate.
  - intros d [Hu Hc]. split_and!; [by apply under_remove|by auto|done].
  - intros d [Hu Hc] Hn. split_and!; [by eapply under_stands|done|done| |].
    + split; [by eapply under_stands|done].
    + split; [by apply under_remove|done].
  - intros d [Hu Hc] Ha. split_and!; [by apply under_remove|done|]. intros _ Hx. by apply Hx in Ha.
Qed.

(** What a run of recovery leaves behind. *)
Definition recovered (s : Settled) (r : result file_error unit) (d : Disk) : Prop :=
  stands s d ∧ (r = Ok tt → dk_journals d = ∅) ∧ (r ≠ Ok tt → ¬ calm ok).

(** [applyTransactionMutations], the journal's own list in either order. *)
Lemma apply_triple j s :
  triple ok (under j s) (applyTransactionMutations (j_Mutations j) (committed j))
    (λ errs d, under j s d ∧
       (errs = [] → write_images (committed j) (j_Mutations j) (dk_files d) = dk_files d) ∧ (errs ≠ [] → ¬ calm ok))
    (broken s).
Proof.
  intros d φ Hu Hφ. unfold applyTransactionMutations.
  set (items := if committed j then j_Mutations j else reverse (j_Mutations j)).
  assert (items ≡ₚ j_Mutations j) as Hp by (unfold items; destruct (committed j); [done|apply reverse_Permutation]).
  destruct (apply_items_triple j s (dk_files d) (committed j) items ltac:(by intros m; rewrite Hp) d φ (conj Hu eq_refl) Hφ) as [Hok Hr].
  split; [done|]. destruct (apply_items (committed j) items d φ).2 as [errs|]; [|done].
  destruct Hr as (H1 & H2 & H3). split_and!; [done| |done].
  intros He. rewrite (H2 He). assert (NoDup (paths_of (j_Mutations j))) as Hnd.
  { apply (valid_NoDup (j_ID j)). apply (un_ok _ _ _ Hu). }
  rewrite (write_images_perm _ items (j_Mutations j)); [by apply write_images_twice|done|].
  unfold paths_of in *. by rewrite Hp.
Qed.

Lemma recover_journal_triple j s :
  triple ok (under j s) (recover_journal (j_ID j)) (recovered s) (broken s).
Proof.
  unfold recover_journal.
  eapply triple_mr_bind with (R := λ r d, under j s d ∧ match r with Ok j' => j' = j | Err _ => ¬ calm ok end).
  { apply triple_fetch.
    - intros d Hu. split; [done|]. rewrite (un_journal _ _ _ Hu), lookup_singleton_eq.
      by rewrite (jo_valid _ _ (un_ok _ _ _ Hu)).
    - intros d Hu Hn. split; [by split|]. split; [by eapply under_stands|done]. }
  2:{ intros e d [Hu Hn]. split; [by eapply under_stands|]. by split. }
  intros j'. apply triple_pure. intros ->.
  eapply triple_mr_bind with (R := λ r d, under j s d ∧
    (r = Ok tt → write_images (committed j) (j_Mutations j) (dk_files d) = dk_files d) ∧ (r ≠ Ok tt → ¬ calm ok)).
  { eapply triple_bind.
    - eapply triple_weaken; [apply apply_triple|done|by intros ?? Hx; exact Hx|done].
    - intros errs. apply triple_ret. intros d (Hu & Hf & Hn). destruct errs as [|e errs]; simpl.
      + by split_and!; auto.
      + split_and!; [done|done|]. intros _. by apply Hn. }
  2:{ intros e d (Hu & _ & Hn). split; [by eapply under_stands|]. split; [done|by auto]. }
  intros [].
  eapply triple_mr_bind with (R := λ r d, under j s d ∧ (r = Ok tt → carried j d) ∧ (r ≠ Ok tt → ¬ calm ok)).
  { destruct (committed j) eqn:Hc.
    - intros d φ (Hu & Hf & _) Hφ.
      destruct (save_triple j s (dk_files d) Hc d φ (conj Hu eq_refl) Hφ) as [Hok Hr]. split; [done|].
      destruct (saveTransactionResultLocked j d φ).2 as [r|]; [|done].
      destruct Hr as (H1 & H2 & H3 & H4). split_and!; [done| |done]. intros Hr. split.
      + rewrite Hc, H2. by apply Hf.
      + intros _. by apply H3.
    - apply triple_ret. intros d (Hu & Hf & _). split_and!; [done| |done]. intros _. split.
      + rewrite Hc. by apply Hf.
      + by rewrite Hc. }
  2:{ intros e d (Hu & _ & Hn). split; [by eapply under_stands|]. split; [done|by auto]. }
  intros []. eapply triple_weaken; [apply remove_triple| |by intros ?? Hx; exact Hx|done].
  intros d (Hu & Hc & _). split; [done|by auto].
Qed.

(** A recovery changes nothing the disk stands for, however it ends; when it
    ends well no journal is left, and only a fault makes it fail. *)
Lemma recover_triple s : triple ok (stands s) recoverLocked (recovered s) (broken s).
Proof.
  intros d φ [[He|j Hj Hok] Hs] Hφ.
  - revert d φ He Hs Hφ. 
    assert (triple ok (λ d, dk_journals d = ∅ ∧ settle d = s) recoverLocked (recovered s) (broken s)) as Ht.
    { eapply triple_mr_bind with (R := λ r d, (dk_journals d = ∅ ∧ settle d = s) ∧ match r with Ok l => l = [] | Err _ => ¬ calm ok end).
      - apply triple_fetch.
        + intros d [He Hs]. by rewrite journal_names_empty.
        + intros d [He Hs] Hn. split; [done|]. split; [|done]. split; [by apply disk_idle|done].
      - intros l d φ [[He Hs] ->] Hφ. split; [done|]. simpl. split; [|done]. split; [by apply disk_idle|done].
      - intros e d [[He Hs] Hn]. split; [|by split]. split; [by apply disk_idle|done]. }
    intros d φ He Hs Hφ. by apply Ht.
  - assert (triple ok (under j s) recoverLocked (recovered s) (broken s)) as Ht.
    { eapply triple_mr_bind with (R := λ r d, under j s d ∧ match r with Ok l => l = [j_ID j] | Err _ => ¬ calm ok end).
      - apply triple_fetch.
        + intros d0 Hu. split; [done|]. by rewrite (journal_names_one _ _ _ (un_journal _ _ _ Hu)).
        + intros d0 Hu Hn. split; [by split|]. split; [by eapply under_stands|done].
      - intros l d0 φ0 [Hu ->] Hφ0. revert d0 φ0 Hu Hφ0. simpl.
        assert (triple ok (under j s) (let! _ := recover_journal (j_ID j) in mret (M:=M) (Ok tt)) (recovered s) (broken s)) as Hx; [|exact Hx].
        eapply triple_mr_bind; [apply recover_journal_triple| |done].
        intros []. by apply triple_ret.
      - intros e d0 [Hu Hn]. split; [by eapply under_stands|]. by split. }
    apply Ht; [|done]. split; [done|done|]. by rewrite <-(settle_pending d j).
Qed.

(** ** Carrying out a commit *)

Lemma triple_or_answer {A} (P : Disk → Prop) (m : MR A) (R : result file_error A → Disk → Prop) fail k Q C :
  triple ok P m R C → (∀ e, triple ok (R (Err e)) (fail e) Q C) → (∀ a, triple ok (R (Ok a)) (k a) Q C) →
  triple ok P (or_answer m fail k) Q C.
Proof. intros Hm He Hk. eapply triple_bind; [exact Hm|]. by intros [a|e]. Qed.

(** A prepared journal for the disk [(F, R)]. *)
Record prepared (j : transactionJournal) (F : Files) (R : gmap string transactionResultRecord) : Prop := {
  pr_phase : j_Phase j = transactionPrepared;
  pr_result : j_Result j = MkCommitResult (j_ID j) TransactionNotStarted (cr_Run (j_Result j)) (cr_Artifacts (j_Result j));
  pr_stages : validateArtifactStages (j_ID j) (cr_Artifacts (j_Result j)) = Ok tt;
  pr_before m : m ∈ j_Mutations j → mu_Before m = F !! mu_Path m;
  pr_new : R !! j_ID j = None;
}.

(** The disk with the commit of [j]. *)
Definition committed_image (j : transactionJournal) (s : Settled) : Settled :=
  (write_images true (j_Mutations j) s.1, <[j_ID j := record_of (mark_committed j)]> s.2).

Definition idle (s : Settled) (d : Disk) : Prop := dk_journals d = ∅ ∧ (dk_files d, dk_results d) = s.

Lemma idle_stands s d : idle s d → stands s d.
Proof. intros [He Hs]. split; [by apply disk_idle|]. by rewrite settle_idle. Qed.

Section carry.
Context (j : transactionJournal) (F : Files) (R : gmap string transactionResultRecord) (Hp : prepared j F R).
Notation s0 := (F, R).
Notation s1 := (committed_image j (F, R)).

(** How a commit may end. *)
Definition ended (a : FileAnswer) (d : Disk) : Prop :=
  (stands s0 d ∨ stands s1 d) ∧
  (cr_Outcome (fa_Result a) = TransactionCommitted → stands s1 d ∧ fa_Result a = j_Result (mark_committed j)) ∧
  (cr_Outcome (fa_Result a) ≠ TransactionCommitted → cr_Outcome (fa_Result a) ≠ TransactionOutcomeUnknown →
   ok FailAfter = false → stands s0 d) ∧
  (fa_Errors a = [] → cr_Outcome (fa_Result a) = TransactionCommitted) ∧
  (calm ok → j_Mutations j = [] ∨ validateJournal (j_ID j) j = Ok tt → fa_Errors a = [] ∧ dk_journals d = ∅).

Definition cut_off (d : Disk) : Prop := (stands s0 d ∨ stands s1 d) ∧ ¬ calm ok.

Lemma not_committed : committed j = false.
Proof. unfold committed. rewrite (pr_phase _ _ _ Hp). done. Qed.

Lemma outcome_not_started : cr_Outcome (j_Result j) = TransactionNotStarted.
Proof. by rewrite (pr_result _ _ _ Hp). Qed.

Lemma ended_early a d : stands s0 d → ¬ calm ok ∨ (j_Mutations j ≠ [] ∧ validateJournal (j_ID j) j ≠ Ok tt) →
  fa_Errors a ≠ [] → cr_Outcome (fa_Result a) ≠ TransactionCommitted → ended a d.
Proof. intros Hd Hn He Ho. split_and!; [by left|done|done|done|]. intros Hc Hv. exfalso. tauto. Qed.

Lemma ended_unknown a d : stands s0 d ∨ stands s1 d → ¬ calm ok → fa_Errors a ≠ [] →
  cr_Outcome (fa_Result a) = TransactionOutcomeUnknown → ended a d.
Proof. intros Hd Hn He Ho. split_and!; [done|by rewrite Ho|by intros _ Hu|done|by intros]. Qed.

(** *** Without a file to change, the result is all there is to write. *)

Lemma carry_out_nothing : j_Mutations j = [] → triple ok (idle s0) (carry_out j) ended cut_off.
Proof.
  intros Hnil. unfold carry_out. rewrite bool_decide_true by done.
  assert (∀ d, idle s0 d → stands s1 (with_results (<[j_ID j := record_of (mark_committed j)]> (dk_results d)) d)) as Hdone.
  { intros d [He [= Hf Hr]]. apply idle_stands. split; [done|]. simpl. rewrite Hf, Hr.
    unfold committed_image. by rewrite Hnil. }
  eapply triple_or_answer with (R := λ r d, (stands s0 d ∨ stands s1 d) ∧
    (r = Ok tt → stands s1 d ∧ dk_journals d = ∅) ∧ (r ≠ Ok tt → ¬ calm ok)).
  - eapply triple_mr_bind with (R := λ r d, idle s0 d ∧ match r with Ok b => b = false | Err _ => ¬ calm ok end).
    + apply triple_fetch.
      * intros d Hd. split; [done|]. unfold loadTransactionResultLocked. destruct Hd as [_ [= _ ->]]. simpl.
        by rewrite (pr_new _ _ _ Hp).
      * intros d Hd Hn. split; [done|]. split; [left; by apply idle_stands|done].
    + intros b. apply triple_pure. intros ->. apply triple_mutate.
      * intros d Hd. split_and!; [right; by apply Hdone| |done]. intros _. split; [by apply Hdone|by destruct Hd].
      * intros d Hd Hn. split_and!; [left; by apply idle_stands|done|done| |].
        -- split; [left; by apply idle_stands|done].
        -- split; [right; by apply Hdone|done].
      * intros d Hd Ha. split_and!; [right; by apply Hdone|done|]. intros _ Hc. by apply Hc in Ha.
    + intros e d [Hd Hn]. split_and!; [left; by apply idle_stands|done|done].
  - intros e. apply triple_ret. intros d (Hd & _ & Hn). apply ended_unknown; [done|by apply Hn|done|done].
  - intros []. apply triple_ret. intros d (_ & Hd & _). destruct (Hd eq_refl) as [H1 He].
    split_and!; [by right|done|done|done|done].
Qed.

(** *** The journal and the files *)

Lemma valid_committed : validateJournal (j_ID j) j = Ok tt → validateJournal (j_ID j) (mark_committed j) = Ok tt.
Proof.
  unfold validateJournal. rewrite (pr_phase _ _ _ Hp). intros Hv. store_inv. simpl.
  repeat match goal with Hx : _ = _ |- _ => rewrite Hx end. by rewrite !bool_decide_true.
Qed.

Context (Hv : validateJournal (j_ID j) j = Ok tt).

Lemma prepared_under d : idle s0 d → under j s0 (with_journals (<[j_ID j := j]> (dk_journals d)) d).
Proof.
  intros [He [= Hf Hr]]. split.
  - simpl. rewrite He. done.
  - split; [done|apply Hp|]. intros r Hc. by rewrite not_committed in Hc.
  - unfold settle_journal. rewrite not_committed. simpl. rewrite Hf, Hr.
    rewrite write_images_before; [done|by apply (valid_NoDup (j_ID j))|apply Hp].
Qed.

(** The one effect that changes what the disk stands for. *)
Lemma commit_point d :
  under j s0 d → dk_files d = write_images true (j_Mutations j) F →
  under (mark_committed j) s1 (with_journals (<[j_ID j := mark_committed j]> (dk_journals d)) d).
Proof.
  intros [Hj Hok Hs] Hf. unfold settle_journal in Hs. rewrite not_committed in Hs. injection Hs as _ Hr.
  split.
  - simpl. rewrite Hj. apply insert_singleton_eq.
  - split; [by apply valid_committed|apply Hp|]. intros r _. simpl. rewrite Hr. by rewrite (pr_new _ _ _ Hp).
  - unfold settle_journal, committed_image. simpl. rewrite Hr, Hf, (pr_new _ _ _ Hp).
    by rewrite write_images_twice by (by apply (valid_NoDup (j_ID j))).
Qed.

Lemma write_prepared :
  triple ok (idle s0) (writeJournal j) (λ r d, stands s0 d ∧ (r = Ok tt → under j s0 d ∧ dk_files d = F) ∧ (r ≠ Ok tt → ¬ calm ok)) cut_off.
Proof.
  apply triple_mutate.
  - intros d Hd. split_and!; [eapply under_stands; by apply prepared_under| |done].
    intros _. split; [by apply prepared_under|]. by destruct Hd as [_ [= ? _]].
  - intros d Hd Hn. split_and!; [by apply idle_stands|done|done| |].
    + split; [left; by apply idle_stands|done].
    + split; [left; eapply under_stands; by apply prepared_under|done].
  - intros d Hd Ha. split_and!; [eapply under_stands; by apply prepared_under|done|].
    intros _ Hc. by apply Hc in Ha.
Qed.

Lemma apply_mutations :
  triple ok (λ d, under j s0 d ∧ dk_files d = F) (applyCommitMutations (j_Mutations j))
    (λ r d, under j s0 d ∧ (r = Ok tt → dk_files d = write_images true (j_Mutations j) F) ∧ (r ≠ Ok tt → ¬ calm ok)) cut_off.
Proof.
  set (I := λ l d, under j s0 d ∧ write_images true l (dk_files d) = write_images true (j_Mutations j) F ∧
                   ∀ m, m ∈ l → m ∈ j_Mutations j).
  eapply triple_weaken with (P' := I (j_Mutations j)) (C' := cut_off); [|intros d [? Hf]; unfold I; by rewrite Hf|by intros ?? Hx; exact Hx|done].
  apply triple_each.
  - intros m l. apply triple_mutate.
    + intros d (Hu & Hf & Hin). split_and!; [apply under_file; [done|]|done|]; [|intros x Hx]; apply Hin; set_solver.
    + intros d (Hu & Hf & Hin) Hn. split_and!; [done|done|done| |].
      * split; [left; by eapply under_stands|done].
      * split; [left; eapply under_stands, under_file; [done|]; apply Hin; set_solver|done].
    + intros d (Hu & Hf & Hin) Ha. split_and!; [apply under_file; [done|]; apply Hin; set_solver|done|].
      intros _ Hc. by apply Hc in Ha.
  - intros d (Hu & Hf & _). by split_and!.
Qed.

Lemma roll_back_triple j' s e :
  j_Mutations j' = j_Mutations j →
  triple ok (under j' s) (roll_back j e (j_Result j))
    (λ a d, stands s d ∧ fa_Errors a ≠ [] ∧
       (cr_Outcome (fa_Result a) = TransactionNotStarted ∨ cr_Outcome (fa_Result a) = TransactionOutcomeUnknown)) (broken s).
Proof.
  intros Hm. unfold roll_back, applyTransactionMutations. rewrite <-Hm. eapply triple_bind with (R := λ _, under j' s).
  - intros d φ Hu Hφ.
    assert (∀ m, m ∈ reverse (j_Mutations j') → m ∈ j_Mutations j') as Hin.
    { intros m. by rewrite (reverse_Permutation (j_Mutations j')). }
    destruct (apply_items_triple j' s (dk_files d) false _ Hin d φ (conj Hu eq_refl) Hφ) as [Hok Hr].
    split; [done|]. destruct (apply_items false (reverse (j_Mutations j')) d φ).2; [by destruct Hr|done].
  - intros errs. apply triple_ret. intros d Hu. split_and!; [by eapply under_stands|done|].
    case_bool_decide; [left; apply outcome_not_started|by right].
Qed.

Lemma finish_triple :
  triple ok (λ d, under (mark_committed j) s1 d ∧ dk_files d = write_images true (j_Mutations j) F)
    (finish_commit (mark_committed j)) ended cut_off.
Proof.
  assert (committed (mark_committed j) = true) as Hc by done.
  eapply triple_or_answer with (R := λ r d, under (mark_committed j) s1 d ∧
    (r = Ok tt → carried (mark_committed j) d) ∧ (r ≠ Ok tt → ¬ calm ok)).
  - eapply triple_weaken; [apply save_triple; exact Hc| |intros r d (Hu & Hf & Hr & Hn)|intros d [??]; split; [by right|done]].
    { intros d Hd. exact Hd. }
    split_and!; [done| |done]. intros Hok. split; [|by auto]. rewrite Hc, Hf. simpl.
    apply write_images_twice. by apply (valid_NoDup (j_ID j)).
  - intros e. apply triple_ret. intros d (Hu & _ & Hn).
    apply ended_unknown; [right; by eapply under_stands|by apply Hn|done|done].
  - intros []. eapply triple_or_answer with (R := λ r d, stands s1 d ∧ (r = Ok tt → dk_journals d = ∅) ∧ (r ≠ Ok tt → ¬ calm ok)).
    + eapply triple_weaken; [apply (remove_triple (mark_committed j))| |by intros ?? Hx; exact Hx|intros d [??]; split; [by right|done]].
      intros d (Hu & Hd & _). split; [done|by auto].
    + intros e. apply triple_ret. intros d (Hs & _ & Hn). split_and!; [by right|done|done|done|].
      intros Hcalm. by destruct (Hn ltac:(done)).
    + intros []. apply triple_ret. intros d (Hs & He & _). split_and!; [by right|done|done|done|].
      intros _ _. split; [done|by apply He].
Qed.

Lemma roll_back_ends j' s e :
  j_Mutations j' = j_Mutations j → ¬ calm ok → s = s0 ∨ s = s1 ∧ ok FailAfter = true →
  triple ok (under j' s) (roll_back j e (j_Result j)) ended cut_off.
Proof.
  intros Hm Hn Hs. assert (∀ d, stands s d → stands s0 d ∨ stands s1 d) as Hor.
  { intros d. destruct Hs as [->|[-> _]]; by auto. }
  eapply triple_weaken; [apply (roll_back_triple j' s e Hm)|done| |].
  - intros a d (Hd & He & Ho). split_and!; [by auto| | |done|done].
    + intros Hx. by destruct Ho as [Ho|Ho]; rewrite Ho in Hx.
    + intros _ _ Ha. destruct Hs as [->|[_ Hs]]; [done|by rewrite Hs in Ha].
  - intros d [Hd _]. by split; auto.
Qed.

Lemma carry_out_files : j_Mutations j ≠ [] → triple ok (idle s0) (carry_out j) ended cut_off.
Proof.
  intros Hne. unfold carry_out. rewrite bool_decide_false by done.
  assert (∀ e d, stands s0 d ∧ ¬ calm ok → ended (MkFileAnswer (j_Result j) [e]) d) as Hfail.
  { intros e d [Hs Hn]. apply ended_early; [done|by left|done|]. simpl. by rewrite outcome_not_started. }
  eapply triple_or_answer with (R := λ r d, idle s0 d ∧ (r ≠ Ok tt → ¬ calm ok)).
  { apply triple_mutate; [by intros d Hd| |].
    - intros d Hd Hn. pose proof (idle_stands _ _ Hd) as Hs. split; [by split|]. split; (split; [by left|done]).
    - intros d Hd Ha. split; [done|]. intros _ Hc. by apply Hc in Ha. }
  { intros e. apply triple_ret. intros d [Hd Hn]. apply Hfail. split; [by apply idle_stands|by apply Hn]. }
  intros []. rewrite Hv.
  eapply triple_or_answer with (R := λ r d, idle s0 d ∧ r = Ok tt).
  { apply triple_ret. by intros d [Hd _]. }
  { intros e. apply triple_ret. by intros d [_ ?]. }
  intros []. eapply triple_or_answer.
  { eapply triple_weaken; [apply write_prepared|by intros d [Hd _]|by intros ?? Hx; exact Hx|done]. }
  { intros e. apply triple_ret. intros d (Hd & _ & Hn). apply Hfail. split; [done|by apply Hn]. }
  intros []. eapply triple_or_answer.
  { eapply triple_weaken; [apply apply_mutations| |by intros ?? Hx; exact Hx|done]. intros d (_ & Hd & _). by apply Hd. }
  { intros e. eapply triple_weaken; [apply triple_pure; intros Hn; apply (roll_back_ends j s0 e eq_refl Hn)| | |].
    - by left.
    - intros d (Hu & _ & Hn). split; [exact Hu|by apply Hn].
    - done.
    - done. }
  intros []. eapply triple_or_answer with (R := λ r d,
    match r with
    | Ok _ => under (mark_committed j) s1 d ∧ dk_files d = write_images true (j_Mutations j) F
    | Err _ => (under j s0 d ∨ under (mark_committed j) s1 d ∧ ok FailAfter = true) ∧ ¬ calm ok
    end).
  { apply triple_mutate.
    - intros d (Hu & Hf & _). split; [apply commit_point; by auto|by apply Hf].
    - intros d (Hu & Hf & _) Hn. split_and!; [by left|done|split; [left; by eapply under_stands|done]|].
      split; [right; eapply under_stands, commit_point; by auto|done].
    - intros d (Hu & Hf & _) Ha. split; [right; split; [apply commit_point; by auto|done]|]. intros Hc. by apply Hc in Ha. }
  { intros e. apply triple_pure. intros Hn. apply triple_or.
    - apply roll_back_ends; [done|done|by left].
    - apply triple_pure. intros Ha. apply roll_back_ends; [done|done|by right]. }
  intros []. apply finish_triple.
Qed.
End carry.

Lemma carry_out_triple j F R :
  prepared j F R → triple ok (idle (F, R)) (carry_out j) (ended j F R) (cut_off j F R).
Proof.
  intros Hp. destruct (decide (j_Mutations j = [])) as [Hnil|Hne]; [by apply carry_out_nothing|].
  destruct (validateJournal (j_ID j) j) as [[]|e] eqn:Hv; [by apply carry_out_files|].
  unfold carry_out. rewrite bool_decide_false by done.
  eapply triple_or_answer with (R := λ r d, idle (F, R) d ∧ (r ≠ Ok tt → ¬ calm ok)).
  { apply triple_mutate; [by intros d Hd| |].
    - intros d Hd Hn. pose proof (idle_stands _ _ Hd). split; [by split|]. split; (split; [by left|done]).
    - intros d Hd Ha. split; [done|]. intros _ Hc. by apply Hc in Ha. }
  { intros e'. apply triple_ret. intros d [Hd Hn]. apply ended_early; [by apply idle_stands|left; by apply Hn|done|].
    simpl. by rewrite (outcome_not_started j F R). }
  intros []. rewrite Hv.
  eapply triple_or_answer with (R := λ r d, idle (F, R) d ∧ r = Err e).
  - apply triple_ret. by intros d [Hd _].
  - intros e'. apply triple_ret. intros d [Hd _]. apply ended_early; [by apply idle_stands|right; by rewrite Hv|done|done].
  - intros a d φ [_ Hx]. done.
Qed.
End recovery.

(** ** What is prepared *)

Definition mutations_wf (d : Disk) (ms : gmap Path transactionMutation) : Prop :=
  ∀ p m, ms !! p = Some m → mu_Path m = p ∧ mu_Before m = dk_files d !! p.

Lemma addMutation_wf d p x ms ms' : addMutation d p x ms = Ok ms' → mutations_wf d ms → mutations_wf d ms'.
Proof.
  unfold addMutation. intros H Hw. store_inv. subst. intros q m.
  destruct (decide (q = p)) as [->|Hn]; [rewrite lookup_insert_eq; by intros [= <-]|].
  rewrite lookup_insert_ne by done. apply Hw.
Qed.

Lemma prepared_mutations ctx c d p m :
  prepareJournalLocked ctx c d = Ok p → m ∈ p.1 → mu_Before m = dk_files d !! mu_Path m.
Proof.
  unfold prepareJournalLocked. intros H Hm.
  apply result_bind_Ok in H as ([ms0 out] & H0 & H). apply result_bind_Ok in H as (ms1 & H1 & H).
  apply result_bind_Ok in H as (ms2 & H2 & H). apply result_bind_Ok in H as (ev & H3 & H).
  apply result_bind_Ok in H as (ms3 & H4 & H). apply result_bind_Ok in H as (u & H5 & H). apply Ok_inj in H. subst p.
  assert (mutations_wf d ms0) as W0.
  { assert (mutations_wf d ∅) as We by (intros ? ?; by rewrite lookup_empty).
    unfold prepare_run in H0. destruct (c_Run c); [|by simplify_eq]. cbv zeta in H0.
    apply result_bind_Ok in H0 as ([run|] & _ & H0); [|by simplify_eq].
    apply result_bind_Ok in H0 as (ms & Ha & H0). simplify_eq. by eapply addMutation_wf. }
  assert (mutations_wf d ms1) as W1.
  { revert W0 H1. apply foldM_invariant. intros ms w ms' Hw Hs. unfold prepare_step in Hs. result_inv. by eapply addMutation_wf. }
  assert (mutations_wf d ms2) as W2.
  { revert W1 H2. apply foldM_invariant. intros ms w ms' Hw Hs. unfold prepare_checkpoint in Hs. result_inv. eauto using addMutation_wf. }
  assert (mutations_wf d ms3) as W3.
  { revert W2 H4. apply foldM_invariant. intros ms w ms' Hw Hs. unfold prepare_log in Hs. result_inv. by eapply addMutation_wf. }
  simpl in Hm. rewrite stable_sort_elem_of in Hm. apply list_elem_of_fmap in Hm as ([q m'] & -> & Hq).
  apply elem_of_map_to_list in Hq. destruct (W3 _ _ Hq) as [Hpath Hb].
  simpl. by rewrite Hpath.
Qed.

(** ** A commit, whatever fails *)

(** The abstract specification: a commit happens at once, or not at all. *)
Definition atomic_commit (ctx : Context) (fingerprint : string) (c : Commit) (s : Settled)
    : result file_error (Settled * CommitResult) :=
  let* p := prepareJournalLocked ctx c (MkDisk s.1 ∅ s.2) in
  let j := journal_of c fingerprint p in
  Ok (committed_image j s, j_Result (mark_committed j)).

Lemma validated_stages c u : validateRuntimeCommit c = Ok u → validateArtifactStages (c_TransactionID c) (c_Artifacts c) = Ok tt.
Proof.
  unfold validateRuntimeCommit. intros H. repeat (apply result_bind_Ok in H as (? & _ & H)). by destruct u.
Qed.

Lemma prepared_journal ctx c fp p s :
  prepareJournalLocked ctx c (MkDisk s.1 ∅ s.2) = Ok p → validateRuntimeCommit c = Ok tt → s.2 !! c_TransactionID c = None →
  prepared (journal_of c fp p) s.1 s.2.
Proof.
  intros Hp Hv Hn. split; simpl; try done; [by apply (validated_stages c tt)|].
  intros m Hm. exact (prepared_mutations _ _ _ _ _ Hp Hm).
Qed.

Section commits.
Context `{CommitDigest} (writer : option bool) (ctx : Context) (c : Commit) (fp : string) (s : Settled).
Context (ok : Fault → bool).
Notation id := (c_TransactionID c).

(** The commit is in [d], as the specification has it. *)
Definition now_committed (d : Disk) : Prop :=
  ∃ s' r, s.2 !! id = None ∧ atomic_commit ctx fp c s = Ok (s', r) ∧ stands s' d.

Definition all_or_nothing (d : Disk) : Prop := stands s d ∨ now_committed d.

Definition stopped (d : Disk) : Prop := all_or_nothing d ∧ ¬ calm ok.

(** What the answer of a commit says of the disk. *)
Definition truthful (a : FileAnswer) (d : Disk) : Prop :=
  (cr_Outcome (fa_Result a) = TransactionCommitted →
   ∃ rec, (settle d).2 !! id = Some rec ∧ rr_Fingerprint rec = fp ∧ rr_Result rec = fa_Result a ∧
     cr_TransactionID (fa_Result a) = id) ∧
  (cr_Outcome (fa_Result a) ≠ TransactionCommitted → cr_Outcome (fa_Result a) ≠ TransactionOutcomeUnknown →
   ok FailAfter = false → stands s d) ∧
  (fa_Errors a = [] → cr_Outcome (fa_Result a) = TransactionCommitted).

(** [fileCommit] after the checks that need no disk. *)
Definition commit_on_disk : M FileAnswer :=
  let start := not_started id in
  or_answer recoverLocked (λ e, answer (with_Outcome TransactionOutcomeUnknown start) [e]) (λ _,
  or_answer (fetch (loadTransactionResultLocked id)) (λ e, answer (with_Outcome TransactionOutcomeUnknown start) [e]) (λ stored,
  match stored with
  | Some r =>
    if bool_decide (rr_Fingerprint r = fp) then answer (rr_Result r) []
    else answer start [FInvalid id "fingerprint mismatch"]
  | None =>
    or_answer (fetch (prepareJournalLocked ctx c)) (λ e, answer start [e]) (λ p, carry_out (journal_of c fp p))
  end)).

Lemma stands_idle d : stands s d → dk_journals d = ∅ → idle s d.
Proof. intros [_ Hs] He. split; [done|]. by rewrite <-Hs, settle_idle. Qed.

Lemma idle_load d : idle s d → ∀ r, loadTransactionResultLocked id d = Ok r → r = s.2 !! id ∧
  match r with
  | Some rec => cr_Outcome (rr_Result rec) = TransactionCommitted ∧ cr_TransactionID (rr_Result rec) = id
  | None => True
  end.
Proof.
  intros [_ <-] r Hl. unfold loadTransactionResultLocked in Hl. simpl.
  destruct (dk_results d !! id) as [rec|]; [|by injection Hl as <-]. store_inv. simplify_eq. done.
Qed.

Lemma carry_out_commit p d0 :
  validateRuntimeCommit c = Ok tt → s.2 !! id = None → prepareJournalLocked ctx c d0 = Ok p → idle s d0 →
  triple ok (idle s) (carry_out (journal_of c fp p))
    (λ a d, all_or_nothing d ∧ truthful a d ∧
       (calm ok → p.1 = [] ∨ validateJournal id (journal_of c fp p) = Ok tt → fa_Errors a = [] ∧ dk_journals d = ∅))
    stopped.
Proof.
  intros Hv Hn Hp [He Hs]. assert (MkDisk s.1 ∅ s.2 = d0) as Hd by (destruct d0; simpl in *; by subst).
  rewrite <-Hd in Hp. assert (∀ d, stands (committed_image (journal_of c fp p) s) d → now_committed d) as Hnow.
  { intros d Hst. eexists _, _. split; [done|]. split; [|exact Hst]. unfold atomic_commit. by rewrite Hp. }
  assert (prepared (journal_of c fp p) s.1 s.2) as Hpr by exact (prepared_journal _ _ _ _ _ Hp Hv Hn).
  eapply triple_weaken; [apply (carry_out_triple ok _ s.1 s.2 Hpr)| | |].
  - intros d Hi. by destruct s.
  - intros a d. unfold ended. replace (s.1, s.2) with s by (by destruct s). intros (H1 & H2 & H3 & H4 & H5).
    split; [destruct H1; [by left|right; by apply Hnow]|]. split; [split_and!; [|exact H3|exact H4]|exact H5].
    intros Ho. destruct (H2 Ho) as [[_ Hst] Hr]. rewrite Hst. simpl. rewrite lookup_insert_eq.
    eexists. split_and!; [done|done|done|by rewrite Hr].
  - intros d. unfold cut_off. replace (s.1, s.2) with s by (by destruct s). intros [[Hst|Hst] Hn']; (split; [|done]); [by left|right; by apply Hnow].
Qed.

Lemma commit_on_disk_triple :
  validateRuntimeCommit c = Ok tt →
  triple ok (stands s) commit_on_disk
    (λ a d, all_or_nothing d ∧ truthful a d ∧
       (∀ p, calm ok → s.2 !! id = None → prepareJournalLocked ctx c (MkDisk s.1 ∅ s.2) = Ok p →
          p.1 = [] ∨ validateJournal id (journal_of c fp p) = Ok tt → fa_Errors a = [] ∧ dk_journals d = ∅))
    stopped.
Proof.
  intros Hv. unfold commit_on_disk. eapply triple_or_answer.
  { eapply triple_weaken; [apply recover_triple|done|by intros ?? Hx; exact Hx|intros d [? ?]; split; [by left|done]]. }
  { intros e. apply triple_ret. intros d (Hs & _ & Hn). split; [by left|]. split; [done|].
    intros p Hc. by destruct (Hn ltac:(done)). }
  intros []. eapply triple_or_answer with (R := λ r d, idle s d ∧
    match r with
    | Ok r => r = s.2 !! id ∧
        match r with
        | Some rec => cr_Outcome (rr_Result rec) = TransactionCommitted ∧ cr_TransactionID (rr_Result rec) = id
        | None => True
        end
    | Err _ => is_Some (s.2 !! id) ∨ ¬ calm ok
    end).
  { apply triple_fetch.
    - intros d (Hs & He & _). assert (idle s d) as Hi by (apply stands_idle; by auto). split; [done|].
      destruct (loadTransactionResultLocked id d) eqn:Hl; [by apply (idle_load d)|].
      left. destruct Hi as [_ <-]. unfold loadTransactionResultLocked in Hl. simpl.
      destruct (dk_results d !! id); [by eexists|done].
    - intros d (Hs & He & _) Hn. split; [|split; [by left|done]]. split; [apply stands_idle; by auto|by right]. }
  { intros e. apply triple_ret. intros d [Hi Hn]. split; [left; by apply idle_stands|]. split; [done|].
    intros p Hc Hnone. destruct Hn as [[? Hx]|Hn]; [by rewrite Hx in Hnone|done]. }
  intros [rec|].
  { apply triple_pure. intros [Hrec [Hcm Hid]].
    case_bool_decide as Hfp; apply triple_ret; intros d Hi.
    - split; [left; by apply idle_stands|]. split; [|by intros p _ Hx; rewrite Hx in Hrec].
      split_and!; [|by intros Hx|done]. intros _. exists rec. destruct (idle_stands _ _ Hi) as [_ ->]. done.
    - split; [left; by apply idle_stands|]. split; [|by intros p _ Hx; rewrite Hx in Hrec].
      split_and!; [done| |done]. intros _ _ _. by apply idle_stands. }
  apply triple_pure. intros [Hnone _].
  eapply triple_or_answer with (R := λ r d, idle s d ∧ match r with
    | Ok p => prepareJournalLocked ctx c (MkDisk s.1 ∅ s.2) = Ok p
    | Err _ => ¬ calm ok ∨ ∃ e, prepareJournalLocked ctx c (MkDisk s.1 ∅ s.2) = Err e end).
  { apply triple_fetch.
    - intros d Hi. split; [done|]. assert (MkDisk s.1 ∅ s.2 = d) as <- by (destruct d, Hi; simpl in *; by subst).
      destruct (prepareJournalLocked _ _ _); [done|right; by eexists].
    - intros d Hi Hn. split; [by split; [|left]|]. split; [left; by apply idle_stands|done]. }
  { intros e. apply triple_ret. intros d [Hi Hn]. split; [left; by apply idle_stands|]. split.
    - split_and!; [done| |done]. intros _ _ _. by apply idle_stands.
    - intros p Hc _ Hp. destruct Hn as [Hn|[e' Hn]]; [done|by rewrite Hp in Hn]. }
  intros p. apply triple_pure. intros Hp.
  eapply triple_weaken; [apply (carry_out_commit p (MkDisk s.1 ∅ s.2)); try done; by split; [|destruct s]|done| |done].
  intros a d (H1 & H2 & H3). split_and!; [done|done|]. intros p' Hc _ Hp' Hx. apply H3; [done|].
  rewrite Hp in Hp'. by injection Hp' as ->.
Qed.
End commits.

(** ** Properties *)

Lemma atomic_commit_result ctx fp c s s' r :
  atomic_commit ctx fp c s = Ok (s', r) → s'.2 !! c_TransactionID c = Some (MkResultRecord fp r).
Proof. unfold atomic_commit. intros Ha. result_inv. simplify_eq. simpl. by rewrite lookup_insert_eq. Qed.

Section properties.
Context `{CommitDigest} (writer : option bool) (ctx : Context) (freshID : string) (c : Commit).
Notation c' := (sanitizeCommit ctx (ensureCommitTransactionID freshID c)).
Notation id := (c_TransactionID c').

(** The faults a schedule has. *)
Definition among (φ : list Fault) (f : Fault) : bool := bool_decide (f ∈ φ).

Lemma among_all φ : Forall (λ f, among φ f = true) φ.
Proof. apply Forall_forall. intros f Hf. by apply bool_decide_eq_true. Qed.

Lemma among_calm φ : Forall (λ f, f = Fine) φ → calm (among φ).
Proof. intros Hφ f Hf. apply bool_decide_eq_true in Hf. by eapply Forall_forall in Hφ. Qed.

Lemma fileCommit_checked d φ fp :
  check_commit writer ctx c' = Ok fp → fileCommit writer ctx freshID c d φ = commit_on_disk ctx c' fp d φ.
Proof. intros Hc. unfold fileCommit. cbv zeta. by rewrite Hc. Qed.

Lemma fileCommit_refused d φ e :
  check_commit writer ctx c' = Err e → fileCommit writer ctx freshID c d φ = (d, φ, Some (MkFileAnswer (not_started id) [e])).
Proof. intros Hc. unfold fileCommit. cbv zeta. by rewrite Hc. Qed.

Lemma check_commit_Ok fp :
  check_commit writer ctx c' = Ok fp → validateRuntimeCommit c' = Ok tt ∧ commitFingerprint c' = Some fp.
Proof.
  unfold check_commit, lift_file. intros Hc. result_inv.
  destruct (validateRuntimeCommit c') as [[]|]; [|done].
  destruct (commitFingerprint c') as [fp'|]; [|done]. result_inv. by subst.
Qed.

Lemma fileCommit_wf d φ : disk_wf d → disk_wf (fileCommit writer ctx freshID c d φ).1.1.
Proof.
  intros Hw. destruct (check_commit writer ctx c') as [fp|e] eqn:Hk; [|by rewrite (fileCommit_refused _ _ e Hk)].
  destruct (check_commit_Ok _ Hk) as [Hv _]. rewrite (fileCommit_checked _ _ fp Hk).
  destruct (commit_on_disk_triple ctx c' fp (settle d) (among φ) Hv d φ (conj Hw eq_refl) (among_all φ)) as [_ Hr].
  destruct (commit_on_disk ctx c' fp d φ) as [[d' φ'] o]. simpl in *.
  assert (all_or_nothing ctx c' fp (settle d) d') as [[? _]|(? & ? & _ & _ & [? _])] by (destruct o; by destruct Hr); done.
Qed.

(** Everything a commit does and says. *)
Lemma file_commit_all d φ s :
  stands s d →
  let d' := (fileCommit writer ctx freshID c d φ).1.1 in
  (stands s d' ∨
   ∃ fp s' r, commitFingerprint c' = Some fp ∧ s.2 !! id = None ∧ atomic_commit ctx fp c' s = Ok (s', r) ∧ stands s' d') ∧
  match (fileCommit writer ctx freshID c d φ).2 with
  | None => True
  | Some a =>
    (cr_Outcome (fa_Result a) = TransactionCommitted →
     cr_TransactionID (fa_Result a) = id ∧
     ∃ rec, (settle d').2 !! id = Some rec ∧ commitFingerprint c' = Some (rr_Fingerprint rec) ∧ rr_Result rec = fa_Result a) ∧
    (cr_Outcome (fa_Result a) ≠ TransactionCommitted → cr_Outcome (fa_Result a) ≠ TransactionOutcomeUnknown →
     FailAfter ∉ φ → stands s d') ∧
    (fa_Errors a = [] → cr_Outcome (fa_Result a) = TransactionCommitted)
  end.
Proof.
  intros Hs. cbv zeta. destruct (check_commit writer ctx c') as [fp|e] eqn:Hk; cycle 1.
  { rewrite (fileCommit_refused _ _ e Hk). split; [by left|]. by split_and!. }
  destruct (check_commit_Ok _ Hk) as [Hv Hfp]. rewrite (fileCommit_checked _ _ fp Hk).
  destruct (commit_on_disk_triple ctx c' fp s (among φ) Hv d φ Hs (among_all φ)) as [_ Hr].
  destruct (commit_on_disk ctx c' fp d φ) as [[d' φ'] o]. simpl in *. split.
  - assert (all_or_nothing ctx c' fp s d') as [Hd|(s' & r & Hn & Ha & Hd)] by (destruct o; by destruct Hr); [by left|].
    right. by exists fp, s', r.
  - destruct o as [a|]; [|done]. destruct Hr as (_ & (H1 & H2 & H3) & _). split_and!; [|intros Ho Hu Ha|done].
    + intros Ho. destruct (H1 Ho) as (rec & Hrec & <- & Hres & Hid). split; [done|]. by exists rec.
    + apply H2; [done..|]. by apply bool_decide_eq_false.
Qed.

(** C20: a commit is atomic under any faults: whatever write fails, before or after its effect, and
    wherever the process stops, the disk stands for what it stood for or for that with the whole commit
    in it, its result filed under its identifier *)
Theorem file_commit_atomic d φ s d' φ' o :
  stands s d → fileCommit writer ctx freshID c d φ = (d', φ', o) →
  stands s d' ∨
  ∃ fp s' r, commitFingerprint c' = Some fp ∧ s.2 !! id = None ∧
    atomic_commit ctx fp c' s = Ok (s', r) ∧ s'.2 !! id = Some (MkResultRecord fp r) ∧ stands s' d'.
Proof.
  intros Hs Hc. destruct (file_commit_all d φ s Hs) as [Hd _]. rewrite Hc in Hd. simpl in Hd.
  destruct Hd as [Hd|(fp & s' & r & Hfp & Hn & Ha & Hd)]; [by left|right]. exists fp, s', r.
  split_and!; [done..| |done]. exact (atomic_commit_result _ _ _ _ _ _ Ha).
Qed.

(** C22: the answer of a commit is true: when it says committed, the disk stands for a state that has this
    very result under the identifier and the fingerprint of the commit; when it says not started and
    no write failed after its effect, the disk stands for what it stood for; without an error it says committed *)
Theorem file_commit_answer d φ s d' φ' a :
  stands s d → fileCommit writer ctx freshID c d φ = (d', φ', Some a) →
  (cr_Outcome (fa_Result a) = TransactionCommitted →
   cr_TransactionID (fa_Result a) = id ∧
   ∃ rec, (settle d').2 !! id = Some rec ∧ commitFingerprint c' = Some (rr_Fingerprint rec) ∧ rr_Result rec = fa_Result a) ∧
  (cr_Outcome (fa_Result a) ≠ TransactionCommitted → cr_Outcome (fa_Result a) ≠ TransactionOutcomeUnknown →
   FailAfter ∉ φ → stands s d') ∧
  (fa_Errors a = [] → cr_Outcome (fa_Result a) = TransactionCommitted).
Proof.
  intros Hs Hc. destruct (file_commit_all d φ s Hs) as [_ Ha]. by rewrite Hc in Ha.
Qed.

(** a commit that no fault disturbs completes: when its checks pass and it prepares a journal that
    validates, it answers committed without an error and leaves no journal, and the files and the results are
    those of the specification *)
Theorem file_commit_completes d φ s fp p :
  stands s d → Forall (λ f, f = Fine) φ →
  check_commit writer ctx c' = Ok fp → s.2 !! id = None →
  prepareJournalLocked ctx c' (MkDisk s.1 ∅ s.2) = Ok p →
  p.1 = [] ∨ validateJournal id (journal_of c' fp p) = Ok tt →
  ∃ d' φ' s' r, fileCommit writer ctx freshID c d φ = (d', φ', Some (MkFileAnswer r [])) ∧
    cr_Outcome r = TransactionCommitted ∧ dk_journals d' = ∅ ∧
    atomic_commit ctx fp c' s = Ok (s', r) ∧ (dk_files d', dk_results d') = s'.
Proof.
  intros Hs Hφ Hk Hn Hp Hj. destruct (check_commit_Ok _ Hk) as [Hv _]. rewrite (fileCommit_checked _ _ fp Hk).
  destruct (commit_on_disk_triple ctx c' fp s (among φ) Hv d φ Hs (among_all φ)) as [_ Hr].
  destruct (commit_on_disk ctx c' fp d φ) as [[d' φ'] [[r errs]|]] eqn:E; simpl in Hr;
    [|by destruct Hr as [_ []]; apply among_calm].
  destruct Hr as (Hd & (H1 & _ & H3) & H4).
  destruct (H4 p (among_calm _ Hφ) Hn Hp Hj) as [-> He]. pose proof (H3 eq_refl) as Ho.
  destruct (H1 Ho) as (rec & Hrec & _ & Hr & _). simpl in Hr. subst r.
  destruct Hd as [[_ Hd]|(s' & r & _ & Ha & Hw & Hd)]; [by rewrite Hd, Hn in Hrec|].
  exists d', φ', s', r. assert (rr_Result rec = r) as Hrr.
  { rewrite Hd, (atomic_commit_result _ _ _ _ _ _ Ha) in Hrec. by injection Hrec as <-. }
  split_and!; [by rewrite Hrr|by rewrite <-Hrr|done|done|by rewrite <-Hd, settle_idle].
Qed.
End properties.

(** A recovery that was cut off, or failed, or ended. *)
Definition recovery_attempt (d d' : Disk) : Prop := ∃ φ, (recoverLocked d φ).1.1 = d'.

Lemma recovery_attempt_stands s d d' : recovery_attempt d d' → stands s d → stands s d'.
Proof.
  intros [φ <-] Hs. destruct (recover_triple (among φ) s d φ Hs (among_all φ)) as [_ Hr].
  destruct (recoverLocked d φ) as [[d' φ'] [r|]]; by destruct Hr.
Qed.

(** C21: recovery completes and loses nothing: after any number of recoveries that faults or crashes cut off
    anywhere, one that is left alone ends without an error and without a journal, and the disk
    is exactly what the first one found it to stand for *)
Theorem recovery_completes s d d' φ :
  stands s d → rtc recovery_attempt d d' → Forall (λ f, f = Fine) φ →
  ∃ φ', recoverLocked d' φ = (MkDisk s.1 ∅ s.2, φ', Some (Ok tt)).
Proof.
  intros Hs Hr Hφ. assert (stands s d') as Hs'.
  { induction Hr as [|d1 d2 d3 H1 _ IH]; [done|]. apply IH. by eapply recovery_attempt_stands. }
  destruct (recover_triple (among φ) s d' φ Hs' (among_all φ)) as [_ Hx].
  pose proof (among_calm φ Hφ) as Hc.
  destruct (recoverLocked d' φ) as [[d2 φ2] [r|]]; simpl in Hx; [|by destruct Hx].
  destruct Hx as ([_ Hd] & He & Hn). exists φ2.
  assert (r = Ok tt) as -> by (destruct r as [[]|]; [done|by destruct (Hn ltac:(done))]).
  rewrite settle_idle in Hd by auto. specialize (He eq_refl). destruct d2; simpl in *; by subst.
Qed.

(** ** Concrete runs *)

Section demo.
#[local] Existing Instance demo_digest.

Definition empty_disk : Disk := MkDisk ∅ ∅ ∅.

Definition disk_after {A} (m : M A) (d : Disk) (φ : list Fault) : Disk := (m d φ).1.1.
Definition value_of {A} (m : M A) (d : Disk) (φ : list Fault) : option A := (m d φ).2.
Definition fault_at (n : nat) (f : Fault) : list Fault := repeat Fine n ++ [f].

Definition demo_put : M FileAnswer := fileCommit (Some false) Background "tx-0" demo_commit.
Definition demo_prepared : list transactionMutation * option RunRecord :=
  match prepareJournalLocked Background (sanitizeCommit Background demo_commit) empty_disk with
  | Ok p => p | Err _ => ([], None) end.

Lemma empty_stands : stands (∅, ∅) empty_disk.
Proof. by apply idle_stands. Qed.

(** The process stops in the middle of the files: nothing of the commit stays. *)
Lemma file_commit_atomic_witness :
  ∃ s', stands s' (disk_after demo_put empty_disk (fault_at 7 CrashAfter)) ∧
        dk_files (disk_after demo_put empty_disk (fault_at 7 CrashAfter)) ≠ ∅ ∧ s' = (∅, ∅).
Proof.
  destruct (demo_put empty_disk (fault_at 7 CrashAfter)) as [[d' φ'] o] eqn:E.
  assert (d' = disk_after demo_put empty_disk (fault_at 7 CrashAfter)) as Hd by (unfold disk_after; rewrite E; reflexivity).
  destruct (file_commit_atomic (Some false) Background "tx-0" demo_commit _ _ _ _ _ _ empty_stands E)
    as [Hs|(fp & s' & r & _ & _ & _ & Hr & _ & Hset)].
  - exists (∅, ∅). rewrite <-Hd. split; [exact Hs|]. split; [|reflexivity].
    rewrite Hd. intros Hf. apply (f_equal size) in Hf. vm_compute in Hf. discriminate.
  - rewrite <-Hset, Hd in Hr. vm_compute in Hr. discriminate.
Defined.

Lemma file_commit_answer_witness :
  ∃ rec, (settle (disk_after demo_put empty_disk (fault_at 13 FailBefore))).2 !! "tx-1" = Some rec ∧
         cr_Outcome (rr_Result rec) = TransactionCommitted.
Proof.
  destruct (demo_put empty_disk (fault_at 13 FailBefore)) as [[d' φ'] [a|]] eqn:E; [|vm_compute in E; discriminate].
  assert (d' = disk_after demo_put empty_disk (fault_at 13 FailBefore)) as <- by (unfold disk_after; rewrite E; reflexivity).
  assert (cr_Outcome (fa_Result a) = TransactionCommitted) as Ho.
  { assert ((cr_Outcome ∘ fa_Result <$> value_of demo_put empty_disk (fault_at 13 FailBefore)) = Some TransactionCommitted) as Ha
      by (vm_compute; reflexivity).
    unfold value_of in Ha. rewrite E in Ha. injection Ha as Ha. exact Ha. }
  destruct (file_commit_answer (Some false) Background "tx-0" demo_commit _ _ _ _ _ _ empty_stands E) as [Hc _].
  destruct (Hc Ho) as (_ & rec & Hrec & _ & Hres). exists rec. split; [exact Hrec|]. rewrite Hres. exact Ho.
Defined.

Lemma file_commit_completes_witness :
  ∃ d' φ' r, demo_put empty_disk [] = (d', φ', Some (MkFileAnswer r [])) ∧ dk_journals d' = ∅.
Proof.
  destruct (file_commit_completes (Some false) Background "tx-0" demo_commit empty_disk [] (∅, ∅)
    "run-1,run-1,run-1,run-1,step-1,event-1" demo_prepared empty_stands) as (d' & φ' & s' & r & Hc & _ & Hj & _).
  - constructor.
  - vm_compute. reflexivity.
  - reflexivity.
  - vm_compute. reflexivity.
  - right. vm_compute. reflexivity.
  - exists d', φ', r. split; [exact Hc|exact Hj].
Defined.

(** Two recoveries cut off after the commit point, then one left alone. *)
Definition demo_crashed : Disk := disk_after demo_put empty_disk (fault_at 11 CrashBefore).
Definition demo_cut : Disk := disk_after recoverLocked (disk_after recoverLocked demo_crashed (fault_at 4 CrashAfter)) (fault_at 3 FailAfter).

Lemma recovery_completes_witness :
  ∃ φ', recoverLocked demo_cut [] = (MkDisk (settle demo_crashed).1 ∅ (settle demo_crashed).2, φ', Some (Ok tt)).
Proof.
  refine (recovery_completes (settle demo_crashed) demo_crashed demo_cut [] (conj _ eq_refl) _ _).
  - apply (fileCommit_wf (Some false) Background "tx-0" demo_commit). by apply disk_idle.
  - eapply rtc_l; [exists (fault_at 4 CrashAfter); reflexivity|].
    eapply rtc_l; [exists (fault_at 3 FailAfter); reflexivity|constructor].
  - constructor.
Defined.

(** The write that marks the journal committed takes effect and then fails: the
    commit is undone and answered not started, and the next recovery commits it. *)
Theorem not_started_then_committed :
  let φ := fault_at 10 FailAfter in
  (cr_Outcome ∘ fa_Result <$> value_of demo_put empty_disk φ) = Some TransactionNotStarted ∧
  let d := disk_after recoverLocked (disk_after demo_put empty_disk φ) [] in
  (cr_Outcome ∘ rr_Result <$> dk_results d !! "tx-1") = Some TransactionCommitted ∧
  dk_files d !! PRun "run-1" = Some (FRun demo_run).
Proof. cbv zeta. split_and!; vm_compute; reflexivity. Qed.

(** A commit that fails is rolled back, but its journal stays; an update of the
    run succeeds, and the next recovery writes the old run over it. *)
Definition demo_created : Disk := disk_after (fileCreateRun (Some false) Background demo_run) empty_disk [].
Definition demo_update : Commit :=
  MkCommit "tx-2" None (Some (MkRunWrite RunWriteUpdate demo_run))
    [MkStepWrite StepWriteAppend (demo_step EffectUnknown None)] [] [demo_event] [].
Definition demo_failed : Disk :=
  disk_after (fileCommit (Some false) Background "tx-0" demo_update) demo_created (fault_at 6 FailBefore).

Theorem acknowledged_update_lost :
  let cas := fileCompareAndSwapRun (Some false) Background 0 demo_run in
  (cr_Outcome ∘ fa_Result <$> value_of (fileCommit (Some false) Background "tx-0" demo_update) demo_created (fault_at 6 FailBefore))
    = Some TransactionNotStarted ∧
  map_to_list (dk_files demo_failed) = map_to_list (dk_files demo_created) ∧
  value_of cas demo_failed [] = Some (Ok (with_Revision 1 demo_run)) ∧
  dk_files (disk_after recoverLocked (disk_after cas demo_failed []) []) !! PRun "run-1" = Some (FRun demo_run).
Proof. cbv zeta. split_and!; vm_compute; reflexivity. Qed.
End demo.
