(* ===== verification/CommitResolve.v ===== *)
(** * Committing against any store: [runtime/transaction_store.go], [commitAndResolve]

    The runner writes through the interface [TransactionStore] only: commit, and
    when the outcome is unknown ask for it.  The interface with what it promises is
    a class; the memory store and the file store, the latter under faults,
    are its instances, and [commitAndResolve] is proved against the class. *)

From Stdlib Require Import Ascii.
From S2P Require Import Prelude GoStrings Values Json Sensitive Errors Lease Records RunStore Stores Artifacts Commit Transactions FileDisk FileStore FileTxn Recovery.

(** The two methods, on a state that holds the store; no value when the process
    stopped. *)
Class TransactionStore (S E : Type) := {
  ts_Commit : Context → string → Commit → S → S * option (CommitResult * list E);
  ts_ResolveCommit : Context → string → S → S * option (CommitResult * list E);
}.

Inductive resolve_error (E : Type) :=
  | CommitFailed (e : E)
  | ResolveFailed (id : string) (e : E)
  | ErrTransactionOutcomeUnknown
  | ResolvedTo (id : string) (outcome : TransactionOutcome)
  | WithoutError (id : string) (outcome : TransactionOutcome).
Arguments CommitFailed {E}.
Arguments ResolveFailed {E}.
Arguments ErrTransactionOutcomeUnknown {E}.
Arguments ResolvedTo {E}.
Arguments WithoutError {E}.

Definition with_ID (id : string) (r : CommitResult) : CommitResult :=
  MkCommitResult id (cr_Outcome r) (cr_Run r) (cr_Artifacts r).

(** [context.WithoutCancel]. *)
Definition WithoutCancel (ctx : Context) : Context :=
  MkCtx None (deletion_mutation ctx) (unlink_mutation ctx) (lease_mutation_of ctx) (lease_guard ctx) (secrets ctx).

Record Resolved (E : Type) := MkResolved { rv_Result : CommitResult; rv_Commit : Commit; rv_Errors : list (resolve_error E) }.
Arguments MkResolved {E}.
Arguments rv_Result {E}.
Arguments rv_Commit {E}.
Arguments rv_Errors {E}.

Section resolve.
Context {S E : Type} `{TransactionStore S E}.

(** The answer when the outcome was unknown and the store has been asked. *)
Definition after_resolve (c : Commit) (result : CommitResult) (errs : list E)
    (resolved : CommitResult) (rerrs : list E) : Resolved E :=
  let failed := map CommitFailed errs in
  if bool_decide (rerrs = []) && bool_decide (cr_Outcome resolved = TransactionCommitted) then
    MkResolved resolved c []
  else if negb (bool_decide (rerrs = [])) then
    MkResolved result c (failed ++ map (ResolveFailed (c_TransactionID c)) rerrs ++ [ErrTransactionOutcomeUnknown])
  else if bool_decide (cr_Outcome resolved = TransactionOutcomeUnknown) then
    MkResolved resolved c (failed ++ [ErrTransactionOutcomeUnknown])
  else MkResolved resolved c
         (if bool_decide (errs = []) then [ResolvedTo (c_TransactionID c) (cr_Outcome resolved)] else failed).

Definition commitAndResolve (ctx : Context) (freshID : string) (c : Commit) (s : S) : S * option (Resolved E) :=
  let c := ensureCommitTransactionID freshID c in
  match ts_Commit ctx freshID c s with
  | (s, None) => (s, None)
  | (s, Some (result, errs)) =>
    let result := if bool_decide (cr_TransactionID result = "") then with_ID (c_TransactionID c) result else result in
    match cr_Outcome result with
    | TransactionCommitted => (s, Some (MkResolved result c []))
    | TransactionOutcomeUnknown =>
      match ts_ResolveCommit (WithoutCancel ctx) (c_TransactionID c) s with
      | (s, None) => (s, None)
      | (s, Some (resolved, rerrs)) => (s, Some (after_resolve c result errs resolved rerrs))
      end
    | outcome =>
      (s, Some (MkResolved result c
        (if bool_decide (errs = []) then [WithoutError (c_TransactionID c) outcome] else map CommitFailed errs)))
    end
  end.
End resolve.

(** What a store promises: [ts_recorded s id r] is the result the store will give
    for [id]; one that is recorded stays. *)
Class TransactionLaws (S E : Type) `{TransactionStore S E} := {
  ts_ok : S → Prop;
  ts_recorded : S → string → CommitResult → Prop;
  ts_commit_keeps ctx fr c s : ts_ok s →
    ts_ok (ts_Commit ctx fr c s).1 ∧ ∀ id r, ts_recorded s id r → ts_recorded (ts_Commit ctx fr c s).1 id r;
  ts_resolve_keeps ctx id s : ts_ok s →
    ts_ok (ts_ResolveCommit ctx id s).1 ∧
    ∀ id' r, ts_recorded (ts_ResolveCommit ctx id s).1 id' r ↔ ts_recorded s id' r;
  ts_commit_committed ctx fr c s r errs : ts_ok s →
    (ts_Commit ctx fr c s).2 = Some (r, errs) → cr_Outcome r = TransactionCommitted →
    cr_TransactionID r = c_TransactionID (ensureCommitTransactionID fr c) ∧
    ts_recorded (ts_Commit ctx fr c s).1 (c_TransactionID (ensureCommitTransactionID fr c)) r;
  ts_resolve_answer ctx id s r : ts_ok s →
    (ts_ResolveCommit ctx id s).2 = Some (r, []) →
    if bool_decide (cr_Outcome r = TransactionCommitted) then ts_recorded s id r
    else ∀ r', ¬ ts_recorded s id r';
  ts_commit_error_free ctx fr c s r : ts_ok s →
    (ts_Commit ctx fr c s).2 = Some (r, []) → cr_Outcome r = TransactionCommitted;
}.

Section client.
Context {S E : Type} `{TransactionLaws S E}.

Lemma with_ID_same id r : cr_TransactionID r = id → with_ID id r = r.
Proof. intros <-. by destruct r. Qed.

(** C23: what [commitAndResolve] returns is the truth about the store, whichever store it is: without an error
    the result says committed and is the one the store keeps for the transaction, even if the answer to
    the commit itself was lost; when an unknown outcome was resolved to an error other than unknown,
    the store keeps no result of the transaction *)
Theorem commitAndResolve_sound ctx freshID c s s' v :
  ts_ok s → commitAndResolve ctx freshID c s = (s', Some v) →
  let id := c_TransactionID (rv_Commit v) in
  (rv_Errors v = [] → cr_Outcome (rv_Result v) = TransactionCommitted ∧ ts_recorded s' id (rv_Result v)) ∧
  (∀ r errs, (ts_Commit ctx freshID (ensureCommitTransactionID freshID c) s).2 = Some (r, errs) →
     cr_Outcome r = TransactionOutcomeUnknown →
     rv_Errors v ≠ [] → ErrTransactionOutcomeUnknown ∉ rv_Errors v → ∀ r', ¬ ts_recorded s' id r').
Proof.
  intros Hok. unfold commitAndResolve. cbv zeta. set (c1 := ensureCommitTransactionID freshID c).
  assert (ensureCommitTransactionID freshID c1 = c1) as Hc1.
  { unfold c1, ensureCommitTransactionID. case_bool_decide as Hb; [|done].
    case_bool_decide; [|done]. unfold with_TransactionID. by destruct c. }
  destruct (ts_commit_keeps ctx freshID c1 s Hok) as [Hok1 _].
  pose proof (λ r errs, ts_commit_committed ctx freshID c1 s r errs Hok) as Hcm. rewrite Hc1 in Hcm.
  pose proof (λ r, ts_commit_error_free ctx freshID c1 s r Hok) as Hfree.
  destruct (ts_Commit ctx freshID c1 s) as [s1 [[r errs]|]]; [|done]. simpl in *.
  assert (cr_Outcome (if bool_decide (cr_TransactionID r = "") then with_ID (c_TransactionID c1) r else r) = cr_Outcome r) as Ho
    by (by case_bool_decide).
  rewrite Ho. destruct (cr_Outcome r) as [| | |o] eqn:Hr.
  - intros [= <- <-]. simpl. split; [|intros ? ? [= <- <-]; by rewrite Hr].
    by destruct errs.
  - intros [= <- <-]. simpl. destruct (Hcm r errs eq_refl Hr) as [Hid Hrec]. split; [|intros ? ? [= <- <-]; by rewrite Hr].
    intros _. case_bool_decide; [|done]. rewrite with_ID_same by done. by split.
  - destruct (ts_resolve_keeps (WithoutCancel ctx) (c_TransactionID c1) s1 Hok1) as [_ Hkeep].
    pose proof (λ q, ts_resolve_answer (WithoutCancel ctx) (c_TransactionID c1) s1 q Hok1) as Hans.
    destruct (ts_ResolveCommit (WithoutCancel ctx) (c_TransactionID c1) s1) as [s2 [[q qerrs]|]]; [|done].
    intros [= <- <-]. simpl in *. unfold after_resolve.
    generalize (if bool_decide (cr_TransactionID r = "") then with_ID (c_TransactionID c1) r else r) as res. intros res.
    destruct qerrs as [|qe qerrs]; cycle 1.
    { rewrite (bool_decide_false (qe :: qerrs = [])) by done. simpl. split; [by intros [_ Hx]%app_nil|]. intros _ _ _ _ _ Hn. exfalso. apply Hn. rewrite elem_of_app, elem_of_cons, elem_of_app. right. right. right. by apply list_elem_of_singleton. }
    specialize (Hans q eq_refl). rewrite (bool_decide_true (@nil E = [])) by done. simpl. case_bool_decide as Hc; simpl.
    { split; [|done]. intros _. split; [done|]. by apply Hkeep. }
    destruct (decide (cr_Outcome q = TransactionOutcomeUnknown)) as [Hu|Hu].
    { rewrite (bool_decide_true (cr_Outcome q = _)) by done. simpl. split; [by intros [_ Hx]%app_nil|]. intros _ _ _ _ _ Hn. exfalso. apply Hn. rewrite elem_of_app. right. by apply list_elem_of_singleton. }
    rewrite (bool_decide_false (cr_Outcome q = _)) by done. simpl. split; [by destruct errs|]. intros _ _ _ _ _ _ r' Hr'. by apply Hkeep, Hans in Hr'.
  - intros [= <- <-]. simpl. split; [|intros ? ? [= <- <-]; by rewrite Hr].
    by destruct errs.
Qed.
End client.

(** ** The memory store *)

Section memory.
Context `{CommitDigest}.

Definition errors_of (a : Answer) : list store_error := match an_Error a with Some e => [e] | None => [] end.

#[export] Instance memory_transactions : TransactionStore RuntimeStore store_error := {
  ts_Commit ctx fr c s := let (s', a) := RuntimeCommit ctx fr s c in (s', Some (an_Result a, errors_of a));
  ts_ResolveCommit ctx id s := let a := ResolveCommit ctx s id in (s, Some (an_Result a, errors_of a));
}.

Definition memory_ok (s : RuntimeStore) : Prop :=
  ∀ id p, transactions s !! id = Some p → cr_Outcome p.2 = TransactionCommitted ∧ cr_TransactionID p.2 = id.

#[export, refine] Instance memory_laws : TransactionLaws RuntimeStore store_error := {
  ts_ok := memory_ok;
  ts_recorded s id r := ∃ fp, transactions s !! id = Some (fp, r);
}.
Proof.
  - intros ctx fr c s Hs. simpl. destruct (RuntimeCommit ctx fr s c) as [s' a] eqn:Hc. simpl.
    apply commit_cases in Hc as [(-> & _)|(_ & _ & fp & _ & [(-> & _)|(t' & out & Hn & _ & _ & Hr & ->)])]; [done..|].
    simpl in *. split.
    + intros id p. simpl. intros [[<- <-]|[_ Hp]]%lookup_insert_Some; [by rewrite Hr|by apply Hs].
    + intros id r [fp' Hp]. exists fp'. simpl. rewrite lookup_insert_ne; [done|]. intros <-. congruence.
  - done.
  - intros ctx fr c s r errs Hs. simpl. destruct (RuntimeCommit ctx fr s c) as [s' a] eqn:Hc. simpl.
    intros [= <- _] Ho.
    apply commit_cases in Hc as [(_ & _ & Ha)|(_ & _ & fp & _ & [(-> & Hl)|(t' & out & Hn & _ & _ & Hr & ->)])].
    + by rewrite Ha in Ho.
    + simpl in Hl. split; [by apply Hs in Hl as [_ ?]|by exists fp].
    + split; [by rewrite Hr|]. exists fp. simpl. apply lookup_insert_eq.
  - intros ctx id s r Hs. simpl. unfold ResolveCommit.
    destruct (let* _ := _ in _) as [[]|]; [|done]. destruct (transactions s !! id) as [[fp r0]|] eqn:Hl; simpl; intros [= <-].
    + rewrite bool_decide_true by (by apply Hs in Hl as [? _]). by exists fp.
    + simpl. by intros r' [fp Hx].
  - intros ctx fr c s r Hs. simpl. destruct (RuntimeCommit ctx fr s c) as [s' a] eqn:Hc. simpl.
    unfold errors_of. destruct (an_Error a) eqn:He; [done|]. intros [= <-].
    apply commit_cases in Hc as [(_ & [e Hx] & _)|(_ & _ & fp & _ & [(-> & Hl)|(t' & out & Hn & _ & _ & Hr & ->)])].
    + by rewrite He in Hx.
    + by apply Hs in Hl as [? _].
    + by rewrite Hr.
Defined.
End memory.

(** ** The file store, under faults *)

Section file.
Context `{CommitDigest} (writer : option bool).

Lemma resolve_triple ok ctx id s :
  triple ok (stands s) (fileResolveCommit writer ctx id)
    (λ a d, stands s d ∧ (fa_Errors a = [] →
       match s.2 !! id with
       | Some rec => fa_Result a = rr_Result rec ∧ cr_Outcome (fa_Result a) = TransactionCommitted
       | None => cr_Outcome (fa_Result a) = TransactionNotStarted
       end)) (stands s).
Proof.
  unfold fileResolveCommit. eapply triple_or_answer with (R := λ _, stands s).
  { by apply triple_ret. }
  { intros e. apply triple_ret. by intros d Hs. }
  intros _. eapply triple_or_answer.
  { eapply triple_weaken; [apply recover_triple|done|by intros ?? Hx; exact Hx|by intros d [? _]]. }
  { intros e. apply triple_ret. by intros d [Hs _]. }
  intros []. eapply triple_or_answer with (R := λ r d, stands s d ∧
    match r with
    | Ok r => r = s.2 !! id ∧ match r with Some rec => cr_Outcome (rr_Result rec) = TransactionCommitted | None => True end
    | Err _ => True
    end).
  { apply triple_fetch; [|by intros d (? & _)]. intros d (Hs & He & _). split; [done|].
    destruct Hs as [_ Hs]. rewrite settle_idle in Hs by auto. subst s. simpl.
    unfold loadTransactionResultLocked. destruct (dk_results d !! id) as [rec|] eqn:Hr; [|done].
    destruct (let* _ := _ in _) eqn:Hl; [|done]. store_inv. subst. done. }
  { intros e. apply triple_ret. by intros d [Hs _]. }
  intros r. apply triple_pure. intros [-> Hr]. apply triple_ret. intros d Hs. split; [done|]. intros _.
  destruct (s.2 !! id); [by split|done].
Qed.

#[export] Instance file_transactions : TransactionStore (Disk * list Fault) file_error := {
  ts_Commit ctx fr c s :=
    let '(d, φ, a) := fileCommit writer ctx fr c s.1 s.2 in ((d, φ), (λ a, (fa_Result a, fa_Errors a)) <$> a);
  ts_ResolveCommit ctx id s :=
    let '(d, φ, a) := fileResolveCommit writer ctx id s.1 s.2 in ((d, φ), (λ a, (fa_Result a, fa_Errors a)) <$> a);
}.

#[export, refine] Instance file_laws : TransactionLaws (Disk * list Fault) file_error := {
  ts_ok s := disk_wf s.1;
  ts_recorded s id r := rr_Result <$> (settle s.1).2 !! id = Some r;
}.
Proof.
  - intros ctx fr c [d φ] Hw. simpl in *.
    destruct (file_commit_all writer ctx fr c d φ (settle d) (conj Hw eq_refl)) as [Hall _].
    destruct (fileCommit writer ctx fr c d φ) as [[d' φ'] a]. simpl in *.
    destruct Hall as [[Hw' ->]|(fp & s' & r & _ & Hn & Ha & [Hw' ->])]; [done|]. split; [done|].
    intros id r'. unfold atomic_commit in Ha. result_inv. simplify_eq. simpl.
    intros Hr'. rewrite lookup_insert_ne; [done|]. intros <-. simpl in Hn. by rewrite Hn in Hr'.
  - intros ctx id [d φ] Hw. simpl in *.
    destruct (resolve_triple (among φ) ctx id (settle d) d φ (conj Hw eq_refl) (among_all φ)) as [_ Hr].
    destruct (fileResolveCommit writer ctx id d φ) as [[d' φ'] a]. simpl in *.
    assert (stands (settle d) d') as [Hw' ->] by (destruct a; by destruct Hr). done.
  - intros ctx fr c [d φ] r errs Hw. simpl in *.
    destruct (file_commit_all writer ctx fr c d φ (settle d) (conj Hw eq_refl)) as [_ Hans].
    destruct (fileCommit writer ctx fr c d φ) as [[d' φ'] [a|]]; simpl in *; [|done]. intros [= <- <-] Ho.
    destruct Hans as (H1 & _). destruct (H1 Ho) as (Hid & rec & Hrec & _ & Hres). split; [done|].
    simpl in Hrec. by rewrite Hrec, <-Hres.
  - intros ctx id [d φ] r Hw. simpl in *.
    destruct (resolve_triple (among φ) ctx id (settle d) d φ (conj Hw eq_refl) (among_all φ)) as [_ Hr].
    destruct (fileResolveCommit writer ctx id d φ) as [[d' φ'] [a|]]; simpl in *; [|done]. intros [= <- He].
    destruct Hr as [_ Hr]. specialize (Hr He). destruct ((settle d).2 !! id) as [rec|].
    + destruct Hr as [Hr Ho]. rewrite bool_decide_true by done. simpl. by rewrite Hr.
    + rewrite bool_decide_false by (by rewrite Hr). done.
  - intros ctx fr c [d φ] r Hw. simpl in *.
    destruct (file_commit_all writer ctx fr c d φ (settle d) (conj Hw eq_refl)) as [_ Hans].
    destruct (fileCommit writer ctx fr c d φ) as [[d' φ'] [a|]]; simpl in *; [|done]. intros [= <- He].
    by apply Hans.
Defined.
End file.

(** ** A lost answer *)

Section demo.
#[local] Existing Instance demo_digest.
#[local] Existing Instance file_transactions.
#[local] Existing Instance file_laws.

(** The write of the result fails: the outcome is unknown, and resolved to committed. *)
Definition demo_lost : Disk * list Fault := (empty_disk, fault_at 12 FailBefore).

Lemma commitAndResolve_sound_witness :
  ∃ s' v, commitAndResolve (H := file_transactions (Some false)) Background "tx-0" demo_commit demo_lost = (s', Some v) ∧
    rv_Errors v = [] ∧ rr_Result <$> (settle s'.1).2 !! "tx-1" = Some (rv_Result v).
Proof.
  destruct (commitAndResolve (H := file_transactions (Some false)) Background "tx-0" demo_commit demo_lost) as [s' [v|]] eqn:E;
    [|vm_compute in E; discriminate].
  assert ((λ v, (rv_Errors v, c_TransactionID (rv_Commit v))) <$>
     (commitAndResolve (H := file_transactions (Some false)) Background "tx-0" demo_commit demo_lost).2 = Some ([], "tx-1")) as Hv
    by (vm_compute; reflexivity).
  rewrite E in Hv. injection Hv as Hv Hid. exists s', v. split; [reflexivity|]. split; [exact Hv|].
  destruct (commitAndResolve_sound (H := file_transactions (Some false)) (H0 := file_laws (Some false))
    Background "tx-0" demo_commit demo_lost s' v) as [Hs _]; [apply disk_idle; reflexivity|exact E|].
  destruct (Hs Hv) as [_ Hr]. rewrite Hid in Hr. exact Hr.
Defined.
End demo.
