(* ===== verification/SqlRows.v ===== *)
(** * Rows of the SQLite store: [marshal] and [unmarshal] of [internal/runtimestore/sqlite/store.go]

    The [data] column of a row is the JSON text of a record.  The model keeps the
    record that this text decodes to: every string with invalid UTF-8 replaced,
    and the payload of an event, which is JSON of its own, compacted. *)

From Stdlib Require Import Ascii.
From S2P Require Import Prelude GoStrings Values Json JsonDecode Errors Lease Records Stores.

(** A string, encoded and decoded. *)
Definition json_text (s : string) : string :=
  match parse_string (quote_bytes (String.length s) (to_bytes s) ++ [dquote]) with
  | Some (t, _) => t
  | None => s
  end.

Lemma json_text_utf8 s : valid_utf8 s = true → json_text s = s.
Proof. intros Hs. unfold json_text. by rewrite (parse_quoted s [] Hs). Qed.

Definition row_lease (l : ExecutionLease) : ExecutionLease :=
  MkLease (json_text (OwnerID l)) (json_text (Token l)) (Epoch l)
    (match Status l with LeaseOther s => LeaseOther (json_text s) | s => s end) (AcquiredAt l) (HeartbeatAt l) (ExpiresAt l).

Definition row_pending (p : PendingChildRun) : PendingChildRun :=
  MkPending (json_text (p_RequestKey p)) (json_text (p_ChildRunID p)) (json_text (p_ParentRunID p)) (json_text (p_ParentStepID p))
    (json_text (p_ParentTaskID p)) (json_text (p_GraphRef p)) (json_text (p_GraphID p)) (json_text (p_GraphVersion p))
    (json_text (p_GraphHash p)) (json_text (p_GraphSnapshotHash p)) (json_text (p_GraphSessionID p)) (json_text (p_Namespace p))
    (json_text (p_InputHash p)) (p_ReservedAt p).

(** [run_ids] is omitted when it is empty, and then reads back as nil. *)
Definition row_deletion (d : RunDeletionState) : RunDeletionState :=
  MkDeletion (json_text (d_ID d)) (json_text (d_RootRunID d)) (json_text (d_ParentRunID d)) (json_text (d_Phase d))
    (map json_text <$> clone_slice (d_RunIDs d)).

Definition row_run (r : RunRecord) : RunRecord :=
  MkRunRecord (json_text (r_RunID r)) (r_Revision r) (json_text (r_ParentRunID r)) (json_text (r_ParentStepID r))
    (json_text (r_ParentTaskID r)) (json_text (r_ChildRequestKey r)) (json_text (r_ChildInputHash r))
    (row_lease <$> r_ExecutionLease r) (json_text (r_RootRunID r)) (map json_text (r_RunPath r)) (json_text (r_Namespace r))
    (map json_text (r_ChildRunIDs r)) (map row_pending (r_PendingChildRuns r)) (row_deletion <$> r_Deletion r)
    (json_text (r_GraphID r)) (json_text (r_GraphVersion r)) (json_text (r_GraphHash r)) (json_text (r_GraphSnapshotHash r))
    (json_text (r_GraphSessionID r)) (json_text (r_SourceRunID r)) (json_text (r_SourceCheckpointID r))
    (json_text (r_ForkRequestKey r)) ((λ o, MkOrigin (json_text (o_Type o)) (json_text (o_TriggerID o))) <$> r_Origin r)
    (json_text (r_Status r)) (json_text (r_EntryNodeID r)) (json_text (r_CurrentNodeID r)) (map json_text (r_CurrentNodeIDs r))
    (map json_text (r_CurrentStepIDs r)) (map json_text (r_NextNodeIDs r)) (json_text (r_ParallelWaveID r))
    (json_text (r_LastStepID r)) (json_text (r_LastCheckpointID r)) (r_PauseRequested r) (r_CancelRequested r)
    (json_text (r_ErrorCode r)) (json_text (r_ErrorMessage r)) (r_StartedAt r) (r_UpdatedAt r) (r_FinishedAt r).

Definition row_resolution (e : EffectResolution) : EffectResolution :=
  MkResolution (json_text (e_ID e)) (json_text (e_AttemptID e)) (json_text (e_Action e)) (json_text (e_Status e))
    (json_text (e_Actor e)) (json_text (e_Reason e)) (json_text (e_CompensationKey e)) (json_text (e_Error e))
    (e_RequestedAt e) (e_ResolvedAt e).

Definition row_step (s : StepRecord) : StepRecord :=
  MkStep (json_text (s_StepID s)) (json_text (s_RunID s)) (json_text (s_TaskID s)) (json_text (s_ParentRunID s))
    (json_text (s_ParentStepID s)) (json_text (s_ParentTaskID s)) (json_text (s_RootRunID s)) (map json_text (s_RunPath s))
    (json_text (s_Namespace s)) (json_text (s_NodeID s)) (json_text (s_NodeName s)) (json_text (s_OperationKey s))
    (json_text (s_EffectClass s)) (json_text (s_EffectStatus s)) (row_resolution <$> s_EffectResolution s)
    (json_text (s_WaveID s)) (s_Attempt s) (json_text (s_Status s)) (json_text (s_CheckpointBeforeID s))
    (json_text (s_CheckpointAfterID s)) (json_text (s_ErrorCode s)) (json_text (s_ErrorMessage s))
    (s_StartedAt s) (s_UpdatedAt s) (s_FinishedAt s).

Definition row_checkpoint (k : CheckpointRecord) : CheckpointRecord :=
  MkCheckpoint (json_text (k_CheckpointID k)) (json_text (k_RunID k)) (json_text (k_StepID k)) (json_text (k_TaskID k))
    (json_text (k_ParentRunID k)) (json_text (k_ParentStepID k)) (json_text (k_ParentTaskID k)) (json_text (k_RootRunID k))
    (map json_text (k_RunPath k)) (json_text (k_Namespace k)) (json_text (k_NodeID k)) (json_text (k_Stage k))
    (json_text (k_StateCodec k)) (json_text (k_StateVersion k)) (json_text (k_PayloadRef k)) (k_CreatedAt k).

(** [compact] of [encoding/json], with HTML escapes: white space between tokens is
    dropped, and the characters below never stand as themselves. *)
Definition html_escape (a : ascii) : option bytes :=
  match N_of_ascii a with 60%N => Some (lit "\u003c") | 62%N => Some (lit "\u003e") | 38%N => Some (lit "\u0026") | _ => None end.

Definition json_space (a : ascii) : bool := bool_decide (N_of_ascii a ∈ [32; 9; 10; 13]%N).

Fixpoint compact_json (in_string escaped : bool) (l : bytes) : bytes :=
  match l with
  | [] => []
  | a :: l1 =>
    let n := N_of_ascii a in
    if in_string then
      let escaped' := negb escaped && (n =? 92)%N in
      let in_string' := escaped || negb (n =? 34)%N in
      match html_escape a with
      | Some e => e ++ compact_json in_string' escaped' l1
      | None =>
        match l1 with
        | b :: c :: l3 =>
          if (n =? 226)%N && (N_of_ascii b =? 128)%N && between 168 169 (N_of_ascii c)
          then lit (if (N_of_ascii c =? 168)%N then "\u2028" else "\u2029") ++ compact_json true false l3
          else a :: compact_json in_string' escaped' l1
        | _ => a :: compact_json in_string' escaped' l1
        end
      end
    else if json_space a then compact_json false false l1
    else a :: compact_json (n =? 34)%N false l1
  end.

(** A [json.RawMessage]: omitted when it is empty, refused when it is not JSON. *)
Definition row_payload (p : string) : option string :=
  if bool_decide (p = "") then Some ""
  else if json_valid p then Some (of_bytes (compact_json false false (to_bytes p))) else None.

Definition row_event (e : Event) : option Event :=
  (λ payload, MkEvent (json_text (v_ID e)) (json_text (v_GraphID e)) (json_text (v_GraphSessionID e)) (json_text (v_RunID e))
    (json_text (v_ParentRunID e)) (json_text (v_ParentStepID e)) (json_text (v_ParentTaskID e)) (json_text (v_RootRunID e))
    (map json_text (v_RunPath e)) (json_text (v_Namespace e)) (json_text (v_StepID e)) (json_text (v_TaskID e))
    (json_text (v_NodeID e)) (json_text (v_OperationKey e)) (json_text (v_Type e)) (v_Timestamp e) payload) <$> row_payload (v_Payload e).

(** A byte that is not UTF-8 comes back as U+FFFD, a payload without its spaces. *)
Example row_replaces :
  let bad := String (ascii_of_nat 255) "a" in
  json_text bad = String (ascii_of_nat 239) (String (ascii_of_nat 191) (String (ascii_of_nat 189) "a")) ∧
  row_payload "{ }" = Some "{}" ∧ row_payload "{" = None ∧ row_payload "[1, 2 ]" = Some "[1,2]".
Proof. vm_compute. done. Qed.
