(* ===== verification/SqlStore.v ===== *)
(** * The SQLite store: [internal/runtimestore/sqlite]

    The tables as maps from their primary keys to the record of the row's [data];
    the other columns repeat fields of it.  Transactions take the write lock when
    they begin ([_txlock=immediate]), so each is a function of the database, and
    one that returns before [tx.Commit] is rolled back.  A run, step, checkpoint or
    event is kept as its JSON text reads back ([SqlRows]); for the rows of the queue,
    of transactions, artifacts and manifests that is taken to be the record itself.
    [int64] columns refuse larger numbers, as the driver does. *)

From Stdlib Require Import Ascii.
From S2P Require Import Prelude GoStrings Values Json JsonDecode Sensitive Errors Lease Records RunStore Stores Artifacts Commit SqlRows.

(** ** Tasks: [runtime/task_queue.go] *)

Record TaskLease := MkTaskLease {
  tl_TaskID : string;
  tl_WorkerID : string;
  tl_Token : string;
  tl_Epoch : N;
  tl_AcquiredAt : Z;
  tl_HeartbeatAt : Z;
  tl_ExpiresAt : Z;
}.

Record Task := MkTask {
  q_ID : string;
  q_Kind : string;
  q_RunID : string;
  q_StepID : string;
  q_GraphTaskID : string;
  q_OperationID : string;
  q_GraphID : string;
  q_GraphSessionID : string;
  q_CheckpointID : string;
  q_Payload : string;
  q_Status : string;
  q_Version : N;
  q_AttemptCount : Z;
  q_MaxAttempts : Z;
  q_AvailableAt : Z;
  q_Lease : option TaskLease;
  q_LastError : string;
  q_CreatedAt : Z;
  q_UpdatedAt : Z;
  q_CompletedAt : option Z;
}.

Record TaskAttempt := MkAttempt {
  at_ID : string;
  at_TaskID : string;
  at_Number : Z;
  at_WorkerID : string;
  at_LeaseToken : string;
  at_LeaseEpoch : N;
  at_Status : string;
  at_StartedAt : Z;
  at_HeartbeatAt : Z;
  at_FinishedAt : option Z;
  at_Error : string;
}.

Record WorkerIdentity := MkWorker { wk_ID : string; wk_Metadata : gmap string string }.

#[export] Instance TaskLease_eq_dec : EqDecision TaskLease.
Proof. solve_decision. Defined.
#[export] Instance Task_eq_dec : EqDecision Task.
Proof. solve_decision. Defined.
#[export] Instance TaskAttempt_eq_dec : EqDecision TaskAttempt.
Proof. solve_decision. Defined.

(** ** The tables: [schema.go] *)

(** [artifact_stages] and [artifacts] share their columns. *)
Record ArtifactRow := MkRow { ro_TransactionID : string; ro_Artifact : Artifact }.

Record Database := MkDB {
  db_runs : gmap string RunRecord;
  db_steps : gmap string StepRecord;
  db_checkpoints : gmap string (CheckpointRecord * string);
  db_events : list Event;                                     (* by [sequence] *)
  db_stages : gmap (string * string) Artifact;                (* transaction, artifact *)
  db_artifacts : gmap (string * string) ArtifactRow;          (* run, artifact *)
  db_transactions : gmap string (string * (CommitResult * list Task));
  db_fences : gmap string string;
  db_manifests : gmap string RunDeletionManifest;
  db_tasks : gmap string Task;
  db_attempts : gmap (string * Z) TaskAttempt;                (* task, number *)
  db_workers : gmap string (Z * WorkerIdentity);
}.

Definition empty_db : Database := MkDB ∅ ∅ ∅ [] ∅ ∅ ∅ ∅ ∅ ∅ ∅ ∅.

(** Assignments to the tables. *)
Definition set_tables (rs : gmap string RunRecord) (ss : gmap string StepRecord)
    (ks : gmap string (CheckpointRecord * string)) (es : list Event) (db : Database) : Database :=
  MkDB rs ss ks es (db_stages db) (db_artifacts db) (db_transactions db) (db_fences db) (db_manifests db)
    (db_tasks db) (db_attempts db) (db_workers db).
Definition set_artifact_tables (sg : gmap (string * string) Artifact) (ar : gmap (string * string) ArtifactRow)
    (db : Database) : Database :=
  MkDB (db_runs db) (db_steps db) (db_checkpoints db) (db_events db) sg ar (db_transactions db) (db_fences db)
    (db_manifests db) (db_tasks db) (db_attempts db) (db_workers db).
Definition set_transactions (m : gmap string (string * (CommitResult * list Task))) (db : Database) : Database :=
  MkDB (db_runs db) (db_steps db) (db_checkpoints db) (db_events db) (db_stages db) (db_artifacts db) m (db_fences db)
    (db_manifests db) (db_tasks db) (db_attempts db) (db_workers db).
Definition set_fences (m : gmap string string) (db : Database) : Database :=
  MkDB (db_runs db) (db_steps db) (db_checkpoints db) (db_events db) (db_stages db) (db_artifacts db)
    (db_transactions db) m (db_manifests db) (db_tasks db) (db_attempts db) (db_workers db).
Definition set_manifests (m : gmap string RunDeletionManifest) (db : Database) : Database :=
  MkDB (db_runs db) (db_steps db) (db_checkpoints db) (db_events db) (db_stages db) (db_artifacts db)
    (db_transactions db) (db_fences db) m (db_tasks db) (db_attempts db) (db_workers db).
Definition set_queue (ts : gmap string Task) (ats : gmap (string * Z) TaskAttempt) (ws : gmap string (Z * WorkerIdentity))
    (db : Database) : Database :=
  MkDB (db_runs db) (db_steps db) (db_checkpoints db) (db_events db) (db_stages db) (db_artifacts db)
    (db_transactions db) (db_fences db) (db_manifests db) ts ats ws.

Definition with_db_runs (m : gmap string RunRecord) (db : Database) : Database :=
  set_tables m (db_steps db) (db_checkpoints db) (db_events db) db.
Definition with_db_steps (m : gmap string StepRecord) (db : Database) : Database :=
  set_tables (db_runs db) m (db_checkpoints db) (db_events db) db.
Definition with_db_checkpoints (m : gmap string (CheckpointRecord * string)) (db : Database) : Database :=
  set_tables (db_runs db) (db_steps db) m (db_events db) db.
Definition with_db_events (l : list Event) (db : Database) : Database :=
  set_tables (db_runs db) (db_steps db) (db_checkpoints db) l db.

(** ** Statements *)

(** [db.BeginTx], or a statement outside a transaction: they fail when the context is done. *)
Definition begin_tx (ctx : Context) : result store_error unit := fileStoreContextErr ctx.

(** A [uint64] bound to an [INTEGER] column. *)
Definition bind_uint64 (id : string) (n : N) : result store_error unit :=
  refuse id "uint64 values with high bit set are not supported" (2 ^ 63 <=? n)%N.

(** [ON ... REFERENCES runs]: foreign keys are checked. *)
Definition references_run (db : Database) (runID : string) : result store_error unit :=
  guard_err (negb (bool_decide (is_Some (db_runs db !! runID)))) (SInvalid runID "FOREIGN KEY constraint failed").

Definition ensureRunWritable (db : Database) (runID : string) : result store_error unit :=
  guard_err (bool_decide (is_Some (db_fences db !! runID))) (SNotAllowed runID).

Definition loadRun (db : Database) (runID : string) : result store_error RunRecord :=
  let* run := find (db_runs db) runID in Ok (cloneRunRecord run).

Definition insertRun (db : Database) (run : RunRecord) : result store_error Database :=
  let* _ := bind_uint64 (r_RunID run) (r_Revision run) in
  let* _ := guard_err (bool_decide (is_Some (db_runs db !! r_RunID run))) (SExists (r_RunID run)) in
  Ok (with_db_runs (<[r_RunID run := row_run run]> (db_runs db)) db).

(** [UPDATE ... WHERE run_id=? AND revision=?], and whether a row was changed. *)
Definition updateRun (db : Database) (expected : N) (run : RunRecord) : result store_error (Database * bool) :=
  let* _ := bind_uint64 (r_RunID run) (r_Revision run) in
  let* _ := bind_uint64 (r_RunID run) expected in
  match db_runs db !! r_RunID run with
  | Some existing =>
    if (r_Revision existing =? expected)%N then Ok (with_db_runs (<[r_RunID run := row_run run]> (db_runs db)) db, true)
    else Ok (db, false)
  | None => Ok (db, false)
  end.

Definition loadStep (db : Database) (stepID : string) : result store_error StepRecord := find (db_steps db) stepID.

(** [INSERT ... ON CONFLICT(step_id) DO UPDATE]. *)
Definition putStep (db : Database) (step : StepRecord) : result store_error Database :=
  let* _ := references_run db (s_RunID step) in
  Ok (with_db_steps (<[s_StepID step := row_step step]> (db_steps db)) db).

Definition insertCheckpoint (db : Database) (k : CheckpointRecord) (payload : string) : result store_error Database :=
  let* _ := references_run db (k_RunID k) in
  let* _ := guard_err (bool_decide (is_Some (db_checkpoints db !! k_CheckpointID k))) (SExists (k_CheckpointID k)) in
  Ok (with_db_checkpoints (<[k_CheckpointID k := (row_checkpoint k, payload)]> (db_checkpoints db)) db).

(** [event_id] is unique among the events of all runs. *)
Definition insertEvent (db : Database) (e : Event) : result store_error Database :=
  let* _ := storage_id "run ID" (v_RunID e) in
  let* _ := loadRun db (v_RunID e) in
  let* _ := ensureRunWritable db (v_RunID e) in
  match row_event e with
  | None => Err (SInvalid (v_ID e) "payload is not JSON")
  | Some row =>
    let* _ := guard_err (bool_decide (v_ID e ∈ map v_ID (db_events db))) (SExists (v_ID e)) in
    Ok (with_db_events (db_events db ++ [row]) db)
  end.

(** ** Runs and steps *)

Definition sqlCreateRun (ctx : Context) (db : Database) (run : RunRecord) : result store_error Database :=
  let* _ := fileStoreContextErr ctx in
  let* _ := storage_id "run ID" (r_RunID run) in
  let run := sanitizeRunRecord ctx run in
  let* _ := validateNewRunDeletion run in
  let* _ := validateRunChildState run in
  let* _ := begin_tx ctx in
  let* _ := ensureRunWritable db (r_RunID run) in
  let* _ := guard_err (bool_decide (is_Some (db_runs db !! r_RunID run))) (SExists (r_RunID run)) in
  let* _ := if bool_decide (r_ParentRunID run = "") then Ok tt else
              let* _ := ensureRunWritable db (r_ParentRunID run) in
              let* parent := loadRun db (r_ParentRunID run) in
              validateNewRunParent run parent in
  insertRun db run.

Definition sqlCompareAndSwapRun (ctx : Context) (db : Database) (expected : N) (run : RunRecord)
    : result store_error (Database * RunRecord) :=
  let* _ := fileStoreContextErr ctx in
  let* _ := storage_id "run ID" (r_RunID run) in
  let run := sanitizeRunRecord ctx run in
  let* _ := validateRunChildState run in
  let* _ := begin_tx ctx in
  let* existing := loadRun db (r_RunID run) in
  let* _ := guard_err (negb (r_Revision existing =? expected)%N || negb (r_Revision run =? expected)%N)
              (SConflict (r_RunID run) expected (r_Revision existing)) in
  let* _ := validateRunDeletionTransition ctx existing run in
  let* _ := lift_lease (validateRunExecutionLeaseTransition (lease_context ctx) (leased existing) (leased run)) in
  let run := with_Revision (next_revision (r_Revision run)) run in
  let* p := updateRun db expected run in
  if negb p.2 then
    let* actual := loadRun db (r_RunID run) in
    Err (SConflict (r_RunID run) expected (r_Revision actual))
  else Ok (p.1, cloneRunRecord run).

Definition sqlGetRun (ctx : Context) (db : Database) (runID : string) : result store_error RunRecord :=
  let* _ := storage_id "run ID" runID in
  let* _ := begin_tx ctx in
  loadRun db runID.

Definition sqlListRuns (ctx : Context) (db : Database) (f : RunFilter) : result store_error (list RunRecord) :=
  let* _ := begin_tx ctx in
  Ok (map cloneRunRecord (filter (λ r, matches f r = true) (stable_sort run_before (map_to_list (db_runs db)).*2))).

Definition writeStep (ctx : Context) (db : Database) (mode : StepWriteMode) (step : StepRecord) : result store_error Database :=
  let step := sanitizeStepRecord ctx step in
  let* _ := storage_id "run ID" (s_RunID step) in
  let* _ := storage_id "step ID" (s_StepID step) in
  let* _ := begin_tx ctx in
  let* run := loadRun db (s_RunID step) in
  let* _ := ensureRunWritable db (s_RunID step) in
  let* _ := ensureRunNotDeleting run in
  let* _ :=
    match mode with
    | StepWriteAppend =>
      let* _ := validateStepEffect step in
      guard_err (bool_decide (is_Some (db_steps db !! s_StepID step))) (SExists (s_StepID step))
    | StepWriteUpdate =>
      let* existing := loadStep db (s_StepID step) in
      let* _ := guard_err (negb (bool_decide (s_RunID existing = s_RunID step))) (SNotFound (s_StepID step)) in
      validateStepEffectTransition existing step
    | StepWriteOther m => Err (SInvalid (s_StepID step) m)
    end in
  putStep db step.

Definition sqlGetStep (ctx : Context) (db : Database) (stepID : string) : result store_error StepRecord :=
  let* _ := storage_id "step ID" stepID in
  let* _ := begin_tx ctx in
  loadStep db stepID.

Definition sqlListSteps (ctx : Context) (db : Database) (runID : string) : result store_error (list StepRecord) :=
  let* _ := storage_id "run ID" runID in
  let* _ := begin_tx ctx in
  Ok (stable_sort step_before (filter (λ t, s_RunID t = runID) (map_to_list (db_steps db)).*2)).

(** ** Checkpoints and events *)

Definition sqlSave (ctx : Context) (db : Database) (k : CheckpointRecord) (payload : string) : result store_error Database :=
  let* _ := storage_id "run ID" (k_RunID k) in
  let* _ := storage_id "checkpoint ID" (k_CheckpointID k) in
  let k := without_PayloadRef k in
  let* _ := begin_tx ctx in
  let* _ := loadRun db (k_RunID k) in
  let* _ := ensureRunWritable db (k_RunID k) in
  insertCheckpoint db k payload.

Definition sqlLoad (ctx : Context) (db : Database) (id : string) : result store_error (CheckpointRecord * string) :=
  let* _ := storage_id "checkpoint ID" id in
  let* _ := begin_tx ctx in
  find (db_checkpoints db) id.

Definition sqlListCheckpoints (ctx : Context) (db : Database) (runID : string) : result store_error (list CheckpointRecord) :=
  let* _ := storage_id "run ID" runID in
  let* _ := begin_tx ctx in
  Ok (stable_sort checkpoint_before (filter (λ k, k_RunID k = runID) (map (fst ∘ snd) (map_to_list (db_checkpoints db))))).

Definition insert_unless_streaming (db : Database) (e : Event) : result store_error Database :=
  if IsStreamingEvent (v_Type e) then Ok db else insertEvent db e.

Definition sqlPublishBatch (ctx : Context) (db : Database) (batch : list Event) : result store_error Database :=
  let* _ := begin_tx ctx in
  foldM insert_unless_streaming db (map (sanitizeEventPayload ctx) batch).

Definition sqlListEvents (db : Database) (runID : string) : result store_error (list Event) :=
  let* _ := storage_id "run ID" runID in
  Ok (filter (λ e, v_RunID e = runID) (db_events db)).

Definition sqlListEventPage (db : Database) (runID cursor : string) (limit : Z) : result page_error EventPage :=
  match sqlListEvents db runID with
  | Ok l => PaginateEventsNewestFirst l cursor limit
  | Err e => Err (PStore e)
  end.

(** ** Artifacts: [artifact.go] *)

(** The artifact as [Stage] stores it; see [staged_artifact] for the memory store. *)
Definition sql_staged_artifact (ctx : Context) (freshID : string) (now : Z) (a : Artifact) : Artifact :=
  let a := staged_artifact ctx freshID now a in
  let f := artifactRef a in
  MkArtifact (MkRef (f_ID f) (f_RunID f) (f_StepID f) (f_NodeID f) (f_OperationKey f) (f_ParentRunID f)
                (f_ParentStepID f) (f_ParentTaskID f) (f_RootRunID f) (f_RunPath f) (f_Namespace f) (f_Type f)
                (f_MIMEType f) ("sqlite/" +:+ f_RunID f +:+ "/" +:+ f_ID f) (f_CreatedAt f)) (a_Data a).

Definition sqlStage (ctx : Context) (freshID : string) (now : Z) (db : Database) (transactionID : string) (a : Artifact)
    : result store_error (Database * ArtifactStage) :=
  let* _ := storage_id "transaction ID" transactionID in
  let* _ := storage_id "run ID" (f_RunID (artifactRef a)) in
  let a := sql_staged_artifact ctx freshID now a in
  let ref := artifactRef a in
  let* _ := storage_id "artifact ID" (f_ID ref) in
  let* _ := begin_tx ctx in
  let* _ := loadRun db (f_RunID ref) in
  let* _ := ensureRunWritable db (f_RunID ref) in
  match db_stages db !! (transactionID, f_ID ref) with
  | Some existing =>
    if artifactsEqual existing (with_CreatedAt (f_CreatedAt (artifactRef existing)) a)
    then Ok (db, MkStage transactionID (artifactRef existing))
    else Err (SInvalid (f_ID ref) "artifact stage payload mismatch")
  | None =>
    let* _ := references_run db (f_RunID ref) in
    Ok (set_artifact_tables (<[(transactionID, f_ID ref) := a]> (db_stages db)) (db_artifacts db) db, MkStage transactionID ref)
  end.

Definition finalizeArtifactStage (transactionID : string) (db : Database) (stage : ArtifactStage) : result store_error Database :=
  let id := f_ID (g_Ref stage) in
  match db_stages db !! (transactionID, id) with
  | None => let* _ := guard_err (negb (bool_decide (is_Some (db_artifacts db !! (f_RunID (g_Ref stage), id))))) (SNotFound id) in Ok db
  | Some a =>
    let runID := f_RunID (artifactRef a) in
    let* _ := refuse id "artifact stage run mismatch" (negb (bool_decide (runID = f_RunID (g_Ref stage)))) in
    let* _ := ensureRunWritable db runID in
    let* published :=
      match db_artifacts db !! (runID, id) with
      | Some row => let* _ := guard_err (negb (artifactsEqual (ro_Artifact row) a)) (SExists id) in Ok (db_artifacts db)
      | None =>
        let* _ := references_run db runID in
        Ok (<[(runID, id) := MkRow transactionID a]> (db_artifacts db))
      end in
    Ok (set_artifact_tables (delete (transactionID, id) (db_stages db)) published db)
  end.

Definition sqlFinalize (ctx : Context) (db : Database) (transactionID : string) (l : list ArtifactStage) : result store_error Database :=
  let* _ := storage_id "transaction ID" transactionID in
  let* _ := validateArtifactStages transactionID l in
  let* _ := begin_tx ctx in
  foldM (finalizeArtifactStage transactionID) db l.

Definition sqlDiscard (ctx : Context) (db : Database) (transactionID : string) : result store_error Database :=
  let* _ := storage_id "transaction ID" transactionID in
  let* _ := begin_tx ctx in
  Ok (set_artifact_tables (filter (λ p, p.1.1 ≠ transactionID) (db_stages db)) (db_artifacts db) db).

Definition sqlLoadArtifact (ctx : Context) (db : Database) (ref : ArtifactRef) : result store_error Artifact :=
  let* _ := storage_id "run ID" (f_RunID ref) in
  let* _ := storage_id "artifact ID" (f_ID ref) in
  let* _ := begin_tx ctx in
  match db_artifacts db !! (f_RunID ref, f_ID ref) with Some row => Ok (ro_Artifact row) | None => Err (SNotFound (f_ID ref)) end.

Definition sqlListArtifacts (ctx : Context) (db : Database) (runID : string) : result store_error (list ArtifactRef) :=
  let* _ := storage_id "run ID" runID in
  let* _ := begin_tx ctx in
  Ok (stable_sort ref_before (filter (λ f, f_RunID f = runID) (map (artifactRef ∘ ro_Artifact ∘ snd) (map_to_list (db_artifacts db))))).

(** ** Transactions *)

Section apply.
Context (ctx : Context) (c : Commit).

Definition validateCommitRunWrite (db : Database) (run : RunRecord) : result store_error unit :=
  let* _ := validateCommitExecutionLease run c in
  let* _ := ensureRunWritable db (r_RunID run) in
  ensureRunNotDeleting run.

Definition sql_create (db : Database) (run : RunRecord) : result store_error (Database * option RunRecord) :=
  let* _ := guard_err (bool_decide (is_Some (db_runs db !! r_RunID run))) (SExists (r_RunID run)) in
  let* _ := validateNewRunDeletion run in
  let* _ := ensureRunWritable db (r_RunID run) in
  let* _ := if bool_decide (r_ParentRunID run = "") then Ok tt else
              let* parent := loadRun db (r_ParentRunID run) in
              validateNewRunParent run parent in
  let* db := insertRun db run in
  Ok (db, Some run).

Definition sql_update (db : Database) (mode : RunWriteMode) (run : RunRecord) : result store_error (Database * option RunRecord) :=
  let* existing := loadRun db (r_RunID run) in
  let* _ := guard_err (negb (r_Revision existing =? r_Revision run)%N)
              (SConflict (r_RunID run) (r_Revision run) (r_Revision existing)) in
  let* _ := validateCommitExecutionLease existing c in
  let* _ := guard_err (negb (bool_decide (r_ExecutionLease existing = r_ExecutionLease run))) (SNotAllowed (r_RunID run)) in
  let* _ := ensureRunWritable db (r_RunID run) in
  let* _ := ensureRunNotDeleting existing in
  if bool_decide (mode = RunWriteUpdate) then
    let* _ := validateRunDeletionTransition ctx existing run in
    let run := with_Revision (next_revision (r_Revision run)) run in
    let* p := updateRun db (r_Revision existing) run in
    if negb p.2 then Err (SConflict (r_RunID run) (r_Revision existing) (next_revision (r_Revision existing)))
    else Ok (p.1, Some run)
  else Ok (db, None).

Definition sql_run (db : Database) : result store_error (Database * option RunRecord) :=
  match c_Run c with
  | None => Ok (db, None)
  | Some w =>
    let run := cloneRunRecord (rw_Run w) in
    match rw_Mode w with
    | RunWriteCreate => sql_create db run
    | RunWriteUpdate | RunWriteCheck => sql_update db (rw_Mode w) run
    | RunWriteOther m => Err (SInvalid (r_RunID run) m)
    end
  end.

Definition sql_step (db : Database) (w : StepWrite) : result store_error Database :=
  let step := sw_Step w in
  let* run := loadRun db (s_RunID step) in
  let* _ := validateCommitRunWrite db run in
  let* _ :=
    match sw_Mode w with
    | StepWriteAppend => guard_err (bool_decide (is_Some (db_steps db !! s_StepID step))) (SExists (s_StepID step))
    | StepWriteUpdate =>
      let* existing := loadStep db (s_StepID step) in
      let* _ := guard_err (negb (bool_decide (s_RunID existing = s_RunID step))) (SNotFound (s_StepID step)) in
      validateStepEffectTransition existing step
    | StepWriteOther m => Err (SInvalid (s_StepID step) m)
    end in
  putStep db step.

Definition sql_checkpoint (db : Database) (w : CheckpointWrite) : result store_error Database :=
  let* run := loadRun db (k_RunID (cw_Record w)) in
  let* _ := validateCommitRunWrite db run in
  insertCheckpoint db (without_PayloadRef (cw_Record w)) (cw_Payload w).

Definition sql_event (db : Database) (e : Event) : result store_error Database :=
  if IsStreamingEvent (v_Type e) then Ok db else
  let* run := loadRun db (v_RunID e) in
  let* _ := validateCommitRunWrite db run in
  insertEvent db e.

Definition sql_artifact (db : Database) (stage : ArtifactStage) : result store_error Database :=
  let* run := loadRun db (f_RunID (g_Ref stage)) in
  let* _ := validateCommitRunWrite db run in
  finalizeArtifactStage (c_TransactionID c) db stage.

Definition check_commit_lease (db : Database) : result store_error unit :=
  match c_Lease c with
  | None => Ok tt
  | Some g => let* run := loadRun db (g_RunID g) in
              lift_lease (validateExecutionLeaseGuard (leased run) g)
  end.

Definition apply_records (db : Database) : result store_error Database :=
  let* db := foldM sql_step db (c_Steps c) in
  let* db := foldM sql_checkpoint db (c_Checkpoints c) in
  let* db := foldM sql_event db (c_Events c) in
  foldM sql_artifact db (c_Artifacts c).

(** The run is in the result as soon as it has been written, even if a later
    write fails. *)
Definition applyCommit (db : Database) : option RunRecord * result store_error Database :=
  match (let* _ := check_commit_lease db in sql_run db) with
  | Err e => (None, Err e)
  | Ok (db, run) => (run, apply_records db)
  end.
End apply.

(** [tx.Commit()]: [None] is success; it can fail with the transaction done or not. *)
Definition tx_commit (fault : option bool) (before after : Database) : Database * bool :=
  match fault with
  | None => (after, true)
  | Some applied => (if applied then after else before, false)
  end.

Definition tx_failed : store_error := SInvalid "" "commit transaction".

Definition insert_transaction (fingerprint : string) (r : CommitResult) (tasks : list Task) (db : Database)
    : result store_error Database :=
  let* _ := guard_err (bool_decide (is_Some (db_transactions db !! cr_TransactionID r))) (SExists (cr_TransactionID r)) in
  Ok (set_transactions (<[cr_TransactionID r := (fingerprint, (r, tasks))]> (db_transactions db)) db).

Section commit.
Context `{CommitDigest}.

Definition committed_result (c : Commit) (run : option RunRecord) : CommitResult :=
  MkCommitResult (c_TransactionID c) TransactionCommitted run (c_Artifacts c).
Definition not_started_with (id : string) (run : option RunRecord) : CommitResult := MkCommitResult id TransactionNotStarted run [].
Definition unknown (id : string) : CommitResult := MkCommitResult id TransactionOutcomeUnknown None [].

(** The stored fingerprint and result of a transaction. *)
Definition loadTransaction (db : Database) (id : string) : option (string * CommitResult) :=
  (λ p, (p.1, p.2.1)) <$> db_transactions db !! id.

(** [sqlCommit] ends with the database it leaves, its result and its error. *)
Definition sqlCommit (ctx : Context) (freshID : string) (fault : option bool) (db : Database) (c : Commit) : Database * Answer :=
  let c := ensureCommitTransactionID freshID c in
  let id := c_TransactionID c in
  let refused (e : store_error) := (db, MkAnswer (not_started id) (Some e)) in
  let c := sanitizeCommit ctx c in
  match validateRuntimeCommit c with
  | Err e => refused e
  | Ok _ =>
    match commitFingerprint c with
    | None => refused (SInvalid id "encode runtime transaction fingerprint")
    | Some fingerprint =>
      match begin_tx ctx with
      | Err e => refused e
      | Ok _ =>
        match loadTransaction db id with
        | Some (existing, r) =>
          if bool_decide (existing = fingerprint) then (db, MkAnswer r None) else refused (SInvalid id "fingerprint mismatch")
        | None =>
          match applyCommit ctx c db with
          | (run, Err e) => (db, MkAnswer (not_started_with id run) (Some e))
          | (run, Ok db') =>
            match insert_transaction fingerprint (committed_result c run) [] db' with
            | Err e => (db, MkAnswer (unknown id) (Some e))
            | Ok db' =>
              let '(db, ok) := tx_commit fault db db' in
              (db, if ok then MkAnswer (committed_result c run) None else MkAnswer (unknown id) (Some tx_failed))
            end
          end
        end
      end
    end
  end.

Definition sqlResolveCommit (ctx : Context) (db : Database) (id : string) : Answer :=
  match (let* _ := storage_id "transaction ID" id in begin_tx ctx) with
  | Err e => MkAnswer (not_started id) (Some e)
  | Ok _ => match loadTransaction db id with
            | Some (_, r) => MkAnswer r None
            | None => MkAnswer (not_started id) None
            end
  end.
End commit.

(** ** Deletion: [deletion.go] *)

Definition sqlFenceRunDeletion (ctx : Context) (db : Database) (runID deletionID : string) : result store_error Database :=
  let* _ := storage_id "run ID" runID in
  let* _ := storage_id "deletion ID" deletionID in
  let* _ := requireRunDeletionMutation ctx runID deletionID in
  let* _ := begin_tx ctx in
  match db_fences db !! runID with
  | Some existing => let* _ := guard_err (negb (bool_decide (existing = deletionID))) (SNotAllowed runID) in Ok db
  | None => Ok (set_fences (<[runID := deletionID]> (db_fences db)) db)
  end.

(** The parts of a run that a deleter removes; the row of the run takes all that
    refers to it along. *)
Inductive component := CCheckpoints | CEvents | CArtifacts | CExecution.

Definition delete_checkpoints (runID : string) (db : Database) : Database :=
  with_db_checkpoints (drop_checkpoints runID (db_checkpoints db)) db.
Definition delete_events (runID : string) (db : Database) : Database :=
  with_db_events (filter (λ e, v_RunID e ≠ runID) (db_events db)) db.
Definition delete_artifacts (runID : string) (db : Database) : Database :=
  set_artifact_tables (filter (λ p, f_RunID (artifactRef p.2) ≠ runID) (db_stages db))
    (filter (λ p, p.1.1 ≠ runID) (db_artifacts db)) db.
Definition delete_run_row (runID : string) (db : Database) : Database :=
  let db := with_db_steps (filter (λ p, s_RunID p.2 ≠ runID) (db_steps db)) (with_db_runs (delete runID (db_runs db)) db) in
  delete_artifacts runID (delete_events runID (delete_checkpoints runID db)).

Definition deleteRunComponent (ctx : Context) (db : Database) (runID : string) (part : component) : result store_error Database :=
  let* _ := storage_id "run ID" runID in
  let* _ := begin_tx ctx in
  match db_fences db !! runID with
  | None => Err (SNotAllowed runID)
  | Some deletionID =>
    let* _ := requireRunDeletionMutation ctx runID deletionID in
    Ok (match part with
        | CCheckpoints => delete_checkpoints runID db
        | CEvents => delete_events runID db
        | CArtifacts => delete_artifacts runID db
        | CExecution => if db_runs db !! runID is Some _ then delete_run_row runID db else db
        end)
  end.

Definition sqlDeleteRun (ctx : Context) (db : Database) (runID : string) : result store_error Database :=
  deleteRunComponent ctx db runID CExecution.

Definition sqlLoadRunDeletionManifest (ctx : Context) (db : Database) (id : string) : result store_error RunDeletionManifest :=
  let* _ := storage_id "deletion ID" id in
  let* _ := begin_tx ctx in
  find (db_manifests db) id.

Definition sql_manifest_before : RunDeletionManifest → RunDeletionManifest → bool :=
  less_then m_UpdatedAt z_lt (less_last m_ID str_lt).

Definition sqlListRunDeletionManifests (ctx : Context) (db : Database) : result store_error (list RunDeletionManifest) :=
  let* _ := begin_tx ctx in
  Ok (stable_sort sql_manifest_before (map snd (map_to_list (db_manifests db)))).

Definition sqlSaveRunDeletionManifest (ctx : Context) (db : Database) (m : RunDeletionManifest) : result store_error Database :=
  let* _ := validateRunDeletionManifest m in
  let* _ := begin_tx ctx in
  Ok (set_manifests (<[m_ID m := m]> (db_manifests db)) db).

Definition validate_fence (ctx : Context) (db : Database) (runID : string) : result store_error unit :=
  let deletionID := default "" (db_fences db !! runID) in
  let* _ := storage_id "run ID" runID in
  let* _ := storage_id "deletion ID" deletionID in
  if bool_decide (is_Some (db_manifests db !! deletionID)) then Ok tt else
  match sqlGetRun ctx db runID with Ok _ => Ok tt | Err _ => Err (SInvalid runID "orphan deletion fence") end.

Definition ValidateRunDeletionFences (ctx : Context) (db : Database) : result store_error unit :=
  let* _ := begin_tx ctx in
  first_err (validate_fence ctx db) (sorted_keys (db_fences db)).
