(* ===== verification/SqlCommit.v ===== *)
(** * Transactions of the SQLite store

    A commit of the SQLite store writes what the same commit writes to the maps of the
    memory store, is atomic and durable under faults of [tx.Commit], and keeps the laws
    that the runner's [commitAndResolve] relies on. *)

From Stdlib Require Import Ascii.
From S2P Require Import Prelude GoStrings Values Json JsonDecode Sensitive Errors Lease Records RunStore Stores Artifacts Commit Transactions FileDisk FileStore FileTxn Recovery CommitResolve SqlRows SqlStore.

(** ** What applying a commit leaves alone *)

(** The tables a commit never writes, or only at its end. *)
Definition outside (db : Database) :=
  (db_tasks db, db_attempts db, (db_transactions db, (db_fences db, db_manifests db))).

Lemma foldM_frame {A B} (frame : Database → B) (f : Database → A → result store_error Database) db l db' :
  (∀ d a d', f d a = Ok d' → frame d' = frame d) → foldM f db l = Ok db' → frame db' = frame db.
Proof.
  intros Hf H. apply (foldM_invariant (λ d, frame d = frame db) f db l db'); [|done|done].
  intros s a s' Hs Hstep. by rewrite (Hf _ _ _ Hstep).
Qed.

Lemma insertRun_outside db r db' : insertRun db r = Ok db' → outside db' = outside db.
Proof. unfold insertRun. intros H. by result_inv. Qed.

Lemma updateRun_outside db n r p : updateRun db n r = Ok p → outside p.1 = outside db.
Proof.
  unfold updateRun. intros H. result_inv.
  destruct (db_runs db !! r_RunID r) as [old|]; [destruct (r_Revision old =? n)%N|]; by result_inv.
Qed.

Lemma finalizeArtifactStage_outside tx db g db' : finalizeArtifactStage tx db g = Ok db' → outside db' = outside db.
Proof. unfold finalizeArtifactStage. destruct (db_stages db !! _); intros H; by result_inv. Qed.

Lemma sql_create_outside db r p : sql_create db r = Ok p → outside p.1 = outside db.
Proof.
  unfold sql_create. intros H. result_inv.
  match goal with H : insertRun _ _ = _ |- _ => by apply insertRun_outside in H end.
Qed.

Lemma sql_update_outside ctx c db mode r p : sql_update ctx c db mode r = Ok p → outside p.1 = outside db.
Proof.
  unfold sql_update. intros H. result_inv. case_bool_decide.
  - result_inv. match goal with H : updateRun _ _ _ = _ |- _ => apply updateRun_outside in H end.
    match goal with H : (if ?b then _ else _) = Ok _ |- _ => destruct b; [done|] end. by result_inv.
  - by result_inv.
Qed.

Lemma sql_run_outside ctx c db p : sql_run ctx c db = Ok p → outside p.1 = outside db.
Proof.
  unfold sql_run. destruct (c_Run c) as [w|]; [|by intros [= <-]].
  destruct (rw_Mode w); [by apply sql_create_outside|by apply sql_update_outside|by apply sql_update_outside|done].
Qed.

Lemma sql_artifact_outside c db g db' : sql_artifact c db g = Ok db' → outside db' = outside db.
Proof. unfold sql_artifact. intros H. result_inv. by eapply finalizeArtifactStage_outside. Qed.

Lemma sql_event_outside c db e db' : sql_event c db e = Ok db' → outside db' = outside db.
Proof.
  unfold sql_event, insertEvent. destruct (IsStreamingEvent (v_Type e)); [by intros [= <-]|].
  destruct (row_event e) as [row|]; intros H; by result_inv.
Qed.

Lemma sql_checkpoint_outside c db w db' : sql_checkpoint c db w = Ok db' → outside db' = outside db.
Proof. unfold sql_checkpoint, insertCheckpoint. intros H. by result_inv. Qed.

Lemma sql_step_outside c db w db' : sql_step c db w = Ok db' → outside db' = outside db.
Proof. unfold sql_step, putStep. intros H. by result_inv. Qed.

(** The four folds of a commit. *)
Lemma apply_records_inv c db db' :
  apply_records c db = Ok db' →
  ∃ d1 d2 d3, foldM (sql_step c) db (c_Steps c) = Ok d1 ∧ foldM (sql_checkpoint c) d1 (c_Checkpoints c) = Ok d2 ∧
    foldM (sql_event c) d2 (c_Events c) = Ok d3 ∧ foldM (sql_artifact c) d3 (c_Artifacts c) = Ok db'.
Proof.
  unfold apply_records. intros (d1 & H1 & (d2 & H2 & (d3 & H3 & H4)%result_bind_Ok)%result_bind_Ok)%result_bind_Ok.
  by exists d1, d2, d3.
Qed.

Lemma applyCommit_inv ctx c db run db' :
  applyCommit ctx c db = (run, Ok db') →
  ∃ u d0, check_commit_lease c db = Ok u ∧ sql_run ctx c db = Ok (d0, run) ∧ apply_records c d0 = Ok db'.
Proof.
  unfold applyCommit. destruct (let* _ := _ in _) as [[d0 r]|] eqn:E; [|done]. intros [= <- H].
  apply result_bind_Ok in E as (u & ? & ?). by exists u, d0.
Qed.

Lemma applyCommit_outside ctx c db run db' : applyCommit ctx c db = (run, Ok db') → outside db' = outside db.
Proof.
  intros (u & d0 & _ & H0%sql_run_outside & (d1 & d2 & d3 & H1 & H2 & H3 & H4)%apply_records_inv)%applyCommit_inv.
  apply (foldM_frame outside) in H1; [|apply sql_step_outside]. apply (foldM_frame outside) in H2; [|apply sql_checkpoint_outside].
  apply (foldM_frame outside) in H3; [|apply sql_event_outside]. apply (foldM_frame outside) in H4; [|apply sql_artifact_outside].
  simpl in H0. congruence.
Qed.

(** ** The laws of transactions *)

Section laws.
Context `{CommitDigest}.

(** The ways a commit ends: refused with the database as it was, remembered, or
    applied, the last with the answer lost or not. *)
Lemma sqlCommit_cases ctx freshID fault db c db' a :
  sqlCommit ctx freshID fault db c = (db', a) →
  let c := sanitizeCommit ctx (ensureCommitTransactionID freshID c) in
  let id := c_TransactionID c in
  (db' = db ∧ is_Some (an_Error a) ∧ cr_Outcome (an_Result a) ≠ TransactionCommitted) ∨
  (db' = db ∧ an_Error a = None ∧ ∃ fp, loadTransaction db id = Some (fp, an_Result a)) ∨
  (∃ fp run db1, validateRuntimeCommit c = Ok tt ∧ loadTransaction db id = None ∧ applyCommit ctx c db = (run, Ok db1) ∧
     db' = set_transactions (<[id := (fp, (committed_result c run, []))]> (db_transactions db1)) db1 ∧
     (an_Error a = None ∧ an_Result a = committed_result c run ∨
      is_Some (an_Error a) ∧ an_Result a = unknown id)).
Proof.
  unfold sqlCommit. cbv zeta. set (c0 := ensureCommitTransactionID freshID c). set (c1 := sanitizeCommit ctx c0).
  assert (c_TransactionID c0 = c_TransactionID c1) as Hid by done. rewrite <-Hid.
  destruct (validateRuntimeCommit c1) as [[]|e]; [|intros [= <- <-]; left; by split_and!].
  destruct (commitFingerprint c1) as [fp|]; [|intros [= <- <-]; left; by split_and!].
  destruct (begin_tx ctx); [|intros [= <- <-]; left; by split_and!].
  destruct (loadTransaction db (c_TransactionID c0)) as [[fp' r]|] eqn:Hl.
  { case_bool_decide; intros [= <- <-]; [right; left|left; by split_and!]. split_and!; [done|done|by exists fp']. }
  destruct (applyCommit ctx c1 db) as [run [db1|e]] eqn:Ha; [|intros [= <- <-]; left; by split_and!].
  destruct (insert_transaction _ _ _ _) as [db2|e] eqn:Hi; [|intros [= <- <-]; left; by split_and!].
  unfold insert_transaction in Hi. result_inv. unfold tx_commit.
  destruct fault as [[]|]; intros [= <- <-]; [| left; by split_and! |]; right; right; exists fp, run, db1; split_and!; auto.
Qed.

(** The committed transactions with the faults to come. *)
#[export] Instance sql_transactions : TransactionStore (Database * list (option bool)) store_error := {
  ts_Commit ctx fr c s :=
    let '(db, a) := sqlCommit ctx fr (default None (head s.2)) s.1 c in ((db, tail s.2), Some (an_Result a, errors_of a));
  ts_ResolveCommit ctx id s := let a := sqlResolveCommit ctx s.1 id in (s, Some (an_Result a, errors_of a));
}.

Definition transactions_filed (db : Database) : Prop :=
  ∀ id p, db_transactions db !! id = Some p → cr_Outcome p.2.1 = TransactionCommitted ∧ cr_TransactionID p.2.1 = id.

Lemma applyCommit_transactions ctx c db run db1 : applyCommit ctx c db = (run, Ok db1) → db_transactions db1 = db_transactions db.
Proof. intros Ha%applyCommit_outside. unfold outside in Ha. congruence. Qed.

Lemma loadTransaction_None db id : loadTransaction db id = None → db_transactions db !! id = None.
Proof. unfold loadTransaction. by destruct (db_transactions db !! id). Qed.

#[export, refine] Instance sql_laws : TransactionLaws (Database * list (option bool)) store_error := {
  ts_ok s := transactions_filed s.1;
  ts_recorded s id r := ∃ fp, loadTransaction s.1 id = Some (fp, r);
}.
Proof.
  - intros ctx fr c [db φ] Hs. simpl. destruct (sqlCommit ctx fr _ db c) as [db' a] eqn:Hc. simpl.
    apply sqlCommit_cases in Hc as [(-> & _)|[(-> & _)|(fp & run & db1 & _ & Hn%loadTransaction_None & Ha%applyCommit_transactions & -> & _)]]; [done..|].
    split.
    + intros id p. simpl. rewrite Ha. intros [[<- <-]|[_ Hp]]%lookup_insert_Some; [done|by apply Hs].
    + intros id r [fp' Hp]. exists fp'. unfold loadTransaction in *. simpl. rewrite lookup_insert_ne, Ha; [done|]. intros <-. simpl in Hp, Hn. by rewrite Hn in Hp.
  - done.
  - intros ctx fr c [db φ] r errs Hs. simpl. destruct (sqlCommit ctx fr _ db c) as [db' a] eqn:Hc. simpl. intros [= <- _] Ho.
    apply sqlCommit_cases in Hc as [(_ & _ & Ha)|[(-> & _ & fp & Hl)|(fp & run & db1 & _ & Hn & Ha & -> & [[_ Hr]|[_ Hr]])]]; [done| | |by rewrite Hr in Ho].
    + split; [|by exists fp]. unfold loadTransaction in Hl. simpl in Hl.
      destruct (db_transactions db !! _) as [[f [r ts]]|] eqn:Hx; [|done]. simpl in Hl. injection Hl as _ <-. by apply Hs in Hx as [_ ?].
    + split; [by rewrite Hr|]. exists fp. unfold loadTransaction. simpl. by rewrite lookup_insert_eq, Hr.
  - intros ctx id [db φ] r Hs. simpl. unfold sqlResolveCommit.
    destruct (let* _ := _ in _) as [[]|]; [|done]. destruct (loadTransaction db id) as [[fp r0]|] eqn:Hl; simpl; intros [= <-].
    + unfold loadTransaction in Hl. destruct (db_transactions db !! id) as [[f [r ts]]|] eqn:Hx; [|done]. injection Hl as <- <-.
      rewrite bool_decide_true by (by apply Hs in Hx as [? _]). by exists f.
    + simpl. by intros r' [fp Hx].
  - intros ctx fr c [db φ] r Hs. simpl. destruct (sqlCommit ctx fr _ db c) as [db' a] eqn:Hc. simpl.
    unfold errors_of. destruct (an_Error a) eqn:He; [done|]. intros [= <-].
    apply sqlCommit_cases in Hc as [(_ & [e Hx] & _)|[(-> & _ & fp & Hl)|(fp & run & db1 & _ & Hn & Ha & -> & [[_ Hr]|[[e Hx] _]])]]; [congruence| |by rewrite Hr|congruence].
    unfold loadTransaction in Hl. destruct (db_transactions db !! _) as [[f [r ts]]|] eqn:Hx; [|done]. simpl in Hl. injection Hl as _ <-. by apply Hs in Hx as [? _].
Defined.
End laws.

(** ** The same tables as the memory store *)

(** What [loadRun] shows of the runs, and the events by run. *)
Definition tables_of_db (db : Database) : Tables :=
  MkTables (cloneRunRecord <$> db_runs db) (db_steps db) (db_checkpoints db) (foldl append_event ∅ (db_events db)).

(** The rows of the runs are filed under their IDs. *)
Definition runs_filed (db : Database) : Prop := ∀ id r, db_runs db !! id = Some r → r_RunID r = id.

(** The commit does not create a run below a fenced one. *)
Definition parent_free (fences : gmap string string) (c : Commit) : Prop :=
  match c_Run c with
  | Some w => rw_Mode w = RunWriteCreate → r_ParentRunID (rw_Run w) ≠ "" → fences !! r_ParentRunID (rw_Run w) = None
  | None => True
  end.

(** The records of the commit are kept as they are by their JSON rows: their texts
    are UTF-8 and the payloads of events compact JSON. *)
Record kept_rows (c : Commit) : Prop := {
  kr_run w : c_Run c = Some w → row_run (rw_Run w) = rw_Run w;
  kr_steps : Forall (λ w, row_step (sw_Step w) = sw_Step w) (c_Steps c);
  kr_checkpoints : Forall (λ w, row_checkpoint (without_PayloadRef (cw_Record w)) = without_PayloadRef (cw_Record w)) (c_Checkpoints c);
  kr_events : Forall (λ e, row_event e = Some e) (c_Events c);
}.

Lemma foldM_sim {A} (f : Database → A → result store_error Database) (g : Tables → A → result store_error Tables) l :
  (∀ a, a ∈ l → ∀ d d', f d a = Ok d' → g (tables_of_db d) a = Ok (tables_of_db d')) →
  ∀ d d', foldM f d l = Ok d' → foldM g (tables_of_db d) l = Ok (tables_of_db d').
Proof.
  induction l as [|a l IH]; intros Hstep d d'; simpl; [by intros [= <-]|].
  intros (d1 & Hf & Hr)%result_bind_Ok. rewrite (Hstep a) with (d' := d1) by (done || by left). simpl.
  apply IH; [|done]. intros b Hb. apply Hstep. by right.
Qed.

Lemma find_tables_run db id r : loadRun db id = Ok r → find (t_runs (tables_of_db db)) id = Ok r.
Proof.
  unfold loadRun. intros (x & Hx%find_Ok & [= <-])%result_bind_Ok. unfold find. simpl. by rewrite lookup_fmap, Hx.
Qed.

Lemma writable_fences db id u : ensureRunWritable db id = Ok u → ensureMemoryRunWritable (db_fences db) id = Ok tt.
Proof.
  unfold ensureRunWritable, ensureMemoryRunWritable, fence_of. rewrite guard_err_Ok. intros Hn%bool_decide_eq_false%eq_None_not_Some.
  by rewrite Hn.
Qed.

Section agree.
Context (ctx : Context) (c : Commit).

Lemma check_target_agree db id run u :
  loadRun db id = Ok run → r_RunID run = id → validateCommitRunWrite c db run = Ok u →
  check_target c (db_fences db) (tables_of_db db) id = Ok tt.
Proof.
  intros Hl Hid. unfold validateCommitRunWrite, check_target. intros H. result_inv.
  rewrite (find_tables_run _ _ _ Hl). cbn [result_bind].
  match goal with H : validateCommitExecutionLease _ _ = Ok ?u |- _ => destruct u; rewrite H end. cbn [result_bind].
  match goal with H : ensureRunWritable _ _ = _ |- _ => rewrite Hid in H; rewrite (writable_fences _ _ _ H) end. cbn [result_bind].
  by destruct u.
Qed.

Lemma runs_filed_load db id run : runs_filed db → loadRun db id = Ok run → r_RunID run = id.
Proof. unfold loadRun. intros Hf (x & Hx%find_Ok & [= <-])%result_bind_Ok. simpl. by apply Hf. Qed.

(** The runs of a commit do not move between its folds. *)
Definition same_runs (db db' : Database) : Prop := db_runs db' = db_runs db ∧ db_fences db' = db_fences db.

Lemma sql_step_agree db w db' :
  runs_filed db → row_step (sw_Step w) = sw_Step w → storage_id "run ID" (s_RunID (sw_Step w)) = Ok tt → storage_id "step ID" (s_StepID (sw_Step w)) = Ok tt →
  sql_step c db w = Ok db' → apply_step c (db_fences db) (tables_of_db db) w = Ok (tables_of_db db') ∧ same_runs db db'.
Proof.
  intros Hf Hrow H1 H2. unfold sql_step, apply_step. cbv zeta. rewrite H1, H2. intros H. cbn [result_bind].
  apply result_bind_Ok in H as (run & Hl & H). apply result_bind_Ok in H as (u & Hv & H). apply result_bind_Ok in H as ([] & Hm & H).
  rewrite (check_target_agree _ _ _ _ Hl (runs_filed_load _ _ _ Hf Hl) Hv). cbn [result_bind].
  unfold putStep in H. rewrite Hrow in H. result_inv. unfold loadStep in Hm.
  assert (match sw_Mode w with
    | StepWriteAppend => guard_err (bool_decide (is_Some (t_steps (tables_of_db db) !! s_StepID (sw_Step w)))) (SExists (s_StepID (sw_Step w)))
    | StepWriteUpdate =>
        let* existing := find (t_steps (tables_of_db db)) (s_StepID (sw_Step w)) in
        let* _ := guard_err (negb (bool_decide (s_RunID existing = s_RunID (sw_Step w)))) (SNotFound (s_StepID (sw_Step w))) in
        validateStepEffectTransition existing (sw_Step w)
    | StepWriteOther m => Err (SInvalid (s_StepID (sw_Step w)) m)
    end = Ok tt) as -> by exact Hm.
  by split.
Qed.

Lemma sql_checkpoint_agree db w db' :
  runs_filed db → row_checkpoint (without_PayloadRef (cw_Record w)) = without_PayloadRef (cw_Record w) → storage_id "run ID" (k_RunID (cw_Record w)) = Ok tt → storage_id "checkpoint ID" (k_CheckpointID (cw_Record w)) = Ok tt →
  sql_checkpoint c db w = Ok db' → apply_checkpoint c (db_fences db) (tables_of_db db) w = Ok (tables_of_db db') ∧ same_runs db db'.
Proof.
  intros Hf Hrow H1 H2. unfold sql_checkpoint, apply_checkpoint. cbv zeta. rewrite H1, H2. intros H. cbn [result_bind].
  apply result_bind_Ok in H as (run & Hl & H). apply result_bind_Ok in H as (u & Hv & H).
  rewrite (check_target_agree _ _ _ _ Hl (runs_filed_load _ _ _ Hf Hl) Hv). cbn [result_bind].
  unfold insertCheckpoint in H. rewrite Hrow in H. result_inv. simpl in *.
  match goal with H : bool_decide _ = false |- _ => rewrite H end. by split.
Qed.

Lemma sql_event_agree db e db' :
  runs_filed db → row_event e = Some e → sql_event c db e = Ok db' →
  apply_event c (db_fences db) (tables_of_db db) e = Ok (tables_of_db db') ∧ same_runs db db'.
Proof.
  intros Hf Hrow. unfold sql_event, apply_event. destruct (IsStreamingEvent (v_Type e)); [by intros [= <-]|]. intros H.
  apply result_bind_Ok in H as (run & Hl & H). apply result_bind_Ok in H as (u & Hv & H).
  rewrite (check_target_agree _ _ _ _ Hl (runs_filed_load _ _ _ Hf Hl) Hv). cbn [result_bind].
  unfold insertEvent in H. rewrite Hrow in H. result_inv. split; [|done]. unfold with_events, tables_of_db. simpl. by rewrite foldl_snoc.
Qed.

Lemma sql_artifact_agree db g db' :
  runs_filed db → sql_artifact c db g = Ok db' →
  check_target c (db_fences db) (tables_of_db db) (f_RunID (g_Ref g)) = Ok tt ∧ tables_of_db db' = tables_of_db db ∧ same_runs db db'.
Proof.
  intros Hf. unfold sql_artifact. intros H.
  apply result_bind_Ok in H as (run & Hl & H). apply result_bind_Ok in H as (u & Hv & H).
  split; [by apply (check_target_agree _ _ _ _ Hl (runs_filed_load _ _ _ Hf Hl) Hv)|].
  unfold finalizeArtifactStage in H. destruct (db_stages db !! _); result_inv; by repeat split.
Qed.

Lemma foldM_agree {A} (f : Database → A → result store_error Database) (g : gmap string string → Tables → A → result store_error Tables)
    (P : A → Prop) l db db' :
  (∀ d a d', runs_filed d → P a → f d a = Ok d' → g (db_fences d) (tables_of_db d) a = Ok (tables_of_db d') ∧ same_runs d d') →
  runs_filed db → Forall P l → foldM f db l = Ok db' →
  foldM (g (db_fences db)) (tables_of_db db) l = Ok (tables_of_db db') ∧ same_runs db db'.
Proof.
  intros Hstep. revert db. induction l as [|a l IH]; intros db Hf Hp; simpl; [by intros [= <-]|].
  intros (d1 & H1 & Hr)%result_bind_Ok. apply Forall_cons in Hp as [Ha Hp].
  destruct (Hstep db a d1 Hf Ha H1) as [-> [Er Ef]]. simpl.
  destruct (IH d1) as [Hg [Er' Ef']]; [unfold runs_filed; by rewrite Er|done|done|]. rewrite Ef in *. split; [done|]. split; congruence.
Qed.

Lemma artifacts_agree l db db' :
  runs_filed db → foldM (sql_artifact c) db l = Ok db' →
  first_err (λ g, check_target c (db_fences db) (tables_of_db db) (f_RunID (g_Ref g))) l = Ok tt ∧ tables_of_db db' = tables_of_db db.
Proof.
  revert db. induction l as [|g l IH]; intros db Hf; simpl; [by intros [= <-]|].
  intros (d1 & H1 & Hr)%result_bind_Ok. destruct (sql_artifact_agree db g d1 Hf H1) as (-> & Et & Er & Ef). simpl.
  destruct (IH d1) as [Hg ->]; [unfold runs_filed; by rewrite Er|done|]. rewrite Ef, Et in Hg. by split.
Qed.

Lemma tables_put_run db r :
  tables_of_db (with_db_runs (<[r_RunID r := r]> (db_runs db)) db) =
  with_runs (<[r_RunID r := cloneRunRecord r]> (t_runs (tables_of_db db))) (tables_of_db db).
Proof. unfold tables_of_db, with_runs. simpl. by rewrite fmap_insert. Qed.

Lemma filed_put_run db r : runs_filed db → runs_filed (with_db_runs (<[r_RunID r := r]> (db_runs db)) db).
Proof. intros Hf id x. simpl. intros [[<- <-]|[_ Hx]]%lookup_insert_Some; [done|by apply Hf]. Qed.

Lemma sql_create_agree db r p :
  runs_filed db → row_run r = r → (r_ParentRunID r ≠ "" → db_fences db !! r_ParentRunID r = None) → sql_create db r = Ok p →
  apply_create (db_fences db) r (tables_of_db db) = Ok (tables_of_db p.1, p.2) ∧ runs_filed p.1 ∧ db_fences p.1 = db_fences db.
Proof.
  intros Hf Hrow Hpar. unfold sql_create, apply_create. intros H.
  apply result_bind_Ok in H as (u0 & Hnone%guard_err_Ok & H). apply result_bind_Ok in H as ([] & Hnew & H).
  apply result_bind_Ok in H as (u2 & Hw & H). apply result_bind_Ok in H as ([] & Hp & H). apply result_bind_Ok in H as (db1 & Hi & H).
  apply Ok_inj in H. subst p. unfold insertRun in Hi. rewrite Hrow in Hi. result_inv. rewrite Hnew, (writable_fences _ _ _ Hw). cbn [result_bind].
  assert (bool_decide (is_Some (t_runs (tables_of_db db) !! r_RunID r)) = false) as ->.
  { apply bool_decide_eq_false in Hnone. apply bool_decide_eq_false. simpl. rewrite lookup_fmap, fmap_is_Some. done. }
  cbn [guard_err result_bind].
  assert ((if bool_decide (r_ParentRunID r = "") then Ok tt else
             let* _ := ensureMemoryRunWritable (db_fences db) (r_ParentRunID r) in
             let* parent := find (t_runs (tables_of_db db)) (r_ParentRunID r) in
             validateNewRunParent r parent) = Ok tt) as ->.
  { destruct (decide (r_ParentRunID r = "")) as [Hb|Hb]; [by rewrite bool_decide_true|].
    rewrite bool_decide_false in Hp by done. rewrite bool_decide_false by done. apply result_bind_Ok in Hp as (parent & Hl & Hp).
    unfold ensureMemoryRunWritable, fence_of. rewrite (Hpar Hb). cbn [default guard_err result_bind].
    rewrite bool_decide_true by done. cbn [negb guard_err result_bind]. rewrite (find_tables_run _ _ _ Hl). done. }
  cbn [result_bind fst snd]. rewrite tables_put_run. split; [done|]. split; [by apply filed_put_run|done].
Qed.

Lemma sql_update_agree db mode r p :
  runs_filed db → row_run r = r → mode = RunWriteUpdate ∨ mode = RunWriteCheck → sql_update ctx c db mode r = Ok p →
  apply_update ctx c (db_fences db) mode r (tables_of_db db) = Ok (tables_of_db p.1, p.2) ∧ runs_filed p.1 ∧ db_fences p.1 = db_fences db.
Proof.
  intros Hf Hrow Hm. unfold sql_update, apply_update. intros H.
  apply result_bind_Ok in H as (old & Hl & H). apply result_bind_Ok in H as (u0 & Hrev & H).
  apply result_bind_Ok in H as ([] & Hlease & H). apply result_bind_Ok in H as (u1 & Heq & H).
  apply result_bind_Ok in H as (u2 & Hw & H). apply result_bind_Ok in H as ([] & Hnd & H).
  rewrite (find_tables_run _ _ _ Hl). cbn [result_bind]. rewrite (bool_decide_true (r_RunID old = r_RunID r)) by (by apply runs_filed_load in Hl).
  cbn [negb]. unfold refuse at 1. cbn [guard_err result_bind]. destruct u0, u1. rewrite Hrev, Hlease, Heq. cbn [result_bind].
  destruct Hm as [->| ->].
  - rewrite bool_decide_true in H by done. rewrite bool_decide_false by done.
    apply result_bind_Ok in H as ([] & Htr & H). rewrite Htr. cbn [result_bind].
    apply result_bind_Ok in H as ([db1 b] & Hu & H). unfold updateRun in Hu.
    change (row_run (with_Revision ?n r)) with (with_Revision n (row_run r)) in Hu. rewrite Hrow in Hu.
    apply result_bind_Ok in Hu as (? & _ & Hu). apply result_bind_Ok in Hu as (? & _ & Hu).
    destruct (db_runs db !! r_RunID (with_Revision (next_revision (r_Revision r)) r)) as [x2|]; [|by injection Hu as <- <-].
    destruct (r_Revision x2 =? r_Revision old)%N; injection Hu as <- <-; simpl in H; [|done]. apply Ok_inj in H. subst p.
    split; [|split; [exact (filed_put_run db (with_Revision (next_revision (r_Revision r)) r) Hf)|done]].
    f_equal. f_equal. symmetry. exact (tables_put_run db (with_Revision (next_revision (r_Revision r)) r)).
  - rewrite bool_decide_false in H by done. rewrite bool_decide_true by done. apply Ok_inj in H. subst p.
    rewrite (writable_fences _ _ _ Hw), Hnd. cbn [result_bind fst snd]. done.
Qed.

Lemma row_clone r : row_run r = r → row_run (cloneRunRecord r) = cloneRunRecord r.
Proof.
  intros Hrow. transitivity (cloneRunRecord (row_run r)); [|by rewrite Hrow].
  destruct r as [? ? ? ? ? ? ? ? ? ? ? ? ? [[? ? ? ? [[|x l]|]]|]]; done.
Qed.

Lemma sql_run_agree db p :
  runs_filed db → (∀ w, c_Run c = Some w → row_run (rw_Run w) = rw_Run w) → parent_free (db_fences db) c → (∀ w m, c_Run c = Some w → rw_Mode w ≠ RunWriteOther m) → sql_run ctx c db = Ok p →
  apply_run ctx c (db_fences db) (tables_of_db db) = Ok (tables_of_db p.1, p.2) ∧ runs_filed p.1 ∧ db_fences p.1 = db_fences db.
Proof.
  intros Hf Hrow Hpar Hmode. unfold sql_run, apply_run, parent_free in *. destruct (c_Run c) as [w|]; [|by intros [= <-]]. cbv zeta.
  specialize (Hrow w eq_refl). apply row_clone in Hrow.
  destruct (rw_Mode w) as [| | |m] eqn:Hm; [| | |by destruct (Hmode w m)].
  - apply sql_create_agree; [done|done|]. intros Hp. by apply Hpar.
  - apply sql_update_agree; [done|done|by left].
  - apply sql_update_agree; [done|done|by right].
Qed.
End agree.

(** The records of a validated commit have identifiers. *)
Lemma validated_records c u :
  validateRuntimeCommit c = Ok u →
  Forall (λ w, storage_id "run ID" (s_RunID (sw_Step w)) = Ok tt ∧ storage_id "step ID" (s_StepID (sw_Step w)) = Ok tt) (c_Steps c) ∧
  Forall (λ w, storage_id "run ID" (k_RunID (cw_Record w)) = Ok tt ∧ storage_id "checkpoint ID" (k_CheckpointID (cw_Record w)) = Ok tt) (c_Checkpoints c).
Proof.
  unfold validateRuntimeCommit. intros H.
  do 3 apply result_bind_Ok in H as ([] & _ & H). apply result_bind_Ok in H as ([] & Hs & H). apply result_bind_Ok in H as ([] & Hk & _).
  rewrite first_err_Ok in Hs. rewrite first_err_Ok in Hk. rewrite !Forall_forall. split.
  - intros w Hw. specialize (Hs w Hw). apply result_bind_Ok in Hs as ([] & ? & Hs). by apply result_bind_Ok in Hs as ([] & ? & Hs).
  - intros w Hw. specialize (Hk w Hw). apply result_bind_Ok in Hk as ([] & ? & Hk). done.
Qed.

(** C31: whatever the SQLite store writes in a commit the memory store writes too.  When the transaction
    applies, the commit creates no run below one that is fenced and JSON keeps its records as they
    are, the same commit applies to the memory store's maps under the same fences, and leaves the same
    runs, steps, checkpoints, logs and result; so every guarantee of those holds here *)
Theorem sqlite_commit_agrees ctx c db run db' :
  validateRuntimeCommit c = Ok tt → kept_rows c → runs_filed db → parent_free (db_fences db) c → applyCommit ctx c db = (run, Ok db') →
  applyMemoryCommit ctx c (db_fences db) (tables_of_db db) = Ok (tables_of_db db', run) ∧
  (typed_commit c → part (db_fences db) (tables_of_db db) (tables_of_db db')).
Proof.
  intros Hv [Kr Ks Kk Ke] Hf Hpar (u & d0 & Hl & Hr & (d1 & d2 & d3 & H1 & H2 & H3 & H4)%apply_records_inv)%applyCommit_inv.
  destruct (validated_records c _ Hv) as [Vs Vk].
  destruct (sql_run_agree ctx c db _ Hf Kr Hpar (λ w m, validated_mode c _ w m Hv) Hr) as (Ar & F0 & E0). cbn [fst snd] in *.
  apply (foldM_agree _ (λ fences, apply_step c fences) (λ w, row_step (sw_Step w) = sw_Step w ∧
      storage_id "run ID" (s_RunID (sw_Step w)) = Ok tt ∧ storage_id "step ID" (s_StepID (sw_Step w)) = Ok tt))
    in H1 as [A1 [R1 E1]]; [|intros d a d' ? (? & ? & ?) ?; by apply sql_step_agree|done|by apply Forall_and].
  assert (runs_filed d1) as F1 by (unfold runs_filed; by rewrite R1).
  apply (foldM_agree _ (λ fences, apply_checkpoint c fences) (λ w, row_checkpoint (without_PayloadRef (cw_Record w)) = without_PayloadRef (cw_Record w) ∧
      storage_id "run ID" (k_RunID (cw_Record w)) = Ok tt ∧ storage_id "checkpoint ID" (k_CheckpointID (cw_Record w)) = Ok tt))
    in H2 as [A2 [R2 E2]]; [|intros d a d' ? (? & ? & ?) ?; by apply sql_checkpoint_agree|done|by apply Forall_and].
  assert (runs_filed d2) as F2 by (unfold runs_filed; by rewrite R2).
  apply (foldM_agree _ (λ fences, apply_event c fences) (λ e, row_event e = Some e)) in H3 as [A3 [R3 E3]];
    [|intros d a d' ? ? ?; by apply sql_event_agree|done|done].
  assert (runs_filed d3) as F3 by (unfold runs_filed; by rewrite R3).
  apply artifacts_agree in H4 as [A4 E4]; [|done]. rewrite E3, E2, E1, E0 in A4. rewrite E2, E1, E0 in A3. rewrite E1, E0 in A2. rewrite E0 in A1.
  assert (applyMemoryCommit ctx c (db_fences db) (tables_of_db db) = Ok (tables_of_db db', run)) as Hall.
  { unfold applyMemoryCommit. rewrite Hv. cbn [result_bind].
    assert (match c_Lease c with
      | None => Ok tt
      | Some g => let* r := find (t_runs (tables_of_db db)) (g_RunID g) in lift_lease (validateExecutionLeaseGuard (leased r) g)
      end = Ok tt) as ->.
    { unfold check_commit_lease in Hl. destruct (c_Lease c) as [g|]; [|done].
      apply result_bind_Ok in Hl as (r & Hr' & Hl). rewrite (find_tables_run _ _ _ Hr'). by destruct u. }
    cbn [result_bind]. rewrite Ar. cbn [result_bind fst snd]. rewrite A1. cbn [result_bind]. rewrite A2. cbn [result_bind].
    rewrite A3. cbn [result_bind]. rewrite A4. cbn [result_bind]. by rewrite E4. }
  split; [done|]. intros Ht. by eapply applied_part.
Qed.

(** ** A commit on an empty database *)

Section demo.
#[local] Existing Instance demo_digest.

Definition demo_sanitized : Commit := sanitizeCommit Background demo_commit.
Definition demo_applied_db : option RunRecord * result store_error Database := applyCommit Background demo_sanitized empty_db.

Lemma demo_rows : kept_rows demo_sanitized.
Proof.
  split; [|apply (bool_decide_eq_true_1 _); vm_compute; reflexivity..].
  intros w Hw. apply Some_inj in Hw as <-. apply (bool_decide_eq_true_1 _). vm_compute. reflexivity.
Qed.

Lemma sqlite_commit_agrees_witness :
  ∃ run db', demo_applied_db = (run, Ok db') ∧
    applyMemoryCommit Background demo_sanitized ∅ (tables_of_db empty_db) = Ok (tables_of_db db', run) ∧
    size (t_steps (tables_of_db db')) = 1 ∧ length (log_of (t_events (tables_of_db db')) "run-1") = 1.
Proof.
  assert (match demo_applied_db.2 with
    | Ok db' => Nat.eqb (size (t_steps (tables_of_db db'))) 1 && Nat.eqb (length (log_of (t_events (tables_of_db db')) "run-1")) 1
    | Err _ => false end = true) as Hsize by (vm_compute; reflexivity).
  destruct demo_applied_db as [run [db'|e]] eqn:E; [|discriminate]. exists run, db'. split; [reflexivity|].
  apply andb_true_iff in Hsize as [H1 H2]. apply Nat.eqb_eq in H1. apply Nat.eqb_eq in H2.
  split; [|split; [exact H1|exact H2]].
  refine (proj1 (sqlite_commit_agrees Background demo_sanitized empty_db run db' _ demo_rows _ _ E)).
  - vm_compute. reflexivity.
  - intros id r Hr. vm_compute in Hr. discriminate.
  - intros _ _. vm_compute. reflexivity.
Defined.

(** [commitAndResolve] on the SQLite store whose answer was lost: the runner still learns the truth. *)
Example sql_lost_answer :
  rv_Errors <$> (commitAndResolve (H := sql_transactions) Background "tx-0" demo_commit (empty_db, [Some true])).2 = Some [].
Proof. vm_compute. reflexivity. Qed.

(** The run again, as the child of another. *)
Definition demo_below : RunRecord :=
  MkRunRecord "run-2" 0 "run-1" "step-1" "" "" "" None "run-1" ["run-1"; "run-2"] "main" [] [] None
    "graph" "v1" "" "" "" "" "" "" None RunStatusFailed "start" "start" ["start"] [] [] "" "" ""
    false false "" "" 5 6 None.

Definition fenced_parent : Database :=
  set_fences {["run-1" := "del-1"]} (sqlCommit Background "tx-0" None empty_db demo_commit).1.

(** Creating a run below a fenced one is refused by [CreateRun], and committed by [Commit],
    which checks the fence of the run alone; the memory store checks both. *)
Theorem sql_child_below_fenced :
  sqlCreateRun Background fenced_parent demo_below = Err (SNotAllowed "run-1") ∧
  let r := sqlCommit Background "tx-2" None fenced_parent (MkCommit "tx-2" None (Some (MkRunWrite RunWriteCreate demo_below)) [] [] [] []) in
  an_Error r.2 = None ∧ is_Some (db_runs r.1 !! "run-2") ∧
  applyMemoryCommit Background (MkCommit "tx-2" None (Some (MkRunWrite RunWriteCreate demo_below)) [] [] [] [])
    (db_fences fenced_parent) (tables_of_db fenced_parent) = Err (SNotAllowed "run-1").
Proof. split; [vm_compute; reflexivity|]. split; [vm_compute; reflexivity|]. split; [vm_compute; by eexists|vm_compute; reflexivity]. Qed.
End demo.
