(* ===== verification/SqlQueue.v ===== *)
(** * The task queue of the SQLite store: [internal/runtimestore/sqlite/queue.go]

    Tasks with leases, attempts and workers, next to the tables of the runs, so
    that a task changes in the transaction that commits what it did.  Fresh
    identifiers and the clock are arguments; every operation is one transaction. *)

From Stdlib Require Import Ascii.
From S2P Require Import Prelude GoStrings Values Json JsonDecode Sensitive Errors Lease Records RunStore Stores Artifacts Commit SqlRows SqlStore.

(** ** Statuses and errors: [runtime/task_queue.go] *)

Definition TaskStatusQueued : string := "queued".
Definition TaskStatusRunning : string := "running".
Definition TaskStatusCompleted : string := "completed".
Definition TaskStatusFailed : string := "failed".
Definition TaskStatusCanceled : string := "canceled".
Definition TaskStatusDead : string := "dead".

Definition AttemptStatusRunning : string := "running".
Definition AttemptStatusCompleted : string := "completed".
Definition AttemptStatusFailed : string := "failed".
Definition AttemptStatusCanceled : string := "canceled".
Definition AttemptStatusAbandoned : string := "abandoned".

Definition TaskKindGraphRun : string := "graph.run".

Inductive queue_error :=
  | QStore (e : store_error)
  | ErrTaskNotFound
  | ErrTaskConflict
  | ErrTaskLeaseLost
  | QNoAttempt                       (* [sql.ErrNoRows] *)
  | QInvalid (what : string).

Definition lift_queue {A} (m : result store_error A) : result queue_error A :=
  match m with Ok a => Ok a | Err e => Err (QStore e) end.

(** ** Rows *)

(** A task with the fields that change. *)
Definition task_with (status : string) (version : N) (attempts availableAt : Z) (lease : option TaskLease)
    (payload lastError : string) (updatedAt : Z) (completedAt : option Z) (t : Task) : Task :=
  MkTask (q_ID t) (q_Kind t) (q_RunID t) (q_StepID t) (q_GraphTaskID t) (q_OperationID t) (q_GraphID t)
    (q_GraphSessionID t) (q_CheckpointID t) payload status version attempts (q_MaxAttempts t) availableAt lease
    lastError (q_CreatedAt t) updatedAt completedAt.

Definition attempt_with (status message : string) (heartbeatAt : Z) (finishedAt : option Z) (a : TaskAttempt) : TaskAttempt :=
  MkAttempt (at_ID a) (at_TaskID a) (at_Number a) (at_WorkerID a) (at_LeaseToken a) (at_LeaseEpoch a) status
    (at_StartedAt a) heartbeatAt finishedAt message.

Definition next_version (n : N) : N := ((n + 1) mod 2 ^ 64)%N.

Definition with_tasks (m : gmap string Task) (db : Database) : Database := set_queue m (db_attempts db) (db_workers db) db.
Definition with_attempts (m : gmap (string * Z) TaskAttempt) (db : Database) : Database :=
  set_queue (db_tasks db) m (db_workers db) db.
Definition with_workers (m : gmap string (Z * WorkerIdentity)) (db : Database) : Database :=
  set_queue (db_tasks db) (db_attempts db) m db.

Definition taskLeaseExpiry (t : Task) : Z := match q_Lease t with Some l => tl_ExpiresAt l | None => 0 end.

Definition loadTask (db : Database) (taskID : string) : result queue_error Task :=
  match db_tasks db !! taskID with Some t => Ok t | None => Err ErrTaskNotFound end.

Definition bind_version (id : string) (n : N) : result queue_error unit := lift_queue (bind_uint64 id n).

(** [UPDATE tasks ... WHERE task_id=? AND version=?]. *)
Definition updateTaskVersion (db : Database) (expected : N) (t : Task) : result queue_error (Database * bool) :=
  let* _ := bind_version (q_ID t) (q_Version t) in
  let* _ := bind_version (q_ID t) expected in
  match db_tasks db !! q_ID t with
  | Some existing =>
    if (q_Version existing =? expected)%N then Ok (with_tasks (<[q_ID t := t]> (db_tasks db)) db, true) else Ok (db, false)
  | None => Ok (db, false)
  end.

(** The update that must find its row. *)
Definition update_or (e : queue_error) (db : Database) (expected : N) (t : Task) : result queue_error Database :=
  let* p := updateTaskVersion db expected t in
  if p.2 then Ok p.1 else Err e.

Definition insertAttempt (db : Database) (a : TaskAttempt) : result queue_error Database :=
  let* _ := guard_err (bool_decide (at_ID a ∈ map (at_ID ∘ snd) (map_to_list (db_attempts db)))) (QStore (SExists (at_ID a))) in
  let* _ := guard_err (bool_decide (is_Some (db_attempts db !! (at_TaskID a, at_Number a)))) (QStore (SExists (at_ID a))) in
  let* _ := guard_err (negb (bool_decide (is_Some (db_tasks db !! at_TaskID a)))) (QStore (SInvalid (at_TaskID a) "FOREIGN KEY constraint failed")) in
  Ok (with_attempts (<[(at_TaskID a, at_Number a) := a]> (db_attempts db)) db).

Definition current_attempt (db : Database) (t : Task) : result queue_error TaskAttempt :=
  match db_attempts db !! (q_ID t, q_AttemptCount t) with Some a => Ok a | None => Err QNoAttempt end.

Definition updateAttempt (db : Database) (t : Task) (status message : string) (finishedAt : option Z) : result queue_error Database :=
  let* a := current_attempt db t in
  let heartbeat := match q_Lease t with Some l => tl_HeartbeatAt l | None => at_HeartbeatAt a end in
  Ok (with_attempts (<[(q_ID t, q_AttemptCount t) := attempt_with status message heartbeat finishedAt a]> (db_attempts db)) db).

Definition abandonRunningAttempt (db : Database) (t : Task) (now : Z) : result queue_error Database :=
  if (q_AttemptCount t <=? 0)%Z then Ok db else
  let* a := current_attempt db t in
  Ok (with_attempts (<[(q_ID t, q_AttemptCount t) :=
        attempt_with AttemptStatusAbandoned "task lease expired" (at_HeartbeatAt a) (Some now) a]> (db_attempts db)) db).

Definition validateTask (t : Task) : result queue_error unit :=
  let* _ := lift_queue (storage_id "task ID" (q_ID t)) in
  let* _ := guard_err (bool_decide (TrimSpace (q_Kind t) = "")) (QInvalid "task kind is required") in
  if bool_decide (q_RunID t = "") then Ok tt else lift_queue (storage_id "run ID" (q_RunID t)).

(** [validateTaskLease]; no caller allows an expired lease. *)
Definition validateTaskLease (t : Task) (l : TaskLease) (now : Z) : result queue_error unit :=
  match q_Lease t with
  | Some current =>
    let* _ := guard_err (negb (bool_decide (q_Status t = TaskStatusRunning))) ErrTaskLeaseLost in
    let* _ := guard_err (negb (bool_decide (tl_TaskID current = tl_TaskID l)) || negb (bool_decide (tl_WorkerID current = tl_WorkerID l))
                         || negb (bool_decide (tl_Token current = tl_Token l)) || negb (tl_Epoch current =? tl_Epoch l)%N) ErrTaskLeaseLost in
    guard_err (tl_ExpiresAt current <=? now)%Z ErrTaskLeaseLost
  | None => Err ErrTaskLeaseLost
  end.

Definition isTerminalTaskRunStatus (status : string) : bool :=
  bool_decide (status ∈ [RunStatusCompleted; RunStatusFailed; RunStatusCanceled]).

(** [if task.RunID != "" { ensureRunWritable }]. *)
Definition task_run_writable (db : Database) (t : Task) : result queue_error unit :=
  if bool_decide (q_RunID t = "") then Ok tt else lift_queue (ensureRunWritable db (q_RunID t)).

(** ** Failures *)

Record TaskFailure := MkFailure { tf_Message : string; tf_RetryAt : Z; tf_Retryable : bool }.
Record TaskFailureTransition := MkFailureTransition { ft_Lease : TaskLease; ft_Failure : TaskFailure }.

(** What a failure makes of the task. *)
Definition failure_status (t : Task) (f : TaskFailure) : string :=
  if tf_Retryable f && ((q_MaxAttempts t <=? 0)%Z || (q_AttemptCount t <? q_MaxAttempts t)%Z) then TaskStatusQueued
  else if (0 <? q_MaxAttempts t)%Z && (q_MaxAttempts t <=? q_AttemptCount t)%Z then TaskStatusDead
  else TaskStatusFailed.

Definition failed_task (t : Task) (f : TaskFailure) (now : Z) : Task :=
  let status := failure_status t f in
  let queued := bool_decide (status = TaskStatusQueued) in
  task_with status (next_version (q_Version t)) (q_AttemptCount t)
    (if queued then (if (tf_RetryAt f =? 0)%Z then now else tf_RetryAt f) else q_AvailableAt t)
    None (q_Payload t) (TrimSpace (tf_Message f)) now (if queued then q_CompletedAt t else Some now) t.

(** ** Claiming *)

Record TaskClaimOptions := MkClaim { co_TaskID : string; co_Kinds : list string; co_Now : Z; co_TTL : Z }.

(** The condition of the query of [selectClaimableTask]. *)
Definition claimable (db : Database) (taskID : string) (kinds : list string) (now : Z) (t : Task) : bool :=
  ((bool_decide (q_Status t = TaskStatusQueued) && (q_AvailableAt t <=? now)%Z)
   || (bool_decide (q_Status t = TaskStatusRunning) && (0 <? taskLeaseExpiry t)%Z && (taskLeaseExpiry t <=? now)%Z))
  && negb (bool_decide (is_Some (db_fences db !! q_RunID t)))
  && (bool_decide (TrimSpace taskID = "") || bool_decide (q_ID t = TrimSpace taskID))
  && (bool_decide (kinds = []) || bool_decide (q_Kind t ∈ map TrimSpace kinds))
  && ((q_MaxAttempts t <=? 0)%Z || (q_AttemptCount t <? q_MaxAttempts t)%Z).

Definition task_before : Task → Task → bool :=
  less_then q_AvailableAt z_lt (less_then q_CreatedAt z_lt (less_last q_ID str_lt)).

Definition selectClaimableTask (db : Database) (taskID : string) (kinds : list string) (now : Z) : result queue_error Task :=
  match stable_sort task_before (filter (λ t, claimable db taskID kinds now t = true) (map_to_list (db_tasks db)).*2) with
  | t :: _ => Ok t
  | [] => Err ErrTaskNotFound
  end.

Definition claimed_lease (worker token : string) (now ttl : Z) (t : Task) : TaskLease :=
  MkTaskLease (q_ID t) worker token (next_version (match q_Lease t with Some l => tl_Epoch l | None => 0 end)) now now (now + ttl).

Definition claimed_task (l : TaskLease) (now : Z) (t : Task) : Task :=
  task_with TaskStatusRunning (next_version (q_Version t)) (wrap64 (q_AttemptCount t + 1)) (q_AvailableAt t) (Some l)
    (q_Payload t) (q_LastError t) now (q_CompletedAt t) t.

Definition claimed_attempt (attemptID : string) (l : TaskLease) (now : Z) (t : Task) : TaskAttempt :=
  MkAttempt attemptID (q_ID t) (q_AttemptCount t) (tl_WorkerID l) (tl_Token l) (tl_Epoch l) AttemptStatusRunning now now None "".

(** The loop; [None] of the update is a version that changed. *)
Fixpoint claim_loop (n : nat) (ctx : Context) (db : Database) (token attemptID : string) (worker : WorkerIdentity)
    (o : TaskClaimOptions) (now : Z) : result queue_error (Database * (Task * TaskAttempt)) :=
  match n with
  | 0 => Err ErrTaskConflict
  | S n =>
    let* _ := lift_queue (begin_tx ctx) in
    let* t := selectClaimableTask db (co_TaskID o) (co_Kinds o) now in
    let* db1 := match q_Lease t with Some _ => abandonRunningAttempt db t now | None => Ok db end in
    let l := claimed_lease (wk_ID worker) token now (co_TTL o) t in
    let t' := claimed_task l now t in
    let* p := updateTaskVersion db1 (q_Version t) t' in
    if negb p.2 then claim_loop n ctx db token attemptID worker o now else
    let a := claimed_attempt attemptID l now t' in
    let* db2 := insertAttempt p.1 a in
    Ok (with_workers (<[wk_ID worker := (now, worker)]> (db_workers db2)) db2, (t', a))
  end.

Definition Claim (ctx : Context) (clock : Z) (token attemptID : string) (db : Database) (worker : WorkerIdentity) (o : TaskClaimOptions)
    : result queue_error (Database * (Task * TaskAttempt)) :=
  let* _ := lift_queue (storage_id "worker ID" (wk_ID worker)) in
  let now := if (co_Now o =? 0)%Z then clock else co_Now o in
  let* _ := guard_err (co_TTL o <=? 0)%Z (QInvalid "task lease TTL must be greater than zero") in
  claim_loop 8 ctx db token attemptID worker o now.

Definition Heartbeat (ctx : Context) (clock : Z) (db : Database) (l : TaskLease) (now ttl : Z) : result queue_error (Database * TaskLease) :=
  let* _ := guard_err (ttl <=? 0)%Z (QInvalid "task lease TTL must be greater than zero") in
  let now := if (now =? 0)%Z then clock else now in
  let* _ := lift_queue (begin_tx ctx) in
  let* t := loadTask db (tl_TaskID l) in
  let* _ := task_run_writable db t in
  let* _ := validateTaskLease t l now in
  match q_Lease t with
  | None => Err ErrTaskLeaseLost
  | Some current =>
    let updated := MkTaskLease (tl_TaskID current) (tl_WorkerID current) (tl_Token current) (tl_Epoch current) (tl_AcquiredAt current) now (now + ttl) in
    let t' := task_with (q_Status t) (next_version (q_Version t)) (q_AttemptCount t) (q_AvailableAt t) (Some updated)
                (q_Payload t) (q_LastError t) now (q_CompletedAt t) t in
    let* db := update_or ErrTaskLeaseLost db (q_Version t) t' in
    let* db := updateAttempt db t' AttemptStatusRunning "" None in
    Ok (with_workers (alter (λ w, (now, w.2)) (tl_WorkerID l) (db_workers db)) db, updated)
  end.

(** ** Operations with a commit *)

(** What an operation answers: the result of its commit, and its value or error. *)
Record TaskAnswer (A : Type) := MkTaskAnswer { ta_Result : CommitResult; ta_Value : result queue_error A }.
Arguments MkTaskAnswer {A}.
Arguments ta_Result {A}.
Arguments ta_Value {A}.

Definition no_result : CommitResult := MkCommitResult "" (TransactionOutcomeOther "") None [].

(** [taskAtomicFingerprintInput]; [None] is the zero task. *)
Record TaskFingerprint := MkTaskFingerprint {
  fi_Operation : string;
  fi_Commit : Commit;
  fi_Task : option Task;
  fi_Lease : option TaskLease;
  fi_Payload : string;
  fi_Failures : list TaskFailureTransition;
}.

(** The SHA-256 digest of its JSON text; [None] when [json.Marshal] fails. *)
Class OperationDigest := task_sha256 : TaskFingerprint → option string.

Definition failure_before : TaskFailureTransition → TaskFailureTransition → bool :=
  less_then (tl_TaskID ∘ ft_Lease) str_lt (less_last (tl_Epoch ∘ ft_Lease) N.ltb).

(** What an operation puts into its fingerprint. *)
Inductive operation :=
  | OpEnqueue (t : Task)
  | OpComplete (l : TaskLease) (payload : string)
  | OpFail (failures : list TaskFailureTransition).

Definition taskAtomicFingerprint `{OperationDigest} (o : operation) (c : Commit) : option string :=
  let c := with_TransactionID "" c in
  task_sha256
    (match o with
     | OpEnqueue t => MkTaskFingerprint "enqueue" c (Some t) None "" []
     | OpComplete l payload => MkTaskFingerprint "complete" c None (Some l) payload []
     | OpFail failures => MkTaskFingerprint "fail" c None None "" (stable_sort failure_before failures)
     end).

Definition insertTaskTransaction (fingerprint : string) (r : CommitResult) (tasks : list Task) (db : Database) : result queue_error Database :=
  lift_queue (insert_transaction fingerprint r tasks db).

(** A commit as the operations use it, with its fingerprint. *)
Record Prepared := MkPrepared { pr_Commit : Commit; pr_Fingerprint : string }.

Section queue.
Context `{OperationDigest} (ctx : Context) (clock : Z) (fault : option bool).

(** [if err != nil { return ..., result, err }]; the deferred rollback leaves [db]. *)
Definition or_return {A B} (db : Database) (r : CommitResult) (m : result queue_error A) (k : A → Database * TaskAnswer B)
    : Database * TaskAnswer B :=
  match m with Ok a => k a | Err e => (db, MkTaskAnswer r (Err e)) end.

Notation "'try!' x := m 'else' db '&' r 'in' k" := (or_return db r m (λ x, k)) (at level 10, x pattern, m at level 100, db at level 9, r at level 9, k at level 200).

(** The checks of a commit before the transaction begins. *)
Definition prepare (o : operation) (c : Commit) : result queue_error Prepared :=
  let c := sanitizeCommit ctx c in
  let* _ := lift_queue (validateRuntimeCommit c) in
  match taskAtomicFingerprint o c with
  | Some fingerprint => Ok (MkPrepared c fingerprint)
  | None => Err (QInvalid "encode task transaction fingerprint")
  end.

Definition prepare_optional (o : operation) (c : option Commit) : result queue_error (option Prepared) :=
  match c with None => Ok None | Some c => let* p := prepare o c in Ok (Some p) end.

(** The result before anything has happened. *)
Definition initial_result (c : option Commit) : CommitResult :=
  match c with None => no_result | Some c => not_started (c_TransactionID c) end.

(** The transaction happened before: what it stored, if the operation is the same. *)
Definition loadTaskTransaction (db : Database) (id : string) : option (string * (CommitResult * list Task)) := db_transactions db !! id.

Definition replay (db : Database) (p : option Prepared) : result queue_error (option (CommitResult * list Task)) :=
  match p with
  | None => Ok None
  | Some p =>
    match loadTaskTransaction db (c_TransactionID (pr_Commit p)) with
    | None => Ok None
    | Some (stored, r) =>
      if bool_decide (stored = pr_Fingerprint p) then Ok (Some r) else Err (QInvalid "fingerprint mismatch")
    end
  end.

(** [applyCommit] inside an operation: the database, and the result so far. *)
Definition apply_optional (p : option Prepared) (db : Database) (r : CommitResult) : CommitResult * result queue_error Database :=
  match p with
  | None => (r, Ok db)
  | Some p =>
    match applyCommit ctx (pr_Commit p) db with
    | (run, Err e) => (not_started_with (c_TransactionID (pr_Commit p)) run, Err (QStore e))
    | (run, Ok db) => (committed_result (pr_Commit p) run, Ok db)
    end
  end.

Definition record_optional (p : option Prepared) (r : CommitResult) (tasks : list Task) (db : Database) : result queue_error Database :=
  match p with None => Ok db | Some p => insertTaskTransaction (pr_Fingerprint p) r tasks db end.

(** The end of the transaction. *)
Definition with_outcome (o : TransactionOutcome) (r : CommitResult) : CommitResult :=
  MkCommitResult (cr_TransactionID r) o (cr_Run r) (cr_Artifacts r).

Definition finish {A} (p : option Prepared) (before after : Database) (r : CommitResult) (a : A) : Database * TaskAnswer A :=
  let '(db, ok) := tx_commit fault before after in
  if ok then (db, MkTaskAnswer r (Ok a))
  else (db, MkTaskAnswer (match p with None => r | Some _ => with_outcome TransactionOutcomeUnknown r end) (Err (QStore tx_failed))).

Definition with_id (freshID : string) (c : option Commit) : option Commit := ensureCommitTransactionID freshID <$> c.

(** *** Enqueueing *)

Definition enqueued (freshID : string) (t : Task) : Task :=
  let created := if (q_CreatedAt t =? 0)%Z then clock else q_CreatedAt t in
  MkTask (if bool_decide (TrimSpace (q_ID t) = "") then freshID else q_ID t) (q_Kind t) (q_RunID t) (q_StepID t) (q_GraphTaskID t)
    (q_OperationID t) (q_GraphID t) (q_GraphSessionID t) (q_CheckpointID t) (q_Payload t)
    (if bool_decide (q_Status t = "") then TaskStatusQueued else q_Status t) (q_Version t) (q_AttemptCount t) (q_MaxAttempts t)
    (if (q_AvailableAt t =? 0)%Z then created else q_AvailableAt t) (q_Lease t) (q_LastError t) created
    (if (q_UpdatedAt t =? 0)%Z then created else q_UpdatedAt t) (q_CompletedAt t).

Definition insertTask (db : Database) (t : Task) : result queue_error Database :=
  let* _ := bind_version (q_ID t) (q_Version t) in
  let* _ := guard_err (bool_decide (is_Some (db_tasks db !! q_ID t))) (QStore (SExists (q_ID t))) in
  Ok (with_tasks (<[q_ID t := t]> (db_tasks db)) db).

(** The insertion that ends the operation. *)
Definition insert_queued (db : Database) (p : option Prepared) (after : Database) (r : CommitResult) (t : Task) : Database * TaskAnswer Task :=
  try! _ := task_run_writable after t else db & r in
  match insertTask after t with
  | Ok after => finish p db after r t
  | Err _ =>
    match loadTask after (q_ID t) with
    | Ok existing => if bool_decide (existing = t) then (db, MkTaskAnswer r (Ok existing)) else (db, MkTaskAnswer r (Err ErrTaskConflict))
    | Err _ => (db, MkTaskAnswer r (Err ErrTaskConflict))
    end
  end.

Definition enqueueWithCommit (freshID freshTx : string) (db : Database) (t : Task) (c : option Commit) : Database * TaskAnswer Task :=
  let t := enqueued freshID t in
  try! _ := validateTask t else db & no_result in
  try! _ := lift_queue (begin_tx ctx) else db & no_result in
  let c := with_id freshTx c in
  let r := initial_result c in
  try! p := prepare_optional (OpEnqueue t) c else db & r in
  try! stored := replay db p else db & r in
  match stored with
  | Some (stored, [t']) => if bool_decide (t' = t) then (db, MkTaskAnswer stored (Ok t')) else (db, MkTaskAnswer r (Err ErrTaskConflict))
  | Some _ => (db, MkTaskAnswer r (Err ErrTaskConflict))
  | None =>
    let '(r, m) := apply_optional p db r in
    try! after := m else db & r in
    try! after := record_optional p r [t] after else db & r in
    insert_queued db p after r t
  end.

(** *** Completing *)

Definition completed_task (payload : string) (t : Task) : Task :=
  task_with TaskStatusCompleted (next_version (q_Version t)) (q_AttemptCount t) (q_AvailableAt t) None payload (q_LastError t) clock (Some clock) t.

(** A task that runs a graph may only complete when the run has ended. *)
Definition graph_run_ended (db : Database) (t : Task) : result queue_error unit :=
  if bool_decide (q_Kind t = TaskKindGraphRun) then
    let* run := lift_queue (loadRun db (q_RunID t)) in
    guard_err (negb (isTerminalTaskRunStatus (r_Status run))) ErrTaskConflict
  else Ok tt.

(** The task a lease holds, ready to change. *)
Definition held_task (db : Database) (l : TaskLease) : result queue_error Task :=
  let* t := loadTask db (tl_TaskID l) in
  let* _ := task_run_writable db t in
  let* _ := validateTaskLease t l clock in
  Ok t.

Definition completeWithCommit (freshTx : string) (db : Database) (l : TaskLease) (payload : string) (c : option Commit) : Database * TaskAnswer Task :=
  let c := with_id freshTx c in
  let r := initial_result c in
  try! p := prepare_optional (OpComplete l payload) c else db & r in
  try! _ := lift_queue (begin_tx ctx) else db & r in
  try! stored := replay db p else db & r in
  match stored with
  | Some (stored, [t']) =>
    if bool_decide (q_ID t' = tl_TaskID l) then (db, MkTaskAnswer stored (Ok t')) else (db, MkTaskAnswer r (Err ErrTaskConflict))
  | Some _ => (db, MkTaskAnswer r (Err ErrTaskConflict))
  | None =>
    try! t := held_task db l else db & r in
    try! _ := graph_run_ended db t else db & r in
    let '(r, m) := apply_optional p db r in
    try! after := m else db & r in
    let t' := completed_task payload t in
    try! after := update_or ErrTaskLeaseLost after (q_Version t) t' else db & r in
    try! after := updateAttempt after t' AttemptStatusCompleted "" (Some clock) else db & r in
    try! after := record_optional p r [t'] after else db & r in
    finish p db after r t'
  end.

(** *** Failing *)

(** The loop on the failures: the database, [tasks] and [seen]. *)
Record Failing := MkFailing { fg_DB : Database; fg_Tasks : list Task; fg_Seen : list string }.

Definition fail_one (st : Failing) (f : TaskFailureTransition) : result queue_error Failing :=
  let db := fg_DB st in
  let l := ft_Lease f in
  let* _ := guard_err (bool_decide (tl_TaskID l ∈ fg_Seen st)) (QInvalid "duplicate task failure") in
  let* t := held_task db l in
  let t' := failed_task t (ft_Failure f) clock in
  let* db := update_or ErrTaskLeaseLost db (q_Version t) t' in
  let* db := updateAttempt db t' AttemptStatusFailed (q_LastError t') (Some clock) in
  Ok (MkFailing db (fg_Tasks st ++ [t']) (tl_TaskID l :: fg_Seen st)).

(** The result next to an error of the loop: the fence answers with the initial
    result, everything else with the empty one. *)
Definition failed_loop_result (db : Database) (r : CommitResult) (l : list TaskFailureTransition) : CommitResult :=
  match foldM fail_one (MkFailing db [] []) l with
  | Err (QStore (SNotAllowed _)) => r
  | _ => no_result
  end.

Definition failWithCommit (freshTx : string) (db : Database) (failures : list TaskFailureTransition) (c : option Commit)
    : Database * TaskAnswer (list Task) :=
  try! _ := guard_err (bool_decide (failures = [])) (QInvalid "task failures are required") else db & no_result in
  let c := with_id freshTx c in
  let r := initial_result c in
  try! p := prepare_optional (OpFail failures) c else db & r in
  try! _ := lift_queue (begin_tx ctx) else db & r in
  try! stored := replay db p else db & r in
  match stored with
  | Some (stored, ts) =>
    if (length ts =? length failures)%nat then (db, MkTaskAnswer stored (Ok ts)) else (db, MkTaskAnswer r (Err ErrTaskConflict))
  | None =>
    try! st := foldM fail_one (MkFailing db [] []) failures else db & (failed_loop_result db r failures) in
    let '(r, m) := apply_optional p (fg_DB st) r in
    try! after := m else db & r in
    try! after := record_optional p r (fg_Tasks st) after else db & r in
    finish p db after r (fg_Tasks st)
  end.

(** *** Canceling, reading *)

Definition canceled_task (now : Z) (t : Task) : Task :=
  task_with TaskStatusCanceled (next_version (q_Version t)) (q_AttemptCount t) (q_AvailableAt t) None (q_Payload t) (q_LastError t) now (Some now) t.

Definition Cancel (db : Database) (taskID : string) (expected : N) (now : Z) : result queue_error (Database * Task) :=
  let now := if (now =? 0)%Z then clock else now in
  let* _ := lift_queue (begin_tx ctx) in
  let* t := loadTask db taskID in
  let* _ := task_run_writable db t in
  let* _ := guard_err (negb (q_Version t =? expected)%N) ErrTaskConflict in
  if bool_decide (q_Status t ∈ [TaskStatusCompleted; TaskStatusCanceled]) then Ok (db, t) else
  let t' := canceled_task now t in
  let* db := update_or ErrTaskConflict db expected t' in
  let* db := if (0 <? q_AttemptCount t')%Z then updateAttempt db t' AttemptStatusCanceled "task canceled" (Some now) else Ok db in
  Ok (db, t').

Definition GetTask (db : Database) (taskID : string) : result queue_error Task :=
  let* _ := lift_queue (storage_id "task ID" taskID) in
  let* _ := lift_queue (begin_tx ctx) in
  loadTask db taskID.

Record TaskFilter := MkTaskFilter { fl_Statuses : list string; fl_Kinds : list string; fl_RunID : string; fl_Limit : Z }.

Definition task_matches (f : TaskFilter) (t : Task) : bool :=
  (bool_decide (fl_Statuses f = []) || bool_decide (q_Status t ∈ fl_Statuses f))
  && (bool_decide (fl_Kinds f = []) || bool_decide (q_Kind t ∈ fl_Kinds f))
  && (bool_decide (fl_RunID f = "") || bool_decide (q_RunID t = fl_RunID f)).

Definition ListTasks (db : Database) (f : TaskFilter) : result queue_error (list Task) :=
  let* _ := lift_queue (begin_tx ctx) in
  let l := filter (λ t, task_matches f t = true)
             (stable_sort (less_then q_CreatedAt z_lt (less_last q_ID str_lt)) (map_to_list (db_tasks db)).*2) in
  Ok (if (0 <? fl_Limit f)%Z then take (Z.to_nat (fl_Limit f)) l else l).

Definition ListAttempts (db : Database) (taskID : string) : result queue_error (list TaskAttempt) :=
  let* _ := lift_queue (storage_id "task ID" taskID) in
  let* _ := lift_queue (begin_tx ctx) in
  Ok (stable_sort (less_last at_Number z_lt) (filter (λ a, at_TaskID a = taskID) (map_to_list (db_attempts db)).*2)).
End queue.

Definition sqlEnqueue `{OperationDigest} ctx clock fault freshID db t := enqueueWithCommit ctx clock fault freshID "" db t None.
Definition sqlComplete `{OperationDigest} ctx clock fault db l payload := completeWithCommit ctx clock fault "" db l payload None.
Definition sqlFail `{OperationDigest} ctx clock fault db l failure :=
  failWithCommit ctx clock fault "" db [MkFailureTransition l failure] None.
