(* ===== verification/QueueHistory.v ===== *)
(** * Histories of the task queue

    What the queue promises, as an abstract specification of its two tables
    ([queue_change]), the refinement of every operation to it, and its
    consequences over all histories: leases exclude and fence, attempts are
    counted and bounded, and what has ended stays ended. *)

From Stdlib Require Import Ascii.
From S2P Require Import Prelude GoStrings Values Json JsonDecode Sensitive Errors Lease Records RunStore Stores Artifacts Commit SqlStore SqlQueue.

(** ** The specification *)

Record Queue := MkQueue { tasks : gmap string Task; attempts : gmap (string * Z) TaskAttempt }.

Definition queue_of (db : Database) : Queue := MkQueue (db_tasks db) (db_attempts db).

(** A task as the runner enqueues it. *)
Definition fresh_task (t : Task) : Prop :=
  q_Lease t = None ∧ q_AttemptCount t = 0%Z ∧ q_Status t ≠ TaskStatusRunning.

Definition token_used (q : Queue) (token : string) : Prop := ∃ p a, attempts q !! p = Some a ∧ at_LeaseToken a = token.

(** The lease [l] is the one that holds [t] at [now]. *)
Definition same_lease (l l' : TaskLease) : Prop :=
  tl_TaskID l' = tl_TaskID l ∧ tl_WorkerID l' = tl_WorkerID l ∧ tl_Token l' = tl_Token l ∧ tl_Epoch l' = tl_Epoch l.
Definition holds (t : Task) (l : TaskLease) (now : Z) : Prop :=
  ∃ current, q_Lease t = Some current ∧ q_Status t = TaskStatusRunning ∧ same_lease l current ∧ (now < tl_ExpiresAt current)%Z.

Definition put_task (t : Task) (q : Queue) : Queue := MkQueue (<[q_ID t := t]> (tasks q)) (attempts q).
Definition put_attempt (t : Task) (a : TaskAttempt) (q : Queue) : Queue :=
  MkQueue (tasks q) (<[(q_ID t, q_AttemptCount t) := a]> (attempts q)).

(** The change of an attempt that keeps who made it. *)
Definition same_attempt (a a' : TaskAttempt) : Prop :=
  at_ID a' = at_ID a ∧ at_TaskID a' = at_TaskID a ∧ at_Number a' = at_Number a ∧ at_WorkerID a' = at_WorkerID a ∧
  at_LeaseToken a' = at_LeaseToken a ∧ at_LeaseEpoch a' = at_LeaseEpoch a.

(** The attempt the task is at gets a status. *)
Definition mark (q : Queue) (t : Task) (status : string) (q' : Queue) : Prop :=
  ∃ b b', attempts q !! (q_ID t, q_AttemptCount t) = Some b ∧ same_attempt b b' ∧ at_Status b' = status ∧ q' = put_attempt t b' q.

(** [t'] is [t] one version later, with the same identity. *)
Definition later (t t' : Task) : Prop :=
  q_ID t' = q_ID t ∧ q_Kind t' = q_Kind t ∧ q_RunID t' = q_RunID t ∧ q_MaxAttempts t' = q_MaxAttempts t ∧
  q_Version t' = (q_Version t + 1)%N ∧ (q_Version t' < 2 ^ 63)%N.

(** Whom a claim may take the task from: nobody, or a lease that has expired. *)
Definition may_claim (t : Task) (now : Z) : Prop :=
  (q_Status t = TaskStatusQueued ∨ q_Status t = TaskStatusRunning ∧ (0 < taskLeaseExpiry t ≤ now)%Z) ∧
  ((q_MaxAttempts t ≤ 0)%Z ∨ (q_AttemptCount t < q_MaxAttempts t)%Z).

(** The attempt of the expired lease is abandoned. *)
Definition released (q : Queue) (t : Task) (q' : Queue) : Prop :=
  (q_Lease t = None ∨ (q_AttemptCount t ≤ 0)%Z) ∧ q' = q ∨ is_Some (q_Lease t) ∧ mark q t AttemptStatusAbandoned q'.

Definition claim_makes (t t' : Task) (l : TaskLease) (a : TaskAttempt) (now : Z) : Prop :=
  q_Status t' = TaskStatusRunning ∧ q_Lease t' = Some l ∧ tl_TaskID l = q_ID t ∧ (now < tl_ExpiresAt l)%Z ∧
  q_AttemptCount t' = wrap64 (q_AttemptCount t + 1) ∧
  at_TaskID a = q_ID t ∧ at_Number a = q_AttemptCount t' ∧ at_WorkerID a = tl_WorkerID l ∧ at_LeaseToken a = tl_Token l ∧
  at_LeaseEpoch a = tl_Epoch l ∧ at_Status a = AttemptStatusRunning.

(** What ends an attempt, and what the task becomes. *)
Definition ends (t t' : Task) (status : string) : Prop :=
  q_Lease t' = None ∧ q_AttemptCount t' = q_AttemptCount t ∧
  (q_Status t' = TaskStatusCompleted ∧ status = AttemptStatusCompleted ∨
   q_Status t' ∈ [TaskStatusQueued; TaskStatusFailed; TaskStatusDead] ∧ status = AttemptStatusFailed).

Inductive queue_change (q : Queue) : Queue → Prop :=
  | change_enqueue t :
      fresh_task t → (q_Version t < 2 ^ 63)%N → tasks q !! q_ID t = None → queue_change q (put_task t q)
  | change_claim t t' l a now q1 :
      tasks q !! q_ID t = Some t → may_claim t now → later t t' → claim_makes t t' l a now →
      released q t q1 → ¬ token_used q (tl_Token l) → attempts q1 !! (q_ID t', q_AttemptCount t') = None →
      queue_change q (put_attempt t' a (put_task t' q1))
  | change_heartbeat t t' l l' now q' :
      tasks q !! q_ID t = Some t → holds t l now → later t t' → q_Status t' = q_Status t → q_AttemptCount t' = q_AttemptCount t →
      q_Lease t' = Some l' → same_lease l l' → mark (put_task t' q) t' AttemptStatusRunning q' → queue_change q q'
  | change_end t t' l now status q' :
      tasks q !! q_ID t = Some t → holds t l now → later t t' → ends t t' status →
      mark (put_task t' q) t' status q' → queue_change q q'
  | change_cancel t t' q' :
      tasks q !! q_ID t = Some t → q_Status t ∉ [TaskStatusCompleted; TaskStatusCanceled] → later t t' →
      q_Status t' = TaskStatusCanceled → q_Lease t' = None → q_AttemptCount t' = q_AttemptCount t →
      (if (0 <? q_AttemptCount t')%Z then mark (put_task t' q) t' AttemptStatusCanceled q' else q' = put_task t' q) →
      queue_change q q'.

(** ** The invariant *)

Record task_wf (q : Queue) (k : string) (t : Task) : Prop := {
  tw_id : q_ID t = k;
  tw_lease : is_Some (q_Lease t) ↔ q_Status t = TaskStatusRunning;
  tw_count : (0 ≤ q_AttemptCount t ≤ Z.of_N (q_Version t))%Z ∧ (q_Version t < 2 ^ 63)%N;
  tw_max : (0 < q_MaxAttempts t)%Z → (q_AttemptCount t ≤ q_MaxAttempts t)%Z;
  tw_attempts n : is_Some (attempts q !! (k, n)) ↔ (1 ≤ n ≤ q_AttemptCount t)%Z;
  tw_current l : q_Lease t = Some l → tl_TaskID l = k ∧ ∃ a, attempts q !! (k, q_AttemptCount t) = Some a ∧
    at_LeaseToken a = tl_Token l ∧ at_WorkerID a = tl_WorkerID l ∧ at_LeaseEpoch a = tl_Epoch l ∧ at_Status a = AttemptStatusRunning;
  tw_running n a : attempts q !! (k, n) = Some a → at_Status a = AttemptStatusRunning →
    n = q_AttemptCount t ∧ q_Status t = TaskStatusRunning;
}.

Record queue_wf (q : Queue) : Prop := {
  qw_task k t : tasks q !! k = Some t → task_wf q k t;
  qw_attempt k n a : attempts q !! (k, n) = Some a → at_TaskID a = k ∧ at_Number a = n ∧ is_Some (tasks q !! k);
  qw_token p p' a a' : attempts q !! p = Some a → attempts q !! p' = Some a' → at_LeaseToken a = at_LeaseToken a' → p = p';
}.

(** What a change of the task [k] must establish. *)
Record local_change (q q' : Queue) (k : string) (t' : Task) : Prop := {
  lc_tasks : tasks q' = <[k := t']> (tasks q);
  lc_frame k' n : k' ≠ k → attempts q' !! (k', n) = attempts q !! (k', n);
  lc_keys n a : attempts q' !! (k, n) = Some a → at_TaskID a = k ∧ at_Number a = n;
  lc_tokens n a : attempts q' !! (k, n) = Some a →
    (∃ a0, attempts q !! (k, n) = Some a0 ∧ at_LeaseToken a = at_LeaseToken a0) ∨
    (¬ token_used q (at_LeaseToken a) ∧ attempts q !! (k, n) = None ∧
     ∀ n' a', n' ≠ n → attempts q' !! (k, n') = Some a' →
       ∃ a0, attempts q !! (k, n') = Some a0 ∧ at_LeaseToken a' = at_LeaseToken a0);
}.

Lemma local_wf q q' k t' : queue_wf q → local_change q q' k t' → task_wf q' k t' → queue_wf q'.
Proof.
  intros [Ht Ha Hk] [Htasks Hframe Hkeys Htok] Hwf.
  assert (∀ p a', attempts q' !! p = Some a' →
    (∃ a0, attempts q !! p = Some a0 ∧ at_LeaseToken a' = at_LeaseToken a0) ∨
    (p.1 = k ∧ ¬ token_used q (at_LeaseToken a') ∧ ∀ p' a2, p' ≠ p → attempts q' !! p' = Some a2 →
       ∃ a0, attempts q !! p' = Some a0 ∧ at_LeaseToken a2 = at_LeaseToken a0)) as Hold.
  { intros [k1 n1] a1 H1. destruct (decide (k1 = k)) as [->|Hn]; [|left; exists a1; by rewrite <-Hframe].
    destruct (Htok n1 a1 H1) as [?|(Hnew & _ & Hrest)]; [by left|right]. split_and!; [done|done|].
    intros [k2 n2] a2 Hne H2. destruct (decide (k2 = k)) as [->|Hn2].
    - apply (Hrest n2 a2); [|done]. intros ->. done.
    - exists a2. by rewrite <-Hframe. }
  split.
  - intros k1 t1. rewrite Htasks. intros [[<- <-]|[Hn Hl]]%lookup_insert_Some; [done|]. destruct (Ht k1 t1 Hl) as [H1 H2 H3 H4 H5 H6 H7].
    split; [done|done|done|done| | |].
    + intros n. by rewrite Hframe.
    + intros l Hlease. destruct (H6 l Hlease) as [? (a & Hat & Hr)]. split; [done|]. exists a. by rewrite Hframe.
    + intros n a. rewrite Hframe by done. apply H7.
  - intros k1 n a H1. rewrite Htasks. destruct (decide (k1 = k)) as [->|Hn].
    + destruct (Hkeys n a H1). split_and!; [done|done|]. by rewrite lookup_insert_eq.
    + rewrite Hframe in H1 by done. destruct (Ha _ _ _ H1) as (? & ? & ?). split_and!; [done|done|]. by rewrite lookup_insert_ne.
  - intros p p' a a' H1 H2 He. destruct (decide (p = p')) as [|Hne]; [done|exfalso].
    destruct (Hold p a H1) as [(b & Hb & Etok)|(Hpk & Hnew & Hrest)].
    + destruct (Hold p' a' H2) as [(b' & Hb' & Etok')|(Hpk' & Hnew & Hrest)].
      * apply Hne. eapply Hk; [exact Hb|exact Hb'|congruence].
      * destruct (Hrest p a) as (b2 & Hb2 & E2); [done|done|]. apply Hnew. exists p, b2. split; [done|congruence].
    + destruct (Hrest p' a') as (b2 & Hb2 & E2); [done|done|]. apply Hnew. exists p', b2. split; [done|congruence].
Qed.

Lemma same_attempt_refl a : same_attempt a a.
Proof. done. Qed.

(** The changes that mark the attempt the task is at. *)
Lemma mark_local q t t' status q' :
  queue_wf q → tasks q !! q_ID t = Some t → q_ID t' = q_ID t → q_AttemptCount t' = q_AttemptCount t →
  mark (put_task t' q) t' status q' → local_change q q' (q_ID t) t'.
Proof.
  intros Hq Ht Hid Hcount (b & b' & Hb & Hs & _ & ->). simpl in Hb. rewrite Hid, Hcount in Hb.
  destruct (qw_attempt q Hq _ _ _ Hb) as (Hbk & Hbn & _). destruct Hs as (S1 & S2 & S3 & S4 & S5 & S6).
  split; simpl; rewrite ?Hid, ?Hcount.
  - done.
  - intros k' n Hn. rewrite lookup_insert_ne; [done|congruence].
  - intros n a [[[= <-] <-]|[_ Ha]]%lookup_insert_Some; [split; congruence|]. by apply (qw_attempt q Hq) in Ha as (? & ? & _).
  - intros n a [[[= <-] <-]|[_ Ha]]%lookup_insert_Some; left; eauto.
Qed.

Lemma mark_lookup q t status q' k n :
  mark q t status q' → (k, n) ≠ (q_ID t, q_AttemptCount t) → attempts q' !! (k, n) = attempts q !! (k, n).
Proof. intros (b & b' & _ & _ & _ & ->) Hn. simpl. by rewrite lookup_insert_ne. Qed.

Lemma mark_here q t status q' : mark q t status q' →
  ∃ b b', attempts q !! (q_ID t, q_AttemptCount t) = Some b ∧ attempts q' !! (q_ID t, q_AttemptCount t) = Some b' ∧ same_attempt b b' ∧ at_Status b' = status.
Proof. intros (b & b' & Hb & Hs & Hst & ->). exists b, b'. simpl. by rewrite lookup_insert_eq. Qed.

Lemma mark_some q t status q' p : mark q t status q' → is_Some (attempts q' !! p) ↔ is_Some (attempts q !! p).
Proof.
  intros (b & b' & Hb & _ & _ & ->). simpl. destruct (decide (p = (q_ID t, q_AttemptCount t))) as [->|Hn].
  - rewrite lookup_insert_eq, Hb. split; intros _; by eexists.
  - by rewrite lookup_insert_ne.
Qed.

Lemma put_fresh_wf q t :
  queue_wf q → fresh_task t → (q_Version t < 2 ^ 63)%N → tasks q !! q_ID t = None → queue_wf (put_task t q).
Proof.
  intros Hq (Hl & Hc & Hs) Hv Hn.
  assert (∀ n, attempts q !! (q_ID t, n) = None) as Hnone.
  { intros n. destruct (attempts q !! (q_ID t, n)) as [a|] eqn:E; [|done].
    destruct (qw_attempt q Hq _ _ _ E) as (_ & _ & [? ?]). congruence. }
  apply (local_wf q _ (q_ID t) t); [done| |].
  - split; simpl; [done|done|intros n a Ha|intros n a Ha]; by rewrite Hnone in Ha.
  - split; simpl; rewrite ?Hl, ?Hc.
    + done.
    + split; [by intros [? ?]|done].
    + lia.
    + lia.
    + intros n. rewrite Hnone. split; [by intros [? ?]|lia].
    + done.
    + intros n a Ha. by rewrite Hnone in Ha.
Qed.

(** The task after a change that marks its attempt and lets it go. *)
Lemma let_go_wf q t t' status q' :
  queue_wf q → tasks q !! q_ID t = Some t → later t t' → q_Lease t' = None → q_Status t' ≠ TaskStatusRunning →
  q_AttemptCount t' = q_AttemptCount t → status ≠ AttemptStatusRunning →
  mark (put_task t' q) t' status q' → queue_wf q'.
Proof.
  intros Hq Ht (Hid & _ & _ & Hmax & Hver & Hvb) Hl Hs Hc Hst Hm.
  apply (local_wf q q' (q_ID t) t'); [done|by apply (mark_local q t t' status)|].
  destruct (qw_task q Hq _ _ Ht) as [H1 H2 H3 H4 H5 H6 H7]. split.
  - done.
  - rewrite Hl. split; [by intros [? ?]|done].
  - rewrite Hc. lia.
  - rewrite Hmax, Hc. exact H4.
  - intros n. rewrite (mark_some _ _ _ _ _ Hm). simpl. by rewrite Hc.
  - by rewrite Hl.
  - intros n a Ha Hr. exfalso. destruct (decide (n = q_AttemptCount t)) as [->|Hn].
    + destruct (mark_here _ _ _ _ Hm) as (b & b' & _ & Hb' & _ & Hb's). rewrite Hid, Hc in Hb'. congruence.
    + rewrite (mark_lookup _ _ _ _ _ _ Hm) in Ha by (rewrite Hid, Hc; by intros [= ?]). simpl in Ha. by destruct (H7 n a Ha Hr) as [? _].
Qed.

Lemma heartbeat_wf q t t' l l' now q' :
  queue_wf q → tasks q !! q_ID t = Some t → holds t l now → later t t' → q_Status t' = q_Status t → q_AttemptCount t' = q_AttemptCount t →
  q_Lease t' = Some l' → same_lease l l' → mark (put_task t' q) t' AttemptStatusRunning q' → queue_wf q'.
Proof.
  intros Hq Ht (cur & Hcur & Hrun & Hsame & _) (Hid & _ & _ & Hmax & Hver & Hvb) Hs Hc Hl Hl' Hm.
  apply (local_wf q q' (q_ID t) t'); [done|by apply (mark_local q t t' AttemptStatusRunning)|].
  destruct (qw_task q Hq _ _ Ht) as [H1 H2 H3 H4 H5 H6 H7]. split.
  - done.
  - rewrite Hl, Hs, Hrun. split; [done|by intros _; eexists].
  - rewrite Hc. lia.
  - rewrite Hmax, Hc. exact H4.
  - intros n. rewrite (mark_some _ _ _ _ _ Hm). simpl. by rewrite Hc.
  - intros l0 Hl0. assert (l0 = l') as -> by congruence. destruct (H6 cur Hcur) as [Hk (a & Ha & E1 & E2 & E3 & E4)].
    destruct Hsame as (S1 & S2 & S3 & S4), Hl' as (R1 & R2 & R3 & R4). split; [congruence|].
    destruct (mark_here _ _ _ _ Hm) as (b & b' & Hb & Hb' & (A1 & A2 & A3 & A4 & A5 & A6) & Hb's).
    simpl in Hb. rewrite Hid, Hc in Hb, Hb'. exists b'. rewrite Hc. assert (b = a) as -> by congruence. split_and!; [done|congruence..].
  - rewrite Hs, Hc, Hrun. intros n a Ha Hr. split; [|done]. destruct (decide (n = q_AttemptCount t)) as [|Hn]; [done|].
    rewrite (mark_lookup _ _ _ _ _ _ Hm) in Ha by (rewrite Hid, Hc; by intros [= ?]). simpl in Ha. by destruct (H7 n a Ha Hr).
Qed.

(** Before a claim nothing of the task is running any more. *)
Lemma released_wf q t q1 :
  queue_wf q → tasks q !! q_ID t = Some t → released q t q1 →
  tasks q1 = tasks q ∧ (∀ k' n, k' ≠ q_ID t → attempts q1 !! (k', n) = attempts q !! (k', n)) ∧
  (∀ n, is_Some (attempts q1 !! (q_ID t, n)) ↔ is_Some (attempts q !! (q_ID t, n))) ∧
  (∀ n a, attempts q1 !! (q_ID t, n) = Some a → at_Status a ≠ AttemptStatusRunning) ∧
  (∀ n a, attempts q1 !! (q_ID t, n) = Some a → ∃ a0, attempts q !! (q_ID t, n) = Some a0 ∧ same_attempt a0 a).
Proof.
  intros Hq Ht Hr. destruct (qw_task q Hq _ _ Ht) as [H1 H2 H3 H4 H5 H6 H7].
  destruct Hr as [[Hn ->]|[Hsome Hm]].
  - split_and!; [done|done|done| |intros n a Ha; by exists a].
    intros n a Ha Hrun. destruct (H7 n a Ha Hrun) as [-> Hst]. destruct Hn as [Hn|Hn].
    + apply H2 in Hst as [? ?]. congruence.
    + assert (is_Some (attempts q !! (q_ID t, q_AttemptCount t))) as [? ?]%H5 by (by eexists). lia.
  - split_and!.
    + by destruct Hm as (b & b' & _ & _ & _ & ->).
    + intros k' n Hk. apply (mark_lookup _ _ _ _ _ _ Hm). congruence.
    + intros n. apply (mark_some _ _ _ _ _ Hm).
    + intros n a Ha Hrun. destruct (decide (n = q_AttemptCount t)) as [->|Hn].
      * destruct (mark_here _ _ _ _ Hm) as (b & b' & _ & Hb' & _ & Hb's). assert (a = b') as -> by congruence. by rewrite Hb's in Hrun.
      * rewrite (mark_lookup _ _ _ _ _ _ Hm) in Ha by (by intros [= ?]). by destruct (H7 n a Ha Hrun) as [? _].
    + intros n a Ha. destruct (decide (n = q_AttemptCount t)) as [->|Hn].
      * destruct (mark_here _ _ _ _ Hm) as (b & b' & Hb & Hb' & Hs & _). assert (a = b') as -> by congruence. by exists b.
      * rewrite (mark_lookup _ _ _ _ _ _ Hm) in Ha by (by intros [= ?]). by exists a.
Qed.

Lemma no_wrap n v : (0 ≤ n ≤ Z.of_N v)%Z → (v + 1 < 2 ^ 63)%N → wrap64 (n + 1) = (n + 1)%Z.
Proof. intros Hn Hv. unfold wrap64. change (2 ^ 63)%N with 9223372036854775808%N in Hv. rewrite Z.mod_small; lia. Qed.

Lemma claim_wf q t t' l a now q1 :
  queue_wf q → tasks q !! q_ID t = Some t → may_claim t now → later t t' → claim_makes t t' l a now →
  released q t q1 → ¬ token_used q (tl_Token l) → queue_wf (put_attempt t' a (put_task t' q1)).
Proof.
  intros Hq Ht [_ Hmay] (Hid & _ & _ & Hmax & Hver & Hvb) (Hs & Hl & Hlt & _ & Hc & A1 & A2 & A3 & A4 & A5 & A6) Hrel Hnew.
  destruct (released_wf q t q1 Hq Ht Hrel) as (R1 & R2 & R3 & R4 & R5).
  destruct (qw_task q Hq _ _ Ht) as [H1 H2 H3 H4 H5 H6 H7].
  rewrite (no_wrap _ (q_Version t)) in Hc by lia.
  assert (attempts q !! (q_ID t, q_AttemptCount t + 1)%Z = None) as Hfree.
  { apply eq_None_not_Some. rewrite H5. lia. }
  apply (local_wf q _ (q_ID t) t'); [done| |].
  - split; simpl; rewrite ?Hid, ?Hc.
    + by rewrite R1.
    + intros k' n Hn. rewrite lookup_insert_ne by congruence. by apply R2.
    + intros n b [[[= <-] <-]|[_ Hb]]%lookup_insert_Some; [split; congruence|].
      destruct (R5 n b Hb) as (b0 & Hb0 & (_ & S2 & S3 & _)). destruct (qw_attempt q Hq _ _ _ Hb0) as (? & ? & _). split; congruence.
    + intros n b [[[= <-] <-]|[Hne Hb]]%lookup_insert_Some.
      * right. rewrite A4. split_and!; [done|done|]. intros n' b' Hn' [[[= <-] <-]|[_ Hb']]%lookup_insert_Some; [done|].
        destruct (R5 n' b' Hb') as (b0 & Hb0 & (_ & _ & _ & _ & S5 & _)). by exists b0.
      * left. destruct (R5 n b Hb) as (b0 & Hb0 & (_ & _ & _ & _ & S5 & _)). by exists b0.
  - split.
    + done.
    + rewrite Hl, Hs. split; [done|by intros _; eexists].
    + rewrite Hc. lia.
    + rewrite Hmax, Hc. lia.
    + intros n. simpl. rewrite Hid, Hc. destruct (decide (n = q_AttemptCount t + 1)%Z) as [->|Hn].
      * rewrite lookup_insert_eq. split; [lia|by eexists].
      * rewrite lookup_insert_ne by congruence. rewrite R3, H5. lia.
    + intros l0 Hl0. assert (l0 = l) as -> by congruence. split; [done|]. exists a. simpl. rewrite Hid, lookup_insert_eq. by split_and!.
    + simpl. rewrite Hid, Hs. intros n b [[[= <-] <-]|[_ Hb]]%lookup_insert_Some Hrun; [done|]. by apply R4 in Hb.
Qed.

Lemma queue_change_wf q q' : queue_change q q' → queue_wf q → queue_wf q'.
Proof.
  intros Hc Hq. destruct Hc as [t Hf Hv Hn|t t' l a now q1 Ht Hm Hl Hk Hr Hnew _|t t' l l' now q' Ht Hh Hl Hs Hc Hl' Hsl Hm
    |t t' l now status q' Ht Hh Hl (He1 & He2 & He3) Hm|t t' q' Ht Hs Hl Hs' Hl' Hc Hm].
  - by apply put_fresh_wf.
  - by apply (claim_wf q t t' l a now q1).
  - by apply (heartbeat_wf q t t' l l' now q').
  - apply (let_go_wf q t t' status q'); try done.
    + destruct He3 as [[-> _]|[Hin _]]; [done|]. intros Hx. rewrite Hx, !elem_of_cons, elem_of_nil in Hin. naive_solver.
    + by destruct He3 as [[_ ->]|[_ ->]].
  - case_match eqn:Hpos.
    + apply (let_go_wf q t t' AttemptStatusCanceled q'); try done. by rewrite Hs'.
    + subst q'. apply Z.ltb_ge in Hpos. destruct Hl as (Hid & _ & _ & Hmax & Hver & Hvb).
      destruct (qw_task q Hq _ _ Ht) as [H1 H2 H3 H4 H5 H6 H7]. rewrite Hc in Hpos.
      assert (∀ n, attempts q !! (q_ID t, n) = None) as Hnone by (intros n; apply eq_None_not_Some; rewrite H5; lia).
      apply (local_wf q _ (q_ID t) t'); [done| |].
      * split; simpl; rewrite ?Hid; [done|done|intros n a Ha|intros n a Ha]; by rewrite Hnone in Ha.
      * split; simpl; rewrite ?Hl', ?Hc, ?Hmax, ?Hs'.
        -- done.
        -- split; [by intros [? ?]|done].
        -- lia.
        -- lia.
        -- intros n. by rewrite H5.
        -- done.
        -- intros n a. by rewrite Hnone.
Qed.
