(* ===== verification/QueueRefine.v ===== *)
(** * The task queue refines its specification

    Every operation of [SqlQueue.v] that changes the tables of tasks and attempts
    makes the changes that [QueueHistory.v] specifies; the commits that ride along
    leave those tables alone. *)

From Stdlib Require Import Ascii.
From S2P Require Import Prelude GoStrings Values Json JsonDecode Sensitive Errors Lease Records RunStore Stores Artifacts Commit SqlStore SqlCommit SqlQueue QueueHistory.

(** ** Inversion *)

Lemma lift_queue_Ok {A} (m : result store_error A) a : lift_queue m = Ok a ↔ m = Ok a.
Proof. destruct m; simpl; split; congruence. Qed.

Lemma bind_version_Ok id n u : bind_version id n = Ok u → (n < 2 ^ 63)%N.
Proof.
  unfold bind_version, bind_uint64, refuse. rewrite lift_queue_Ok, guard_err_Ok. intros H. by apply N.leb_gt.
Qed.

Ltac queue_inv := repeat progress (store_inv; repeat match goal with
  | H : lift_queue _ = Ok _ |- _ => apply lift_queue_Ok in H
  | H : bind_version _ _ = Ok _ |- _ => apply bind_version_Ok in H
  | H : (_ <=? _)%Z = false |- _ => apply Z.leb_gt in H
  | H : match ?x with _ => _ end = Ok _ |- _ => destruct x eqn:?; try discriminate H
  end).

Lemma updateTaskVersion_Ok db expected t db' :
  updateTaskVersion db expected t = Ok (db', true) →
  (q_Version t < 2 ^ 63)%N ∧ db' = with_tasks (<[q_ID t := t]> (db_tasks db)) db ∧
  ∃ t0, db_tasks db !! q_ID t = Some t0 ∧ q_Version t0 = expected.
Proof.
  unfold updateTaskVersion. intros H. queue_inv; simplify_eq. split_and!; [done|done|by eexists].
Qed.

Lemma update_or_Ok e db expected t db' :
  update_or e db expected t = Ok db' →
  (q_Version t < 2 ^ 63)%N ∧ db' = with_tasks (<[q_ID t := t]> (db_tasks db)) db.
Proof.
  unfold update_or. intros H. queue_inv. destruct x as [db1 b]; simpl in *. destruct b; simplify_eq.
  match goal with H : updateTaskVersion _ _ _ = _ |- _ => apply updateTaskVersion_Ok in H as (? & ? & _) end. done.
Qed.

Lemma mark_attempt db t a status message heartbeat finishedAt :
  db_attempts db !! (q_ID t, q_AttemptCount t) = Some a →
  mark (queue_of db) t status (queue_of (with_attempts
    (<[(q_ID t, q_AttemptCount t) := attempt_with status message heartbeat finishedAt a]> (db_attempts db)) db)).
Proof. intros Ha. exists a, (attempt_with status message heartbeat finishedAt a). by split_and!. Qed.

Lemma updateAttempt_mark db t status message finishedAt db' :
  updateAttempt db t status message finishedAt = Ok db' → mark (queue_of db) t status (queue_of db').
Proof.
  unfold updateAttempt, current_attempt. intros H. queue_inv. simplify_eq. by apply mark_attempt.
Qed.

Lemma abandon_mark db t now db' :
  abandonRunningAttempt db t now = Ok db' →
  (q_AttemptCount t ≤ 0)%Z ∧ db' = db ∨ mark (queue_of db) t AttemptStatusAbandoned (queue_of db').
Proof.
  unfold abandonRunningAttempt, current_attempt. intros H. queue_inv; simplify_eq; [left; by split; [apply Z.leb_le|]|].
  right. by apply mark_attempt.
Qed.

Lemma abandon_tasks db t now db' : abandonRunningAttempt db t now = Ok db' → db_tasks db' = db_tasks db.
Proof. unfold abandonRunningAttempt. intros H. queue_inv; simplify_eq; done. Qed.

Lemma insertAttempt_Ok db a db' :
  insertAttempt db a = Ok db' →
  db_attempts db !! (at_TaskID a, at_Number a) = None ∧
  db' = with_attempts (<[(at_TaskID a, at_Number a) := a]> (db_attempts db)) db.
Proof. unfold insertAttempt. intros H. queue_inv. simplify_eq. split; [|done]. by apply eq_None_not_Some. Qed.

Lemma loadTask_Ok db k t : loadTask db k = Ok t ↔ db_tasks db !! k = Some t.
Proof. unfold loadTask. destruct (db_tasks db !! k); split; congruence. Qed.

Lemma validateTaskLease_holds t l now u : validateTaskLease t l now = Ok u → holds t l now.
Proof.
  unfold validateTaskLease, holds, same_lease. intros H. queue_inv. eexists. split_and!; done.
Qed.

Lemma next_version_small n : (n < 2 ^ 63)%N → (next_version n < 2 ^ 63)%N → next_version n = (n + 1)%N.
Proof.
  unfold next_version. intros H _. change (2 ^ 63)%N with 9223372036854775808%N in H. apply N.mod_small. lia.
Qed.

(** ** What a commit leaves alone *)

Lemma applyCommit_queue ctx c db run db' : applyCommit ctx c db = (run, Ok db') → queue_of db' = queue_of db.
Proof. intros H%applyCommit_outside. unfold outside in H. unfold queue_of. congruence. Qed.

(** ** The operations *)

Lemma queue_of_put t db : queue_of (with_tasks (<[q_ID t := t]> (db_tasks db)) db) = put_task t (queue_of db).
Proof. done. Qed.

Lemma task_later t status attempts av lease payload err upd comp :
  (q_Version t < 2 ^ 63)%N →
  (next_version (q_Version t) < 2 ^ 63)%N →
  later t (task_with status (next_version (q_Version t)) attempts av lease payload err upd comp t).
Proof. intros H1 H2. unfold later. simpl. rewrite next_version_small in * by done. by split_and!. Qed.

Lemma stored_task q k t : queue_wf q → tasks q !! k = Some t → q_ID t = k ∧ (q_Version t < 2 ^ 63)%N.
Proof. intros Hq Ht. destruct (qw_task q Hq _ _ Ht) as [? _ [_ ?] _ _ _ _]. done. Qed.

Lemma held_task_holds clock db l t :
  queue_wf (queue_of db) → held_task clock db l = Ok t →
  db_tasks db !! q_ID t = Some t ∧ q_ID t = tl_TaskID l ∧ holds t l clock ∧ (q_Version t < 2 ^ 63)%N.
Proof.
  intros Hq. unfold held_task. intros H. result_inv.
  match goal with H : loadTask _ _ = _ |- _ => apply loadTask_Ok in H; destruct (stored_task (queue_of db) _ _ Hq H) as [Hid Hv] end.
  match goal with H : validateTaskLease _ _ _ = _ |- _ => apply validateTaskLease_holds in H end.
  rewrite Hid. by split_and!.
Qed.

Lemma Heartbeat_change ctx clock db l now ttl db' l' :
  queue_wf (queue_of db) → Heartbeat ctx clock db l now ttl = Ok (db', l') → queue_change (queue_of db) (queue_of db').
Proof.
  intros Hq. unfold Heartbeat. intros H. result_inv.
  match goal with H : loadTask _ _ = _ |- _ => apply loadTask_Ok in H; destruct (stored_task (queue_of db) _ _ Hq H) as [Hid Hv]; rename H into Hl end.
  match goal with H : validateTaskLease ?t _ ?now = _ |- _ => apply validateTaskLease_holds in H; rename H into Hh; rename t into t0; set (now' := now) in * end.
  destruct (q_Lease t0) as [cur|] eqn:Hcur; [|done]. result_inv.
  match goal with H : update_or _ _ _ _ = _ |- _ => apply update_or_Ok in H as [Hv' ->] end.
  match goal with H : updateAttempt _ _ _ _ _ = _ |- _ => apply updateAttempt_mark in H; rename H into Hm end.
  match goal with H : (_, _) = (_, _) |- _ => injection H as <- <- end.
  rewrite queue_of_put in Hm. refine (change_heartbeat _ t0 _ l _ now' _ _ _ _ _ _ _ _ Hm).
  - simpl. by rewrite Hid.
  - exact Hh.
  - by apply task_later.
  - done.
  - done.
  - simpl. reflexivity.
  - destruct Hh as (c' & Hc' & _ & Hs & _). rewrite Hcur in Hc'. injection Hc' as <-. exact Hs.
Qed.

Lemma claimable_may db taskID kinds now t : claimable db taskID kinds now t = true → may_claim t now.
Proof.
  unfold claimable, may_claim. rewrite !andb_true_iff, !orb_true_iff, !andb_true_iff, !bool_decide_eq_true, !Z.leb_le, !Z.ltb_lt. naive_solver.
Qed.

Lemma selectClaimableTask_Ok db taskID kinds now t :
  selectClaimableTask db taskID kinds now = Ok t →
  (∃ k, db_tasks db !! k = Some t) ∧ claimable db taskID kinds now t = true.
Proof.
  unfold selectClaimableTask. destruct (stable_sort _ _) as [|t0 l] eqn:E; [done|]. intros [= <-].
  assert (t0 ∈ stable_sort task_before (filter (λ t, claimable db taskID kinds now t = true) (map_to_list (db_tasks db)).*2)) as Hin
    by (rewrite E; apply elem_of_cons; by left).
  rewrite stable_sort_elem_of in Hin. apply list_elem_of_filter in Hin as [Hc Hin]. split; [|done].
  apply list_elem_of_fmap in Hin as ([k t'] & -> & Hin). exists k. by apply elem_of_map_to_list.
Qed.

(** The step of the loop that succeeds. *)
Definition claims (db : Database) (token attemptID : string) (worker : WorkerIdentity) (o : TaskClaimOptions) (now : Z)
    (t : Task) (db' : Database) (t' : Task) (a : TaskAttempt) : Prop :=
  selectClaimableTask db (co_TaskID o) (co_Kinds o) now = Ok t ∧
  t' = claimed_task (claimed_lease (wk_ID worker) token now (co_TTL o) t) now t ∧
  a = claimed_attempt attemptID (claimed_lease (wk_ID worker) token now (co_TTL o) t) now t' ∧
  (q_Version t' < 2 ^ 63)%N ∧ queue_change (queue_of db) (queue_of db') ∧ db_tasks db' = <[q_ID t := t']> (db_tasks db).

Lemma claim_loop_claims n ctx db token attemptID worker o now db' t' a :
  queue_wf (queue_of db) → ¬ token_used (queue_of db) token → (0 < co_TTL o)%Z →
  claim_loop n ctx db token attemptID worker o now = Ok (db', (t', a)) →
  ∃ t, claims db token attemptID worker o now t db' t' a.
Proof.
  intros Hq Hnew Httl. induction n as [|n IH]; [done|]. cbn [claim_loop]. intros H. result_inv.
  match goal with H : selectClaimableTask _ _ _ _ = Ok ?t |- _ => rename H into Hsel; rename t into t0 end.
  destruct (selectClaimableTask_Ok _ _ _ _ _ Hsel) as [[k Hk] Hc]. apply claimable_may in Hc.
  destruct (stored_task (queue_of db) _ _ Hq Hk) as [Hid Hv].
  match goal with H : updateTaskVersion _ _ _ = Ok ?p |- _ => rename H into Hu; destruct p as [db2 b] end.
  match goal with H : (match q_Lease t0 with _ => _ end) = Ok ?d |- _ => rename H into Hrel; rename d into db1 end.
  destruct b; simpl in *; [|by apply IH]. result_inv.
  apply updateTaskVersion_Ok in Hu as (Hv' & -> & _).
  match goal with H : insertAttempt _ _ = Ok _ |- _ => apply insertAttempt_Ok in H as [Hfree ->] end.
  match goal with H : (_, _) = (_, _) |- _ => injection H as <- <- <- end.
  assert (db_tasks db1 = db_tasks db) as Hts.
  { destruct (q_Lease t0); [by apply abandon_tasks in Hrel|by injection Hrel as <-]. }
  exists t0. split_and!; [done|done|done|done| |by rewrite <-Hts].
  assert (released (queue_of db) t0 (queue_of db1)) as Hr.
  { destruct (q_Lease t0) as [l0|] eqn:Hl.
    - apply abandon_mark in Hrel as [[? ->]|Hm]; [left; split; [by right|done]|right; split; [by rewrite Hl|done]].
    - injection Hrel as <-. left. split; [by left|done]. }
  set (l := claimed_lease (wk_ID worker) token now (co_TTL o) t0).
  apply (change_claim _ t0 (claimed_task l now t0) l (claimed_attempt attemptID l now (claimed_task l now t0)) now (queue_of db1)).
  - exact Hk.
  - exact Hc.
  - by apply task_later.
  - split_and!; try done. simpl. lia.
  - exact Hr.
  - exact Hnew.
  - exact Hfree.
Qed.

Lemma Claim_claims ctx clock token attemptID db worker o db' t' a :
  queue_wf (queue_of db) → ¬ token_used (queue_of db) token → Claim ctx clock token attemptID db worker o = Ok (db', (t', a)) →
  ∃ t, claims db token attemptID worker o (if (co_Now o =? 0)%Z then clock else co_Now o) t db' t' a.
Proof.
  intros Hq Hn. unfold Claim. intros H. result_inv.
  match goal with H : (co_TTL o <=? 0)%Z = false |- _ => apply Z.leb_gt in H end.
  by eapply claim_loop_claims.
Qed.

Lemma or_return_ind {A B} (R : Database → Prop) db r (m : result queue_error A) (k : A → Database * TaskAnswer B) :
  R db → (∀ x, m = Ok x → R (k x).1) → R (or_return db r m k).1.
Proof. intros H1 H2. destruct m; simpl; auto. Qed.

Lemma finish_ind {A} (R : Database → Prop) fault p before after r (a : A) :
  R before → R after → R (finish fault p before after r a).1.
Proof. intros H1 H2. unfold finish, tx_commit. destruct fault as [[]|]; done. Qed.

Lemma apply_optional_queue ctx p db r r' db' :
  apply_optional ctx p db r = (r', Ok db') → queue_of db' = queue_of db.
Proof.
  unfold apply_optional. destruct p as [p|]; [|by intros [= <- <-]].
  destruct (applyCommit ctx (pr_Commit p) db) as [run [db1|]] eqn:E; [|done]. intros [= <- <-]. by eapply applyCommit_queue.
Qed.

Lemma record_optional_queue p r l db db' : record_optional p r l db = Ok db' → queue_of db' = queue_of db.
Proof.
  unfold record_optional, insertTaskTransaction, insert_transaction. destruct p as [p|]; [|by intros [= <-]].
  rewrite lift_queue_Ok. intros H. by result_inv.
Qed.

Section commits.
Context `{OperationDigest} (ctx : Context) (clock : Z) (fault : option bool).

(** What an operation on the database [db] does to the queue. *)
Definition keeps_or (R : Queue → Queue → Prop) (db db' : Database) : Prop :=
  queue_of db' = queue_of db ∨ R (queue_of db) (queue_of db').

Lemma complete_change freshTx db l payload c :
  queue_wf (queue_of db) → keeps_or queue_change db (completeWithCommit ctx clock fault freshTx db l payload c).1.
Proof.
  intros Hq. unfold completeWithCommit. assert (keeps_or queue_change db db) as Hrefl by by left.
  repeat (apply or_return_ind; [done|intros]).
  match goal with |- context [match ?st with Some _ => _ | None => _ end] => destruct st as [[stored [|? []]]|]; [done| |done|] end.
  { by case_bool_decide. }
  apply or_return_ind; [done|intros t Ht]. apply held_task_holds in Ht as (Hl & Hid & Hh & Hv); [|done].
  apply or_return_ind; [done|intros _ _].
  destruct (apply_optional _ _ _ _) as [r m] eqn:Ha.
  apply or_return_ind; [done|intros after ->]. apply apply_optional_queue in Ha.
  apply or_return_ind; [done|intros a1 (Hv1 & ->)%update_or_Ok].
  apply or_return_ind; [done|intros a2 Hm%updateAttempt_mark].
  apply or_return_ind; [done|intros a3 Hr%record_optional_queue].
  apply finish_ind; [done|]. right. rewrite queue_of_put, Ha in Hm. rewrite Hr.
  refine (change_end (queue_of db) t _ l clock AttemptStatusCompleted _ Hl Hh _ _ Hm).
  - by apply task_later.
  - split_and!; [done|done|by left].
Qed.

Lemma failure_ends t f : ends t (failed_task t f clock) AttemptStatusFailed.
Proof.
  split_and!; [done|done|]. right. split; [|done]. simpl. unfold failure_status.
  repeat case_match; rewrite !elem_of_cons; auto.
Qed.

Lemma fail_one_change st f st' :
  queue_wf (queue_of (fg_DB st)) → fail_one clock st f = Ok st' →
  queue_change (queue_of (fg_DB st)) (queue_of (fg_DB st')).
Proof.
  intros Hq. unfold fail_one. intros Hf. result_inv.
  match goal with H : held_task _ _ _ = Ok ?t |- _ => rename t into t0; apply held_task_holds in H as (Hl & Hid & Hh & Hv); [|done] end.
  match goal with H : update_or _ _ _ _ = _ |- _ => apply update_or_Ok in H as [Hv' ->] end.
  match goal with H : updateAttempt _ _ _ _ _ = _ |- _ => apply updateAttempt_mark in H; rename H into Hm end.
  rewrite queue_of_put in Hm. simpl.
  refine (change_end (queue_of (fg_DB st)) t0 _ (ft_Lease f) clock AttemptStatusFailed _ Hl Hh _ _ Hm).
  - by apply task_later.
  - apply failure_ends.
Qed.

Lemma fail_loop_change db l st' :
  queue_wf (queue_of db) → foldM (fail_one clock) (MkFailing db [] []) l = Ok st' →
  rtc queue_change (queue_of db) (queue_of (fg_DB st')).
Proof.
  intros Hq Hf.
  apply (foldM_invariant (λ st, queue_wf (queue_of (fg_DB st)) ∧ rtc queue_change (queue_of db) (queue_of (fg_DB st))) _ _ _ _) in Hf.
  - by destruct Hf.
  - intros st f st1 [Hw Hr] Hs. pose proof (fail_one_change st f st1 Hw Hs) as Hc. split; [by eapply queue_change_wf|by eapply rtc_r].
  - by split.
Qed.

Lemma fail_change freshTx db failures c :
  queue_wf (queue_of db) → rtc queue_change (queue_of db) (queue_of (failWithCommit ctx clock fault freshTx db failures c).1).
Proof.
  intros Hq. set (R db' := rtc queue_change (queue_of db) (queue_of db')). assert (R db) as Hrefl by apply rtc_refl.
  change (R (failWithCommit ctx clock fault freshTx db failures c).1). unfold failWithCommit.
  repeat (apply or_return_ind; [done|intros]).
  match goal with |- context [match ?st with Some _ => _ | None => _ end] => destruct st as [[stored l]|] end; [by destruct (length l =? length failures)|].
  apply or_return_ind; [done|intros st Hst]. apply fail_loop_change in Hst; [|done].
  destruct (apply_optional _ _ _ _) as [r m] eqn:Ha.
  apply or_return_ind; [done|intros after ->]. apply apply_optional_queue in Ha.
  apply or_return_ind; [done|intros a3 Hr%record_optional_queue].
  apply finish_ind; [done|]. unfold R. by rewrite Hr, Ha.
Qed.

Lemma enqueued_fresh freshID t : fresh_task t → fresh_task (enqueued clock freshID t).
Proof.
  intros (H1 & H2 & H3). split_and!; [done|done|]. simpl. by case_bool_decide.
Qed.

Lemma enqueue_change freshID freshTx db t c :
  queue_wf (queue_of db) → fresh_task t →
  keeps_or queue_change db (enqueueWithCommit ctx clock fault freshID freshTx db t c).1.
Proof.
  intros Hq Hfresh%(enqueued_fresh freshID). unfold enqueueWithCommit. assert (keeps_or queue_change db db) as Hrefl by by left.
  set (t' := enqueued clock freshID t) in *.
  repeat (apply or_return_ind; [done|intros]).
  match goal with |- context [match ?st with Some _ => _ | None => _ end] => destruct st as [[stored [|? []]]|]; [done| |done|] end.
  { by case_bool_decide. }
  destruct (apply_optional _ _ _ _) as [r m] eqn:Ha.
  apply or_return_ind; [done|intros after ->]. apply apply_optional_queue in Ha.
  apply or_return_ind; [done|intros a2 Hr%record_optional_queue].
  unfold insert_queued. apply or_return_ind; [done|intros _ _].
  destruct (insertTask a2 t') as [a3|] eqn:Hi; cycle 1.
  { repeat case_match; done. }
  apply finish_ind; [done|]. right. unfold insertTask in Hi. queue_inv. rewrite queue_of_put.
  replace (queue_of db) with (queue_of a2) by congruence. apply change_enqueue; [done|done|by apply eq_None_not_Some].
Qed.

Lemma Cancel_change db taskID expected now db' t' :
  queue_wf (queue_of db) → Cancel ctx clock db taskID expected now = Ok (db', t') → keeps_or queue_change db db'.
Proof.
  intros Hq. unfold Cancel. intros Hc. result_inv.
  match goal with H : loadTask _ _ = _ |- _ => apply loadTask_Ok in H; destruct (stored_task (queue_of db) _ _ Hq H) as [Hid Hv]; rename H into Hl end.
  case_bool_decide as Hs; result_inv; [match goal with H : (_, _) = (_, _) |- _ => injection H as <- _ end; by left|].
  match goal with H : update_or _ _ _ _ = _ |- _ => apply update_or_Ok in H as [Hv' ->] end.
  match goal with H : (_, _) = (_, _) |- _ => injection H as <- <- end.
  match goal with H : (if _ then _ else _) = Ok _ |- _ => rename H into Hif end.
  right. eapply (change_cancel _ _ (canceled_task (if (now =? 0)%Z then clock else now) _)); [exact Hl|done|by apply task_later|done|done|done|].
  destruct (0 <? q_AttemptCount _)%Z.
  - by apply updateAttempt_mark in Hif.
  - injection Hif as <-. done.
Qed.
End commits.
