(* ===== verification/QueueSafety.v ===== *)
(** * What the task queue guarantees

    Over every history of the operations: leases exclude and fence, attempts are
    counted and bounded, what has ended stays ended, the next task is the one that
    is claimed, and an operation that is repeated happens once. *)

From Stdlib Require Import Ascii.
From S2P Require Import Prelude GoStrings Values Json JsonDecode Sensitive Errors Lease Records RunStore Stores Artifacts Commit Transactions SqlStore SqlQueue QueueHistory QueueRefine.

(** ** Histories *)

Section histories.
Context `{OperationDigest}.

(** The steps of a history: every operation of the queue, whatever its arguments, the commit
    that rides along, and the fault of its commit; and anything that changes other tables. *)
Inductive queue_op (db : Database) : Database → Prop :=
  | op_enqueue ctx clock fault freshID freshTx t c :
      fresh_task t → queue_op db (enqueueWithCommit ctx clock fault freshID freshTx db t c).1
  | op_claim ctx clock token attemptID worker o db' r :
      ¬ token_used (queue_of db) token → Claim ctx clock token attemptID db worker o = Ok (db', r) → queue_op db db'
  | op_heartbeat ctx clock l now ttl db' l' : Heartbeat ctx clock db l now ttl = Ok (db', l') → queue_op db db'
  | op_complete ctx clock fault freshTx l payload c : queue_op db (completeWithCommit ctx clock fault freshTx db l payload c).1
  | op_fail ctx clock fault freshTx failures c : queue_op db (failWithCommit ctx clock fault freshTx db failures c).1
  | op_cancel ctx clock taskID expected now db' t : Cancel ctx clock db taskID expected now = Ok (db', t) → queue_op db db'
  | op_other db' : queue_of db' = queue_of db → queue_op db db'.

Definition reachable : Database → Prop := rtc queue_op empty_db.

Lemma empty_wf : queue_wf (queue_of empty_db).
Proof. by split; intros; simpl in *; rewrite ?lookup_empty in *. Qed.

Lemma keeps_or_rtc R db db' : keeps_or R db db' → rtc R (queue_of db) (queue_of db').
Proof. intros [->|Hr]; [apply rtc_refl|by apply rtc_once]. Qed.

Lemma queue_op_change db db' : queue_wf (queue_of db) → queue_op db db' → rtc queue_change (queue_of db) (queue_of db').
Proof.
  intros Hq [ctx clock fault freshID freshTx t c Hf|ctx clock token attemptID worker o db1 [t a] Hn Hc|ctx clock l now ttl db1 l' Hh
    |ctx clock fault freshTx l payload c|ctx clock fault freshTx failures c|ctx clock taskID expected now db1 t Hc|db1 He].
  - by apply keeps_or_rtc, enqueue_change.
  - destruct (Claim_claims _ _ _ _ _ _ _ _ _ _ Hq Hn Hc) as (t0 & _ & _ & _ & _ & Hch & _). by apply rtc_once.
  - by eapply rtc_once, Heartbeat_change.
  - by apply keeps_or_rtc, complete_change.
  - by apply fail_change.
  - by eapply keeps_or_rtc, Cancel_change.
  - rewrite He. apply rtc_refl.
Qed.

Lemma queue_changes_wf q q' : rtc queue_change q q' → queue_wf q → queue_wf q'.
Proof. induction 1; eauto using queue_change_wf. Qed.

Lemma history_changes db db' : queue_wf (queue_of db) → rtc queue_op db db' → rtc queue_change (queue_of db) (queue_of db').
Proof.
  intros Hq Hr. induction Hr as [|db1 db2 db3 H1 _ IH]; [apply rtc_refl|].
  pose proof (queue_op_change db1 db2 Hq H1) as Hc. etrans; [exact Hc|]. apply IH. by eapply queue_changes_wf.
Qed.

Lemma queue_reachable_wf db : reachable db → queue_wf (queue_of db).
Proof. intros Hr. eapply queue_changes_wf; [apply history_changes; [apply empty_wf|exact Hr]|apply empty_wf]. Qed.

(** ** Leases that are lost *)

(** The attempt of the lease has ended. *)
Definition lost (q : Queue) (l : TaskLease) : Prop :=
  ∃ p a, attempts q !! p = Some a ∧ at_LeaseToken a = tl_Token l ∧ at_Status a ≠ AttemptStatusRunning.

Lemma mark_ended q t status q' p a :
  mark q t status q' → attempts q !! p = Some a → at_Status a ≠ AttemptStatusRunning →
  (p = (q_ID t, q_AttemptCount t) → status ≠ AttemptStatusRunning) →
  ∃ a', attempts q' !! p = Some a' ∧ at_LeaseToken a' = at_LeaseToken a ∧ at_Status a' ≠ AttemptStatusRunning.
Proof.
  intros Hm Ha Hs Hst. destruct (decide (p = (q_ID t, q_AttemptCount t))) as [->|Hn].
  - destruct (mark_here _ _ _ _ Hm) as (b & b' & Hb & Hb' & (_ & _ & _ & _ & S5 & _) & Hb's). simplify_eq.
    exists b'. split_and!; [done|done|]. auto.
  - destruct p as [k n]. exists a. by rewrite (mark_lookup _ _ _ _ _ _ Hm).
Qed.

Lemma ended_stays q q' p a :
  queue_wf q → queue_change q q' → attempts q !! p = Some a → at_Status a ≠ AttemptStatusRunning →
  ∃ a', attempts q' !! p = Some a' ∧ at_LeaseToken a' = at_LeaseToken a ∧ at_Status a' ≠ AttemptStatusRunning.
Proof.
  intros Hq Hc Ha Hs. destruct Hc as [t Hf Hv Hn|t t' l a1 now q1 Ht Hm Hl Hk Hr Hnew Hfree|t t' l l' now q' Ht Hh Hl Hs1 Hc Hl' Hsl Hm
    |t t' l now status q' Ht Hh Hl (He1 & He2 & He3) Hm|t t' q' Ht Hs1 Hl Hs' Hl' Hc Hm].
  - by exists a.
  - assert (∃ a', attempts q1 !! p = Some a' ∧ at_LeaseToken a' = at_LeaseToken a ∧ at_Status a' ≠ AttemptStatusRunning) as (a' & Ha' & Hr').
    { destruct Hr as [[_ ->]|[_ Hm']]; [by exists a|]. by eapply mark_ended. }
    exists a'. split; [|done]. simpl. rewrite lookup_insert_ne; [done|]. intros <-. congruence.
  - eapply mark_ended; [exact Hm|done|done|]. intros ->. exfalso. destruct Hh as (cur & Hcur & _).
    destruct (tw_current _ _ _ (qw_task q Hq _ _ Ht) _ Hcur) as [_ (b & Hb & _ & _ & _ & Hbs)].
    destruct Hl as (Hid & _). rewrite Hid, Hc in Ha. by simplify_eq.
  - eapply mark_ended; [exact Hm|done|done|]. intros _. by destruct He3 as [[_ ->]|[_ ->]].
  - case_match; [|subst q'; by exists a]. by eapply mark_ended.
Qed.

Lemma lost_stays q q' l : queue_wf q → rtc queue_change q q' → lost q l → lost q' l.
Proof.
  intros Hq Hr. induction Hr as [|q1 q2 q3 H1 _ IH]; [done|]. intros (p & a & Ha & Ht & Hs).
  destruct (ended_stays q1 q2 p a Hq H1 Ha Hs) as (a' & Ha' & Ht' & Hs'). apply IH; [by eapply queue_change_wf|].
  exists p, a'. split_and!; [done|congruence|done].
Qed.

Lemma lost_not_held q l k t now : queue_wf q → lost q l → tasks q !! k = Some t → ¬ holds t l now.
Proof.
  intros Hq (p & a & Ha & Htok & Hs) Ht (cur & Hcur & _ & (_ & _ & Hsame & _) & _).
  destruct (tw_current _ _ _ (qw_task q Hq _ _ Ht) _ Hcur) as [_ (b & Hb & Hbt & _ & _ & Hbs)].
  assert (p = (k, q_AttemptCount t)) as -> by (eapply (qw_token q Hq); [exact Ha|exact Hb|congruence]). congruence.
Qed.

(** A lease stays the task's, or its attempt has ended. *)
Definition keeps_lease (q : Queue) (k : string) (l : TaskLease) : Prop :=
  ∃ t l', tasks q !! k = Some t ∧ q_Lease t = Some l' ∧ tl_Token l' = tl_Token l.

Lemma marked_lost q q0 k t t' l status q' :
  queue_wf q → tasks q !! k = Some t → q_Lease t = Some l → attempts q0 = attempts q →
  q_ID t' = k → q_AttemptCount t' = q_AttemptCount t → status ≠ AttemptStatusRunning → mark q0 t' status q' → lost q' l.
Proof.
  intros Hq Ht Hl Ha Hid Hc Hs Hm. destruct (mark_here _ _ _ _ Hm) as (b & b' & Hb & Hb' & (_ & _ & _ & _ & S5 & _) & Hb's).
  destruct (tw_current _ _ _ (qw_task q Hq _ _ Ht) _ Hl) as [_ (a & Hat & Htok & _)].
  rewrite Ha, Hid, Hc, Hat in Hb. simplify_eq. eexists _, b'. split_and!; [exact Hb'|congruence|done].
Qed.

Lemma change_lease q q' k t l :
  queue_wf q → queue_change q q' → tasks q !! k = Some t → q_Lease t = Some l → keeps_lease q' k l ∨ lost q' l.
Proof.
  intros Hq Hc Ht Hl.
  assert (∀ t1 ats, q_ID t1 ≠ k → keeps_lease (MkQueue (<[q_ID t1 := t1]> (tasks q)) ats) k l) as Hother.
  { intros t1 ats Hn. exists t, l. simpl. by rewrite lookup_insert_ne. }
  destruct Hc as [t0 Hf Hv Hn|t0 t' l1 a now q1 Ht0 Hm Hl1 Hk Hr Hnew Hfree|t0 t' l0 l' now q' Ht0 Hh Hl1 Hs1 Hc Hl' Hsl Hm
    |t0 t' l0 now status q' Ht0 Hh Hl1 (He1 & He2 & He3) Hm|t0 t' q' Ht0 Hs1 Hl1 Hs' Hl' Hc Hm].
  - left. apply Hother. intros <-. congruence.
  - destruct (decide (q_ID t0 = k)) as [<-|Hn].
    + assert (t0 = t) as -> by congruence. right. destruct Hr as [[Hn ->]|[_ Hm']].
      * exfalso. destruct Hn as [Hn|Hn]; [congruence|].
        destruct (qw_task q Hq _ _ Ht) as [_ _ _ _ H5 H6 _]. destruct (H6 l Hl) as [_ (b & Hb & _)].
        assert (is_Some (attempts q !! (q_ID t, q_AttemptCount t))) as [? ?]%H5 by (by eexists). lia.
      * destruct (marked_lost q q (q_ID t) t t l AttemptStatusAbandoned q1 Hq Ht Hl eq_refl eq_refl eq_refl ltac:(done) Hm') as (p & b & Hb & Hx).
        exists p, b. split; [|done]. simpl. rewrite lookup_insert_ne; [done|]. intros <-. congruence.
    + left. destruct Hl1 as (Hid & _). rewrite <-Hid in Hn.
      assert (tasks q1 = tasks q) as Hts by (destruct Hr as [[_ ->]|[_ (b & b' & _ & _ & _ & ->)]]; done).
      unfold put_attempt, put_task. simpl. rewrite Hts. by apply Hother.
  - left. destruct Hm as (b & b' & _ & _ & _ & ->). destruct (decide (q_ID t' = k)) as [<-|Hn]; [|by apply Hother].
    destruct Hl1 as (Hid & _). rewrite Hid, Ht0 in Ht. injection Ht as <-. exists t', l'. simpl. rewrite lookup_insert_eq. split_and!; [done|done|].
    destruct Hh as (cur & Hcur & _ & (_ & _ & S3 & _) & _), Hsl as (_ & _ & R3 & _). congruence.
  - destruct (decide (q_ID t' = k)) as [Hk|Hn]; [right|left; destruct Hm as (b & b' & _ & _ & _ & ->); by apply Hother].
    destruct Hl1 as (Hid & _). rewrite <-Hid, Hk, Ht in Ht0. injection Ht0 as <-.
    eapply (marked_lost q (put_task t' q)); try done. by destruct He3 as [[_ ->]|[_ ->]].
  - destruct (decide (q_ID t' = k)) as [Hk|Hn].
    + right. destruct Hl1 as (Hid & _). rewrite <-Hid, Hk, Ht in Ht0. injection Ht0 as <-.
      rewrite Hc in Hm. destruct (qw_task q Hq _ _ Ht) as [_ _ _ _ H5 H6 _]. destruct (H6 l Hl) as [_ (b & Hb & _)].
      assert (is_Some (attempts q !! (k, q_AttemptCount t))) as [Hpos _]%H5 by (by eexists).
      destruct (0 <? q_AttemptCount t)%Z eqn:E; [|apply Z.ltb_ge in E; lia].
      by apply (marked_lost q (put_task t' q) k t t' l AttemptStatusCanceled).
    + left. case_match; [destruct Hm as (b & b' & _ & _ & _ & ->)|subst q']; by apply Hother.
Qed.

Lemma kept_or_lost q q' k t l :
  queue_wf q → rtc queue_change q q' → tasks q !! k = Some t → q_Lease t = Some l → keeps_lease q' k l ∨ lost q' l.
Proof.
  intros Hq Hr. revert t l. induction Hr as [q|q1 q2 q3 H1 Hr IH]; intros t l Ht Hl; [left; by exists t, l|].
  pose proof (queue_change_wf _ _ H1 Hq) as Hq2.
  destruct (change_lease q1 q2 k t l Hq H1 Ht Hl) as [(t2 & l2 & Ht2 & Hl2 & He)|Hlost]; [|right; by eapply lost_stays].
  destruct (IH Hq2 t2 l2 Ht2 Hl2) as [(t3 & l3 & ? & ? & ?)|(p & a & ? & ? & ?)].
  - left. exists t3, l3. split_and!; [done|done|congruence].
  - right. exists p, a. split_and!; [done|congruence|done].
Qed.

(** ** Operations under a lease that does not hold *)

Definition not_held (db : Database) (l : TaskLease) (now : Z) : Prop :=
  ∀ k t, db_tasks db !! k = Some t → ¬ holds t l now.

Section refused.
Context (ctx : Context) (clock : Z) (fault : option bool) (db : Database) (l : TaskLease).
Hypothesis Hwf : queue_wf (queue_of db).

Lemma heartbeat_refused now ttl x :
  not_held db l (if (now =? 0)%Z then clock else now) → Heartbeat ctx clock db l now ttl ≠ Ok x.
Proof.
  intros Hnone. unfold Heartbeat. intros H0. result_inv.
  repeat match goal with
  | H : loadTask _ _ = _ |- _ => apply loadTask_Ok in H
  | H : validateTaskLease _ _ _ = _ |- _ => apply validateTaskLease_holds in H end.
  by eapply Hnone.
Qed.

Lemma held_task_refused t : not_held db l clock → held_task clock db l ≠ Ok t.
Proof. intros Hnone (Ht & _ & Hh & _)%held_task_holds; [|done]. by eapply Hnone. Qed.

Lemma complete_refused freshTx payload c :
  not_held db l clock →
  (completeWithCommit ctx clock fault freshTx db l payload c).1 = db ∧
  (c = None → result_ok (ta_Value (completeWithCommit ctx clock fault freshTx db l payload c).2) = false).
Proof.
  intros Hnone. unfold completeWithCommit.
  destruct (prepare_optional _ _ _) as [p|] eqn:Hp; [simpl|by split].
  destruct (lift_queue (begin_tx ctx)); [simpl|by split].
  destruct (replay db p) as [[[stored [|t []]]|]|] eqn:Hr; [by split| |by split| |by split].
  { simpl. split; [by case_bool_decide|]. intros ->. injection Hp as <-. done. }
  simpl. destruct (held_task clock db l) as [t|] eqn:E; [by apply held_task_refused in E|by split].
Qed.

Lemma fail_loop_refused st l0 st' :
  queue_wf (queue_of (fg_DB st)) → lost (queue_of (fg_DB st)) l → l ∈ map ft_Lease l0 → foldM (fail_one clock) st l0 ≠ Ok st'.
Proof.
  revert st. induction l0 as [|f l0 IH]; intros st Hw Hl; [by intros ?%elem_of_nil|].
  simpl. intros Hin (st1 & Hf & Hr)%result_bind_Ok. pose proof (fail_one_change _ _ _ _ Hw Hf) as Hc.
  apply elem_of_cons in Hin as [->|Hin].
  - unfold fail_one in Hf. apply result_bind_Ok in Hf as ([] & _ & Hf). apply result_bind_Ok in Hf as (t & Ht & _).
    apply held_task_holds in Ht as (Ht & _ & Hh & _); [|done]. by eapply lost_not_held.
  - revert Hr. apply IH; [by eapply queue_change_wf|by eapply lost_stays, Hl; [|apply rtc_once]|done].
Qed.

Lemma fail_refused freshTx failures c :
  lost (queue_of db) l → l ∈ map ft_Lease failures →
  (failWithCommit ctx clock fault freshTx db failures c).1 = db ∧
  (c = None → result_ok (ta_Value (failWithCommit ctx clock fault freshTx db failures c).2) = false).
Proof.
  intros Hl Hin. unfold failWithCommit.
  destruct (guard_err _ _); [simpl|by split].
  destruct (prepare_optional _ _ _) as [p|] eqn:Hp; [simpl|by split].
  destruct (lift_queue (begin_tx ctx)); [simpl|by split].
  destruct (replay db p) as [[[stored ts]|]|] eqn:Hr; [| |by split].
  { simpl. split; [by destruct (length ts =? length failures)|]. intros ->. injection Hp as <-. done. }
  simpl. destruct (foldM _ _ _) as [st|] eqn:E; [|by split]. by apply fail_loop_refused in E.
Qed.
End refused.

Lemma lost_refuses db l now : queue_wf (queue_of db) → lost (queue_of db) l → not_held db l now.
Proof. intros Hq Hl k t Ht. by apply (lost_not_held (queue_of db) l k). Qed.

(** ** The guarantees *)

(** C27: every history of the queue, whatever its operations, commits and faults, refines the
    specification of its two tables, and keeps their invariant: a task holds a lease exactly while it
    is running, and the lease is that of its one running attempt *)
Theorem queue_refines db :
  reachable db → rtc queue_change (queue_of empty_db) (queue_of db) ∧ queue_wf (queue_of db).
Proof. intros Hr. split; [apply history_changes; [apply empty_wf|exact Hr]|by apply queue_reachable_wf]. Qed.

(** C26: while a lease holds, nobody else gets its task: a claim made before it expires returns another task
    and leaves this one as it is *)
Theorem task_exclusive ctx clock token attemptID db worker o db' t' a k t l :
  reachable db → ¬ token_used (queue_of db) token → db_tasks db !! k = Some t →
  holds t l (if (co_Now o =? 0)%Z then clock else co_Now o) →
  Claim ctx clock token attemptID db worker o = Ok (db', (t', a)) → q_ID t' ≠ k ∧ db_tasks db' !! k = Some t.
Proof.
  intros Hr%queue_reachable_wf Hn Ht (cur & Hcur & Hrun & _ & Hexp) Hc.
  destruct (Claim_claims _ _ _ _ _ _ _ _ _ _ Hr Hn Hc) as (t0 & Hsel & -> & -> & _ & _ & Hts).
  destruct (selectClaimableTask_Ok _ _ _ _ _ Hsel) as [[k0 Hk0] [Hm _]%claimable_may].
  destruct (stored_task (queue_of db) _ _ Hr Hk0) as [Hid _].
  assert (q_ID t0 ≠ k) as Hne.
  { intros Hk. assert (t0 = t) as -> by congruence. unfold taskLeaseExpiry in Hm. rewrite Hcur, Hrun in Hm.
    destruct Hm as [?|[_ ?]]; [done|lia]. }
  split; [done|]. rewrite Hts, lookup_insert_ne by done. done.
Qed.

(** C25: a worker whose lease has been superseded is fenced for good: once the task of the lease no
    longer carries its token, no heartbeat, completion or failure under it is ever accepted again, at
    any clock reading and with any commit *)
Theorem stale_lease_fenced db1 db2 db3 k t l :
  reachable db1 → db_tasks db1 !! k = Some t → q_Lease t = Some l → rtc queue_op db1 db2 →
  (∀ t2 l2, db_tasks db2 !! k = Some t2 → q_Lease t2 = Some l2 → tl_Token l2 ≠ tl_Token l) → rtc queue_op db2 db3 →
  (∀ ctx clock now ttl x, Heartbeat ctx clock db3 l now ttl ≠ Ok x) ∧
  (∀ ctx clock fault tx payload c, let r := completeWithCommit ctx clock fault tx db3 l payload c in
     r.1 = db3 ∧ (c = None → result_ok (ta_Value r.2) = false)) ∧
  (∀ ctx clock fault tx fs c, l ∈ map ft_Lease fs → let r := failWithCommit ctx clock fault tx db3 fs c in
     r.1 = db3 ∧ (c = None → result_ok (ta_Value r.2) = false)).
Proof.
  intros H1%queue_reachable_wf Ht Hl H12 Hgone H23.
  pose proof (history_changes _ _ H1 H12) as C12. pose proof (queue_changes_wf _ _ C12 H1) as H2.
  pose proof (history_changes _ _ H2 H23) as C23. pose proof (queue_changes_wf _ _ C23 H2) as H3.
  destruct (kept_or_lost _ _ k t l H1 C12 Ht Hl) as [(t2 & l2 & Ht2 & Hl2 & He)|Hlost]; [by destruct (Hgone t2 l2 Ht2 Hl2)|].
  pose proof (lost_stays _ _ _ H2 C23 Hlost) as Hlost3.
  split_and!.
  - intros ctx clock now ttl x Hx. apply (heartbeat_refused ctx clock db3 l now ttl x); [by apply lost_refuses|exact Hx].
  - intros ctx clock fault tx payload c. apply complete_refused; [done|by apply lost_refuses].
  - intros ctx clock fault tx fs c Hin. by apply (fail_refused ctx clock fault db3 l).
Qed.

Lemma change_final q q' k t :
  queue_change q q' → queue_wf q → tasks q !! k = Some t → q_Status t ∈ [TaskStatusCompleted; TaskStatusCanceled] → tasks q' !! k = Some t.
Proof.
  intros Hc Hq Ht Hs.
  assert (q_Status t ≠ TaskStatusRunning ∧ q_Status t ≠ TaskStatusQueued) as [Hnr Hnq].
  { rewrite !elem_of_cons, elem_of_nil in Hs. by destruct Hs as [->|[->|[]]]. }
  assert (∀ t0, tasks q !! q_ID t0 = Some t0 → q_Status t0 = TaskStatusRunning → q_ID t0 ≠ k) as Hrun by (intros t0 ? ? <-; congruence).
  destruct Hc as [t0 Hf Hv Hn|t0 t' l1 a now q1 Ht0 Hm Hl1 Hk Hr Hnew Hfree|t0 t' l0 l' now q' Ht0 Hh Hl1 Hs1 Hc Hl' Hsl Hm
    |t0 t' l0 now status q' Ht0 Hh Hl1 (He1 & He2 & He3) Hm|t0 t' q' Ht0 Hs1 Hl1 Hs' Hl' Hc Hm]; simpl.
  - rewrite lookup_insert_ne; [done|]. intros <-. congruence.
  - destruct Hl1 as (Hid & _). assert (tasks q1 = tasks q) as -> by (destruct Hr as [[_ ->]|[_ (b & b' & _ & _ & _ & ->)]]; done).
    rewrite lookup_insert_ne; [done|]. rewrite Hid. destruct Hm as [[Hm|[Hm _]] _]; [|by apply Hrun]. intros <-. congruence.
  - destruct Hl1 as (Hid & _), Hh as (? & _ & Hh & _), Hm as (b & b' & _ & _ & _ & ->). simpl. rewrite lookup_insert_ne; [done|]. rewrite Hid. by apply Hrun.
  - destruct Hl1 as (Hid & _), Hh as (? & _ & Hh & _), Hm as (b & b' & _ & _ & _ & ->). simpl. rewrite lookup_insert_ne; [done|]. rewrite Hid. by apply Hrun.
  - destruct Hl1 as (Hid & _). assert (q_ID t' ≠ k) by (rewrite Hid; intros <-; congruence).
    case_match; [destruct Hm as (b & b' & _ & _ & _ & ->)|subst q']; simpl; by rewrite lookup_insert_ne.
Qed.

(** a task that is completed or canceled never changes again, whatever happens in the store *)
Theorem task_final db db' k t :
  reachable db → rtc queue_op db db' → db_tasks db !! k = Some t →
  q_Status t ∈ [TaskStatusCompleted; TaskStatusCanceled] → db_tasks db' !! k = Some t.
Proof.
  intros Hr%queue_reachable_wf Hh Ht Hs. apply history_changes in Hh; [|done].
  change (tasks (queue_of db') !! k = Some t). change (tasks (queue_of db) !! k = Some t) in Ht.
  induction Hh as [|q1 q2 q3 H1 _ IH]; [done|]. apply IH; [by eapply queue_change_wf|by eapply change_final].
Qed.

(** C30: the attempts of a task are numbered 1, 2, … up to its attempt count without a gap, at most one of
    them is running, and where a maximum is set no history claims the task more often *)
Theorem attempts_bounded db k t :
  reachable db → db_tasks db !! k = Some t →
  (∀ n, is_Some (db_attempts db !! (k, n)) ↔ (1 ≤ n ≤ q_AttemptCount t)%Z) ∧
  ((0 < q_MaxAttempts t)%Z → (q_AttemptCount t ≤ q_MaxAttempts t)%Z) ∧
  (0 ≤ q_AttemptCount t < 2 ^ 63)%Z ∧
  (∀ n m a b, db_attempts db !! (k, n) = Some a → db_attempts db !! (k, m) = Some b →
     at_Status a = AttemptStatusRunning → at_Status b = AttemptStatusRunning → n = m).
Proof.
  intros Hr%queue_reachable_wf Ht. destruct (qw_task _ Hr _ _ Ht) as [_ _ H3 H4 H5 _ H7]. split_and!.
  - exact H5.
  - exact H4.
  - lia.
  - change (2 ^ 63)%N with 9223372036854775808%N in H3. lia.
  - intros n m a b Ha Hb Hra Hrb. destruct (H7 n a Ha Hra) as [-> _]. by destruct (H7 m b Hb Hrb) as [-> _].
Qed.

(** ** Claiming *)

#[local] Instance task_before_weak : StrictWeak task_before.
Proof. unfold task_before. apply _. Qed.

Lemma selectClaimableTask_least db taskID kinds now :
  match selectClaimableTask db taskID kinds now with
  | Ok t => (∃ k, db_tasks db !! k = Some t) ∧ claimable db taskID kinds now t = true ∧
            ∀ k u, db_tasks db !! k = Some u → claimable db taskID kinds now u = true → task_before u t = false
  | Err e => e = ErrTaskNotFound ∧ ∀ k u, db_tasks db !! k = Some u → claimable db taskID kinds now u = false
  end.
Proof.
  destruct (selectClaimableTask db taskID kinds now) as [t|e] eqn:E.
  - destruct (selectClaimableTask_Ok _ _ _ _ _ E) as [Hk Hc]. split_and!; [done|done|]. intros k u Hu Huc.
    unfold selectClaimableTask in E. set (l := filter _ _) in E.
    assert (u ∈ stable_sort task_before l) as Hin.
    { rewrite stable_sort_elem_of. apply list_elem_of_filter. split; [done|]. apply list_elem_of_fmap. exists (k, u). split; [done|].
      by apply elem_of_map_to_list. }
    pose proof (stable_sort_sorted task_before l) as Hs. destruct (stable_sort task_before l) as [|t0 l1]; [done|]. injection E as ->.
    apply StronglySorted_inv in Hs as [_ Hs]. apply elem_of_cons in Hin as [->|Hin].
    + by apply (sw_irrefl task_before).
    + rewrite Forall_forall in Hs. by apply Hs.
  - unfold selectClaimableTask in E. destruct (stable_sort _ _) as [|? ?] eqn:Es; [|done]. injection E as <-. split; [done|].
    intros k u Hu. destruct (claimable db taskID kinds now u) eqn:Hc; [exfalso|done].
    assert (u ∈ stable_sort task_before (filter (λ t, claimable db taskID kinds now t = true) (map_to_list (db_tasks db)).*2)) as Hin.
    { rewrite stable_sort_elem_of. apply list_elem_of_filter. split; [done|]. apply list_elem_of_fmap. exists (k, u). split; [done|].
      by apply elem_of_map_to_list. }
    rewrite Es in Hin. by apply elem_of_nil in Hin.
Qed.

Definition attempt_ids (db : Database) : list string := map (at_ID ∘ snd) (map_to_list (db_attempts db)).

Lemma attempt_ids_elem db id : id ∈ attempt_ids db ↔ ∃ p a, db_attempts db !! p = Some a ∧ at_ID a = id.
Proof.
  unfold attempt_ids. rewrite list_elem_of_fmap. split.
  - intros ([p a] & -> & Hin). apply elem_of_map_to_list in Hin. by exists p, a.
  - intros (p & a & Ha & <-). exists (p, a). split; [done|by apply elem_of_map_to_list].
Qed.

(** The release of the task before a claim succeeds, and leaves no attempt in the claim's way. *)
Lemma release_runs db t now :
  queue_wf (queue_of db) → db_tasks db !! q_ID t = Some t →
  ∃ db1, match q_Lease t with Some _ => abandonRunningAttempt db t now | None => Ok db end = Ok db1 ∧
    db_tasks db1 = db_tasks db ∧ (∀ id, id ∈ attempt_ids db1 → id ∈ attempt_ids db) ∧
    (∀ p, is_Some (db_attempts db1 !! p) ↔ is_Some (db_attempts db !! p)).
Proof.
  intros Hq Ht. destruct (q_Lease t) as [l|] eqn:Hl; [|by exists db].
  destruct (tw_current _ _ _ (qw_task _ Hq _ _ Ht) _ Hl) as [_ (a & Ha & _)]. simpl in Ha.
  unfold abandonRunningAttempt. destruct (q_AttemptCount t <=? 0)%Z; [by exists db|].
  unfold current_attempt. rewrite Ha. simpl. eexists. split; [done|]. split; [done|]. split.
  - intros id. rewrite !attempt_ids_elem. intros (p & b & Hb & <-). simpl in Hb.
    apply lookup_insert_Some in Hb as [[<- <-]|[_ Hb]]; [by eexists _, a|by eexists _, b].
  - intros p. simpl. destruct (decide (p = (q_ID t, q_AttemptCount t))) as [->|Hn].
    + rewrite lookup_insert_eq, Ha. split; intros _; by eexists.
    + by rewrite lookup_insert_ne.
Qed.

Lemma updateTaskVersion_runs db t t0 :
  db_tasks db !! q_ID t = Some t0 → (q_Version t < 2 ^ 63)%N → (q_Version t0 < 2 ^ 63)%N →
  updateTaskVersion db (q_Version t0) t = Ok (with_tasks (<[q_ID t := t]> (db_tasks db)) db, true).
Proof.
  intros Ht H1 H2. unfold updateTaskVersion, bind_version, bind_uint64, refuse.
  apply N.leb_gt in H1, H2. rewrite H1, H2. simpl. by rewrite Ht, N.eqb_refl.
Qed.

(** C29: a claim takes the first claimable task, by availability, creation and ID, whenever there is
    one, and answers that there is none exactly when nothing is claimable; its loop never ends in a conflict *)
Theorem Claim_exact ctx clock token attemptID db worker o :
  reachable db → begin_tx ctx = Ok tt → storage_id "worker ID" (wk_ID worker) = Ok tt → (0 < co_TTL o)%Z →
  attemptID ∉ attempt_ids db → (∀ k t, db_tasks db !! k = Some t → (q_Version t + 1 < 2 ^ 63)%N) →
  let now := if (co_Now o =? 0)%Z then clock else co_Now o in
  let could := claimable db (co_TaskID o) (co_Kinds o) now in
  let answer := Claim ctx clock token attemptID db worker o in
  (answer = Err ErrTaskNotFound ∧ ∀ k u, db_tasks db !! k = Some u → could u = false) ∨
  ∃ t db', db_tasks db !! q_ID t = Some t ∧ could t = true ∧
    (∀ k u, db_tasks db !! k = Some u → could u = true → task_before u t = false) ∧
    let l := claimed_lease (wk_ID worker) token now (co_TTL o) t in
    let t' := claimed_task l now t in
    answer = Ok (db', (t', claimed_attempt attemptID l now t')) ∧ db_tasks db' = <[q_ID t := t']> (db_tasks db) ∧
    db_attempts db' !! (q_ID t, q_AttemptCount t') = Some (claimed_attempt attemptID l now t').
Proof.
  intros Hr%queue_reachable_wf Hctx Hwk Httl Hid Hv now could answer. unfold answer, Claim. rewrite Hwk.
  rewrite (proj2 (Z.leb_gt (co_TTL o) 0) Httl). cbn [lift_queue result_bind guard_err]. fold now. cbn [claim_loop]. rewrite Hctx. cbn [lift_queue result_bind].
  pose proof (selectClaimableTask_least db (co_TaskID o) (co_Kinds o) now) as Hsel.
  destruct (selectClaimableTask db (co_TaskID o) (co_Kinds o) now) as [t|e]; cbn [result_bind]; [right|left; by destruct Hsel as [-> ?]].
  destruct Hsel as ([k Hk] & Hc & Hmin). destruct (stored_task (queue_of db) _ _ Hr Hk) as [<- Hvt]. specialize (Hv _ _ Hk).
  destruct (release_runs db t now Hr Hk) as (db1 & -> & Hts & Hids & Hsome). cbn [result_bind].
  set (l := claimed_lease (wk_ID worker) token now (co_TTL o) t). set (t' := claimed_task l now t).
  assert (q_Version t' = q_Version t + 1)%N as Hv'.
  { simpl. unfold next_version. change (2 ^ 63)%N with 9223372036854775808%N in *. apply N.mod_small. lia. }
  rewrite (updateTaskVersion_runs db1 t' t); [|rewrite Hts; exact Hk|rewrite Hv'; exact Hv|exact Hvt]. cbn [result_bind snd fst negb].
  destruct (qw_task _ Hr _ _ Hk) as [_ _ [Hcnt _] _ H5 _ _]. simpl in H5.
  assert (q_AttemptCount t' = q_AttemptCount t + 1)%Z as Hc' by (simpl; eapply no_wrap; [exact Hcnt|exact Hv]).
  assert (db_attempts db1 !! (q_ID t, q_AttemptCount t') = None) as Hfree.
  { apply eq_None_not_Some. rewrite Hsome, H5, Hc'. lia. }
  unfold insertAttempt. simpl at_ID. simpl at_TaskID. simpl at_Number.
  rewrite (bool_decide_false (attemptID ∈ _)) by (intros Hx; by apply Hid, Hids).
  rewrite (bool_decide_false (is_Some (_ !! (q_ID t, _)))) by (change (¬ is_Some (db_attempts db1 !! (q_ID t, q_AttemptCount t'))); by rewrite Hfree; intros [? ?]).
  simpl db_tasks. rewrite (bool_decide_true (is_Some _)) by (rewrite lookup_insert_eq; by eexists).
  cbn [guard_err negb result_bind]. exists t. eexists. split; [exact Hk|]. split; [exact Hc|]. split; [exact Hmin|]. split; [reflexivity|]. split.
  - simpl. by rewrite Hts.
  - simpl. apply lookup_insert_eq.
Qed.

(** ** Repeating an operation *)

(** The operation as a function of when it is called (its clock and its fresh
    identifier), of the fault of its commit and of the database: the call left the
    database, or it wrote what a call without the fault writes, and what a repetition
    at any time then answers and leaves is what that call would have. *)
Definition repeats {A} (op : Z * string → option bool → Database → Database * TaskAnswer A) (db : Database)
    (call : Z * string) (fault : option bool) : Prop :=
  (op call fault db).1 = db ∨
  (op call fault db).1 = (op call None db).1 ∧ ∀ call', op call' None (op call fault db).1 = op call None db.

Lemma named_commit fr c : TrimSpace (c_TransactionID c) ≠ "" → with_id fr (Some c) = Some c.
Proof. intros Hn. unfold with_id, ensureCommitTransactionID. cbn. by rewrite bool_decide_false. Qed.

Lemma finish_repeats {A} fault p before after r (a : A) :
  (finish fault p before after r a).1 = before ∨
  (finish fault p before after r a).1 = after ∧ finish None p before after r a = (after, MkTaskAnswer r (Ok a)).
Proof. unfold finish. destruct fault as [[]|]; simpl; auto. Qed.

Lemma apply_optional_result ctx p db r r' db' :
  apply_optional ctx (Some p) db r = (r', Ok db') → cr_TransactionID r' = c_TransactionID (pr_Commit p).
Proof. unfold apply_optional. destruct (applyCommit ctx (pr_Commit p) db) as [run [db1|]]; [|done]. by intros [= <- _]. Qed.

Lemma recorded_replay ctx p db r r' ts db1 db2 :
  apply_optional ctx (Some p) db r = (r', Ok db1) → ∀ db1', record_optional (Some p) r' ts db1' = Ok db2 →
  replay db2 (Some p) = Ok (Some (r', ts)).
Proof.
  intros Ha%apply_optional_result db1'. unfold record_optional, insertTaskTransaction, insert_transaction.
  rewrite lift_queue_Ok. intros Hi. result_inv. unfold replay, loadTaskTransaction. simpl.
  rewrite <-Ha, lookup_insert_eq. by rewrite bool_decide_true.
Qed.

Lemma named_complete ctx clock fault fr db l payload c : TrimSpace (c_TransactionID c) ≠ "" →
  completeWithCommit ctx clock fault fr db l payload (Some c) = completeWithCommit ctx clock fault "" db l payload (Some c).
Proof. intros Hn. unfold completeWithCommit. by rewrite !named_commit. Qed.

Lemma named_fail ctx clock fault fr db failures c : TrimSpace (c_TransactionID c) ≠ "" →
  failWithCommit ctx clock fault fr db failures (Some c) = failWithCommit ctx clock fault "" db failures (Some c).
Proof. intros Hn. unfold failWithCommit. by rewrite !named_commit. Qed.

Lemma complete_repeats ctx l payload c db call fault :
  queue_wf (queue_of db) → TrimSpace (c_TransactionID c) ≠ "" →
  repeats (λ call fault db, completeWithCommit ctx call.1 fault call.2 db l payload (Some c)) db call fault.
Proof.
  intros Hq Hn. destruct call as [clock freshTx]. unfold repeats. cbn [fst snd]. rewrite !(named_complete _ _ _ freshTx) by done.
  enough ((completeWithCommit ctx clock fault "" db l payload (Some c)).1 = db ∨
    (completeWithCommit ctx clock fault "" db l payload (Some c)).1 = (completeWithCommit ctx clock None "" db l payload (Some c)).1 ∧
    ∀ clock', completeWithCommit ctx clock' None "" (completeWithCommit ctx clock fault "" db l payload (Some c)).1 l payload (Some c) =
      completeWithCommit ctx clock None "" db l payload (Some c)) as [E|[E He]];
    [by left|right; split; [done|]; intros [clock' fr']; cbn [fst snd]; by rewrite named_complete|].
  unfold completeWithCommit. cbn [with_id fmap option_fmap option_map].
  destruct (prepare_optional _ _ _) as [p|] eqn:Hp; [cbn [or_return]|by left].
  destruct (lift_queue (begin_tx ctx)) eqn:Hb; [cbn [or_return]|by left].
  destruct (replay db p) as [[[stored ts]|]|] eqn:Hr; [|cbn [or_return]|by left].
  { left. cbn [or_return]. destruct ts as [|? []]; [done|by case_bool_decide|done]. }
  destruct (held_task clock db l) as [t|] eqn:Ht; [cbn [or_return]|by left].
  destruct (graph_run_ended db t); [cbn [or_return]|by left].
  destruct (apply_optional ctx p db _) as [r' [db1|]] eqn:Ha; [cbn [or_return]|by left].
  destruct (update_or _ _ _ _) as [db2|]; [cbn [or_return]|by left].
  destruct (updateAttempt _ _ _ _ _) as [db3|]; [cbn [or_return]|by left].
  destruct (record_optional p _ _ _) as [db4|] eqn:Hrec; [cbn [or_return]|by left].
  destruct (finish_repeats fault p db db4 r' (completed_task clock payload t)) as [?|[-> ->]]; [by left|right].
  unfold prepare_optional in Hp. result_inv. subst. rewrite (recorded_replay _ _ _ _ _ _ _ _ Ha _ Hrec). simpl.
  apply held_task_holds in Ht as (_ & Hid & _); [|done]. by rewrite bool_decide_true.
Qed.

Lemma fail_loop_length clock st l st' :
  foldM (fail_one clock) st l = Ok st' → length (fg_Tasks st') = (length (fg_Tasks st) + length l)%nat.
Proof.
  revert st. induction l as [|f l IH]; intros st; simpl; [intros [= <-]; lia|].
  intros (st1 & Hf & Hr)%result_bind_Ok. rewrite (IH _ Hr). unfold fail_one in Hf. result_inv. simpl. rewrite length_app. simpl. lia.
Qed.

Lemma fail_repeats ctx failures c db call fault :
  TrimSpace (c_TransactionID c) ≠ "" →
  repeats (λ call fault db, failWithCommit ctx call.1 fault call.2 db failures (Some c)) db call fault.
Proof.
  intros Hn. destruct call as [clock freshTx]. unfold repeats. cbn [fst snd]. rewrite !(named_fail _ _ _ freshTx) by done.
  enough ((failWithCommit ctx clock fault "" db failures (Some c)).1 = db ∨
    (failWithCommit ctx clock fault "" db failures (Some c)).1 = (failWithCommit ctx clock None "" db failures (Some c)).1 ∧
    ∀ clock', failWithCommit ctx clock' None "" (failWithCommit ctx clock fault "" db failures (Some c)).1 failures (Some c) =
      failWithCommit ctx clock None "" db failures (Some c)) as [E|[E He]];
    [by left|right; split; [done|]; intros [clock' fr']; cbn [fst snd]; by rewrite named_fail|].
  unfold failWithCommit. cbn [with_id fmap option_fmap option_map].
  destruct (guard_err _ _) eqn:Hg; [cbn [or_return]|by left].
  destruct (prepare_optional _ _ _) as [p|] eqn:Hp; [cbn [or_return]|by left].
  destruct (lift_queue (begin_tx ctx)) eqn:Hb; [cbn [or_return]|by left].
  destruct (replay db p) as [[[stored ts]|]|] eqn:Hr; [|cbn [or_return]|by left].
  { left. cbn [or_return]. by destruct (length ts =? length failures). }
  destruct (foldM _ _ _) as [st|] eqn:Hst; [cbn [or_return]|by left].
  destruct (apply_optional ctx p _ _) as [r' [db1|]] eqn:Ha; [cbn [or_return]|by left].
  destruct (record_optional p _ _ _) as [db4|] eqn:Hrec; [cbn [or_return]|by left].
  destruct (finish_repeats fault p db db4 r' (fg_Tasks st)) as [?|[-> ->]]; [by left|right].
  unfold prepare_optional in Hp. result_inv. subst. rewrite (recorded_replay _ _ _ _ _ _ _ _ Ha _ Hrec). simpl.
  apply fail_loop_length in Hst. simpl in Hst. by rewrite Hst, Nat.eqb_refl.
Qed.

(** C28: completing or failing tasks with a named commit happens once.  A call may be lost at the commit
    of its transaction, done or not: either it wrote nothing, or it wrote what it writes when it is not
    lost, and then the same call made again, at any later time, gives the answer the first one would
    have given and writes nothing more *)
Theorem complete_fail_once ctx db c l payload failures clock freshTx fault clock' freshTx' :
  reachable db → TrimSpace (c_TransactionID c) ≠ "" →
  (let complete clock fault freshTx db := completeWithCommit ctx clock fault freshTx db l payload (Some c) in
   let lost := (complete clock fault freshTx db).1 in let whole := complete clock None freshTx db in
   lost = db ∨ lost = whole.1 ∧ complete clock' None freshTx' lost = whole) ∧
  (let fail clock fault freshTx db := failWithCommit ctx clock fault freshTx db failures (Some c) in
   let lost := (fail clock fault freshTx db).1 in let whole := fail clock None freshTx db in
   lost = db ∨ lost = whole.1 ∧ fail clock' None freshTx' lost = whole).
Proof.
  intros Hr%queue_reachable_wf Hn. cbv zeta. split.
  - destruct (complete_repeats ctx l payload c db (clock, freshTx) fault Hr Hn) as [E|[E He]]; [by left|right].
    split; [exact E|exact (He (clock', freshTx'))].
  - destruct (fail_repeats ctx failures c db (clock, freshTx) fault Hn) as [E|[E He]]; [by left|right].
    split; [exact E|exact (He (clock', freshTx'))].
Qed.

(** ** Where the queue does not do what it means to *)

(** A task whose last allowed attempt lost its worker is stuck: it stays running, no claim takes
    it, and no lease on it is accepted once the last one has expired, so that only a cancellation moves it *)
Theorem exhausted_task_stuck db k t l :
  reachable db → db_tasks db !! k = Some t → q_Lease t = Some l → (0 < q_MaxAttempts t ≤ q_AttemptCount t)%Z →
  ∀ now, (tl_ExpiresAt l ≤ now)%Z →
  q_Status t = TaskStatusRunning ∧
  (∀ taskID kinds, selectClaimableTask db taskID kinds now ≠ Ok t) ∧
  (∀ l', validateTaskLease t l' now = Err ErrTaskLeaseLost).
Proof.
  intros Hr%queue_reachable_wf Ht Hl [Hpos Hmax] now Hexp.
  assert (q_Status t = TaskStatusRunning) as Hrun by (apply (tw_lease _ _ _ (qw_task _ Hr _ _ Ht)); by eexists).
  split_and!; [done| |].
  - intros taskID kinds [_ [_ Hm]%claimable_may]%selectClaimableTask_Ok. lia.
  - intros l'. unfold validateTaskLease. rewrite Hl, Hrun, bool_decide_true by done. simpl.
    destruct (_ || _); [done|]. simpl. by rewrite (proj2 (Z.leb_le _ _) Hexp).
Qed.

(** Enqueueing a task that is already there loses the commit that came with it: the answer says
    committed, without an error, while the store is as before and keeps no such transaction *)
Theorem enqueue_commit_lost ctx clock fault freshID freshTx db t c p r after after' :
  let t' := enqueued clock freshID t in
  validateTask t' = Ok tt → begin_tx ctx = Ok tt →
  prepare ctx (OpEnqueue t') (ensureCommitTransactionID freshTx c) = Ok p →
  db_transactions db !! c_TransactionID (pr_Commit p) = None →
  apply_optional ctx (Some p) db (not_started (c_TransactionID (ensureCommitTransactionID freshTx c))) = (r, Ok after) →
  record_optional (Some p) r [t'] after = Ok after' → task_run_writable after' t' = Ok tt →
  db_tasks db !! q_ID t' = Some t' →
  enqueueWithCommit ctx clock fault freshID freshTx db t (Some c) = (db, MkTaskAnswer r (Ok t')) ∧
  cr_Outcome r = TransactionCommitted ∧ loadTransaction db (cr_TransactionID r) = None.
Proof.
  intros t' Hv Hb Hp Hnone Ha Hrec Hw Ht.
  pose proof (apply_optional_queue _ _ _ _ _ _ Ha) as Hqa. pose proof (record_optional_queue _ _ _ _ _ Hrec) as Hqr.
  assert (db_tasks after' !! q_ID t' = Some t') as Ht' by (change (tasks (queue_of after') !! q_ID t' = Some t'); by rewrite Hqr, Hqa).
  split_and!.
  - unfold enqueueWithCommit. fold t'. rewrite Hv, Hb. cbn [or_return]. unfold with_id, prepare_optional. cbn [fmap option_fmap option_map initial_result].
    rewrite Hp. cbn [result_bind or_return replay]. unfold loadTaskTransaction. rewrite Hnone. cbn [or_return].
    rewrite Ha. cbn [or_return]. rewrite Hrec. cbn [or_return]. unfold insert_queued. rewrite Hw. cbn [or_return].
    assert (∀ x, insertTask after' t' ≠ Ok x) as Hins.
    { intros x Hi. unfold insertTask in Hi. result_inv.
      match goal with H : bool_decide _ = false |- _ => rewrite Ht' in H; by rewrite bool_decide_true in H end. }
    destruct (insertTask after' t') as [x|]; [by destruct (Hins x)|].
    unfold loadTask. rewrite Ht'. by rewrite bool_decide_true.
  - unfold apply_optional in Ha. destruct (applyCommit _ _ _) as [run [x|]]; [|done]. by injection Ha as <- _.
  - unfold loadTransaction. by rewrite (apply_optional_result _ _ _ _ _ _ Ha), Hnone.
Qed.
End histories.

(** ** A queue of two tasks and two workers *)

Section demo.
#[local] Instance demo_task_digest : OperationDigest := λ fi, Some (fi_Operation fi).

Definition demo_task (id : string) : Task :=
  MkTask id TaskKindGraphRun "run-1" "" "" "" "graph-1" "" "" "{}" "" 0 0 2 0 None "" 0 0 None.
Definition demo_worker (id : string) : WorkerIdentity := MkWorker id ∅.
Definition demo_enqueue (id : string) (db : Database) : Database :=
  (enqueueWithCommit Background 1 None "" "" db (demo_task id) None).1.
Definition demo_claim (clock : Z) (token worker taskID : string) (db : Database) :=
  Claim Background clock token token db (demo_worker worker) (MkClaim taskID [] 0 5).
Definition after_claim (db : Database) (r : result queue_error (Database * (Task * TaskAttempt))) : Database :=
  match r with Ok p => p.1 | Err _ => db end.

Definition two_tasks : Database := demo_enqueue "task-2" (demo_enqueue "task-1" empty_db).
Definition one_claim : Database := after_claim two_tasks (demo_claim 10 "token-1" "worker-1" "" two_tasks).
Definition two_claims : Database := after_claim one_claim (demo_claim 20 "token-2" "worker-2" "task-1" one_claim).
Definition one_canceled : Database :=
  match Cancel Background 30 two_claims "task-2" 0 0 with Ok p => p.1 | Err _ => two_claims end.

Lemma token_unused db token :
  bool_decide (token ∈ map (at_LeaseToken ∘ snd) (map_to_list (db_attempts db))) = false → ¬ token_used (queue_of db) token.
Proof.
  intros Hn%bool_decide_eq_false (p & a & Ha & <-). apply Hn, list_elem_of_fmap. exists (p, a). split; [done|by apply elem_of_map_to_list].
Qed.

Lemma demo_enqueue_step id db : queue_op db (demo_enqueue id db).
Proof. by apply op_enqueue. Qed.

Lemma demo_claim_step clock token worker taskID db :
  bool_decide (token ∈ map (at_LeaseToken ∘ snd) (map_to_list (db_attempts db))) = false →
  queue_op db (after_claim db (demo_claim clock token worker taskID db)).
Proof.
  intros Hn%token_unused. destruct (demo_claim clock token worker taskID db) as [[db' r]|] eqn:E; simpl.
  - by eapply (op_claim _ Background clock token).
  - by apply op_other.
Qed.

Lemma two_tasks_reachable : reachable two_tasks.
Proof. eapply rtc_l; [apply demo_enqueue_step|]. apply rtc_once, demo_enqueue_step. Qed.

Lemma one_claim_step : queue_op two_tasks one_claim.
Proof. apply demo_claim_step. vm_compute. reflexivity. Qed.

Lemma two_claims_step : queue_op one_claim two_claims.
Proof. apply demo_claim_step. vm_compute. reflexivity. Qed.

Lemma one_canceled_step : queue_op two_claims one_canceled.
Proof.
  unfold one_canceled. destruct (Cancel _ _ _ _ _ _) as [[db t]|] eqn:E; [|by apply op_other]. by eapply (op_cancel _ Background 30).
Qed.

Lemma one_claim_reachable : reachable one_claim.
Proof. eapply rtc_r; [apply two_tasks_reachable|apply one_claim_step]. Qed.

Lemma two_claims_reachable : reachable two_claims.
Proof. eapply rtc_r; [apply one_claim_reachable|apply two_claims_step]. Qed.

(** What the queue holds of a task. *)
Definition demo_row (db : Database) (k : string) : option (string * Z * option TaskLease) :=
  (λ t, (q_Status t, q_AttemptCount t, q_Lease t)) <$> db_tasks db !! k.

Lemma demo_row_inv db k s n l :
  demo_row db k = Some (s, n, l) → ∃ t, db_tasks db !! k = Some t ∧ q_Status t = s ∧ q_AttemptCount t = n ∧ q_Lease t = l.
Proof. unfold demo_row. destruct (db_tasks db !! k) as [t|]; [|done]. intros [= <- <- <-]. by exists t. Qed.

Definition demo_lease1 : TaskLease := MkTaskLease "task-1" "worker-1" "token-1" 1 10 10 15.
Definition demo_lease2 : TaskLease := MkTaskLease "task-1" "worker-2" "token-2" 2 20 20 25.

Example one_claim_row : demo_row one_claim "task-1" = Some (TaskStatusRunning, 1%Z, Some demo_lease1).
Proof. vm_compute. reflexivity. Qed.

Example two_claims_row : demo_row two_claims "task-1" = Some (TaskStatusRunning, 2%Z, Some demo_lease2).
Proof. vm_compute. reflexivity. Qed.

Lemma queue_refines_witness : queue_wf (queue_of two_claims).
Proof. exact (proj2 (queue_refines two_claims two_claims_reachable)). Defined.

Lemma task_exclusive_witness : ∃ db' t a, demo_claim 12 "token-2" "worker-2" "" one_claim = Ok (db', (t, a)) ∧ q_ID t ≠ "task-1".
Proof.
  destruct (demo_row_inv _ _ _ _ _ one_claim_row) as (t & Ht & Hs & Hn & Hl).
  destruct (demo_claim 12 "token-2" "worker-2" "" one_claim) as [[db' [t' a]]|] eqn:E; [|vm_compute in E; discriminate].
  exists db', t', a. split; [reflexivity|].
  refine (proj1 (task_exclusive Background 12 "token-2" "token-2" one_claim (demo_worker "worker-2") (MkClaim "" [] 0 5) db' t' a "task-1" t demo_lease1
    one_claim_reachable (token_unused _ _ _) Ht _ E)); [vm_compute; reflexivity|].
  exists demo_lease1. repeat split; [exact Hl|exact Hs].
Defined.

Lemma stale_lease_fenced_witness :
  (completeWithCommit Background 22 None "" two_claims demo_lease1 "done" None).1 = two_claims ∧
  result_ok (ta_Value (completeWithCommit Background 22 None "" two_claims demo_lease1 "done" None).2) = false.
Proof.
  destruct (demo_row_inv _ _ _ _ _ one_claim_row) as (t & Ht & Hs & Hn & Hl).
  destruct (demo_row_inv _ _ _ _ _ two_claims_row) as (t2 & Ht2 & Hs2 & Hn2 & Hl2).
  destruct (stale_lease_fenced one_claim two_claims two_claims "task-1" t demo_lease1 one_claim_reachable Ht Hl
    (rtc_once _ _ two_claims_step)) as (_ & H & _).
  - intros t3 l3 Ht3 Hl3. rewrite Ht2 in Ht3. injection Ht3 as <-. rewrite Hl2 in Hl3. injection Hl3 as <-. discriminate.
  - apply rtc_refl.
  - destruct (H Background 22%Z None "" "done" None) as [H1 H2]. split; [exact H1|apply H2; reflexivity].
Defined.

Example one_canceled_row : demo_row one_canceled "task-2" = Some (TaskStatusCanceled, 0%Z, None).
Proof. vm_compute. reflexivity. Qed.

Lemma one_canceled_reachable : reachable one_canceled.
Proof. eapply rtc_r; [apply two_claims_reachable|apply one_canceled_step]. Qed.

Lemma task_final_witness :
  ∃ t, db_tasks one_canceled !! "task-2" = Some t ∧ db_tasks (demo_enqueue "task-3" one_canceled) !! "task-2" = Some t.
Proof.
  destruct (demo_row_inv _ _ _ _ _ one_canceled_row) as (t & Ht & Hs & _). exists t. split; [exact Ht|].
  refine (task_final one_canceled _ "task-2" t one_canceled_reachable (rtc_once _ _ (demo_enqueue_step "task-3" one_canceled)) Ht _).
  rewrite Hs. apply (bool_decide_eq_true_1 _). reflexivity.
Defined.

Lemma attempts_bounded_witness : ∃ t, db_tasks two_claims !! "task-1" = Some t ∧ (q_AttemptCount t ≤ q_MaxAttempts t)%Z.
Proof.
  assert (q_MaxAttempts <$> db_tasks two_claims !! "task-1" = Some 2%Z) as Hm by (vm_compute; reflexivity).
  destruct (db_tasks two_claims !! "task-1") as [t|] eqn:Ht; [|discriminate]. exists t. split; [reflexivity|].
  injection Hm as Hm. apply (attempts_bounded two_claims "task-1" t two_claims_reachable Ht). rewrite Hm. reflexivity.
Defined.

Lemma Claim_exact_witness : ∃ t db' a, demo_claim 12 "token-2" "worker-2" "" one_claim = Ok (db', (t, a)) ∧ q_Status t = TaskStatusRunning.
Proof.
  destruct (Claim_exact Background 12 "token-2" "token-2" one_claim (demo_worker "worker-2") (MkClaim "" [] 0 5) one_claim_reachable) as [[E _]|(t & db' & _ & _ & _ & E & _)].
  - reflexivity.
  - reflexivity.
  - reflexivity.
  - apply (bool_decide_eq_true_1 _). vm_compute. reflexivity.
  - assert (Forall (λ p, (q_Version p.2 + 1 < 2 ^ 63)%N) (map_to_list (db_tasks one_claim))) as Hf
      by (apply (bool_decide_eq_true_1 _); vm_compute; reflexivity).
    intros k t Ht. rewrite Forall_forall in Hf. apply (Hf (k, t)). by apply elem_of_map_to_list.
  - vm_compute in E. discriminate.
  - eexists _, db', _. split; [exact E|reflexivity].
Defined.

(** The answer of the first call is lost after its transaction was done; the second call comes a minute
    later, when the lease has long expired. *)
Lemma complete_fail_once_witness :
  let fail clock fault freshTx db := failWithCommit Background clock fault freshTx db
    [MkFailureTransition demo_lease2 (MkFailure "boom" 0 true)] (Some demo_commit) in
  let whole := fail 22%Z None "tx-0" two_claims in
  result_ok (ta_Value whole.2) = true ∧ fail 60000000000%Z None "tx-1" (fail 22%Z (Some true) "tx-0" two_claims).1 = whole.
Proof.
  cbv zeta. split; [vm_compute; reflexivity|].
  assert (TrimSpace (c_TransactionID demo_commit) ≠ "") as Hn by (vm_compute; discriminate).
  destruct (proj2 (complete_fail_once Background two_claims demo_commit demo_lease2 "" [MkFailureTransition demo_lease2 (MkFailure "boom" 0 true)]
    22 "tx-0" (Some true) 60000000000 "tx-1" two_claims_reachable Hn)) as [E|[_ E]]; [|exact E].
  exfalso. apply (f_equal (λ db, bool_decide (is_Some (db_transactions db !! c_TransactionID demo_commit)))) in E.
  vm_compute in E. discriminate.
Defined.

Lemma exhausted_task_stuck_witness :
  ∃ t, db_tasks two_claims !! "task-1" = Some t ∧ q_Status t = TaskStatusRunning ∧ ∀ kinds, selectClaimableTask two_claims "task-1" kinds 30 ≠ Ok t.
Proof.
  assert (q_MaxAttempts <$> db_tasks two_claims !! "task-1" = Some 2%Z) as Hm by (vm_compute; reflexivity).
  destruct (demo_row_inv _ _ _ _ _ two_claims_row) as (t & Ht & Hs & Hn & Hl). exists t. split; [exact Ht|].
  rewrite Ht in Hm. injection Hm as Hm.
  destruct (exhausted_task_stuck two_claims "task-1" t demo_lease2 two_claims_reachable Ht Hl) with (now := 30%Z) as (H1 & H2 & _).
  - rewrite Hm, Hn. split; reflexivity || discriminate.
  - discriminate.
  - split; [exact H1|]. intros kinds. apply H2.
Defined.

(** The value of a computation that succeeds. *)
Definition ok_or {E A} (d : A) (m : result E A) : A := match m with Ok a => a | Err _ => d end.

Lemma ok_or_Ok {E A} (d : A) (m : result E A) : result_ok m = true → m = Ok (ok_or d m).
Proof. by destruct m. Qed.

Definition demo_again : Task := enqueued 1 "" (demo_task "task-1").
Definition demo_prepared : Prepared := ok_or (MkPrepared demo_commit "") (prepare Background (OpEnqueue demo_again) demo_commit).
Definition demo_applied : CommitResult * result queue_error Database :=
  apply_optional Background (Some demo_prepared) two_tasks (not_started "tx-1").
Definition demo_after : Database := ok_or empty_db demo_applied.2.
Definition demo_recorded : Database := ok_or empty_db (record_optional (Some demo_prepared) demo_applied.1 [demo_again] demo_after).

Lemma enqueue_commit_lost_witness :
  enqueueWithCommit Background 1 None "" "tx-0" two_tasks (demo_task "task-1") (Some demo_commit)
    = (two_tasks, MkTaskAnswer demo_applied.1 (Ok demo_again)) ∧
  cr_Outcome demo_applied.1 = TransactionCommitted ∧ loadTransaction two_tasks "tx-1" = None.
Proof.
  refine (enqueue_commit_lost Background 1 None "" "tx-0" two_tasks (demo_task "task-1") demo_commit demo_prepared demo_applied.1
    demo_after demo_recorded _ _ _ _ _ _ _ _).
  - vm_compute. reflexivity.
  - reflexivity.
  - apply ok_or_Ok. vm_compute. reflexivity.
  - vm_compute. reflexivity.
  - assert (demo_applied.2 = Ok demo_after) as <- by (apply ok_or_Ok; vm_compute; reflexivity). apply surjective_pairing.
  - apply ok_or_Ok. vm_compute. reflexivity.
  - vm_compute. reflexivity.
  - vm_compute. reflexivity.
Defined.
End demo.
