(* ===== verification/Programs.v ===== *)
(** * Programs over calls

    Code that reaches its stores, its clock and its source of identifiers through
    interfaces is a program over the calls it makes: a tree whose node is a call
    and whose branches are the answers.  What the calls do is given separately, so
    that one program can be run on a store ([run_with]), stopped after some of
    its calls ([cut_with]), run against arbitrary answers ([always]) or beside other
    processes that use the same stores ([beside]). *)

From S2P Require Import Prelude Records.

(** A program that makes calls of [C] and returns an [A]. *)
Inductive prog (C : Type → Type) (A : Type) : Type :=
  | Ret (a : A)
  | Do (X : Type) (c : C X) (k : X → prog C A).
Arguments Ret {C A} _.
Arguments Do {C A X} _ _.

Fixpoint pbind {C : Type → Type} {A B} (p : prog C A) (f : A → prog C B) : prog C B :=
  match p with Ret a => f a | Do c k => Do c (λ x, pbind (k x) f) end.

Definition perform {C : Type → Type} {X} (c : C X) : prog C X := Do c Ret.

(** ** Programs that may fail *)

Definition abind {C : Type → Type} {E A B} (p : prog C (result E A)) (f : A → prog C (result E B))
    : prog C (result E B) :=
  pbind p (λ r, match r with Ok a => f a | Err e => Ret (Err e) end).

Notation "'do!' x := p 'in' q" := (abind p (λ x, q)) (at level 10, x pattern, p at level 100, q at level 200) : go_scope.

Definition done {C : Type → Type} {E A} (a : A) : prog C (result E A) := Ret (Ok a).
Definition fail {C : Type → Type} {E A} (e : E) : prog C (result E A) := Ret (Err e).

(** [for]: [None] is [continue] after a revision conflict; at the limit the loop
    gives up with [e]. *)
Fixpoint retry {C : Type → Type} {E A} (e : E) (n : nat) (body : prog C (result E (option A)))
    : prog C (result E A) :=
  match n with
  | 0 => fail e
  | S n => do! o := body in match o with Some a => done a | None => retry e n body end
  end.

(** [errors.Is(err, ErrRunRevisionConflict)] for the error of a store. *)
Definition is_conflict (e : store_error) : bool := match e with SConflict _ _ _ => true | _ => false end.

(** [runRevisionRetryLimit]. *)
Definition runRevisionRetryLimit : nat := 8.

Fixpoint each {C : Type → Type} {E A} (f : A → prog C (result E unit)) (l : list A) : prog C (result E unit) :=
  match l with [] => done tt | a :: l => do! _ := f a in each f l end.

(** ** Any answers *)

(** One call and its answer. *)
Inductive event (C : Type → Type) :=
  | Ev (X : Type) (c : C X) (x : X).
Arguments Ev {C X} _ _.

(** What the program does under any answers: [Pre] holds of every call and the
    calls before it, [Post] at the end. *)
Section history.
Context {C : Type → Type} (Pre : list (event C) → ∀ X, C X → Prop).

Fixpoint always {A} (p : prog C A) (h : list (event C)) (Post : A → list (event C) → Prop) : Prop :=
  match p with
  | Ret a => Post a h
  | Do c k => Pre h _ c ∧ ∀ x, always (k x) (h ++ [Ev c x]) Post
  end.

Lemma always_mono {A} (p : prog C A) h (P Q : A → list (event C) → Prop) :
  (∀ a h, P a h → Q a h) → always p h P → always p h Q.
Proof.
  intros HPQ. revert h. induction p as [a|X c k IH]; intros h; simpl; [apply HPQ|].
  intros [Hc Hk]. split; [trivial|]. intros x. by apply IH.
Qed.

Lemma always_bind {A B} (p : prog C A) (f : A → prog C B) h Q :
  always p h (λ a h, always (f a) h Q) → always (pbind p f) h Q.
Proof.
  revert h. induction p as [a|X c k IH]; intros h; simpl; [trivial|].
  intros [Hc Hk]. split; [trivial|]. intros x. by apply IH.
Qed.

(** For programs that may fail: [Q] of a result, nothing of an error. *)
Definition post {E A} (Q : A → list (event C) → Prop) (r : result E A) (h : list (event C)) : Prop :=
  match r with Ok a => Q a h | Err _ => True end.

Lemma always_do {E A B} (p : prog C (result E A)) (f : A → prog C (result E B)) h Q :
  always p h (post (λ a h, always (f a) h (post Q))) → always (abind p f) h (post Q).
Proof.
  intros H. apply always_bind. eapply always_mono; [|exact H]. intros [a|e] h' Ha; [exact Ha|exact I].
Qed.

Lemma always_retry {E A} (e : E) n (body : prog C (result E (option A))) (Q : A → list (event C) → Prop)
    (J : list (event C) → Prop) h :
  J h → (∀ h, J h → always body h (post (λ o h, match o with Some a => Q a h | None => J h end))) →
  always (retry e n body) h (post Q).
Proof.
  intros Hh Hb. revert h Hh. induction n as [|n IH]; intros h Hh; simpl; [exact I|].
  apply always_do. eapply always_mono; [|by apply Hb]. intros [[a|]|e'] h'; simpl; [trivial|apply IH|trivial].
Qed.

Lemma always_each {E A} (f : A → prog C (result E unit)) l h (J : list A → list (event C) → Prop) :
  J [] h → (∀ done_ a h, a ∈ l → J done_ h → always (f a) h (post (λ _, J (done_ ++ [a])))) →
  always (each f l) h (post (λ _, J l)).
Proof.
  intros Hh Hf.
  assert (∀ todo_ done_ h, done_ ++ todo_ = l → J done_ h → always (each f todo_) h (post (λ _, J l))) as Hgen;
    [|by apply (Hgen l [])].
  induction todo_ as [|a todo_ IH]; intros done_ h' Hl HI; simpl.
  - rewrite app_nil_r in Hl. by subst.
  - apply always_do. eapply always_mono; [|apply (Hf done_ a); [|exact HI]].
    + intros [[]|e] h'' Ha; [|exact I]. apply (IH (done_ ++ [a])); [|exact Ha]. by rewrite <-app_assoc.
    + rewrite <-Hl. apply elem_of_app. right. left.
Qed.

(** The calls a program makes and the answers it gets, in any run. *)
Inductive trace {A} : prog C A → list (event C) → Prop :=
  | trace_stop p : trace p []
  | trace_call X (c : C X) k x t : trace (k x) t → trace (Do c k) (Ev c x :: t).

Lemma always_trace {A} (p : prog C A) h Post t e t' :
  always p h Post → trace p (t ++ e :: t') → match e with Ev c _ => Pre (h ++ t) _ c end.
Proof.
  intros Ha Ht. remember (t ++ e :: t') as l eqn:Hl. revert h t Ha Hl.
  induction Ht as [p|X c k x l Ht IH]; intros h t Ha Hl; [by destruct t|].
  destruct Ha as [Hpre Hk]. destruct t as [|e0 t]; injection Hl as Hev Hl.
  - subst e. by rewrite app_nil_r.
  - subst e0. specialize (IH (h ++ [Ev c x]) t (Hk x) Hl). by rewrite <-app_assoc in IH.
Qed.
End history.

(** ** A world that answers *)

Section worlds.
Context {C : Type → Type} {W : Type} (handle : ∀ X, C X → W → W * X).

(** An undisturbed run, and one that stops after at most [n] calls. *)
Fixpoint run_with {A} (p : prog C A) (w : W) : W * A :=
  match p with Ret a => (w, a) | Do c k => let '(w, x) := handle _ c w in run_with (k x) w end.

Fixpoint cut_with {A} (n : nat) (p : prog C A) (w : W) : W :=
  match n, p with
  | S n, Do c k => let '(w, x) := handle _ c w in cut_with n (k x) w
  | _, _ => w
  end.

(** ** A world that others change

    [rely] is what other processes may have done by the next call, and between
    the last call and the return; [guar] is what each call of the program does. *)
Context (rely guar : W → W → Prop).

Fixpoint beside {A} (p : prog C A) (Q : A → W → Prop) (w : W) : Prop :=
  match p with
  | Ret a => ∀ w1, rely w w1 → Q a w1
  | Do c k => ∀ w1, rely w w1 → guar w1 (handle _ c w1).1 ∧ beside (k (handle _ c w1).2) Q (handle _ c w1).1
  end.

Lemma beside_mono {A} (p : prog C A) (P Q : A → W → Prop) w :
  (∀ a w, P a w → Q a w) → beside p P w → beside p Q w.
Proof.
  intros HPQ. revert w. induction p as [a|X c k IH]; intros w; simpl; [by eauto|].
  intros H w1 Hw1. destruct (H w1 Hw1) as [Hg Hk]. split; [exact Hg|]. by apply IH.
Qed.

(** Others may do nothing between the end of one part and the next. *)
Lemma beside_bind {A B} (p : prog C A) (f : A → prog C B) Q w :
  (∀ w w1, rely w w1 → rely w1 w1) → beside p (λ a w, beside (f a) Q w) w → beside (pbind p f) Q w.
Proof.
  intros Hself. revert w. induction p as [a|X c k IH]; intros w; simpl.
  { intros H. destruct (f a) as [b|X c k]; simpl in *; intros w1 Hw1; by eapply H; [|eapply Hself]. }
  intros H w1 Hw1. destruct (H w1 Hw1) as [Hg Hk]. split; [exact Hg|]. by apply IH.
Qed.

Lemma beside_assoc {E A B D} (p : prog C (result E A)) (f : A → prog C (result E B)) (g : B → prog C (result E D)) Q w :
  beside (abind p (λ a, abind (f a) g)) Q w → beside (abind (abind p f) g) Q w.
Proof.
  revert w. induction p as [[a|e]|X c k IH]; intros w; simpl; [trivial|trivial|].
  intros H w1 Hw1. destruct (H w1 Hw1) as [Hg Hk]. split; [exact Hg|]. by apply IH.
Qed.

(** An execution beside others: their steps come before each call and at the end. *)
Inductive beside_run {A} : prog C A → W → A → W → Prop :=
  | beside_ret a w w1 : rely w w1 → beside_run (Ret a) w a w1
  | beside_do X (c : C X) k w w1 a w' :
      rely w w1 → beside_run (k (handle _ c w1).2) (handle _ c w1).1 a w' → beside_run (Do c k) w a w'.

Lemma beside_sound {A} (p : prog C A) Q w a w' : beside p Q w → beside_run p w a w' → Q a w'.
Proof.
  intros H Hr. revert H. induction Hr as [a w w1 Hw|X c k w w1 a w' Hw Hr IH]; simpl; intros H; [by apply H|].
  apply IH. by apply H.
Qed.

(** A test of every state of an undisturbed run. *)
Fixpoint along {A} (P : W → bool) (p : prog C A) (w : W) : bool :=
  P w && match p with Ret _ => true | Do c k => along P (k (handle _ c w).2) (handle _ c w).1 end.

Lemma run_beside {A} (P : W → bool) (p : prog C A) w :
  (∀ w, P w = true → rely w w) → along P p w = true → beside_run p w (run_with p w).2 (run_with p w).1.
Proof.
  intros Hr. revert w. induction p as [a|X c k IH]; intros w; simpl; intros [Hw Hk]%andb_true_iff; [by constructor; apply Hr|].
  apply (beside_do _ _ _ _ w); [by apply Hr|]. specialize (IH (handle _ c w).2 (handle _ c w).1 Hk).
  by destruct (handle _ c w).
Qed.

Lemma run_beside_refl {A} (p : prog C A) w :
  (∀ w, rely w w) → beside_run p w (run_with p w).2 (run_with p w).1.
Proof.
  intros Hr. apply (run_beside (λ _, true)); [by intros ? _|].
  revert w. induction p as [a|X c k IH]; intros w; simpl; [reflexivity|apply IH].
Qed.

(** For programs that may fail: [Q] of a result, [R] of an error. *)
Definition either {E A} (Q : A → W → Prop) (R : E → Prop) (r : result E A) (w : W) : Prop :=
  match r with Ok a => Q a w | Err e => R e end.

Lemma beside_do_ok {E A B} (p : prog C (result E A)) (f : A → prog C (result E B)) Q R w :
  (∀ w w1, rely w w1 → rely w1 w1) →
  beside p (either (λ a w, beside (f a) (either Q R) w) R) w → beside (abind p f) (either Q R) w.
Proof.
  intros Hself H. apply beside_bind; [exact Hself|]. eapply beside_mono; [|exact H].
  intros [a|e] w' Ha; simpl in *; [exact Ha|]. intros w1 Hw1. exact Ha.
Qed.

(** [J] holds whenever the loop starts again. *)
Lemma beside_retry {E A} (e : E) n (body : prog C (result E (option A))) Q (R : E → Prop) (J : W → Prop) w :
  (∀ w w1, rely w w1 → rely w1 w1) → (∀ a w w1, Q a w → rely w w1 → Q a w1) → R e →
  (∀ w, J w → beside body (either (λ o w, match o with Some a => Q a w | None => J w end) R) w) →
  J w → beside (retry e n body) (either Q R) w.
Proof.
  intros Hself HQ HR Hbody. revert w. induction n as [|n IH]; intros w HJ; cbn [retry]; [intros w1 _; exact HR|].
  apply beside_do_ok; [exact Hself|]. eapply beside_mono; [|by apply Hbody].
  intros [[a|]|e'] w1; cbn; [intros Ha w2 Hw2; by eapply HQ|apply IH|trivial].
Qed.
End worlds.
