(* ===== verification/RunServices.v ===== *)
(** * Services over the runtime store: [runtime/run_control.go], [runtime/graph_runner_lease.go]

    The services that change runs from outside an execution are programs over the
    same few calls: the execution store, [commitAndResolve], the sink that observes
    committed events, the clock and the source of identifiers.  Here are the calls,
    the steps the services share, the memory store that answers them and what
    other processes may do to it in between. *)

From stdpp Require Import pretty.
From S2P Require Import Prelude GoStrings Values Json Sensitive Lease Records RunStore Stores Artifacts Commit Transactions FileDisk FileStore FileTxn Recovery CommitResolve Programs.

Inductive run_call : Type → Type :=
  | AskRun (ctx : Context) (runID : string) : run_call (result store_error RunRecord)
  | SwapRun (ctx : Context) (expected : N) (run : RunRecord) : run_call (result store_error RunRecord)
  | CommitAndResolve (ctx : Context) (c : Commit) : run_call (option (Resolved store_error))
  | Observe (ctx : Context) (events : list Event) : run_call unit
  | RemoveRun (ctx : Context) (runID : string) : run_call (result store_error unit)
  | ReadClock : run_call Z
  | NewRunnerID : run_call string.

(** The errors of the services.  [EOwned] comes with the run that was read. *)
Inductive run_error :=
  | EStore (e : store_error)
  | ECommit (l : list (resolve_error store_error))
  | ENotAllowed (run what : string)
  | ERefused (run what : string)
  | EOwned (run : RunRecord) (epoch : N) (until : Z)
  | EHeld (run : RunRecord) (owner : string) (until : Z)
  | ELeaseLost (run : string)
  | ERetries (what : string)
  | EChild (child run : string) (e : run_error)
  | EMarshal
  | EStopped
  | EFuel.

Abbreviation service A := (prog run_call (result run_error A)).

Definition refused_unless (run what : string) (ok : bool) : service unit :=
  if ok then done tt else fail (ERefused run what).

Definition get_run (ctx : Context) (runID : string) : service RunRecord :=
  pbind (perform (AskRun ctx runID)) (λ r, match r with Ok run => done run | Err e => fail (EStore e) end).

(** [errors.Is(err, ErrRunRevisionConflict)] for the error of a commit, which joins
    several. *)
Definition commit_conflict (e : run_error) : bool :=
  match e with
  | ECommit l => existsb (λ e, match e with CommitFailed e | ResolveFailed _ e => is_conflict e | _ => false end) l
  | _ => false
  end.

(** What a conflict leads to: [None] tries again; any other answer ends the loop. *)
Definition on_conflict {A} (conflict : run_error → bool) (r : result run_error A) : result run_error (option A) :=
  match r with
  | Ok a => Ok (Some a)
  | Err e => if conflict e then Ok None else Err e
  end.

(** [withExecutionLeaseMutation]. *)
Definition withExecutionLeaseMutation (ctx : Context) (kind : lease_mutation) (now : Z) : Context :=
  MkCtx (ctx_err ctx) (deletion_mutation ctx) (unlink_mutation ctx) (Some (kind, now)) (lease_guard ctx) (secrets ctx).

(** Assignments to fields of a run. *)
Definition with_ExecutionLease (l : option ExecutionLease) (r : RunRecord) : RunRecord :=
  MkRunRecord (r_RunID r) (r_Revision r) (r_ParentRunID r) (r_ParentStepID r) (r_ParentTaskID r)
    (r_ChildRequestKey r) (r_ChildInputHash r) l (r_RootRunID r) (r_RunPath r)
    (r_Namespace r) (r_ChildRunIDs r) (r_PendingChildRuns r) (r_Deletion r) (r_GraphID r) (r_GraphVersion r)
    (r_GraphHash r) (r_GraphSnapshotHash r) (r_GraphSessionID r) (r_SourceRunID r) (r_SourceCheckpointID r)
    (r_ForkRequestKey r) (r_Origin r) (r_Status r) (r_EntryNodeID r) (r_CurrentNodeID r)
    (r_CurrentNodeIDs r) (r_CurrentStepIDs r) (r_NextNodeIDs r) (r_ParallelWaveID r)
    (r_LastStepID r) (r_LastCheckpointID r) (r_PauseRequested r) (r_CancelRequested r)
    (r_ErrorCode r) (r_ErrorMessage r) (r_StartedAt r) (r_UpdatedAt r) (r_FinishedAt r).

(** A run that ends: its status, its error, the time; requests are cleared. *)
Definition with_end (status code message : string) (now : Z) (r : RunRecord) : RunRecord :=
  MkRunRecord (r_RunID r) (r_Revision r) (r_ParentRunID r) (r_ParentStepID r) (r_ParentTaskID r)
    (r_ChildRequestKey r) (r_ChildInputHash r) (r_ExecutionLease r) (r_RootRunID r) (r_RunPath r)
    (r_Namespace r) (r_ChildRunIDs r) (r_PendingChildRuns r) (r_Deletion r) (r_GraphID r) (r_GraphVersion r)
    (r_GraphHash r) (r_GraphSnapshotHash r) (r_GraphSessionID r) (r_SourceRunID r) (r_SourceCheckpointID r)
    (r_ForkRequestKey r) (r_Origin r) status (r_EntryNodeID r) (r_CurrentNodeID r)
    (r_CurrentNodeIDs r) (r_CurrentStepIDs r) (r_NextNodeIDs r) (r_ParallelWaveID r)
    (r_LastStepID r) (r_LastCheckpointID r) false false code message (r_StartedAt r) now (Some now).

(** A lease that is given back at a time. *)
Definition released_at (now : Z) (l : ExecutionLease) : ExecutionLease :=
  MkLease (OwnerID l) (Token l) (Epoch l) LeaseReleased (AcquiredAt l) now now.

(** ** Events and commits: [buildEvent], [commit] *)

Definition EventRunFailed : string := "run.failed".
Definition EventRunCancelRequested : string := "run.cancel_requested".
Definition EventRunCanceled : string := "run.canceled".

Definition event_of (run : RunRecord) (id type payload : string) (now : Z) : Event :=
  MkEvent id (r_GraphID run) (r_GraphSessionID run) (r_RunID run) (r_ParentRunID run) (r_ParentStepID run)
    (r_ParentTaskID run) (r_RootRunID run) (r_RunPath run) (r_Namespace run) "" "" (r_CurrentNodeID run) "" type now payload.

Definition buildEvent (run : RunRecord) (type : string) (payload : option value) : service Event :=
  pbind (perform NewRunnerID) (λ id, pbind (perform ReadClock) (λ now,
    match payload with
    | None => done (event_of run id type "" now)
    | Some v => match json_encode v with
                | Some t => done (event_of run id type t now)
                | None => fail EMarshal
                end
    end)).

Definition with_Lease (g : option ExecutionLeaseGuard) (c : Commit) : Commit :=
  MkCommit (c_TransactionID c) g (c_Run c) (c_Steps c) (c_Checkpoints c) (c_Events c) (c_Artifacts c).

(** The guard of the run that is written, when its lease is active. *)
Definition guarded (c : Commit) : Commit :=
  match c_Run c with
  | Some w =>
    if bool_decide (rw_Mode w = RunWriteCreate) then c
    else match executionLeaseGuard (leased (rw_Run w)) with Some g => with_Lease (Some g) c | None => c end
  | None => c
  end.

Definition commit_run (ctx : Context) (c : Commit) : service CommitResult :=
  pbind (perform (CommitAndResolve ctx (guarded (sanitizeCommit ctx c)))) (λ r,
    match r with
    | None => fail EStopped
    | Some v =>
      if bool_decide (rv_Errors v = []) then
        pbind (perform (Observe ctx (c_Events (rv_Commit v)))) (λ _, done (rv_Result v))
      else fail (ECommit (rv_Errors v))
    end).

(** The commit of one run with its events, as the services make them. *)
Definition run_commit (run : RunRecord) (events : list Event) : Commit :=
  MkCommit "" None (Some (MkRunWrite RunWriteUpdate run)) [] [] events [].

(** The commit of a run and the record it stored; [None] after a conflict. *)
Definition commit_update (ctx : Context) (run : RunRecord) (events : list Event) : service (option RunRecord) :=
  pbind (commit_run ctx (run_commit run events)) (λ r,
    Ret (on_conflict commit_conflict (match r with Ok res => Ok (default run (cr_Run res)) | Err e => Err e end))).

(** A swap of a run and the record it stored; [None] after a conflict. *)
Definition swap_run (ctx : Context) (run : RunRecord) : service (option RunRecord) :=
  pbind (perform (SwapRun ctx (r_Revision run) run)) (λ r,
    match r with
    | Ok updated => done (Some updated)
    | Err e => if is_conflict e then done None else fail (EStore e)
    end).

(** ** The memory store *)

Record World := MkWorld {
  w_store : RuntimeStore;
  w_clock : Z;
  w_ids : nat;
  w_observed : list Event;
}.

Definition runs_of (w : World) : gmap string RunRecord := runs (execution (w_store w)).

Definition fresh_id (n : nat) : string := "id-" +:+ pretty n.

Definition with_store (s : RuntimeStore) (w : World) : World := MkWorld s (w_clock w) (w_ids w) (w_observed w).

Section memory.
Context `{CommitDigest}.

(** Each call is one critical section.  The clock moves with every reading;
    identifiers are numbered.  The run deleter is the runtime store itself. *)
Definition answer {X} (c : run_call X) (w : World) : World * X :=
  match c in run_call X return World * X with
  | AskRun ctx id => (w, GetRun ctx (execution (w_store w)) id)
  | SwapRun ctx expected run =>
    match CompareAndSwapRun ctx (execution (w_store w)) expected run with
    | Ok (s, stored) => (with_store (with_execution s (w_store w)) w, Ok stored)
    | Err e => (w, Err e)
    end
  | CommitAndResolve ctx c =>
    let '(s, r) := commitAndResolve ctx (fresh_id (w_ids w)) c (w_store w) in
    (MkWorld s (w_clock w) (S (w_ids w)) (w_observed w), r)
  | Observe _ l => (MkWorld (w_store w) (w_clock w) (w_ids w) (w_observed w ++ l), tt)
  | RemoveRun ctx id =>
    match DeleteRuntimeRun ctx (w_store w) id with
    | Ok s => (with_store s w, Ok tt)
    | Err e => (w, Err e)
    end
  | ReadClock => (MkWorld (w_store w) (w_clock w + 1) (w_ids w) (w_observed w), w_clock w)
  | NewRunnerID => (MkWorld (w_store w) (w_clock w) (S (w_ids w)) (w_observed w), fresh_id (w_ids w))
  end.
End memory.
