(* ===== verification/Interference.v ===== *)
(** * Other processes at work on the runtime store

    What the calls of a service do to the runs, and what may have happened to them
    between two calls: any steps of the store by others, as long as no revision
    reaches the end of its 64 bits and the identifiers of the service are its own. *)

From stdpp Require Import pretty.
From S2P Require Import Prelude GoStrings Values Json Sensitive Lease Records RunStore Stores Artifacts Commit Transactions FileDisk FileStore FileTxn Recovery CommitResolve Programs RunServices.

(** ** Revisions tell records apart *)

(** The second record is the first, or came later. *)
Definition later (r r' : RunRecord) : Prop := r' = r ∨ (r_Revision r < r_Revision r')%N.

#[export] Instance later_trans : Transitive later.
Proof. intros a b c [->|H1] [->|H2]; unfold later; [by left|right..]; [done..|lia]. Qed.

(** There is room for one more revision of every run. *)
Definition headroom (m : gmap string RunRecord) : Prop := map_Forall (λ _ r, (r_Revision r + 1 < 2 ^ 64)%N) m.

Section runs.
Context `{CommitDigest}.

Lemma foldM_same {A B} (f : Tables → A → result store_error Tables) (g : Tables → B) l t t' :
  (∀ t a t', f t a = Ok t' → g t' = g t) → foldM f t l = Ok t' → g t' = g t.
Proof. intros Hf. apply (foldM_invariant (λ u, g u = g t)); [|done]. intros u a u' <- Hu. by eapply Hf. Qed.

(** Only the write of a run changes the runs. *)
Lemma commit_runs ctx c fences t t' out :
  applyMemoryCommit ctx c fences t = Ok (t', out) →
  ∃ u, apply_run ctx c fences t = Ok (u, out) ∧ t_runs t' = t_runs u.
Proof.
  unfold applyMemoryCommit. intros Ha. result_inv.
  match goal with Hr : apply_run _ _ _ _ = Ok ?p |- _ => destruct p as [u o]; rename Hr into Hrun end.
  match goal with Hx : Ok _ = Ok _ |- _ => injection Hx as <- <- | _ => simplify_eq end.
  eexists. split; [exact Hrun|].
  assert (∀ t w t', apply_step c fences t w = Ok t' → t_runs t' = t_runs t) as Hs
    by (intros a w b Hb; unfold apply_step in Hb; result_inv; by subst).
  assert (∀ t w t', apply_checkpoint c fences t w = Ok t' → t_runs t' = t_runs t) as Hk
    by (intros a w b Hb; unfold apply_checkpoint in Hb; result_inv; by subst).
  assert (∀ t e t', apply_event c fences t e = Ok t' → t_runs t' = t_runs t) as He
    by (intros a e b Hb; unfold apply_event in Hb; destruct (IsStreamingEvent _); result_inv; by subst).
  repeat match goal with Hf : foldM _ _ _ = Ok _ |- _ => apply (foldM_same _ t_runs) in Hf; [|assumption] end.
  simpl in *. congruence.
Qed.
End runs.

Section writes.
Context `{CommitDigest}.

(** The record an update stores. *)
Definition stored_as (run : RunRecord) : RunRecord := with_Revision (next_revision (r_Revision run)) (cloneRunRecord run).

Lemma stored_clone run : cloneRunRecord (stored_as run) = stored_as run.
Proof. unfold stored_as, cloneRunRecord, with_Revision, with_Deletion, assign. simpl. f_equal. destruct (r_Deletion run) as [d|]; [|done]. simpl. f_equal. unfold clone_deletion. simpl. f_equal. apply clone_slice_idemp. Qed.

Lemma update_inv ctx c fences run t u out :
  apply_update ctx c fences RunWriteUpdate (cloneRunRecord run) t = Ok (u, out) →
  ∃ old, t_runs t !! r_RunID run = Some old ∧ r_Revision old = r_Revision run ∧ r_ExecutionLease old = r_ExecutionLease run ∧
    validateCommitExecutionLease old c = Ok tt ∧ validateRunDeletionTransition ctx old (cloneRunRecord run) = Ok tt ∧
    u = with_runs (<[r_RunID run := stored_as run]> (t_runs t)) t ∧ out = Some (stored_as run).
Proof.
  intros Hu. unfold apply_update in Hu. rewrite bool_decide_false in Hu by done. result_inv.
  match goal with Hf : find _ _ = Ok ?o |- _ => apply find_Ok in Hf; exists o end.
  match goal with Ht : validateCommitExecutionLease _ _ = Ok ?x, Hd : validateRunDeletionTransition _ _ _ = Ok ?y |- _ => destruct x, y end.
  store_inv. simplify_eq. change (r_Revision (cloneRunRecord run)) with (r_Revision run) in *.
  assert (cloneRunRecord (with_Revision (next_revision (r_Revision run)) (cloneRunRecord run)) = stored_as run) as ->
    by exact (stored_clone run).
  repeat (split; [done|]). done.
Qed.

Lemma change_later s s' id r r' :
  store_change s s' → headroom (runs s) → runs s !! id = Some r → runs s' !! id = Some r' → later r r'.
Proof.
  intros Hc Hh Hr Hr'. destruct Hc as [a Hn _ _ _ _|cx lctx old next Ho Hrev _ _ _|a b _ _ _ _|a b o _ _ _ _ _ _
    |id' a d _ _ _ _| |id' d _ _]; simpl in Hr'; try (left; congruence).
  - apply lookup_insert_Some in Hr' as [[<- <-]|[_ Hl]]; [congruence|left; congruence].
  - apply lookup_insert_Some in Hr' as [[Hid <-]|[_ Hl]]; [|left; congruence]. right. simpl in *.
    rewrite Hid in Ho. assert (old = r) as -> by congruence. rewrite next_revision_succ; [lia|]. exact (Hh id r Hr).
  - apply lookup_delete_Some in Hr' as [_ Hl]. left. congruence.
Qed.

Lemma commit_later ctx c fences t t' out id r r' :
  (∀ m w, c_Run c = Some w → rw_Mode w ≠ RunWriteOther m) →
  applyMemoryCommit ctx c fences t = Ok (t', out) → headroom (t_runs t) →
  t_runs t !! id = Some r → t_runs t' !! id = Some r' → later r r'.
Proof.
  intros Hm Ha Hh Hr Hr'. apply commit_runs in Ha as (u & Hu & Heq). rewrite Heq in Hr'. unfold apply_run in Hu.
  destruct (c_Run c) as [w|]; [|simplify_eq; left; congruence].
  destruct (rw_Mode w) as [| | |m] eqn:Hmode; [..|by destruct (Hm m w)].
  - unfold apply_create in Hu. store_inv. simplify_eq. simpl in Hr'.
    apply lookup_insert_Some in Hr' as [[<- <-]|[_ Hl]]; [|left; congruence].
    match goal with Hn : ¬ is_Some _ |- _ => destruct Hn; by exists r end.
  - apply update_inv in Hu as (old & Ho & Hrev & _ & _ & _ & -> & _). simpl in Hr'.
    apply lookup_insert_Some in Hr' as [[<- <-]|[_ Hl]]; [|left; congruence].
    assert (old = r) as -> by congruence. right. simpl. rewrite <-Hrev, next_revision_succ; [lia|]. exact (Hh _ r Hr).
  - unfold apply_update in Hu. rewrite bool_decide_true in Hu by done. result_inv. simplify_eq. left. congruence.
Qed.

Lemma rt_step_later s s' id r r' :
  rt_step s s' → store_wf (execution s) → headroom (runs (execution s)) →
  runs (execution s) !! id = Some r → runs (execution s') !! id = Some r' → later r r'.
Proof.
  intros Hs Hw Hh Hr Hr'.
  destruct Hs as [ctx o x Ht Hx|ctx k p x Hx|ctx id' x Hx|ctx id' d x Hx|ctx l x Hx|ctx id' x Hx|ctx id' d x Hx
    |ctx m s1 Hx|ctx id' s1 Hx|ctx id' d s1 Hx|ctx fr c s1 a Ht Hx]; simpl in Hr'; try (left; congruence).
  - eapply change_later; [|done..]. apply step_change. by econstructor.
  - unfold SaveRunDeletionManifest in Hx. result_inv. subst. left. simpl in Hr'. congruence.
  - unfold DeleteRuntimeRun in Hx. result_inv. subst. simpl in Hr'. apply lookup_delete_Some in Hr' as [_ Hl]. left. congruence.
  - unfold FenceRuntimeRun in Hx. result_inv. subst. left. simpl in Hr'. congruence.
  - apply commit_cases in Hx as [(-> & _)|(_ & Hv & fp & _ & [(-> & _)|(t' & out & _ & _ & Ha & _ & ->)])];
      [left; congruence..|].
    eapply commit_later; [|exact Ha|exact Hh|exact Hr|exact Hr'].
    intros m w Hw' Hm. unfold validateRuntimeCommit in Hv. rewrite Hw', Hm in Hv. by result_inv.
Qed.
End writes.

(** ** What others may do *)

Section others.
Context `{CommitDigest}.

(** A run that vanished is fenced, and stays away. *)
Lemma changes_dropped s s' id :
  rtc store_change s s' → is_Some (runs s !! id) → runs s' !! id = None → buried id s'.
Proof.
  induction 1 as [s|s1 s2 s3 Hc Hs IH]; intros Hr Hn; [destruct Hr; congruence|].
  destruct (runs s2 !! id) as [r2|] eqn:Hr2; [by apply IH|]. eapply changes_buried; [exact Hs|].
  by eapply change_dropped.
Qed.

(** A step of the store by anybody, while there is room for revisions. *)
Definition counted (s s' : RuntimeStore) : Prop := headroom (runs (execution s)) ∧ rt_step s s'.

Lemma counted_steps s s' : rtc counted s s' → rtc rt_step s s'.
Proof. induction 1 as [|s1 s2 s3 [_ Hs] _ IH]; [done|]. by eapply rtc_l. Qed.

Lemma counted_changes s s' : rtc counted s s' → store_wf (execution s) → rtc store_change (execution s) (execution s').
Proof.
  induction 1 as [|s1 s2 s3 [_ Hs] _ IH]; intros Hw; [done|].
  pose proof (rt_step_refines _ _ Hs Hw) as Hc. etrans; [exact Hc|]. apply IH. by eapply changes_wf.
Qed.

Lemma counted_later s s' id r r' :
  rtc counted s s' → store_wf (execution s) →
  runs (execution s) !! id = Some r → runs (execution s') !! id = Some r' → later r r'.
Proof.
  induction 1 as [|s1 s2 s3 [Hh Hs] Hs' IH] in r |- *; intros Hw Hr Hr'; [left; congruence|].
  assert (store_wf (execution s2)) as Hw2 by (eapply rt_steps_wf; [by apply rtc_once|done]).
  destruct (runs (execution s2) !! id) as [r2|] eqn:Hr2.
  - trans r2; [by eapply rt_step_later|by apply IH].
  - destruct (changes_dropped _ _ id (rt_step_refines _ _ Hs Hw)) as [_ Hn]; [by eexists|done|].
    assert (buried id (execution s2)) as Hb by (by eapply changes_dropped; [by apply rt_step_refines|eexists|]).
    destruct (changes_buried _ _ _ (counted_changes _ _ Hs' Hw2) Hb) as [_ Hn3]. congruence.
Qed.

(** Stored revisions are [uint64]. *)
Definition bounded (m : gmap string RunRecord) : Prop := map_Forall (λ _ r, (r_Revision r < 2 ^ 64)%N) m.

Lemma next_revision_bounded n : (next_revision n < 2 ^ 64)%N.
Proof. apply N.mod_lt. done. Qed.

Lemma rt_step_bounded s s' : rt_step s s' → bounded (runs (execution s)) → bounded (runs (execution s')).
Proof.
  intros Hs Hb.
  destruct Hs as [ctx o x Ht Hx|ctx k p x Hx|ctx id' x Hx|ctx id' d x Hx|ctx l x Hx|ctx id' x Hx|ctx id' d x Hx
    |ctx m s1 Hx|ctx id' s1 Hx|ctx id' d s1 Hx|ctx fr c s1 a Ht Hx]; try exact Hb.
  - simpl. destruct o as [r|e r|t|t|id|id d]; simpl in Hx.
    + unfold CreateRun in Hx. result_inv. subst. apply map_Forall_insert_2; [apply Ht|exact Hb].
    + result_inv. subst. match goal with Hc : CompareAndSwapRun _ _ _ _ = Ok ?p |- _ => destruct p as [s1 out] end.
      apply cas_inv in H0 as (-> & -> & _). apply map_Forall_insert_2; [apply next_revision_bounded|exact Hb].
    + unfold AppendStep in Hx. result_inv. by subst.
    + unfold UpdateStep in Hx. result_inv. by subst.
    + unfold DeleteRun in Hx. result_inv. destruct (runs _ !! id); result_inv; subst; [|done]. by apply map_Forall_delete.
    + unfold FenceRunDeletion in Hx. result_inv. by subst.
  - unfold SaveRunDeletionManifest in Hx. result_inv. by subst.
  - unfold DeleteRuntimeRun in Hx. result_inv. subst. by apply map_Forall_delete.
  - unfold FenceRuntimeRun in Hx. result_inv. by subst.
  - apply commit_cases in Hx as [(-> & _)|(_ & Hv & fp & _ & [(-> & _)|(t' & out & _ & _ & Ha & _ & ->)])]; [done..|].
    apply commit_runs in Ha as (u & Hu & Heq). simpl. rewrite Heq. clear Heq.
    apply (typed_sanitized ctx fr) in Ht. unfold typed_commit in Ht. unfold apply_run in Hu.
    set (c' := sanitizeCommit ctx (ensureCommitTransactionID fr c)) in *.
    destruct (c_Run c') as [w|] eqn:Hrun; [|by simplify_eq].
    cbv zeta in Hu. destruct (rw_Mode w) eqn:Hmode.
    + unfold apply_create in Hu. result_inv. simplify_eq. apply map_Forall_insert_2; [apply Ht|exact Hb].
    + apply update_inv in Hu as (old & _ & _ & _ & _ & _ & -> & _). apply map_Forall_insert_2; [apply next_revision_bounded|exact Hb].
    + unfold apply_update in Hu. rewrite bool_decide_true in Hu by done. result_inv. by simplify_eq.
    + unfold validateRuntimeCommit in Hv. fold c' in Hv. rewrite Hrun, Hmode in Hv. by result_inv.
Qed.

Lemma rt_steps_bounded s s' : rtc rt_step s s' → bounded (runs (execution s)) → bounded (runs (execution s')).
Proof. induction 1; eauto using rt_step_bounded. Qed.

(** The identifiers the service has not used yet name no transaction. *)
Definition ids_unused (n : nat) (s : RuntimeStore) : Prop := ∀ m, n ≤ m → transactions s !! fresh_id m = None.

Record sound_world (w : World) : Prop := {
  sw_wf : store_wf (execution (w_store w));
  sw_bounded : bounded (runs_of w);
  sw_ids : ids_unused (w_ids w) (w_store w);
}.

Record others (w w' : World) : Prop := {
  o_store : rtc counted (w_store w) (w_store w');
  o_clock : (w_clock w ≤ w_clock w')%Z;
  o_ids : w_ids w' = w_ids w;
  o_unused : ids_unused (w_ids w) (w_store w) → ids_unused (w_ids w) (w_store w');
}.

#[export] Instance others_preorder : PreOrder others.
Proof.
  split.
  - intros w. split; [done|lia|done|done].
  - intros a b c [H1 H2 H3 H4] [K1 K2 K3 K4]. split; [by etrans|lia|congruence|]. rewrite H3 in K4. auto.
Qed.

(** Others and calls of the service that leave the store alone. *)
Record since (w w' : World) : Prop := {
  s_store : rtc counted (w_store w) (w_store w');
  s_clock : (w_clock w ≤ w_clock w')%Z;
  s_unused : ids_unused (w_ids w) (w_store w) → ids_unused (w_ids w') (w_store w');
}.

#[export] Instance since_preorder : PreOrder since.
Proof.
  split; [by intros w; split|]. intros a b c [H1 H2 H3] [K1 K2 K3]. split; [by etrans|lia|auto].
Qed.

Lemma others_since w w' : others w w' → since w w'.
Proof. intros [Hs Hc Hi Hu]. split; [done|done|]. by rewrite Hi. Qed.

Lemma since_sound w w' : since w w' → sound_world w → sound_world w'.
Proof. intros [Hs _ Hu] [Hw Hb Hids]. apply counted_steps in Hs. split; [by eapply rt_steps_wf|by eapply rt_steps_bounded|auto]. Qed.

Lemma since_later w w' id r r' :
  since w w' → sound_world w → runs_of w !! id = Some r → runs_of w' !! id = Some r' → later r r'.
Proof. intros [Hs _ _] [Hw _ _]. by apply counted_later. Qed.

(** The run is gone for good, or its record is this one or a later one. *)
Definition looked (id : string) (old : RunRecord) (w : World) : Prop :=
  sound_world w ∧ (buried id (execution (w_store w)) ∨ ∃ r, runs_of w !! id = Some r ∧ later old r).

Lemma looked_since id old w w' : looked id old w → since w w' → looked id old w'.
Proof.
  intros [Hw Hl] Hs. split; [by eapply since_sound|].
  pose proof (counted_changes _ _ (s_store _ _ Hs) (sw_wf _ Hw)) as Hc.
  destruct Hl as [Hb|(r & Hr & Hl)]; [left; by eapply changes_buried|].
  destruct (runs_of w' !! id) as [r'|] eqn:Hr'; [|left; eapply changes_dropped; [exact Hc|by eexists|exact Hr']].
  right. exists r'. split; [done|]. trans r; [exact Hl|]. by eapply since_later.
Qed.

Lemma looked_sound id old w : looked id old w → sound_world w.
Proof. by intros [Hw _]. Qed.

Lemma looked_here id old w : sound_world w → runs_of w !! id = Some old → looked id old w.
Proof. intros Hw Hr. split; [done|]. right. exists old. split; [done|by left]. Qed.

Lemma looked_same id old w r : looked id old w → runs_of w !! id = Some r → r_Revision r = r_Revision old → r = old.
Proof.
  intros [_ [[_ Hn]|(r' & Hr' & [->|Hl])]] Hr Hrev; [unfold runs_of in Hr; congruence|congruence|].
  assert (r' = r) as -> by congruence. lia.
Qed.

(** ** What the calls do *)

Lemma ask_Ok ctx id w run : (answer (AskRun ctx id) w).2 = Ok run → ∃ r, runs_of w !! id = Some r ∧ run = cloneRunRecord r.
Proof. simpl. unfold GetRun. intros Ha. result_inv. subst. rewrite find_Ok in *. eauto. Qed.

Lemma swap_cases ctx e run w :
  (answer (SwapRun ctx e run) w).1 = w ∧ (∃ x, (answer (SwapRun ctx e run) w).2 = Err x) ∨
  ∃ s out, CompareAndSwapRun ctx (execution (w_store w)) e run = Ok (s, out) ∧
    answer (SwapRun ctx e run) w = (with_store (with_execution s (w_store w)) w, Ok out).
Proof. simpl. destruct (CompareAndSwapRun _ _ _ _) as [[s out]|x]; [right; by exists s, out|left; eauto]. Qed.

(** The memory store decides at once. *)
Lemma memory_resolve ctx fr c s :
  commitAndResolve ctx fr c s =
  ((RuntimeCommit ctx fr s (ensureCommitTransactionID fr c)).1,
   let a := (RuntimeCommit ctx fr s (ensureCommitTransactionID fr c)).2 in
   let r := if bool_decide (cr_TransactionID (an_Result a) = "") then with_ID (c_TransactionID (ensureCommitTransactionID fr c)) (an_Result a) else an_Result a in
   match cr_Outcome (an_Result a) with
   | TransactionCommitted => Some (MkResolved r (ensureCommitTransactionID fr c) [])
   | TransactionOutcomeUnknown =>
     Some (after_resolve (ensureCommitTransactionID fr c) r (errors_of a)
       (an_Result (ResolveCommit (WithoutCancel ctx) (RuntimeCommit ctx fr s (ensureCommitTransactionID fr c)).1 (c_TransactionID (ensureCommitTransactionID fr c))))
       (errors_of (ResolveCommit (WithoutCancel ctx) (RuntimeCommit ctx fr s (ensureCommitTransactionID fr c)).1 (c_TransactionID (ensureCommitTransactionID fr c)))))
   | outcome => Some (MkResolved r (ensureCommitTransactionID fr c)
       (if bool_decide (errors_of a = []) then [WithoutError (c_TransactionID (ensureCommitTransactionID fr c)) outcome] else map CommitFailed (errors_of a)))
   end).
Proof.
  unfold commitAndResolve. simpl. destruct (RuntimeCommit ctx fr s (ensureCommitTransactionID fr c)) as [s' a]. simpl.
  case_bool_decide; simpl; by destruct (cr_Outcome (an_Result a)).
Qed.
End others.

Section commits.
Context `{CommitDigest}.

(** A commit without steps leaves the steps alone. *)
Lemma commit_steps ctx c fences t t' out :
  applyMemoryCommit ctx c fences t = Ok (t', out) → c_Steps c = [] → t_steps t' = t_steps t.
Proof.
  unfold applyMemoryCommit. intros Ha Hn. rewrite Hn in Ha. cbn [foldM] in Ha. result_inv.
  match goal with Hr : apply_run _ _ _ _ = Ok ?p |- _ => rename Hr into Hrun end.
  assert (∀ t w t', apply_checkpoint c fences t w = Ok t' → t_steps t' = t_steps t) as Hk
    by (intros a w b Hb; unfold apply_checkpoint in Hb; result_inv; by subst).
  assert (∀ t e t', apply_event c fences t e = Ok t' → t_steps t' = t_steps t) as He
    by (intros a e b Hb; unfold apply_event in Hb; destruct (IsStreamingEvent _); result_inv; by subst).
  repeat match goal with Hf : foldM _ _ _ = Ok _ |- _ => apply (foldM_same _ t_steps) in Hf; [|assumption] end.
  assert (∀ p, apply_run ctx c fences t = Ok p → t_steps p.1 = t_steps t) as Hr.
  { intros p Hp. unfold apply_run in Hp. destruct (c_Run c) as [w|]; [|by simplify_eq].
    cbv zeta in Hp. destruct (rw_Mode w); unfold apply_create, apply_update in Hp;
      repeat first [progress result_inv | progress simplify_eq/= | case_match]; done. }
  apply Hr in Hrun. simplify_eq. congruence.
Qed.

Lemma ensure_idemp fr c : ensureCommitTransactionID fr (ensureCommitTransactionID fr c) = ensureCommitTransactionID fr c.
Proof.
  unfold ensureCommitTransactionID. case_bool_decide as Hb; [|done].
  case_bool_decide; [|done]. unfold with_TransactionID. by destruct c.
Qed.

(** The record a service stores for a run it commits. *)
Definition committed (ctx : Context) (run : RunRecord) : RunRecord :=
  stored_as (sanitizeRunRecord ctx (sanitizeRunRecord ctx run)).

(** Either nothing was written and there is an error, or the run was written over
    a record with its revision and lease. *)
Inductive committed_run (ctx : Context) (run : RunRecord) (w w' : World) : option (Resolved store_error) → Prop :=
  | commit_refused v : w_store w' = w_store w → rv_Errors v ≠ [] → committed_run ctx run w w' (Some v)
  | commit_written v old :
      rv_Errors v = [] → cr_Run (rv_Result v) = Some (committed ctx run) →
      runs_of w !! r_RunID run = Some old → r_Revision old = r_Revision run → r_ExecutionLease old = r_ExecutionLease run →
      runs_of w' = <[r_RunID run := committed ctx run]> (runs_of w) →
      steps (execution (w_store w')) = steps (execution (w_store w)) →
      deletions (execution (w_store w')) = deletions (execution (w_store w)) →
      committed_run ctx run w w' (Some v).

Definition service_commit (ctx : Context) (run : RunRecord) (events : list Event) : Commit :=
  guarded (sanitizeCommit ctx (run_commit run events)).

Lemma guarded_same c : c_TransactionID (guarded c) = c_TransactionID c ∧ c_Run (guarded c) = c_Run c ∧
  c_Steps (guarded c) = c_Steps c ∧ c_Artifacts (guarded c) = c_Artifacts c.
Proof. unfold guarded. destruct (c_Run c) as [w|] eqn:Hc; [|done]. case_bool_decide; [done|]. by destruct (executionLeaseGuard _). Qed.

Lemma sanitize_fields ctx fr c : c_TransactionID c = "" →
  let c' := sanitizeCommit ctx (ensureCommitTransactionID fr (ensureCommitTransactionID fr c)) in
  c_TransactionID c' = fr ∧ c_Run c' = (λ w, MkRunWrite (rw_Mode w) (sanitizeRunRecord ctx (rw_Run w))) <$> c_Run c ∧
  c_Steps c' = (λ w, MkStepWrite (sw_Mode w) (sanitizeStepRecord ctx (sw_Step w))) <$> c_Steps c.
Proof. intros Hc. rewrite ensure_idemp. unfold ensureCommitTransactionID. rewrite Hc. by rewrite bool_decide_true by done. Qed.

(** The two ways a commit without an identifier ends on the memory store. *)
Lemma commit_answer ctx c w :
  sound_world w → c_TransactionID c = "" →
  let fr := fresh_id (w_ids w) in
  let p := answer (CommitAndResolve ctx c) w in
  let s := (RuntimeCommit ctx fr (w_store w) (ensureCommitTransactionID fr c)).1 in
  p.1 = MkWorld s (w_clock w) (S (w_ids w)) (w_observed w) ∧
  ((s = w_store w ∧ ∃ v, p.2 = Some v ∧ rv_Errors v ≠ []) ∨
   ∃ v c' fp r t', p.2 = Some v ∧ rv_Errors v = [] ∧
     c' = sanitizeCommit ctx (ensureCommitTransactionID fr (ensureCommitTransactionID fr c)) ∧
     applyMemoryCommit ctx c' (deletions (execution (w_store w))) (tables_of (w_store w)) = Ok (t', cr_Run (rv_Result v)) ∧
     s = record_transaction fr fp r (install t' (w_store w))).
Proof.
  intros [_ _ Hids] Hid. cbv zeta. simpl. rewrite memory_resolve.
  destruct (sanitize_fields ctx (fresh_id (w_ids w)) c Hid) as (Hid' & _).
  destruct (RuntimeCommit ctx (fresh_id (w_ids w)) (w_store w) (ensureCommitTransactionID (fresh_id (w_ids w)) c)) as [s a] eqn:Hc.
  cbn [fst snd]. split; [done|].
  apply commit_cases in Hc as [(-> & [e He] & Ha)|(He & _ & fp & _ & [(-> & Hr)|(t' & out & _ & _ & Ha & Hr & ->)])].
  - left. split; [done|]. rewrite Ha. cbn. eexists. split; [done|]. cbn. unfold errors_of. by rewrite He.
  - rewrite Hid', (Hids (w_ids w)) in Hr; [done|lia].
  - right. rewrite Hr in *. cbn [an_Result cr_Outcome cr_TransactionID cr_Run] in *. eexists _, _, fp, _, t'.
    split; [done|]. split; [done|]. split; [done|]. split; [|by rewrite Hid'].
    cbn. rewrite Ha. by case_bool_decide.
Qed.

Lemma commit_effect ctx run events w :
  sound_world w →
  committed_run ctx run w (answer (CommitAndResolve ctx (service_commit ctx run events)) w).1
    (answer (CommitAndResolve ctx (service_commit ctx run events)) w).2.
Proof.
  intros Hw. destruct (guarded_same (sanitizeCommit ctx (run_commit run events))) as (Hid & Hrun & Hst & _).
  fold (service_commit ctx run events) in *. revert Hid Hrun Hst. generalize (service_commit ctx run events) as c. intros c Hid Hrun Hst.
  destruct (commit_answer ctx c w Hw Hid) as [-> [(Hs & v & -> & Hv)|(v & c' & fp & r & t' & -> & Hv & -> & Ha & Hs)]];
    rewrite Hs; [by apply commit_refused|].
  destruct (sanitize_fields ctx (fresh_id (w_ids w)) c Hid) as (_ & Hrun' & Hst').
  pose proof (commit_steps _ _ _ _ _ _ Ha) as Hsteps.
  apply commit_runs in Ha as (u & Hu & Heq). unfold apply_run in Hu. rewrite Hrun', Hrun in Hu. cbn in Hu.
  apply update_inv in Hu as (old & Ho & Hrev & Hl & _ & _ & -> & Hout).
  eapply commit_written with old; [done|exact Hout|exact Ho|exact Hrev|exact Hl|exact Heq| |done].
  apply Hsteps. rewrite Hst', Hst. done.
Qed.

Lemma fresh_id_inj m n : fresh_id m = fresh_id n → m = n.
Proof. unfold fresh_id. intros Heq. apply (inj (String.append "id-")) in Heq. by apply (inj pretty) in Heq. Qed.

Lemma commit_sound ctx run events w :
  sound_world w → (r_Revision run < 2 ^ 64)%N → (epoch_of (leased run) < 2 ^ 64)%N →
  sound_world (answer (CommitAndResolve ctx (service_commit ctx run events)) w).1.
Proof.
  intros Hw Hrev Hep. destruct (guarded_same (sanitizeCommit ctx (run_commit run events))) as (Hid & Hrun & _ & _).
  fold (service_commit ctx run events) in *. revert Hid Hrun. generalize (service_commit ctx run events) as c. intros c Hid Hrun.
  destruct (commit_answer ctx c w Hw Hid) as [-> Hcases]. destruct Hw as [Hw Hb Hids].
  assert (rt_step (w_store w) (RuntimeCommit ctx (fresh_id (w_ids w)) (w_store w) (ensureCommitTransactionID (fresh_id (w_ids w)) c)).1) as Hstep.
  { eapply rt_commit; [|apply surjective_pairing].
    unfold typed_commit, ensureCommitTransactionID. destruct (bool_decide _); simpl; rewrite Hrun; simpl; done. }
  split; cbn [w_store w_ids].
  - by eapply rt_steps_wf; [apply rtc_once|].
  - by eapply rt_step_bounded.
  - destruct Hcases as [(-> & _)|(_ & _ & fp & r & t' & _ & _ & _ & _ & ->)]; intros m Hm; [apply Hids; lia|].
    cbn. rewrite lookup_insert_ne; [apply Hids; lia|]. intros Heq%fresh_id_inj. lia.
Qed.
End commits.

Section swaps.
Context `{CommitDigest}.

(** A swap based on a record that was read changes that record, or nothing. *)
Inductive swapped_run (ctx : Context) (old run : RunRecord) (w w' : World) : result store_error RunRecord → Prop :=
  | swap_refused e : w' = w → swapped_run ctx old run w w' (Err e)
  | swap_written out :
      runs_of w !! r_RunID run = Some old → out = stored_as (sanitizeRunRecord ctx run) →
      validateRunExecutionLeaseTransition (lease_context ctx) (leased old) (leased run) = Ok tt →
      runs_of w' = <[r_RunID run := out]> (runs_of w) →
      steps (execution (w_store w')) = steps (execution (w_store w)) →
      w_clock w' = w_clock w → swapped_run ctx old run w w' (Ok out).

Lemma swap_effect ctx old run w :
  looked (r_RunID run) old w → r_Revision run = r_Revision old →
  (r_Revision run < 2 ^ 64)%N → (epoch_of (leased run) < 2 ^ 64)%N →
  let p := answer (SwapRun ctx (r_Revision run) run) w in
  sound_world p.1 ∧ swapped_run ctx old run w p.1 p.2.
Proof.
  intros Hlook Hrev Hb Hep. cbv zeta. pose proof (looked_sound _ _ _ Hlook) as [Hw Hbd Hi].
  destruct (swap_cases ctx (r_Revision run) run w) as [[Hs [e He]]|(s & out & Hc & ->)].
  { rewrite Hs, He. split; [by split|]. by apply swap_refused. }
  cbn [fst snd]. split.
  - assert (rt_step (w_store w) (with_execution s (w_store w))) as Hstep.
    { apply (rt_exec _ ctx (OCas (r_Revision run) run)); [done|]. cbn. by rewrite Hc. }
    split; [by eapply rt_steps_wf; [apply rtc_once|]|by eapply rt_step_bounded|exact Hi].
  - apply cas_inv in Hc as (-> & -> & old2 & Ho2 & Hr2 & _ & _ & Hl).
    assert (old2 = old) as -> by (eapply looked_same; [done..|congruence]).
    by apply swap_written.
Qed.

(** So does a commit. *)
Lemma commit_read ctx old run events w :
  looked (r_RunID run) old w → r_Revision run = r_Revision old →
  (r_Revision run < 2 ^ 64)%N → (epoch_of (leased run) < 2 ^ 64)%N →
  let p := answer (CommitAndResolve ctx (service_commit ctx run events)) w in
  sound_world p.1 ∧
  ((w_store p.1 = w_store w ∧ ∃ v, p.2 = Some v ∧ rv_Errors v ≠ []) ∨
   ∃ v, p.2 = Some v ∧ rv_Errors v = [] ∧ cr_Run (rv_Result v) = Some (committed ctx run) ∧
     runs_of w !! r_RunID run = Some old ∧ runs_of p.1 = <[r_RunID run := committed ctx run]> (runs_of w) ∧
     steps (execution (w_store p.1)) = steps (execution (w_store w)) ∧
     deletions (execution (w_store p.1)) = deletions (execution (w_store w))).
Proof.
  intros Hlook Hrev Hb Hep. cbv zeta. pose proof (looked_sound _ _ _ Hlook) as Hw.
  split; [by apply commit_sound|].
  destruct (commit_effect ctx run events w Hw) as [v Hs Hv|v old2 Hv Hr Ho2 Hrev2 _ Hruns Hst Hdel]; [left; eauto|right].
  assert (old2 = old) as -> by (eapply looked_same; [done..|congruence]). exists v. by split_and!.
Qed.
End swaps.

(** ** Rules for the services *)

(** What is assumed of the others, and what then holds from one state of the service
    to a later one as long as it writes nothing. *)
Class Discipline `{CommitDigest} (rely follow : World → World → Prop) := {
  d_preorder :: PreOrder follow;
  d_rely w w' : rely w w' → follow w w';
  d_quiet w w' : w_store w' = w_store w → (w_clock w ≤ w_clock w')%Z → w_ids w ≤ w_ids w' → follow w w';
  d_since w w' : follow w w' → since w w';
}.

Lemma quiet_store `{CommitDigest} w w' : w_store w' = w_store w → (w_clock w ≤ w_clock w')%Z → w_ids w ≤ w_ids w' → since w w'.
Proof. intros Hs Hc Hi. split; [by rewrite Hs|done|]. intros Hu m Hm. rewrite Hs. apply Hu. lia. Qed.

#[export, refine] Instance any_others `{CommitDigest} : Discipline others since := {}.
Proof. - apply others_since. - apply quiet_store. - done. Defined.

(** The service guarantees [guar] of each call, which a call that leaves the store
    alone satisfies.  [Q] is for results, [R] for errors. *)

Section rules.
Context `{CommitDigest} {rely follow : World → World → Prop} `{!Discipline rely follow}.
Context (guar : World → World → Prop) (quiet : ∀ w w', w_store w' = w_store w → guar w w').
Context {A : Type} (Q : A → World → Prop) (R : run_error → Prop).

Abbreviation runs_beside p := (beside (λ X, @answer _ X) rely guar p).
Definition outcome : result run_error A → World → Prop := either Q R.

Lemma quiet_follow w w1 X (c : run_call X) :
  rely w w1 → w_store (answer c w1).1 = w_store w1 → (w_clock w1 ≤ w_clock (answer c w1).1)%Z → (w_ids w1 ≤ w_ids (answer c w1).1) →
  follow w (answer c w1).1.
Proof. intros Ho Hs Hc Hi. etrans; [by apply d_rely|]. by apply d_quiet. Qed.

Lemma beside_clock w (f : Z → service A) :
  (∀ w1 now, follow w w1 → (now ≤ w_clock w1)%Z → runs_beside (f now) outcome w1) →
  runs_beside (pbind (perform ReadClock) f) outcome w.
Proof.
  intros Hf w1 Ho. split; [by apply quiet|]. apply Hf; [|cbn; lia]. apply quiet_follow; [done|done|cbn; lia|cbn; lia].
Qed.

Lemma beside_id w (f : string → service A) :
  (∀ w1 id, follow w w1 → runs_beside (f id) outcome w1) → runs_beside (pbind (perform NewRunnerID) f) outcome w.
Proof. intros Hf w1 Ho. split; [by apply quiet|]. apply Hf, quiet_follow; [done|done|cbn; lia|cbn; lia]. Qed.

Lemma beside_event w run type payload (f : Event → service A) :
  R EMarshal → (∀ w1 e, follow w w1 → runs_beside (f e) outcome w1) →
  runs_beside (abind (buildEvent run type payload) f) outcome w.
Proof.
  intros HR Hf w1 Ho. split; [by apply quiet|]. intros w2 Ho2. split; [by apply quiet|].
  assert (follow w (answer ReadClock w2).1) as Hs.
  { etrans; [|apply (quiet_follow (answer NewRunnerID w1).1 w2); [done|done|cbn; lia|cbn; lia]].
    apply quiet_follow; [done|done|cbn; lia|cbn; lia]. }
  cbn [answer fst snd] in *. destruct payload as [v|]; cbn; [|by apply Hf].
  destruct (json_encode v); cbn; [by apply Hf|]. intros ? ?. exact HR.
Qed.

Lemma beside_get w ctx id (f : RunRecord → service A) :
  (∀ e, R (EStore e)) →
  (∀ w1 r, follow w w1 → (∃ w0, rely w0 w1) → runs_of w1 !! id = Some r → runs_beside (f (cloneRunRecord r)) outcome w1) →
  runs_beside (abind (get_run ctx id) f) outcome w.
Proof.
  intros HR Hf w1 Ho. split; [by apply quiet|].
  assert (follow w (answer (AskRun ctx id) w1).1) as Hs by (apply quiet_follow; [done|done|cbn; lia|cbn; lia]).
  destruct (answer (AskRun ctx id) w1).2 as [r|e] eqn:Ha; cbn; [|intros ? ?; apply HR].
  apply ask_Ok in Ha as (r0 & Hr0 & ->). apply Hf; [done|by exists w|done].
Qed.

Lemma beside_swap w ctx old run (f : option RunRecord → service A) :
  (∀ e, R (EStore e)) → looked (r_RunID run) old w → r_Revision run = r_Revision old →
  (r_Revision run < 2 ^ 64)%N → (epoch_of (leased run) < 2 ^ 64)%N →
  (∀ w1 w2, follow w w1 → swapped_run ctx old run w1 w2 (Ok (stored_as (sanitizeRunRecord ctx run))) → sound_world w2 →
     guar w1 w2 ∧ runs_beside (f (Some (stored_as (sanitizeRunRecord ctx run)))) outcome w2) →
  (∀ w1, follow w w1 → runs_beside (f None) outcome w1) →
  runs_beside (abind (swap_run ctx run) f) outcome w.
Proof.
  intros HR Hlook Hrev Hb Hep Hok Hno w1 Ho. pose proof (looked_since _ _ _ _ Hlook (d_since _ _ (d_rely _ _ Ho))) as Hl1.
  destruct (swap_effect ctx old run w1 Hl1 Hrev Hb Hep) as [Hsound Hsw].
  split.
  - destruct Hsw as [e He|out Hold -> Hl Hruns Hst Hck]; [apply quiet; by rewrite He|].
    eapply Hok; [by apply d_rely| |exact Hsound]. by apply swap_written.
  - destruct (answer (SwapRun ctx (r_Revision run) run) w1) as [w2 r]. cbn [fst snd] in *.
    destruct Hsw as [e ->|out Hold -> Hl Hruns Hst Hck]; cbn.
    + destruct (is_conflict e); cbn; [apply Hno; by apply d_rely|intros ? ?; apply HR].
    + eapply Hok; [by apply d_rely| |exact Hsound]. by apply swap_written.
Qed.

Lemma beside_commit w ctx old run events (f : option RunRecord → service A) :
  (∀ l, R (ECommit l)) → looked (r_RunID run) old w → r_Revision run = r_Revision old →
  (r_Revision run < 2 ^ 64)%N → (epoch_of (leased run) < 2 ^ 64)%N →
  (∀ w1 w2, follow w w1 → (∃ w0, rely w0 w1) → runs_of w1 !! r_RunID run = Some old → runs_of w2 = <[r_RunID run := committed ctx run]> (runs_of w1) →
     steps (execution (w_store w2)) = steps (execution (w_store w1)) →
     deletions (execution (w_store w2)) = deletions (execution (w_store w1)) → sound_world w2 →
     guar w1 w2 ∧ ∀ w3, follow w2 w3 → runs_beside (f (Some (committed ctx run))) outcome w3) →
  (∀ w1, looked (r_RunID run) old w1 → follow w w1 → runs_beside (f None) outcome w1) →
  runs_beside (abind (commit_update ctx run events) f) outcome w.
Proof.
  intros HR Hlook Hrev Hb Hep Hok Hno. unfold abind, commit_update, commit_run, perform. cbn [pbind beside].
  fold (service_commit ctx run events). intros w1 Ho.
  pose proof (looked_since _ _ _ _ Hlook (d_since _ _ (d_rely _ _ Ho))) as Hl1.
  destruct (commit_read ctx old run events w1 Hl1 Hrev Hb Hep) as [Hsound Hcases].
  assert (w_clock (answer (CommitAndResolve ctx (service_commit ctx run events)) w1).1 = w_clock w1 ∧
    w_ids (answer (CommitAndResolve ctx (service_commit ctx run events)) w1).1 = S (w_ids w1)) as [Hck Hids]
    by (cbn; by destruct (commitAndResolve _ _ _ _)).
  destruct (answer (CommitAndResolve ctx (service_commit ctx run events)) w1) as [w2 r]. cbn [fst snd] in *.
  destruct Hcases as [(Hs & v & -> & Hv)|(v & -> & Hv & Hr & Hold & Hruns & Hst & Hdel)].
  - split; [by apply quiet|]. rewrite bool_decide_false by done. cbn.
    destruct (existsb _ _); cbn; [|intros ? ?; apply HR]. apply Hno.
    + eapply looked_since; [exact Hl1|]. apply quiet_store; [done|lia|lia].
    + etrans; [by apply d_rely|]. apply d_quiet; [done|lia|lia].
  - destruct (Hok w1 w2) as [Hg Hf]; [by apply d_rely|by exists w|done..|]. split; [done|].
    rewrite bool_decide_true by done. cbn. intros w3 Ho3.
    split; [by apply quiet|]. rewrite Hr. cbn. apply Hf.
    apply (quiet_follow w2 w3 _ (Observe ctx (c_Events (rv_Commit v)))); [done|done|cbn; lia|cbn; lia].
Qed.
End rules.
