(* ===== verification/RunControl.v ===== *)
(** * Run control: [runtime/run_control.go]

    The service that changes a run nobody executes: it gives up a run whose
    executor is gone, cancels a paused run with its children and deletes a run.
    It works beside other processes, and a revision that moved makes it look again.
    The loops on conflicts have the code's limit; the loop that also releases
    expired leases and the walk over the children have fuel. *)

From stdpp Require Import pretty.
From S2P Require Import Prelude GoStrings Values Json Sensitive Lease Records RunStore Stores Artifacts Commit Transactions FileDisk FileStore FileTxn Recovery CommitResolve Programs RunServices.

(** [MarkRunExecutionLost]. *)
Definition released (now : Z) (run : RunRecord) (l : ExecutionLease) : RunRecord :=
  with_ExecutionLease (Some (released_at now l)) run.

Definition lost_code : string := "run_execution_lost".
Definition lost_message : string := "run execution is no longer active in this server process".

Definition failed_lost (now : Z) (run : RunRecord) : RunRecord :=
  with_end RunStatusFailed lost_code lost_message now run.

Definition lost_payload : value := VMap {["error_code" := VStr lost_code; "error_message" := VStr lost_message]}.

(** The active lease a run carries, expired or not. *)
Definition active_lease (run : RunRecord) : option ExecutionLease :=
  match r_ExecutionLease run with
  | Some l => if is_active l then Some l else None
  | None => None
  end.

(** The body of the loop for the run that was read: its lease is released, or the
    run fails and the loop ends.  [None] after a conflict. *)
Definition release_expired (ctx : Context) (now : Z) (run : RunRecord) (l : ExecutionLease) : service (option RunRecord) :=
  swap_run (withExecutionLeaseMutation ctx LeaseRelease now) (released now run l).

Definition mark_failed (ctx : Context) (now : Z) (run : RunRecord) : service (option RunRecord) :=
  let run := failed_lost now run in
  do! failedEvent := buildEvent run EventRunFailed (Some lost_payload) in
  commit_update ctx run [failedEvent].

Fixpoint mark_lost (ctx : Context) (runID : string) (fuel conflicts : nat) : service RunRecord :=
  match fuel with
  | 0 => fail EFuel
  | S fuel =>
    let conflict what :=
      if (runRevisionRetryLimit <=? S conflicts)%nat then fail (ERetries what) else mark_lost ctx runID fuel (S conflicts) in
    do! run := get_run ctx runID in
    if negb (bool_decide (r_Status run = RunStatusPending)) && negb (bool_decide (r_Status run = RunStatusRunning))
    then done run else
    pbind (perform ReadClock) (λ now,
    if IsExecutionLeaseActive (leased run) now
    then fail (EOwned run (from_option Epoch 0%N (r_ExecutionLease run)) (from_option ExpiresAt 0%Z (r_ExecutionLease run))) else
    match active_lease run with
    | Some l =>
      do! o := release_expired ctx now run l in
      match o with Some _ => mark_lost ctx runID fuel conflicts | None => conflict "release expired execution lease" end
    | None =>
      do! o := mark_failed ctx now run in
      match o with Some run => done run | None => conflict "mark run execution lost" end
    end)
  end.

Definition MarkRunExecutionLost (ctx : Context) (fuel : nat) (runID : string) : service RunRecord :=
  mark_lost ctx (TrimSpace runID) fuel 0.

(** [runCancelVisit]; a run that is not in the map was not visited. *)
Record runCancelVisit := MkVisit { cv_run : RunRecord; cv_visiting : bool; cv_done : bool }.

Definition visiting (run : RunRecord) : runCancelVisit := MkVisit run true false.
Definition visited (run : RunRecord) : runCancelVisit := MkVisit run false true.

Definition canceled (now : Z) (run : RunRecord) : RunRecord :=
  with_end RunStatusCanceled (r_ErrorCode run) (r_ErrorMessage run) now run.

(** The end of one look at a run whose children are done: the run that is
    returned, [None] after a conflict. *)
Definition cancel_one (ctx : Context) (root : bool) (run : RunRecord) : service (option RunRecord) :=
  if bool_decide (r_Status run = RunStatusCanceled) then done (Some run)
  else if negb (bool_decide (r_Status run = RunStatusPaused)) then
    if negb root && (bool_decide (r_Status run = RunStatusCompleted) || bool_decide (r_Status run = RunStatusFailed))
    then done (Some run)
    else fail (ENotAllowed (r_RunID run) "cannot be canceled without an active runner")
  else
    pbind (perform ReadClock) (λ now,
    let run := canceled now run in
    do! requestedEvent := buildEvent run EventRunCancelRequested None in
    do! canceledEvent := buildEvent run EventRunCanceled None in
    commit_update ctx run [requestedEvent; canceledEvent]).

(** The loop over the children, with the walk below as an argument. *)
Fixpoint cancel_children (walk : string → gmap string runCancelVisit → service (RunRecord * gmap string runCancelVisit))
    (run : RunRecord) (children : list string) (visits : gmap string runCancelVisit) : service (gmap string runCancelVisit) :=
  match children with
  | [] => done visits
  | child :: children =>
    let child := TrimSpace child in
    do! _ := refused_unless (r_RunID run) "empty child run ID" (negb (bool_decide (child = ""))) in
    pbind (walk child visits) (λ r,
    match r with
    | Ok (_, visits) => cancel_children walk run children visits
    | Err e => fail (EChild child (r_RunID run) e)
    end)
  end.

(** The loop of [cancelPausedRun]: [n] more looks before it gives up. *)
Fixpoint cancel_loop (ctx : Context) (walk : RunRecord → string → gmap string runCancelVisit → service (RunRecord * gmap string runCancelVisit))
    (runID expectedParentRunID : string) (root : bool) (n : nat) (visits : gmap string runCancelVisit)
    : service (RunRecord * gmap string runCancelVisit) :=
  match n with
  | 0 => fail (ERetries "cancel paused run")
  | S n =>
    do! run := get_run ctx runID in
    do! _ := refused_unless (r_RunID run) "child run parent"
               (bool_decide (expectedParentRunID = "") || bool_decide (r_ParentRunID run = expectedParentRunID)) in
    do! visits := cancel_children (walk run) run (r_ChildRunIDs run) (<[runID := visiting run]> visits) in
    do! o := cancel_one ctx root run in
    match o with
    | Some run => done (run, <[runID := visited run]> visits)
    | None => cancel_loop ctx walk runID expectedParentRunID root n visits
    end
  end.

Fixpoint cancelPausedRun (ctx : Context) (fuel : nat) (runID expectedParentRunID : string) (root : bool)
    (visits : gmap string runCancelVisit) : service (RunRecord * gmap string runCancelVisit) :=
  match fuel with
  | 0 => fail EFuel
  | S fuel =>
    let look :=
      cancel_loop ctx (λ run child, cancelPausedRun ctx fuel child (r_RunID run) false)
        runID expectedParentRunID root runRevisionRetryLimit visits in
    match visits !! runID with
    | Some visit =>
      if cv_visiting visit then fail (ERefused runID "child run lineage cycle")
      else if cv_done visit then done (cv_run visit, visits) else look
    | None => look
    end
  end.

Definition CancelPausedRun (ctx : Context) (fuel : nat) (runID : string) : service RunRecord :=
  do! p := cancelPausedRun ctx fuel (TrimSpace runID) "" true ∅ in done p.1.

(** [DeleteRun]; the deleter may be missing. *)
Definition DeleteRun (ctx : Context) (deleter : bool) (runID : string) : service RunRecord :=
  let runID := TrimSpace runID in
  do! run := get_run ctx runID in
  if isActiveDeleteRunStatus (r_Status run) then fail (ENotAllowed runID "must be stopped before deletion")
  else if negb deleter then fail (ERefused runID "run deletion is not configured")
  else pbind (perform (RemoveRun ctx runID)) (λ r, match r with Ok _ => done run | Err e => fail (EStore e) end).
