(* ===== verification/RunLost.v ===== *)
(** * Giving up a run: [MarkRunExecutionLost] of [runtime/run_control.go]

    Beside other processes, a run is failed only while it is unfinished and no
    lease of it is active, and a lease is released only after it expired; the loop
    ends as long as nobody acquires the run again. *)

From stdpp Require Import pretty.
From S2P Require Import Prelude GoStrings Values Json Sensitive Lease Records RunStore Stores Artifacts Commit Transactions FileDisk FileStore FileTxn Recovery CommitResolve Programs RunServices Interference RunControl.

Section lost.
Context `{CommitDigest} (ctx : Context) (id : string).

(** The run waits for an executor or has one. *)
Definition unfinished (run : RunRecord) : bool :=
  bool_decide (r_Status run = RunStatusPending) || bool_decide (r_Status run = RunStatusRunning).

(** What one call does to the store. *)
Inductive lost_step (w w' : World) : Prop :=
  | lost_none :
      runs_of w' = runs_of w → steps (execution (w_store w')) = steps (execution (w_store w)) → lost_step w w'
  | lost_release old l now :
      runs_of w !! id = Some old → unfinished old = true →
      active_lease old = Some l → (ExpiresAt l ≤ now ≤ w_clock w)%Z →
      runs_of w' = <[id := stored_as (sanitizeRunRecord ctx (released now (cloneRunRecord old) l))]> (runs_of w) →
      steps (execution (w_store w')) = steps (execution (w_store w)) → lost_step w w'
  | lost_fail old now :
      runs_of w !! id = Some old → unfinished old = true → active_lease old = None → (now ≤ w_clock w)%Z →
      runs_of w' = <[id := committed ctx (failed_lost now (cloneRunRecord old))]> (runs_of w) →
      steps (execution (w_store w')) = steps (execution (w_store w)) → lost_step w w'.

Lemma lost_quiet w w' : w_store w' = w_store w → lost_step w w'.
Proof. intros Hs. apply lost_none; unfold runs_of; by rewrite Hs. Qed.

(** What is returned is not unfinished. *)
Definition ended (run : RunRecord) (w : World) : Prop := unfinished run = false.

Lemma active_lease_Some run l : active_lease run = Some l ↔ r_ExecutionLease run = Some l ∧ is_active l = true.
Proof.
  unfold active_lease. destruct (r_ExecutionLease run) as [l'|]; [|split; [done|by intros [? _]]].
  destruct (is_active l') eqn:Ha; (split; [by intros [= <-]|]); intros [[= <-] Hl]; congruence.
Qed.

Lemma inactive_expired run now l :
  IsExecutionLeaseActive (leased run) now = false → active_lease run = Some l → (ExpiresAt l ≤ now)%Z.
Proof.
  unfold IsExecutionLeaseActive, leased. cbn. intros Hn [Hl Ha]%active_lease_Some. rewrite Hl, Ha in Hn. simpl in Hn. lia.
Qed.

Section loop.
Context {rely follow : World → World → Prop} `{!Discipline rely follow} (R : run_error → Prop).
Context (guar : World → World → Prop) (quiet : ∀ w w', w_store w' = w_store w → guar w w') (Hguar : ∀ w w', lost_step w w' → guar w w').
Context (HR : ∀ e, R (EStore e)) (HR' : ∀ l, R (ECommit l)) (HRm : R EMarshal) (HRo : ∀ r e u, R (EOwned r e u)) (HRt : ∀ what, R (ERetries what)).

(** One look at an unfinished run that has an expired lease. *)
Lemma release_beside w old l now (f : option RunRecord → service RunRecord) :
  looked id old w → unfinished old = true → active_lease old = Some l → (ExpiresAt l ≤ now ≤ w_clock w)%Z →
  (r_Revision old < 2 ^ 64)%N → (epoch_of (leased old) < 2 ^ 64)%N → r_RunID old = id →
  (∀ w1 w2 r, follow w w1 → sound_world w2 → runs_of w2 = <[id := r]> (runs_of w1) → active_lease r = None →
     beside (λ X, @answer _ X) rely guar (f (Some r)) (outcome ended R) w2) →
  (∀ w1, follow w w1 → beside (λ X, @answer _ X) rely guar (f None) (outcome ended R) w1) →
  beside (λ X, @answer _ X) rely guar (abind (release_expired ctx now (cloneRunRecord old) l) f) (outcome ended R) w.
Proof.
  intros Hlook Hun Hl Hnow Hrev Hep Hid Hok Hno.
  apply active_lease_Some in Hl as Hl'. destruct Hl' as [Hlease Hact].
  unfold release_expired. eapply beside_swap with (old := old); try done.
  - rewrite <-Hid in Hlook. exact Hlook.
  - unfold epoch_of, leased in *. simpl in *. by rewrite Hlease in Hep.
  - intros w1 w2 Hf Hsw Hw2. inversion Hsw as [|out Hold Hout Htr Hruns Hst Hck]; subst.
    change (r_RunID (released now (cloneRunRecord old) l)) with (r_RunID old) in *. rewrite Hid in *.
    split; [|eapply Hok; [exact Hf|exact Hw2|exact Hruns|reflexivity]].
    apply Hguar. eapply lost_release; [exact Hold|done|exact Hl| |exact Hruns|exact Hst].
    pose proof (s_clock _ _ (d_since _ _ Hf)). lia.
Qed.

(** One look at an unfinished run that has no active lease. *)
Lemma failed_beside w old now (f : option RunRecord → service RunRecord) :
  looked id old w → unfinished old = true → active_lease old = None → (now ≤ w_clock w)%Z →
  (r_Revision old < 2 ^ 64)%N → (epoch_of (leased old) < 2 ^ 64)%N → r_RunID old = id →
  (∀ w3, beside (λ X, @answer _ X) rely guar (f (Some (committed ctx (failed_lost now (cloneRunRecord old))))) (outcome ended R) w3) →
  (∀ w1, looked id old w1 → follow w w1 → beside (λ X, @answer _ X) rely guar (f None) (outcome ended R) w1) →
  beside (λ X, @answer _ X) rely guar (abind (mark_failed ctx now (cloneRunRecord old)) f) (outcome ended R) w.
Proof.
  intros Hlook Hun Hl Hnow Hrev Hep Hid Hok Hno.
  set (run := failed_lost now (cloneRunRecord old)).
  unfold mark_failed. cbv zeta. fold run. apply beside_assoc. apply beside_event; [done..|]. intros w1 e Hf1.
  assert (looked (r_RunID run) old w1) as Hlook1.
  { change (r_RunID run) with (r_RunID old). rewrite Hid. eapply looked_since; [done|by apply d_since]. }
  apply (beside_commit guar quiet _ _ _ _ old); [done|done|done|done|done| |].
  - intros w2 w3 Hf2 _ Hold Hruns Hst _ Hw3. change (r_RunID run) with (r_RunID old) in *. rewrite Hid in *. split; [|by eauto].
    apply Hguar. eapply lost_fail; [exact Hold|done|done| |exact Hruns|exact Hst].
    pose proof (s_clock _ _ (d_since _ _ Hf1)). pose proof (s_clock _ _ (d_since _ _ Hf2)). lia.
  - intros w2 Hlook2 Hf2. change (r_RunID run) with (r_RunID old) in *. rewrite Hid in *. apply Hno; [done|by etrans].
Qed.

(** The run carries no active lease. *)
Definition idle (w : World) : Prop := ∀ r, runs_of w !! id = Some r → active_lease r = None.

(** Enough fuel for the conflicts that are left and one release, when nobody
    acquires the run; else running out of fuel is allowed. *)
Definition fuelled (fuel conflicts : nat) (w : World) : Prop :=
  R EFuel ∨ (∀ w w', follow w w' → idle w → idle w') ∧
    (idle w ∧ runRevisionRetryLimit ≤ conflicts + fuel ∨ runRevisionRetryLimit < conflicts + fuel).

Lemma fuelled_less fuel c w w1 :
  fuelled (S fuel) c w → follow w w1 → fuelled fuel (S c) w1.
Proof.
  intros [HF|[Hst [[Hi Hn]|Hn]]] Hf; [by left|right; split; [done|]..].
  - left. split; [by eapply Hst|lia].
  - right. lia.
Qed.

Lemma mark_beside fuel conflicts w :
  sound_world w → conflicts < runRevisionRetryLimit → fuelled fuel conflicts w →
  beside (λ X, @answer _ X) rely guar (mark_lost ctx id fuel conflicts) (outcome ended R) w.
Proof.
  revert conflicts w. induction fuel as [|fuel IH]; intros c w Hw Hc HF.
  { intros w1 _. destruct HF as [HF|[_ [[_ Hn]|Hn]]]; [exact HF|lia..]. }
  assert (∀ what w1, follow w w1 → beside (λ X, @answer _ X) rely guar
    (if (runRevisionRetryLimit <=? S c)%nat then fail (ERetries what) else mark_lost ctx id fuel (S c)) (outcome ended R) w1) as Hconflict.
  { intros what w1 Hf. destruct (runRevisionRetryLimit <=? S c) eqn:Hlim; [intros ? _; apply HRt|].
    apply IH; [by eapply since_sound; [apply d_since|]|apply Nat.leb_gt in Hlim; lia|by eapply fuelled_less]. }
  cbn [mark_lost]. apply beside_get; [done|done|]. intros w1 old Hf1 _ Hold.
  assert (sound_world w1) as Hw1 by (by eapply since_sound; [apply d_since|]).
  destruct (wf_run _ (sw_wf _ Hw1) id old Hold) as [Hid Hep]. pose proof (sw_bounded _ Hw1 id old Hold) as Hrev. cbn in Hrev.
  change (r_Status (cloneRunRecord old)) with (r_Status old).
  rewrite <-negb_orb. fold (unfinished old). destruct (unfinished old) eqn:Hun; cbn [negb]; [|intros ? _; exact Hun].
  assert (looked id old w1) as Hlook by (by apply looked_here).
  apply beside_clock; [done|]. intros w2 now Hf2 Hnow. pose proof (looked_since _ _ _ _ Hlook (d_since _ _ Hf2)) as Hlook2.
  assert (follow w w2) as Hf by (by etrans).
  change (IsExecutionLeaseActive (leased (cloneRunRecord old)) now) with (IsExecutionLeaseActive (leased old) now).
  destruct (IsExecutionLeaseActive (leased old) now) eqn:Hactive; [intros ? _; apply HRo|].
  change (active_lease (cloneRunRecord old)) with (active_lease old).
  destruct (active_lease old) as [l|] eqn:Hl.
  - apply (release_beside _ old l now); [exact Hlook2|exact Hun|exact Hl| |exact Hrev|exact Hep|exact Hid| |].
    + split; [by eapply inactive_expired|exact Hnow].
    + intros w3 w4 r Hf3 Hw4 Hruns Hr. apply IH; [done|done|].
      destruct HF as [HF|[Hst Hn]]; [by left|right; split; [exact Hst|]].
      destruct Hn as [[Hi _]|Hn]; [specialize (Hst _ _ Hf1 Hi _ Hold); congruence|].
      left. split; [|lia]. intros r' Hr'. rewrite Hruns, lookup_insert_eq in Hr'. by simplify_eq.
    + intros w3 Hf3. apply Hconflict. by etrans.
  - apply failed_beside; [exact Hlook2|exact Hun|exact Hl|exact Hnow|exact Hrev|exact Hep|exact Hid| |].
    + intros w3 w4 _. unfold ended. reflexivity.
    + intros w3 _ Hf3. apply Hconflict. by etrans.
Qed.
End loop.

(** What others do while nobody acquires the run. *)
Definition idle_others (w w' : World) : Prop := others w w' ∧ (idle w → idle w').
Definition idle_since (w w' : World) : Prop := since w w' ∧ (idle w → idle w').

#[export, refine] Instance idle_discipline : Discipline idle_others idle_since := {}.
Proof.
  - split; [by intros w|]. intros a b c [H1 H2] [H3 H4]. split; [by etrans|auto].
  - intros w w' [Ho Hi]. split; [by apply others_since|done].
  - intros w w' Hs Hc Hi. split; [by apply quiet_store|]. unfold idle, runs_of. by rewrite Hs.
  - by intros w w' [Hs _].
Defined.

End lost.

(** C34: giving up a run never interferes with an execution.  Whatever other processes do between its calls,
    each call of [MarkRunExecutionLost] leaves the store alone, releases a lease of the run that has
    expired, or fails the run while it is unfinished and carries no active lease; it changes no other
    run and no step.  The run it returns is no longer unfinished *)
Theorem lost_run_safe `{CommitDigest} ctx fuel runID w :
  sound_world w →
  beside (λ X, @answer _ X) others (lost_step ctx (TrimSpace runID)) (MarkRunExecutionLost ctx fuel runID)
    (λ r _, match r with Ok run => unfinished run = false | Err _ => True end) w.
Proof.
  intros Hw. eapply beside_mono; [|apply (mark_beside (follow := since) ctx (TrimSpace runID) (λ _, True))]; try done.
  - apply lost_quiet.
  - unfold runRevisionRetryLimit. lia.
  - by left.
Qed.

(** The loop of [MarkRunExecutionLost] ends.  As long as nobody acquires the run again, nine looks are
    enough, eight for the conflicts it may meet and one for the release of the expired lease *)
Theorem lost_run_ends `{CommitDigest} ctx runID w :
  sound_world w →
  beside (λ X, @answer _ X) (idle_others (TrimSpace runID)) (λ _ _, True)
    (MarkRunExecutionLost ctx (runRevisionRetryLimit + 1) runID) (λ r _, r ≠ Err EFuel) w.
Proof.
  intros Hw. eapply beside_mono; [|apply (mark_beside (follow := idle_since (TrimSpace runID)) ctx (TrimSpace runID) (λ e, e ≠ EFuel))]; try done.
  - intros [run|e] w' Hr; [done|]. intros [= ->]. by apply Hr.
  - unfold runRevisionRetryLimit. lia.
  - right. split; [by intros w1 w2 [_ Hi]|]. right. lia.
Qed.

(** ** An executor that went away *)

Section demo.
#[local] Existing Instance demo_digest.

(** The run of a worker whose lease ended at 20; it is 30. *)
Definition demo_running : RunRecord :=
  with_ExecutionLease (Some demo_lease) (MkRunRecord "run-1" 4 "" "" "" "" "" None "run-1" ["run-1"] "main" [] [] None
    "graph" "v1" "" "" "" "" "" "" None RunStatusRunning "start" "work" ["work"] [] [] "" "" "" false true "" "" 5 6 None).

Definition demo_lost : World :=
  MkWorld (with_execution (MkStore {["run-1" := demo_running]} ∅ ∅) NewMemoryRuntimeStore) 30 0 [].

Lemma demo_lost_sound : sound_world demo_lost.
Proof.
  split.
  - split; cbn; [|intros k t Hk; by apply lookup_empty_Some in Hk]. intros i r [<- <-]%lookup_singleton_Some. done.
  - intros i r. cbn. intros [<- <-]%lookup_singleton_Some. done.
  - intros n _. done.
Qed.

Definition demo_marked : World * result run_error RunRecord :=
  run_with (λ X, @answer _ X) (MarkRunExecutionLost Background 9 "run-1") demo_lost.

(** The lease is released and the run failed, in two writes. *)
Example demo_marked_run :
  (λ r, (r_Status r, r_Revision r, Status <$> r_ExecutionLease r, r_ErrorCode r)) <$> runs_of demo_marked.1 !! "run-1"
  = Some (RunStatusFailed, 6%N, Some LeaseReleased, lost_code) ∧
  map v_Type (w_observed demo_marked.1) = [EventRunFailed].
Proof. vm_compute. done. Qed.

Lemma lost_run_safe_witness :
  ∃ run, demo_marked.2 = Ok run ∧ unfinished run = false ∧ r_RunID run = "run-1".
Proof.
  pose proof (beside_sound _ _ _ _ _ _ _ _ (lost_run_safe Background 9 "run-1" demo_lost demo_lost_sound)
    (run_beside_refl _ others _ _ (λ w, reflexivity w))) as Hs.
  fold demo_marked in Hs. destruct demo_marked as [w [run|e]] eqn:Hm; [|vm_compute in Hm; discriminate].
  exists run. split; [reflexivity|]. split; [exact Hs|]. vm_compute in Hm. injection Hm as _ <-. reflexivity.
Defined.

Lemma lost_run_ends_witness : demo_marked.2 ≠ Err EFuel.
Proof.
  refine (beside_sound _ _ _ _ _ _ _ _ (lost_run_ends Background "run-1" demo_lost demo_lost_sound)
    (run_beside_refl _ (idle_others _) _ _ _)).
  intros w. split; [reflexivity|trivial].
Defined.
End demo.
