(* ===== verification/RunCancel.v ===== *)
(** * Canceling a family of runs: [CancelPausedRun] of [runtime/run_control.go]

    The walk cancels the children before the run, and writes the run only over the
    record whose children it saw.  So, beside other processes that leave finished
    runs finished, a run it has canceled has no unfinished run below it; and the walk
    ends whatever the runs name as their children.  A runner that resumes a finished
    run from a checkpoint is not such a process: beside it, all that is left is that
    only paused runs are canceled. *)

From stdpp Require Import pretty.
From S2P Require Import Prelude GoStrings Values Json Sensitive Lease Records RunStore Stores Artifacts Commit Transactions FileDisk FileStore FileTxn Recovery CommitResolve Programs RunServices Interference RunControl.

(** ** What stays of the runs *)

Definition terminal (r : RunRecord) : Prop := isTerminalRunStatus (r_Status r) = true.

(** No run is lost; a record that changed has a later revision; a finished run
    keeps its status and its children. *)
Definition kept (w w' : World) : Prop :=
  ∀ id r, runs_of w !! id = Some r → ∃ r', runs_of w' !! id = Some r' ∧ later r r' ∧
    (terminal r → r_Status r' = r_Status r ∧ r_ChildRunIDs r' = r_ChildRunIDs r).

#[export] Instance kept_preorder : PreOrder kept.
Proof.
  split.
  - intros w id r Hr. exists r. split; [done|]. split; [by left|done].
  - intros a b c Hab Hbc id r Hr. destruct (Hab id r Hr) as (r1 & Hr1 & Hl1 & Ht1).
    destruct (Hbc id r1 Hr1) as (r2 & Hr2 & Hl2 & Ht2). exists r2. split; [done|]. split; [by trans r1|].
    intros Ht. destruct (Ht1 Ht) as [Hs1 Hc1]. destruct (Ht2) as [Hs2 Hc2]; [unfold terminal in *; congruence|]. split; congruence.
Qed.

Lemma kept_same w w' : runs_of w' = runs_of w → kept w w'.
Proof. intros Hr id r Hid. exists r. rewrite Hr. split; [done|]. split; [by left|done]. Qed.

(** ** The family of a run *)

(** [b] is named as a child by the record of [a]. *)
Definition names (w : World) (a b : string) : Prop :=
  ∃ r c, runs_of w !! a = Some r ∧ c ∈ r_ChildRunIDs r ∧ b = TrimSpace c.

(** Nothing below the run is its own descendant. *)
Definition well_founded_at (w : World) : string → Prop := Acc (λ a b, names w b a).

Lemma well_founded_below w a b : well_founded_at w a → rtc (names w) a b → well_founded_at w b.
Proof. intros Ha Hr. induction Hr as [a|a x b Hax _ IH]; [done|]. apply IH. by apply Ha. Qed.

Lemma no_cycle w a : well_founded_at w a → ¬ tc (names w) a a.
Proof.
  induction 1 as [a _ IH]. intros Hc. inversion Hc as [? ? Ha|? b ? Hab Hba]; subst.
  - by apply (IH a Ha), tc_once.
  - apply (IH b Hab). by eapply tc_r.
Qed.

(** ** The visits *)

Definition is_done (visits : gmap string runCancelVisit) (id : string) : Prop :=
  ∃ v, visits !! id = Some v ∧ cv_visiting v = false ∧ cv_done v = true.

(** The runs the walk is below. *)
Definition path_of (visits : gmap string runCancelVisit) : gset string :=
  dom (filter (λ p, cv_visiting p.2 = true) visits).

Lemma elem_of_path visits id : id ∈ path_of visits ↔ ∃ v, visits !! id = Some v ∧ cv_visiting v = true.
Proof.
  unfold path_of. rewrite elem_of_dom. unfold is_Some. setoid_rewrite map_lookup_filter_Some. simpl. naive_solver.
Qed.

Lemma path_visiting visits id run : path_of (<[id := visiting run]> visits) = {[id]} ∪ path_of visits.
Proof.
  apply set_eq. intros x. rewrite elem_of_union, elem_of_singleton, !elem_of_path.
  destruct (decide (x = id)) as [->|Hne]; [rewrite lookup_insert_eq; naive_solver|]. rewrite lookup_insert_ne by done. naive_solver.
Qed.

Lemma path_visited visits id run : path_of (<[id := visited run]> visits) = path_of visits ∖ {[id]}.
Proof.
  apply set_eq. intros x. rewrite elem_of_difference, elem_of_singleton, !elem_of_path.
  destruct (decide (x = id)) as [->|Hne].
  - rewrite lookup_insert_eq. split; [by intros (v & [= <-] & Hv)|naive_solver].
  - rewrite lookup_insert_ne by done. naive_solver.
Qed.

Lemma path_not_done visits id : id ∈ path_of visits → ¬ is_done visits id.
Proof. rewrite elem_of_path. intros (v & Hv & H1) (v' & Hv' & H2 & _). congruence. Qed.

(** A run that is done is finished, and so are its children; it is not below itself. *)
Definition settled (w : World) (visits : gmap string runCancelVisit) : Prop :=
  ∀ id, is_done visits id → well_founded_at w id ∧ ∃ r, runs_of w !! id = Some r ∧ terminal r ∧
    ∀ c, c ∈ r_ChildRunIDs r → is_done visits (TrimSpace c).

Lemma settled_empty w : settled w ∅.
Proof. intros id [v [Hv _]]. by rewrite lookup_empty in Hv. Qed.

Lemma settled_kept w w' visits : kept w w' → settled w visits → settled w' visits.
Proof.
  intros Hk Hs id Hd. assert (∃ r', runs_of w' !! id = Some r' ∧ terminal r' ∧
    ∀ c, c ∈ r_ChildRunIDs r' → is_done visits (TrimSpace c)) as Hr'.
  { destruct (Hs id Hd) as (_ & r & Hr & Ht & Hc). destruct (Hk id r Hr) as (r' & Hr' & _ & Hkeep).
    destruct (Hkeep Ht) as [Hst Hch]. exists r'. split; [done|]. split; [unfold terminal in *; congruence|]. by rewrite Hch. }
  split; [|exact Hr']. clear Hr'. destruct (Hs id Hd) as [Hwf _]. induction Hwf as [id _ IH].
  constructor. intros b (r' & c & Hr' & Hc & ->). destruct (Hs id Hd) as (_ & r & Hr & Ht & Hch).
  destruct (Hk id r Hr) as (r2 & Hr2 & _ & Hkeep). destruct (Hkeep Ht) as [_ Hchildren].
  assert (r2 = r') as -> by congruence. rewrite Hchildren in Hc. apply IH; [by exists r, c|by apply Hch].
Qed.

Lemma is_done_insert visits id v x : ¬ is_done visits id → is_done visits x → is_done (<[id := v]> visits) x.
Proof.
  intros Hn (u & Hu & Hd). exists u. split; [|done]. rewrite lookup_insert_ne; [done|]. intros <-. apply Hn. by exists u.
Qed.

Lemma is_done_visiting visits id run x : is_done (<[id := visiting run]> visits) x → is_done visits x.
Proof. intros (u & [[<- <-]|[_ Hu]]%lookup_insert_Some & H1 & H2); [done|]. by exists u. Qed.

Lemma is_done_visited visits id run : is_done (<[id := visited run]> visits) id.
Proof. exists (visited run). by rewrite lookup_insert_eq. Qed.

Lemma settled_visiting w visits id run : ¬ is_done visits id → settled w visits → settled w (<[id := visiting run]> visits).
Proof.
  intros Hn Hs x Hd. apply is_done_visiting in Hd. destruct (Hs x Hd) as (Hwf & r & Hr & Ht & Hc). split; [done|]. exists r.
  split_and!; [done..|]. intros c Hin. apply is_done_insert; [done|by apply Hc].
Qed.

Lemma settled_visited w visits id run r :
  ¬ is_done visits id → settled w visits → runs_of w !! id = Some r → terminal r →
  (∀ c, c ∈ r_ChildRunIDs r → is_done visits (TrimSpace c)) → settled w (<[id := visited run]> visits).
Proof.
  intros Hn Hs Hr Ht Hc x Hd. destruct (decide (x = id)) as [->|Hne].
  - split; [|exists r; split_and!; [done..|]; intros c Hin; apply is_done_insert; [done|by apply Hc]].
    constructor. intros b (r' & c & Hr' & Hin & ->). assert (r' = r) as -> by congruence. by apply Hs, Hc.
  - destruct Hd as (u & Hu & Hd). rewrite lookup_insert_ne in Hu by done.
    destruct (Hs x) as (Hwf & r' & Hr' & Ht' & Hc'); [by exists u|]. split; [done|]. exists r'. split_and!; [done..|].
    intros c Hin. apply is_done_insert; [done|by apply Hc'].
Qed.

(** ** The walk *)

Section cancel.
Context `{CommitDigest} (ctx : Context).

(** What one call does to the store: nothing, or it cancels a paused run of which
    [P] holds. *)
Inductive cancel_step (P : World → RunRecord → Prop) (w w' : World) : Prop :=
  | cancel_none :
      runs_of w' = runs_of w → steps (execution (w_store w')) = steps (execution (w_store w)) → cancel_step P w w'
  | cancel_run id old now :
      runs_of w !! id = Some old → r_Status old = RunStatusPaused → (now ≤ w_clock w)%Z → P w old →
      runs_of w' = <[id := committed ctx (canceled now (cloneRunRecord old))]> (runs_of w) →
      steps (execution (w_store w')) = steps (execution (w_store w)) → cancel_step P w w'.

Lemma cancel_quiet P w w' : w_store w' = w_store w → cancel_step P w w'.
Proof. intros Hs. apply cancel_none; unfold runs_of; by rewrite Hs. Qed.

(** All children of the run are finished. *)
Definition children_finished (w : World) (old : RunRecord) : Prop :=
  ∀ c, c ∈ r_ChildRunIDs old → ∃ r, runs_of w !! TrimSpace c = Some r ∧ terminal r.

Section one.
Context {rely follow : World → World → Prop} `{!Discipline rely follow} (P : World → RunRecord → Prop).
Context (R : run_error → Prop) (HRc : ∀ l, R (ECommit l)) (HRm : R EMarshal) (HRn : ∀ r what, R (ENotAllowed r what)).

(** The end of a look at a run: it has ended, it is canceled, or the next look follows. *)
Lemma cancel_one_rule {B} id root old w (f : option RunRecord → service B) (Q : B → World → Prop) :
  sound_world w → looked id old w → r_RunID old = id → (r_Revision old < 2 ^ 64)%N → (epoch_of (leased old) < 2 ^ 64)%N →
  (terminal old → (root = true → r_Status old = RunStatusCanceled) →
     beside (λ X, @answer _ X) rely (cancel_step P) (f (Some (cloneRunRecord old))) (either Q R) w) →
  (∀ w1 w2 now, follow w w1 → (∃ w0, rely w0 w1) → runs_of w1 !! id = Some old → r_Status old = RunStatusPaused →
     runs_of w2 = <[id := committed ctx (canceled now (cloneRunRecord old))]> (runs_of w1) →
     deletions (execution (w_store w2)) = deletions (execution (w_store w1)) → sound_world w2 →
     P w1 old ∧ ∀ w3, follow w2 w3 →
       beside (λ X, @answer _ X) rely (cancel_step P) (f (Some (committed ctx (canceled now (cloneRunRecord old))))) (either Q R) w3) →
  (∀ w1, follow w w1 → beside (λ X, @answer _ X) rely (cancel_step P) (f None) (either Q R) w1) →
  beside (λ X, @answer _ X) rely (cancel_step P) (abind (cancel_one ctx root (cloneRunRecord old)) f) (either Q R) w.
Proof.
  intros Hw Hlook Hid Hrev Hep Hended Hwrite Hnone. unfold cancel_one.
  change (r_Status (cloneRunRecord old)) with (r_Status old).
  case_bool_decide as Hcan; [apply Hended; [unfold terminal; by rewrite Hcan|done]|].
  case_bool_decide as Hp; cbn [negb].
  2:{ destruct root; cbn [negb andb]; [intros ? _; apply HRn|].
      destruct (bool_decide (r_Status old = RunStatusCompleted) || bool_decide (r_Status old = RunStatusFailed)) eqn:Hend;
        [|intros ? _; apply HRn].
      apply Hended; [|done]. unfold terminal, isTerminalRunStatus. by rewrite Hend. }
  apply (beside_clock (cancel_step P) (cancel_quiet P) Q R w (λ now, abind (
    do! requestedEvent := buildEvent (canceled now (cloneRunRecord old)) EventRunCancelRequested None in
    do! canceledEvent := buildEvent (canceled now (cloneRunRecord old)) EventRunCanceled None in
    commit_update ctx (canceled now (cloneRunRecord old)) [requestedEvent; canceledEvent]) f)).
  intros w1 now Hf1 Hnow. set (run := canceled now (cloneRunRecord old)).
  apply beside_assoc, beside_event; [exact (cancel_quiet P)|done|]. intros w2 e1 Hf2.
  apply beside_assoc, beside_event; [exact (cancel_quiet P)|done|]. intros w3 e2 Hf3.
  assert (follow w w3) as Hf by (etrans; [exact Hf1|]; by etrans).
  assert (r_RunID run = id) as Hrun by exact Hid.
  apply (beside_commit (cancel_step P) (cancel_quiet P) Q R _ _ old); [done| |done|done|done| |].
  - rewrite Hrun. eapply looked_since; [exact Hlook|by apply d_since].
  - rewrite Hrun. intros w4 w5 Hf4 Hr Hold Hruns Hst Hdel Hw5.
    destruct (Hwrite w4 w5 now) as [HP Hf5]; [by etrans|done..|]. split; [|exact Hf5].
    eapply cancel_run; [exact Hold|done| |exact HP|exact Hruns|exact Hst].
    pose proof (s_clock _ _ (d_since _ _ Hf2)). pose proof (s_clock _ _ (d_since _ _ Hf3)). pose proof (s_clock _ _ (d_since _ _ Hf4)). lia.
  - intros w4 _ Hf4. apply Hnone. by etrans.
Qed.
End one.

Lemma cancel_kept w w' id old now :
  headroom (runs_of w) → runs_of w !! id = Some old → r_Status old = RunStatusPaused →
  runs_of w' = <[id := committed ctx (canceled now (cloneRunRecord old))]> (runs_of w) → kept w w'.
Proof.
  intros Hroom Hold Hp Hruns x r Hr. rewrite Hruns. destruct (decide (x = id)) as [->|Hne].
  - assert (r = old) as -> by congruence. eexists. rewrite lookup_insert_eq. split; [done|]. split.
    + right. cbn. rewrite next_revision_succ; [lia|]. exact (Hroom id old Hold).
    + unfold terminal. rewrite Hp. done.
  - rewrite lookup_insert_ne by done. exists r. split; [done|]. split; [by left|done].
Qed.

(** ** Beside any other processes

    Nothing is assumed of what the others do to the runs but that revisions have
    room: finished runs may be resumed, and runs deleted. *)

Definition roomy_others (w w' : World) : Prop := others w w' ∧ headroom (runs_of w').

#[export, refine] Instance roomy_discipline : Discipline roomy_others since := {}.
Proof. - intros w w' [Ho _]. by apply others_since. - apply quiet_store. - done. Defined.

(** What was read of a run stays known. *)
Definition grown (w w' : World) : Prop :=
  (sound_world w → sound_world w') ∧ ∀ id old, looked id old w → looked id old w'.

#[local] Instance grown_preorder : PreOrder grown.
Proof. split; [by split|]. intros a b c [H1 H2] [K1 K2]. split; eauto. Qed.

Lemma since_grown w w' : since w w' → grown w w'.
Proof. intros Hs. split; [by apply since_sound|]. intros id old Hl. by eapply looked_since. Qed.

Lemma cancel_grown w w' id old now :
  headroom (runs_of w) → runs_of w !! id = Some old → sound_world w' →
  runs_of w' = <[id := committed ctx (canceled now (cloneRunRecord old))]> (runs_of w) →
  deletions (execution (w_store w')) = deletions (execution (w_store w)) → grown w w'.
Proof.
  intros Hroom Hold Hw' Hruns Hdel. split; [done|]. intros x r [_ Hl]. split; [done|].
  destruct Hl as [[Hf Hn]|(r' & Hr' & Hl)]; [left|right].
  - split; [unfold fence; by rewrite Hdel|]. change (runs (execution (w_store w'))) with (runs_of w'). rewrite Hruns.
    rewrite lookup_insert_ne; [exact Hn|]. intros ->. unfold runs_of in Hold. congruence.
  - rewrite Hruns. destruct (decide (x = id)) as [->|Hne].
    + assert (r' = old) as -> by congruence. eexists. rewrite lookup_insert_eq. split; [done|]. trans old; [done|].
      right. cbn. rewrite next_revision_succ; [lia|]. exact (Hroom id old Hold).
    + rewrite lookup_insert_ne by done. by exists r'.
Qed.

Section any.
Abbreviation walks p := (beside (λ X, @answer _ X) roomy_others (cancel_step (λ _ _, True)) p).

Definition grows {A} (w : World) : result run_error A → World → Prop := either (λ _ w', grown w w') (λ _, True).

Definition grows_spec {A} (walk : string → gmap string runCancelVisit → service A) : Prop :=
  ∀ child visits w, sound_world w → walks (walk child visits) (grows w) w.

Lemma roomy_self_others w w' : roomy_others w w' → roomy_others w' w'.
Proof. by intros [_ Hr]. Qed.

Lemma ret_grows {A} (r : result run_error A) w : walks (Ret r) (grows w) w.
Proof. intros w1 Ho. destruct r; [|done]. cbn. apply since_grown. by apply (d_rely (follow := since)). Qed.

Lemma grows_trans {A} (r : result run_error A) w w1 w2 : grown w w1 → grows w1 r w2 → grows w r w2.
Proof. intros H1. destruct r; [|done]. cbn. intros H2. by trans w1. Qed.

Lemma children_grow walk run children visits w :
  grows_spec walk → sound_world w → walks (cancel_children walk run children visits) (grows w) w.
Proof.
  intros Hwalk. revert visits w. induction children as [|child children IH]; intros visits w Hw; cbn [cancel_children].
  { apply ret_grows. }
  unfold refused_unless. destruct (negb (bool_decide (TrimSpace child = ""))); cbn; [|by intros ? _].
  apply beside_bind; [exact roomy_self_others|]. eapply beside_mono; [|by apply Hwalk].
  intros [[run' v1]|e] w1; cbn; [|by intros _ ? _]. intros Hg.
  eapply beside_mono; [|apply IH; by apply Hg]. intros r w2. by apply grows_trans.
Qed.

Lemma loop_grows walk id parent root n visits w :
  (∀ run, grows_spec (walk run)) → sound_world w →
  walks (cancel_loop ctx walk id parent root n visits) (grows w) w.
Proof.
  intros Hwalk. revert visits w. induction n as [|n IH]; intros visits w Hw; cbn [cancel_loop]; [by intros ? _|].
  apply (beside_get (follow := since)); [exact (cancel_quiet _)|done|]. intros w1 old Hf1 _ Hold.
  assert (sound_world w1) as Hw1 by by eapply since_sound.
  destruct (wf_run _ (sw_wf _ Hw1) id old Hold) as [Hid Hep]. pose proof (sw_bounded _ Hw1 id old Hold) as Hrev. cbn in Hrev.
  unfold refused_unless. destruct (bool_decide (parent = "") || _); [cbn [abind pbind done]|by intros ? _].
  apply beside_do_ok; [exact roomy_self_others|]. eapply beside_mono; [|by apply children_grow].
  intros [v2|e] w2; cbn [either grows]; [|done]. intros [Hw2 Hl2]. specialize (Hw2 Hw1).
  assert (grown w w2) as Hg2 by (trans w1; [by apply since_grown|by split]).
  apply (cancel_one_rule (follow := since) (λ _ _, True) (λ _, True) (λ _, I) I (λ _ _, I) id); [done| |done..| | |].
  - apply Hl2. by apply looked_here.
  - intros _ _ w3 Ho3. cbn. trans w2; [done|]. apply since_grown. by apply (d_rely (follow := since)).
  - intros w3 w4 now Hf3 [w0 Hroom] Hold3 _ Hruns Hdel Hw4. split; [done|]. intros w5 Hf5 w6 Ho6. cbn.
    trans w2; [done|]. trans w3; [by apply since_grown|]. trans w4; [eapply cancel_grown; [apply Hroom|done..]|].
    trans w5; apply since_grown; [done|]. by apply (d_rely (follow := since)).
  - intros w3 Hf3. eapply beside_mono; [|apply IH; by eapply since_sound].
    intros r w4. apply grows_trans. trans w2; [done|]. by apply since_grown.
Qed.

Lemma cancel_grows fuel id parent root visits w :
  sound_world w → walks (cancelPausedRun ctx fuel id parent root visits) (grows w) w.
Proof.
  revert id parent root visits w. induction fuel as [|fuel IH]; intros id parent root visits w Hw; [by intros ? _|].
  cbn [cancelPausedRun]. destruct (visits !! id) as [v|].
  - destruct (cv_visiting v); [by intros ? _|]. destruct (cv_done v); [apply ret_grows|].
    apply loop_grows; [|done]. intros run child v' w'. apply IH.
  - apply loop_grows; [|done]. intros run child v' w'. apply IH.
Qed.
End any.

(** ** Beside processes that leave finished runs finished *)

Context {rely follow : World → World → Prop} `{!Discipline rely follow}.
Context (follow_kept : ∀ w w', follow w w' → kept w w') (rely_room : ∀ w w', rely w w' → headroom (runs_of w')).
Context (rely_self : ∀ w w', rely w w' → rely w' w').
Context (R : run_error → Prop) (HRs : ∀ e, R (EStore e)) (HRc : ∀ l, R (ECommit l)) (HRm : R EMarshal)
  (HRr : ∀ r what, R (ERefused r what)) (HRn : ∀ r what, R (ENotAllowed r what)) (HRt : ∀ what, R (ERetries what))
  (HRe : ∀ c r e, R e → R (EChild c r e)).
Context (D : gset string).

Abbreviation walks p := (beside (λ X, @answer _ X) rely (cancel_step children_finished) p).

(** Depth is left for the runs that are not on the path, unless running out of it is allowed. *)
Definition deep (fuel : nat) (path : gset string) : Prop :=
  R EFuel ∨ (∀ w w', rely w w' → dom (runs_of w') ⊆ D) ∧ path ⊆ D ∧ size (D ∖ path) < fuel.

(** From one state of the walk to a later one. *)
Record walked (w : World) (visits : gmap string runCancelVisit) (w' : World) (visits' : gmap string runCancelVisit) : Prop := {
  wk_kept : kept w w';
  wk_sound : sound_world w';
  wk_settled : settled w' visits';
  wk_path : path_of visits' = path_of visits;
  wk_done x : is_done visits x → is_done visits' x;
}.

Lemma walked_start w visits : sound_world w → settled w visits → walked w visits w visits.
Proof. by split. Qed.

Lemma walked_trans w1 v1 w2 v2 w3 v3 : walked w1 v1 w2 v2 → walked w2 v2 w3 v3 → walked w1 v1 w3 v3.
Proof. intros [A1 A2 A3 A4 A5] [B1 B2 B3 B4 B5]. split; [by etrans|done|done|congruence|auto]. Qed.

Lemma walked_follow w v w1 v1 w2 : walked w v w1 v1 → follow w1 w2 → walked w v w2 v1.
Proof.
  intros [A1 A2 A3 A4 A5] Hf. pose proof (follow_kept _ _ Hf) as Hk.
  split; [by etrans|by eapply since_sound; [apply d_since|]|by eapply settled_kept|done|done].
Qed.

(** What a walk below a run promises. *)
Definition walk_spec (fuel : nat) (walk : string → gmap string runCancelVisit → service (RunRecord * gmap string runCancelVisit)) : Prop :=
  ∀ child visits w, sound_world w → settled w visits → deep fuel (path_of visits) →
    walks (walk child visits) (either (λ p w', walked w visits w' p.2 ∧ is_done p.2 child) R) w.

Lemma children_walked fuel walk run children visits w :
  walk_spec fuel walk → sound_world w → settled w visits → deep fuel (path_of visits) →
  walks (cancel_children walk run children visits)
    (either (λ visits' w', walked w visits w' visits' ∧ ∀ c, c ∈ children → is_done visits' (TrimSpace c)) R) w.
Proof.
  intros Hwalk. revert visits w. induction children as [|child children IH]; intros visits w Hw Hs Hd; cbn [cancel_children].
  { intros w1 Ho. split; [|by intros c ?%elem_of_nil]. eapply walked_follow; [by apply walked_start|by apply d_rely]. }
  unfold refused_unless. destruct (negb (bool_decide (TrimSpace child = ""))); cbn; [|intros ? _; apply HRr].
  apply beside_bind; [exact rely_self|]. eapply beside_mono; [|by apply Hwalk].
  intros [[run' v1]|e] w1; cbn; [|intros He ? _; by apply HRe]. intros [Hk Hdone].
  assert (deep fuel (path_of v1)) as Hd1 by (by rewrite (wk_path _ _ _ _ Hk)).
  eapply beside_mono; [|by apply (IH v1 w1 (wk_sound _ _ _ _ Hk) (wk_settled _ _ _ _ Hk))].
  intros [v2|e] w2; cbn; [|done]. intros [Hk2 Hall]. split; [by eapply walked_trans|].
  intros c [->|Hin]%elem_of_cons; [by apply (wk_done _ _ _ _ Hk2)|by apply Hall].
Qed.

(** The run was read, and is as it was or later. *)
Definition read (id : string) (old : RunRecord) (w : World) : Prop :=
  ∃ r, runs_of w !! id = Some r ∧ later old r ∧ (terminal old → r_Status r = r_Status old ∧ r_ChildRunIDs r = r_ChildRunIDs old).

Lemma read_kept id old w w' : read id old w → kept w w' → read id old w'.
Proof.
  intros (r & Hr & Hl & Ht) Hk. destruct (Hk id r Hr) as (r' & Hr' & Hl' & Ht'). exists r'. split; [done|].
  split; [by trans r|]. intros Hold. destruct (Ht Hold) as [Hs Hc]. destruct Ht' as [Hs' Hc']; [unfold terminal in *; congruence|].
  split; congruence.
Qed.

Lemma read_looked id old w : read id old w → sound_world w → looked id old w.
Proof. intros (r & Hr & Hl & _) Hw. split; [done|]. right. by exists r. Qed.

(** The run has ended with the children it had. *)
Definition finished (root : bool) (id : string) (old run : RunRecord) (w : World) : Prop :=
  ∃ r, runs_of w !! id = Some r ∧ terminal r ∧ r_ChildRunIDs r = r_ChildRunIDs old ∧
    (root = true → r_Status run = RunStatusCanceled ∧ r_Status r = RunStatusCanceled).

Lemma finished_kept root id old run w w' : finished root id old run w → kept w w' → finished root id old run w'.
Proof.
  intros (r & Hr & Ht & Hc & Hs) Hk. destruct (Hk id r Hr) as (r' & Hr' & _ & Hkeep). destruct (Hkeep Ht) as [Hst Hch].
  exists r'. split; [done|]. split; [unfold terminal in *; congruence|]. split; [congruence|].
  intros Hroot. destruct (Hs Hroot). split; congruence.
Qed.

Lemma read_finished root id old w :
  read id old w → terminal old → (root = true → r_Status old = RunStatusCanceled) → finished root id old (cloneRunRecord old) w.
Proof.
  intros (r & Hr & _ & Hkeep) Ht Hroot. destruct (Hkeep Ht) as [Hs Hc]. exists r. split; [done|].
  split; [unfold terminal in *; congruence|]. split; [done|]. intros Hx. specialize (Hroot Hx). split; [done|congruence].
Qed.

Lemma cancel_one_beside {B} id root old visits w (f : option RunRecord → service B) (Q : B → World → Prop) :
  sound_world w → read id old w → r_RunID old = id → (r_Revision old < 2 ^ 64)%N → (epoch_of (leased old) < 2 ^ 64)%N →
  settled w visits → (∀ c, c ∈ r_ChildRunIDs old → is_done visits (TrimSpace c)) →
  (∀ run w', sound_world w' → kept w w' → finished root id old run w' → walks (f (Some run)) (either Q R) w') →
  (∀ w', sound_world w' → kept w w' → walks (f None) (either Q R) w') →
  walks (abind (cancel_one ctx root (cloneRunRecord old)) f) (either Q R) w.
Proof.
  intros Hw Hread Hid Hrev Hep Hset Hch Hsome Hnone.
  apply (cancel_one_rule children_finished R HRc HRm HRn id); [done|by apply read_looked|done..| | |].
  - intros Ht Hroot. apply Hsome; [done|done|]. by apply read_finished.
  - intros w1 w2 now Hf1 [w0 Hroom%rely_room] Hold Hp Hruns _ Hw2.
    assert (kept w w1) as Hk1 by by apply follow_kept. assert (kept w1 w2) as Hk2 by (by eapply cancel_kept).
    split.
    + intros c Hc. destruct (settled_kept _ _ _ Hk1 Hset _ (Hch c Hc)) as (_ & r & Hr & Ht & _). by exists r.
    + intros w3 Hf3. pose proof (follow_kept _ _ Hf3) as Hk3.
      apply Hsome; [by eapply since_sound; [apply d_since|]|etrans; [exact Hk1|]; by etrans|].
      eapply finished_kept; [|exact Hk3]. eexists. rewrite Hruns, lookup_insert_eq. done.
  - intros w1 Hf1. apply Hnone; [by eapply since_sound; [apply d_since|]|by apply follow_kept].
Qed.

(** What the walk of one run promises. *)
Record walked_run (root : bool) (id : string) (w : World) (visits : gmap string runCancelVisit)
    (p : RunRecord * gmap string runCancelVisit) (w' : World) : Prop := {
  wr_kept : kept w w';
  wr_sound : sound_world w';
  wr_settled : settled w' p.2;
  wr_path : path_of p.2 = path_of visits ∖ {[id]};
  wr_done x : is_done visits x → is_done p.2 x;
  wr_here : is_done p.2 id;
  wr_root : root = true → r_Status p.1 = RunStatusCanceled ∧ ∃ r, runs_of w' !! id = Some r ∧ r_Status r = RunStatusCanceled;
}.

Definition deep_below (fuel : nat) (id : string) (path : gset string) : Prop :=
  R EFuel ∨ (∀ w w', rely w w' → dom (runs_of w') ⊆ D) ∧ path ⊆ D ∧ (id ∈ D → size (D ∖ ({[id]} ∪ path)) < fuel).

Lemma deep_here fuel id path w0 w : deep_below fuel id path → rely w0 w → is_Some (runs_of w !! id) → deep fuel ({[id]} ∪ path).
Proof.
  intros [HF|(Hdom & Hsub & Hn)] Hrely Hid; [by left|right]. assert (id ∈ D) by (apply (Hdom _ _ Hrely), elem_of_dom, Hid).
  split; [done|]. split; [set_solver|auto].
Qed.

Lemma loop_walked fuel walk id parent root n visits w :
  (∀ run, walk_spec fuel (walk run)) → sound_world w → settled w visits → ¬ is_done visits id → deep_below fuel id (path_of visits) →
  walks (cancel_loop ctx walk id parent root n visits) (either (walked_run root id w visits) R) w.
Proof.
  intros Hwalk. revert visits w. induction n as [|n IH]; intros visits w Hw Hs Hnd Hd; cbn [cancel_loop]; [intros ? _; apply HRt|].
  apply beside_get; [exact (cancel_quiet _)|done|]. intros w1 old Hf1 [w0 Hrely] Hold.
  assert (sound_world w1) as Hw1 by (by eapply since_sound; [apply d_since|]). pose proof (follow_kept _ _ Hf1) as Hk1.
  destruct (wf_run _ (sw_wf _ Hw1) id old Hold) as [Hid Hep]. pose proof (sw_bounded _ Hw1 id old Hold) as Hrev. cbn in Hrev.
  unfold refused_unless. destruct (bool_decide (parent = "") || _); [cbn [abind pbind done]|intros ? _; apply HRr].
  change (r_ChildRunIDs (cloneRunRecord old)) with (r_ChildRunIDs old).
  set (v1 := <[id := visiting (cloneRunRecord old)]> visits).
  assert (settled w1 v1) as Hs1 by (apply settled_visiting; [done|by eapply settled_kept]).
  assert (path_of v1 = {[id]} ∪ path_of visits) as Hp1 by apply path_visiting.
  assert (deep fuel (path_of v1)) as Hd1 by (rewrite Hp1; eapply deep_here; eauto).
  apply beside_do_ok; [exact rely_self|]. eapply beside_mono; [|by apply (children_walked fuel)].
  intros [v2|e] w2; cbn [either]; [|done]. intros [[Hk2 Hw2 Hs2 Hp2 Hm2] Hch].
  assert (id ∈ path_of v2) as Hin by (rewrite Hp2, Hp1; set_solver).
  pose proof (path_not_done _ _ Hin) as Hnd2.
  assert (∀ x, is_done visits x → is_done v2 x) as Hmono by (intros x Hx; by apply Hm2, is_done_insert).
  assert (path_of visits ∖ {[id]} = path_of v2 ∖ {[id]}) as Hpath by (rewrite Hp2, Hp1; set_solver).
  apply (cancel_one_beside id root old v2); [done| |done|done|done|done|exact Hch| |].
  - eapply read_kept; [|exact Hk2]. exists old. split; [done|]. split; [by left|done].
  - intros run w3 Hw3 Hk3 Hfin w4 Hrely4. pose proof (follow_kept _ _ (d_rely _ _ Hrely4)) as Hk4.
    assert (kept w2 w4) as Hk24 by (by etrans).
    destruct (finished_kept _ _ _ _ _ _ Hfin Hk4) as (r & Hr & Ht & Hc & Hroot). split; cbn.
    + etrans; [exact Hk1|]. by etrans.
    + eapply since_sound; [apply d_since; by apply d_rely|done].
    + eapply settled_visited; [done|by eapply settled_kept|exact Hr|done|by rewrite Hc].
    + rewrite path_visited. congruence.
    + intros x Hx. apply is_done_insert; [done|by apply Hmono].
    + apply is_done_visited.
    + intros Hx. destruct (Hroot Hx). split; [done|]. by exists r.
  - intros w3 Hw3 Hk3. eapply beside_mono; [|apply (IH v2 w3 Hw3); [by eapply settled_kept|done|]].
    + intros [p|e] w4; cbn; [|done]. intros [B1 B2 B3 B4 B5 B6 B7].
      split; [|done|done|congruence|auto|done|done]. etrans; [exact Hk1|]. etrans; [exact Hk2|]. by etrans.
    + rewrite Hp2, Hp1. destruct Hd1 as [HF|(Hdom & Hsub & Hn)]; [by left|right].
      split; [done|]. rewrite Hp1 in *. split; [done|]. intros _.
      assert ({[id]} ∪ ({[id]} ∪ path_of visits) = {[id]} ∪ path_of visits) as -> by set_solver. done.
Qed.

(** What the walk of a run from outside promises. *)
Definition canceled_at (root : bool) (id : string) (run : RunRecord) (w : World) : Prop :=
  root = true → r_Status run = RunStatusCanceled ∧ ∃ r, runs_of w !! id = Some r ∧ r_Status r = RunStatusCanceled.

Lemma cancel_walked fuel id parent root visits w :
  sound_world w → settled w visits → deep fuel (path_of visits) → (root = true → visits = ∅) →
  walks (cancelPausedRun ctx fuel id parent root visits)
    (either (λ p w', walked w visits w' p.2 ∧ is_done p.2 id ∧ canceled_at root id p.1 w') R) w.
Proof.
  revert id parent root visits w. induction fuel as [|fuel IH]; intros id parent root visits w Hw Hs Hd Hroot.
  { intros ? _. destruct Hd as [HF|(_ & _ & Hn)]; [exact HF|lia]. }
  assert (∀ run : RunRecord, walk_spec fuel (λ child, cancelPausedRun ctx fuel child (r_RunID run) false)) as Hwalk.
  { intros run child v w1 Hw1 Hs1 Hd1. eapply beside_mono; [|by apply IH]. intros [p|e] w2; cbn; [|done]. by intros (B1 & B2 & _). }
  assert (∀ n, id ∉ path_of visits → ¬ is_done visits id →
    walks (cancel_loop ctx (λ run child, cancelPausedRun ctx fuel child (r_RunID run) false) id parent root n visits)
      (either (λ p w', walked w visits w' p.2 ∧ is_done p.2 id ∧ canceled_at root id p.1 w') R) w) as Hloop.
  { intros n Hnp Hnd. eapply beside_mono; [|apply (loop_walked fuel); [done..|]].
    - intros [p|e] w2; cbn; [|done]. intros [B1 B2 B3 B4 B5 B6 B7]. split; [|done]. split; [done|done|done| |done]. set_solver.
    - destruct Hd as [HF|(Hdom & Hsub & Hn)]; [by left|right]. split; [done|]. split; [done|]. intros HinD.
      assert (size (D ∖ ({[id]} ∪ path_of visits)) < size (D ∖ path_of visits)); [|lia]. apply subset_size. set_solver. }
  cbn [cancelPausedRun]. destruct (visits !! id) as [v|] eqn:Hv; cycle 1.
  { apply Hloop; [intros (v & Hv' & _)%elem_of_path; congruence|intros (v & Hv' & _); congruence]. }
  destruct (cv_visiting v) eqn:Hvis; [intros ? _; apply HRr|].
  assert (id ∉ path_of visits) as Hnp by (intros (v' & Hv' & Hx)%elem_of_path; congruence).
  destruct (cv_done v) eqn:Hdn; cycle 1.
  { apply Hloop; [done|]. intros (v' & Hv' & _ & Hd'). congruence. }
  intros w1 Hrely. split; [by eapply walked_follow; [apply walked_start|apply d_rely]|]. split; [by exists v|].
  intros Hx. rewrite (Hroot Hx) in Hv. done.
Qed.
End cancel.

(** ** A family that has settled *)

Lemma settled_below w visits a b : settled w visits → is_done visits a → rtc (names w) a b → is_done visits b.
Proof.
  intros Hs Ha Hr. induction Hr as [a|a x b (r & c & Hra & Hc & ->) _ IH]; [done|]. apply IH.
  destruct (Hs a Ha) as (_ & r' & Hr' & _ & Hch). apply Hch. by assert (r' = r) as -> by congruence.
Qed.

Section family.
Context `{CommitDigest}.

(** Others, as long as no run is lost, finished runs stay finished with the
    children they have, and revisions have room. *)
Record family_others (w w' : World) : Prop := {
  fo_others : others w w';
  fo_kept : kept w w';
  fo_room : headroom (runs_of w');
}.
Definition family_since (w w' : World) : Prop := since w w' ∧ kept w w'.

#[export, refine] Instance family_discipline : Discipline family_others family_since := {}.
Proof.
  - split; [by intros w; split|]. intros a b c [H1 H2] [H3 H4]. split; by etrans.
  - intros w w' [Ho Hk _]. split; [by apply others_since|done].
  - intros w w' Hs Hc Hi. split; [by apply quiet_store|]. apply kept_same. unfold runs_of. by rewrite Hs.
  - by intros w w' [Hs _].
Defined.

(** So, and no run is created outside a set. *)
Definition closed_others (D : gset string) (w w' : World) : Prop := family_others w w' ∧ dom (runs_of w') ⊆ D.

#[export, refine] Instance closed_discipline D : Discipline (closed_others D) family_since := {}.
Proof.
  - intros w w' [Ho _]. exact (@d_rely _ _ _ family_discipline w w' Ho).
  - exact (@d_quiet _ _ _ family_discipline).
  - exact (@d_since _ _ _ family_discipline).
Defined.

(** The error of a walk that ran out of fuel, at any depth. *)
Fixpoint out_of_fuel (e : run_error) : bool :=
  match e with EFuel => true | EChild _ _ e => out_of_fuel e | _ => false end.

(** C32: canceling a paused run cancels the whole family.  Whatever other processes do between its calls,
    resuming and deleting runs included, [CancelPausedRun] writes nothing but the cancellation of a run
    that is paused.  As long as nobody resumes, deletes or relinks a run that has finished, each of
    these writes is over a run all of whose children are finished at that moment, and when the call
    succeeds the run is canceled and no run below it is left unfinished, including children that were
    added meanwhile *)
Theorem cancel_family ctx fuel runID w :
  sound_world w →
  beside (λ X, @answer _ X) roomy_others (cancel_step ctx (λ _ _, True)) (CancelPausedRun ctx fuel runID) (λ _ _, True) w ∧
  beside (λ X, @answer _ X) family_others (cancel_step ctx children_finished) (CancelPausedRun ctx fuel runID)
    (λ r w', match r with
             | Ok run => r_Status run = RunStatusCanceled ∧
                 (∃ r, runs_of w' !! TrimSpace runID = Some r ∧ r_Status r = RunStatusCanceled) ∧
                 ∀ d, rtc (names w') (TrimSpace runID) d → ∃ r, runs_of w' !! d = Some r ∧ terminal r
             | Err _ => True
             end) w.
Proof.
  intros Hw. split.
  { apply beside_bind; [apply roomy_self_others|]. eapply beside_mono; [|by apply cancel_grows]. by intros [p|e] w' _ ? _. }
  set (Q := λ (run : RunRecord) w', r_Status run = RunStatusCanceled ∧
    (∃ r, runs_of w' !! TrimSpace runID = Some r ∧ r_Status r = RunStatusCanceled) ∧
    ∀ d, rtc (names w') (TrimSpace runID) d → ∃ r, runs_of w' !! d = Some r ∧ terminal r).
  eapply (beside_mono _ _ _ _ (either Q (λ _ : run_error, True))); [by intros [run|e] w'|].
  assert (∀ w w', family_others w w' → family_others w' w') as Hself by (intros ? ? [_ _ ?]; by split).
  apply beside_do_ok; [exact Hself|].
  pose proof (settled_empty w) as Hempty.
  eapply beside_mono; [|apply (cancel_walked ctx (rely := family_others) (follow := family_since)) with (R := λ _, True) (D := ∅); try done].
  - intros [p|e] w'; cbn; [|done]. intros (Hwk & Hd & Hroot) w1 Hrely.
    assert (settled w1 p.2) as Hs by (eapply settled_kept; [by apply fo_kept|by apply (wk_settled _ _ _ _ Hwk)]).
    destruct (Hroot eq_refl) as (Hrun & r & Hr & Hst). destruct (fo_kept _ _ Hrely _ _ Hr) as (r' & Hr' & _ & Hkeep).
    split; [done|]. split.
    + exists r'. split; [done|]. destruct Hkeep as [-> _]; [unfold terminal; by rewrite Hst|done].
    + intros d Hb. destruct (Hs d (settled_below _ _ _ _ Hs Hd Hb)) as (_ & rd & Hrd & Ht & _). by exists rd.
  - by intros ? ? [_ ?].
  - by intros ? ? [_ _ ?].
  - by left.
Qed.

(** C33: canceling ends, whatever the runs name as their children, themselves included.  As long as no run is
    created outside a set and nobody resumes, deletes or relinks a run that has finished, a walk with fuel
    for one more run than the set has never runs out of it.  It does not succeed on a cycle of children:
    when it succeeds, no run below the one that was canceled is its own descendant *)
Theorem cancel_ends ctx D runID w fuel :
  sound_world w → size D < fuel →
  beside (λ X, @answer _ X) (closed_others D) (cancel_step ctx children_finished) (CancelPausedRun ctx fuel runID)
    (λ r w', match r with
             | Ok _ => ∀ d, rtc (names w') (TrimSpace runID) d → ¬ tc (names w') d d
             | Err e => out_of_fuel e = false
             end) w.
Proof.
  intros Hw Hfuel. eapply (beside_mono _ _ _ _ (either (λ _ w', ∀ d, rtc (names w') (TrimSpace runID) d → ¬ tc (names w') d d)
    (λ e, out_of_fuel e = false))); [by intros [run|e] w'|].
  assert (∀ w w', closed_others D w w' → closed_others D w' w') as Hself by (intros ? ? [[_ _ ?] ?]; by split).
  apply beside_do_ok; [exact Hself|].
  pose proof (settled_empty w) as Hempty.
  eapply beside_mono; [|apply (cancel_walked ctx (rely := closed_others D) (follow := family_since)) with (R := λ e, out_of_fuel e = false) (D := D); try done].
  - intros [p|e] w'; cbn; [|done]. intros (Hwk & Hd & _) w1 [Hrely _] d Hb.
    assert (settled w1 p.2) as Hs by (eapply settled_kept; [by apply fo_kept|by apply (wk_settled _ _ _ _ Hwk)]).
    apply no_cycle. eapply well_founded_below; [by apply (Hs _ Hd)|done].
  - by intros ? ? [_ ?].
  - by intros ? ? [[_ _ ?] _].
  - right. split; [by intros ? ? [_ ?]|]. unfold path_of. rewrite map_filter_empty, dom_empty_L. split; [set_solver|].
    by rewrite difference_empty_L.
Qed.
End family.

(** ** A paused run with two children *)

Section demo.
#[local] Existing Instance demo_digest.

Definition paused (id parent status : string) (children : list string) : RunRecord :=
  MkRunRecord id 1 parent "" "" "" "" None "top" [] "" children [] None "" "" "" "" "" "" "" "" None status
    "" "" [] [] [] "" "" "" true false "" "" 0 0 None.

Definition world_of (l : list RunRecord) : World :=
  MkWorld (with_execution (MkStore (list_to_map (map (λ r, (r_RunID r, r)) l)) ∅ ∅) NewMemoryRuntimeStore) 30 0 [].

Definition demo_family : World :=
  world_of [paused "top" "" RunStatusPaused ["left"; "right"]; paused "left" "top" RunStatusPaused [];
            paused "right" "top" RunStatusCompleted []].

Lemma world_sound l :
  NoDup (map r_RunID l) → Forall (λ r, (r_Revision r < 2 ^ 64)%N ∧ r_ExecutionLease r = None) l → sound_world (world_of l).
Proof.
  intros Hnd Hl.
  assert (∀ id r, (list_to_map (map (λ r, (r_RunID r, r)) l) : gmap string RunRecord) !! id = Some r → r_RunID r = id ∧ r ∈ l) as Hin.
  { intros id r Hr%elem_of_list_to_map_2. apply list_elem_of_fmap in Hr as (x & [= -> ->] & Hx). done. }
  split; [split| |done]; cbn.
  - intros id r Hr. destruct (Hin _ _ Hr) as [Hid Hel]. split; [done|]. rewrite Forall_forall in Hl.
    destruct (Hl r Hel) as [_ He]. unfold epoch_of, leased. cbn. by rewrite He.
  - intros k t Hk. by apply lookup_empty_Some in Hk.
  - intros id r Hr. destruct (Hin _ _ Hr) as [_ Hel]. rewrite Forall_forall in Hl. by apply Hl.
Qed.

Lemma demo_family_sound : sound_world demo_family.
Proof. apply world_sound; [apply (bool_decide_unpack _); vm_compute; exact I|]. repeat constructor. Qed.

Definition roomy (w : World) : bool := bool_decide (headroom (runs_of w)).

Lemma roomy_self w : roomy w = true → family_others w w.
Proof. intros Hr%bool_decide_eq_true. split; [reflexivity|by apply kept_same|exact Hr]. Qed.

Definition demo_canceled : World * result run_error RunRecord :=
  run_with (λ X, @answer _ X) (CancelPausedRun Background 9 " top ") demo_family.

Example demo_canceled_runs :
  (λ r, (r_Status r, r_Revision r)) <$> runs_of demo_canceled.1
  = {["top" := (RunStatusCanceled, 2%N); "left" := (RunStatusCanceled, 2%N); "right" := (RunStatusCompleted, 1%N)]} ∧
  map (λ e, (v_RunID e, v_Type e)) (w_observed demo_canceled.1) =
    [("left", EventRunCancelRequested); ("left", EventRunCanceled); ("top", EventRunCancelRequested); ("top", EventRunCanceled)].
Proof. vm_compute. done. Qed.

Lemma cancel_family_witness :
  ∃ r, runs_of demo_canceled.1 !! "left" = Some r ∧ terminal r.
Proof.
  assert (along (λ X, @answer _ X) roomy (CancelPausedRun Background 9 " top ") demo_family = true) as Hroom
    by (vm_compute; reflexivity).
  pose proof (beside_sound _ _ _ _ _ _ _ _ (proj2 (cancel_family Background 9 " top " demo_family demo_family_sound))
    (run_beside _ family_others roomy _ _ roomy_self Hroom)) as Hs.
  fold demo_canceled in Hs. destruct demo_canceled as [w [run|e]] eqn:Hm; [|vm_compute in Hm; discriminate].
  destruct Hs as (_ & _ & Hall). apply Hall. apply rtc_once.
  destruct (runs_of w !! "top") as [r|] eqn:Hr; [|vm_compute in Hm; injection Hm as <- _; vm_compute in Hr; discriminate].
  exists r, "left". split; [exact Hr|]. split; [|reflexivity].
  vm_compute in Hm. injection Hm as <- _. vm_compute in Hr. injection Hr as <-. apply (bool_decide_unpack _). vm_compute. exact I.
Defined.

(** A run that is its own child. *)
Definition demo_cycle : World := world_of [paused "top" "" RunStatusPaused ["left"]; paused "left" "top" RunStatusPaused ["top"]].

Lemma demo_cycle_sound : sound_world demo_cycle.
Proof. apply world_sound; [apply (bool_decide_unpack _); vm_compute; exact I|]. repeat constructor. Qed.

Definition closed_room (D : gset string) (w : World) : bool := roomy w && bool_decide (dom (runs_of w) ⊆ D).

Lemma cancel_ends_witness :
  ∃ e, (run_with (λ X, @answer _ X) (CancelPausedRun Background 3 "top") demo_cycle).2 = Err e ∧ out_of_fuel e = false.
Proof.
  assert (along (λ X, @answer _ X) (closed_room {["top"; "left"]}) (CancelPausedRun Background 3 "top") demo_cycle = true) as Hroom
    by (vm_compute; reflexivity).
  assert (size ({["top"; "left"]} : gset string) < 3) as Hsize by (apply Nat.ltb_lt; vm_compute; reflexivity).
  pose proof (beside_sound _ _ _ _ _ _ _ _
    (cancel_ends Background {["top"; "left"]} "top" demo_cycle 3 demo_cycle_sound Hsize)
    (run_beside _ (closed_others {["top"; "left"]}) (closed_room {["top"; "left"]}) _ _
      (λ w Hw, conj (roomy_self w (proj1 (andb_prop _ _ Hw))) (bool_decide_unpack _ (Is_true_true_2 _ (proj2 (andb_prop _ _ Hw))))) Hroom)) as Hs.
  destruct (run_with _ _ _).2 as [run|e] eqn:Hm; [vm_compute in Hm; discriminate|]. exists e. split; [reflexivity|exact Hs].
Defined.
End demo.
