(* ===== verification/RunnerLease.v ===== *)
(** * How a runner holds a run: [runtime/graph_runner_lease.go]

    Acquiring, extending and giving back the execution lease of a run, each a loop
    of read and compare-and-swap with the code's limit on conflicts.  The heartbeats
    of the node tasks that an active execution holds besides are an argument; the
    goroutine that beats every few seconds is not modelled. *)

From stdpp Require Import pretty.
From S2P Require Import Prelude GoStrings Values Json Sensitive Lease Records RunStore Stores Artifacts Commit Transactions FileDisk FileStore FileTxn Recovery CommitResolve Programs RunServices Interference RunControl RunLost.

(** The fields of [GraphRunner] the leases need. *)
Record LeaseConfig := MkLeaseConfig { leaseOwnerID : string; leaseTTL : Z; leaseHeartbeat : Z }.

Definition seconds (n : Z) : Z := (n * 1000000000)%Z.

Definition executionLeaseOwnerID (r : LeaseConfig) : string :=
  if bool_decide (TrimSpace (leaseOwnerID r) = "") then "local-runner" else leaseOwnerID r.
Definition executionLeaseTTL (r : LeaseConfig) : Z := if (0 <? leaseTTL r)%Z then leaseTTL r else seconds 30.
Definition executionLeaseHeartbeatInterval (r : LeaseConfig) : Z :=
  if (0 <? leaseHeartbeat r)%Z then leaseHeartbeat r else seconds 10.

Section runner.
Context (r : LeaseConfig).

Definition newExecutionLease (previous : option ExecutionLease) (now : Z) (token : string) : ExecutionLease :=
  MkLease (executionLeaseOwnerID r) token (from_option (next_epoch ∘ Epoch) 1%N previous) LeaseActive now now
    (now + executionLeaseTTL r).

(** [executionLeaseGuard], whose guard is empty when the lease is not active. *)
Definition guard_of (run : RunRecord) : ExecutionLeaseGuard :=
  default (MkGuard "" "" 0) (executionLeaseGuard (leased run)).
Definition no_guard : ExecutionLeaseGuard := MkGuard "" "" 0.

(** One look of the loop of [acquireExecutionLease]; [None] after a conflict. *)
Definition acquire_once (ctx : Context) (runID : string) : service (option (RunRecord * ExecutionLeaseGuard)) :=
  do! run := get_run ctx runID in
  if bool_decide (is_Some (r_Deletion run)) then fail (ENotAllowed runID "reserved for deletion")
  else if isTerminalRunStatus (r_Status run) then done (Some (run, no_guard))
  else
    pbind (perform ReadClock) (λ now,
    if IsExecutionLeaseActive (leased run) now
    then fail (EHeld run (from_option OwnerID "" (r_ExecutionLease run)) (from_option ExpiresAt 0%Z (r_ExecutionLease run)))
    else
      pbind (perform NewRunnerID) (λ token,
      do! o := swap_run (withExecutionLeaseMutation ctx LeaseAcquire now)
                 (with_ExecutionLease (Some (newExecutionLease (r_ExecutionLease run) now token)) run) in
      done ((λ updated, (updated, guard_of updated)) <$> o))).

Definition acquireExecutionLease (ctx : Context) (runID : string) : service (RunRecord * ExecutionLeaseGuard) :=
  retry (ERetries "acquire execution lease") runRevisionRetryLimit (acquire_once ctx runID).

(** [validateExecutionLeaseGuard] of a run that was read. *)
Definition check_guard (run : RunRecord) (g : ExecutionLeaseGuard) : service unit :=
  match validateExecutionLeaseGuard (leased run) g with Ok _ => done tt | Err e => fail (EStore (SLease e)) end.

(** The third result tells whether the lease was acquired here. *)
Definition ensureExecutionLease (ctx : Context) (runID : string) : service (RunRecord * ExecutionLeaseGuard * bool) :=
  match context_guard (lease_context ctx) with
  | Some g =>
    if bool_decide (g_RunID g = runID) then
      do! run := get_run ctx runID in
      do! _ := check_guard run g in
      done (run, g, false)
    else do! p := acquireExecutionLease ctx runID in done (p.1, p.2, negb (bool_decide (g_RunID p.2 = "")))
  | None => do! p := acquireExecutionLease ctx runID in done (p.1, p.2, negb (bool_decide (g_RunID p.2 = "")))
  end.

(** The run of a guard, unless it is being deleted. *)
Definition guarded_run (ctx : Context) (g : ExecutionLeaseGuard) : service RunRecord :=
  do! run := get_run ctx (g_RunID g) in
  if bool_decide (is_Some (r_Deletion run)) then fail (ELeaseLost (g_RunID g)) else done run.

Definition beat (now : Z) (l : ExecutionLease) : ExecutionLease :=
  MkLease (OwnerID l) (Token l) (Epoch l) (Status l) (AcquiredAt l) now (now + executionLeaseTTL r).

(** The lease of the run that was read is changed by [f]; what follows after a
    success, with the time. *)
Definition change_lease (ctx : Context) (kind : lease_mutation) (f : Z → ExecutionLease → ExecutionLease) (after : Z → service unit)
    (g : ExecutionLeaseGuard) (run : RunRecord) : service (option unit) :=
  do! _ := check_guard run g in
  pbind (perform ReadClock) (λ now,
  do! o := swap_run (withExecutionLeaseMutation ctx kind now) (with_ExecutionLease (f now <$> r_ExecutionLease run) run) in
  match o with
  | Some _ => do! _ := after now in done (Some tt)
  | None => done None
  end).

(** [tasks] beats for the node tasks of the execution that is active. *)
Definition heartbeat_once (ctx : Context) (tasks : Z → service unit) (g : ExecutionLeaseGuard) : service (option unit) :=
  do! run := guarded_run ctx g in
  change_lease ctx LeaseHeartbeat beat tasks g run.

Definition heartbeatExecutionLease (ctx : Context) (tasks : Z → service unit) (g : ExecutionLeaseGuard) : service unit :=
  retry (ERetries "heartbeat execution lease") runRevisionRetryLimit (heartbeat_once ctx tasks g).

(** No execution is active. *)
Definition no_tasks (now : Z) : service unit := done tt.

(** The lease of the guard was given back before. *)
Definition given_back (run : RunRecord) (g : ExecutionLeaseGuard) : bool :=
  match r_ExecutionLease run with
  | Some l => bool_decide (Status l = LeaseReleased) && bool_decide (Token l = g_Token g) && (Epoch l =? g_Epoch g)%N
  | None => false
  end.

Definition release_once (ctx : Context) (g : ExecutionLeaseGuard) : service (option unit) :=
  do! run := guarded_run ctx g in
  if given_back run g then done (Some tt) else
  change_lease ctx LeaseRelease released_at no_tasks g run.

Definition releaseExecutionLease (ctx : Context) (g : ExecutionLeaseGuard) : service unit :=
  retry (ERetries "release execution lease") runRevisionRetryLimit (release_once ctx g).

(** [refreshRunAfterLease]: the run as it is now; when it cannot be read, the run
    that was at hand and one more error. *)
Definition refreshRunAfterLease (ctx : Context) (run : RunRecord) (leaseErr : list run_error) : prog run_call (RunRecord * list run_error) :=
  if bool_decide (TrimSpace (r_RunID run) = "") then Ret (run, leaseErr)
  else pbind (get_run (WithoutCancel ctx) (r_RunID run)) (λ x,
    match x with Ok latest => Ret (latest, leaseErr) | Err e => Ret (run, leaseErr ++ [e]) end).
End runner.

(** ** What the loops do beside other processes *)

Section safety.
Context `{CommitDigest} (r : LeaseConfig) (ctx : Context) (id : string).

(** The guard is accepted for the run. *)
Definition holds (run : RunRecord) (g : ExecutionLeaseGuard) : Prop := validateExecutionLeaseGuard (leased run) g = Ok tt.

(** One call leaves the store alone, or changes the lease of the run, and nothing
    else but its revision, as [P] says for the record before, the lease after and a
    time that has passed. *)
Inductive lease_write (P : RunRecord → ExecutionLease → Z → Prop) (w w' : World) : Prop :=
  | write_none :
      runs_of w' = runs_of w → steps (execution (w_store w')) = steps (execution (w_store w)) → lease_write P w w'
  | write_lease old l now :
      runs_of w !! id = Some old → r_Deletion old = None → (now ≤ w_clock w)%Z → P old l now →
      runs_of w' = <[id := stored_as (sanitizeRunRecord ctx (with_ExecutionLease (Some l) (cloneRunRecord old)))]> (runs_of w) →
      steps (execution (w_store w')) = steps (execution (w_store w)) → lease_write P w w'.

Lemma write_quiet P w w' : w_store w' = w_store w → lease_write P w w'.
Proof. intros Hs. apply write_none; unfold runs_of; by rewrite Hs. Qed.

(** A lease that takes over one that is not held: the next epoch, and no guard of
    the old lease is accepted any more. *)
Definition takes_over (old : RunRecord) (l : ExecutionLease) (now : Z) : Prop :=
  isTerminalRunStatus (r_Status old) = false ∧ IsExecutionLeaseActive (leased old) now = false ∧
  is_active l = true ∧ Epoch l = (epoch_of (leased old) + 1)%N ∧ ExpiresAt l = (now + executionLeaseTTL r)%Z ∧
  ∀ g, holds old g → ¬ holds (with_ExecutionLease (Some l) old) g.

Lemma holds_lease run g : holds run g → ∃ l, r_ExecutionLease run = Some l ∧ Epoch l = g_Epoch g ∧ is_active l = true.
Proof.
  unfold holds, validateExecutionLeaseGuard. intros Hg. result_inv. store_inv.
  match goal with Hm : guard_matches _ _ = true |- _ => unfold guard_matches, leased in Hm; simpl in Hm;
    apply andb_true_iff in Hm as [_ Hm] end.
  destruct (r_ExecutionLease run) as [l|]; [|done]. exists l.
  repeat match goal with Hm : _ && _ = true |- _ => apply andb_true_iff in Hm as [? ?] end.
  unfold is_active. split_and!; [done|by apply N.eqb_eq|done].
Qed.

(** The step from a record that was read to the one with its lease changed. *)
Lemma swap_write P w0 w w' old l now kind (run : RunRecord) :
  swapped_run (withExecutionLeaseMutation ctx kind now) old (with_ExecutionLease (Some l) (cloneRunRecord old)) w w' (Ok run) →
  r_RunID old = id → r_Deletion old = None → (now ≤ w_clock w0)%Z → (w_clock w0 ≤ w_clock w)%Z →
  (lease_step (leased old) (leased (with_ExecutionLease (Some l) old)) → P old l now) →
  (epoch_of (leased old) < 2 ^ 64)%N → lease_write P w w'.
Proof.
  intros Hsw Hid Hdel Hnow Hck HP Hep. inversion Hsw as [|out Hold Hout Htr Hruns Hst _]; subst.
  change (r_RunID (with_ExecutionLease (Some l) (cloneRunRecord old))) with (r_RunID old) in *. rewrite Hid in *.
  apply (write_lease _ _ _ old l now); [exact Hold|exact Hdel|lia| |exact Hruns|exact Hst].
  apply HP. split; [done|]. split; [done|]. eexists. exact Htr.
Qed.

Lemma takeover_holds old l now token :
  l = newExecutionLease r (r_ExecutionLease old) now token →
  isTerminalRunStatus (r_Status old) = false → IsExecutionLeaseActive (leased old) now = false →
  lease_step (leased old) (leased (with_ExecutionLease (Some l) old)) → takes_over old l now.
Proof.
  intros -> Hterm Hact Hstep. split; [done|]. split; [done|]. split; [done|].
  assert (Epoch (newExecutionLease r (r_ExecutionLease old) now token) = (epoch_of (leased old) + 1)%N) as He.
  { destruct Hstep as (_ & Hb & cx & Hv). unfold validateRunExecutionLeaseTransition in Hv. result_inv.
    match goal with Hn : validateExecutionLease (Lease (leased (with_ExecutionLease _ _))) = Ok ?u |- _ =>
      destruct u; apply valid_epoch in Hn; revert Hn end.
    unfold epoch_of, leased in *. cbn in *. destruct (r_ExecutionLease old) as [p|]; [|done]. cbn in *. intros Hn. by apply next_epoch_succ. }
  split; [done|]. split; [done|].
  intros g (p & Hp & Hg & _)%holds_lease (q & Hq & Hg' & _)%holds_lease. 
    assert (newExecutionLease r (r_ExecutionLease old) now token = q) as <- by exact (Some_inj _ _ Hq).
  unfold epoch_of, leased in He. cbn [Lease] in He. rewrite Hp in He, Hg'. lia.
Qed.

(** The states of a call: others work, calls leave the store alone, and it acquires. *)
Definition reaches : World → World → Prop := rtc (λ w w', since w w' ∨ lease_write takes_over w w').

(** The run and the guard that are returned: the run is finished and there is no
    guard, or at some moment of the call the store held this run, with the lease
    the guard is for, and since then only others have worked. *)
Definition acquired (w : World) (p : RunRecord * ExecutionLeaseGuard) (w' : World) : Prop :=
  isTerminalRunStatus (r_Status p.1) = true ∧ p.2 = no_guard ∨
  guard_matches (leased p.1) p.2 = true ∧ ∃ w0, reaches w w0 ∧ runs_of w0 !! id = Some p.1 ∧ others w0 w'.

(** C35: a run changes hands only when nobody holds it.  Whatever other processes do between its calls, each
    call of [acquireExecutionLease] leaves the store alone or gives the run, which is neither finished
    nor being deleted and whose lease is not active at a time that has passed, the lease of the next
    epoch; no guard that was accepted before is accepted after.  The guard it returns is that of a lease
    which it has stored: when it returns, the store has held the returned run, and only others have
    worked since; or the run is finished, and there is no guard *)
Theorem acquire_takeover w :
  sound_world w →
  beside (λ X, @answer _ X) others (lease_write takes_over) (acquireExecutionLease r ctx id)
    (λ x w', match x with Ok p => acquired w p w' | Err _ => True end) w.
Proof.
  intros Hw.
  eapply (beside_mono _ _ _ _ (either (acquired w) (λ _ : run_error, True))); [by intros [p|e] w'|].
  apply beside_retry with (J := λ w1, sound_world w1 ∧ reaches w w1); [done| |done| |by split].
  { intros p w1 w2 [Hp|(Hg & w0 & Hr & Hrun & Ho)] Ho2; [by left|right]. split; [done|]. exists w0. split_and!; [done..|by etrans]. }
  intros w0 [Hw0 Hr0]. assert (∀ w1, since w0 w1 → reaches w w1) as Hsince.
  { intros w1 Hs. eapply rtc_r; [exact Hr0|by left]. }
  apply (beside_get (lease_write takes_over) (write_quiet _)); [done|]. intros w1 old Hs1 _ Hold.
  assert (sound_world w1) as Hw1 by (by eapply since_sound).
  destruct (wf_run _ (sw_wf _ Hw1) id old Hold) as [Hid Hep]. pose proof (sw_bounded _ Hw1 id old Hold) as Hrev. cbn in Hrev.
  change (r_Status (cloneRunRecord old)) with (r_Status old).
  case_bool_decide as Hdel; [by intros ? _|].
  assert (r_Deletion old = None) as Hnone by (destruct (r_Deletion old) eqn:Hd; [|done]; destruct Hdel; cbn; rewrite Hd; by eexists).
  destruct (isTerminalRunStatus (r_Status old)) eqn:Hterm; [intros ? _; by left|].
  apply (beside_clock (lease_write takes_over) (write_quiet _)). intros w2 now Hs2 Hnow.
  change (leased (cloneRunRecord old)) with (leased old). change (r_ExecutionLease (cloneRunRecord old)) with (r_ExecutionLease old).
  destruct (IsExecutionLeaseActive (leased old) now) eqn:Hact; [by intros ? _|].
  apply (beside_id (lease_write takes_over) (write_quiet _)). intros w3 token Hs3.
  assert (since w1 w3) as Hs by (by etrans). set (l := newExecutionLease r (r_ExecutionLease old) now token).
  eapply (beside_swap (lease_write takes_over) (write_quiet _)) with (old := old); [done| |done|done| | |].
  - change (looked (r_RunID old) old w3). rewrite Hid. eapply looked_since; [by apply looked_here|done].
  - cbn. unfold epoch_of, leased in Hep. destruct (r_ExecutionLease old) as [p|]; [|done]. cbn. apply N.mod_lt. done.
  - intros w4 w5 Hs4 Hsw Hw5. assert (lease_write takes_over w4 w5) as Hwrite.
    { eapply (swap_write _ w2); [exact Hsw|exact Hid|exact Hnone|exact Hnow| | |exact Hep].
      - pose proof (s_clock _ _ Hs3). pose proof (s_clock _ _ Hs4). lia.
      - intros Hstep. by eapply takeover_holds. }
    split; [exact Hwrite|]. intros w6 Ho6. right. split.
    + cbn. unfold guard_of, guard_matches, executionLeaseGuard, leased. cbn.
      rewrite !bool_decide_true by done. by rewrite N.eqb_refl.
    + exists w5. split; [|split; [|exact Ho6]].
      * eapply rtc_r; [apply (Hsince w4)|by right]. etrans; [exact Hs1|]. by etrans.
      * inversion Hsw as [|out _ Hout _ Hruns]; subst. rewrite Hruns.
        change (r_RunID (with_ExecutionLease (Some l) (cloneRunRecord old))) with (r_RunID old). rewrite Hid. apply lookup_insert_eq.
  - intros w4 Hs4 w5 Ho5. cbn. assert (since w0 w5) as H5.
    { etrans; [exact Hs1|]. etrans; [exact Hs|]. etrans; [exact Hs4|]. by apply others_since. }
    split; [by eapply since_sound|by apply Hsince].
Qed.
End safety.

Section holder.
Context `{CommitDigest} (r : LeaseConfig) (ctx : Context) (g : ExecutionLeaseGuard).

(** The holder of the guard changes its own lease. *)
Definition renews (f : Z → ExecutionLease → ExecutionLease) (old : RunRecord) (l : ExecutionLease) (now : Z) : Prop :=
  holds old g ∧ ∃ p, r_ExecutionLease old = Some p ∧ l = f now p.

Abbreviation renewing f := (lease_write ctx (g_RunID g) (renews f)).

(** One look of the two loops, after the run was read. *)
Lemma renew_once (f : Z → ExecutionLease → ExecutionLease) kind after old w :
  sound_world w → runs_of w !! g_RunID g = Some old → r_Deletion old = None → (∀ now p, Epoch (f now p) = Epoch p) →
  (∀ now w, sound_world w → beside (λ X, @answer _ X) others (renewing f) (after now) (λ _ _, True) w) →
  beside (λ X, @answer _ X) others (renewing f) (change_lease ctx kind f after g (cloneRunRecord old))
    (either (λ (o : option unit) w, match o with Some _ => True | None => sound_world w end) (λ _ : run_error, True)) w.
Proof.
  intros Hw Hold Hdel Hf Hafter. destruct (wf_run _ (sw_wf _ Hw) _ old Hold) as [Hid Hep].
  pose proof (sw_bounded _ Hw _ old Hold) as Hrev. cbn in Hrev.
  unfold change_lease, check_guard. change (leased (cloneRunRecord old)) with (leased old).
  destruct (validateExecutionLeaseGuard (leased old) g) as [[]|e] eqn:Hg; [|by intros ? _]. cbn [abind pbind done].
  apply (beside_clock (renewing f) (write_quiet _ _ _)). intros w1 now Hs1 Hnow.
  change (r_ExecutionLease (cloneRunRecord old)) with (r_ExecutionLease old).
  destruct (holds_lease old g Hg) as (p & Hp & _ & _). rewrite Hp. cbn [fmap option_fmap option_map].
  eapply (beside_swap (renewing f) (write_quiet _ _ _)) with (old := old); [done| |done|done| | |].
  - change (looked (r_RunID old) old w1). rewrite Hid. eapply looked_since; [by apply looked_here|done].
  - cbn. rewrite Hf. unfold epoch_of, leased in Hep. cbn [Lease] in Hep. by rewrite Hp in Hep.
  - intros w2 w3 Hs2 Hsw Hw3. split.
    + eapply (swap_write ctx _ _ w1); [exact Hsw|exact Hid|exact Hdel|exact Hnow|exact (s_clock _ _ Hs2)| |exact Hep].
      intros _. split; [exact Hg|]. by exists p.
    + apply beside_do_ok; [done|]. eapply beside_mono; [|by apply Hafter]. by intros [[]|e] w4 _; [intros ? _|].
  - intros w2 Hs2 w3 Ho3. cbn. eapply since_sound; [|exact Hw]. etrans; [exact Hs1|]. etrans; [exact Hs2|]. by apply others_since.
Qed.

Lemma guarded_run_beside {B} guar (quiet : ∀ w w', w_store w' = w_store w → guar w w') (f : RunRecord → service B) Q w :
  sound_world w →
  (∀ w1 old, sound_world w1 → runs_of w1 !! g_RunID g = Some old → r_Deletion old = None →
     beside (λ X, @answer _ X) others guar (f (cloneRunRecord old)) (either Q (λ _ : run_error, True)) w1) →
  beside (λ X, @answer _ X) others guar (abind (guarded_run ctx g) f) (either Q (λ _ : run_error, True)) w.
Proof.
  intros Hw Hf. unfold guarded_run. apply beside_assoc. apply (beside_get guar quiet); [done|]. intros w1 old Hs1 _ Hold.
  case_bool_decide as Hdel; [by intros ? _|]. apply Hf; [by eapply since_sound|done|].
  destruct (r_Deletion old) eqn:Hd; [|done]. destruct Hdel. cbn. rewrite Hd. by eexists.
Qed.

(** Only the holder extends a lease or gives it back.  Whatever other processes do between their calls,
    [heartbeatExecutionLease] and [releaseExecutionLease] write the run only over a record that accepts
    the guard they were given and is not being deleted, and change nothing of it but the times or the
    status of that lease, provided the heartbeats of node tasks do so *)
Theorem lease_holder tasks w :
  sound_world w →
  (∀ now w, sound_world w → beside (λ X, @answer _ X) others (renewing (beat r)) (tasks now) (λ _ _, True) w) →
  beside (λ X, @answer _ X) others (renewing (beat r)) (heartbeatExecutionLease r ctx tasks g) (λ _ _, True) w ∧
  beside (λ X, @answer _ X) others (renewing released_at) (releaseExecutionLease ctx g) (λ _ _, True) w.
Proof.
  intros Hw Htasks. split; eapply (beside_mono _ _ _ _ (either (λ _ _, True) (λ _ : run_error, True))); try (by intros);
    apply beside_retry with (J := sound_world); try done; clear w Hw; intros w Hw;
    (eapply guarded_run_beside; [apply write_quiet|done|]); intros w1 old Hw1 Hold Hdel.
  - by apply renew_once.
  - destruct (given_back (cloneRunRecord old) g); [by intros ? _|]. apply renew_once; [done..|]. by intros now w2 Hw2 ? _.
Qed.
End holder.

(** ** The run of the worker that went away *)

Section demo.
#[local] Existing Instance demo_digest.

Definition demo_config : LeaseConfig := MkLeaseConfig " " 0 0.

Definition demo_acquired : World * result run_error (RunRecord * ExecutionLeaseGuard) :=
  run_with (λ X, @answer _ X) (acquireExecutionLease demo_config Background "run-1") demo_lost.

(** The lease of epoch 1 ended at 20; the new one lasts thirty seconds. *)
Lemma acquire_takeover_witness :
  ∃ run g, demo_acquired.2 = Ok (run, g) ∧ guard_matches (leased run) g = true ∧
    r_ExecutionLease run = Some (MkLease "local-runner" "id-0" 2 LeaseActive 30 30 (30 + seconds 30)).
Proof.
  pose proof (beside_sound _ _ _ _ _ _ _ _ (acquire_takeover demo_config Background "run-1" demo_lost demo_lost_sound)
    (run_beside_refl _ others _ _ (λ w, reflexivity w))) as Hs.
  fold demo_acquired in Hs. destruct demo_acquired as [w [[run g]|e]] eqn:Hm; [|vm_compute in Hm; discriminate].
  exists run, g. split; [reflexivity|]. destruct Hs as [[Ht _]|[Hg _]].
  - vm_compute in Hm. injection Hm as _ <- _. vm_compute in Ht. discriminate.
  - split; [exact Hg|]. vm_compute in Hm. injection Hm as _ <- _. reflexivity.
Defined.

(** The first worker comes back late: it still holds the lease, and gives it back. *)
Definition demo_guard : ExecutionLeaseGuard := MkGuard "run-1" "token-1" 1.

Lemma lease_holder_witness :
  sound_world demo_lost ∧
  beside (λ X, @answer _ X) others (lease_write Background "run-1" (renews demo_guard released_at))
    (releaseExecutionLease Background demo_guard) (λ _ _, True) demo_lost ∧
  Status <$> (runs_of (run_with (λ X, @answer _ X) (releaseExecutionLease Background demo_guard) demo_lost).1 !! "run-1"
    ≫= r_ExecutionLease) = Some LeaseReleased ∧
  (run_with (λ X, @answer _ X) (heartbeatExecutionLease demo_config Background no_tasks demo_guard) demo_acquired.1).2
  = Err (EStore (SLease (LLost "run-1"))).
Proof.
  split; [exact demo_lost_sound|].
  split; [exact (proj2 (lease_holder demo_config Background demo_guard no_tasks demo_lost demo_lost_sound ltac:(by intros now w Hw ? _)))|].
  split; vm_compute; reflexivity.
Defined.
End demo.
