(* ===== verification/DeletionPlan.v ===== *)
(** * The deletion of a run and its descendants: [runtime/run_deletion.go]

    [RunDeletionCoordinator] works through calls to stores that other processes
    use at the same time, and may stop between any two of them.  It is a program
    over those calls: what the calls do is given separately, so that the program
    can be run on a store, or against arbitrary answers.

    Stores are named, where [sameRunDeletionStore] compares pointers.  The loops on
    revision conflicts are the code's, with its limit; the walk of the hierarchy
    has fuel for its depth. *)

From stdpp Require Import pretty.
From S2P Require Import Prelude GoStrings Values Json Sensitive Lease Records RunStore Stores Artifacts Commit Programs.

(** ** Calls and programs *)

(** The calls of the coordinator: on the execution store, the stores it deletes
    from, the clock and the source of identifiers. *)
Inductive call : Type → Type :=
  | CGetRun (ctx : Context) (runID : string) : call (result store_error RunRecord)
  | CCompareAndSwap (ctx : Context) (expected : N) (run : RunRecord) : call (result store_error RunRecord)
  | CListRuns (ctx : Context) (filter_ : RunFilter) : call (result store_error (list RunRecord))
  | CFence (ctx : Context) (store : string) (runID deletionID : string) : call (result store_error unit)
  | CDelete (ctx : Context) (store : string) (runID : string) : call (result store_error unit)
  | CValidateFences (ctx : Context) : call (result store_error unit)
  | CLoadManifest (ctx : Context) (id : string) : call (result store_error RunDeletionManifest)
  | CListManifests (ctx : Context) : call (result store_error (list RunDeletionManifest))
  | CSaveManifest (ctx : Context) (m : RunDeletionManifest) : call (result store_error unit)
  | CNow : call Z
  | CNewID : call string.

(** The errors; [DWrap] and [DRetries] wrap a store's error. *)
Inductive del_error :=
  | DStore (e : store_error)
  | DWrap (what run : string) (e : store_error)
  | DRetries (what : string)
  | DRefused (run what : string)
  | DUnsupported (what : string)
  | DDepth.

Definition is_not_found (e : store_error) : bool := match e with SNotFound _ => true | _ => false end.

(** [errors.Is(err, ErrRunRevisionConflict)]. *)
Definition wraps_conflict (e : del_error) : bool :=
  match e with DStore e | DWrap _ _ e => is_conflict e | DRetries _ => true | _ => false end.

Abbreviation action A := (prog call (result del_error A)).

(** [if err != nil { return err }] for a check, with the error as it is or wrapped. *)
Definition check {A} (m : result store_error A) : action A :=
  Ret (match m with Ok a => Ok a | Err e => Err (DStore e) end).
Definition check_as {A} (what run : string) (m : result store_error A) : action A :=
  Ret (match m with Ok a => Ok a | Err e => Err (DWrap what run e) end).
Definition deny (run what : string) (bad : bool) : action unit :=
  if bad then fail (DRefused run what) else done tt.

Definition get_run (ctx : Context) (runID : string) : action RunRecord :=
  pbind (perform (CGetRun ctx runID)) check.

(** A write of a run under a deletion: [None] after a conflict. *)
Definition swap_run (ctx : Context) (what : string) (run : RunRecord) : action (option RunRecord) :=
  pbind (perform (CCompareAndSwap ctx (r_Revision run) run)) (λ r,
    match r with
    | Ok updated => done (Some updated)
    | Err e => if is_conflict e then done None else fail (DWrap what (r_RunID run) e)
    end).

(** ** The coordinator *)

Record RunDeletionCoordinator := MkCoordinator {
  executionStore : string;
  checkpointStore : option string;
  eventStore : option string;
  artifactStore : option string;
  (* What the stores implement: [RunDeletionFencer] by each, the manifests, the
     scan of fences and the listing of runs by the execution store. *)
  is_fencer : string → bool;
  has_manifests : bool;
  has_scanner : bool;
  has_listing : bool;
}.

(** One auxiliary store is added unless it is nil, the execution store or there already. *)
Definition add_store (execution : string) (stores : list string) (target : option string) : list string :=
  match target with
  | None => stores
  | Some s => if bool_decide (s = execution) || bool_decide (s ∈ stores) then stores else stores ++ [s]
  end.

Definition uniqueRunDeletionStores (c : RunDeletionCoordinator) : list string :=
  fold_left (add_store (executionStore c)) [checkpointStore c; artifactStore c; eventStore c] [] ++ [executionStore c].

Definition validateDeletionStores (c : RunDeletionCoordinator) : action unit :=
  each (λ s, deny s "run deletion fencing" (negb (is_fencer c s))) (uniqueRunDeletionStores c).

Definition deletionManifestFromState (d : RunDeletionState) (now : Z) : RunDeletionManifest :=
  MkManifest (d_ID d) (d_RootRunID d) (d_ParentRunID d) (d_Phase d) (elems (d_RunIDs d)) now now.

Definition manifestContainsRun (m : RunDeletionManifest) (runID : string) : bool := bool_decide (runID ∈ m_RunIDs m).

(** [validateRunDeletionManifestMatchesRun]. *)
Definition validateRunDeletionManifestMatchesRun (m : RunDeletionManifest) (run : RunRecord) : action unit :=
  match r_Deletion run with
  | None => fail (DRefused (r_RunID run) "deletion manifest root run")
  | Some d =>
    do! _ := deny (r_RunID run) "deletion manifest root run" (negb (bool_decide (m_RootRunID m = r_RunID run))) in
    do! _ := deny (r_RunID run) "deletion manifest root run identity"
               (negb (bool_decide (d_ID d = m_ID m)) || negb (bool_decide (d_RootRunID d = m_RootRunID m))
                || negb (bool_decide (d_ParentRunID d = m_ParentRunID m))) in
    do! _ := deny (r_RunID run) "deletion manifest root run plan"
               (negb (bool_decide (elems (d_RunIDs d) = [])) && negb (bool_decide (elems (d_RunIDs d) = m_RunIDs m))) in
    deny (r_RunID run) "deletion manifest root phase"
      (if bool_decide (m_Phase m = RunDeletionPlanned)
       then negb (bool_decide (d_Phase d ∈ [RunDeletionPlanned; RunDeletionUnlinked]))
       else if bool_decide (m_Phase m = RunDeletionUnlinked) then negb (bool_decide (d_Phase d = RunDeletionUnlinked))
       else false)
  end.

(** ** The plan *)

(** Whether a reservation has a plan or a later phase. *)
Definition unplanned (d : RunDeletionState) : bool :=
  bool_decide (d_Phase d = RunDeletionReserved) && bool_decide (elems (d_RunIDs d) = []).

(** How often the parent names the run. *)
Definition link_count (parent : RunRecord) (runID : string) : nat :=
  length (filter (λ c, c = runID) (r_ChildRunIDs parent))
  + length (filter (λ p, p_ChildRunID p = runID) (r_PendingChildRuns parent)).

Definition validateRequestedRunDeletionParent (ctx : Context) (root : RunRecord) : action unit :=
  if bool_decide (r_ParentRunID root = "")
  then deny (r_RunID root) "declared root run" (negb (bool_decide (r_RootRunID root = r_RunID root)))
  else
    pbind (perform (CGetRun ctx (r_ParentRunID root))) (λ r,
    do! parent := check_as "load parent run" (r_ParentRunID root) r in
    do! _ := deny (r_RunID parent) "parent lookup" (negb (bool_decide (r_RunID parent = r_ParentRunID root))) in
    do! _ := if isTerminalRunStatus (r_Status parent) then done tt
             else fail (DWrap "parent must be terminal" (r_RunID root) (SNotAllowed (r_RunID parent))) in
    do! _ := deny (r_RunID root) "root of the parent" (negb (bool_decide (r_RootRunID parent = r_RootRunID root))) in
    let childCount := link_count parent (r_RunID root) in
    do! _ := deny (r_RunID root) "child link count"
               ((1 <? childCount) || ((childCount =? 0) && negb (bool_decide (is_Some (r_Deletion root)))))%nat in
    match r_Deletion parent with
    | None => done tt
    | Some d =>
      do! _ := check_as "parent deletion state" (r_RunID parent) (validateRunDeletionState (Some d)) in
      do! _ := deny (r_RunID root) "parent is reserved" (negb (bool_decide (is_Some (r_Deletion root)))) in
      deny (r_RunID root) "parent deletion was planned" (negb (unplanned d))
    end).

(** [reserveRunDeletion] of one planned run; a run that is gone needs no reservation. *)
Definition reserveRunDeletion (ctx : Context) (runID deletionID rootID : string) : action unit :=
  retry (DRetries "reserve run deletion") runRevisionRetryLimit (
    pbind (perform (CGetRun ctx runID)) (λ r,
    match r with
    | Err e => if is_not_found e then done (Some tt) else fail (DStore e)
    | Ok run =>
      do! _ := check (validateRunDeletionStatus run) in
      match r_Deletion run with
      | Some d =>
        do! _ := check_as "deletion state" runID (validateRunDeletionState (Some d)) in
        do! _ := deny runID "reserved by another deletion" (negb (bool_decide (d_ID d = deletionID))) in
        do! _ := deny runID "reserved for another root" (negb (bool_decide (d_RootRunID d = rootID))) in
        done (Some tt)
      | None =>
        let next := with_Deletion (Some (MkDeletion deletionID rootID "" RunDeletionReserved None)) run in
        do! o := swap_run (withRunDeletionMutation ctx deletionID) "reserve run for deletion" next in
        done ((λ _, tt) <$> o)
      end
    end)).

Definition reserveRunDeletionPlan (ctx : Context) (deletionID rootID : string) (runIDs : list string) : action unit :=
  each (λ runID, if bool_decide (runID = rootID) then done tt else reserveRunDeletion ctx runID deletionID rootID) runIDs.

Definition with_phase (phase : string) (d : RunDeletionState) : RunDeletionState :=
  MkDeletion (d_ID d) (d_RootRunID d) (d_ParentRunID d) phase (d_RunIDs d).
Definition with_plan (plan : list string) (d : RunDeletionState) : RunDeletionState :=
  MkDeletion (d_ID d) (d_RootRunID d) (d_ParentRunID d) RunDeletionPlanned (Some plan).

Definition persistRunDeletionPlan (ctx : Context) (rootID deletionID : string) (runIDs : list string) : action RunDeletionState :=
  do! _ := check (validateRunDeletionPlan rootID runIDs) in
  retry (DRetries "persist run deletion plan") runRevisionRetryLimit (
    do! root := get_run ctx rootID in
    match r_Deletion root with
    | None => fail (DRefused rootID "reservation changed before plan persistence")
    | Some d =>
      do! _ := deny rootID "reservation changed before plan persistence" (negb (bool_decide (d_ID d = deletionID))) in
      if negb (bool_decide (elems (d_RunIDs d) = [])) then
        do! _ := deny rootID "deletion plan changed" (negb (bool_decide (elems (d_RunIDs d) = runIDs))) in done (Some d)
      else
        let d := with_plan runIDs d in
        do! o := swap_run (withRunDeletionMutation ctx deletionID) "persist run deletion plan" (with_Deletion (Some d) root) in
        done ((λ _, d) <$> o)
    end).

(** ** The hierarchy *)

(** [visiting], [visited], [result] and [lineageRootID] of [collectDescendantRunIDs]. *)
Record walk := MkWalk { w_visiting : gset string; w_visited : gset string; w_result : list string; w_lineage : string }.

Definition leave (runID : string) (w : walk) : walk :=
  MkWalk (w_visiting w ∖ {[runID]}) ({[runID]} ∪ w_visited w) (w_result w ++ [runID]) (w_lineage w).
Definition enter (runID : string) (w : walk) : walk :=
  MkWalk ({[runID]} ∪ w_visiting w) (w_visited w) (w_result w) (w_lineage w).
Definition missing_child (runID : string) (w : walk) : walk :=
  MkWalk (w_visiting w) ({[runID]} ∪ w_visited w) (w_result w ++ [runID]) (w_lineage w).
Definition with_lineage (root : string) (w : walk) : walk :=
  MkWalk (w_visiting w) (w_visited w) (w_result w) root.

(** The checks on a loaded run; the requested root sets the lineage. *)
Definition check_lineage (w : walk) (runID parentRunID : string) (requestedRoot : bool) (loaded : RunRecord) : action walk :=
  if requestedRoot then
    do! _ := check_as "root lineage" runID (storage_id "root run ID" (r_RootRunID loaded)) in
    do! _ := deny runID "declared root run" (bool_decide (r_ParentRunID loaded = "") && negb (bool_decide (r_RootRunID loaded = runID))) in
    done (with_lineage (r_RootRunID loaded) w)
  else
    do! _ := deny runID "declared parent" (negb (bool_decide (r_ParentRunID loaded = parentRunID))) in
    do! _ := deny runID "declared root" (negb (bool_decide (r_RootRunID loaded = w_lineage w))) in
    done w.

(** The loop that loads and reserves one run: [None] is a run that is missing. *)
Definition load_reserved (ctx : Context) (rootID deletionID : string) (w : walk) (runID parentRunID : string) (requestedRoot : bool)
    : action (option (RunRecord * walk)) :=
  retry (DRetries "reserve deletion hierarchy run") runRevisionRetryLimit (
    pbind (perform (CGetRun ctx runID)) (λ r,
    match r with
    | Err e => if is_not_found e && negb requestedRoot then done (Some None) else fail (DStore e)
    | Ok loaded =>
      do! _ := deny runID "hierarchy lookup" (negb (bool_decide (r_RunID loaded = runID))) in
      do! _ := check_as "child state" runID (validateRunChildState loaded) in
      do! w := check_lineage w runID parentRunID requestedRoot loaded in
      do! _ := match r_Deletion loaded with
               | None => done tt
               | Some d =>
                 do! _ := check_as "deletion state" runID (validateRunDeletionState (Some d)) in
                 deny runID "reserved by another deletion"
                   (negb (bool_decide (deletionID = "")) && negb (bool_decide (d_ID d = deletionID)))
               end in
      do! _ := check (validateRunDeletionStatus loaded) in
      if bool_decide (is_Some (r_Deletion loaded)) || bool_decide (deletionID = "") then done (Some (Some (loaded, w)))
      else
        let next := with_Deletion (Some (MkDeletion deletionID rootID "" RunDeletionReserved None)) loaded in
        do! o := swap_run (withRunDeletionMutation ctx deletionID) "reserve run while collecting deletion hierarchy" next in
        done ((λ updated, Some (updated, w)) <$> o)
    end)).

(** The children, linked first, then pending: each pending one is checked. *)
Fixpoint pending_children (runID : string) (linked : gset string) (l : list PendingChildRun) : action (list string) :=
  match l with
  | [] => done []
  | p :: l =>
    do! _ := check_as "pending child reservation" runID (validatePendingChildRun p) in
    do! _ := deny runID "pending child's parent" (negb (bool_decide (p_ParentRunID p = runID))) in
    do! _ := deny runID "both pending and finalized" (bool_decide (p_ChildRunID p ∈ linked)) in
    do! ids := pending_children runID ({[p_ChildRunID p]} ∪ linked) l in
    done (p_ChildRunID p :: ids)
  end.

Fixpoint visit (ctx : Context) (rootID deletionID : string) (fuel : nat) (w : walk) (runID parentRunID : string) (requestedRoot : bool)
    : action walk :=
  match fuel with
  | 0 => fail DDepth
  | S fuel =>
    do! _ := deny runID "child lineage cycle" (bool_decide (runID ∈ w_visiting w)) in
    do! o := load_reserved ctx rootID deletionID w runID parentRunID requestedRoot in
    match o with
    | None => done (missing_child runID w)
    | Some (run, w) =>
      if bool_decide (runID ∈ w_visited w) then done w else
      do! pending := pending_children runID (list_to_set (r_ChildRunIDs run)) (r_PendingChildRuns run) in
      do! w := (fix children (w : walk) (l : list string) : action walk :=
                  match l with
                  | [] => done w
                  | child :: l =>
                    do! _ := check_as "child lineage" runID (storage_id "child run ID" child) in
                    do! w := visit ctx rootID deletionID fuel w child runID false in
                    children w l
                  end) (enter runID w) (r_ChildRunIDs run ++ pending) in
      do! persisted := get_run ctx runID in
      if negb (r_Revision persisted =? r_Revision run)%N
      then fail (DStore (SConflict runID (r_Revision run) (r_Revision persisted)))
      else done (leave runID w)
    end
  end.

(** The outer loop starts the walk again after a conflict. *)
Definition collectDescendantRunIDs (ctx : Context) (depth : nat) (rootID deletionID : string) : action (list string) :=
  retry (DRetries "collect deletion hierarchy") runRevisionRetryLimit (
    pbind (visit ctx rootID deletionID depth (MkWalk ∅ ∅ [] "") rootID "" true) (λ r,
    match r with
    | Ok w => done (Some (w_result w))
    | Err e => if wraps_conflict e then done None else fail e
    end)).

(** ** Preparing *)

(** What the loop on the root ends with: a plan that was stored before, or the
    identifier of a reservation without one. *)
Definition reserve_root (ctx : Context) (rootID : string) : action (RunDeletionState + string) :=
  retry (DRetries "prepare run deletion") runRevisionRetryLimit (
    do! root := get_run ctx rootID in
    do! _ := deny rootID "deletion lookup" (negb (bool_decide (r_RunID root = rootID))) in
    do! _ := match r_Deletion root with
             | Some d => if bool_decide (d_Phase d = RunDeletionUnlinked) then done tt else validateRequestedRunDeletionParent ctx root
             | None => validateRequestedRunDeletionParent ctx root
             end in
    match r_Deletion root with
    | Some d =>
      do! _ := check_as "deletion state" rootID (validateRunDeletionState (Some d)) in
      do! _ := deny rootID "included in another deletion" (negb (bool_decide (d_RootRunID d = rootID))) in
      do! _ := check (validateRunDeletionStatus root) in
      let plan := elems (d_RunIDs d) in
      if negb (bool_decide (plan = [])) then
        do! _ := check (validateRunDeletionPlan rootID plan) in
        do! _ := reserveRunDeletionPlan ctx (d_ID d) rootID plan in
        done (Some (inl (MkDeletion (d_ID d) (d_RootRunID d) (d_ParentRunID d) (d_Phase d) (Some plan))))
      else done (Some (inr (d_ID d)))
    | None =>
      do! _ := check (validateRunDeletionStatus root) in
      pbind (perform CNewID) (λ deletionID,
      let next := with_Deletion (Some (MkDeletion deletionID rootID (r_ParentRunID root) RunDeletionReserved None)) root in
      do! o := swap_run (withRunDeletionMutation ctx deletionID) "reserve run for deletion" next in
      match o with
      | None => done None
      | Some updated =>
        do! _ := deny rootID "reservation was not persisted" (negb (bool_decide (deletion_id (r_Deletion updated) = deletionID))) in
        done (Some (inr deletionID))
      end)
    end).

Definition prepareRunDeletion (ctx : Context) (depth : nat) (rootID : string) : action RunDeletionState :=
  do! r := reserve_root ctx rootID in
  match r with
  | inl deletion => done deletion
  | inr deletionID =>
    do! runIDs := collectDescendantRunIDs ctx depth rootID deletionID in
    do! _ := reserveRunDeletionPlan ctx deletionID rootID runIDs in
    persistRunDeletionPlan ctx rootID deletionID runIDs
  end.

(** ** Carrying it out *)

(** One record against the plan; [lineage] is the root run of the first one. *)
Definition check_planned (d : RunDeletionState) (lineage : string) (runID : string) (run : RunRecord) : action string :=
  let plan := elems (d_RunIDs d) in
  do! own := match r_Deletion run with
             | Some own => do! _ := deny runID "reservation identity" (negb (bool_decide (r_RunID run = runID)) || negb (bool_decide (d_ID own = d_ID d))) in done own
             | None => fail (DRefused runID "reservation identity")
             end in
  do! _ := deny runID "descendant phase" (negb (bool_decide (runID = d_RootRunID d)) && negb (unplanned own)) in
  do! lineage := if bool_decide (lineage = "") then done (r_RootRunID run)
                 else do! _ := deny runID "lineage root" (negb (bool_decide (r_RootRunID run = lineage))) in done lineage in
  do! _ := if bool_decide (runID = d_RootRunID d) then
             do! _ := deny runID "root parent" (negb (bool_decide (r_ParentRunID run = d_ParentRunID d))) in
             deny runID "root phase"
               (if bool_decide (d_Phase d = RunDeletionPlanned)
                then negb (bool_decide (d_Phase own ∈ [RunDeletionPlanned; RunDeletionUnlinked]))
                else if bool_decide (d_Phase d = RunDeletionUnlinked) then negb (bool_decide (d_Phase own = RunDeletionUnlinked))
                else false)
           else
             do! _ := deny runID "descendant has no parent" (bool_decide (r_ParentRunID run = "")) in
             deny runID "parent is outside plan" (negb (bool_decide (r_ParentRunID run ∈ plan))) in
  done lineage.

Fixpoint check_plan_records (ctx : Context) (d : RunDeletionState) (lineage : string) (l : list string) : action unit :=
  match l with
  | [] => done tt
  | runID :: l =>
    pbind (perform (CGetRun ctx runID)) (λ r,
    match r with
    | Err e =>
      if is_not_found e then
        if negb (bool_decide (d_Phase d = RunDeletionUnlinked)) then fail (DRefused runID "planned run is missing")
        else check_plan_records ctx d lineage l
      else fail (DStore e)
    | Ok run => do! lineage := check_planned d lineage runID run in check_plan_records ctx d lineage l
    end)
  end.

Definition validateRunDeletionPlanRecords (ctx : Context) (d : RunDeletionState) : action unit :=
  check_plan_records ctx d "" (elems (d_RunIDs d)).

(** The parent without its links to [child]. *)
Definition unlinked_parent (child : string) (parent : RunRecord) : RunRecord :=
  assign (r_Revision parent) (filter (λ c, c ≠ child) (r_ChildRunIDs parent))
    (filter (λ p, p_ChildRunID p ≠ child) (r_PendingChildRuns parent)) (r_Deletion parent) (r_ErrorMessage parent) parent.

Definition unlinkRunDeletionRoot (ctx : Context) (d : RunDeletionState) : action unit :=
  let rootID := d_RootRunID d in
  let parentRunID := TrimSpace (d_ParentRunID d) in
  if bool_decide (parentRunID = "") then done tt else
  do! _ := deny rootID "own deletion parent" (bool_decide (parentRunID = rootID)) in
  retry (DRetries "unlink run deletion root") runRevisionRetryLimit (
    pbind (perform (CGetRun ctx rootID)) (λ r,
    do! root := check_as "load run before parent unlink" rootID r in
    do! _ := deny rootID "reservation changed before parent unlink"
               (negb (bool_decide (is_Some (r_Deletion root))) || negb (bool_decide (deletion_id (r_Deletion root) = d_ID d))) in
    do! _ := deny rootID "declared parent" (negb (bool_decide (r_ParentRunID root = parentRunID))) in
    pbind (perform (CGetRun ctx parentRunID)) (λ r,
    do! parent := check_as "load parent run" parentRunID r in
    do! _ := deny parentRunID "parent lookup" (negb (bool_decide (r_RunID parent = parentRunID))) in
    do! _ := if isTerminalRunStatus (r_Status parent) then done tt
             else fail (DWrap "parent must be terminal" rootID (SNotAllowed parentRunID)) in
    do! _ := deny rootID "root of the parent" (negb (bool_decide (r_RootRunID parent = r_RootRunID root))) in
    do! _ := match r_Deletion parent with
             | None => done tt
             | Some p =>
               do! _ := check_as "parent deletion state" parentRunID (validateRunDeletionState (Some p)) in
               deny rootID "parent deletion was planned" (negb (unplanned p))
             end in
    if bool_decide (rootID ∉ r_ChildRunIDs parent) && bool_decide (rootID ∉ map p_ChildRunID (r_PendingChildRuns parent))
    then done (Some tt)
    else
      do! o := swap_run (withRunDeletionUnlinkMutation ctx (d_ID d) rootID) "unlink run from parent" (unlinked_parent rootID parent) in
      done ((λ _, tt) <$> o)))).

Definition advanceRunDeletionPhase (ctx : Context) (rootID deletionID phase : string) : action RunDeletionState :=
  retry (DRetries "advance run deletion phase") runRevisionRetryLimit (
    do! root := get_run ctx rootID in
    match r_Deletion root with
    | None => fail (DRefused rootID "reservation changed before phase")
    | Some d =>
      do! _ := deny rootID "reservation changed before phase" (negb (bool_decide (d_ID d = deletionID))) in
      do! _ := check_as "deletion state" rootID (validateRunDeletionState (Some d)) in
      if bool_decide (d_Phase d = phase) then done (Some d) else
      do! o := swap_run (withRunDeletionMutation ctx deletionID) "advance run deletion phase" (with_Deletion (Some (with_phase phase d)) root) in
      match o with
      | None => done None
      | Some updated => match r_Deletion updated with
                        | None => fail (DRefused rootID "phase was not persisted")
                        | Some d => done (Some d)
                        end
      end
    end).

Section coordinator.
Context (c : RunDeletionCoordinator) (ctx : Context).

Definition load_manifest (id : string) : action RunDeletionManifest := pbind (perform (CLoadManifest ctx id)) check.
Definition save_manifest (m : RunDeletionManifest) : action unit := pbind (perform (CSaveManifest ctx m)) check.

Definition ensureRunDeletionManifest (d : RunDeletionState) : action unit :=
  if negb (has_manifests c) then done tt else
  pbind (perform CNow) (λ now,
  let m := deletionManifestFromState d now in
  pbind (perform (CLoadManifest ctx (d_ID d))) (λ r,
  match r with
  | Err e => if is_not_found e then save_manifest m else fail (DStore e)
  | Ok existing =>
    do! _ := check (validateRunDeletionManifestIdentity existing m) in
    deny (d_RootRunID d) "deletion manifest is already completed" (bool_decide (m_Phase existing = RunDeletionDeleted))
  end)).

(** [updateRunDeletionManifest] and [markRunDeletionDeleted], which differ in the phase. *)
Definition move_manifest (d : RunDeletionState) (phase : string) : action unit :=
  if negb (has_manifests c) then done tt else
  do! m := load_manifest (d_ID d) in
  do! _ := check (validateRunDeletionManifestIdentity m (deletionManifestFromState d (m_UpdatedAt m))) in
  pbind (perform CNow) (λ now,
  save_manifest (MkManifest (m_ID m) (m_RootRunID m) (m_ParentRunID m) phase (m_RunIDs m) (m_CreatedAt m) now)).

Definition updateRunDeletionManifest (d : RunDeletionState) : action unit := move_manifest d (d_Phase d).
Definition markRunDeletionDeleted (d : RunDeletionState) : action unit := move_manifest d RunDeletionDeleted.

Definition fence_all (d : RunDeletionState) : action unit :=
  each (λ runID, each (λ s,
    pbind (perform (CFence (withRunDeletionMutation ctx (d_ID d)) s runID (d_ID d))) (check_as "fence run" runID))
    (uniqueRunDeletionStores c)) (elems (d_RunIDs d)).

Definition delete_all (d : RunDeletionState) : action unit :=
  each (λ runID, each (λ s,
    pbind (perform (CDelete (withRunDeletionMutation ctx (d_ID d)) s runID)) (λ r,
    match r with
    | Ok _ => done tt
    | Err e => if is_not_found e then done tt else fail (DWrap "delete run" runID e)
    end)) (uniqueRunDeletionStores c)) (elems (d_RunIDs d)).

Definition unlink_stage (d : RunDeletionState) : action RunDeletionState :=
  if bool_decide (d_Phase d = RunDeletionUnlinked) then done d else
  let ctx' := withRunDeletionMutation ctx (d_ID d) in
  do! _ := unlinkRunDeletionRoot ctx' d in
  do! d := advanceRunDeletionPhase ctx' (d_RootRunID d) (d_ID d) RunDeletionUnlinked in
  do! _ := updateRunDeletionManifest d in
  done d.

Definition reconcileRunDeletion (d : RunDeletionState) : action unit :=
  do! _ := validateRunDeletionPlanRecords ctx d in
  do! _ := fence_all d in
  do! d := unlink_stage d in
  do! _ := delete_all d in
  markRunDeletionDeleted d.

(** [DeleteRun]; [depth] bounds the walk of the hierarchy. *)
Definition DeleteRun (depth : nat) (runID : string) : action unit :=
  let runID := TrimSpace runID in
  if bool_decide (runID = "") then fail (DStore (SNotFound "")) else
  do! _ := validateDeletionStores c in
  do! d := prepareRunDeletion ctx depth runID in
  do! _ := ensureRunDeletionManifest d in
  reconcileRunDeletion d.

Definition manifest_state (m : RunDeletionManifest) : RunDeletionState :=
  MkDeletion (m_ID m) (m_RootRunID m) (m_ParentRunID m) (m_Phase m) (Some (m_RunIDs m)).

Definition reconcileRunDeletionManifest (m : RunDeletionManifest) : action unit :=
  let d := manifest_state m in
  do! _ := check_as "deletion manifest" (m_RootRunID m) (validateRunDeletionState (Some d)) in
  do! _ := if bool_decide (m_Phase m = RunDeletionPlanned) then
             pbind (perform (CGetRun ctx (m_RootRunID m))) (λ r,
             do! root := check_as "load deletion root" (m_RootRunID m) r in
             validateRunDeletionManifestMatchesRun m root)
           else done tt in
  reconcileRunDeletion d.

(** The first loop of [ReconcileRunDeletions]: every manifest is carried out, and
    the table holds what each ended as. *)
Fixpoint reconcile_manifests (table : gmap string RunDeletionManifest) (l : list RunDeletionManifest)
    : action (gmap string RunDeletionManifest) :=
  match l with
  | [] => done table
  | m :: l =>
    do! _ := check_as "deletion manifest" (m_RootRunID m) (validateRunDeletionManifest m) in
    do! _ := deny (m_RootRunID m) "duplicate deletion manifest" (bool_decide (is_Some (table !! m_ID m))) in
    if bool_decide (m_Phase m = RunDeletionDeleted) then reconcile_manifests (<[m_ID m := m]> table) l else
    do! _ := reconcileRunDeletionManifest m in
    pbind (perform CNow) (λ now,
    let m' := MkManifest (m_ID m) (m_RootRunID m) (m_ParentRunID m) RunDeletionDeleted (m_RunIDs m) (m_CreatedAt m) now in
    reconcile_manifests (<[m_ID m := m']> table) l)
  end.

(** The reserved runs by deletion, in the order they are listed. *)
Fixpoint reserved_runs (table : gmap string (list RunRecord)) (runs : list RunRecord) : action (gmap string (list RunRecord)) :=
  match runs with
  | [] => done table
  | run :: runs =>
    match r_Deletion run with
    | None => reserved_runs table runs
    | Some d =>
      do! _ := check_as "deletion state" (r_RunID run) (validateRunDeletionState (Some d)) in
      reserved_runs (<[d_ID d := default [] (table !! d_ID d) ++ [run]]> table) runs
    end
  end.

Definition is_own_root (run : RunRecord) : bool :=
  match r_Deletion run with Some d => bool_decide (d_RootRunID d = r_RunID run) | None => false end.

(** A deletion with a manifest: its runs are in the plan and its root agrees. *)
Definition check_reserved (m : RunDeletionManifest) (run : RunRecord) : action unit :=
  do! _ := deny (r_RunID run) "manifest omits reserved run" (negb (manifestContainsRun m (r_RunID run))) in
  if is_own_root run then validateRunDeletionManifestMatchesRun m run else done tt.

(** A deletion that stopped before its manifest: its root starts again. *)
Definition resume_reserved (depth : nat) (table : gmap string RunDeletionManifest) (deletionID : string) (reserved : list RunRecord)
    : action (gmap string RunDeletionManifest) :=
  match filter (λ r, is_own_root r = true) reserved with
  | [] => fail (DRefused deletionID "orphan deletion reservation")
  | _ :: _ :: _ => fail (DRefused deletionID "multiple roots")
  | [root] =>
    do! d := prepareRunDeletion ctx depth (r_RunID root) in
    do! _ := ensureRunDeletionManifest d in
    do! _ := reconcileRunDeletion d in
    pbind (perform CNow) (λ created, pbind (perform CNow) (λ updated,
    done (<[d_ID d := MkManifest (d_ID d) (d_RootRunID d) (d_ParentRunID d) RunDeletionDeleted (elems (d_RunIDs d)) created updated]> table)))
  end.

Fixpoint reconcile_reserved (depth : nat) (table : gmap string RunDeletionManifest) (runs : gmap string (list RunRecord)) (ids : list string)
    : action unit :=
  match ids with
  | [] => done tt
  | id :: ids =>
    let reserved := default [] (runs !! id) in
    match table !! id with
    | Some m =>
      do! _ := deny id "completed manifest retains a run" (bool_decide (m_Phase m = RunDeletionDeleted)) in
      do! _ := each (check_reserved m) reserved in
      reconcile_reserved depth table runs ids
    | None =>
      do! table := resume_reserved depth table id reserved in
      reconcile_reserved depth table runs ids
    end
  end.

Definition ReconcileRunDeletions (depth : nat) : action unit :=
  do! _ := validateDeletionStores c in
  do! _ := if has_scanner c then pbind (perform (CValidateFences ctx)) check else done tt in
  if negb (has_manifests c) then done tt else
  do! ms := pbind (perform (CListManifests ctx)) check in
  do! table := reconcile_manifests ∅ ms in
  do! _ := if has_listing c then done tt else fail (DUnsupported "run listing") in
  do! runs := pbind (perform (CListRuns ctx (MkFilter [] "" "" "" ""))) check in
  do! reserved := reserved_runs ∅ runs in
  reconcile_reserved depth table reserved (sorted_keys reserved).
End coordinator.

(** ** The memory stores

    A [MemoryRuntimeStore], which is the execution store and holds checkpoints,
    events and manifests, and a [MemoryArtifactStore].  Each call is one critical
    section.  The clock moves with every reading; fresh identifiers are numbered. *)

Record World := MkWorld {
  w_runtime : RuntimeStore;
  w_artifacts : ArtifactStore;
  w_clock : Z;
  w_ids : nat;
}.

Definition runtime_ref : string := "runtime".
Definition artifact_ref : string := "artifacts".

Definition fresh_id (n : nat) : string := "deletion-" +:+ pretty n.

Definition set_runtime (s : RuntimeStore) (w : World) : World := MkWorld s (w_artifacts w) (w_clock w) (w_ids w).
Definition set_artifacts (s : ArtifactStore) (w : World) : World := MkWorld (w_runtime w) s (w_clock w) (w_ids w).

Definition no_store : store_error := SInvalid "" "no such store".

(** The effect of a call that answers with a new state or an error. *)
Definition effect {S} (put : S → World → World) (m : result store_error S) (w : World) : World * result store_error unit :=
  match m with Ok s => (put s w, Ok tt) | Err e => (w, Err e) end.

Definition handle {X} (c : call X) (w : World) : World * X :=
  match c in call X return World * X with
  | CGetRun ctx id => (w, GetRun ctx (execution (w_runtime w)) id)
  | CCompareAndSwap ctx expected run =>
    match CompareAndSwapRun ctx (execution (w_runtime w)) expected run with
    | Ok (s, stored) => (set_runtime (with_execution s (w_runtime w)) w, Ok stored)
    | Err e => (w, Err e)
    end
  | CListRuns ctx f => (w, ListRuns ctx (execution (w_runtime w)) f)
  | CFence ctx store runID deletionID =>
    if bool_decide (store = runtime_ref) then effect set_runtime (FenceRuntimeRun ctx (w_runtime w) runID deletionID) w
    else if bool_decide (store = artifact_ref) then effect set_artifacts (FenceArtifacts ctx (w_artifacts w) runID deletionID) w
    else (w, Err no_store)
  | CDelete ctx store runID =>
    if bool_decide (store = runtime_ref) then effect set_runtime (DeleteRuntimeRun ctx (w_runtime w) runID) w
    else if bool_decide (store = artifact_ref) then effect set_artifacts (DeleteArtifacts ctx (w_artifacts w) runID) w
    else (w, Err no_store)
  | CValidateFences ctx => (w, Err no_store)
  | CLoadManifest ctx id => (w, LoadRunDeletionManifest ctx (w_runtime w) id)
  | CListManifests ctx => (w, ListRunDeletionManifests ctx (w_runtime w))
  | CSaveManifest ctx m => effect set_runtime (SaveRunDeletionManifest ctx (w_runtime w) m) w
  | CNow => (MkWorld (w_runtime w) (w_artifacts w) (w_clock w + 1) (w_ids w), w_clock w)
  | CNewID => (MkWorld (w_runtime w) (w_artifacts w) (w_clock w) (S (w_ids w)), fresh_id (w_ids w))
  end.

(** An undisturbed run, and one that stops after at most some number of calls. *)
Abbreviation run_prog := (run_with (@handle)).
Abbreviation run_cut := (cut_with (@handle)).

(** The coordinator of these stores: events and checkpoints are in the runtime store. *)
Definition memory_coordinator : RunDeletionCoordinator :=
  MkCoordinator runtime_ref (Some runtime_ref) (Some runtime_ref) (Some artifact_ref)
    (λ _, true) true false true.

(** ** A small hierarchy

    [top] has the children [mid] and [other], [mid] has [leaf]; all are complete. *)

Definition tree_run (id parent root : string) (children : list string) (pending : list PendingChildRun) : RunRecord :=
  MkRunRecord id 1 parent "" "" "" "" None root [] "" children pending None "" "" "" "" "" "" "" "" None RunStatusCompleted
    "" "" [] [] [] "" "" "" false false "" "" 0 0 None.

Definition world_of (l : list RunRecord) : World :=
  MkWorld (MkRuntime (MkStore (list_to_map (map (λ r, (r_RunID r, r)) l)) ∅ ∅) NewMemoryCheckpointStore NewMemoryEventSink ∅ ∅)
    NewMemoryArtifactStore 1 0.

Definition tree : World :=
  world_of [tree_run "top" "" "top" ["mid"; "other"] []; tree_run "mid" "top" "top" ["leaf"] [];
            tree_run "leaf" "mid" "top" [] []; tree_run "other" "top" "top" [] []].
