(* ===== verification/Deletion.v ===== *)
(** * What the deletion coordinator guarantees

    Against arbitrary answers of the stores: nothing is deleted before every run
    of the plan is fenced everywhere. *)

From stdpp Require Import pretty.
From S2P Require Import Prelude GoStrings Values Json Sensitive Lease Records RunStore Stores Artifacts Commit Programs DeletionPlan.

(** ** Nothing is deleted before it is fenced *)

(** Every run of the plan is fenced in every store, under one deletion. *)
Definition all_fenced (stores plan : list string) (deletionID : string) (h : list (event call)) : Prop :=
  ∀ runID s, runID ∈ plan → s ∈ stores → ∃ ctx, Ev (CFence ctx s runID deletionID) (Ok tt) ∈ h.

(** A reservation the execution store answered with, or accepted. *)
Definition known (h : list (event call)) (d : RunDeletionState) : Prop :=
  ∃ run, r_Deletion run = Some d ∧
    ((∃ ctx id, Ev (CGetRun ctx id) (Ok run) ∈ h) ∨
     (∃ ctx n run' , Ev (CCompareAndSwap ctx n run') (Ok run) ∈ h ∨ Ev (CCompareAndSwap ctx n run) (Ok run') ∈ h)).

(** A manifest the execution store listed. *)
Definition listed (h : list (event call)) (m : RunDeletionManifest) : Prop :=
  ∃ ctx ms, Ev (CListManifests ctx) (Ok ms) ∈ h ∧ m ∈ ms.

(** The plan of a deletion as it is stored: in a reservation or in a manifest. *)
Definition stored_plan (h : list (event call)) (deletionID : string) (plan : list string) : Prop :=
  (∃ d, known h d ∧ d_ID d = deletionID ∧ elems (d_RunIDs d) = plan) ∨
  (∃ m, listed h m ∧ m_ID m = deletionID ∧ m_RunIDs m = plan).

(** A run may be deleted, under a deletion whose stored plan has it, once every run of
    that plan is fenced. *)
Definition fenced_first (stores : list string) (h : list (event call)) {X} (c : call X) : Prop :=
  match c with
  | CDelete ctx s runID =>
    ∃ deletionID plan, deletion_mutation ctx = Some deletionID ∧ stored_plan h deletionID plan ∧
      runID ∈ plan ∧ all_fenced stores plan deletionID h
  | _ => True
  end.

(** Programs that delete nothing. *)
Fixpoint keeps {A} (p : prog call A) : Prop :=
  match p with
  | Ret _ => True
  | Do c k => match c with CDelete _ _ _ => False | _ => True end ∧ ∀ x, keeps (k x)
  end.

Lemma keeps_bind {A B} (p : prog call A) (f : A → prog call B) : keeps p → (∀ a, keeps (f a)) → keeps (pbind p f).
Proof.
  intros Hp Hf. induction p as [a|X c k IH]; simpl; [apply Hf|]. destruct Hp as [Hc Hk]. split; [done|].
  intros x. by apply IH.
Qed.

Lemma keeps_do {A B} (p : action A) (f : A → action B) : keeps p → (∀ a, keeps (f a)) → keeps (abind p f).
Proof. intros Hp Hf. apply keeps_bind; [done|]. intros [a|e]; [apply Hf|done]. Qed.

Lemma keeps_retry {A} what n (body : action (option A)) : keeps body → keeps (retry what n body).
Proof.
  intros Hb. induction n as [|n IH]; simpl; [done|]. apply keeps_do; [done|]. by intros [a|].
Qed.

Lemma keeps_each {A} (f : A → action unit) l : (∀ a, keeps (f a)) → keeps (each f l).
Proof. intros Hf. induction l as [|a l IH]; simpl; [done|]. by apply keeps_do. Qed.

(** Such a program may run anywhere, and only adds to the history. *)
Lemma keeps_always stores {A} (p : prog call A) h :
  keeps p → always (λ h X c, fenced_first stores h c) p h (λ _ h', ∃ t, h' = h ++ t).
Proof.
  revert h. induction p as [a|X c k IH]; intros h Hp; simpl.
  - exists []. by rewrite app_nil_r.
  - destruct Hp as [Hc Hk]. split; [by destruct c|]. intros x. eapply always_mono; [|by apply IH].
    intros a h' [t ->]. exists (Ev c x :: t). by rewrite <-app_assoc.
Qed.

Ltac keeps :=
  repeat first
    [ exact I | progress intros
    | match goal with
      | |- keeps (deny _ _ _) => unfold deny
      | |- keeps (get_run _ _) => unfold get_run
      | |- keeps (swap_run _ _ _) => unfold swap_run
      | |- keeps (abind _ _) => apply keeps_do
      | |- keeps (pbind _ _) => apply keeps_bind
      | |- keeps (retry _ _ _) => apply keeps_retry
      | |- keeps (each _ _) => apply keeps_each
      | |- keeps (if ?b then _ else _) => destruct b
      | |- keeps (match ?x with _ => _ end) => destruct x
      | |- _ ∧ _ => split
      | |- keeps (Do _ _) => split
      | |- keeps (perform _) => split
      | H : keeps _ |- keeps _ => exact H
      | H : context [keeps _] |- keeps _ => apply H
      end ].

Lemma keeps_pending runID linked l : keeps (pending_children runID linked l).
Proof. revert linked. induction l as [|p l IH]; intros linked; cbn [pending_children]; keeps. Qed.

Lemma keeps_check_lineage w runID parent requested run : keeps (check_lineage w runID parent requested run).
Proof. unfold check_lineage. keeps. Qed.

Lemma keeps_load_reserved ctx root id w runID parent requested : keeps (load_reserved ctx root id w runID parent requested).
Proof.
  unfold load_reserved. keeps; apply keeps_check_lineage.
Qed.

Lemma keeps_visit ctx root id fuel w runID parent requested : keeps (visit ctx root id fuel w runID parent requested).
Proof.
  revert w runID parent requested. induction fuel as [|fuel IH]; intros w runID parent requested; cbn [visit]; [done|].
  apply keeps_do; [unfold deny; keeps|]. intros _. apply keeps_do; [apply keeps_load_reserved|].
  intros [[run w']|]; [|done]. case_bool_decide; [done|]. apply keeps_do; [apply keeps_pending|]. intros pending.
  apply keeps_do; [|intros w2; unfold get_run, check; keeps].
  generalize (enter runID w') (r_ChildRunIDs run ++ pending). intros w1 l. revert w1.
  induction l as [|child l IHl]; intros w1; [done|]. apply keeps_do; [unfold check_as; keeps|]. intros _.
  apply keeps_do; [apply IH|]. intros w2. apply IHl.
Qed.

Lemma keeps_collect ctx depth root id : keeps (collectDescendantRunIDs ctx depth root id).
Proof. unfold collectDescendantRunIDs. keeps; apply keeps_visit. Qed.

Lemma keeps_reserve_plan ctx id root l : keeps (reserveRunDeletionPlan ctx id root l).
Proof. unfold reserveRunDeletionPlan, reserveRunDeletion. keeps. Qed.

Lemma keeps_requested_parent ctx root : keeps (validateRequestedRunDeletionParent ctx root).
Proof. unfold validateRequestedRunDeletionParent. keeps. Qed.

Lemma keeps_check_planned d lineage runID run : keeps (check_planned d lineage runID run).
Proof. unfold check_planned. keeps. Qed.

Lemma keeps_plan_records ctx d lineage l : keeps (check_plan_records ctx d lineage l).
Proof.
  revert lineage. induction l as [|x l IH]; intros lineage; cbn [check_plan_records]; [done|].
  apply keeps_bind; [simpl; done|]. intros [run|e]; [|unfold fail; keeps].
  apply keeps_do; [apply keeps_check_planned|apply IH].
Qed.

Lemma keeps_unlink ctx d : keeps (unlinkRunDeletionRoot ctx d).
Proof. unfold unlinkRunDeletionRoot. keeps. Qed.

Lemma keeps_move_manifest c ctx d phase : keeps (move_manifest c ctx d phase).
Proof. unfold move_manifest, load_manifest, save_manifest, check, done. keeps. Qed.

Lemma keeps_ensure_manifest c ctx d : keeps (ensureRunDeletionManifest c ctx d).
Proof. unfold ensureRunDeletionManifest, save_manifest. keeps. Qed.

Lemma keeps_stores c : keeps (validateDeletionStores c).
Proof. unfold validateDeletionStores. keeps. Qed.

(** ** What the answers say of a plan *)

(** What the execution store promises of its answers: reservations are valid, a
    write answers with the deletion it was given, and the plan of a deletion does
    not change. *)
Definition coherent (h : list (event call)) : Prop :=
  (∀ d, known h d → validateRunDeletionState (Some d) = Ok tt) ∧
  (∀ ctx n run run', Ev (CCompareAndSwap ctx n run) (Ok run') ∈ h → deletion_id (r_Deletion run') = deletion_id (r_Deletion run)) ∧
  ∀ d d', known h d → known h d' → d_ID d = d_ID d' → elems (d_RunIDs d) ≠ [] → elems (d_RunIDs d') ≠ [] →
    elems (d_RunIDs d) = elems (d_RunIDs d').

Definition plan_known (h : list (event call)) (d : RunDeletionState) : Prop :=
  coherent h → elems (d_RunIDs d) ≠ [] → ∃ d', known h d' ∧ d_ID d' = d_ID d ∧ elems (d_RunIDs d') = elems (d_RunIDs d).

Definition grows (h h' : list (event call)) : Prop := ∃ t, h' = h ++ t.

#[export] Instance grows_preorder : PreOrder grows.
Proof.
  split; [intros h; exists []; by rewrite app_nil_r|]. intros h h' h'' [t ->] [t' ->]. exists (t ++ t'). by rewrite app_assoc.
Qed.

Lemma grows_in h h' e : grows h h' → e ∈ h → e ∈ h'.
Proof. intros [t ->] He. apply elem_of_app. by left. Qed.

Lemma known_grows h h' d : grows h h' → known h d → known h' d.
Proof.
  intros Hg (run & Hd & H). exists run. split; [done|].
  destruct H as [(ctx & id & H)|(ctx & n & run' & [H|H])]; [left; exists ctx, id|right; exists ctx, n, run'; left|right; exists ctx, n, run'; right];
    by apply (grows_in h).
Qed.

Lemma coherent_grows h h' : grows h h' → coherent h' → coherent h.
Proof.
  intros Hg (H1 & H2 & H3). split_and!.
  - intros d Hd. by apply H1, (known_grows h).
  - intros ctx n run run' Hin. apply (H2 ctx n). by eapply grows_in.
  - intros d d' Hd Hd'. apply H3; by apply (known_grows h).
Qed.

Lemma listed_grows h h' m : grows h h' → listed h m → listed h' m.
Proof. intros Hg (ctx & ms & H & Hm). exists ctx, ms. split; [by eapply grows_in|done]. Qed.

Lemma stored_plan_grows h h' id plan : grows h h' → stored_plan h id plan → stored_plan h' id plan.
Proof.
  intros Hg [(d & Hd & H)|(m & Hm & H)]; [left; exists d|right; exists m]; (split; [|exact H]).
  - by eapply known_grows.
  - by eapply listed_grows.
Qed.

Lemma plan_known_grows h h' d : grows h h' → plan_known h d → plan_known h' d.
Proof.
  intros Hg Hp Hc Hne. destruct (Hp (coherent_grows _ _ Hg Hc) Hne) as (d' & Hk & ?). exists d'.
  split; [by eapply known_grows|done].
Qed.

Section fences.
Context (c : RunDeletionCoordinator).

(** Deletions come after fences, if the store keeps its promises. *)
Definition ordered (h : list (event call)) (X : Type) (cl : call X) : Prop :=
  coherent h → fenced_first (uniqueRunDeletionStores c) h cl.

Lemma keeps_ordered {A} (p : prog call A) h : keeps p → always ordered p h (λ _ h', grows h h').
Proof.
  revert h. induction p as [a|X cl k IH]; intros h Hp; simpl; [reflexivity|].
  destruct Hp as [Hc Hk]. split; [intros _; by destruct cl|]. intros x. eapply always_mono; [|by apply IH].
  intros a h' Hg. etrans; [|exact Hg]. by eexists.
Qed.

(** A step that deletes nothing, and whose answer does not matter. *)
Lemma ordered_do {A B} (p : action A) (f : A → action B) h Q :
  keeps p → (∀ a h', grows h h' → always ordered (f a) h' (post Q)) → always ordered (abind p f) h (post Q).
Proof.
  intros Hp Hf. apply always_do. eapply always_mono; [|by apply keeps_ordered]. intros [a|e] h' Hg; [by apply Hf|done].
Qed.

Lemma ordered_end {A} (p : action A) h h0 :
  keeps p → grows h0 h → always ordered p h (post (λ _ h', grows h0 h')).
Proof.
  intros Hp Hg. eapply always_mono; [|by apply keeps_ordered]. intros [a|e] h' Hg'; [|done]. simpl. by etrans.
Qed.

Lemma known_get h ctx id run d : r_Deletion run = Some d → known (h ++ [Ev (CGetRun ctx id) (Ok run)]) d.
Proof. intros Hd. exists run. split; [done|]. left. exists ctx, id. apply elem_of_app. right. left. Qed.

Lemma known_written h ctx n run run' d :
  r_Deletion run = Some d → known (h ++ [Ev (CCompareAndSwap ctx n run) (Ok run')]) d.
Proof. intros Hd. exists run. split; [done|]. right. exists ctx, n, run'. right. apply elem_of_app. right. left. Qed.

Lemma known_answered h ctx n run run' d :
  r_Deletion run' = Some d → known (h ++ [Ev (CCompareAndSwap ctx n run) (Ok run')]) d.
Proof. intros Hd. exists run'. split; [done|]. right. exists ctx, n, run. left. apply elem_of_app. right. left. Qed.

Lemma grows_snoc h e : grows h (h ++ [e]).
Proof. by exists [e]. Qed.

(** A known reservation vouches for itself. *)
Lemma known_plan h d : known h d → plan_known h d.
Proof. intros Hk _ _. by exists d. Qed.

(** The walk through a program: a call, a step whose answer does not matter. *)
Lemma ordered_call {A X} (cl : call X) (f : X → prog call A) h Q :
  (match cl with CDelete _ _ _ => False | _ => True end) →
  (∀ x, always ordered (f x) (h ++ [Ev cl x]) Q) → always ordered (pbind (perform cl) f) h Q.
Proof. intros Hc Hf. split; [intros _; by destruct cl|]. exact Hf. Qed.

Lemma ordered_deny {A} run what b (f : unit → action A) h Q :
  (b = false → always ordered (f tt) h (post Q)) → always ordered (abind (deny run what b) f) h (post Q).
Proof. destruct b; [done|]. intros H. by apply H. Qed.

Lemma ordered_check {A B} (m : result store_error A) (f : A → action B) h Q :
  (∀ a, m = Ok a → always ordered (f a) h (post Q)) → always ordered (abind (check m) f) h (post Q).
Proof. intros H. destruct m as [a|e]; [by apply H|done]. Qed.

(** The plan the preparation ends with was read or written. *)
Lemma reserve_root_known ctx root h :
  always ordered (reserve_root ctx root) h (post (λ r h', grows h h' ∧ match r with inl d => plan_known h' d ∧ elems (d_RunIDs d) ≠ [] | inr _ => True end)).
Proof.
  unfold reserve_root. apply (always_retry _ _ _ _ _ (grows h)); [reflexivity|]. intros h1 Hg1.
  unfold get_run. apply always_do, ordered_call; [done|]. intros [run|e]; [|done].
  set (h2 := h1 ++ _). assert (grows h h2) as Hg2 by (etrans; [exact Hg1|apply grows_snoc]). simpl.
  apply ordered_do; [keeps|]. intros _ h3 Hg3. apply ordered_do.
  { destruct (r_Deletion run) as [d|]; [case_bool_decide; [done|]|]; apply keeps_requested_parent. }
  intros _ h4 Hg4. destruct (r_Deletion run) as [d|] eqn:Hd.
  - apply ordered_do; [keeps|]. intros _ h5 Hg5. apply ordered_do; [keeps|]. intros _ h6 Hg6.
    apply ordered_do; [keeps|]. intros _ h7 Hg7. destruct (bool_decide (elems (d_RunIDs d) = [])) eqn:Hne; cycle 1.
    + apply ordered_do; [keeps|]. intros _ h8 Hg8. apply ordered_do; [apply keeps_reserve_plan|]. intros _ h9 Hg9.
      assert (grows h2 h9) as Hg by (repeat (etrans; [eassumption|]); reflexivity).
      split; [by etrans|]. split; [|simpl; by apply bool_decide_eq_false in Hne]. intros _ _. exists d. split_and!; [|done|done].
      eapply known_grows; [exact Hg|]. by apply known_get.
    + simpl. split; [|done]. repeat (etrans; [eassumption|]). reflexivity.
  - apply ordered_do; [keeps|]. intros _ h5 Hg5. apply ordered_call; [done|]. intros id.
    pose proof (grows_snoc h5 (Ev CNewID id)) as Hg6. apply ordered_do; [keeps|]. intros o h7 Hg7.
    assert (grows h h7) as Hg by (repeat (etrans; [eassumption|]); reflexivity).
    destruct o as [updated|]; [|done]. apply ordered_do; [keeps|]. intros _ h8 Hg8. simpl. split; [by etrans|done].
Qed.

Lemma persist_known ctx root id l h :
  always ordered (persistRunDeletionPlan ctx root id l) h (post (λ d h', grows h h' ∧ plan_known h' d ∧ elems (d_RunIDs d) ≠ [])).
Proof.
  unfold persistRunDeletionPlan. apply ordered_check. intros [] Hv.
  assert (l ≠ []) as Hl by (intros ->; by vm_compute in Hv).
  apply (always_retry _ _ _ _ _ (grows h)); [reflexivity|]. intros h1 Hg1.
  unfold get_run. apply always_do, ordered_call; [done|]. intros [run|e]; [|done].
  set (h2 := h1 ++ _). assert (grows h h2) as Hg2 by (etrans; [exact Hg1|apply grows_snoc]). simpl.
  destruct (r_Deletion run) as [d|] eqn:Hd; [|done].
  apply ordered_do; [keeps|]. intros _ h3 Hg3. destruct (bool_decide (elems (d_RunIDs d) = [])) eqn:Hne; cycle 1.
  - apply ordered_do; [keeps|]. intros _ h4 Hg4. simpl.
    assert (grows h2 h4) as Hg by (by etrans). split; [by etrans|]. split; [|by apply bool_decide_eq_false in Hne].
    eapply plan_known_grows; [exact Hg|]. by apply known_plan, known_get.
  - unfold swap_run. apply always_do, ordered_call; [done|]. intros [updated|e]; simpl.
    + split; [etrans; [exact Hg2|]; etrans; [exact Hg3|]; apply grows_snoc|]. split; [by apply known_plan, known_written|done].
    + destruct (is_conflict e); simpl; [|done]. etrans; [exact Hg2|]; etrans; [exact Hg3|]; apply grows_snoc.
Qed.

Lemma prepare_known ctx depth root h :
  always ordered (prepareRunDeletion ctx depth root) h (post (λ d h', grows h h' ∧ plan_known h' d ∧ elems (d_RunIDs d) ≠ [])).
Proof.
  unfold prepareRunDeletion. apply always_do. eapply always_mono; [|apply reserve_root_known].
  intros [[d|id]|e] h1; [by intros (? & ? & ?)| |done]. intros [Hg1 _].
  apply ordered_do; [apply keeps_collect|]. intros l h2 Hg2. apply ordered_do; [apply keeps_reserve_plan|]. intros _ h3 Hg3.
  eapply always_mono; [|apply persist_known]. intros [d|e] h4; [|done]. simpl. intros (Hg4 & Hk & Hne). split; [|done].
  repeat (etrans; [eassumption|]). reflexivity.
Qed.

Lemma advance_known ctx root id phase h :
  always ordered (advanceRunDeletionPhase ctx root id phase) h
    (post (λ d h', grows h h' ∧ known h' d ∧ (coherent h' → d_ID d = id))).
Proof.
  unfold advanceRunDeletionPhase. apply (always_retry _ _ _ _ _ (grows h)); [reflexivity|]. intros h1 Hg1.
  unfold get_run. apply always_do, ordered_call; [done|]. intros [run|e]; [|done].
  set (h2 := h1 ++ _). assert (grows h h2) as Hg2 by (etrans; [exact Hg1|apply grows_snoc]). simpl.
  destruct (r_Deletion run) as [d|] eqn:Hd; [|done]. apply ordered_deny. intros Hid%negb_false_iff%bool_decide_eq_true.
  apply ordered_do; [keeps|]. intros _ h3 Hg3. case_bool_decide.
  - simpl. split_and!; [by etrans| |by intros _]. eapply known_grows; [exact Hg3|]. by apply known_get.
  - unfold swap_run. apply always_do, ordered_call; [done|]. intros [updated|e]; simpl.
    + destruct (r_Deletion updated) as [d'|] eqn:Hd'; [|done]. simpl.
      split_and!; [etrans; [exact Hg2|]; etrans; [exact Hg3|]; apply grows_snoc|by apply known_answered|].
      intros (_ & Hc & _). rewrite <-Hid. specialize (Hc _ _ _ updated (proj2 (elem_of_app _ _ _) (or_intror (list_elem_of_here _ _)))).
      rewrite Hd' in Hc. exact Hc.
    + destruct (is_conflict e); simpl; [|done]. etrans; [exact Hg2|]; etrans; [exact Hg3|]; apply grows_snoc.
Qed.

(** The stages of a reconciliation. *)
Lemma fence_all_fenced ctx d h :
  always ordered (fence_all c ctx d) h
    (post (λ _ h', grows h h' ∧ all_fenced (uniqueRunDeletionStores c) (elems (d_RunIDs d)) (d_ID d) h')).
Proof.
  unfold fence_all. generalize (elems (d_RunIDs d)) as plan. intros plan.
  apply (always_each _ _ _ _ (λ l h', grows h h' ∧ all_fenced (uniqueRunDeletionStores c) l (d_ID d) h')).
  { split; [reflexivity|]. by intros r s ?%elem_of_nil. }
  intros l r h1 _ [Hg1 Hl].
  eapply always_mono; [|apply (always_each _ _ _ _ (λ stores h', grows h1 h' ∧
    ∀ s, s ∈ stores → ∃ ctx, Ev (CFence ctx s r (d_ID d)) (Ok tt) ∈ h'))].
  - intros [[]|e] h2; [|done]. simpl. intros [Hg2 Hr]. split; [by etrans|].
    intros r' s [Hr'|Hr']%elem_of_app Hs; [|apply list_elem_of_singleton in Hr' as ->; by apply Hr].
    destruct (Hl r' s Hr' Hs) as [ctx' Hin]. exists ctx'. by apply (grows_in h1).
  - split; [reflexivity|]. by intros s ?%elem_of_nil.
  - intros stores s h2 _ [Hg2 Hr]. apply ordered_call; [done|]. intros [[]|e]; [|done]. simpl.
    split; [etrans; [exact Hg2|apply grows_snoc]|]. intros s' [Hs'|Hs']%elem_of_app.
    + destruct (Hr s' Hs') as [ctx' Hin]. exists ctx'. apply elem_of_app. by left.
    + apply list_elem_of_singleton in Hs' as ->. eexists. apply elem_of_app. right. apply list_elem_of_singleton. reflexivity.
Qed.

Lemma unlink_stage_plan ctx d h :
  d_Phase d = RunDeletionUnlinked ∨ plan_known h d →
  always ordered (unlink_stage c ctx d) h
    (post (λ d' h', grows h h' ∧
      (coherent h' → d_ID d' = d_ID d ∧ ∀ r, r ∈ elems (d_RunIDs d') → elems (d_RunIDs d) ≠ [] → r ∈ elems (d_RunIDs d)))).
Proof.
  intros Hk. unfold unlink_stage. case_bool_decide as Hph; [simpl; split; [reflexivity|by intros]|]. destruct Hk as [|Hk]; [done|].
  apply ordered_do; [apply keeps_unlink|]. intros _ h1 Hg1. apply always_do.
  eapply always_mono; [|apply advance_known]. intros [d'|e] h2; [|done]. intros (Hg2 & Hk2 & Hid).
  apply ordered_do; [apply keeps_move_manifest|]. intros _ h3 Hg3. simpl. split; [repeat (etrans; [eassumption|]); reflexivity|].
  assert (grows h h3) as Hg3' by (repeat (etrans; [eassumption|]); reflexivity).
  intros Hc. assert (coherent h2) as Hc2 by (by eapply coherent_grows).
  split; [by apply Hid|]. intros r Hr Hne.
  destruct (Hk (coherent_grows _ _ Hg3' Hc) Hne) as (d0 & Hk0 & Hid0 & Hp0). destruct Hc as (_ & _ & Hc). rewrite <-Hp0, (Hc d0 d'); [done|..].
  - apply (known_grows h); [repeat (etrans; [eassumption|]); reflexivity|done].
  - by apply (known_grows h2).
  - rewrite Hid0. symmetry. by apply Hid.
  - by rewrite Hp0.
  - intros He. rewrite He in Hr. by apply elem_of_nil in Hr.
Qed.

Lemma delete_all_ordered ctx d h :
  (∀ h', grows h h' → coherent h' → ∀ r, r ∈ elems (d_RunIDs d) →
     ∃ plan, stored_plan h' (d_ID d) plan ∧ r ∈ plan ∧ all_fenced (uniqueRunDeletionStores c) plan (d_ID d) h') →
  always ordered (delete_all c ctx d) h (post (λ _ h', grows h h')).
Proof.
  intros Hd. unfold delete_all. apply (always_each _ _ _ _ (λ _ h', grows h h')); [reflexivity|].
  intros _ r h1 Hr Hg1. apply (always_each _ _ _ _ (λ _ h', grows h h')); [done|].
  intros _ s h2 Hs Hg2. split.
  - intros Hc. destruct (Hd h2 Hg2 Hc r Hr) as [plan Hp]. exists (d_ID d), plan. by split.
  - intros [u|e]; simpl; [etrans; [exact Hg2|apply grows_snoc]|].
    destruct (is_not_found e); simpl; [|done]. etrans; [exact Hg2|apply grows_snoc].
Qed.

Lemma all_fenced_grows stores plan id h h' : grows h h' → all_fenced stores plan id h → all_fenced stores plan id h'.
Proof. intros Hg Hf r s Hr Hs. destruct (Hf r s Hr Hs) as [ctx Hin]. exists ctx. by apply (grows_in h). Qed.

(** A planned deletion is known by its reservation, an unlinked one also by its manifest. *)
Definition has_plan (h : list (event call)) (d : RunDeletionState) : Prop :=
  d_Phase d = RunDeletionUnlinked ∧ stored_plan h (d_ID d) (elems (d_RunIDs d)) ∨ plan_known h d.

Lemma has_plan_stored h h' d :
  grows h h' → coherent h' → elems (d_RunIDs d) ≠ [] → has_plan h d → stored_plan h' (d_ID d) (elems (d_RunIDs d)).
Proof.
  intros Hg Hc Hne [[_ H]|H]; (eapply stored_plan_grows; [exact Hg|]); [done|]. left. apply H; [|done].
  by eapply coherent_grows.
Qed.

Lemma reconcile_ordered ctx d h :
  has_plan h d → elems (d_RunIDs d) ≠ [] →
  always ordered (reconcileRunDeletion c ctx d) h (post (λ _ h', grows h h')).
Proof.
  intros Hk Hne. unfold reconcileRunDeletion.
  apply ordered_do; [apply keeps_plan_records|]. intros _ h1 Hg1. apply always_do.
  eapply always_mono; [|apply fence_all_fenced]. intros [[]|e] h2; [|done]. intros [Hg2 Hf].
  apply always_do. eapply always_mono; [|apply unlink_stage_plan].
  2: { destruct Hk as [[Hk _]|Hk]; [by left|right]. eapply plan_known_grows; [|exact Hk]. by etrans. }
  intros [d'|e] h3; [|done]. intros [Hg3 Hsub]. apply always_do.
  eapply always_mono; [|apply delete_all_ordered].
  - intros [[]|e] h4; [|done]. simpl. intros Hg4. apply ordered_end; [apply keeps_move_manifest|].
    repeat (etrans; [eassumption|]). reflexivity.
  - intros h4 Hg4 Hc r Hr. destruct Hsub as [-> Hsub]; [by eapply coherent_grows|].
    exists (elems (d_RunIDs d)). split_and!.
    + apply (has_plan_stored h); [repeat (etrans; [eassumption|]); reflexivity|done..].
    + by apply Hsub.
    + eapply all_fenced_grows; [|exact Hf]. by etrans.
Qed.

Lemma DeleteRun_ordered ctx depth runID h : always ordered (DeleteRun c ctx depth runID) h (post (λ _ h', grows h h')).
Proof.
  unfold DeleteRun. case_bool_decide; [done|]. apply ordered_do; [apply keeps_stores|]. intros _ h1 Hg1.
  apply always_do. eapply always_mono; [|apply prepare_known]. intros [d|e] h2; [|done]. intros (Hg2 & Hk & Hne).
  apply ordered_do; [apply keeps_ensure_manifest|]. intros _ h3 Hg3.
  eapply always_mono; [|apply reconcile_ordered; [right; by eapply plan_known_grows|done]].
  intros [[]|e] h4; [|done]. simpl. intros Hg4. repeat (etrans; [eassumption|]). reflexivity.
Qed.

(** A valid deletion that is planned or unlinked has a plan. *)
Lemma valid_plan_nonempty d :
  validateRunDeletionState (Some d) = Ok tt → d_Phase d ∈ [RunDeletionPlanned; RunDeletionUnlinked] → elems (d_RunIDs d) ≠ [].
Proof.
  intros Hv Hp Hne. simpl in Hv. store_inv. rewrite Hne in *.
  rewrite !elem_of_cons in Hp. destruct Hp as [Hp|[Hp|?%elem_of_nil]]; [| |done];
    rewrite Hp in *; by match goal with H : (if _ then _ else _) = Ok tt |- _ => vm_compute in H end.
Qed.

(** The root's own reservation agrees with a planned manifest. *)
Lemma matches_run_known ctx m h (f : unit → action unit) Q :
  m_Phase m = RunDeletionPlanned →
  (∀ h', grows h h' → plan_known h' (manifest_state m) → always ordered (f tt) h' (post Q)) →
  always ordered (abind (pbind (perform (CGetRun ctx (m_RootRunID m))) (λ r,
    do! root := check_as "load deletion root" (m_RootRunID m) r in validateRunDeletionManifestMatchesRun m root)) f) h (post Q).
Proof.
  intros Hp Hf. apply always_do, ordered_call; [done|]. intros [run|e]; [|done]. set (h1 := h ++ _).
  cbn [check_as]. unfold abind at 1. simpl pbind at 1. unfold validateRunDeletionManifestMatchesRun.
  destruct (r_Deletion run) as [d|] eqn:Hd; [|done].
  apply ordered_deny. intros Hr. apply ordered_deny. intros Hid. apply ordered_deny. intros Hpl.
  rewrite bool_decide_true by done. unfold deny.
  destruct (bool_decide (d_Phase d ∈ [RunDeletionPlanned; RunDeletionUnlinked])) eqn:Hph; [|done]. apply bool_decide_eq_true in Hph. simpl.
  apply Hf; [apply grows_snoc|]. intros Hc Hne. exists d. assert (known h1 d) as Hk by (by apply known_get).
  apply orb_false_iff in Hid as [[Hid%negb_false_iff%bool_decide_eq_true _]%orb_false_iff _].
  split_and!; [done|by rewrite Hid|].
  assert (elems (d_RunIDs d) ≠ []) as Hdne by (apply valid_plan_nonempty; [by apply Hc|done]).
  apply andb_false_iff in Hpl as [Hpl%negb_false_iff%bool_decide_eq_true|Hpl%negb_false_iff%bool_decide_eq_true]; [done|].
  by rewrite Hpl.
Qed.

Lemma reconcile_manifest_ordered ctx m h :
  validateRunDeletionManifest m = Ok tt → listed h m →
  always ordered (reconcileRunDeletionManifest c ctx m) h (post (λ _ h', grows h h')).
Proof.
  intros Hm Hl. unfold reconcileRunDeletionManifest. cbv zeta.
  destruct (validateRunDeletionState (Some (manifest_state m))) as [[]|e] eqn:Hv; [|done].
  cbn [check_as]. unfold abind at 1. simpl pbind at 1.
  assert (m_RunIDs m ≠ []) as Hne.
  { intros He. unfold validateRunDeletionManifest in Hm. store_inv. rewrite He in *.
    match goal with H : (if ?b then _ else _) = Ok tt |- _ => destruct b; by vm_compute in H end. }
  case_bool_decide as Hp.
  - apply matches_run_known; [done|]. intros h1 Hg1 Hk.
    eapply always_mono; [|apply reconcile_ordered; [by right|done]].
    intros [[]|e] h2; [|done]. simpl. intros Hg2. by etrans.
  - apply ordered_do; [done|]. intros [] h1 Hg1.
    eapply always_mono; [|apply reconcile_ordered; [left; split|done]].
    + intros [[]|e] h2; [|done]. simpl. intros Hg2. by etrans.
    + clear Hm. simpl in Hv. store_inv. repeat case_bool_decide; try done.
    + right. exists m. split; [|done]. by eapply listed_grows.
Qed.

Lemma ordered_check_as {A B} what run (m : result store_error A) (f : A → action B) h Q :
  (∀ a, m = Ok a → always ordered (f a) h (post Q)) → always ordered (abind (check_as what run m) f) h (post Q).
Proof. intros H. destruct m as [a|e]; [by apply H|done]. Qed.

Lemma reconcile_manifests_ordered ctx table l h :
  Forall (listed h) l →
  always ordered (reconcile_manifests c ctx table l) h (post (λ _ h', grows h h')).
Proof.
  revert table h. induction l as [|m l IH]; intros table h Hl; cbn [reconcile_manifests]; [simpl; reflexivity|].
  apply Forall_cons in Hl as [Hm Hl].
  apply ordered_check_as. intros [] Hv. apply ordered_deny. intros _. case_bool_decide; [by apply IH|].
  apply always_do. eapply always_mono; [|by apply reconcile_manifest_ordered]. intros [[]|e] h1; [|done]. intros Hg1.
  apply ordered_call; [done|]. intros now. set (e := Ev CNow now). eapply always_mono; [|apply IH].
  - intros [t|er] h2; [|done]. simpl. intros Hg2. etrans; [exact Hg1|]. etrans; [apply grows_snoc|exact Hg2].
  - eapply Forall_impl; [exact Hl|]. intros m' Hm'. eapply listed_grows; [|exact Hm']. etrans; [exact Hg1|apply grows_snoc].
Qed.

Lemma resume_reserved_ordered ctx depth table id reserved h :
  always ordered (resume_reserved c ctx depth table id reserved) h (post (λ _ h', grows h h')).
Proof.
  unfold resume_reserved. destruct (filter _ _) as [|root [|]]; [done| |done].
  apply always_do. eapply always_mono; [|apply prepare_known]. intros [d|e] h1; [|done]. intros (Hg1 & Hk & Hne).
  apply ordered_do; [apply keeps_ensure_manifest|]. intros _ h2 Hg2. apply always_do.
  eapply always_mono; [|apply reconcile_ordered; [right; by eapply plan_known_grows|done]].
  intros [[]|e] h3; [|done]. intros Hg3. apply ordered_end; [keeps|]. repeat (etrans; [eassumption|]). reflexivity.
Qed.

Lemma keeps_check_reserved m run : keeps (check_reserved m run).
Proof.
  unfold check_reserved, validateRunDeletionManifestMatchesRun. apply keeps_do; [keeps|]. intros _.
  destruct (is_own_root run); [|done]. destruct (r_Deletion run); keeps.
Qed.

Lemma keeps_reserved_runs table l : keeps (reserved_runs table l).
Proof. revert table. induction l as [|r l IH]; intros table; cbn [reserved_runs]; [done|]. destruct (r_Deletion r); keeps. Qed.

Lemma reconcile_reserved_ordered ctx depth table runs ids h :
  always ordered (reconcile_reserved c ctx depth table runs ids) h (post (λ _ h', grows h h')).
Proof.
  revert table h. induction ids as [|id ids IH]; intros table h; cbn [reconcile_reserved]; [simpl; reflexivity|].
  destruct (table !! id) as [m|].
  - apply ordered_do; [keeps|]. intros _ h1 Hg1. apply ordered_do; [apply keeps_each; intros r; apply keeps_check_reserved|].
    intros _ h2 Hg2. eapply always_mono; [|apply IH]. intros [[]|e] h3; [|done]. simpl. intros Hg3.
    repeat (etrans; [eassumption|]). reflexivity.
  - apply always_do. eapply always_mono; [|apply resume_reserved_ordered]. intros [t|e] h1; [|done]. intros Hg1.
    eapply always_mono; [|apply IH]. intros [[]|e] h2; [|done]. simpl. intros Hg2. by etrans.
Qed.

Lemma Reconcile_ordered ctx depth h : always ordered (ReconcileRunDeletions c ctx depth) h (post (λ _ _, True)).
Proof.
  unfold ReconcileRunDeletions. apply ordered_do; [apply keeps_stores|]. intros _ h1 _.
  apply ordered_do; [keeps|]. intros _ h2 _. destruct (negb _); [done|].
  apply always_do, ordered_call; [done|]. intros [ms|e]; [|done]. simpl. apply always_do.
  eapply always_mono; [|apply reconcile_manifests_ordered].
  2: { apply Forall_forall. intros m Hm. exists ctx, ms. split; [|done]. apply elem_of_app. right. left. }
  intros [table|e] h4; [|done]. intros _.
  apply ordered_do; [keeps|]. intros _ h5 _. apply ordered_do; [keeps|]. intros runs h6 _.
  apply ordered_do; [apply keeps_reserved_runs|]. intros reserved h7 _.
  eapply always_mono; [|apply reconcile_reserved_ordered]. by intros [[]|e] h8.
Qed.
End fences.

(** ** Traces of runs *)

(** What [n] calls of a program leave to do. *)
Fixpoint rest {A} (n : nat) (p : prog call A) (w : World) : prog call A :=
  match n, p with
  | S n, Do c k => let '(w, x) := handle c w in rest n (k x) w
  | _, _ => p
  end.

Fixpoint run_trace {A} (n : nat) (p : prog call A) (w : World) : list (event call) :=
  match n, p with
  | S n, Do c k => let '(w, x) := handle c w in Ev c x :: run_trace n (k x) w
  | _, _ => []
  end.

Lemma trace_then {A} n (p : prog call A) w t : trace (rest n p w) t → trace p (run_trace n p w ++ t).
Proof.
  revert p w. induction n as [|n IH]; intros p w; [done|]. destruct p as [a|X c k]; [done|]. simpl.
  destruct (handle c w) as [w' x]. intros Ht. apply trace_call. by apply IH.
Qed.

(** The deletion a program asks for next. *)
Definition next_delete {A} (p : prog call A) : option (Context * string * string) :=
  match p with Do (CDelete ctx s r) _ => Some (ctx, s, r) | _ => None end.

Lemma next_delete_trace {A} (p : prog call A) ctx s r x : next_delete p = Some (ctx, s, r) → trace p [Ev (CDelete ctx s r) x].
Proof.
  destruct p as [a|X c k]; [done|]. destruct c; simpl; try done. intros [= -> -> ->]. apply trace_call, trace_stop.
Qed.

(** The reservations a call shows. *)
Definition shown (o : option RunDeletionState) : list RunDeletionState := match o with Some d => [d] | None => [] end.
Definition event_states (e : event call) : list RunDeletionState :=
  match e with
  | Ev c x =>
    match c in call X return X → list RunDeletionState with
    | CGetRun _ _ => λ x, match x with Ok r => shown (r_Deletion r) | Err _ => [] end
    | CCompareAndSwap _ _ run => λ x, match x with Ok r => shown (r_Deletion r) ++ shown (r_Deletion run) | Err _ => [] end
    | _ => λ _, []
    end x
  end.
Definition written (e : event call) : bool :=
  match e with
  | Ev c x =>
    match c in call X return X → bool with
    | CCompareAndSwap _ _ run => λ x, match x with Ok r => bool_decide (deletion_id (r_Deletion r) = deletion_id (r_Deletion run)) | Err _ => true end
    | _ => λ _, true
    end x
  end.

Definition coherent_history (h : list (event call)) : bool :=
  let ds := concat (map event_states h) in
  forallb (λ d, match validateRunDeletionState (Some d) with Ok _ => true | Err _ => false end) ds && forallb written h
  && forallb (λ d, forallb (λ d', negb (bool_decide (d_ID d = d_ID d')) || bool_decide (elems (d_RunIDs d) = [])
       || bool_decide (elems (d_RunIDs d') = []) || bool_decide (elems (d_RunIDs d) = elems (d_RunIDs d'))) ds) ds.

Lemma coherent_history_ok h : coherent_history h = true → coherent h.
Proof.
  unfold coherent_history. rewrite !andb_true_iff, !forallb_forall. intros [[Hv Hw] Hp].
  assert (∀ d, known h d → In d (concat (map event_states h))) as Hk.
  { intros d (run & Hd & Hin). apply list_elem_of_In, elem_of_concat_map.
    destruct Hin as [(ctx & i & Hin)|(ctx & n & run' & [Hin|Hin])]; eexists; (split; [exact Hin|]); simpl; rewrite Hd; simpl.
    - left.
    - left.
    - apply elem_of_app. right. left. }
  split_and!.
  - intros d Hd. specialize (Hv d (Hk d Hd)). by destruct (validateRunDeletionState (Some d)) as [[]|e].
  - intros ctx n run run' Hin. apply list_elem_of_In in Hin. specialize (Hw _ Hin). by apply bool_decide_eq_true in Hw.
  - intros d d' Hd Hd' Hid Hn Hn'. specialize (Hp d (Hk d Hd)). rewrite forallb_forall in Hp. specialize (Hp d' (Hk d' Hd')).
    rewrite !orb_true_iff, negb_true_iff, bool_decide_eq_false, !bool_decide_eq_true in Hp. tauto.
Qed.

(** C39: Nothing is deleted before it is fenced.  Against arbitrary answers of the
    stores, and so beside any other processes and failing calls, if only the answers
    of the execution store are [coherent] (the reservations it reports are valid and
    keep their deletion and their plan): when the coordinator asks a store to delete
    a run, in [DeleteRun] as in [ReconcileRunDeletions], the call carries a deletion,
    the coordinator has read or written that deletion's plan in the store, the run
    is in it, and every run of that plan has been fenced for that deletion in every
    store. *)
Theorem fenced_before_deleted c ctx depth p t ctx' s runID x t' :
  p = ReconcileRunDeletions c ctx depth ∨ (∃ rootID, p = DeleteRun c ctx depth rootID) →
  trace p (t ++ Ev (CDelete ctx' s runID) x :: t') → coherent t →
  ∃ deletionID plan, deletion_mutation ctx' = Some deletionID ∧ stored_plan t deletionID plan ∧
    runID ∈ plan ∧ all_fenced (uniqueRunDeletionStores c) plan deletionID t.
Proof.
  intros Hp Ht Hc.
  assert (∃ Q, always (ordered c) p [] Q) as [Q Ha].
  { destruct Hp as [->|[rootID ->]]; eexists; [apply Reconcile_ordered|apply DeleteRun_ordered]. }
  exact (always_trace _ _ _ _ _ _ _ Ha Ht Hc).
Qed.

Lemma fenced_before_deleted_witness :
  let p := DeleteRun memory_coordinator Background 10 "mid" in
  let t := run_trace 29 p tree in
  ∃ deletionID plan, deletion_mutation (withRunDeletionMutation Background "deletion-0") = Some deletionID ∧
    stored_plan t deletionID plan ∧ "leaf" ∈ plan ∧
    all_fenced (uniqueRunDeletionStores memory_coordinator) plan deletionID t.
Proof.
  cbv zeta.
  apply (fenced_before_deleted memory_coordinator Background 10 (DeleteRun memory_coordinator Background 10 "mid")
    (run_trace 29 (DeleteRun memory_coordinator Background 10 "mid") tree)
    (withRunDeletionMutation Background "deletion-0") artifact_ref "leaf" (Ok tt) []).
  - right. by exists "mid".
  - apply trace_then, next_delete_trace. vm_compute. reflexivity.
  - apply coherent_history_ok. vm_compute. reflexivity.
Defined.
