(* ===== verification/DeletionResume.v ===== *)
(** * Interrupted deletions: [runtime/run_deletion.go] on the memory stores

    Once the plan of a deletion and its manifest are stored, the deletion can stop
    at any call, any number of times; carrying on from the manifest, as
    [ReconcileRunDeletions] does, then succeeds, removes every run of the plan from
    every store and touches nothing else. *)

From stdpp Require Import pretty.
From S2P Require Import Prelude GoStrings Values Json Sensitive Lease Records RunStore Stores Artifacts Commit Programs DeletionPlan.


(** ** Interrupted deletions on the memory stores *)
















(** ** The states of a deletion *)

Section deletion.
Context (ctx : Context) (id root parent lineage : string) (plan : list string).










Context (w0 : World).






Context (Hctx : ctx_err ctx = None) (Hunlink : unlink_mutation ctx = None).
Context (Hvalid : validateRunDeletionState (Some (MkDeletion id root parent RunDeletionPlanned (Some plan))) = Ok tt).
Context (Hparent : parent ∉ plan) (Hlineage : lineage ≠ "").

(** ** The names are good *)








(** ** The calls *)

(** A context the coordinator passes on. *)
Definition carries (c : Context) : Prop := ctx_err c = None ∧ secrets c = secrets ctx.

Lemma carries_ctx : carries ctx.
Proof. by split. Qed.

Lemma carries_mutation c : carries c → carries (withRunDeletionMutation c id).
Proof. done. Qed.



(** ** What each change keeps *)










(** ** Fences *)











(** ** Deleting *)








(** ** The stages of a reconciliation *)







(** ** Writes of single records *)




















(** ** Moving the root's phase *)











(** ** Moving the manifest *)









(** ** Unlinking, deleting, marking *)








(** ** A whole reconciliation *)




(** ** The reconciliation at start-up *)


















End deletion.







(** ** A child that was never created *)

(** A completed run that reserved a child and never created it. *)
Definition pending_child : PendingChildRun :=
  MkPending "key" (childRunIDForRequestKey "key") "solo" "s" "t" "g" "g" "v" "h" "sh" "ses" "ns" "ih" 5.
Definition solo : World := world_of [tree_run "solo" "" "solo" [] [pending_child]].

(** A run with a reserved child that was never created cannot be deleted.  The
    walk of the hierarchy puts the missing child into the plan, and the check of
    the planned records refuses it: [DeleteRun] stores the reservation, the plan
    and the manifest and then fails, and [ReconcileRunDeletions] fails from then
    on and changes nothing. *)
Theorem pending_child_blocks_deletion :
  let refused := DRefused (childRunIDForRequestKey "key") "planned run is missing" in
  let r := run_prog (DeleteRun memory_coordinator Background 10 "solo") solo in
  r.2 = Err refused ∧ map m_Phase (map snd (map_to_list (manifests (w_runtime r.1)))) = [RunDeletionPlanned] ∧
  run_prog (ReconcileRunDeletions memory_coordinator Background 10) r.1 = (r.1, Err refused).
Proof. vm_compute. split; [reflexivity|split; reflexivity]. Qed.
