(* ===== verification/FileDelete.v ===== *)
(** * Deleting a run on disk, interrupted and resumed

    [Store.DeleteRun] removes the files of a run one by one.  It may fail or be
    cut off after any of them; its fences stay, so it can be done again, and
    the last time it leaves nothing of the run. *)

From Stdlib Require Import Ascii.
From S2P Require Import Prelude GoStrings Values Json Sensitive Errors Lease Records RunStore Stores Artifacts Commit Transactions FileDisk FileStore FileTxn Recovery.

(** ** Removing files *)

(** The records of a run; its fences are not among them. *)
Definition of_run (runID : string) (p : Path) : bool :=
  match p with
  | PRun r | PStep r _ | PCheckpoint r _ | PPayload r _ | PEvents r => bool_decide (r = runID)
  | PFence _ _ => false
  end.

Definition without_file (p : Path) (d : Disk) : Disk := with_files (set_file p None (dk_files d)) d.

(** A property that survives the removal of records of the run. *)
Definition shrinks (runID : string) (P : Disk → Prop) : Prop :=
  ∀ p d, of_run runID p = true → P d → P (without_file p d).

Definition gone (test : Path → bool) (d : Disk) : Prop := ∀ p, test p = true → dk_files d !! p = None.

Lemma without_lookup p q d : dk_files (without_file p d) !! q = if decide (p = q) then None else dk_files d !! q.
Proof. simpl. case_decide as Hp; [subst; apply set_file_same|by apply set_file_other]. Qed.

Lemma shrinks_and runID P Q : shrinks runID P → shrinks runID Q → shrinks runID (λ d, P d ∧ Q d).
Proof. intros HP HQ p d Hp [H1 H2]. split; [by apply HP|by apply HQ]. Qed.

Lemma shrinks_gone runID test : shrinks runID (gone test).
Proof. intros p d _ Hg q Hq. rewrite without_lookup. case_decide; [done|by apply Hg]. Qed.

Section remove.
Context (ok : Fault → bool) (runID : string).

Definition cut (P : Disk → Prop) (d : Disk) : Prop := P d ∧ ¬ calm ok.

Lemma remove_file_triple P p :
  shrinks runID P → of_run runID p = true →
  triple ok P (removeRunnerFile p)
    (λ r d, P d ∧ (r = Ok tt → dk_files d !! p = None) ∧ (r ≠ Ok tt → ¬ calm ok)) (cut P).
Proof.
  intros HP Hp. apply triple_mutate.
  - intros d Hd. split_and!; [by apply HP|intros _; apply set_file_same|done].
  - intros d Hd Hn. split; [by split|]. split; (split; [|done]); [done|by apply HP].
  - intros d Hd Ha. split_and!; [by apply HP|done|]. intros _ Hc. by apply Hc in Ha.
Qed.

Lemma remove_all_triple P l :
  shrinks runID P → (∀ p, p ∈ l → of_run runID p = true) →
  triple ok P (remove_all l)
    (λ r d, P d ∧ (r = Ok tt → ∀ p, p ∈ l → dk_files d !! p = None) ∧ (r ≠ Ok tt → ¬ calm ok)) (cut P).
Proof.
  revert P. induction l as [|p l IH]; intros P HP Hl; simpl.
  { apply triple_ret. intros d Hd. split_and!; [done| |done]. by intros _ p ?%elem_of_nil. }
  eapply triple_bind; [apply remove_file_triple; [exact HP|apply Hl; left]|]. intros r.
  eapply triple_bind.
  - eapply triple_weaken; [|by intros d Hx; exact Hx|by intros r' d Hx; exact Hx|].
    + apply IH; [|intros q Hq; apply Hl; by right].
      intros q d Hq (H1 & H2 & H3). split; [by apply HP|]. split; [|exact H3].
      intros Hr. rewrite without_lookup. case_decide; [done|by apply H2].
    + intros d [[? _] ?]. by split.
  - intros r'. apply triple_ret. intros d ((H1 & H2 & H3) & H4 & H5).
    destruct r' as [[]|e]; [|split_and!; [done|done|intros _; by apply H5]].
    split_and!; [done| |done]. intros Hr q [->|Hq]%elem_of_cons; [by apply H2|by apply H4].
Qed.

Lemma in_paths_where test d p : p ∈ paths_where test d ↔ test p = true ∧ is_Some (dk_files d !! p).
Proof.
  unfold paths_where. rewrite stable_sort_elem_of, list_elem_of_filter. apply and_iff_compat_l. split.
  - intros ([q x] & -> & Hq)%list_elem_of_fmap. apply elem_of_map_to_list in Hq. by exists x.
  - intros [x Hx]. apply list_elem_of_fmap. exists (p, x). split; [done|]. by apply elem_of_map_to_list.
Qed.

Lemma remove_directory_triple `{DirOrder} P test :
  shrinks runID P → (∀ p, test p = true → of_run runID p = true) →
  triple ok P (removeRunnerDirectory test)
    (λ r d, P d ∧ (r = Ok tt → gone test d) ∧ (r ≠ Ok tt → ¬ calm ok)) (cut P).
Proof.
  intros HP Ht. unfold removeRunnerDirectory.
  set (left_in := λ (l : list Path) (d : Disk), P d ∧ ∀ p, test p = true → is_Some (dk_files d !! p) → p ∈ l).
  eapply triple_mr_bind with
    (R := λ r d, match r with Ok l => left_in l d ∧ ∀ p, p ∈ l → of_run runID p = true | Err _ => cut P d end).
  - apply triple_fetch; [|by intros d Hd Hn; split].
    intros d Hd. assert (∀ p, p ∈ dir_order (paths_where test d) ↔ test p = true ∧ is_Some (dk_files d !! p)) as Hin.
    { intros p. rewrite (dir_order_perm (paths_where test d)). apply in_paths_where. }
    split; [split; [done|]; intros p; rewrite Hin; by split|]. intros p [Hp _]%Hin. by apply Ht.
  - intros l. apply triple_pure. intros Hl. eapply triple_mr_bind.
    + eapply triple_weaken; [apply (remove_all_triple (left_in l))|by intros d Hx; exact Hx|by intros r d Hx; exact Hx|intros d [[? _] ?]; by split].
      * intros q d Hq [H1 H2]. split; [by apply HP|]. intros x Hx. rewrite without_lookup. case_decide; [by intros [? ?]|by apply H2].
      * done.
    + intros []. apply triple_fetch.
      * intros d ([Hd Hin] & Hg & _). split_and!; [done| |done]. intros _ p Hp.
        destruct (dk_files d !! p) eqn:E; [|done]. rewrite Hg in E; [done|done|]. by apply Hin; rewrite ?E.
      * intros d ([Hd _] & _) Hn. split; [by split_and!|by split].
    + intros e d ([Hd _] & _ & Hn). split_and!; [done|done|]. intros _. by apply Hn.
  - intros e d [Hd Hn]. by split_and!.
Qed.

(** *** [DeleteRun] *)

Context (writer : option bool) (ctx : Context).

(** The fences of the run, and its reservation while it is there, are of a deletion
    the caller carries out. *)
Definition deletable (f : Files) : Prop :=
  ∃ del, storage_id "deletion ID" del = Ok tt ∧ requireRunDeletionMutation ctx runID del = Ok tt ∧
    (∀ sp, f !! PFence sp runID = Some (FFence (MkFence runID del))) ∧
    (∀ x, f !! PRun runID = Some x → ∃ r st, x = FRun r ∧ r_RunID r = runID ∧ r_Deletion r = Some st ∧
       validateRunDeletionState (r_Deletion r) = Ok tt ∧ d_ID st = del).

(** Files that differ from [F] in records of the run only. *)
Definition framed (F f : Files) : Prop := ∀ p, of_run runID p = false → f !! p = F !! p.

Definition deleting (F : Files) (d : Disk) : Prop :=
  dk_journals d = ∅ ∧ deletable (dk_files d) ∧ framed F (dk_files d).

(** The same of what a disk stands for. *)
Definition under_deletion (F : Files) (d : Disk) : Prop :=
  disk_wf d ∧ deletable (settle d).1 ∧ framed F (settle d).1.

Lemma deleting_under F d : deleting F d → under_deletion F d.
Proof. intros (He & Hd & Hf). split; [by apply disk_idle|]. by rewrite settle_idle. Qed.

Lemma shrinks_deleting F : shrinks runID (deleting F).
Proof.
  intros p d Hp (He & (del & H1 & H2 & H3 & H4) & Hf). split; [done|]. split.
  - exists del. split_and!; [done|done| |].
    + intros sp. rewrite without_lookup. case_decide; [by subst|apply H3].
    + intros x. rewrite without_lookup. case_decide; [done|apply H4].
  - intros q Hq. rewrite without_lookup. case_decide; [subst; congruence|by apply Hf].
Qed.

Lemma deletable_checked d : deletable (dk_files d) → check_deletion ctx runID d = Ok tt.
Proof.
  intros (del & H1 & H2 & H3 & H4).
  assert (∀ sp, requireRunDeletionLocked ctx sp runID d = Ok tt) as Hsp.
  { intros sp. unfold requireRunDeletionLocked, readIfExists, readRunnerFile. rewrite H3. simpl.
    unfold validateRunDeletionFence. simpl. rewrite bool_decide_true by done. simpl. by rewrite H1, H2. }
  unfold check_deletion. rewrite !Hsp. simpl. unfold readRunLocked, readRunnerFile.
  destruct (dk_files d !! PRun runID) as [x|] eqn:E; [|done].
  destruct (H4 x eq_refl) as (r & st & -> & Hr & Hdel & Hv & Hid). simpl. rewrite bool_decide_true by done. simpl.
  unfold check_reserved. rewrite Hv, Hdel. simpl. by rewrite Hid, H2.
Qed.

Hypothesis Hctx : ctx_err ctx = None.
Hypothesis Hrun : validateRunID runID = Ok tt.
Hypothesis Hwriter : writer = Some false.

Lemma delete_triple `{DirOrder} F :
  triple ok (under_deletion F) (fileDeleteRuntimeRun writer ctx runID)
    (λ r d, under_deletion F d ∧
       (r = Ok tt → dk_journals d = ∅ ∧ framed F (dk_files d) ∧ gone (of_run runID) d) ∧ (r ≠ Ok tt → ¬ calm ok))
    (cut (under_deletion F)).
Proof.
  assert (∀ P : Disk → Prop, (∀ d, P d → deleting F d) → ∀ d, cut P d → cut (under_deletion F) d) as Hcut.
  { intros P HP d [Hd Hn]. split; [by apply deleting_under, HP|done]. }
  unfold fileDeleteRuntimeRun. eapply triple_mr_bind with (R := λ r d, under_deletion F d ∧ r = Ok tt).
  { apply triple_ret. intros d Hd. split; [done|]. unfold fileContext, fileStoreContextErr. by rewrite Hctx, Hrun, Hwriter. }
  2:{ by intros e d [_ ?]. }
  intros []. eapply triple_mr_bind with (R := λ r d, under_deletion F d ∧ (r = Ok tt → deleting F d) ∧ (r ≠ Ok tt → ¬ calm ok)).
  { intros d φ [(Hw & Hd & Hf) _] Hφ. destruct (recover_triple ok (settle d) d φ (conj Hw eq_refl) Hφ) as [Hok Hr].
    split; [done|]. assert (∀ d', stands (settle d) d' → under_deletion F d') as Hst by (intros d' [? He]; by rewrite <-He in *).
    destruct (recoverLocked d φ).2 as [r|]; [|destruct Hr; split; by auto].
    destruct Hr as (Hs & He & Hn). split_and!; [by auto| |done].
    intros Hr. specialize (He Hr). split; [done|]. destruct Hs as [_ Hs]. rewrite settle_idle in Hs by done. by rewrite <-Hs in *. }
  2:{ intros e d (Hd & _ & Hn). split_and!; [done|done|by auto]. }
  intros []. eapply triple_mr_bind with (R := λ r d, deleting F d ∧ (r ≠ Ok tt → ¬ calm ok)).
  { apply triple_fetch.
    - intros d (_ & Hd & _). specialize (Hd eq_refl). split; [done|]. by rewrite deletable_checked by apply Hd.
    - intros d (Hd & Hdel & _) Hn. split; [split; [by auto|done]|by split]. }
  2:{ intros e d [Hd Hn]. split_and!; [by apply deleting_under|done|by auto]. }
  intros []. eapply triple_mr_bind.
  { eapply triple_weaken; [apply (remove_directory_triple (deleting F)); [apply shrinks_deleting|by intros []]|by intros d [? _]|by intros ?? Hx; exact Hx|by apply Hcut]. }
  2:{ intros e d (Hd & _ & Hn). split_and!; [by apply deleting_under|done|by auto]. }
  intros []. set (P1 := λ d, deleting F d ∧ gone (in_checkpointsDir runID) d).
  assert (shrinks runID P1) as S1 by (apply shrinks_and; [apply shrinks_deleting|apply shrinks_gone]).
  eapply triple_mr_bind.
  { eapply triple_weaken; [apply (remove_file_triple P1 (PEvents runID)); [done|by apply bool_decide_eq_true]| |by intros ?? Hx; exact Hx|apply Hcut; by intros d [? _]].
    intros d (Hd & Hg & _). split; [done|by apply Hg]. }
  2:{ intros e d ([Hd _] & _ & Hn). split_and!; [by apply deleting_under|done|by auto]. }
  intros []. set (P2 := λ d, P1 d ∧ gone (λ p, bool_decide (p = PEvents runID)) d).
  assert (shrinks runID P2) as S2 by (apply shrinks_and; [done|apply shrinks_gone]).
  eapply triple_mr_bind.
  { eapply triple_weaken; [apply (remove_directory_triple P2 (in_stepsDir runID)); [done|by intros []]| |by intros ?? Hx; exact Hx|apply Hcut; by intros d [[? _] _]].
    intros d (Hd & Hg & _). split; [done|]. intros p ->%bool_decide_eq_true. by apply Hg. }
  2:{ intros e d ([[Hd _] _] & _ & Hn). split_and!; [by apply deleting_under|done|by auto]. }
  intros []. set (P3 := λ d, P2 d ∧ gone (in_stepsDir runID) d).
  assert (shrinks runID P3) as S3 by (apply shrinks_and; [done|apply shrinks_gone]).
  eapply triple_weaken; [apply (remove_file_triple P3 (PRun runID)); [done|by apply bool_decide_eq_true]| | |apply Hcut; by intros d [[[? _] _] _]].
  { intros d (Hd & Hg & _). split; [done|by apply Hg]. }
  intros r d ([[[Hd Hc] He] Hs] & Hg & Hn). split_and!; [by apply deleting_under| |done].
  intros Hr. destruct Hd as (Hj & Hd & Hf). split_and!; [done|done|].
  intros [x|x y|x y|x y|x|sp x] Hx; [| | | | |done]; apply bool_decide_eq_true in Hx; subst x.
  - by apply Hg.
  - apply Hs. by apply bool_decide_eq_true.
  - apply Hc. by apply bool_decide_eq_true.
  - apply Hc. by apply bool_decide_eq_true.
  - apply He. by apply bool_decide_eq_true.
Qed.
End remove.

(** A call of [DeleteRun] that ended or was cut off somewhere; each finds its own order
    of files in a directory. *)
Definition deletion_attempt (writer : option bool) (ctx : Context) (runID : string) (d d' : Disk) : Prop :=
  ∃ (O : DirOrder) φ, (fileDeleteRuntimeRun writer ctx runID d φ).1.1 = d'.

(** C24: a deletion can always be finished: on a run that is fenced and reserved for the caller's deletion, after
    any number of [DeleteRun] calls that failed or were cut off anywhere, with an unfinished
    commit on the disk or not, one that is left alone succeeds, leaves no file of the run, and
    leaves every other file as the first call found it *)
Theorem file_delete_resumes `{DirOrder} ctx runID d d' φ :
  ctx_err ctx = None → validateRunID runID = Ok tt →
  disk_wf d → deletable runID ctx (settle d).1 →
  rtc (deletion_attempt (Some false) ctx runID) d d' → Forall (λ f, f = Fine) φ →
  ∃ d'' φ', fileDeleteRuntimeRun (Some false) ctx runID d' φ = (d'', φ', Some (Ok tt)) ∧ dk_journals d'' = ∅ ∧
    ∀ p, dk_files d'' !! p = if of_run runID p then None else (settle d).1 !! p.
Proof.
  intros Hctx Hrun Hw Hd Hr Hφ. assert (under_deletion runID ctx (settle d).1 d') as Hu.
  { assert (under_deletion runID ctx (settle d).1 d) as H0 by done.
    generalize dependent (settle d).1. intros F _ H0. clear Hw. induction Hr as [|d1 d2 d3 (O & ψ & <-) _ IH]; [done|]. apply IH.
    destruct (delete_triple (among ψ) runID (Some false) ctx Hctx Hrun eq_refl F d1 ψ H0 (among_all ψ)) as [_ Hx].
    destruct (fileDeleteRuntimeRun (H:=O) _ _ _ _ _).2; by destruct Hx. }
  destruct (delete_triple (among φ) runID (Some false) ctx Hctx Hrun eq_refl _ d' φ Hu (among_all φ)) as [_ Hx].
  pose proof (among_calm φ Hφ) as Hc.
  destruct (fileDeleteRuntimeRun (Some false) ctx runID d' φ) as [[d2 φ2] [r|]]; simpl in Hx; [|by destruct Hx].
  destruct Hx as (_ & Hg & Hn). exists d2, φ2.
  assert (r = Ok tt) as -> by (destruct r as [[]|]; [done|by destruct (Hn ltac:(done))]).
  destruct (Hg eq_refl) as (He & Hf & Hgone). split_and!; [done..|].
  intros p. destruct (of_run runID p) eqn:Hp; [by apply Hgone|by apply Hf].
Qed.

(** ** A deletion cut off twice *)

Section demo.
#[local] Existing Instance demo_digest.

Definition as_sorted : DirOrder := {| dir_order l := l; dir_order_perm l := Permutation_refl l |}.
Definition from_the_end : DirOrder := {| dir_order l := reverse l; dir_order_perm l := reverse_Permutation l |}.
#[local] Existing Instance as_sorted.

Definition demo_reserved_run : RunRecord := with_Deletion (demo_deletion RunDeletionReserved None) demo_run.
Definition demo_fence : Content := FFence (MkFence "run-1" "del-1").

(** The run of the history, with its files, reserved and fenced. *)
Definition demo_doomed : Disk :=
  let f := dk_files (disk_after demo_put empty_disk []) in
  MkDisk (<[PRun "run-1" := FRun demo_reserved_run]> (<[PFence Execution "run-1" := demo_fence]>
    (<[PFence Checkpoints "run-1" := demo_fence]> (<[PFence EventLogs "run-1" := demo_fence]> f)))) ∅ ∅.

Definition demo_delete_run {O : DirOrder} : MR unit := fileDeleteRuntimeRun (Some false) demo_del "run-1".
Definition demo_half : Disk := disk_after demo_delete_run (disk_after (demo_delete_run (O := from_the_end)) demo_doomed (fault_at 5 CrashAfter)) (fault_at 4 FailBefore).

Lemma file_delete_resumes_witness :
  ∃ d' φ', demo_delete_run demo_half [] = (d', φ', Some (Ok tt)) ∧ dk_files d' !! PRun "run-1" = None.
Proof.
  destruct (file_delete_resumes demo_del "run-1" demo_doomed demo_half []) as (d' & φ' & Hd & _ & Hp).
  - reflexivity.
  - vm_compute. reflexivity.
  - apply disk_idle. reflexivity.
  - exists "del-1". split; [vm_compute; reflexivity|]. split; [vm_compute; reflexivity|]. split.
    + intros []; vm_compute; reflexivity.
    + intros x Hx. assert (x = FRun demo_reserved_run) as -> by (vm_compute in Hx; injection Hx as <-; vm_compute; reflexivity).
      eexists _, _. repeat split; vm_compute; reflexivity.
  - eapply rtc_l; [exists from_the_end, (fault_at 5 CrashAfter); reflexivity|].
    eapply rtc_l; [exists as_sorted, (fault_at 4 FailBefore); reflexivity|constructor].
  - constructor.
  - exists d', φ'. split; [exact Hd|]. rewrite Hp. reflexivity.
Defined.
End demo.
